(* ===== verification/_CoqProject ===== *)
-Q . S2P
Prelude.v
Ranges.v
Deque.v
GoLib.v
GoText.v
SortedSet.v
HyperLogLog.v
TimeSeries.v
Json.v
Glob.v
Store.v
StoreStrings.v
StoreHashes.v
StoreSets.v
Keyspace.v
StoreLists.v
StoreQueue.v
StoreLimits.v
StoreStreams.v
StoreSnapshot.v
StoreBits.v
StoreDocs.v
Geo.v
StoreSketch.v
StoreSearch.v
Schema.v
Namespace.v
Resp.v
Metrics.v
Cli.v
Cron.v
SlowLog.v
AuditLog.v
Clients.v
Scripting.v
PubSub.v
Webhooks.v
Notify.v
Cluster.v
Aof.v
AofSync.v
Config.v
Replay.v
Replication.v
MultiMaster.v
ServerCore.v
Subscriber.v
Http.v
HttpEvents.v
ServerKeys.v
ServerContainers.v
ServerRules.v
ServerData.v
ServerConn.v
ServerHttp.v
ServerAdmin.v
ServerScript.v
ServerSaving.v
ServerStart.v
ServerRecovery.v
ServerReplica.v
ServerSync.v
ServerSessions.v
ServerClient.v
ServerJoin.v
ServerIsolation.v
