(* ===== verification/Prelude.v ===== *)
(** * Vole in Rocq

    Vole is an in-memory data server that speaks the Redis protocol: a store
    of typed keys with deadlines (src/internal/store), a server that parses
    commands, checks, executes, logs and replicates them
    (src/internal/server), a wire format (src/internal/resp), a configuration
    file (src/internal/config), the server's main program and a command-line
    client (src/cmd).  This library models it as executable functions and proves
    what they promise.

    ** How the parts interact

    A connection reads a command ([Resp]), passes the gates of the connection
    loop ([ServerConn]: password, namespace, transaction, read-only replica,
    eviction), and reaches the handler of the command (ServerKeys,
    ServerContainers, ServerData).  The handler checks that this node owns the
    key ([Cluster]), calls one or more operations of the store (Store*.v),
    appends a record to the log ([Aof]) and answers.  The loop then hands write
    commands to replicas and peers ([Replication], [MultiMaster]) and enters them
    in the audit log, the slow log and the client list.  At start the snapshot is
    loaded and the log replayed, and a replica applies what it receives, with
    the tables of [Replay].  The HTTP gateway ([Http]) reaches the store beside
    the loop; scripts ([Scripting]) call the dispatcher again.  Changes of keys
    are queued by the store and announced by a goroutine ([Notify]) on channels
    ([PubSub]) whose readers are subscribed connections ([Subscriber]) and
    event streams ([HttpEvents]), and to webhooks.  Servers learn of each other
    with CLUSTER MEET ([ServerJoin]); a client follows their redirections
    ([Cli], [ServerClient]).

    ** Files

    - Prelude, GoLib, GoText: results, panics, 64-bit integers, slices,
      strconv, fmt.Sscan, strings, binary64; shared lemmas and tactics.
    - Ranges, Deque, SortedSet, HyperLogLog, TimeSeries, Json, Glob: the data
      structures of internal/store (deque.go, sortedset.go, hyperloglog.go,
      timeseries.go, jsonstore.go, and the helpers of store.go).
    - Store: the struct of store.go, key versions, lazy expiry, the sweep.
      StoreStrings, StoreHashes, StoreSets, StoreLists, StoreQueue,
      StoreLimits, StoreStreams, StoreBits, StoreDocs, StoreSearch, Geo: its
      methods, by type (Geo also geo.go).  StoreSketch: PFCOUNT and its estimate.
      StoreSnapshot: Dump, Load and the snapshot file.
      Keyspace: theorems on arbitrary traces of single-key commands.
    - Resp: the reader and writer of internal/resp.  Cluster, Aof, Schema,
      Namespace, Cron, SlowLog, AuditLog, Clients, Scripting, PubSub, Webhooks,
      Replication, MultiMaster: the files of internal/server of those names.
      Metrics: metrics.go.  Replay: the replay of aof.go and
      applyReplicatedCommand of replication.go.  AofSync: the fsync policies of
      aof.go and what a crash leaves.  Notify: the callback of OnChange
      and the queue that feeds it.
    - Config: config.go and the flags of cmd/vole/main.go.  Cli: the client of
      cmd/vole-cli.
    - ServerCore: the monad of handlers, ensureOwns and the shared helpers of
      server.go.  ServerKeys, ServerContainers, ServerData: one definition per
      case of [exec].  ServerConn: the dispatch, transactions, [handleConn].
      ServerAdmin: the state of the whole server and the cases of [exec] that
      use the managers.  ServerScript: scripts, the whole dispatcher, and the
      loop with the records it leaves.  Http: the handlers of http.go, and
      HttpEvents its event stream.  Subscriber: SUBSCRIBE and PSUBSCRIBE.
      ServerRules: the proof rules of handlers.
    - ServerStart: NewWithOptions and Close.  ServerSync: the handshake of a new
      follower (handleReplSync and syncFromLeader).  ServerJoin: pingNode,
      fetchNodeID and what a server answers them.  ServerClient: the client
      among the servers of a cluster.
    - ServerRecovery, ServerReplica, ServerSessions, ServerIsolation,
      ServerHttp, ServerSaving: theorems about the composed server.

    ** What the theorems show

    - Data structures refine their mathematical counterparts: the ring buffer
      a list, the ordered slice a finite map, the series a map from times, the
      glob matcher a language of tokens, merged sketches the sketch of the
      union, and PFCOUNT of several keys the estimate of their merge.
    - The keyspace, for the 28 single-key commands of strings, hashes, sets and
      sorted sets: lazy expiry and the sweep are invisible (every trace answers
      as a store that expires at once); a key has one type and never an empty
      collection; every change of a watched key, SREM apart, is detected.
    - Single commands: functional behaviour on all branches, overflow and
      panics included.
    - Queues conserve messages; stream identifiers increase and a consumer
      group hands an entry out once; a rate limiter admits at most its limit in
      any window; eviction terminates; pushes serve blocked clients.
    - The cluster partitions the slots and two nodes never own one key: with
      peers from the configuration, and with servers that have met each other in
      any order ([cluster_forms]); a client pointed at any of them reads what the
      owner has stored, with one redirection at most ([client_reaches_owner]).
    - Wire format, log lines and snapshots are read back as written.
    - The composed server: replaying the log restores the data, and replicas
      converge, for the commands, numbers and data they are stated for and
      without a memory limit, since eviction is neither logged nor sent; the
      commands of a transaction run at EXEC, in order, or not at all, though other
      clients may work between them; strangers change nothing; keys of other nodes
      are refused by the commands that check them; commands of one key, alone or
      in a transaction, do not reach into other namespaces.  Next to each stands
      a theorem that shows where the guarantee ends in the code as it is
      ([recovery_pitfalls], [replica_diverges], [transaction_gap],
      [namespace_gaps]).
    - Around the core: the machine of ServerScript does what the node of
      ServerConn does with a command; EVAL of plain calls and HTTP writes do what
      the commands they stand for do; SAVE and restart lose nothing; publications reach
      exactly the subscribers and in order; a follower is sent every write
      once; schedules are due when they say, webhooks fire for the
      registrations that match, the audit log is faithful.
    - Through several goroutines: a subscriber reads what was published, in
      order ([subscriber_reads]), and leaves nothing behind ([hang_up_clean]); an
      event stream carries only what its request names and what was published
      there since ([stream_only_requested]); every change of a key that the
      single-key commands other than SREM make is heard ([changes_are_heard]); a
      new follower loads the snapshot and converges ([new_follower_converges]).
    - Stops: a server that is closed and started again has its data
      ([shutdown_then_start]); after a crash of the machine the log gives back
      all records (policy always) or all that were a second old (everysec)
      and at most one torn command ([crash_loses_little]).
    - At the edges: a configuration file is read as written and flags win over
      it; the metrics page is read back; quoted arguments pass the client
      unchanged.

    ** Modelling decisions

    - A critical section of a mutex is one function from state to state.  The
      clock is an argument in nanoseconds; one reading serves a section (a
      handler reads it once, where the source may read it again a moment
      later).  EXEC is not one section: what other connections do after its
      check of the watched keys and before each queued command is an argument.
    - A Go map is a [gmap].  Where the order of iteration over a map or a
      random draw decides a result, the order or the draw is an argument, and
      theorems hold for all of them.
    - Errors are [result] (or a sum with the error's parts), panics are
      [outcome]; nothing in the source recovers from a panic.  Exhaustion of
      memory is not modelled.
    - Integers are Z with [wrap64] where Go wraps; float64 is IEEE binary64
      (Stdlib's SpecFloat).  encoding/json, strconv.Quote and the RFC 3339
      format of time are parameters.
    - Objects shared by pointer (blocked clients, channels) are identifiers
      into a heap field.
    - Loops that are not structural take fuel.  Bounds are stated with each:
      the RESP reader the length of its input, eviction the number of keys,
      glob matching and scanning the lengths of their inputs, downsampling the
      number of buckets, the loops of a cron field their length; a theorem says
      that this fuel suffices.  The fuel of the dispatcher is the depth of
      nested scripts, which the code does not bound, and the number of buckets of
      a TS.DOWNSAMPLE.

    ** Not modelled

    - The network itself: dialing, deadlines, TLS, listeners, signals.  What
      another machine sends is an argument, or, where the other machine is a
      server of this library, its output.
    - Of package math, the sine, cosine and arc tangent of the GEO commands and
      the logarithm of PFCOUNT, which are parameters.
    - Blocking commands inside the dispatcher: they are modelled as the critical
      sections they consist of.
    - The tickers that decide when the sweep, the heartbeat, the cron jobs and the
      periodic snapshots run, and the delays between reconnections.
    - Of package flag, which flags were given is an argument; of the client, its
      flags, the loop that prints the messages of a subscription and the help
      text; encoding/json throughout. *)
From Stdlib Require Export ZArith Lia Ascii String.
From stdpp Require Export base tactics list gmap strings sorting.

#[global] Open Scope Z_scope.

Declare Scope vole_scope.
Delimit Scope vole_scope with vole.

(** ** Results: a Go function that returns [(v, error)], and one that can panic *)

Inductive result (A : Type) : Type :=
| Ok (a : A)
| Err (msg : string).
Arguments Ok {A} a.
Arguments Err {A} msg.

(** A run-time panic (index out of range, [makeslice] with a negative
    length) aborts the process: nothing in the server calls [recover]. *)
Inductive outcome (A : Type) : Type :=
| Ret (a : A)
| Panic.
Arguments Ret {A} a.
Arguments Panic {A}.

(** ** Fixed-width integers *)

Definition int64_min : Z := - 2 ^ 63.
Definition int64_max : Z := 2 ^ 63 - 1.

Definition wrap64 (z : Z) : Z := (z + 2 ^ 63) mod 2 ^ 64 - 2 ^ 63.
Definition wrapu64 (z : Z) : Z := z mod 2 ^ 64.
Definition in_int64 (z : Z) : Prop := int64_min <= z <= int64_max.

Lemma wrap64_range z : in_int64 (wrap64 z).
Proof.
  unfold in_int64, wrap64, int64_min, int64_max.
  pose proof (Z.mod_pos_bound (z + 2 ^ 63) (2 ^ 64) ltac:(lia)). lia.
Qed.

Lemma wrap64_id z : in_int64 z -> wrap64 z = z.
Proof.
  unfold in_int64, wrap64, int64_min, int64_max. intros H.
  rewrite Z.mod_small; lia.
Qed.

Lemma wrap64_cong z : (wrap64 z - z) mod 2 ^ 64 = 0.
Proof.
  unfold wrap64.
  replace ((z + 2 ^ 63) mod 2 ^ 64 - 2 ^ 63 - z)
    with ((z + 2 ^ 63) mod 2 ^ 64 - (z + 2 ^ 63)) by lia.
  rewrite Zminus_mod_idemp_l, Z.sub_diag. reflexivity.
Qed.

(** ** Slices indexed by a Go [int] *)

Section Lengths.
Context {A : Type}.
Implicit Types l : list A.

Definition zlen l : Z := Z.of_nat (length l).

(** [l[i:]], [l[:i]] and [l[i:j]] for indices in range *)
Definition zdrop (i : Z) l : list A := drop (Z.to_nat i) l.
Definition ztake (i : Z) l : list A := take (Z.to_nat i) l.
Definition zslice (i j : Z) l : list A := take (Z.to_nat (j - i)) (drop (Z.to_nat i) l).

Lemma zlen_nonneg l : 0 <= zlen l.
Proof. unfold zlen. lia. Qed.

Lemma zlen_nil : zlen (@nil A) = 0.
Proof. done. Qed.

Lemma zlen_cons x l : zlen (x :: l) = zlen l + 1.
Proof. unfold zlen. simpl. lia. Qed.

Lemma zlen_app l1 l2 : zlen (l1 ++ l2) = zlen l1 + zlen l2.
Proof. unfold zlen. rewrite length_app. lia. Qed.

Lemma zlen_replicate n (x : A) : zlen (replicate n x) = Z.of_nat n.
Proof. unfold zlen. by rewrite length_replicate. Qed.

#[export] Instance zlen_perm : Proper ((≡ₚ) ==> (=)) zlen.
Proof. intros l1 l2 H. unfold zlen. by rewrite H. Qed.
End Lengths.

(** ** Logs of bounded length: the last [n] elements *)

Section KeepLast.
Context {A : Type}.
Implicit Types l : list A.

Definition keep_last (n : Z) l : list A := zdrop (zlen l - n) l.

Lemma zlen_keep_last n l : 0 <= n -> zlen (keep_last n l) = Z.min n (zlen l).
Proof. intros Hn. unfold keep_last, zdrop, zlen. rewrite length_drop. lia. Qed.

Lemma keep_last_all n l : zlen l <= n -> keep_last n l = l.
Proof. intros H. unfold keep_last, zdrop. replace (Z.to_nat (zlen l - n)) with 0%nat by lia. done. Qed.

(** Trimming after every append is trimming once at the end. *)
Lemma keep_last_snoc n l x : 0 <= n -> keep_last n (keep_last n l ++ [x]) = keep_last n (l ++ [x]).
Proof.
  intros Hn. unfold keep_last at 1 3, zdrop. rewrite !zlen_app, zlen_keep_last by done. unfold keep_last, zdrop, zlen.
  destruct (decide (Z.of_nat (length l) <= n)).
  - replace (Z.to_nat (Z.of_nat (length l) - n)) with 0%nat by lia. rewrite drop_0. do 2 f_equal. lia.
  - destruct (decide (n = 0)) as [->|].
    + rewrite !drop_ge; [done|rewrite length_app; cbn; lia|rewrite length_app, length_drop; cbn; lia].
    + rewrite !drop_app_le by (rewrite ?length_drop; cbn; lia). rewrite drop_drop. do 3 f_equal. cbn. lia.
Qed.

Lemma keep_last_idemp n l : 0 <= n -> keep_last n (keep_last n l) = keep_last n l.
Proof. intros Hn. apply keep_last_all. rewrite zlen_keep_last by done. lia. Qed.
End KeepLast.

Section Slices.
Context {A : Type} `{!Inhabited A}.
Implicit Types l : list A.

(** [l[i]]; every caller shows the index in range, see the safety lemmas
    of the components. *)
Definition zget l (i : Z) : A :=
  if 0 <=? i then l !!! Z.to_nat i else inhabitant.

(** [l[i] = x] *)
Definition zset l (i : Z) (x : A) : list A :=
  if 0 <=? i then <[Z.to_nat i := x]> l else l.

Lemma zlen_zset l i x : zlen (zset l i x) = zlen l.
Proof. unfold zset, zlen. case_match; [rewrite length_insert|]; done. Qed.

Lemma zget_zset_eq l i x : 0 <= i < zlen l -> zget (zset l i x) i = x.
Proof.
  intros H. unfold zget, zset, zlen in *. rewrite (proj2 (Z.leb_le 0 i)) by lia.
  apply list_lookup_total_insert_eq. lia.
Qed.

Lemma zget_zset_ne l i j x : i <> j -> zget (zset l i x) j = zget l j.
Proof.
  intros H. unfold zget, zset.
  destruct (Z.leb_spec 0 j); [|done]. destruct (Z.leb_spec 0 i); [|done].
  apply list_lookup_total_insert_ne. lia.
Qed.

Lemma zget_lookup l i : 0 <= i < zlen l -> l !! Z.to_nat i = Some (zget l i).
Proof.
  intros H. unfold zget, zlen in *. rewrite (proj2 (Z.leb_le 0 i)) by lia.
  apply list_lookup_lookup_total_lt. lia.
Qed.

Lemma lookup_zget l (i : nat) x : l !! i = Some x -> zget l (Z.of_nat i) = x.
Proof.
  intros H. unfold zget. rewrite (proj2 (Z.leb_le 0 _)) by lia. rewrite Nat2Z.id.
  by apply list_lookup_total_correct.
Qed.
Lemma zget_lookup_is_Some l i : 0 <= i < zlen l -> is_Some (l !! Z.to_nat i).
Proof. intros H. apply lookup_lt_is_Some. unfold zlen in H. lia. Qed.

Lemma zget_middle l1 x l2 : zget (l1 ++ x :: l2) (zlen l1) = x.
Proof. apply lookup_zget. by rewrite lookup_app_r, Nat.sub_diag. Qed.
End Slices.

(** [for i := a; i < b; i++ { st = body(i, st) }] *)
Definition for_range {S : Type} (a b : Z) (body : Z -> S -> S) (st : S) : S :=
  fold_left (fun st i => body i st) (seqZ a (b - a)) st.

Lemma for_range_empty {S} a b (body : Z -> S -> S) st : b <= a -> for_range a b body st = st.
Proof. intros H. unfold for_range. rewrite seqZ_nil by lia. done. Qed.

Lemma for_range_S {S} a b (body : Z -> S -> S) st :
  a <= b -> for_range a (b + 1) body st = body b (for_range a b body st).
Proof.
  intros H. unfold for_range. replace (b + 1 - a) with ((b - a) + 1) by lia.
  rewrite seqZ_app by lia. rewrite fold_left_app.
  replace (a + (b - a)) with b by lia. done.
Qed.

(** Loop-invariant rule for a counting loop. *)
Lemma for_range_inv {S} (I : Z -> S -> Prop) a b body st :
  a <= b -> I a st -> (forall i st, a <= i < b -> I i st -> I (i + 1) (body i st)) ->
  I b (for_range a b body st).
Proof.
  intros Hab H0 Hstep.
  assert (forall n : nat, a + Z.of_nat n <= b ->
            I (a + Z.of_nat n) (for_range a (a + Z.of_nat n) body st)) as Hn.
  { induction n as [|n IH]; intros Hle.
    - rewrite Z.add_0_r, for_range_empty by lia. done.
    - replace (a + Z.of_nat (Datatypes.S n)) with (a + Z.of_nat n + 1) by lia.
      rewrite for_range_S by lia. apply Hstep; [lia|]. apply IH. lia. }
  specialize (Hn (Z.to_nat (b - a)) ltac:(lia)).
  replace (a + Z.of_nat (Z.to_nat (b - a))) with b in Hn by lia. done.
Qed.

(** Truncated remainder on a value less than twice the modulus: the only
    wrap-around the ring buffers use. *)
Lemma rem_wrap x c : 0 <= x < 2 * c -> Z.rem x c = if x <? c then x else x - c.
Proof.
  intros H. rewrite Z.rem_mod_nonneg by lia.
  destruct (Z.ltb_spec x c).
  - apply Z.mod_small. lia.
  - symmetry. apply Z.mod_unique_pos with 1; lia.
Qed.

(** Linear goals about lengths of slices. *)
Create Rewrite HintDb lens.
#[export] Hint Rewrite @length_app @length_take @length_drop @length_reverse
  @length_replicate @length_fmap @length_insert : lens.

Ltac zlen_lia := unfold zlen in *; autorewrite with lens in *; cbn [length] in *; lia.

Ltac zify_bools :=
  repeat match goal with
  | |- context [?a <? ?b] => destruct (Z.ltb_spec a b)
  | |- context [?a <=? ?b] => destruct (Z.leb_spec a b)
  | |- context [?a =? ?b] => destruct (Z.eqb_spec a b)
  end.

(** [for j := a; j > b; j-- { st = body(j, st) }] *)
Definition for_down {S : Type} (a b : Z) (body : Z -> S -> S) (st : S) : S :=
  fold_left (fun st j => body j st) (reverse (seqZ (b + 1) (a - b))) st.

Lemma for_down_inv {S} (I : Z -> S -> Prop) a b body st :
  b <= a -> I a st -> (forall j st, b < j <= a -> I j st -> I (j - 1) (body j st)) ->
  I b (for_down a b body st).
Proof.
  intros Hba H0 Hstep. unfold for_down.
  assert (forall (n : nat) c st, c = b + Z.of_nat n -> c <= a -> I c st ->
            I b (fold_left (fun st j => body j st) (reverse (seqZ (b + 1) (c - b))) st)) as Hn.
  { induction n as [|n IH]; intros c st' Hc Hle HI.
    - rewrite seqZ_nil by lia. simpl. replace b with c by lia. done.
    - replace (c - b) with (Z.of_nat n + 1) by lia.
      rewrite seqZ_app by lia. rewrite reverse_app. simpl.
      replace (b + 1 + Z.of_nat n) with c by lia.
      replace (Z.of_nat n) with (c - 1 - b) by lia.
      apply IH; [lia|lia|]. apply Hstep; [lia|done]. }
  apply (Hn (Z.to_nat (a - b)) a); [lia|lia|done].
Qed.

(** Mapping over an interval of integers, as the loops
    [for i := 0; i < n; i++ { out[i] = f(i) }] do. *)
Section TabulateZ.
Context {A : Type}.
Implicit Types f g : Z -> A.

Definition tabulate (n : Z) f : list A := f <$> seqZ 0 n.

Lemma length_tabulate n f : length (tabulate n f) = Z.to_nat n.
Proof. unfold tabulate. by rewrite length_fmap, length_seqZ. Qed.

Lemma zlen_tabulate n f : 0 <= n -> zlen (tabulate n f) = n.
Proof. intros. unfold zlen. rewrite length_tabulate. lia. Qed.

Lemma lookup_tabulate n f i :
  tabulate n f !! i = if decide (Z.of_nat i < n) then Some (f (Z.of_nat i)) else None.
Proof.
  unfold tabulate. rewrite list_lookup_fmap. case_decide.
  - rewrite lookup_seqZ_lt by lia. simpl. repeat f_equal; lia.
  - rewrite lookup_seqZ_ge by lia. done.
Qed.

Lemma tabulate_ext n f g :
  (forall i, 0 <= i < n -> f i = g i) -> tabulate n f = tabulate n g.
Proof.
  intros H. apply list_eq. intros i. rewrite !lookup_tabulate.
  case_decide; [|done]. f_equal. apply H. lia.
Qed.

Lemma tabulate_snoc n f : 0 <= n -> tabulate (n + 1) f = tabulate n f ++ [f n].
Proof. intros. unfold tabulate. rewrite seqZ_app by lia. by rewrite fmap_app. Qed.

Lemma tabulate_cons n f :
  0 <= n -> tabulate (n + 1) f = f 0 :: tabulate n (fun i => f (i + 1)).
Proof.
  intros. apply list_eq. intros [|i]; rewrite lookup_tabulate; simpl.
  - rewrite decide_True by lia. done.
  - rewrite lookup_tabulate. repeat case_decide; try lia; [|done].
    f_equal. f_equal. lia.
Qed.

Lemma tabulate_first n f :
  0 < n -> tabulate n f = f 0 :: tabulate (n - 1) (fun i => f (i + 1)).
Proof. intros. rewrite <-tabulate_cons by lia. by rewrite Z.sub_add. Qed.

Lemma tabulate_last n f : 0 < n -> tabulate n f = tabulate (n - 1) f ++ [f (n - 1)].
Proof. intros. rewrite <-tabulate_snoc by lia. by rewrite Z.sub_add. Qed.

Lemma tabulate_0 f : tabulate 0 f = [].
Proof. done. Qed.

(** Inserting a point into a tabulated function. *)
Lemma tabulate_insert_at n i f g (x : A) :
  0 <= i <= n ->
  (forall m, 0 <= m < i -> g m = f m) -> g i = x ->
  (forall m, i < m <= n -> g m = f (m - 1)) ->
  tabulate (n + 1) g = take (Z.to_nat i) (tabulate n f) ++ x :: drop (Z.to_nat i) (tabulate n f).
Proof.
  intros Hi Hlt Heq Hgt. apply list_eq. intros j. rewrite lookup_tabulate.
  destruct (decide (Z.of_nat j < i)) as [Hj|Hj].
  - rewrite lookup_app_l by (rewrite length_take, length_tabulate; lia).
    rewrite lookup_take_lt by lia. rewrite lookup_tabulate.
    rewrite !decide_True by lia. f_equal. apply Hlt. lia.
  - rewrite lookup_app_r by (rewrite length_take, length_tabulate; lia).
    rewrite length_take, length_tabulate, Nat.min_l by lia.
    destruct (decide (Z.of_nat j = i)) as [Hji|Hne].
    + rewrite decide_True by lia.
      replace (j - Z.to_nat i)%nat with 0%nat by lia. simpl. by rewrite Hji, Heq.
    + replace (j - Z.to_nat i)%nat with (S (j - Z.to_nat i - 1)) by lia. simpl.
      rewrite lookup_drop, lookup_tabulate.
      repeat case_decide; try lia; [|done].
      rewrite Hgt by lia. repeat f_equal; lia.
Qed.
End TabulateZ.

(** ** Membership in parts of a list *)
Section ElemOf.
Context {A : Type}.
Implicit Types l : list A.

Lemma elem_of_take_1 x n l : x ∈ take n l -> x ∈ l.
Proof. intros H. rewrite <-(take_drop n l). apply elem_of_app. by left. Qed.

Lemma elem_of_drop_1 x n l : x ∈ drop n l -> x ∈ l.
Proof. intros H. rewrite <-(take_drop n l). apply elem_of_app. by right. Qed.

Lemma filter_all (P : A -> Prop) `{forall x, Decision (P x)} l :
  (forall x, x ∈ l -> P x) -> filter P l = l.
Proof.
  induction l as [|a l IH]; intros Hl; [done|].
  rewrite filter_cons_True by (apply Hl; left). f_equal. apply IH. intros x Hx. apply Hl. by right.
Qed.

Lemma filter_none (P : A -> Prop) `{forall x, Decision (P x)} l :
  (forall x, x ∈ l -> ~ P x) -> filter P l = [].
Proof.
  induction l as [|a l IH]; intros Hl; [done|].
  rewrite filter_cons_False by (apply Hl; left). apply IH. intros x Hx. apply Hl. by right.
Qed.

Lemma filter_iff_in (P Q : A -> Prop) `{forall x, Decision (P x), forall x, Decision (Q x)} l :
  (forall x, x ∈ l -> P x <-> Q x) -> filter P l = filter Q l.
Proof.
  induction l as [|a l IH]; intros Hl; [done|].
  assert (P a <-> Q a) as Ha by (apply Hl; left).
  assert (filter P l = filter Q l) as Htl by (apply IH; intros x Hx; apply Hl; by right).
  destruct (decide (P a)).
  - rewrite !filter_cons_True by tauto. by rewrite Htl.
  - rewrite !filter_cons_False by tauto. done.
Qed.

Lemma filter_map {B} (f : B -> A) (P : A -> Prop) `{forall x, Decision (P x)} (l : list B) :
  filter P (f <$> l) = f <$> filter (fun x => P (f x)) l.
Proof. induction l as [|x l IH]; [done|]. rewrite fmap_cons, !filter_cons. case_decide; by rewrite ?fmap_cons, IH. Qed.

Lemma StronglySorted_filter (R : relation A) (P : A -> Prop) `{forall x, Decision (P x)} l :
  StronglySorted R l -> StronglySorted R (filter P l).
Proof.
  induction 1 as [|a l Hs IH HF]; [constructor|].
  destruct (decide (P a)).
  - rewrite filter_cons_True by done. constructor; [done|]. rewrite Forall_forall in *.
    intros x [_ Hx]%list_elem_of_filter. by apply HF.
  - by rewrite filter_cons_False.
Qed.

Lemma StronglySorted_snoc (R : relation A) l x :
  StronglySorted R l -> Forall (fun a => R a x) l -> StronglySorted R (l ++ [x]).
Proof.
  induction 1 as [|a l Hs IH HF]; intros Hx; cbn; [repeat constructor|].
  apply Forall_cons in Hx as [Ha Hx]. constructor; [by apply IH|]. apply Forall_app. split; [done|].
  by apply Forall_singleton.
Qed.

(** In a sorted list every element is the last one or before it. *)
Lemma StronglySorted_last (R : relation A) l x e :
  StronglySorted R l -> last l = Some x -> e ∈ l -> e = x \/ R e x.
Proof.
  induction 1 as [|a l Hs IH HF]; [done|]. destruct l as [|b l].
  - intros [= ->] [->|Hin]%elem_of_cons; [by left|]. by apply not_elem_of_nil in Hin.
  - intros Hl [->|Hin]%elem_of_cons; [|by apply IH]. right. rewrite Forall_forall in HF.
    apply HF, last_Some_elem_of. exact Hl.
Qed.

Lemma elem_of_take_drop x n l : x ∈ l <-> x ∈ take n l \/ x ∈ drop n l.
Proof. rewrite <-elem_of_app. by rewrite take_drop. Qed.
End ElemOf.

#[global] Set Warnings "-clear-no-such-hyp".
