(* ===== verification/Ranges.v ===== *)
(** * Index ranges

    [normalizeRange] of internal/store/store.go turns the (possibly negative)
    bounds of LRANGE and ZRANGE into a checked interval.  [redis_slice] is
    the reference: the elements whose position lies between the two bounds,
    a negative bound counting from the end. *)
From S2P Require Import Prelude.

Module Ranges.

Definition normalizeRange (start stop length : Z) : Z * Z * bool :=
  let start := if start <? 0 then length + start else start in
  let stop := if stop <? 0 then length + stop else stop in
  let start := if start <? 0 then 0 else start in
  let stop := if stop >=? length then length - 1 else stop in
  if (start >? stop) || (start >=? length) || (stop <? 0) then (0, 0, false)
  else (start, stop, true).

(** The position a bound denotes in a sequence of [n] elements. *)
Definition bound_pos (n b : Z) : Z := if b <? 0 then n + b else b.

Definition in_bounds (n start stop i : Z) : bool :=
  (bound_pos n start <=? i) && (i <=? bound_pos n stop).

Definition redis_slice {A} (start stop : Z) (l : list A) : list A :=
  omap (fun i => if in_bounds (zlen l) start stop i then l !! Z.to_nat i else None)
       (seqZ 0 (zlen l)).

Lemma normalizeRange_ok start stop n lo hi :
  0 <= n -> normalizeRange start stop n = (lo, hi, true) ->
  0 <= lo <= hi /\ hi < n /\
  (forall i, 0 <= i < n -> in_bounds n start stop i = true <-> lo <= i <= hi).
Proof.
  intros Hn. unfold normalizeRange, in_bounds, bound_pos.
  rewrite !Z.gtb_ltb, !Z.geb_leb.
  repeat case_match; intros; simplify_eq;
    rewrite ?orb_true_iff, ?orb_false_iff, ?Z.ltb_lt, ?Z.ltb_ge, ?Z.leb_le, ?Z.leb_gt in *;
    (split; [lia|]); (split; [lia|]); intros i Hi;
    rewrite andb_true_iff, !Z.leb_le; lia.
Qed.

Lemma normalizeRange_fail start stop n :
  0 <= n -> (normalizeRange start stop n).2 = false ->
  forall i, 0 <= i < n -> in_bounds n start stop i = false.
Proof.
  intros Hn. unfold normalizeRange, in_bounds, bound_pos.
  rewrite !Z.gtb_ltb, !Z.geb_leb.
  repeat case_match; simpl; intros; simplify_eq;
    rewrite ?orb_true_iff, ?orb_false_iff, ?Z.ltb_lt, ?Z.ltb_ge, ?Z.leb_le, ?Z.leb_gt in *;
    rewrite andb_false_iff, !Z.leb_gt; lia.
Qed.

(** A slice taken with normalised bounds is the reference slice. *)
Lemma redis_slice_ok {A} start stop (l : list A) lo hi :
  normalizeRange start stop (zlen l) = (lo, hi, true) ->
  redis_slice start stop l = zslice lo (hi + 1) l.
Proof.
  intros H. pose proof (zlen_nonneg l) as Hn.
  destruct (normalizeRange_ok _ _ _ _ _ Hn H) as (Hlo & Hhi & Hiff).
  unfold redis_slice.
  assert (forall n k : Z, 0 <= k -> 0 <= n -> k + n <= zlen l ->
    omap (fun i => if in_bounds (zlen l) start stop i then l !! Z.to_nat i else None) (seqZ k n)
    = zslice (Z.max lo k) (Z.max (Z.max lo k) (Z.min (hi + 1) (k + n))) l) as Hgen.
  { intros n k Hk Hn0. revert k Hk.
    pattern n. apply natlike_ind; [| |lia].
    - intros k Hk Hle. rewrite seqZ_nil by lia. simpl. unfold zslice.
      by replace (Z.max (Z.max lo k) (Z.min (hi + 1) (k + 0)) - Z.max lo k) with 0 by lia.
    - intros m Hm IH k Hk Hle. rewrite seqZ_cons by lia. simpl.
      replace (Z.pred (Z.succ m)) with m by lia. rewrite IH by lia.
      destruct (zget_lookup_is_Some l k) as [x Hx]; [lia|].
      destruct (in_bounds (zlen l) start stop k) eqn:Hb.
      + apply Hiff in Hb; [|lia]. rewrite Hx. unfold zslice.
        replace (Z.max lo k) with k by lia. replace (Z.max lo (Z.succ k)) with (Z.succ k) by lia.
        rewrite (drop_S _ _ _ Hx).
        replace (Z.to_nat (Z.succ k)) with (S (Z.to_nat k)) by lia.
        replace (Z.to_nat (Z.max k (Z.min (hi + 1) (k + Z.succ m)) - k))
          with (S (Z.to_nat (Z.max (Z.succ k) (Z.min (hi + 1) (Z.succ k + m)) - Z.succ k))) by lia.
        done.
      + assert (~ lo <= k <= hi) as Hnb by (intros Hc; apply Hiff in Hc; [congruence|lia]).
        destruct (decide (k < lo)).
        * by replace (Z.max lo (Z.succ k)) with (Z.max lo k) by lia;
            replace (Z.succ k + m) with (k + Z.succ m) by lia.
        * unfold zslice.
          match goal with |- take ?a _ = take ?b _ =>
            replace a with 0%nat by lia; replace b with 0%nat by lia end.
          done. }
  rewrite Hgen by lia. f_equal; lia.
Qed.

Lemma redis_slice_fail {A} start stop (l : list A) :
  (normalizeRange start stop (zlen l)).2 = false -> redis_slice start stop l = [].
Proof.
  intros H. pose proof (zlen_nonneg l) as Hn.
  pose proof (normalizeRange_fail _ _ _ Hn H) as Hf.
  unfold redis_slice. apply elem_of_nil_inv. intros x.
  rewrite list_elem_of_omap. intros (i & Hi & Hx).
  apply elem_of_seqZ in Hi. rewrite Hf in Hx by lia. done.
Qed.

End Ranges.
