(* ===== verification/Deque.v ===== *)
(** * The ring-buffer deque behind every list (internal/store/deque.go)

    [Deque] is the Go struct; [ToSlice] is also the abstraction function.  The
    refinement lemmas at the end say that each operation acts on the ring
    buffer as the obvious operation acts on a plain list. *)
From S2P Require Import Prelude Ranges.

Module Deque.

Record Deque := mkDeque {
  buf : list string;
  head : Z;
  count : Z
}.

(** [&Deque{}] *)
Definition empty : Deque := mkDeque [] 0 0.

Definition dequeMinCap : Z := 8.

Definition Len (d : Deque) : Z := count d.

(** The physical slot of logical index [i] in a buffer of [n] slots. *)
Definition slot (n h i : Z) : Z := Z.rem (h + i) n.

Definition at_ (d : Deque) (i : Z) : string :=
  zget (buf d) (slot (zlen (buf d)) (head d) i).

Definition grow (d : Deque) : Deque :=
  let newCap := zlen (buf d) * 2 in
  let newCap := if newCap <? dequeMinCap then dequeMinCap else newCap in
  let newBuf := replicate (Z.to_nat newCap) "" in
  let newBuf := for_range 0 (count d) (fun i nb => zset nb i (at_ d i)) newBuf in
  mkDeque newBuf 0 (count d).

Definition ensure_room (d : Deque) : Deque :=
  if count d =? zlen (buf d) then grow d else d.

Definition push_front_one (d : Deque) (v : string) : Deque :=
  let d := ensure_room d in
  let h := Z.rem (head d - 1 + zlen (buf d)) (zlen (buf d)) in
  mkDeque (zset (buf d) h v) h (count d + 1).

Definition PushFront (vals : list string) (d : Deque) : Deque :=
  fold_left push_front_one vals d.

Definition push_back_one (d : Deque) (v : string) : Deque :=
  let d := ensure_room d in
  mkDeque (zset (buf d) (slot (zlen (buf d)) (head d) (count d)) v) (head d) (count d + 1).

Definition PushBack (vals : list string) (d : Deque) : Deque :=
  fold_left push_back_one vals d.

Definition PopFront (d : Deque) : (string * bool) * Deque :=
  if count d =? 0 then (("", false), d)
  else
    let val := zget (buf d) (head d) in
    ((val, true),
     mkDeque (zset (buf d) (head d) "") (Z.rem (head d + 1) (zlen (buf d))) (count d - 1)).

Definition PopBack (d : Deque) : (string * bool) * Deque :=
  if count d =? 0 then (("", false), d)
  else
    let idx := Z.rem (head d + count d - 1) (zlen (buf d)) in
    ((zget (buf d) idx, true), mkDeque (zset (buf d) idx "") (head d) (count d - 1)).

Definition Range (start stop : Z) (d : Deque) : list string :=
  match Ranges.normalizeRange start stop (count d) with
  | (start, stop, true) => tabulate (stop - start + 1) (fun k => at_ d (start + k))
  | (_, _, false) => []
  end.

Definition Get (d : Deque) (i : Z) : string := at_ d i.

Definition Set_ (i : Z) (val : string) (d : Deque) : Deque :=
  mkDeque (zset (buf d) (slot (zlen (buf d)) (head d) i) val) (head d) (count d).

Definition Insert (i : Z) (val : string) (d : Deque) : Deque :=
  let d := ensure_room d in
  let n := zlen (buf d) in
  let '(b, h) :=
    if i <=? Z.quot (count d) 2 then
      let h := Z.rem (head d - 1 + n) n in
      (for_range 0 i
         (fun j b => zset b (Z.rem (h + j) n) (zget b (Z.rem (h + 1 + j) n))) (buf d), h)
    else
      (for_down (count d) i
         (fun j b => zset b (Z.rem (head d + j) n) (zget b (Z.rem (head d + j - 1) n))) (buf d),
       head d) in
  mkDeque (zset b (Z.rem (h + i) n) val) h (count d + 1).

Definition ToSlice (d : Deque) : list string :=
  if count d =? 0 then [] else tabulate (count d) (at_ d).

(** ** Well-formed buffers *)

Definition wf (d : Deque) : Prop :=
  0 <= count d <= zlen (buf d) /\ 0 <= head d /\ (head d < zlen (buf d) \/ (zlen (buf d) = 0 /\ head d = 0)).

#[export] Instance wf_dec d : Decision (wf d).
Proof. unfold wf. apply _. Defined.

(** ** Slot arithmetic *)

Lemma slot_range n h i : 0 <= h < n -> 0 <= i < n -> 0 <= slot n h i < n.
Proof. intros. unfold slot. rewrite rem_wrap by lia. case_match; lia. Qed.

Lemma slot_inj n h i j :
  0 <= h < n -> 0 <= i < n -> 0 <= j < n -> slot n h i = slot n h j -> i = j.
Proof.
  intros ???. unfold slot. rewrite !rem_wrap by lia. zify_bools; lia.
Qed.

(** Reading slot [j] after writing slot [i]. *)
Lemma slot_write (b : list string) n h i j x :
  zlen b = n -> 0 <= h < n -> 0 <= i < n -> 0 <= j < n ->
  zget (zset b (slot n h i) x) (slot n h j) =
    if decide (j = i) then x else zget b (slot n h j).
Proof.
  intros Hn Hh Hi Hj. pose proof (slot_range n h i Hh Hi).
  case_decide as Hji; subst.
  - apply zget_zset_eq. lia.
  - apply zget_zset_ne. intros Heq. apply Hji. symmetry.
    by eapply slot_inj.
Qed.

(** Stepping the head back by one shifts every logical index by one. *)
Lemma slot_back n h i :
  0 <= h < n -> 0 <= i < n -> slot n (Z.rem (h - 1 + n) n) (i + 1) = slot n h i.
Proof.
  intros. unfold slot. rewrite (rem_wrap (h - 1 + n)) by lia.
  destruct (Z.ltb_spec (h - 1 + n) n).
  - rewrite !rem_wrap by lia. zify_bools; lia.
  - rewrite !rem_wrap by lia. zify_bools; lia.
Qed.

Lemma back_range n h : 0 <= h < n -> 0 <= Z.rem (h - 1 + n) n < n.
Proof. intros. rewrite rem_wrap by lia. case_match; lia. Qed.

Lemma slot_0 n h : 0 <= h < n -> slot n h 0 = h.
Proof. intros. unfold slot. rewrite Z.add_0_r. apply Z.rem_small. lia. Qed.

(** ** Abstraction *)

Lemma ToSlice_tabulate d : wf d -> ToSlice d = tabulate (count d) (at_ d).
Proof. intros. unfold ToSlice. destruct (Z.eqb_spec (count d) 0) as [->|]; done. Qed.

Lemma zlen_ToSlice d : wf d -> zlen (ToSlice d) = count d.
Proof. intros H. rewrite ToSlice_tabulate by done. apply zlen_tabulate. unfold wf in H. lia. Qed.

Lemma ToSlice_lookup d i :
  wf d -> 0 <= i < count d -> ToSlice d !! Z.to_nat i = Some (at_ d i).
Proof.
  intros H Hi. rewrite ToSlice_tabulate, lookup_tabulate by done.
  rewrite decide_True by lia. f_equal. f_equal. lia.
Qed.

Lemma empty_wf : wf empty.
Proof. unfold wf, zlen. cbn. lia. Qed.

(** ** grow *)

Lemma grow_loop d m nb :
  wf d -> 0 <= m -> count d <= zlen nb ->
  let nb' := for_range 0 (count d) (fun i nb => zset nb i (at_ d i)) nb in
  zlen nb' = zlen nb /\ (forall j, 0 <= j < count d -> zget nb' j = at_ d j).
Proof.
  intros Hwf Hm Hlen. cbn zeta.
  apply (for_range_inv
    (fun k b => zlen b = zlen nb /\ forall j, 0 <= j < k -> zget b j = at_ d j)).
  - unfold wf in Hwf. lia.
  - split; [done|]. intros; lia.
  - intros i b Hi [Hb IH]. split; [by rewrite zlen_zset|].
    intros j Hj. destruct (decide (j = i)) as [->|].
    + apply zget_zset_eq. lia.
    + rewrite zget_zset_ne by done. apply IH. lia.
Qed.

(** A buffer with a free slot. *)
Definition roomy (d : Deque) : Prop :=
  0 <= count d < zlen (buf d) /\ 0 <= head d < zlen (buf d).

Lemma roomy_wf d : roomy d -> wf d.
Proof. unfold roomy, wf. lia. Qed.

Lemma grow_spec d :
  wf d -> roomy (grow d) /\ count (grow d) = count d /\ ToSlice (grow d) = ToSlice d.
Proof.
  intros Hwf. pose proof Hwf as (Hc & Hh & Hhl).
  set (cap := if zlen (buf d) * 2 <? dequeMinCap then dequeMinCap else zlen (buf d) * 2).
  assert (count d < cap) as Hcap.
  { unfold cap, dequeMinCap. case_match; lia. }
  destruct (grow_loop d 0 (replicate (Z.to_nat cap) "")) as [Hlen Hget];
    [done|lia|rewrite zlen_replicate; lia|].
  rewrite zlen_replicate, Z2Nat.id in Hlen by lia.
  assert (roomy (grow d)) as Hr.
  { unfold roomy, grow. cbn -[zlen for_range]. fold cap. rewrite Hlen. lia. }
  split; [done|]. split; [done|].
  rewrite !ToSlice_tabulate by (done || by apply roomy_wf).
  apply tabulate_ext. intros i Hi. unfold grow in Hi |- *. cbn -[zlen for_range] in Hi |- *.
  fold cap. rewrite <-Hget by done. unfold at_ at 1, slot. cbn -[zlen for_range].
  rewrite Hlen, Z.rem_small by lia. done.
Qed.

Lemma ensure_room_spec d :
  wf d -> roomy (ensure_room d) /\ count (ensure_room d) = count d
          /\ ToSlice (ensure_room d) = ToSlice d.
Proof.
  intros Hwf. unfold ensure_room. case_match eqn:E.
  - by apply grow_spec.
  - split; [|done]. unfold roomy, wf in *. rewrite Z.eqb_neq in E. lia.
Qed.

(** ** The operations refine the list operations *)

Lemma push_front_one_spec d v :
  wf d -> wf (push_front_one d v) /\ ToSlice (push_front_one d v) = v :: ToSlice d.
Proof.
  intros Hwf. destruct (ensure_room_spec d Hwf) as (Hr & _ & Habs).
  unfold push_front_one. rewrite <-Habs. clear Habs. generalize dependent (ensure_room d).
  clear d Hwf. intros d Hr. pose proof Hr as [Hc Hh]. set (n := zlen (buf d)) in *.
  pose proof (back_range n (head d) Hh) as Hb. set (h := Z.rem (head d - 1 + n) n) in *.
  assert (wf (mkDeque (zset (buf d) h v) h (count d + 1))) as Hwf'.
  { unfold wf. cbn. rewrite zlen_zset. fold n. lia. }
  split; [done|].
  rewrite !ToSlice_tabulate by (done || by apply roomy_wf). cbn [count].
  rewrite tabulate_cons by lia. unfold at_. cbn. rewrite zlen_zset. fold n.
  rewrite slot_0 by done. rewrite zget_zset_eq by lia. f_equal.
  apply tabulate_ext. intros i Hi.
  rewrite <-(slot_0 n h) at 1 by done. rewrite slot_write by (done || lia).
  rewrite decide_False by lia. unfold h. by rewrite slot_back by lia.
Qed.

Lemma push_back_one_spec d v :
  wf d -> wf (push_back_one d v) /\ ToSlice (push_back_one d v) = ToSlice d ++ [v].
Proof.
  intros Hwf. destruct (ensure_room_spec d Hwf) as (Hr & _ & Habs).
  unfold push_back_one. rewrite <-Habs. clear Habs. generalize dependent (ensure_room d).
  clear d Hwf. intros d Hr. pose proof Hr as [Hc Hh]. set (n := zlen (buf d)) in *.
  match goal with |- wf ?d' /\ _ => assert (wf d') as Hwf' end.
  { unfold wf. cbn. rewrite zlen_zset. fold n. lia. }
  split; [done|].
  rewrite !ToSlice_tabulate by (done || by apply roomy_wf). cbn [count].
  rewrite tabulate_snoc by lia. unfold at_. cbn. rewrite zlen_zset. fold n. f_equal.
  - apply tabulate_ext. intros i Hi. rewrite slot_write by (done || lia).
    by rewrite decide_False by lia.
  - rewrite slot_write by (done || lia). by rewrite decide_True by lia.
Qed.

Lemma PushFront_spec vals d :
  wf d -> wf (PushFront vals d) /\ ToSlice (PushFront vals d) = reverse vals ++ ToSlice d.
Proof.
  revert d. induction vals as [|v vals IH]; intros d Hwf; [done|].
  destruct (push_front_one_spec d v Hwf) as [Hwf' Habs].
  destruct (IH _ Hwf') as [Hw Ha]. split; [done|].
  change (PushFront (v :: vals) d) with (PushFront vals (push_front_one d v)).
  rewrite Ha, Habs, reverse_cons, <-(assoc (++)). done.
Qed.

Lemma PushBack_spec vals d :
  wf d -> wf (PushBack vals d) /\ ToSlice (PushBack vals d) = ToSlice d ++ vals.
Proof.
  revert d. induction vals as [|v vals IH]; intros d Hwf; [by rewrite app_nil_r|].
  destruct (push_back_one_spec d v Hwf) as [Hwf' Habs].
  destruct (IH _ Hwf') as [Hw Ha]. split; [done|].
  change (PushBack (v :: vals) d) with (PushBack vals (push_back_one d v)).
  rewrite Ha, Habs, <-(assoc (++)). done.
Qed.

Lemma ToSlice_nil_inv d : wf d -> ToSlice d = [] -> count d = 0.
Proof. intros Hwf H. rewrite <-(zlen_ToSlice d Hwf), H. done. Qed.

Lemma PopFront_spec d :
  wf d ->
  wf (PopFront d).2 /\
  match ToSlice d with
  | [] => PopFront d = (("", false), d)
  | x :: l => (PopFront d).1 = (x, true) /\ ToSlice (PopFront d).2 = l
  end.
Proof.
  intros Hwf. pose proof Hwf as (Hc & Hh & Hhl). unfold PopFront.
  destruct (Z.eqb_spec (count d) 0) as [E|E].
  { split; [done|]. by rewrite ToSlice_tabulate, E by done. }
  set (n := zlen (buf d)) in *. cbn [fst snd].
  assert (wf (mkDeque (zset (buf d) (head d) "") (Z.rem (head d + 1) n) (count d - 1))) as Hwf'.
  { unfold wf. cbn. rewrite zlen_zset. fold n. rewrite rem_wrap by lia. case_match; lia. }
  split; [done|].
  rewrite !ToSlice_tabulate by done. cbn [count].
  rewrite (tabulate_first (count d)) by lia.
  unfold at_. cbn. rewrite zlen_zset. fold n. rewrite slot_0 by lia. split; [done|].
  apply tabulate_ext. intros i Hi.
  replace (slot n (Z.rem (head d + 1) n) i) with (slot n (head d) (i + 1)).
  - rewrite <-(slot_0 n (head d)) at 1 by lia. rewrite slot_write by (done || lia).
    by rewrite decide_False by lia.
  - unfold slot. rewrite (rem_wrap (head d + 1)) by lia.
    destruct (Z.ltb_spec (head d + 1) n); rewrite !rem_wrap by lia; zify_bools; lia.
Qed.

Lemma PopBack_spec d :
  wf d ->
  wf (PopBack d).2 /\
  match last (ToSlice d) with
  | None => PopBack d = (("", false), d)
  | Some x => (PopBack d).1 = (x, true) /\ ToSlice d = ToSlice (PopBack d).2 ++ [x]
  end.
Proof.
  intros Hwf. pose proof Hwf as (Hc & Hh & Hhl). unfold PopBack.
  destruct (Z.eqb_spec (count d) 0) as [E|E].
  { split; [done|]. by rewrite ToSlice_tabulate, E by done. }
  set (n := zlen (buf d)) in *. cbn [fst snd].
  replace (Z.rem (head d + count d - 1) n) with (slot n (head d) (count d - 1))
    by (unfold slot; f_equal; lia).
  match goal with |- wf ?d' /\ _ => assert (wf d') as Hwf' end.
  { unfold wf. cbn. rewrite zlen_zset. fold n. lia. }
  split; [done|].
  rewrite !ToSlice_tabulate by done. cbn [count].
  rewrite (tabulate_last (count d)) by lia.
  rewrite last_snoc. unfold at_. cbn. rewrite zlen_zset. fold n. split; [done|].
  f_equal. apply tabulate_ext. intros i Hi. rewrite slot_write by (done || lia).
  by rewrite decide_False by lia.
Qed.

Lemma Set_spec i v d :
  wf d -> 0 <= i < count d ->
  wf (Set_ i v d) /\ ToSlice (Set_ i v d) = <[Z.to_nat i := v]> (ToSlice d).
Proof.
  intros Hwf Hi. pose proof Hwf as (Hc & Hh & Hhl). unfold Set_.
  match goal with |- wf ?d' /\ _ => assert (wf d') as Hwf' end.
  { unfold wf. cbn. rewrite zlen_zset. lia. }
  split; [done|]. rewrite !ToSlice_tabulate by done. cbn [count].
  apply list_eq. intros j. rewrite lookup_tabulate, list_lookup_insert, length_tabulate.
  unfold at_. cbn. rewrite zlen_zset, lookup_tabulate.
  destruct (decide (Z.of_nat j < count d)).
  - rewrite slot_write by (done || lia). repeat case_decide; try lia; done.
  - rewrite (decide_False (P := _ /\ _)) by lia. done.
Qed.

Lemma Get_spec d i : wf d -> 0 <= i < count d -> ToSlice d !! Z.to_nat i = Some (Get d i).
Proof. apply ToSlice_lookup. Qed.

(** The two element-shifting loops of [Insert]. *)
Lemma shift_left_loop (b : list string) n h i :
  zlen b = n -> 0 <= h < n -> 0 <= i < n ->
  let b' := for_range 0 i (fun j b => zset b (Z.rem (h + j) n) (zget b (Z.rem (h + 1 + j) n))) b in
  zlen b' = n /\
  forall m, 0 <= m < n -> zget b' (slot n h m) =
    if decide (m < i) then zget b (slot n h (m + 1)) else zget b (slot n h m).
Proof.
  intros Hn Hh Hi. cbn zeta.
  apply (for_range_inv (fun k b' => zlen b' = n /\ forall m, 0 <= m < n ->
    zget b' (slot n h m) = if decide (m < k) then zget b (slot n h (m + 1)) else zget b (slot n h m)) 0 i).
  - lia.
  - split; [done|]. intros m Hm. by rewrite decide_False by lia.
  - intros j b' Hj [Hl IH]. split; [by rewrite zlen_zset|]. intros m Hm.
    change (Z.rem (h + j) n) with (slot n h j).
    replace (Z.rem (h + 1 + j) n) with (slot n h (j + 1)) by (unfold slot; f_equal; lia).
    rewrite slot_write by (done || lia). rewrite !IH by lia.
    repeat case_decide; subst; try lia; done.
Qed.

Lemma shift_right_loop (b : list string) n h i c :
  zlen b = n -> 0 <= h < n -> 0 <= i <= c -> c < n ->
  let b' := for_down c i (fun j b => zset b (Z.rem (h + j) n) (zget b (Z.rem (h + j - 1) n))) b in
  zlen b' = n /\
  forall m, 0 <= m < n -> zget b' (slot n h m) =
    if decide (i < m <= c) then zget b (slot n h (m - 1)) else zget b (slot n h m).
Proof.
  intros Hn Hh Hi Hc. cbn zeta.
  apply (for_down_inv (fun k b' => zlen b' = n /\ forall m, 0 <= m < n ->
    zget b' (slot n h m) =
      if decide (k < m <= c) then zget b (slot n h (m - 1)) else zget b (slot n h m)) c i).
  - lia.
  - split; [done|]. intros m Hm. by rewrite decide_False by lia.
  - intros j b' Hj [Hl IH]. split; [by rewrite zlen_zset|]. intros m Hm.
    change (Z.rem (h + j) n) with (slot n h j).
    replace (Z.rem (h + j - 1) n) with (slot n h (j - 1)) by (unfold slot; f_equal; lia).
    rewrite slot_write by (done || lia). rewrite !IH by lia.
    repeat case_decide; subst; try lia; done.
Qed.

Lemma Insert_spec i v d :
  wf d -> 0 <= i <= count d ->
  wf (Insert i v d) /\
  ToSlice (Insert i v d) = take (Z.to_nat i) (ToSlice d) ++ v :: drop (Z.to_nat i) (ToSlice d).
Proof.
  intros Hwf Hi. destruct (ensure_room_spec d Hwf) as (Hr & Hcount & Habs).
  unfold Insert. rewrite <-Habs, <-Hcount in *. clear Habs Hcount.
  generalize dependent (ensure_room d). clear d Hwf. intros d Hi Hr.
  pose proof Hr as [Hc Hh]. set (n := zlen (buf d)) in *.
  rewrite (ToSlice_tabulate d) by (by apply roomy_wf).
  destruct (Z.leb_spec i (Z.quot (count d) 2)).
  - pose proof (back_range n (head d) Hh) as Hb. set (h := Z.rem (head d - 1 + n) n) in *.
    destruct (shift_left_loop (buf d) n h i) as [Hl Hg]; [done|lia|lia|].
    set (b' := for_range 0 i _ _) in *. change (Z.rem (h + i) n) with (slot n h i).
    match goal with |- wf ?d' /\ _ => assert (wf d') as Hwf' end.
    { unfold wf. cbn. rewrite zlen_zset. lia. }
    split; [done|]. rewrite ToSlice_tabulate by done. cbn [count].
    unfold at_. cbn. rewrite zlen_zset, Hl. fold n.
    apply tabulate_insert_at; [lia|..].
    + intros m Hm. rewrite slot_write by (done || lia). rewrite decide_False by lia.
      rewrite Hg by lia. rewrite decide_True by lia. unfold h. by rewrite slot_back by lia.
    + rewrite slot_write by (done || lia). by rewrite decide_True by lia.
    + intros m Hm. rewrite slot_write by (done || lia). rewrite decide_False by lia.
      rewrite Hg by lia. rewrite decide_False by lia.
      replace m with (m - 1 + 1) at 1 by lia. unfold h. by rewrite slot_back by lia.
  - destruct (shift_right_loop (buf d) n (head d) i (count d)) as [Hl Hg]; [done|lia|lia|lia|].
    set (b' := for_down _ i _ _) in *. change (Z.rem (head d + i) n) with (slot n (head d) i).
    match goal with |- wf ?d' /\ _ => assert (wf d') as Hwf' end.
    { unfold wf. cbn. rewrite zlen_zset. lia. }
    split; [done|]. rewrite ToSlice_tabulate by done. cbn [count].
    unfold at_. cbn. rewrite zlen_zset, Hl. fold n.
    apply tabulate_insert_at; [lia|..].
    + intros m Hm. rewrite slot_write by (done || lia). rewrite decide_False by lia.
      rewrite Hg by lia. by rewrite decide_False by lia.
    + rewrite slot_write by (done || lia). by rewrite decide_True by lia.
    + intros m Hm. rewrite slot_write by (done || lia). rewrite decide_False by lia.
      rewrite Hg by lia. by rewrite decide_True by lia.
Qed.

Lemma deque_Range_spec start stop d :
  wf d -> Range start stop d = Ranges.redis_slice start stop (ToSlice d).
Proof.
  intros Hwf. pose proof (zlen_ToSlice d Hwf) as Hlen.
  unfold Range. rewrite <-Hlen.
  destruct (Ranges.normalizeRange start stop (zlen (ToSlice d))) as [[lo hi] [|]] eqn:E.
  - rewrite (Ranges.redis_slice_ok _ _ _ _ _ E).
    destruct (Ranges.normalizeRange_ok _ _ _ _ _ (zlen_nonneg _) E) as (? & ? & _).
    apply list_eq. intros j. rewrite lookup_tabulate. unfold zslice.
    destruct (decide (Z.of_nat j < hi - lo + 1)).
    + rewrite lookup_take_lt, lookup_drop by lia.
      replace (Z.to_nat lo + j)%nat with (Z.to_nat (lo + Z.of_nat j)) by lia.
      by rewrite ToSlice_lookup by (done || lia).
    + by rewrite lookup_take_ge by lia.
  - rewrite Ranges.redis_slice_fail; [done|]. by rewrite E.
Qed.

(** ** The list contract *)

(** One call of the store on a list value. *)
Inductive op :=
| OpPushFront (vals : list string)
| OpPushBack (vals : list string)
| OpPopFront
| OpPopBack
| OpLen
| OpRange (start stop : Z)
| OpGet (i : Z)
| OpSet (i : Z) (val : string)
| OpInsert (i : Z) (val : string).

Inductive output :=
| ONone
| OPop (r : string * bool)
| OLen (n : Z)
| OVals (l : list string)
| OVal (s : string).

Definition run_op (o : op) (d : Deque) : output * Deque :=
  match o with
  | OpPushFront vals => (ONone, PushFront vals d)
  | OpPushBack vals => (ONone, PushBack vals d)
  | OpPopFront => let '(r, d') := PopFront d in (OPop r, d')
  | OpPopBack => let '(r, d') := PopBack d in (OPop r, d')
  | OpLen => (OLen (Len d), d)
  | OpRange a b => (OVals (Range a b d), d)
  | OpGet i => (OVal (Get d i), d)
  | OpSet i v => (ONone, Set_ i v d)
  | OpInsert i v => (ONone, Insert i v d)
  end.

(** The contract: what each call returns and leaves behind on a list. *)
Definition spec_op (o : op) (l : list string) : output * list string :=
  match o with
  | OpPushFront vals => (ONone, reverse vals ++ l)
  | OpPushBack vals => (ONone, l ++ vals)
  | OpPopFront => (OPop (from_option (fun x => (x, true)) ("", false) (hd_error l)), tail l)
  | OpPopBack => (OPop (from_option (fun x => (x, true)) ("", false) (last l)), removelast l)
  | OpLen => (OLen (zlen l), l)
  | OpRange a b => (OVals (Ranges.redis_slice a b l), l)
  | OpGet i => (OVal (default "" (l !! Z.to_nat i)), l)
  | OpSet i v => (ONone, <[Z.to_nat i := v]> l)
  | OpInsert i v => (ONone, take (Z.to_nat i) l ++ v :: drop (Z.to_nat i) l)
  end.

(** The index conditions the callers establish (LINDEX, LSET, LINSERT). *)
Definition admissible (o : op) (l : list string) : bool :=
  match o with
  | OpGet i | OpSet i _ => (0 <=? i) && (i <? zlen l)
  | OpInsert i _ => (0 <=? i) && (i <=? zlen l)
  | _ => true
  end.

Fixpoint run_ops (os : list op) (d : Deque) : list output * Deque :=
  match os with
  | [] => ([], d)
  | o :: os => let '(r, d1) := run_op o d in let '(rs, d2) := run_ops os d1 in (r :: rs, d2)
  end.

Fixpoint spec_ops (os : list op) (l : list string) : list output * list string :=
  match os with
  | [] => ([], l)
  | o :: os => let '(r, l1) := spec_op o l in let '(rs, l2) := spec_ops os l1 in (r :: rs, l2)
  end.

Fixpoint admissible_ops (os : list op) (l : list string) : bool :=
  match os with
  | [] => true
  | o :: os => admissible o l && admissible_ops os (spec_op o l).2
  end.

Lemma run_op_spec o d :
  wf d -> admissible o (ToSlice d) = true ->
  wf (run_op o d).2 /\ ((run_op o d).1, ToSlice (run_op o d).2) = spec_op o (ToSlice d).
Proof.
  intros Hwf Ha. pose proof (zlen_ToSlice d Hwf) as Hlen.
  destruct o as [vals|vals| | | |a b|i|i v|i v]; cbn in *; rewrite ?Hlen in Ha.
  - destruct (PushFront_spec vals d Hwf) as [? ->]. done.
  - destruct (PushBack_spec vals d Hwf) as [? ->]. done.
  - destruct (PopFront_spec d Hwf) as [Hwf' Hp].
    destruct (PopFront d) as [[x b] d'] eqn:E. cbn [fst snd] in *. split; [done|].
    destruct (ToSlice d) as [|y l] eqn:Ed; simplify_eq/=; [by rewrite Ed|].
    by destruct Hp; simplify_eq.
  - destruct (PopBack_spec d Hwf) as [Hwf' Hp].
    destruct (PopBack d) as [[x b] d'] eqn:E. cbn [fst snd] in *. split; [done|].
    destruct (last (ToSlice d)) as [y|] eqn:El; simplify_eq/=.
    + destruct Hp as [Hp1 Hp2]. simplify_eq. by rewrite Hp2, removelast_last.
    + apply last_None in El. by rewrite El.
  - by rewrite Hlen.
  - by rewrite deque_Range_spec.
  - split; [done|]. rewrite (Get_spec d i Hwf) by lia. done.
  - destruct (Set_spec i v d Hwf) as [? ->]; [lia|]. done.
  - destruct (Insert_spec i v d Hwf) as [? ->]; [lia|]. done.
Qed.

Lemma run_ops_spec os d :
  wf d -> admissible_ops os (ToSlice d) = true ->
  wf (run_ops os d).2 /\ ((run_ops os d).1, ToSlice (run_ops os d).2) = spec_ops os (ToSlice d).
Proof.
  revert d. induction os as [|o os IH]; intros d Hwf Ha; [done|].
  cbn in Ha. apply andb_prop in Ha as [Ha1 Ha2].
  destruct (run_op_spec o d Hwf Ha1) as [Hwf' He].
  cbn. destruct (run_op o d) as [r d1]. cbn [fst snd] in *. rewrite <-He in *.
  cbn [snd] in Ha2. destruct (IH d1 Hwf' Ha2) as [Hwf2 He2].
  destruct (run_ops os d1) as [rs d2]. cbn [fst snd] in *. by rewrite <-He2.
Qed.

(** C15: The ring buffer is a list.  Any sequence of deque calls a list value
    can receive, run on the buffer (growth, wrap-around and both shift
    directions of Insert included), gives exactly the answers the same calls
    give on a plain list, and leaves a well-formed buffer whose contents are
    that list. *)
Theorem deque_refines_list os :
  admissible_ops os [] = true ->
  wf (run_ops os empty).2 /\
  ((run_ops os empty).1, ToSlice (run_ops os empty).2) = spec_ops os [].
Proof. intros Ha. by apply (run_ops_spec os empty empty_wf). Qed.

Lemma deque_refines_list_witness :
  let os := [OpPushBack ["a"; "b"; "c"]; OpPushFront ["z"]; OpInsert 2 "m"; OpPopBack;
             OpSet 0 "y"; OpGet 1; OpRange (-3) (-1); OpPopFront; OpLen] in
  admissible_ops os [] = true /\
  ((run_ops os empty).1, ToSlice (run_ops os empty).2) = spec_ops os [] /\
  spec_ops os [] = ([ONone; ONone; ONone; OPop ("c", true); ONone; OVal "a";
                     OVals ["a"; "m"; "b"]; OPop ("y", true); OLen 3], ["a"; "m"; "b"]).
Proof.
  cbv zeta. split; [reflexivity|]. split; [|reflexivity].
  apply deque_refines_list. reflexivity.
Defined.

End Deque.
