(* ===== verification/GoLib.v ===== *)
(** * The parts of Go's standard library the store computes with

    - the byte-wise order on strings ([<], [sort.Strings]);
    - [sort.Search], the binary search every ordered container uses;
    - [strconv.ParseInt]/[Atoi]/[FormatInt] in base 10 at 64 bits;
    - insertion into a slice ([append]; [copy]; assign);
    - IEEE-754 binary64 comparison and arithmetic. *)
From S2P Require Import Prelude.
From Stdlib Require Import SpecFloat.

(** ** Strings *)

Definition str_ltb (a b : string) : bool := String.ltb a b.
Definition str_leb (a b : string) : bool := String.leb a b.

Definition str_le (a b : string) : Prop := str_leb a b = true.
Definition str_lt (a b : string) : Prop := str_ltb a b = true.

#[export] Instance str_le_dec a b : Decision (str_le a b).
Proof. unfold str_le. apply _. Defined.
#[export] Instance str_lt_dec a b : Decision (str_lt a b).
Proof. unfold str_lt. apply _. Defined.

Lemma str_compare_refl a : String.compare a a = Eq.
Proof.
  induction a as [|c a IH]; [done|]. simpl. unfold Ascii.compare.
  by rewrite N.compare_refl.
Qed.

Lemma str_compare_trans_lt a b c :
  String.compare a b = Lt -> String.compare b c = Lt -> String.compare a c = Lt.
Proof.
  revert b c. induction a as [|x a IH]; intros [|y b] [|z c]; simpl; try done.
  unfold Ascii.compare.
  destruct (N.compare_spec (N_of_ascii x) (N_of_ascii y)) as [E1|E1|E1];
    destruct (N.compare_spec (N_of_ascii y) (N_of_ascii z)) as [E2|E2|E2]; try done; intros H1 H2.
  - rewrite E1, E2, N.compare_refl. eauto.
  - rewrite E1. by rewrite (proj2 (N.compare_lt_iff _ _) E2).
  - rewrite <-E2. by rewrite (proj2 (N.compare_lt_iff _ _) E1).
  - by rewrite (proj2 (N.compare_lt_iff _ _) (N.lt_trans _ _ _ E1 E2)).
Qed.

Lemma str_le_cases a b : str_le a b <-> str_lt a b \/ a = b.
Proof.
  unfold str_le, str_lt, str_leb, str_ltb, String.leb, String.ltb.
  destruct (String.compare a b) eqn:E.
  - apply String.compare_eq_iff in E. naive_solver.
  - naive_solver.
  - split; [done|]. intros [?| ->]; [done|]. by rewrite str_compare_refl in E.
Qed.

Lemma str_lt_compare a b : str_lt a b <-> String.compare a b = Lt.
Proof. unfold str_lt, str_ltb, String.ltb. by destruct (String.compare a b). Qed.

#[export] Instance str_lt_trans : Transitive str_lt.
Proof. intros a b c. rewrite !str_lt_compare. apply str_compare_trans_lt. Qed.

#[export] Instance str_lt_irrefl : Irreflexive str_lt.
Proof. intros a. unfold complement. rewrite str_lt_compare. by rewrite str_compare_refl. Qed.

Lemma str_lt_total a b : str_lt a b \/ a = b \/ str_lt b a.
Proof.
  rewrite !str_lt_compare. rewrite (String.compare_antisym b a).
  destruct (String.compare a b) eqn:E; simpl; [|tauto|tauto].
  right. left. by apply String.compare_eq_iff.
Qed.

#[export] Instance str_le_trans : Transitive str_le.
Proof.
  intros a b c. rewrite !str_le_cases. intros [H1| ->] [H2| ->]; auto.
  left. by transitivity b.
Qed.

#[export] Instance str_le_total : Total str_le.
Proof. intros a b. rewrite !str_le_cases. destruct (str_lt_total a b) as [?|[?|?]]; auto. Qed.

#[export] Instance str_le_antisym : AntiSymm (=) str_le.
Proof.
  intros a b. rewrite !str_le_cases. intros [H1| ->] [H2|H2]; auto.
  exfalso. apply (str_lt_irrefl a). by transitivity b.
Qed.

Lemma str_le_not_lt a b : str_leb a b = negb (str_ltb b a).
Proof.
  unfold str_leb, str_ltb, String.leb, String.ltb. rewrite (String.compare_antisym b a).
  by destruct (String.compare a b).
Qed.

(** [sort.Strings] *)
Definition sort_strings (l : list string) : list string := merge_sort str_le l.

Lemma sort_strings_perm l : sort_strings l ≡ₚ l.
Proof. apply merge_sort_Permutation. Qed.

Lemma sort_strings_sorted l : Sorted str_le (sort_strings l).
Proof. apply Sorted_merge_sort, _. Qed.

(** A sorted permutation is unique, so the order in which a Go map is
    iterated does not show after [sort.Strings]. *)
Lemma sort_strings_unique l1 l2 : l1 ≡ₚ l2 -> sort_strings l1 = sort_strings l2.
Proof.
  intros H. apply (Sorted_unique str_le); [apply sort_strings_sorted..|].
  by rewrite !sort_strings_perm.
Qed.

(** ** [sort.Search] *)

Fixpoint search_loop (fuel : nat) (f : Z -> bool) (i j : Z) : Z :=
  match fuel with
  | O => i
  | S fuel =>
      if i <? j then
        let h := Z.shiftr (i + j) 1 in
        if f h then search_loop fuel f i h else search_loop fuel f (h + 1) j
      else i
  end.

(** Each iteration shrinks the interval, so [n] units of fuel are enough. *)
Definition Search (n : Z) (f : Z -> bool) : Z := search_loop (Z.to_nat n) f 0 n.

Lemma search_loop_spec fuel f i j :
  0 <= i <= j -> j - i <= Z.of_nat fuel ->
  let r := search_loop fuel f i j in
  i <= r <= j /\ (i < r -> f (r - 1) = false) /\ (r < j -> f r = true).
Proof.
  revert i j. induction fuel as [|fuel IH]; intros i j Hij Hfuel; cbn -[Z.shiftr].
  - replace j with i by lia. lia.
  - destruct (Z.ltb_spec i j); [|replace j with i by lia; lia].
    rewrite Z.shiftr_div_pow2 by lia. change (2 ^ 1) with 2.
    assert (i <= (i + j) / 2 < j) as Hh by (split; [apply Z.div_le_lower_bound|apply Z.div_lt_upper_bound]; lia).
    set (h := (i + j) / 2) in *. destruct (f h) eqn:Hf.
    + destruct (IH i h) as (Hr & Hlo & Hhi); [lia..|]. split; [lia|]. split; [done|].
      intros Hrj. destruct (decide (search_loop fuel f i h = h)) as [->|]; [done|]. apply Hhi. lia.
    + destruct (IH (h + 1) j) as (Hr & Hlo & Hhi); [lia..|]. split; [lia|]. split; [|done].
      intros Hir. destruct (decide (search_loop fuel f (h + 1) j = h + 1)) as [->|].
      * by replace (h + 1 - 1) with h by lia.
      * apply Hlo. lia.
Qed.

Lemma Search_spec n f :
  0 <= n ->
  0 <= Search n f <= n /\ (0 < Search n f -> f (Search n f - 1) = false)
  /\ (Search n f < n -> f (Search n f) = true).
Proof. intros. unfold Search. apply search_loop_spec; lia. Qed.

(** On a monotone predicate the result splits the interval. *)
Lemma Search_mono n f :
  0 <= n -> (forall i j, 0 <= i <= j -> j < n -> f i = true -> f j = true) ->
  forall i, 0 <= i < n -> f i = true <-> Search n f <= i.
Proof.
  intros Hn Hmono i Hi. destruct (Search_spec n f Hn) as (Hr & Hlo & Hhi).
  split.
  - intros Hf. destruct (decide (i < Search n f)); [|lia].
    rewrite (Hmono i (Search n f - 1)) in Hlo by (done || lia).
    discriminate Hlo. lia.
  - intros Hle. eapply Hmono; [| |apply Hhi]; lia.
Qed.

(** Binary search over a slice sorted by [R], for a predicate that is
    upward closed along [R]: the result splits the slice. *)
Section SearchSlice.
Context {A : Type} `{!Inhabited A} (R : relation A) (q : A -> bool).
Hypothesis q_up : forall a b, R a b -> q a = true -> q b = true.

Lemma sorted_lookup (l : list A) i j a b :
  StronglySorted R l -> l !! i = Some a -> l !! j = Some b -> (i < j)%nat -> R a b.
Proof using.
  intros Hs Ha Hb Hij.
  rewrite <-(take_drop_middle l i a Ha) in Hs. apply StronglySorted_app_1_r in Hs.
  apply StronglySorted_cons in Hs as [HF _]. rewrite Forall_forall in HF. apply HF.
  apply list_elem_of_lookup. exists (j - S i)%nat. rewrite lookup_drop.
  by replace (S i + (j - S i))%nat with j by lia.
Qed.

Lemma Search_split (l : list A) :
  StronglySorted R l ->
  let pos := Search (zlen l) (fun i => q (zget l i)) in
  0 <= pos <= zlen l /\
  (forall a, a ∈ take (Z.to_nat pos) l -> q a = false) /\
  (forall a, a ∈ drop (Z.to_nat pos) l -> q a = true).
Proof using q_up.
  intros Hs. cbn zeta. set (f := fun i => q (zget l i)).
  destruct (Search_spec (zlen l) f (zlen_nonneg l)) as (Hr & _ & _).
  assert (forall i, 0 <= i < zlen l -> f i = true <-> Search (zlen l) f <= i) as Hiff.
  { apply Search_mono; [apply zlen_nonneg|]. intros i j Hi Hj. unfold f. intros Hq.
    destruct (decide (i = j)) as [->|]; [done|].
    eapply q_up; [|exact Hq].
    eapply sorted_lookup; [done|apply zget_lookup; lia..|lia]. }
  split; [done|]. split.
  - intros a (k & Hk)%list_elem_of_lookup.
    apply lookup_take_Some in Hk as [Hk Hlt].
    destruct (q a) eqn:E; [|done].
    assert (f (Z.of_nat k) = true) as Hf by (unfold f; by rewrite (lookup_zget _ _ _ Hk)).
    apply lookup_lt_Some in Hk. apply Hiff in Hf; unfold zlen in *; lia.
  - intros a (k & Hk)%list_elem_of_lookup. rewrite lookup_drop in Hk.
    rewrite <-(lookup_zget _ _ _ Hk). apply lookup_lt_Some in Hk.
    apply Hiff; unfold zlen in *; lia.
Qed.

(** So the upper part is the slice filtered by the predicate. *)
Lemma Search_filter (l : list A) :
  StronglySorted R l ->
  zdrop (Search (zlen l) (fun i => q (zget l i))) l = filter (fun a => q a = true) l.
Proof using q_up.
  intros Hs. destruct (Search_split l Hs) as (_ & Hlo & Hhi). unfold zdrop.
  rewrite <-(take_drop (Z.to_nat (Search (zlen l) (fun i => q (zget l i)))) l) at 3.
  rewrite filter_app, (filter_none _ (take _ _)), (filter_all _ (drop _ _)); [done|done|].
  intros a Ha. rewrite (Hlo a Ha). done.
Qed.
End SearchSlice.

(** ** Slice insertion: [l = append(l, zero); copy(l[pos+1:], l[pos:]); l[pos] = x] *)
Section SliceInsert.
Context {A : Type}.
Implicit Types l : list A.

Definition slice_insert (zero : A) (pos : Z) (x : A) l : list A :=
  let l1 := l ++ [zero] in
  let p := Z.to_nat pos in
  let l2 := take (S p) l1 ++ take (length l1 - S p) (drop p l1) in
  <[p := x]> l2.

Lemma slice_insert_eq zero pos x l :
  0 <= pos <= zlen l ->
  slice_insert zero pos x l = take (Z.to_nat pos) l ++ x :: drop (Z.to_nat pos) l.
Proof.
  intros Hpos. unfold slice_insert, zlen in *. set (p := Z.to_nat pos).
  assert (length (take p l) = p) as Hl1 by (rewrite length_take; lia).
  rewrite <-(take_drop p l) at 1 2 3. set (l1 := take p l) in *. set (l2 := drop p l).
  rewrite <-!(assoc (++) l1). rewrite !length_app, Hl1.
  replace (p + (length l2 + length [zero]) - S p)%nat with (length l2)
    by (cbn [length]; lia).
  rewrite (drop_app_length' l1), take_app_length by done.
  destruct (l2 ++ [zero]) as [|y r] eqn:E; [by destruct l2|].
  replace (take (S p) (l1 ++ y :: r)) with (l1 ++ [y]).
  - rewrite <-(assoc (++)). rewrite insert_app_r_alt by lia. by rewrite Hl1, Nat.sub_diag.
  - rewrite take_app_ge by lia. rewrite Hl1. by replace (S p - p)%nat with 1%nat by lia.
Qed.
End SliceInsert.

(** ** [strconv]: decimal integers *)

Inductive num_error := ErrSyntax | ErrRange.

Definition uint64_max : Z := 2 ^ 64 - 1.

Definition digit_val (c : ascii) : option Z :=
  let n := Z.of_N (N_of_ascii c) in
  if (48 <=? n) && (n <=? 57) then Some (n - 48) else None.

Definition digit_char (d : Z) : ascii := ascii_of_N (Z.to_N (48 + d)).

(** The loop of [ParseUint(s, 10, 64)]: it stops at the first digit that
    overflows, before it has looked at the rest of the string. *)
Fixpoint parse_uint_loop (s : string) (n : Z) : Z * option num_error :=
  match s with
  | EmptyString => (n, None)
  | String c s =>
      match digit_val c with
      | None => (0, Some ErrSyntax)
      | Some d =>
          if n >=? uint64_max / 10 + 1 then (uint64_max, Some ErrRange)
          else let n1 := n * 10 + d in
               if n1 >? uint64_max then (uint64_max, Some ErrRange)
               else parse_uint_loop s n1
      end
  end.

Definition ParseUint (s : string) : Z * option num_error :=
  if String.eqb s "" then (0, Some ErrSyntax) else parse_uint_loop s 0.

(** [strconv.ParseInt(s, 10, 64)] *)
Definition ParseInt (s : string) : Z * option num_error :=
  match s with
  | EmptyString => (0, Some ErrSyntax)
  | String c s' =>
      let neg := Ascii.eqb c "-" in
      let body := if neg || Ascii.eqb c "+" then s' else s in
      match ParseUint body with
      | (_, Some ErrSyntax) => (0, Some ErrSyntax)
      | (un, _) =>
          if negb neg && (un >=? 2 ^ 63) then (int64_max, Some ErrRange)
          else if neg && (un >? 2 ^ 63) then (int64_min, Some ErrRange)
          else (if neg then - un else un, None)
      end
  end.

(** On a 64-bit platform [strconv.Atoi] accepts the same strings. *)
Definition Atoi (s : string) : Z * option num_error := ParseInt s.

Fixpoint format_loop (fuel : nat) (n : Z) (acc : string) : string :=
  match fuel with
  | O => acc
  | S fuel =>
      let acc := String (digit_char (n mod 10)) acc in
      if n <? 10 then acc else format_loop fuel (n / 10) acc
  end.

(** The decimal digits of [n]: [log2 n + 1] bounds their number. *)
Definition format_uint (n : Z) : string := format_loop (S (Z.to_nat (Z.log2 n))) n "".

(** [strconv.FormatInt(n, 10)] *)
Definition FormatInt (n : Z) : string :=
  if n <? 0 then String "-" (format_uint (- n)) else format_uint n.

Lemma digit_val_char d : 0 <= d < 10 -> digit_val (digit_char d) = Some d.
Proof.
  intros H. assert (d = 0 \/ d = 1 \/ d = 2 \/ d = 3 \/ d = 4 \/ d = 5 \/ d = 6 \/ d = 7 \/ d = 8 \/ d = 9)
    as Hd by lia.
  repeat (destruct Hd as [->|Hd]; [reflexivity|]). by subst.
Qed.

Lemma parse_format_loop fuel n acc :
  0 <= n <= uint64_max -> n < 10 ^ Z.of_nat fuel ->
  parse_uint_loop (format_loop fuel n acc) 0 = parse_uint_loop acc n.
Proof.
  revert n acc. induction fuel as [|fuel IH]; intros n acc Hn Hlt.
  - simpl. simpl in Hlt. by replace n with 0 by lia.
  - cbn [format_loop]. destruct (Z.ltb_spec n 10) as [Hlt10|Hge].
    + cbn [parse_uint_loop]. rewrite digit_val_char by (apply Z.mod_pos_bound; lia).
      rewrite Z.mod_small by lia. cbn -[uint64_max].
      replace (0 >=? _) with false by done.
      rewrite Z.gtb_ltb. rewrite (proj2 (Z.ltb_ge _ _)) by (unfold uint64_max in *; lia). done.
    + rewrite Nat2Z.inj_succ, Z.pow_succ_r in Hlt by lia.
      assert (n = 10 * (n / 10) + n mod 10) as Hdm by (apply Z.div_mod; lia).
      pose proof (Z.mod_pos_bound n 10 ltac:(lia)).
      rewrite IH; [|split; [apply Z.div_pos; lia|lia]|apply Z.div_lt_upper_bound; lia].
      cbn [parse_uint_loop]. rewrite digit_val_char by lia.
      rewrite Z.geb_leb, (proj2 (Z.leb_gt _ _)).
      2:{ unfold uint64_max in *. apply Z.le_lt_trans with ((2 ^ 64 - 1) / 10); [|lia].
          apply Z.div_le_mono; lia. }
      cbv zeta. rewrite Z.gtb_ltb, (proj2 (Z.ltb_ge _ _)) by lia. f_equal. lia.
Qed.

Lemma format_loop_nonempty fuel n acc : format_loop (S fuel) n acc <> "".
Proof.
  revert n acc. induction fuel as [|fuel IH]; intros n acc; cbn [format_loop].
  - by case_match.
  - case_match; [done|]. apply IH.
Qed.

Lemma format_loop_head fuel n acc c s :
  format_loop (S fuel) n acc = String c s -> is_Some (digit_val c).
Proof.
  revert n acc. induction fuel as [|fuel IH]; intros n acc; cbn [format_loop].
  - case_match; intros [= <- _]; rewrite digit_val_char by (apply Z.mod_pos_bound; lia); eauto.
  - case_match.
    + intros [= <- _]. rewrite digit_val_char by (apply Z.mod_pos_bound; lia). eauto.
    + apply IH.
Qed.

Lemma ParseUint_format n : 0 <= n <= uint64_max -> ParseUint (format_uint n) = (n, None).
Proof.
  intros Hn. unfold ParseUint, format_uint.
  destruct (String.eqb_spec (format_loop (S (Z.to_nat (Z.log2 n))) n "") "") as [E|_].
  { by apply format_loop_nonempty in E. }
  rewrite parse_format_loop; [done|done|].
  pose proof (Z.log2_nonneg n).
  rewrite Nat2Z.inj_succ, Z2Nat.id by lia.
  destruct (decide (n = 0)) as [->|]; [done|].
  pose proof (proj2 (Z.log2_spec n ltac:(lia))).
  apply Z.lt_le_trans with (2 ^ Z.succ (Z.log2 n)); [done|].
  apply Z.pow_le_mono_l. lia.
Qed.

(** Every [int64] survives formatting and parsing. *)
Lemma ParseInt_FormatInt n : in_int64 n -> ParseInt (FormatInt n) = (n, None).
Proof.
  unfold in_int64, int64_min, int64_max. intros Hn. unfold FormatInt.
  destruct (Z.ltb_spec n 0).
  - unfold ParseInt. cbv beta iota zeta. change (Ascii.eqb "-" "-") with true. cbn [orb].
    rewrite ParseUint_format by (unfold uint64_max; lia). cbn [negb andb].
    rewrite Z.gtb_ltb, (proj2 (Z.ltb_ge _ _)) by lia. f_equal. lia.
  - unfold format_uint, ParseInt.
    destruct (format_loop (S (Z.to_nat (Z.log2 n))) n "") as [|c s] eqn:E.
    { by apply format_loop_nonempty in E. }
    assert (Ascii.eqb c "-" = false /\ Ascii.eqb c "+" = false) as [-> ->].
    { apply format_loop_head in E as [d Hd].
      split; apply Ascii.eqb_neq; intros ->; done. }
    cbn [orb]. rewrite <-E. fold (format_uint n). rewrite ParseUint_format by (unfold uint64_max; lia).
    cbn [negb andb]. rewrite Z.geb_leb, (proj2 (Z.leb_gt _ _)) by lia. done.
Qed.

Lemma parse_uint_nonneg s n : 0 <= n -> 0 <= (parse_uint_loop s n).1.
Proof.
  revert n. induction s as [|c s IH]; intros n Hn; cbn [parse_uint_loop]; [done|].
  destruct (digit_val c) as [d|] eqn:E; [|done]. case_match; [unfold uint64_max; cbn; lia|].
  assert (0 <= d).
  { unfold digit_val in E. case_match eqn:Ec; [|done]. injection E as <-. apply andb_true_iff in Ec as [Ec _]. lia. }
  cbv zeta. case_match; [unfold uint64_max; cbn; lia|]. apply IH. lia.
Qed.

(** Whatever the text, the value returned is an [int64]. *)
Lemma ParseInt_range s : in_int64 (ParseInt s).1.
Proof.
  unfold in_int64, int64_min, int64_max. unfold ParseInt. destruct s as [|c s]; [cbn; lia|].
  set (body := if Ascii.eqb c "-" || Ascii.eqb c "+" then s else String c s).
  assert (0 <= (ParseUint body).1) as Hn.
  { unfold ParseUint. case_match; [done|]. by apply parse_uint_nonneg. }
  destruct (ParseUint body) as [un [[]|]]; cbn [fst] in Hn |- *; [lia| |].
  - destruct (Ascii.eqb c "-"); cbn [negb andb]; repeat case_match; unfold int64_max, int64_min; cbn; lia.
  - destruct (Ascii.eqb c "-"); cbn [negb andb]; repeat case_match; unfold int64_max, int64_min; cbn; lia.
Qed.

(** ** The [strings] package *)

(** [unicode.IsSpace] on the rune that starts the string: the number of bytes
    of its UTF-8 encoding, or 0.  No encoding of a space occurs inside that of
    another rune. *)
Definition space_width (s : string) : nat :=
  match s with
  | EmptyString => 0
  | String a s =>
      let a := nat_of_ascii a in
      if ((9 <=? a)%nat && (a <=? 13)%nat) || (a =? 32)%nat then 1
      else match s with
      | EmptyString => 0
      | String b s =>
          let b := nat_of_ascii b in
          if (a =? 194)%nat && ((b =? 133)%nat || (b =? 160)%nat) then 2
          else match s with
          | EmptyString => 0
          | String c _ =>
              let c := nat_of_ascii c in
              if ((a =? 225) && (b =? 154) && (c =? 128))%nat
                 || ((a =? 226) && (b =? 128) && (((128 <=? c) && (c <=? 138)) || (c =? 168) || (c =? 169) || (c =? 175)))%nat
                 || ((a =? 226) && (b =? 129) && (c =? 159))%nat
                 || ((a =? 227) && (b =? 128) && (c =? 128))%nat
              then 3 else 0
          end
      end
  end.

(** [strings.Fields]: [skip] bytes of a space are left, [word] is the field
    being read. *)
Fixpoint fields_loop (skip : nat) (word : string) (s : string) : list string :=
  let flush := if String.eqb word "" then [] else [word] in
  match s with
  | EmptyString => flush
  | String c r =>
      match skip with
      | S skip => fields_loop skip word r
      | O =>
          match space_width s with
          | O => fields_loop 0 (String.append word (String c "")) r
          | S w => flush ++ fields_loop w "" r
          end
      end
  end.

Definition Fields (s : string) : list string := fields_loop 0 "" s.

(** [strings.TrimSpace]: the spaces at the start, then those at the end. *)
Fixpoint trim_left (skip : nat) (s : string) : string :=
  match s with
  | EmptyString => ""
  | String c r =>
      match skip with
      | S skip => trim_left skip r
      | O => match space_width s with O => s | S w => trim_left w r end
      end
  end.

Fixpoint all_space (skip : nat) (s : string) : bool :=
  match s with
  | EmptyString => true
  | String c r =>
      match skip with
      | S skip => all_space skip r
      | O => match space_width s with O => false | S w => all_space w r end
      end
  end.

Fixpoint trim_right (s : string) : string :=
  match s with
  | EmptyString => ""
  | String c r => if all_space 0 s then "" else String c (trim_right r)
  end.

Definition TrimSpace (s : string) : string := trim_right (trim_left 0 s).

(** [strings.TrimSuffix(s, b)] for a one-byte suffix *)
Fixpoint trim_suffix (b : ascii) (s : string) : string :=
  match s with
  | EmptyString => ""
  | String c EmptyString => if Ascii.eqb c b then "" else s
  | String c s => String c (trim_suffix b s)
  end.

(** Whether a byte occurs in a string. *)
Fixpoint has_byte (b : ascii) (s : string) : bool :=
  match s with EmptyString => false | String c s => Ascii.eqb c b || has_byte b s end.

Lemma has_byte_app b x y : has_byte b (String.append x y) = has_byte b x || has_byte b y.
Proof.
  induction x as [|c x IH]; [done|].
  change (Ascii.eqb c b || has_byte b (String.append x y) = Ascii.eqb c b || has_byte b x || has_byte b y).
  by rewrite IH, orb_assoc.
Qed.

(** Decimal numbers contain digits only. *)
Lemma digits_no_byte b fuel n acc :
  digit_val b = None -> 0 <= n -> has_byte b (format_loop fuel n acc) = has_byte b acc.
Proof.
  intros Hb. revert n acc. induction fuel as [|fuel IH]; intros n acc Hn; cbn [format_loop]; [done|].
  assert (has_byte b (String (digit_char (n mod 10)) acc) = has_byte b acc) as Hd.
  { cbn [has_byte]. pose proof (digit_val_char (n mod 10) (Z.mod_pos_bound n 10 ltac:(lia))) as E.
    destruct (Ascii.eqb_spec (digit_char (n mod 10)) b) as [E'|]; [|done]. congruence. }
  case_match; [done|]. rewrite IH by (apply Z.div_pos; lia). done.
Qed.

(** [strings.Split(s, sep)] for a one-byte separator *)
Fixpoint split_byte (sep : ascii) (s : string) : list string :=
  match s with
  | EmptyString => [""]
  | String c s =>
      if Ascii.eqb c sep then "" :: split_byte sep s
      else match split_byte sep s with
           | x :: l => String c x :: l
           | [] => [String c ""]
           end
  end.

Lemma split_byte_nonempty b x : split_byte b x <> [].
Proof. destruct x as [|c x]; [done|]. cbn. repeat case_match; done. Qed.

Lemma split_byte_app b x y :
  has_byte b x = false -> split_byte b (String.append x (String b y)) = x :: split_byte b y.
Proof.
  induction x as [|c x IH]; intros H.
  - change (split_byte b (String b y) = "" :: split_byte b y). cbn. by rewrite Ascii.eqb_refl.
  - cbn [has_byte] in H. apply orb_false_iff in H as [Hc Hx]. change (String.append (String c x) (String b y)) with (String c (String.append x (String b y))). cbn [split_byte].
    by rewrite Hc, IH.
Qed.

Lemma split_byte_whole b x : has_byte b x = false -> split_byte b x = [x].
Proof.
  induction x as [|c x IH]; intros H; [done|]. cbn [has_byte] in H. apply orb_false_iff in H as [Hc Hx].
  cbn [split_byte]. by rewrite Hc, IH.
Qed.

(** [strings.IndexByte(s, c)]: the bytes before the first [c] and those after
    it, when there is one. *)
Fixpoint cut_byte (c : ascii) (s : string) : option (string * string) :=
  match s with
  | EmptyString => None
  | String x s =>
      if Ascii.eqb x c then Some ("", s)
      else match cut_byte c s with Some (a, b) => Some (String x a, b) | None => None end
  end.

Lemma cut_byte_app c a b :
  cut_byte c a = None -> cut_byte c (String.append a (String c b)) = Some (a, b).
Proof.
  induction a as [|x a IH]; [intros _; change (cut_byte c (String c b) = Some ("", b)); cbn; by rewrite Ascii.eqb_refl|].
  change (String.append (String x a) (String c b)) with (String x (String.append a (String c b))).
  cbn [cut_byte]. destruct (Ascii.eqb x c); [done|]. destruct (cut_byte c a) as [[u v]|]; [done|].
  intros _. by rewrite IH.
Qed.

Lemma cut_byte_none c a : has_byte c a = false -> cut_byte c a = None.
Proof.
  induction a as [|x a IH]; intros H; [done|]. cbn [has_byte] in H. apply orb_false_iff in H as [Hx Ha].
  cbn [cut_byte]. by rewrite Hx, IH.
Qed.

(** ** [hash/crc32] *)

Definition crc32_bit (crc : Z) : Z :=
  if Z.testbit crc 0 then Z.lxor (Z.shiftr crc 1) 0xEDB88320 else Z.shiftr crc 1.

Fixpoint crc32_bytes (crc : Z) (s : string) : Z :=
  match s with
  | EmptyString => crc
  | String c s => crc32_bytes (Nat.iter 8 crc32_bit (Z.lxor crc (Z.of_N (N_of_ascii c)))) s
  end.

(** [crc32.ChecksumIEEE] *)
Definition ChecksumIEEE (s : string) : Z := Z.lxor (crc32_bytes 0xFFFFFFFF s) 0xFFFFFFFF.

Example crc32_check : ChecksumIEEE "123456789" = 0xCBF43926.
Proof. reflexivity. Qed.

(** ** Allocation *)

(** The run-time's limit on one allocation. *)
Definition maxAlloc : Z := 2 ^ 48.

(** [make([]T, ..., n)] with elements of [size] bytes *)
Definition make_ok (size n : Z) : bool := (0 <=? n) && (n * size <=? maxAlloc).

(** ** [float64] *)

Definition float64 := spec_float.

#[export] Instance float64_eq_dec : EqDecision float64.
Proof. intros x y. unfold Decision. repeat decide equality. Defined.

#[export] Instance float64_inhabited : Inhabited float64 := populate (S754_zero false).

Definition fadd (x y : float64) : float64 := SFadd 53 1024 x y.
Definition fsub (x y : float64) : float64 := SFsub 53 1024 x y.
Definition fmul (x y : float64) : float64 := SFmul 53 1024 x y.
Definition fdiv (x y : float64) : float64 := SFdiv 53 1024 x y.
Definition f_of_Z (n : Z) : float64 := binary_normalize 53 1024 n 0 false.
Definition fzero : float64 := S754_zero false.
Definition finf (neg : bool) : float64 := S754_infinity neg.
Definition fnan : float64 := S754_nan.

(** Go's [==], [<], [<=] on [float64]: false as soon as an operand is NaN. *)
Definition feqb (x y : float64) : bool := SFeqb x y.
Definition fltb (x y : float64) : bool := SFltb x y.
Definition fleb (x y : float64) : bool := SFleb x y.

Definition is_nan (x : float64) : bool := match x with S754_nan => true | _ => false end.

(** Order keys: comparison of two numbers is lexicographic comparison of
    their keys, so every order fact below reduces to linear arithmetic. *)
Definition fkey (x : float64) : Z * Z * Z :=
  match x with
  | S754_zero _ => (0, 0, 0)
  | S754_infinity s => (if s then -2 else 2, 0, 0)
  | S754_nan => (0, 0, 0)
  | S754_finite s m e => if s then (-1, - e, - Zpos m) else (1, e, Zpos m)
  end.

Definition key_lt (a b : Z * Z * Z) : Prop :=
  let '(a1, a2, a3) := a in let '(b1, b2, b3) := b in
  a1 < b1 \/ (a1 = b1 /\ (a2 < b2 \/ (a2 = b2 /\ a3 < b3))).

Lemma fcompare_key x y :
  is_nan x = false -> is_nan y = false ->
  match SFcompare x y with
  | Some Lt => key_lt (fkey x) (fkey y)
  | Some Gt => key_lt (fkey y) (fkey x)
  | Some Eq => fkey x = fkey y
  | None => False
  end.
Proof.
  intros Hx Hy.
  destruct x as [sx|sx| |sx mx ex], y as [sy|sy| |sy my ey]; try done;
    try (destruct sx); try (destruct sy); cbn; try done; try lia;
    destruct (Z.compare_spec ex ey) as [E|E|E]; try lia;
    fold (Pos.compare mx my); destruct (Pos.compare_spec mx my) as [E'|E'|E'];
    subst; cbn; try done; lia.
Qed.

Lemma fltb_key x y :
  is_nan x = false -> is_nan y = false -> fltb x y = true <-> key_lt (fkey x) (fkey y).
Proof.
  intros Hx Hy. pose proof (fcompare_key x y Hx Hy) as H. unfold fltb, SFltb.
  destruct (fkey x) as [[x1 x2] x3], (fkey y) as [[y1 y2] y3].
  destruct (SFcompare x y) as [[]|]; simpl in *; simplify_eq; try done; split; intros; try done; lia.
Qed.

Lemma feqb_key x y :
  is_nan x = false -> is_nan y = false -> feqb x y = true <-> fkey x = fkey y.
Proof.
  intros Hx Hy. pose proof (fcompare_key x y Hx Hy) as H. unfold feqb, SFeqb.
  destruct (fkey x) as [[x1 x2] x3], (fkey y) as [[y1 y2] y3].
  destruct (SFcompare x y) as [[]|]; simpl in *; simplify_eq; try done; split; intros; simplify_eq; try done; lia.
Qed.

Lemma fleb_split x y : fleb x y = fltb x y || feqb x y.
Proof. unfold fleb, fltb, feqb, SFleb, SFltb, SFeqb. by destruct (SFcompare x y) as [[]|]. Qed.

Lemma fltb_nan_l y : fltb fnan y = false.
Proof. by destruct y. Qed.

Lemma fltb_nan_r x : fltb x fnan = false.
Proof. by destruct x. Qed.

Lemma feqb_nan_l y : feqb fnan y = false.
Proof. by destruct y. Qed.

Lemma feqb_refl x : is_nan x = false -> feqb x x = true.
Proof. intros. by apply feqb_key. Qed.

Lemma key_trichotomy a b : key_lt a b \/ a = b \/ key_lt b a.
Proof.
  destruct a as [[a1 a2] a3], b as [[b1 b2] b3]. simpl.
  destruct (Z.lt_trichotomy a1 b1) as [|[->|]]; [lia| |lia].
  destruct (Z.lt_trichotomy a2 b2) as [|[->|]]; [lia| |lia].
  destruct (Z.lt_trichotomy a3 b3) as [|[->|]]; [lia|auto|lia].
Qed.

Lemma key_lt_trans a b c : key_lt a b -> key_lt b c -> key_lt a c.
Proof. destruct a as [[? ?] ?], b as [[? ?] ?], c as [[? ?] ?]. simpl. lia. Qed.

Lemma key_lt_irrefl a : ~ key_lt a a.
Proof. destruct a as [[? ?] ?]. simpl. lia. Qed.

(** ** The scanning loop of the range queries

    [for _, m := range l { if skip(m) continue; if stop(m) break;
      if offset > 0 && skipped < offset { skipped++; continue }
      result = append(result, m); if count > 0 && len(result) >= count break }] *)
Section Scan.
Context {A : Type} (skip stop : A -> bool).
Implicit Types l result : list A.

Fixpoint scan_loop (offset count skipped : Z) result l : list A :=
  match l with
  | [] => result
  | m :: l =>
      if skip m then scan_loop offset count skipped result l
      else if stop m then result
      else if (offset >? 0) && (skipped <? offset)
      then scan_loop offset count (skipped + 1) result l
      else
        let result := result ++ [m] in
        if (count >? 0) && (zlen result >=? count) then result
        else scan_loop offset count skipped result l
  end.

(** What the scan keeps with no offset and no limit. *)
Fixpoint scan_kept l : list A :=
  match l with
  | [] => []
  | m :: l => if skip m then scan_kept l else if stop m then [] else m :: scan_kept l
  end.

(** LIMIT: drop [offset], then keep [count] unless it is 0. *)
Definition limit (offset count : Z) l : list A :=
  if count >? 0 then ztake count (zdrop offset l) else zdrop offset l.

Definition rest_of (offset count skipped : Z) result l : list A :=
  let k := zdrop (offset - skipped) (scan_kept l) in
  if count >? 0 then ztake (count - zlen result) k else k.

Lemma rest_of_stop offset count skipped result l :
  scan_kept l = [] -> rest_of offset count skipped result l = [].
Proof.
  intros E. unfold rest_of. rewrite E. unfold zdrop, ztake. rewrite drop_nil, take_nil. by case_match.
Qed.

Lemma scan_loop_spec offset count skipped result l :
  0 <= skipped -> (0 < count -> zlen result < count) ->
  scan_loop offset count skipped result l = result ++ rest_of offset count skipped result l.
Proof.
  revert skipped result. induction l as [|m l IH]; intros skipped result Hsk Hres; cbn [scan_loop].
  - rewrite rest_of_stop by done. by rewrite app_nil_r.
  - destruct (skip m) eqn:Eskip.
    { rewrite IH by done. unfold rest_of. cbn [scan_kept]. by rewrite Eskip. }
    destruct (stop m) eqn:Estop.
    { rewrite rest_of_stop by (cbn; by rewrite Eskip, Estop). by rewrite app_nil_r. }
    unfold rest_of. cbn [scan_kept]. rewrite Eskip, Estop.
    rewrite !Z.gtb_ltb, !Z.geb_leb.
    rewrite zlen_app.
    change (zlen [m]) with 1.
    destruct (decide (0 < offset /\ skipped < offset)) as [[H1 H2]|Hno].
    + rewrite (proj2 (Z.ltb_lt _ _) H1), (proj2 (Z.ltb_lt _ _) H2). cbn [andb].
      rewrite IH by (done || lia). unfold rest_of, zdrop. rewrite Z.gtb_ltb.
      by replace (Z.to_nat (offset - skipped)) with (S (Z.to_nat (offset - (skipped + 1)))) by lia.
    + replace ((0 <? offset) && (skipped <? offset)) with false.
      2:{ symmetry. apply andb_false_iff. rewrite !Z.ltb_ge. lia. }
      unfold zdrop. replace (Z.to_nat (offset - skipped)) with 0%nat by lia. cbn [drop].
      destruct (Z.ltb_spec 0 count) as [Hc|Hc]; cbn [andb].
      * specialize (Hres Hc). destruct (Z.leb_spec count (zlen result + 1)).
        -- unfold ztake. by replace (Z.to_nat (count - zlen result)) with 1%nat by lia.
        -- rewrite IH by zlen_lia.
           unfold rest_of, ztake, zdrop. rewrite Z.gtb_ltb, (proj2 (Z.ltb_lt _ _) Hc).
           rewrite zlen_app, <-(assoc (++)). change (zlen [m]) with 1.
           replace (Z.to_nat (offset - skipped)) with 0%nat by lia.
           by replace (Z.to_nat (count - zlen result))
             with (S (Z.to_nat (count - (zlen result + 1)))) by lia.
      * rewrite IH by lia. unfold rest_of, zdrop. rewrite Z.gtb_ltb, (proj2 (Z.ltb_ge _ _) Hc).
        replace (Z.to_nat (offset - skipped)) with 0%nat by lia.
        by rewrite <-(assoc (++)).
Qed.

Lemma scan_limit offset count l :
  scan_loop offset count 0 [] l = limit offset count (scan_kept l).
Proof.
  rewrite scan_loop_spec by zlen_lia. unfold rest_of, limit.
  change (zlen (@nil A)) with 0. by rewrite !Z.sub_0_r.
Qed.

(** When [stop] is upward closed along the order of a sorted slice, the
    break loses nothing: the scan keeps every non-stopping element. *)
Lemma scan_kept_filter (R : relation A) l :
  StronglySorted R l ->
  (forall a b, R a b -> stop a = true -> stop b = true) ->
  scan_kept l = filter (fun a => skip a = false /\ stop a = false) l.
Proof.
  intros Hs Hup. induction Hs as [|m l Hs IH HF]; [done|]. cbn [scan_kept].
  destruct (skip m) eqn:Esk.
  { rewrite filter_cons_False by (by intros [? _]; congruence). done. }
  destruct (stop m) eqn:Est.
  - rewrite filter_cons_False by (by intros [_ ?]; congruence).
    symmetry. apply filter_none. intros x Hx [_ Hc]. rewrite Forall_forall in HF.
    rewrite (Hup m x) in Hc by auto. done.
  - rewrite filter_cons_True by done. by rewrite IH.
Qed.
End Scan.
