(* ===== verification/GoText.v ===== *)
(** * Text of the Go standard library the server uses

    - [strings.ToUpper], [strings.ToLower], [strings.EqualFold], compared with
      ASCII words only: a rune outside ASCII matters when its upper or lower
      case is an ASCII letter, and there are three such runes;
    - [strings.SplitN(s, "=", 2)];
    - [fmt.Sscan] into an [int64] and into a [float64], which the replay of
      the log uses where the commands themselves use [strconv];
    - [strconv.ParseFloat(s, 64)] with correct rounding, and
      [strconv.FormatFloat(x, 'f', -1, 64)], the shortest decimal that reads
      back as the same number. *)
From Stdlib Require Import SpecFloat.
From S2P Require Import Prelude GoLib.

Module Text.

(** ** Case *)

Definition code (c : ascii) : Z := Z.of_N (N_of_ascii c).

Definition upper_char (c : ascii) : ascii :=
  if (97 <=? code c) && (code c <=? 122) then ascii_of_N (Z.to_N (code c - 32)) else c.

Definition lower_char (c : ascii) : ascii :=
  if (65 <=? code c) && (code c <=? 90) then ascii_of_N (Z.to_N (code c + 32)) else c.

(** The dotless i (C4 B1) and the long s (C5 BF) have ASCII capitals. *)
Fixpoint ToUpper (s : string) : string :=
  match s with
  | EmptyString => ""
  | String a t =>
      match t with
      | EmptyString => String (upper_char a) ""
      | String b r =>
          if (code a =? 196) && (code b =? 177) then String "I" (ToUpper r)
          else if (code a =? 197) && (code b =? 191) then String "S" (ToUpper r)
          else String (upper_char a) (ToUpper t)
      end
  end.

(** The Kelvin sign (E2 84 AA) has an ASCII lower case letter. *)
Fixpoint ToLower (s : string) : string :=
  match s with
  | EmptyString => ""
  | String a t =>
      match t with
      | String b (String c r) =>
          if (code a =? 226) && (code b =? 132) && (code c =? 170) then String "k" (ToLower r)
          else String (lower_char a) (ToLower t)
      | _ => String (lower_char a) (ToLower t)
      end
  end.

(** Case folding maps all three of these runes to ASCII. *)
Definition EqualFold (s word : string) : bool := (ToLower (ToUpper s) =? ToLower (ToUpper word))%string.

(** [strings.SplitN(s, "=", 2)] when it yields two parts *)
Definition cut_equals (s : string) : option (string * string) := cut_byte "=" s.

(** ** [fmt.Sscan] into an [int64] *)

Definition hex_digit_val (c : ascii) : option Z :=
  let n := code c in
  if (48 <=? n) && (n <=? 57) then Some (n - 48)
  else if (97 <=? n) && (n <=? 102) then Some (n - 87)
  else if (65 <=? n) && (n <=? 70) then Some (n - 55) else None.

Definition digit_in (base : Z) (c : ascii) : option Z :=
  match hex_digit_val c with Some d => if d <? base then Some d else None | None => None end.

(** The digits of the token and their value: an underscore must stand between
    two digits ([saw]: the last character was a digit or the base prefix), or
    the token is not a number. *)
Fixpoint scan_digits (base : Z) (s : string) (saw : bool) (n : Z) : option Z :=
  match s with
  | EmptyString => if saw then Some n else None
  | String c r =>
      match digit_in base c with
      | Some d => scan_digits base r true (n * base + d)
      | None =>
          if Ascii.eqb c "_" then if saw then scan_digits base r false n else None
          else if saw then Some n else None
      end
  end.

Definition accept_sign (s : string) : bool * string :=
  match s with
  | String c r => if Ascii.eqb c "-" then (true, r) else if Ascii.eqb c "+" then (false, r) else (false, s)
  | EmptyString => (false, s)
  end.

(** A prefix 0b, 0o or 0x needs a digit after it; a leading 0 alone makes the
    number octal. *)
Definition scan_unsigned (s : string) : option Z :=
  match s with
  | String z r =>
      if Ascii.eqb z "0" then
        match r with
        | String p body =>
            let q := lower_char p in
            let base := if Ascii.eqb q "b" then 2 else if Ascii.eqb q "o" then 8 else if Ascii.eqb q "x" then 16 else 0 in
            if base =? 0 then scan_digits 8 r true 0
            else match body with
                 | String c _ =>
                     match digit_in base c with
                     | Some _ => scan_digits base body true 0
                     | None => if Ascii.eqb c "_" then scan_digits base body true 0 else None
                     end
                 | EmptyString => None
                 end
        | EmptyString => Some 0
        end
      else scan_digits 10 s false 0
  | EmptyString => None
  end.

(** The variable keeps its initial 0 when the text is not a number of the
    range. *)
Definition Sscan_int (s : string) : Z :=
  let '(neg, body) := accept_sign (trim_left 0 s) in
  match scan_unsigned body with
  | None => 0
  | Some n =>
      if neg then if n <=? 2 ^ 63 then - n else 0
      else if n <=? int64_max then n else 0
  end.

(** ** [strconv.ParseFloat] *)

(** The float nearest to [n / d] (ties to even) for [0 <= n] and [0 < d]: a
    quotient of at least 64 bits and a sticky bit below it, rounded once. *)
Definition round_ratio (neg : bool) (n d : Z) : float64 :=
  if n =? 0 then S754_zero neg
  else
    let k := 66 + Z.log2 d - Z.log2 n in
    let '(a, b) := if 0 <=? k then (Z.shiftl n k, d) else (n, Z.shiftl d (- k)) in
    let q := a / b in
    let m := 2 * q + (if a mod b =? 0 then 0 else 1) in
    binary_normalize 53 1024 (if neg then - m else m) (- k - 1) neg.

Record mantissa := mkMant { m_value : Z; m_frac : Z; m_digits : bool; m_under : bool }.

(** Digits, at most one point, underscores: the value of the digits, how many
    stand behind the point, and the rest of the text. *)
Fixpoint scan_mantissa (base : Z) (s : string) (m : mantissa) (dot : bool) : mantissa * string :=
  match s with
  | EmptyString => (m, s)
  | String c r =>
      match digit_in base c with
      | Some d =>
          scan_mantissa base r (mkMant (m_value m * base + d) (m_frac m + if dot then 1 else 0) true (m_under m)) dot
      | None =>
          if Ascii.eqb c "_" then scan_mantissa base r (mkMant (m_value m) (m_frac m) (m_digits m) true) dot
          else if Ascii.eqb c "." && negb dot then scan_mantissa base r m true
          else (m, s)
      end
  end.

(** The digits of the exponent; it stops growing at 10000. *)
Fixpoint scan_exponent (s : string) (e : Z) (under : bool) : Z * bool * string :=
  match s with
  | EmptyString => (e, under, s)
  | String c r =>
      match digit_val c with
      | Some d => scan_exponent r (if e <? 10000 then e * 10 + d else e) under
      | None => if Ascii.eqb c "_" then scan_exponent r e true else (e, under, s)
      end
  end.

(** [underscoreOK]: an underscore stands between two digits, or after the
    base prefix. *)
Fixpoint underscores_ok (hex : bool) (s : string) (saw : ascii) : bool :=
  match s with
  | EmptyString => negb (Ascii.eqb saw "_")
  | String c r =>
      if match digit_in (if hex then 16 else 10) c with Some _ => true | None => false end
      then underscores_ok hex r "0"
      else if Ascii.eqb c "_" then if Ascii.eqb saw "0" then underscores_ok hex r "_" else false
      else if Ascii.eqb saw "_" then false else underscores_ok hex r "!"
  end.

(** The decimal digits of a positive integer. *)
Definition ndigits (n : Z) : Z := Z.of_nat (String.length (format_uint n)).

Definition decimal_float (neg : bool) (m e : Z) : float64 :=
  if m =? 0 then S754_zero neg
  else if ndigits m + e >? 310 then S754_infinity neg
  else if ndigits m + e <? -330 then S754_zero neg
  else if 0 <=? e then round_ratio neg (m * 10 ^ e) 1 else round_ratio neg m (10 ^ (- e)).

Definition binary_float (neg : bool) (m e : Z) : float64 :=
  if m =? 0 then S754_zero neg else binary_normalize 53 1024 (if neg then - m else m) e neg.

Definition is_hex_prefix (s : string) : option string :=
  match s with
  | String z (String x (String c r)) =>
      if Ascii.eqb z "0" && Ascii.eqb (lower_char x) "x" then Some (String c r) else None
  | _ => None
  end.

Definition range_checked (x : float64) : float64 * option num_error :=
  match x with S754_infinity _ => (x, Some ErrRange) | _ => (x, None) end.

Definition read_float (s : string) : float64 * option num_error :=
  let '(neg, body) := accept_sign s in
  let '(hex, body) := match is_hex_prefix body with Some r => (true, r) | None => (false, body) end in
  let '(m, rest) := scan_mantissa (if hex then 16 else 10) body (mkMant 0 0 false false) false in
  let under_ok (b : bool) := if b then underscores_ok hex body (if hex then "0"%char else "^"%char) else true in
  if negb (m_digits m) then (fzero, Some ErrSyntax)
  else match rest with
  | String c r =>
      if Ascii.eqb (lower_char c) (if hex then "p" else "e")%char then
        let '(eneg, digits) := accept_sign r in
        match digits with
        | String d _ =>
            match digit_val d with
            | None => (fzero, Some ErrSyntax)
            | Some _ =>
                let '(e, under, rest) := scan_exponent digits 0 (m_under m) in
                let e := if eneg then - e else e in
                if negb (under_ok under) || negb (rest =? "")%string then (fzero, Some ErrSyntax)
                else range_checked (if hex then binary_float neg (m_value m) (e - 4 * m_frac m)
                                    else decimal_float neg (m_value m) (e - m_frac m))
            end
        | EmptyString => (fzero, Some ErrSyntax)
        end
      else (fzero, Some ErrSyntax)
  | EmptyString =>
      if hex || negb (under_ok (m_under m)) then (fzero, Some ErrSyntax)
      else range_checked (decimal_float neg (m_value m) (- m_frac m))
  end.

Definition ParseFloat (s : string) : float64 * option num_error :=
  let '(neg, body) := accept_sign s in
  if (ToLower s =? "nan")%string then (fnan, None)
  else if (ToLower body =? "inf")%string || (ToLower body =? "infinity")%string then (finf neg, None)
  else read_float s.

(** ** [strconv.FormatFloat(x, 'f', -1, 64)] *)

(** [m * 2^e] as a fraction. *)
Definition fraction (m e : Z) : Z * Z := if 0 <=? e then (Z.shiftl m e, 1) else (m, Z.shiftl 1 (- e)).

(** The number of digits before the point of [n / d], at most 0 when it is
    less than one; found by counting up from an estimate. *)
Fixpoint magnitude (fuel : nat) (p n d : Z) : Z :=
  match fuel with
  | O => p
  | S fuel => if (if 0 <=? p then d * 10 ^ p <=? n else d <=? n * 10 ^ (- p)) then magnitude fuel (p + 1) n d else p
  end.

Definition magnitude_of (n d : Z) : Z :=
  let est := ((Z.log2 n - Z.log2 d - 1) * 3 / 10) - 2 in magnitude 400 est n d.

(** Decimals [c * 10^(p - k)] with [k] digits around [n / d] that read back as
    [x], the nearer one first. *)
Definition candidate (x : float64) (n d p k : Z) : option Z :=
  let s := k - p in
  let '(a, b) := if 0 <=? s then (n * 10 ^ s, d) else (n, d * 10 ^ (- s)) in
  let q := a / b in
  let reads c := bool_decide (decimal_float false c (p - k) = x) in
  let low_first := 2 * (a mod b) <=? b in
  if low_first then if reads q then Some q else if reads (q + 1) then Some (q + 1) else None
  else if reads (q + 1) then Some (q + 1) else if reads q then Some q else None.

Fixpoint shortest (fuel : nat) (x : float64) (n d p k : Z) : Z * Z :=
  match fuel with
  | O => (0, 0)
  | S fuel => match candidate x n d p k with Some c => (c, p - k) | None => shortest fuel x n d p (k + 1) end
  end.

Fixpoint zeros (n : nat) : string := match n with O => "" | S n => String "0" (zeros n) end.

(** [c * 10^e] without an exponent. *)
Definition fixed (c e : Z) : string :=
  let digits := format_uint c in
  if 0 <=? e then String.append digits (zeros (Z.to_nat e))
  else
    let point := Z.of_nat (String.length digits) + e in
    if point <=? 0 then String.append "0." (String.append (zeros (Z.to_nat (- point))) digits)
    else String.append (String.substring 0 (Z.to_nat point) digits)
           (String "." (String.substring (Z.to_nat point) (Z.to_nat (- e)) digits)).

(** Seventeen digits always suffice for a float64. *)
Definition FormatFloat (x : float64) : string :=
  match x with
  | S754_nan => "NaN"
  | S754_infinity neg => if neg then "-Inf" else "+Inf"
  | S754_zero neg => if neg then "-0" else "0"
  | S754_finite neg m e =>
      let '(n, d) := fraction (Zpos m) e in
      let '(c, k) := shortest 17 (S754_finite false m e) n d (magnitude_of n d) 1 in
      String.append (if neg then "-" else "") (fixed c k)
  end.

(** ** [fmt.Sscan] into a [float64] *)

Fixpoint span (f : ascii -> bool) (s : string) : string * string :=
  match s with
  | String c r => if f c then let '(a, b) := span f r in (String c a, b) else ("", s)
  | EmptyString => ("", "")
  end.

Definition accept (f : ascii -> bool) (s : string) : string * string :=
  match s with String c r => if f c then (String c "", r) else ("", s) | EmptyString => ("", "") end.

Definition one_of (w : string) (c : ascii) : bool := has_byte c w.

Definition digit_or_under (base : Z) (c : ascii) : bool :=
  match digit_in base c with Some _ => true | None => Ascii.eqb c "_" end.

(** The token of a number: sign, digits with a point, exponent. *)
Definition float_token (s : string) : string :=
  let '(sign, s) := accept (one_of "+-") s in
  let '(z, s) := accept (one_of "0") s in
  let '(x, s) := if (z =? "")%string then ("", s) else accept (one_of "xX") s in
  let hex := negb (x =? "")%string in
  let base := if hex then 16 else 10 in
  let '(int, s) := span (digit_or_under base) s in
  let '(dot, s) := accept (one_of ".") s in
  let '(frac, s) := if (dot =? "")%string then ("", s) else span (digit_or_under base) s in
  let '(e, s) := accept (one_of (if hex then "pP" else "eEpP")) s in
  let '(esign, s) := if (e =? "")%string then ("", s) else accept (one_of "+-") s in
  let '(exp, s) := if (e =? "")%string then ("", s) else span (digit_or_under 10) s in
  String.append sign (String.append z (String.append x (String.append int (String.append dot
    (String.append frac (String.append e (String.append esign exp))))))).

Definition starts_fold (word s : string) : bool :=
  (ToLower (String.substring 0 (String.length word) s) =? word)%string.

(** The variable keeps its initial 0 when the token is not a number. *)
Definition Sscan_float (s : string) : float64 :=
  let s := trim_left 0 s in
  let '(neg, body) := accept_sign s in
  if starts_fold "nan" s then fnan
  else if starts_fold "inf" body then finf neg
  else
    let tok := float_token s in
    match cut_byte "p" tok with
    | Some (m, e) =>
        if has_byte "x" tok || has_byte "X" tok then
          match ParseFloat tok with (x, None) => x | _ => fzero end
        else match ParseFloat m, Atoi e with
             | (x, None), (n, None) => SFldexp 53 1024 x n
             | _, _ => fzero
             end
    | None => match ParseFloat tok with (x, None) => x | _ => fzero end
    end.

Example parse_tenth : ParseFloat "0.1" = (S754_finite false 7205759403792794 (-56), None).
Proof. vm_compute. reflexivity. Qed.
Example format_tenth : FormatFloat (S754_finite false 7205759403792794 (-56)) = "0.1".
Proof. vm_compute. reflexivity. Qed.
Example format_power : FormatFloat (fst (ParseFloat "5.684341886080802e-14")) = "0.00000000000005684341886080802".
Proof. vm_compute. reflexivity. Qed.
Example format_big : FormatFloat (fst (ParseFloat "-1.5e21")) = "-1500000000000000000000".
Proof. vm_compute. reflexivity. Qed.
Example parse_min : ParseFloat "4.9406564584124654e-324" = (S754_finite false 1 (-1074), None).
Proof. vm_compute. reflexivity. Qed.
Example parse_over : ParseFloat "1e309" = (finf false, Some ErrRange).
Proof. vm_compute. reflexivity. Qed.
Example parse_hex : ParseFloat "0x1.8p1" = ParseFloat "3".
Proof. vm_compute. reflexivity. Qed.
Example scan_octal : (Sscan_int "010", fst (ParseInt "010")) = (8, 10).
Proof. vm_compute. reflexivity. Qed.


(** ** A formatted number is scanned back *)

Lemma digit_in_char d : 0 <= d < 10 -> digit_in 10 (digit_char d) = Some d.
Proof.
  intros H. assert (d = 0 \/ d = 1 \/ d = 2 \/ d = 3 \/ d = 4 \/ d = 5 \/ d = 6 \/ d = 7 \/ d = 8 \/ d = 9)
    as Hd by lia.
  repeat (destruct Hd as [->|Hd]; [reflexivity|]). by subst.
Qed.

Lemma format_loop_S fuel n acc :
  format_loop (S fuel) n acc =
  if n <? 10 then String (digit_char (n mod 10)) acc else format_loop fuel (n / 10) (String (digit_char (n mod 10)) acc).
Proof. done. Qed.

Lemma scan_format_loop fuel n acc saw :
  0 <= n < 10 ^ Z.of_nat (S fuel) ->
  scan_digits 10 (format_loop (S fuel) n acc) saw 0 = scan_digits 10 acc true n.
Proof.
  revert n acc saw. induction fuel as [|fuel IH]; intros n acc saw Hn; rewrite format_loop_S;
    pose proof (Z.mod_pos_bound n 10 ltac:(lia)) as Hm;
    (assert (n = 10 * (n / 10) + n mod 10) as Hdm by (apply Z.div_mod; lia)).
  - change (10 ^ Z.of_nat 1) with 10 in Hn. replace (n <? 10) with true by lia.
    cbn [scan_digits]. rewrite digit_in_char by done. f_equal. rewrite Z.mod_small; lia.
  - destruct (Z.ltb_spec n 10).
    + cbn [scan_digits]. rewrite digit_in_char by done. f_equal. rewrite Z.mod_small; lia.
    + rewrite IH.
      * cbn [scan_digits]. rewrite digit_in_char by done. f_equal. lia.
      * rewrite Nat2Z.inj_succ, Z.pow_succ_r in Hn by lia. split; [apply Z.div_pos; lia|].
        apply Z.div_lt_upper_bound; lia.
Qed.

Lemma format_first fuel n acc c s :
  0 < n < 10 ^ Z.of_nat (S fuel) -> format_loop (S fuel) n acc = String c s -> exists d, 0 < d < 10 /\ c = digit_char d.
Proof.
  revert n acc. induction fuel as [|fuel IH]; intros n acc Hn; rewrite format_loop_S.
  - change (10 ^ Z.of_nat 1) with 10 in Hn. replace (n <? 10) with true by lia. intros [= <- _].
    exists n. rewrite Z.mod_small by lia. split; [lia|done].
  - destruct (Z.ltb_spec n 10).
    + intros [= <- _]. exists n. rewrite Z.mod_small by lia. split; [lia|done].
    + apply IH. rewrite Nat2Z.inj_succ, Z.pow_succ_r in Hn by lia.
      split; [apply Z.div_str_pos; lia|apply Z.div_lt_upper_bound; lia].
Qed.

(** The characters a number starts with are neither white space nor signs. *)
Lemma digit_char_plain d : 0 < d < 10 ->
  forall s, trim_left 0 (String (digit_char d) s) = String (digit_char d) s /\
    Ascii.eqb (digit_char d) "-" = false /\ Ascii.eqb (digit_char d) "+" = false /\
    Ascii.eqb (digit_char d) "0" = false.
Proof.
  intros H s.
  assert (d = 1 \/ d = 2 \/ d = 3 \/ d = 4 \/ d = 5 \/ d = 6 \/ d = 7 \/ d = 8 \/ d = 9) as Hd by lia.
  repeat (destruct Hd as [->|Hd]; [split; [by destruct s as [|b [|e s]]|]; repeat split; reflexivity|]).
  subst. split; [by destruct s as [|b [|e s]]|]. repeat split; reflexivity.
Qed.

Lemma format_fuel n : 0 < n -> n < 10 ^ Z.of_nat (S (Z.to_nat (Z.log2 n))).
Proof.
  intros Hn. pose proof (proj2 (Z.log2_spec n Hn)) as H. pose proof (Z.log2_nonneg n).
  rewrite Nat2Z.inj_succ, Z2Nat.id by lia.
  apply Z.lt_le_trans with (2 ^ Z.succ (Z.log2 n)); [done|]. apply Z.pow_le_mono_l. lia.
Qed.

Lemma scan_format_uint n : 0 < n ->
  exists c s, format_uint n = String c s /\ trim_left 0 (String c s) = String c s /\
    Ascii.eqb c "-" = false /\ Ascii.eqb c "+" = false /\ scan_unsigned (String c s) = Some n.
Proof.
  intros Hn. unfold format_uint. pose proof (format_fuel n Hn) as Hf.
  destruct (format_loop (S (Z.to_nat (Z.log2 n))) n "") as [|c s] eqn:E.
  { by apply format_loop_nonempty in E. }
  exists c, s. split; [done|].
  pose proof E as E'. apply format_first in E' as (d & Hd & ->); [|lia].
  destruct (digit_char_plain d Hd s) as (H1 & H2 & H3 & H4). repeat split; [done..|].
  unfold scan_unsigned. rewrite H4, <-E. by rewrite scan_format_loop by lia.
Qed.

Lemma Sscan_FormatInt n : in_int64 n -> Sscan_int (FormatInt n) = n.
Proof.
  unfold in_int64, int64_min, int64_max. intros Hn. unfold FormatInt, Sscan_int.
  destruct (Z.ltb_spec n 0) as [Hneg|Hpos].
  - destruct (scan_format_uint (- n)) as (c & s & -> & _ & _ & _ & Hs); [lia|].
    assert (forall t, trim_left 0 (String "-" t) = String "-" t) as -> by (intros [|b [|e t]]; done).
    cbn [accept_sign]. change (Ascii.eqb "-" "-") with true. cbv iota. rewrite Hs.
    replace (- n <=? 2 ^ 63) with true by lia. lia.
  - destruct (decide (n = 0)) as [->|Hz]; [reflexivity|].
    destruct (scan_format_uint n) as (c & s & -> & -> & H1 & H2 & Hs); [lia|].
    unfold accept_sign. rewrite H1, H2, Hs. unfold int64_max. by replace (n <=? 2 ^ 63 - 1) with true by lia.
Qed.
End Text.
