(* ===== verification/SortedSet.v ===== *)
(** * Sorted sets (internal/store/sortedset.go)

    [SortedSet] pairs a score map with a slice kept in (score, member) order.
    The invariant [wf] ties the two together; it holds as long as no score is
    NaN, and then every query is the obvious comprehension over the map. *)
From S2P Require Import Prelude Ranges GoLib.

Module SortedSet.

Record ZMember := mkZ { Member : string; Score : float64 }.

#[export] Instance ZMember_eq_dec : EqDecision ZMember.
Proof. solve_decision. Defined.
#[export] Instance ZMember_inhabited : Inhabited ZMember := populate (mkZ "" fzero).

Record SortedSet := mkSS {
  scores : gmap string float64;
  ordered : list ZMember
}.

Definition NewSortedSet : SortedSet := mkSS ∅ [].

Definition Len (z : SortedSet) : Z := Z.of_nat (size (scores z)).

Definition findPos (z : SortedSet) (score : float64) (member : string) : Z :=
  Search (zlen (ordered z)) (fun i =>
    let e := zget (ordered z) i in
    if negb (feqb (Score e) score) then fltb score (Score e)
    else str_leb member (Member e)).

Definition insertOrdered (member : string) (score : float64) (z : SortedSet) : SortedSet :=
  let pos := findPos z score member in
  mkSS (scores z) (slice_insert (mkZ "" fzero) pos (mkZ member score) (ordered z)).

Definition removeOrdered (member : string) (score : float64) (z : SortedSet) : SortedSet :=
  let pos := findPos z score member in
  if (pos <? zlen (ordered z)) && String.eqb (Member (zget (ordered z) pos)) member
  then mkSS (scores z) (ztake pos (ordered z) ++ zdrop (pos + 1) (ordered z))
  else z.

Definition set_score (member : string) (score : float64) (z : SortedSet) : SortedSet :=
  mkSS (<[member := score]> (scores z)) (ordered z).

Definition Add (member : string) (score : float64) (z : SortedSet) : bool * SortedSet :=
  match scores z !! member with
  | Some oldScore =>
      if feqb oldScore score then (false, z)
      else
        let z := removeOrdered member oldScore z in
        let z := set_score member score z in
        (false, insertOrdered member score z)
  | None =>
      let z := set_score member score z in
      (true, insertOrdered member score z)
  end.

Definition Remove (member : string) (z : SortedSet) : bool * SortedSet :=
  match scores z !! member with
  | None => (false, z)
  | Some score =>
      let z := mkSS (delete member (scores z)) (ordered z) in
      (true, removeOrdered member score z)
  end.

Definition Score_ (z : SortedSet) (member : string) : option float64 := scores z !! member.

Definition Range (start stop : Z) (z : SortedSet) : list ZMember :=
  match Ranges.normalizeRange start stop (zlen (ordered z)) with
  | (start, stop, true) => zslice start (stop + 1) (ordered z)
  | (_, _, false) => []
  end.

Definition Members (z : SortedSet) : list ZMember := ordered z.

Definition score_start (z : SortedSet) (min : float64) : Z :=
  Search (zlen (ordered z)) (fun i => fleb min (Score (zget (ordered z) i))).

Definition RangeByScore (min max : float64) (offset count : Z) (z : SortedSet) : list ZMember :=
  let start := score_start z min in
  scan_loop (fun _ => false) (fun m => fltb max (Score m)) offset count 0 []
    (zdrop start (ordered z)).

Definition RevRange (start stop : Z) (z : SortedSet) : list ZMember :=
  let n := zlen (ordered z) in
  match Ranges.normalizeRange start stop n with
  | (start, stop, true) =>
      tabulate (stop - start + 1) (fun i => zget (ordered z) (n - 1 - start - i))
  | (_, _, false) => []
  end.

Definition Rank (z : SortedSet) (member : string) : option Z :=
  match scores z !! member with
  | None => None
  | Some score =>
      let pos := findPos z score member in
      if (pos <? zlen (ordered z)) && String.eqb (Member (zget (ordered z) pos)) member
      then Some pos else None
  end.

Definition delete_members (ms : list ZMember) (m : gmap string float64) : gmap string float64 :=
  fold_left (fun m e => delete (Member e) m) ms m.

Definition clamp_count (count n : Z) : Z :=
  let count := if count <=? 0 then 1 else count in
  if count >? n then n else count.

Definition PopMin (count : Z) (z : SortedSet) : list ZMember * SortedSet :=
  let count := clamp_count count (zlen (ordered z)) in
  if count =? 0 then ([], z)
  else
    let result := ztake count (ordered z) in
    (result, mkSS (delete_members result (scores z)) (zdrop count (ordered z))).

Definition PopMax (count : Z) (z : SortedSet) : list ZMember * SortedSet :=
  let n := zlen (ordered z) in
  let count := clamp_count count n in
  if count =? 0 then ([], z)
  else
    let start := n - count in
    let result := reverse (zdrop start (ordered z)) in
    (result, mkSS (delete_members result (scores z)) (ztake start (ordered z))).

Definition has_prefix_char (c : ascii) (s : string) : bool :=
  match s with String c' _ => Ascii.eqb c' c | EmptyString => false end.

Definition tail_str (s : string) : string :=
  match s with String _ s => s | EmptyString => "" end.

Definition lexGTE (member bound : string) : bool :=
  if String.eqb bound "-" then true
  else if String.eqb bound "+" then false
  else if has_prefix_char "[" bound then str_leb (tail_str bound) member
  else if has_prefix_char "(" bound then str_ltb (tail_str bound) member
  else str_leb bound member.

Definition lexLTE (member bound : string) : bool :=
  if String.eqb bound "+" then true
  else if String.eqb bound "-" then false
  else if has_prefix_char "[" bound then str_leb member (tail_str bound)
  else if has_prefix_char "(" bound then str_ltb member (tail_str bound)
  else str_leb member bound.

Definition RangeByLex (min max : string) (offset count : Z) (z : SortedSet) : list ZMember :=
  scan_loop (fun m => negb (lexGTE (Member m) min)) (fun m => negb (lexLTE (Member m) max))
    offset count 0 [] (ordered z).

Fixpoint count_loop (max : float64) (n : Z) (l : list ZMember) : Z :=
  match l with
  | [] => n
  | m :: l => if fltb max (Score m) then n else count_loop max (n + 1) l
  end.

Definition CountByScore (min max : float64) (z : SortedSet) : Z :=
  count_loop max 0 (zdrop (score_start z min) (ordered z)).

(** ** The order and the invariant *)

Definition zlt (a b : ZMember) : Prop :=
  key_lt (fkey (Score a)) (fkey (Score b)) \/
  (fkey (Score a) = fkey (Score b) /\ str_lt (Member a) (Member b)).

#[export] Instance zlt_trans : Transitive zlt.
Proof.
  intros a b c [H1|[H1 H1']] [H2|[H2 H2']]; unfold zlt.
  - left. by eapply key_lt_trans.
  - left. by rewrite <-H2.
  - left. by rewrite H1.
  - right. split; [by rewrite H1|]. by transitivity (Member b).
Qed.

#[export] Instance zlt_irrefl : Irreflexive zlt.
Proof. intros a [H|[_ H]]; [by apply key_lt_irrefl in H|]. by apply (str_lt_irrefl (Member a)). Qed.

Lemma zlt_total a b :
  zlt a b \/ (fkey (Score a) = fkey (Score b) /\ Member a = Member b) \/ zlt b a.
Proof.
  unfold zlt. destruct (key_trichotomy (fkey (Score a)) (fkey (Score b))) as [?|[E|?]]; [auto| |auto].
  destruct (str_lt_total (Member a) (Member b)) as [?|[?|?]]; auto 10.
Qed.

Record wf (z : SortedSet) : Prop := {
  wf_sorted : StronglySorted zlt (ordered z);
  wf_iff : forall m s, mkZ m s ∈ ordered z <-> scores z !! m = Some s;
  wf_num : forall e, e ∈ ordered z -> is_nan (Score e) = false
}.

Lemma wf_new : wf NewSortedSet.
Proof.
  split; simpl; [constructor| |].
  - intros m s. rewrite lookup_empty. split; [|done]. by intros ?%elem_of_nil.
  - by intros e ?%elem_of_nil.
Qed.

(** ** Locating a member *)

(** The predicate [findPos] searches with. *)
Definition at_or_after (score : float64) (member : string) (e : ZMember) : bool :=
  if negb (feqb (Score e) score) then fltb score (Score e) else str_leb member (Member e).

Lemma at_or_after_spec e x :
  is_nan (Score e) = false -> is_nan (Score x) = false ->
  at_or_after (Score x) (Member x) e = true <-> ~ zlt e x.
Proof.
  intros He Hx. unfold at_or_after, zlt.
  pose proof (feqb_key (Score e) (Score x) He Hx) as Heq.
  pose proof (fltb_key (Score x) (Score e) Hx He) as Hlt.
  destruct (feqb (Score e) (Score x)); simpl.
  - assert (fkey (Score e) = fkey (Score x)) as E by (by apply Heq).
    rewrite E, str_le_not_lt, negb_true_iff. fold (str_lt (Member e) (Member x)).
    unfold str_lt. split.
    + intros H [Hc|[_ Hc]]; [by apply key_lt_irrefl in Hc|congruence].
    + intros H. destruct (str_ltb (Member e) (Member x)); [|done]. tauto.
  - rewrite Hlt. destruct (key_trichotomy (fkey (Score e)) (fkey (Score x))) as [H|[H|H]].
    + split; [|tauto]. intros H'. exfalso. by eapply key_lt_irrefl, key_lt_trans.
    + apply Heq in H. done.
    + split; [|done]. intros _ [Hc|[Hc _]].
      * by eapply key_lt_irrefl, key_lt_trans.
      * rewrite Hc in H. by apply key_lt_irrefl in H.
Qed.

Lemma findPos_split z x :
  StronglySorted zlt (ordered z) -> (forall e, e ∈ ordered z -> is_nan (Score e) = false) ->
  is_nan (Score x) = false ->
  let pos := findPos z (Score x) (Member x) in
  0 <= pos <= zlen (ordered z) /\
  (forall e, e ∈ take (Z.to_nat pos) (ordered z) -> zlt e x) /\
  (forall e, e ∈ drop (Z.to_nat pos) (ordered z) -> ~ zlt e x).
Proof.
  intros Hs Hn Hx. cbn zeta.
  set (R := fun a b => zlt a b /\ is_nan (Score a) = false /\ is_nan (Score b) = false).
  assert (StronglySorted R (ordered z)) as HsR.
  { revert Hs Hn. clear -z. induction (ordered z) as [|a l IH]; intros Hs Hn; [constructor|].
    apply StronglySorted_cons in Hs as [HF Hs]. apply StronglySorted_cons. split.
    - rewrite Forall_forall in *. intros b Hb. split; [by apply HF|].
      split; apply Hn; set_solver.
    - apply IH; [done|]. intros e He. apply Hn. set_solver. }
  destruct (Search_split R (at_or_after (Score x) (Member x))) with (l := ordered z)
    as (Hpos & Hlo & Hhi); [|done|].
  { intros a b (Hab & Ha & Hb). rewrite !at_or_after_spec by done.
    intros Hax Hbx. apply Hax. by transitivity b. }
  unfold findPos. fold (at_or_after (Score x) (Member x)). split; [done|].
  split; intros e He.
  - specialize (Hlo e He). apply elem_of_take_1 in He. apply not_true_iff_false in Hlo.
    rewrite at_or_after_spec in Hlo by auto.
    destruct (zlt_total e x) as [?|[[Hk Hm]|Hxe]]; [done|exfalso..]; apply Hlo; intros Hc.
    + destruct Hc as [Hc|[_ Hc]]; [rewrite Hk in Hc; by apply key_lt_irrefl in Hc|].
      rewrite Hm in Hc. by apply (str_lt_irrefl (Member x)).
    + apply (zlt_irrefl e). by transitivity x.
  - specialize (Hhi e He). apply elem_of_drop_1 in He. by rewrite at_or_after_spec in Hhi by auto.
Qed.

(** A stored element sits exactly where [findPos] looks. *)
Lemma findPos_hit z l1 x l2 :
  wf z -> ordered z = l1 ++ x :: l2 -> findPos z (Score x) (Member x) = zlen l1.
Proof.
  intros [Hs _ Hn] E.
  assert (x ∈ ordered z) as Hin by (rewrite E; set_solver).
  destruct (findPos_split z x Hs Hn (Hn x Hin)) as (Hpos & Hlo & Hhi).
  set (pos := findPos z (Score x) (Member x)) in *.
  destruct (Z.lt_trichotomy pos (zlen l1)) as [Hlt|[?|Hgt]]; [exfalso|done|exfalso].
  - rewrite E in Hhi, Hs. rewrite drop_app_le in Hhi by (unfold zlen in *; lia).
    destruct (drop (Z.to_nat pos) l1) as [|y l1'] eqn:Ed.
    { apply (f_equal length) in Ed. rewrite length_drop in Ed. unfold zlen in *. simpl in *. lia. }
    apply (Hhi y); [set_solver|].
    apply (StronglySorted_app_1_elem_of zlt l1 (x :: l2)); [done| |set_solver].
    eapply elem_of_drop_1. rewrite Ed. set_solver.
  - apply (zlt_irrefl x). apply Hlo. rewrite E.
    rewrite take_app_ge by (unfold zlen in *; lia). apply elem_of_app. right.
    destruct (Z.to_nat pos - length l1)%nat eqn:Ep; [unfold zlen in *; lia|]. simpl. set_solver.
Qed.

Lemma wf_split z m s :
  wf z -> scores z !! m = Some s -> exists l1 l2, ordered z = l1 ++ mkZ m s :: l2.
Proof. intros Hwf Hm. by apply list_elem_of_split, (wf_iff z Hwf). Qed.

(** Removing a stored element takes exactly that element out. *)
Lemma removeOrdered_hit z l1 m s l2 :
  wf z -> ordered z = l1 ++ mkZ m s :: l2 ->
  forall sc, removeOrdered m s (mkSS sc (ordered z)) = mkSS sc (l1 ++ l2).
Proof.
  intros Hwf E sc. unfold removeOrdered. cbn [scores ordered].
  replace (findPos (mkSS sc (ordered z)) s m) with (zlen l1).
  2:{ symmetry. apply (findPos_hit z l1 (mkZ m s) l2 Hwf E). }
  rewrite E, zlen_app, zlen_cons. pose proof (zlen_nonneg l2).
  rewrite (proj2 (Z.ltb_lt _ _)) by lia.
  rewrite zget_middle.
  cbn [Member]. rewrite String.eqb_refl. simpl. f_equal. unfold ztake, zdrop, zlen.
  rewrite Nat2Z.id, take_app_length.
  replace (Z.to_nat (Z.of_nat (length l1) + 1)) with (length l1 + 1)%nat by lia.
  by rewrite drop_app_add.
Qed.

Lemma sorted_remove l1 (x : ZMember) l2 :
  StronglySorted zlt (l1 ++ x :: l2) -> StronglySorted zlt (l1 ++ l2).
Proof.
  rewrite !StronglySorted_app. intros (H & H1 & H2).
  apply StronglySorted_cons in H2 as [_ H2]. split; [|done]. set_solver.
Qed.

(** In a well-formed set the members around [x] differ from [x]'s. *)
Lemma wf_member_unique z l1 m s l2 :
  wf z -> ordered z = l1 ++ mkZ m s :: l2 ->
  forall e, e ∈ l1 ++ l2 -> Member e <> m.
Proof.
  intros Hwf E [m' s'] He Hm'. cbn in Hm'. subst m'.
  assert (scores z !! m = Some s /\ scores z !! m = Some s') as [H1 H2].
  { rewrite <-!(wf_iff z Hwf), E. set_solver. }
  simplify_eq. pose proof (wf_sorted z Hwf) as Hs. rewrite E in Hs.
  rewrite StronglySorted_app, StronglySorted_cons in Hs. destruct Hs as (Hx & _ & HF & _).
  rewrite Forall_forall in HF. apply elem_of_app in He as [He|He].
  - apply (zlt_irrefl (mkZ m s)). apply Hx; set_solver.
  - apply (zlt_irrefl (mkZ m s)). by apply HF.
Qed.

(** Inserting a fresh member into a well-formed set. *)
Lemma insertOrdered_fresh z m s :
  wf z -> scores z !! m = None -> is_nan s = false ->
  wf (insertOrdered m s (set_score m s z)) /\
  exists l1 l2, ordered z = l1 ++ l2 /\
    insertOrdered m s (set_score m s z) = mkSS (<[m := s]> (scores z)) (l1 ++ mkZ m s :: l2).
Proof.
  intros Hwf Hm Hnum. pose proof Hwf as [Hs Hiff Hn].
  destruct (findPos_split z (mkZ m s) Hs Hn Hnum) as (Hpos & Hlo & Hhi). cbn in Hpos, Hlo, Hhi.
  unfold insertOrdered, set_score. cbn [scores ordered].
  change (findPos (mkSS (<[m:=s]> (scores z)) (ordered z)) s m) with (findPos z s m).
  rewrite slice_insert_eq by done.
  set (l1 := take (Z.to_nat (findPos z s m)) (ordered z)) in *.
  set (l2 := drop (Z.to_nat (findPos z s m)) (ordered z)) in *.
  assert (ordered z = l1 ++ l2) as E by (symmetry; apply take_drop).
  split; [|by exists l1, l2].
  assert (forall e, e ∈ ordered z -> Member e <> m) as Hfresh.
  { intros [m' s'] He Hm'. cbn in Hm'. subst m'. apply Hiff in He. congruence. }
  split; cbn [scores ordered].
  - rewrite E in Hs. apply StronglySorted_app in Hs as (Hx & Hs1 & Hs2).
    apply StronglySorted_app_2; [|done|].
    + intros e1 e2 He1 [->|He2]%elem_of_cons; [by apply Hlo|by apply Hx].
    + apply StronglySorted_cons. split; [|done]. rewrite Forall_forall. intros e He.
      destruct (zlt_total (mkZ m s) e) as [?|[[_ Hmem]|Hc]]; [done|exfalso..].
      * apply (Hfresh e); [rewrite E; set_solver|done].
      * by apply (Hhi e).
  - intros m' s'. rewrite lookup_insert. case_decide; subst.
    + split.
      * intros [He|[Heq|He]%elem_of_cons]%elem_of_app; [|by simplify_eq|].
        -- exfalso. apply (Hfresh (mkZ m' s')); [rewrite E; set_solver|done].
        -- exfalso. apply (Hfresh (mkZ m' s')); [rewrite E; set_solver|done].
      * intros [= ->]. set_solver.
    + rewrite <-Hiff, E, !elem_of_app, elem_of_cons. naive_solver.
  - intros e He. apply elem_of_app in He as [He|[->|He]%elem_of_cons]; [|done|];
      apply Hn; rewrite E; set_solver.
Qed.

Lemma removeOrdered_wf z m s :
  wf z -> scores z !! m = Some s ->
  wf (removeOrdered m s (mkSS (delete m (scores z)) (ordered z))).
Proof.
  intros Hwf Hm. destruct (wf_split z m s Hwf Hm) as (l1 & l2 & E).
  rewrite (removeOrdered_hit z l1 m s l2 Hwf E).
  pose proof (wf_member_unique z l1 m s l2 Hwf E) as Hu. destruct Hwf as [Hs Hiff Hn].
  split; cbn [scores ordered].
  - rewrite E in Hs. by eapply sorted_remove.
  - intros m' s'. rewrite lookup_delete. case_decide; subst.
    + split; [|done]. intros He. by destruct (Hu _ He).
    + rewrite <-Hiff, E, !elem_of_app, elem_of_cons. naive_solver.
  - intros e He. apply Hn. rewrite E. set_solver.
Qed.

(** ** Updates preserve the invariant and act on the score map *)

Lemma Remove_spec m z :
  wf z ->
  wf (Remove m z).2 /\ (Remove m z).1 = bool_decide (is_Some (scores z !! m)) /\
  scores (Remove m z).2 = delete m (scores z).
Proof.
  intros Hwf. unfold Remove. destruct (scores z !! m) as [s|] eqn:Hm; cbn [fst snd].
  - split; [by apply removeOrdered_wf|]. split; [by rewrite bool_decide_true by eauto|].
    destruct (wf_split z m s Hwf Hm) as (l1 & l2 & E).
    by rewrite (removeOrdered_hit z l1 m s l2 Hwf E).
  - split; [done|]. split; [by rewrite bool_decide_false by (intros [? ?]; done)|].
    by rewrite delete_id.
Qed.

(** The score map after [Add]: an update by an equal score is dropped, so a
    stored -0 is not replaced by +0. *)
Definition add_scores (m : string) (s : float64) (sc : gmap string float64) : gmap string float64 :=
  match sc !! m with
  | Some old => if feqb old s then sc else <[m := s]> sc
  | None => <[m := s]> sc
  end.

Lemma Add_spec m s z :
  wf z -> is_nan s = false ->
  wf (Add m s z).2 /\ (Add m s z).1 = bool_decide (scores z !! m = None) /\
  scores (Add m s z).2 = add_scores m s (scores z).
Proof.
  intros Hwf Hnum. unfold Add, add_scores. destruct (scores z !! m) as [old|] eqn:Hm.
  - destruct (feqb old s) eqn:Heq; cbn [fst snd].
    { split; [done|]. by rewrite bool_decide_false. }
    destruct (wf_split z m old Hwf Hm) as (l1 & l2 & E).
    pose proof (removeOrdered_wf z m old Hwf Hm) as Hwf'.
    rewrite (removeOrdered_hit z l1 m old l2 Hwf E) in Hwf'.
    pose proof (removeOrdered_hit z l1 m old l2 Hwf E (scores z)) as Hrem.
    destruct z as [sc ord]. cbn [scores ordered] in *. rewrite Hrem.
    destruct (insertOrdered_fresh (mkSS (delete m sc) (l1 ++ l2)) m s) as (Hw & k1 & k2 & _ & Hk);
      [done|apply lookup_delete_eq|done|].
    unfold set_score in *. cbn [scores ordered] in *. rewrite insert_delete_eq in *.
    rewrite Hk in *. split; [done|]. by rewrite bool_decide_false.
  - cbn [fst snd]. destruct (insertOrdered_fresh z m s Hwf Hm Hnum) as (Hw & k1 & k2 & _ & Hk).
    rewrite Hk in *. split; [done|]. by rewrite bool_decide_true.
Qed.

(** ** Queries *)

Lemma zset_Range_spec start stop z :
  Range start stop z = Ranges.redis_slice start stop (ordered z).
Proof.
  unfold Range.
  destruct (Ranges.normalizeRange start stop (zlen (ordered z))) as [[lo hi] [|]] eqn:E.
  - by rewrite (Ranges.redis_slice_ok _ _ _ _ _ E).
  - rewrite Ranges.redis_slice_fail; [done|]. by rewrite E.
Qed.

Lemma RevRange_spec start stop z :
  RevRange start stop z = Ranges.redis_slice start stop (reverse (ordered z)).
Proof.
  unfold RevRange. assert (zlen (reverse (ordered z)) = zlen (ordered z)) as Hl
    by (unfold zlen; by rewrite length_reverse).
  destruct (Ranges.normalizeRange start stop (zlen (ordered z))) as [[lo hi] [|]] eqn:E.
  - rewrite <-Hl in E. rewrite (Ranges.redis_slice_ok _ _ _ _ _ E).
    destruct (Ranges.normalizeRange_ok _ _ _ _ _ (zlen_nonneg _) E) as (? & ? & _).
    rewrite Hl in *. apply list_eq. intros j. rewrite lookup_tabulate. unfold zslice.
    destruct (decide (Z.of_nat j < hi - lo + 1)).
    + rewrite lookup_take_lt, lookup_drop by lia.
      rewrite reverse_lookup by zlen_lia.
      rewrite <-zget_lookup by zlen_lia. f_equal. zlen_lia.
    + by rewrite lookup_take_ge by lia.
  - rewrite Ranges.redis_slice_fail; [done|]. by rewrite Hl, E.
Qed.

(** Going up the order, scores never decrease. *)
Lemma zlt_score_le a b x :
  is_nan (Score a) = false -> is_nan (Score b) = false -> is_nan x = false -> zlt a b ->
  (fleb x (Score a) = true -> fleb x (Score b) = true) /\
  (fltb x (Score a) = true -> fltb x (Score b) = true).
Proof.
  intros Ha Hb Hx Hab. rewrite !fleb_split, !orb_true_iff.
  rewrite !fltb_key, !feqb_key by done.
  assert (key_lt (fkey (Score a)) (fkey (Score b)) \/ fkey (Score a) = fkey (Score b)) as H
    by (destruct Hab as [?|[? _]]; auto).
  destruct H as [H|H]; [|by rewrite H].
  split.
  - intros [H1|H1]; left; [by eapply key_lt_trans|by rewrite H1].
  - intros H1. by eapply key_lt_trans.
Qed.

(** The sort order restricted to numbers, under which every search predicate
    below is upward closed. *)
Definition zltn (a b : ZMember) : Prop :=
  zlt a b /\ is_nan (Score a) = false /\ is_nan (Score b) = false.

Lemma wf_zltn z : wf z -> StronglySorted zltn (ordered z).
Proof.
  intros [Hs _ Hn]. induction Hs as [|a l Hs IH HF]; [constructor|].
  constructor; [apply IH; intros e He; apply Hn; by right|].
  rewrite Forall_forall in *. intros b Hb.
  split; [by apply HF|]. split; apply Hn; [left|by right].
Qed.

Lemma score_start_filter z min :
  wf z -> is_nan min = false ->
  zdrop (score_start z min) (ordered z) =
    filter (fun e => fleb min (Score e) = true) (ordered z).
Proof.
  intros Hwf Hmin. unfold score_start.
  apply (Search_filter zltn (fun e => fleb min (Score e))); [|by apply wf_zltn].
  intros a b (Hab & Ha & Hb). by apply zlt_score_le.
Qed.

Lemma fleb_not_lt x y : is_nan x = false -> is_nan y = false -> fltb y x = false <-> fleb x y = true.
Proof.
  intros Hx Hy. rewrite fleb_split, orb_true_iff, fltb_key, feqb_key by done.
  rewrite <-not_true_iff_false, fltb_key by done.
  destruct (key_trichotomy (fkey x) (fkey y)) as [H|[H|H]].
  - split; [by left|]. intros _ Hc. by eapply key_lt_irrefl, key_lt_trans.
  - split; [by right|]. rewrite H. intros _ Hc. by apply key_lt_irrefl in Hc.
  - split; [done|]. intros [Hc|Hc] _; [by eapply key_lt_irrefl, key_lt_trans|].
    rewrite Hc in H. by apply key_lt_irrefl in H.
Qed.

(** ZRANGEBYSCORE: the members whose score lies in [min, max], in order,
    cut by LIMIT. *)
Definition between (min max : float64) (e : ZMember) : Prop :=
  fleb min (Score e) = true /\ fleb (Score e) max = true.

#[export] Instance between_dec min max e : Decision (between min max e).
Proof. unfold between. apply _. Defined.

Lemma score_scan z min max :
  wf z -> is_nan min = false -> is_nan max = false ->
  scan_kept (fun _ => false) (fun m => fltb max (Score m))
    (zdrop (score_start z min) (ordered z)) = filter (between min max) (ordered z).
Proof.
  intros Hwf Hmin Hmax. rewrite score_start_filter by done.
  rewrite (scan_kept_filter _ _ zltn).
  - rewrite list_filter_filter. apply filter_iff_in. intros e He.
    unfold between. rewrite fleb_not_lt by (done || by apply (wf_num z Hwf)). tauto.
  - apply StronglySorted_filter. by apply wf_zltn.
  - intros a b (Hab & Ha & Hb). by apply zlt_score_le.
Qed.

Lemma RangeByScore_spec min max offset count z :
  wf z -> is_nan min = false -> is_nan max = false ->
  RangeByScore min max offset count z =
    limit offset count (filter (between min max) (ordered z)).
Proof. intros. unfold RangeByScore. by rewrite scan_limit, score_scan. Qed.

Lemma count_loop_kept max n l :
  count_loop max n l = n + zlen (scan_kept (fun _ => false) (fun m => fltb max (Score m)) l).
Proof.
  revert n. induction l as [|m l IH]; intros n; cbn; [zlen_lia|].
  destruct (fltb max (Score m)); [zlen_lia|]. rewrite IH, zlen_cons. lia.
Qed.

Lemma CountByScore_spec min max z :
  wf z -> is_nan min = false -> is_nan max = false ->
  CountByScore min max z = zlen (filter (between min max) (ordered z)).
Proof. intros. unfold CountByScore. by rewrite count_loop_kept, score_scan. Qed.

(** ZRANK: the index of the member in the ordered slice. *)
Lemma Rank_spec z m i :
  wf z -> Rank z m = Some i <-> 0 <= i /\ exists s, ordered z !! Z.to_nat i = Some (mkZ m s).
Proof.
  intros Hwf. unfold Rank. destruct (scores z !! m) as [s|] eqn:Hm.
  - destruct (wf_split z m s Hwf Hm) as (l1 & l2 & E).
    rewrite (findPos_hit z l1 (mkZ m s) l2 Hwf E : findPos z s m = _).
    rewrite E, zget_middle. cbn [Member]. rewrite String.eqb_refl, andb_true_r.
    rewrite (proj2 (Z.ltb_lt _ _)) by zlen_lia. split.
    + intros [= <-]. split; [apply zlen_nonneg|]. exists s. unfold zlen.
      rewrite Nat2Z.id. apply list_lookup_middle. done.
    + intros (Hi & s' & Hlk). f_equal.
      assert (i <> zlen l1 -> False) as Hne; [|destruct (decide (i = zlen l1)); [done|by exfalso; auto]].
      intros Hne. destruct (decide (i < zlen l1)).
      * rewrite lookup_app_l in Hlk by zlen_lia. apply list_elem_of_lookup_2 in Hlk.
        apply (wf_member_unique z l1 m s l2 Hwf E (mkZ m s')); [|done]. apply elem_of_app. by left.
      * rewrite lookup_app_r in Hlk by zlen_lia.
        destruct (Z.to_nat i - length l1)%nat as [|k] eqn:Ek; [zlen_lia|]. simpl in Hlk.
        apply list_elem_of_lookup_2 in Hlk.
        apply (wf_member_unique z l1 m s l2 Hwf E (mkZ m s')); [|done]. apply elem_of_app. by right.
  - split; [done|]. intros (_ & s & Hlk). apply list_elem_of_lookup_2 in Hlk.
    apply (wf_iff z Hwf) in Hlk. congruence.
Qed.

(** ** Popping from either end *)

Lemma delete_members_lookup ms m k :
  delete_members ms m !! k = if decide (k ∈ Member <$> ms) then None else m !! k.
Proof.
  revert m. induction ms as [|e ms IH]; intros m; cbn; [done|].
  fold (delete_members ms (delete (Member e) m)). rewrite IH.
  destruct (decide (k ∈ Member <$> ms)).
  - rewrite decide_True; [done|]. by right.
  - rewrite lookup_delete. case_decide; subst.
    + rewrite decide_True; [done|]. left.
    + rewrite decide_False; [done|]. by intros [?|?]%elem_of_cons.
Qed.

Lemma wf_NoDup z : wf z -> NoDup (ordered z).
Proof.
  intros [Hs _ _]. induction Hs as [|a l Hs IH HF]; constructor; [|done].
  rewrite Forall_forall in HF. intros Ha. by apply (zlt_irrefl a), HF.
Qed.

Lemma wf_keep z ms kept :
  wf z -> ordered z ≡ₚ ms ++ kept -> StronglySorted zlt kept ->
  wf (mkSS (delete_members ms (scores z)) kept).
Proof.
  intros Hwf Hp Hsk. pose proof (wf_NoDup z Hwf) as Hnd. rewrite Hp in Hnd.
  apply NoDup_app in Hnd as (_ & Hdisj & _). destruct Hwf as [Hs Hiff Hn].
  split; cbn [scores ordered]; [done| |].
  - intros m s. rewrite delete_members_lookup. case_decide as Hd.
    + split; [|done]. intros Hk. exfalso.
      apply list_elem_of_fmap in Hd as ([m' s'] & -> & Hms). cbn in Hk.
      assert (scores z !! m' = Some s /\ scores z !! m' = Some s') as [H1 H2]
        by (rewrite <-!Hiff, Hp, !elem_of_app; tauto).
      simplify_eq. by apply (Hdisj _ Hms).
    + rewrite <-Hiff, Hp, elem_of_app. split; [tauto|]. intros [Hms|?]; [|done].
      exfalso. apply Hd. apply list_elem_of_fmap. by exists (mkZ m s).
  - intros e He. apply Hn. rewrite Hp, elem_of_app. by right.
Qed.

Lemma clamp_count_range count n : 0 <= n -> 0 <= clamp_count count n <= n.
Proof. intros. unfold clamp_count. rewrite Z.gtb_ltb. zify_bools; lia. Qed.

Lemma PopMin_spec count z :
  wf z ->
  wf (PopMin count z).2 /\ ordered z = (PopMin count z).1 ++ ordered (PopMin count z).2 /\
  zlen (PopMin count z).1 = clamp_count count (zlen (ordered z)).
Proof.
  intros Hwf. pose proof (clamp_count_range count (zlen (ordered z)) (zlen_nonneg _)) as Hc.
  unfold PopMin. generalize dependent (clamp_count count (zlen (ordered z))). intros c Hc.
  destruct (Z.eqb_spec c 0) as [E|E]; cbn [fst snd ordered].
  { split; [done|]. by rewrite E. }
  unfold ztake, zdrop. split; [|split; [by rewrite take_drop|zlen_lia]].
  apply wf_keep; [done|by rewrite take_drop|].
  pose proof (wf_sorted z Hwf) as Hs. rewrite <-(take_drop (Z.to_nat c) (ordered z)) in Hs.
  by apply StronglySorted_app_1_r in Hs.
Qed.

Lemma PopMax_spec count z :
  wf z ->
  wf (PopMax count z).2 /\
  reverse (ordered z) = (PopMax count z).1 ++ reverse (ordered (PopMax count z).2) /\
  zlen (PopMax count z).1 = clamp_count count (zlen (ordered z)).
Proof.
  intros Hwf. pose proof (clamp_count_range count (zlen (ordered z)) (zlen_nonneg _)) as Hc.
  unfold PopMax. generalize dependent (clamp_count count (zlen (ordered z))). intros c Hc.
  destruct (Z.eqb_spec c 0) as [E|E]; cbn [fst snd ordered].
  { split; [done|]. by rewrite E. }
  unfold ztake, zdrop. set (k := Z.to_nat (zlen (ordered z) - c)).
  split; [|split; [by rewrite <-reverse_app, take_drop|unfold k; zlen_lia]].
  apply wf_keep; [done| |].
  - rewrite reverse_Permutation, (comm (++)). by rewrite take_drop.
  - pose proof (wf_sorted z Hwf) as Hs. rewrite <-(take_drop k (ordered z)) in Hs.
    by apply StronglySorted_app_1_l in Hs.
Qed.

Lemma Len_ordered z : wf z -> Len z = zlen (ordered z).
Proof.
  intros Hwf. unfold Len, zlen. f_equal.
  assert (map_to_list (scores z) ≡ₚ (fun e => (Member e, Score e)) <$> ordered z) as Hp.
  { apply NoDup_Permutation.
    - apply NoDup_map_to_list.
    - apply NoDup_fmap; [|by apply wf_NoDup]. intros [] [] ?; simplify_eq/=; done.
    - intros [m s]. rewrite elem_of_map_to_list, <-(wf_iff z Hwf), list_elem_of_fmap.
      split; [by exists (mkZ m s)|]. by intros ([] & ? & ?); simplify_eq/=. }
  rewrite <-length_map_to_list. apply Permutation_length in Hp. by rewrite Hp, length_fmap.
Qed.

(** ** Lexicographic ranges *)

Lemma str_ltb_leb a b : str_ltb a b = true -> str_leb a b = true.
Proof. intros H. apply str_le_cases. by left. Qed.

Lemma str_lt_le_trans a b c : str_lt a b -> str_leb b c = true -> str_lt a c.
Proof. intros H1 [H2| <-]%str_le_cases; [by apply (str_lt_trans a b c)|done]. Qed.

Lemma lexLTE_down a b max : str_lt a b -> lexLTE b max = true -> lexLTE a max = true.
Proof.
  unfold lexLTE. intros Hab. repeat case_match; try done; intros H'.
  - apply str_ltb_leb. by apply (str_lt_le_trans a b).
  - by apply (str_lt_trans a b (tail_str max)).
  - apply str_ltb_leb. by apply (str_lt_le_trans a b).
Qed.

Definition lex_between (min max : string) (e : ZMember) : Prop :=
  lexGTE (Member e) min = true /\ lexLTE (Member e) max = true.

#[export] Instance lex_between_dec min max e : Decision (lex_between min max e).
Proof. unfold lex_between. apply _. Defined.

(** In a set whose members share one score (the case ZRANGEBYLEX is for),
    the early exit of the loop is exact. *)
Lemma RangeByLex_spec min max offset count z k :
  wf z -> (forall e, e ∈ ordered z -> fkey (Score e) = k) ->
  RangeByLex min max offset count z =
    limit offset count (filter (lex_between min max) (ordered z)).
Proof.
  intros Hwf Hk. unfold RangeByLex. rewrite scan_limit. f_equal.
  rewrite (scan_kept_filter _ _ (fun a b => str_lt (Member a) (Member b))).
  - apply list_filter_iff. intros e. unfold lex_between. by rewrite !negb_false_iff.
  - destruct Hwf as [Hs _ _]. induction Hs as [|a l Hs IH HF]; [constructor|].
    constructor; [apply IH; intros e He; apply Hk; by right|].
    rewrite Forall_forall in *. intros b Hb.
    destruct (HF b Hb) as [Hlt|[_ ?]]; [|done]. exfalso.
    rewrite (Hk a) in Hlt by apply list_elem_of_here.
    rewrite (Hk b) in Hlt by (by apply list_elem_of_further). by apply key_lt_irrefl in Hlt.
  - intros a b Hab. rewrite !negb_true_iff. intros Ha.
    destruct (lexLTE (Member b) max) eqn:Hb; [|done].
    rewrite (lexLTE_down _ _ _ Hab Hb) in Ha. done.
Qed.

(** ** Reachable sets *)

(** A mutation of a sorted set, as the store issues them. *)
Inductive mutation :=
| MAdd (member : string) (score : float64)
| MRemove (member : string)
| MPopMin (count : Z)
| MPopMax (count : Z).

Definition mutate (u : mutation) (z : SortedSet) : SortedSet :=
  match u with
  | MAdd m s => (Add m s z).2
  | MRemove m => (Remove m z).2
  | MPopMin c => (PopMin c z).2
  | MPopMax c => (PopMax c z).2
  end.

Definition numeric (u : mutation) : bool :=
  match u with MAdd _ s => negb (is_nan s) | _ => true end.

Inductive reachable : SortedSet -> Prop :=
| reach_new : reachable NewSortedSet
| reach_step z u : reachable z -> numeric u = true -> reachable (mutate u z).

Lemma mutate_wf u z : wf z -> numeric u = true -> wf (mutate u z).
Proof.
  intros Hwf Hu. destruct u; cbn in *.
  - apply Add_spec; [done|]. by apply negb_true_iff.
  - by apply Remove_spec.
  - by apply PopMin_spec.
  - by apply PopMax_spec.
Qed.

Lemma reachable_wf z : reachable z -> wf z.
Proof. induction 1; [apply wf_new|by apply mutate_wf]. Qed.

(** ** The score-map contract *)

(** A ranking of a score map: its pairs in ascending (score, member) order. *)
Definition is_ranking (sc : gmap string float64) (l : list ZMember) : Prop :=
  StronglySorted zlt l /\ (forall m s, mkZ m s ∈ l <-> sc !! m = Some s).

Lemma StronglySorted_zlt_ext l1 l2 :
  StronglySorted zlt l1 -> StronglySorted zlt l2 -> (forall x, x ∈ l1 <-> x ∈ l2) -> l1 = l2.
Proof.
  intros H1. revert l2. induction H1 as [|a l1 H1 IH Ha]; intros l2 H2 Hiff.
  { destruct l2 as [|b l2]; [done|]. exfalso. specialize (Hiff b). set_solver. }
  destruct H2 as [|b l2 H2 Hb]; [exfalso; specialize (Hiff a); set_solver|].
  rewrite Forall_forall in Ha, Hb.
  assert (a = b) as <-.
  { assert (a ∈ b :: l2) as [->|Hab]%elem_of_cons by (apply Hiff; left); [done|].
    assert (b ∈ a :: l1) as [->|Hba]%elem_of_cons by (apply Hiff; left); [done|].
    exfalso. apply (zlt_irrefl a). by trans b; [apply Ha|apply Hb]. }
  f_equal. apply IH; [done|]. intros x. specialize (Hiff x). rewrite !elem_of_cons in Hiff.
  split; intros Hx.
  - destruct (proj1 Hiff (or_intror Hx)) as [->|?]; [|done]. exfalso. by apply (zlt_irrefl a), Ha.
  - destruct (proj2 Hiff (or_intror Hx)) as [->|?]; [|done]. exfalso. by apply (zlt_irrefl a), Hb.
Qed.

Lemma is_ranking_unique sc l1 l2 : is_ranking sc l1 -> is_ranking sc l2 -> l1 = l2.
Proof.
  intros [? H1] [? H2]. apply StronglySorted_zlt_ext; [done..|].
  intros [m s]. by rewrite H1, H2.
Qed.

Lemma wf_ranking z : wf z -> is_ranking (scores z) (ordered z).
Proof. intros [Hs Hi _]. done. Qed.

Inductive output := OBool (b : bool) | OMembers (l : list ZMember).

(** The mutations on the bare score map, the pops described through its
    (unique) ranking. *)
Inductive spec_step (sc : gmap string float64) : mutation -> output -> gmap string float64 -> Prop :=
| SpecAdd m s :
    spec_step sc (MAdd m s) (OBool (bool_decide (sc !! m = None))) (add_scores m s sc)
| SpecRemove m :
    spec_step sc (MRemove m) (OBool (bool_decide (is_Some (sc !! m)))) (delete m sc)
| SpecPopMin c l1 l2 :
    is_ranking sc (l1 ++ l2) -> zlen l1 = clamp_count c (Z.of_nat (size sc)) ->
    spec_step sc (MPopMin c) (OMembers l1) (delete_members l1 sc)
| SpecPopMax c l1 l2 :
    is_ranking sc (l1 ++ l2) -> zlen l2 = clamp_count c (Z.of_nat (size sc)) ->
    spec_step sc (MPopMax c) (OMembers (reverse l2)) (delete_members l2 sc).

Definition run_mutation (u : mutation) (z : SortedSet) : output * SortedSet :=
  match u with
  | MAdd m s => let '(b, z') := Add m s z in (OBool b, z')
  | MRemove m => let '(b, z') := Remove m z in (OBool b, z')
  | MPopMin c => let '(l, z') := PopMin c z in (OMembers l, z')
  | MPopMax c => let '(l, z') := PopMax c z in (OMembers l, z')
  end.

Fixpoint run_mutations (us : list mutation) (z : SortedSet) : list output * SortedSet :=
  match us with
  | [] => ([], z)
  | u :: us => let '(o, z1) := run_mutation u z in let '(os, z2) := run_mutations us z1 in (o :: os, z2)
  end.

Inductive spec_steps : gmap string float64 -> list mutation -> list output -> gmap string float64 -> Prop :=
| spec_done sc : spec_steps sc [] [] sc
| spec_more sc u o sc1 us os sc2 :
    spec_step sc u o sc1 -> spec_steps sc1 us os sc2 -> spec_steps sc (u :: us) (o :: os) sc2.

Lemma run_mutation_state u z : (run_mutation u z).2 = mutate u z.
Proof. destruct u; cbn; repeat case_match; simplify_eq/=; done. Qed.

Lemma PopMin_scores c z : scores (PopMin c z).2 = delete_members (PopMin c z).1 (scores z).
Proof. unfold PopMin. by destruct (_ =? 0). Qed.

Lemma delete_members_reverse l sc : delete_members (reverse l) sc = delete_members l sc.
Proof.
  apply map_eq. intros k. rewrite !delete_members_lookup, fmap_reverse.
  pose proof (elem_of_reverse k (Member <$> l)). repeat case_decide; naive_solver.
Qed.

Lemma run_mutation_spec u z :
  wf z -> numeric u = true ->
  spec_step (scores z) u (run_mutation u z).1 (scores (run_mutation u z).2).
Proof.
  intros Hwf Hn. pose proof (Len_ordered z Hwf) as Hlen. unfold Len in Hlen.
  destruct u as [m s|m|c|c]; cbn in *.
  - destruct (Add_spec m s z Hwf) as (_ & Hb & Hsc); [by apply negb_true_iff|].
    destruct (Add m s z) as [b z']. cbn in *. subst. rewrite Hsc. constructor.
  - destruct (Remove_spec m z Hwf) as (_ & Hb & Hsc).
    destruct (Remove m z) as [b z']. cbn in *. subst. rewrite Hsc. constructor.
  - destruct (PopMin_spec c z Hwf) as (_ & Ho & Hz). pose proof (PopMin_scores c z) as Hsc.
    destruct (PopMin c z) as [l z']. cbn in *. rewrite Hsc.
    apply (SpecPopMin _ c l (ordered z')); [by rewrite <-Ho; apply wf_ranking|by rewrite Hlen].
  - destruct (PopMax_spec c z Hwf) as (Hwf' & Ho & Hz).
    assert (scores (PopMax c z).2 = delete_members (PopMax c z).1 (scores z)) as Hsc.
    { unfold PopMax. by destruct (_ =? 0). }
    destruct (PopMax c z) as [l z']. cbn in *. rewrite Hsc, <-delete_members_reverse.
    replace (OMembers l) with (OMembers (reverse (reverse l))) by (by rewrite reverse_involutive).
    apply (SpecPopMax _ c (ordered z') (reverse l)).
    + apply (f_equal reverse) in Ho. rewrite reverse_app, !reverse_involutive in Ho.
      rewrite <-Ho. by apply wf_ranking.
    + rewrite Hlen, <-Hz. zlen_lia.
Qed.

Lemma run_mutations_spec us z :
  wf z -> forallb numeric us = true ->
  wf (run_mutations us z).2 /\
  spec_steps (scores z) us (run_mutations us z).1 (scores (run_mutations us z).2).
Proof.
  revert z. induction us as [|u us IH]; intros z Hwf Hn; cbn in *; [by split; [|constructor]|].
  apply andb_prop in Hn as [Hu Hus]. pose proof (run_mutation_spec u z Hwf Hu) as Hs.
  pose proof (mutate_wf u z Hwf Hu) as Hwf'. rewrite <-run_mutation_state in Hwf'.
  destruct (run_mutation u z) as [o z1]. cbn in *. destruct (IH z1 Hwf' Hus) as [? ?].
  destruct (run_mutations us z1) as [os z2]. cbn in *. split; [done|]. by econstructor.
Qed.

(** C16: A sorted set is its score map.  Any sequence of ZADD, ZREM, ZPOPMIN
    and ZPOPMAX steps with numeric scores answers exactly as the same steps
    do on a bare map from member to score (the pops taking the lowest or the
    highest of its unique ranking), and at the end the [ordered] slice is the
    ranking of the map. *)
Theorem zset_refines_map us :
  forallb numeric us = true ->
  let r := run_mutations us NewSortedSet in
  spec_steps ∅ us r.1 (scores r.2) /\ is_ranking (scores r.2) (ordered r.2).
Proof.
  intros Hn r. destruct (run_mutations_spec us NewSortedSet wf_new Hn) as [Hwf Hs].
  split; [done|]. by apply wf_ranking.
Qed.

Lemma zset_refines_map_witness :
  let us := [MAdd "b" (f_of_Z 2); MAdd "a" (f_of_Z 2); MAdd "c" (f_of_Z 1); MAdd "c" (f_of_Z 3);
             MRemove "a"; MPopMax 1] in
  let r := run_mutations us NewSortedSet in
  r.1 = [OBool true; OBool true; OBool true; OBool false; OBool true; OMembers [mkZ "c" (f_of_Z 3)]] /\
  spec_steps ∅ us r.1 (scores r.2) /\ is_ranking (scores r.2) (ordered r.2).
Proof. cbv zeta. split; [vm_compute; reflexivity|]. apply zset_refines_map. reflexivity. Defined.

(** ZRANGEBYSCORE.  On any reachable sorted set the binary search for
    the first score and the early exit of the loop select exactly the members
    whose score lies in [min, max], in order, cut by offset and count; ZCOUNT
    is their number. *)
Theorem zset_range_by_score z min max offset count :
  reachable z -> is_nan min = false -> is_nan max = false ->
  RangeByScore min max offset count z = limit offset count (filter (between min max) (ordered z)) /\
  CountByScore min max z = zlen (filter (between min max) (ordered z)).
Proof.
  intros Hz%reachable_wf Hmin Hmax. split; [by apply RangeByScore_spec|by apply CountByScore_spec].
Qed.

Definition abc : SortedSet :=
  mutate (MAdd "b" (f_of_Z 2)) (mutate (MAdd "c" (f_of_Z 3)) (mutate (MAdd "a" (f_of_Z 1)) NewSortedSet)).

Lemma zset_range_by_score_witness :
  reachable abc /\
  RangeByScore (f_of_Z 2) (finf false) 1 (-1) abc =
    limit 1 (-1) (filter (between (f_of_Z 2) (finf false)) (ordered abc)) /\
  Member <$> RangeByScore (f_of_Z 2) (finf false) 1 (-1) abc = ["c"].
Proof.
  assert (reachable abc) as Hr by (unfold abc; repeat constructor).
  split; [exact Hr|]. split; [|vm_compute; reflexivity].
  apply (zset_range_by_score abc (f_of_Z 2) (finf false) 1 (-1) Hr); reflexivity.
Defined.

(** ZRANK.  On a reachable sorted set the binary search finds a member
    exactly when the ordered slice holds it, and at its index. *)
Theorem zset_rank z m i :
  reachable z ->
  Rank z m = Some i <-> 0 <= i /\ exists s, ordered z !! Z.to_nat i = Some (mkZ m s).
Proof. intros Hz%reachable_wf. by apply Rank_spec. Qed.

Lemma zset_rank_witness : reachable abc /\ Rank abc "b" = Some 1.
Proof.
  assert (reachable abc) as Hr by (unfold abc; repeat constructor).
  split; [exact Hr|]. apply (zset_rank abc "b" 1 Hr). split; [lia|].
  exists (f_of_Z 2). vm_compute. reflexivity.
Defined.

(** A NaN score breaks the set.  ZADD parses its score with ParseFloat,
    which accepts "nan"; after adding such a member, ZREM of it reports
    success and drops it from the score map but leaves it in the ordered
    slice, so that ZRANGE still lists a member ZSCORE no longer knows. *)
Theorem zset_nan_ghost :
  let z := (Add "m" fnan (Add "n" (f_of_Z 1) NewSortedSet).2).2 in
  let r := Remove "m" z in
  r.1 = true /\ Score_ r.2 "m" = None /\ "m" ∈ (Member <$> Range 0 (-1) r.2) /\ ~ wf r.2.
Proof.
  cbv zeta. split; [reflexivity|]. split; [vm_compute; reflexivity|].
  split; [apply list_elem_of_In; vm_compute; tauto|].
  intros [_ Hi _]. assert (Score_ (Remove "m" (Add "m" fnan (Add "n" (f_of_Z 1) NewSortedSet).2).2).2 "m" = Some fnan); [|by vm_compute in *].
  apply Hi. apply list_elem_of_In. vm_compute. tauto.
Qed.

End SortedSet.
