(* ===== verification/HyperLogLog.v ===== *)
(** * HyperLogLog (internal/store/hyperloglog.go)

    The register array of a HyperLogLog and the operations that change it:
    [Add] hashes an element (FNV-1a, then a splitmix64 finalizer), [Merge]
    joins two sketches, [Registers]/[LoadRegisters] are what snapshots use.
    The theorems say that a sketch is a join semilattice: it depends on the
    SET of the elements added, and merging is adding both sets.  [Count] is in
    StoreSketch.v. *)
From S2P Require Import Prelude GoLib.

Module HyperLogLog.

Definition hllPrecision : Z := 14.
Definition hllRegisters : Z := Z.shiftl 1 hllPrecision.

(** ** Hashing *)

Definition mix64 (x : Z) : Z :=
  let x := Z.lxor x (Z.shiftr x 30) in
  let x := wrapu64 (x * 0xbf58476d1ce4e5b9) in
  let x := Z.lxor x (Z.shiftr x 27) in
  let x := wrapu64 (x * 0x94d049bb133111eb) in
  Z.lxor x (Z.shiftr x 31).

(** hash/fnv: [New64a], [Write], [Sum64] *)
Fixpoint fnv64a_loop (h : Z) (s : string) : Z :=
  match s with
  | EmptyString => h
  | String c s => fnv64a_loop (wrapu64 (Z.lxor h (Z.of_N (N_of_ascii c)) * 1099511628211)) s
  end.

Definition fnv64a (s : string) : Z := fnv64a_loop 14695981039346656037 s.

Definition clz64 (x : Z) : Z :=
  if x =? 0 then 64
  else
    let '(n, x) := if Z.land x 0xFFFFFFFF00000000 =? 0 then (32, wrapu64 (Z.shiftl x 32)) else (0, x) in
    let '(n, x) := if Z.land x 0xFFFF000000000000 =? 0 then (n + 16, wrapu64 (Z.shiftl x 16)) else (n, x) in
    let '(n, x) := if Z.land x 0xFF00000000000000 =? 0 then (n + 8, wrapu64 (Z.shiftl x 8)) else (n, x) in
    let '(n, x) := if Z.land x 0xF000000000000000 =? 0 then (n + 4, wrapu64 (Z.shiftl x 4)) else (n, x) in
    let '(n, x) := if Z.land x 0xC000000000000000 =? 0 then (n + 2, wrapu64 (Z.shiftl x 2)) else (n, x) in
    if Z.land x 0x8000000000000000 =? 0 then n + 1 else n.

(** ** Sketches *)

Record HyperLogLog := mkHLL { registers : list Z }.

Definition NewHyperLogLog : HyperLogLog := mkHLL (replicate (Z.to_nat hllRegisters) 0).

(** The register an element selects, and the rank it proposes. *)
Definition hll_idx (element : string) : Z :=
  Z.shiftr (mix64 (fnv64a element)) (64 - hllPrecision).

Definition hll_rho (element : string) : Z :=
  let x := mix64 (fnv64a element) in
  let remaining := Z.lor (wrapu64 (Z.shiftl x hllPrecision)) (Z.shiftl 1 (hllPrecision - 1)) in
  clz64 remaining + 1.

Definition Add (element : string) (h : HyperLogLog) : bool * HyperLogLog :=
  let idx := hll_idx element in
  let rho := hll_rho element in
  if rho >? zget (registers h) idx then (true, mkHLL (zset (registers h) idx rho))
  else (false, h).

Definition Registers (h : HyperLogLog) : list Z := registers h.

(** [copy(h.registers[:], regs)]: the shorter length decides. *)
Definition LoadRegisters (regs : list Z) (h : HyperLogLog) : HyperLogLog :=
  mkHLL (take (length (registers h)) regs ++ drop (length regs) (registers h)).

Definition merge_one (other : HyperLogLog) (i : Z) (st : bool * HyperLogLog) : bool * HyperLogLog :=
  let '(changed, h) := st in
  if zget (registers other) i >? zget (registers h) i
  then (true, mkHLL (zset (registers h) i (zget (registers other) i)))
  else (changed, h).

Definition Merge (other h : HyperLogLog) : bool * HyperLogLog :=
  for_range 0 hllRegisters (merge_one other) (false, h).

Definition wf (h : HyperLogLog) : Prop :=
  zlen (registers h) = hllRegisters /\ Forall (fun r => 0 <= r <= 51) (registers h).

(** ** The leading-zero count *)

Lemma top_bits_zero x (a b : Z) :
  0 <= b -> 0 <= a -> 0 <= x < 2 ^ (a + b) ->
  (Z.land x (Z.shiftl (Z.ones a) b) =? 0) = (x <? 2 ^ b).
Proof.
  intros Hb Ha Hx.
  assert (Z.land x (Z.shiftl (Z.ones a) b) = Z.shiftl (Z.shiftr x b) b) as ->.
  { apply Z.bits_inj'. intros n Hn. rewrite Z.land_spec, !Z.shiftl_spec by lia.
    destruct (decide (n < b)).
    - rewrite !(Z.testbit_neg_r _ (n - b)) by lia. by rewrite andb_false_r.
    - rewrite Z.shiftr_spec by lia. replace (n - b + b) with n by lia.
      destruct (decide (n - b < a)).
      + rewrite Z.ones_spec_low by lia. by rewrite andb_true_r.
      + rewrite Z.ones_spec_high by lia. rewrite andb_false_r.
        symmetry. destruct (decide (x = 0)) as [->|]; [apply Z.bits_0|].
        apply Z.bits_above_log2; [lia|].
        assert (Z.log2 x < a + b) by (apply Z.log2_lt_pow2; lia). lia. }
  rewrite Z.shiftl_mul_pow2, Z.shiftr_div_pow2 by lia.
  assert (0 < 2 ^ b) by (apply Z.pow_pos_nonneg; lia).
  destruct (Z.ltb_spec x (2 ^ b)).
  - rewrite Z.div_small by lia. done.
  - apply Z.eqb_neq. assert (1 <= x / 2 ^ b) by (apply Z.div_le_lower_bound; lia). nia.
Qed.

(** One step of the bisection: [n] zeros have been shifted out of [x0]. *)
Lemma clz_step x w :
  0 < w <= 64 -> 0 < x < 2 ^ 64 ->
  let c := Z.land x (Z.shiftl (Z.ones w) (64 - w)) =? 0 in
  let x' := wrapu64 (Z.shiftl x w) in
  (c = true -> w <= 63 - Z.log2 x /\ 0 < x' < 2 ^ 64 /\ Z.log2 x' = Z.log2 x + w) /\
  (c = false -> 63 - Z.log2 x < w).
Proof.
  intros Hw Hx. cbv zeta. rewrite top_bits_zero by (try replace (w + (64 - w)) with 64 by lia; lia).
  assert (0 < 2 ^ (64 - w)) by (apply Z.pow_pos_nonneg; lia).
  destruct (Z.ltb_spec x (2 ^ (64 - w))) as [Hlt|Hge]; split; try done.
  - intros _. assert (Z.log2 x < 64 - w) by (apply Z.log2_lt_pow2; lia).
    unfold wrapu64. rewrite Z.shiftl_mul_pow2 by lia.
    assert (0 < 2 ^ w) by (apply Z.pow_pos_nonneg; lia).
    assert (x * 2 ^ w < 2 ^ 64).
    { replace 64 with (64 - w + w) by lia. rewrite Z.pow_add_r by lia. nia. }
    rewrite Z.mod_small by nia. rewrite Z.log2_mul_pow2 by lia. nia.
  - intros _. assert (64 - w <= Z.log2 x) by (apply Z.log2_le_pow2; lia). lia.
Qed.

Definition clz_next (w : Z) (st : Z * Z) : Z * Z :=
  let '(n, x) := st in
  if Z.land x (Z.shiftl (Z.ones w) (64 - w)) =? 0 then (n + w, wrapu64 (Z.shiftl x w)) else (n, x).

(** [n] zeros were shifted out, fewer than [b] remain, [t] in all. *)
Definition clz_inv (t b : Z) (st : Z * Z) : Prop :=
  0 < st.2 < 2 ^ 64 /\ st.1 + (63 - Z.log2 st.2) = t /\ 63 - Z.log2 st.2 < b.

Lemma clz_next_inv t w st : 0 < w <= 32 -> clz_inv t (2 * w) st -> clz_inv t w (clz_next w st).
Proof.
  intros Hw. destruct st as [n x]. unfold clz_inv, clz_next. cbn [fst snd]. intros (Hx & Ht & Hb).
  destruct (clz_step x w) as [HT HF]; [lia..|]. cbv zeta in *.
  destruct (_ =? 0); cbn [fst snd].
  - destruct (HT eq_refl) as (? & ? & ->). split; [done|]. lia.
  - specialize (HF eq_refl). lia.
Qed.

Lemma clz64_pos x : 0 < x < 2 ^ 64 -> clz64 x = 63 - Z.log2 x.
Proof.
  intros Hx. pose proof (Z.log2_nonneg x).
  assert (clz_inv (63 - Z.log2 x) 2 (clz_next 2 (clz_next 4 (clz_next 8 (clz_next 16 (clz_next 32 (0, x)))))))
    as Hinv.
  { do 5 (apply clz_next_inv; [lia|]). unfold clz_inv. cbn [fst snd]. lia. }
  unfold clz64. rewrite (proj2 (Z.eqb_neq _ _)) by lia.
  change (if Z.land x 0xFFFFFFFF00000000 =? 0 then (32, wrapu64 (Z.shiftl x 32)) else (0, x))
    with (clz_next 32 (0, x)).
  destruct (clz_next 32 (0, x)) as [n1 x1].
  change (if Z.land x1 0xFFFF000000000000 =? 0 then (n1 + 16, wrapu64 (Z.shiftl x1 16)) else (n1, x1))
    with (clz_next 16 (n1, x1)).
  destruct (clz_next 16 (n1, x1)) as [n2 x2].
  change (if Z.land x2 0xFF00000000000000 =? 0 then (n2 + 8, wrapu64 (Z.shiftl x2 8)) else (n2, x2))
    with (clz_next 8 (n2, x2)).
  destruct (clz_next 8 (n2, x2)) as [n3 x3].
  change (if Z.land x3 0xF000000000000000 =? 0 then (n3 + 4, wrapu64 (Z.shiftl x3 4)) else (n3, x3))
    with (clz_next 4 (n3, x3)).
  destruct (clz_next 4 (n3, x3)) as [n4 x4].
  change (if Z.land x4 0xC000000000000000 =? 0 then (n4 + 2, wrapu64 (Z.shiftl x4 2)) else (n4, x4))
    with (clz_next 2 (n4, x4)).
  destruct (clz_next 2 (n4, x4)) as [n5 x5]. destruct Hinv as (Hx5 & Ht & Hb). cbn [fst snd] in *.
  change 0x8000000000000000 with (Z.shiftl (Z.ones 1) (64 - 1)).
  assert (Z.log2 x5 < 64) by (apply Z.log2_lt_pow2; lia).
  destruct (clz_step x5 1) as [HT HF]; [lia..|]. cbv zeta in *.
  destruct (_ =? 0); [destruct (HT eq_refl)|pose proof (HF eq_refl)]; lia.
Qed.

Lemma fnv64a_range s : 0 <= fnv64a s < 2 ^ 64.
Proof.
  unfold fnv64a. assert (0 <= 14695981039346656037 < 2 ^ 64) as H by lia. revert H.
  generalize 14695981039346656037. induction s as [|c s IH]; intros h Hh; [done|].
  cbn. apply IH. unfold wrapu64. apply Z.mod_pos_bound. lia.
Qed.

Lemma lxor_shift_range x k : 0 <= k -> 0 <= x < 2 ^ 64 -> 0 <= Z.lxor x (Z.shiftr x k) < 2 ^ 64.
Proof.
  intros Hk Hx. assert (0 <= Z.shiftr x k <= x) as Hs.
  { split; [apply Z.shiftr_nonneg; lia|]. rewrite Z.shiftr_div_pow2 by lia.
    apply Z.div_le_upper_bound; [apply Z.pow_pos_nonneg; lia|].
    assert (1 <= 2 ^ k) by (change 1 with (2 ^ 0); apply Z.pow_le_mono_r; lia). nia. }
  assert (0 <= Z.lxor x (Z.shiftr x k)) as H0 by (apply Z.lxor_nonneg; lia).
  split; [done|]. destruct (decide (Z.lxor x (Z.shiftr x k) = 0)) as [->|]; [lia|].
  apply Z.log2_lt_pow2; [lia|].
  eapply Z.le_lt_trans; [apply Z.log2_lxor; lia|].
  assert (forall y, 0 <= y < 2 ^ 64 -> Z.log2 y < 64) as Hlog.
  { intros y Hy. destruct (decide (y = 0)) as [->|]; [cbn; lia|]. apply Z.log2_lt_pow2; lia. }
  apply Z.max_lub_lt; apply Hlog; lia.
Qed.

Lemma mix64_range x : 0 <= x < 2 ^ 64 -> 0 <= mix64 x < 2 ^ 64.
Proof.
  intros Hx. unfold mix64. repeat (apply lxor_shift_range; [lia|]).
  unfold wrapu64. apply Z.mod_pos_bound. lia.
Qed.

Lemma hll_idx_range e : 0 <= hll_idx e < hllRegisters.
Proof.
  pose proof (mix64_range _ (fnv64a_range e)) as Hx. unfold hll_idx, hllRegisters, hllPrecision.
  rewrite Z.shiftr_div_pow2 by lia. change (Z.shiftl 1 14) with (2 ^ 14).
  split; [apply Z.div_pos; lia|]. apply Z.div_lt_upper_bound; [lia|]. rewrite <-Z.pow_add_r by lia.
  change (64 - 14 + 14) with 64. lia.
Qed.

(** Bit 13 of the operand of [clz64] is always set, so ranks end at 51. *)
Lemma hll_rho_range e : 1 <= hll_rho e <= 51.
Proof.
  unfold hll_rho, hllPrecision. set (y := wrapu64 _).
  assert (0 <= y < 2 ^ 64) as Hy by (apply Z.mod_pos_bound; lia).
  change (Z.shiftl 1 (14 - 1)) with (2 ^ 13). set (r := Z.lor y (2 ^ 13)).
  assert (Z.log2 r = Z.max (Z.log2 y) 13) as Hlog.
  { unfold r. rewrite Z.log2_lor by lia. by rewrite Z.log2_pow2. }
  assert (Z.log2 y < 64) as Hly.
  { destruct (decide (y = 0)) as [->|]; [cbn; lia|]. apply Z.log2_lt_pow2; lia. }
  assert (0 < r) as Hr0.
  { destruct (decide (0 < r)) as [|Hn]; [done|]. rewrite (Z.log2_nonpos r) in Hlog by lia. lia. }
  rewrite clz64_pos; [pose proof (Z.log2_nonneg y); lia|].
  split; [done|]. apply Z.log2_lt_pow2; [done|]. lia.
Qed.

(** ** Registers are maxima *)

Lemma zset_lookup (l : list Z) i x (j : nat) :
  0 <= i -> zset l i x !! j = if decide (j = Z.to_nat i /\ (j < length l)%nat) then Some x else l !! j.
Proof.
  intros Hi. unfold zset. rewrite (proj2 (Z.leb_le 0 i)) by done.
  rewrite list_lookup_insert. repeat case_decide; naive_solver.
Qed.

(** What adding [l] proposes for register [i]. *)
Fixpoint proposal (l : list string) (i : Z) : Z :=
  match l with
  | [] => 0
  | e :: l => if hll_idx e =? i then Z.max (hll_rho e) (proposal l i) else proposal l i
  end.

Definition add_all (l : list string) (h : HyperLogLog) : HyperLogLog :=
  fold_left (fun h e => (Add e h).2) l h.

Lemma Add_zlen e h : zlen (registers (Add e h).2) = zlen (registers h).
Proof. unfold Add. case_match; cbn; [apply zlen_zset|done]. Qed.

Lemma Add_zget e h i :
  zlen (registers h) = hllRegisters -> 0 <= i < hllRegisters ->
  zget (registers (Add e h).2) i =
    if hll_idx e =? i then Z.max (hll_rho e) (zget (registers h) i) else zget (registers h) i.
Proof.
  intros Hl Hi. pose proof (hll_idx_range e). unfold Add. rewrite Z.gtb_ltb.
  destruct (Z.ltb_spec (zget (registers h) (hll_idx e)) (hll_rho e)); cbn;
    destruct (Z.eqb_spec (hll_idx e) i) as [<-|].
  - rewrite zget_zset_eq by lia. lia.
  - by rewrite zget_zset_ne.
  - lia.
  - done.
Qed.

Lemma add_all_zlen l h : zlen (registers (add_all l h)) = zlen (registers h).
Proof. revert h. induction l as [|e l IH]; intros h; [done|]. cbn. rewrite IH. apply Add_zlen. Qed.

Lemma add_all_zget l h i :
  zlen (registers h) = hllRegisters -> 0 <= i < hllRegisters -> 0 <= zget (registers h) i ->
  zget (registers (add_all l h)) i = Z.max (proposal l i) (zget (registers h) i).
Proof.
  revert h. induction l as [|e l IH]; intros h Hl Hi H0; [cbn; lia|].
  pose proof (hll_rho_range e). cbn. rewrite IH; rewrite ?Add_zlen, ?Add_zget by done; [|done..|].
  - case_match; lia.
  - case_match; lia.
Qed.

Lemma registers_eq h1 h2 :
  zlen (registers h1) = hllRegisters -> zlen (registers h2) = hllRegisters ->
  (forall i, 0 <= i < hllRegisters -> zget (registers h1) i = zget (registers h2) i) -> h1 = h2.
Proof.
  destruct h1 as [r1], h2 as [r2]. cbn. intros H1 H2 Heq. f_equal.
  apply list_eq. intros j. destruct (decide (Z.of_nat j < hllRegisters)).
  - rewrite <-(Nat2Z.id j), !zget_lookup by lia. by rewrite Heq by lia.
  - rewrite !lookup_ge_None_2 by (unfold zlen in *; lia). done.
Qed.

Lemma new_zlen : zlen (registers NewHyperLogLog) = hllRegisters.
Proof. cbn [registers NewHyperLogLog]. by rewrite zlen_replicate. Qed.

Lemma new_zget i : 0 <= i < hllRegisters -> zget (registers NewHyperLogLog) i = 0.
Proof.
  intros Hi. rewrite <-(Z2Nat.id i) by lia. apply lookup_zget. cbn [registers NewHyperLogLog].
  apply lookup_replicate_2. lia.
Qed.

Lemma sketch_zget l i :
  0 <= i < hllRegisters -> zget (registers (add_all l NewHyperLogLog)) i = Z.max (proposal l i) 0.
Proof.
  intros Hi. by rewrite add_all_zget; rewrite ?new_zget; try apply new_zlen.
Qed.

Definition merge_inv (other h : HyperLogLog) (k : Z) (st : bool * HyperLogLog) : Prop :=
  zlen (registers st.2) = hllRegisters /\
  (forall i, 0 <= i < hllRegisters -> zget (registers st.2) i =
     if i <? k then Z.max (zget (registers other) i) (zget (registers h) i)
     else zget (registers h) i) /\
  (st.1 = false -> st.2 = h).

Lemma merge_one_inv other h k st :
  0 <= k < hllRegisters -> merge_inv other h k st -> merge_inv other h (k + 1) (merge_one other k st).
Proof.
  intros Hk. destruct st as [c g]. unfold merge_inv, merge_one. cbn [fst snd]. intros (Hl & Hg & Hc).
  pose proof (Hg k Hk) as Hgk. rewrite (proj2 (Z.ltb_ge _ _)) in Hgk by lia.
  assert (forall i, (i <? k + 1) = (i <? k) || (i =? k)) as Hsplit by (intros i; zify_bools; lia).
  rewrite Z.gtb_ltb. destruct (Z.ltb_spec (zget (registers g) k) (zget (registers other) k)); cbn [fst snd registers].
  - rewrite zlen_zset. split; [done|]. split; [|done]. intros i Hi. rewrite Hsplit.
    destruct (Z.eqb_spec i k) as [->|].
    + rewrite orb_true_r, zget_zset_eq by lia. lia.
    + rewrite orb_false_r, zget_zset_ne by done. by apply Hg.
  - split; [done|]. split; [|done]. intros i Hi. rewrite Hsplit.
    destruct (Z.eqb_spec i k) as [->|]; [rewrite orb_true_r; lia|rewrite orb_false_r; by apply Hg].
Qed.

Lemma Merge_spec other h :
  zlen (registers h) = hllRegisters ->
  zlen (registers (Merge other h).2) = hllRegisters /\
  (forall i, 0 <= i < hllRegisters ->
     zget (registers (Merge other h).2) i = Z.max (zget (registers other) i) (zget (registers h) i)) /\
  ((Merge other h).1 = false -> (Merge other h).2 = h).
Proof.
  intros Hl. unfold Merge.
  assert (forall k st, 0 <= k < hllRegisters ->
    merge_inv other h k st -> merge_inv other h (k + 1) (merge_one other k st)) as Hstep
    by (intros; by apply merge_one_inv).
  destruct (for_range_inv (merge_inv other h) 0 hllRegisters (merge_one other) (false, h))
    as (H1 & H2 & H3); [done| |done|].
  { split; [done|]. split; [|done]. intros i Hi. by rewrite (proj2 (Z.ltb_ge _ _)) by lia. }
  split; [done|]. split; [|done]. intros i Hi. rewrite H2 by done.
  by rewrite (proj2 (Z.ltb_lt _ _)) by lia.
Qed.

(** ** Theorems *)

Lemma proposal_le l i m :
  0 <= m -> proposal l i <= m <-> (forall e, e ∈ l -> hll_idx e = i -> hll_rho e <= m).
Proof.
  intros Hm. induction l as [|a l IH]; cbn.
  - split; [|lia]. intros _ e He. by apply not_elem_of_nil in He.
  - setoid_rewrite elem_of_cons. destruct (Z.eqb_spec (hll_idx a) i).
    + rewrite Z.max_lub_iff, IH. naive_solver.
    + rewrite IH. naive_solver.
Qed.

Lemma proposal_nonneg l i : 0 <= proposal l i.
Proof.
  induction l as [|e l IH]; cbn; [lia|]. pose proof (hll_rho_range e). case_match; lia.
Qed.

Lemma proposal_join l l1 l2 i :
  (forall e, e ∈ l <-> e ∈ l1 \/ e ∈ l2) ->
  proposal l i = Z.max (proposal l2 i) (proposal l1 i).
Proof.
  intros H. pose proof (proposal_nonneg l i). pose proof (proposal_nonneg l1 i).
  pose proof (proposal_nonneg l2 i).
  pose proof (proj1 (proposal_le l i _ (proposal_nonneg l i)) (Z.le_refl _)) as Hl.
  pose proof (proj1 (proposal_le l1 i _ (proposal_nonneg l1 i)) (Z.le_refl _)) as Hl1.
  pose proof (proj1 (proposal_le l2 i _ (proposal_nonneg l2 i)) (Z.le_refl _)) as Hl2.
  apply Z.le_antisymm.
  - apply proposal_le; [lia|]. intros e [He|He]%H Hi; [specialize (Hl1 e He Hi)|specialize (Hl2 e He Hi)]; lia.
  - apply Z.max_lub; (apply proposal_le; [done|]); intros e He Hi; apply Hl; naive_solver.
Qed.

Lemma sketch_join l l1 l2 :
  (forall e, e ∈ l <-> e ∈ l1 \/ e ∈ l2) ->
  (Merge (add_all l2 NewHyperLogLog) (add_all l1 NewHyperLogLog)).2 = add_all l NewHyperLogLog.
Proof.
  intros H. destruct (Merge_spec (add_all l2 NewHyperLogLog) (add_all l1 NewHyperLogLog))
    as (Hl & Hg & _); [by rewrite add_all_zlen, new_zlen|].
  apply registers_eq; [done|by rewrite add_all_zlen, new_zlen|].
  intros i Hi. rewrite Hg, !sketch_zget by done. rewrite (proposal_join l l1 l2) by done. lia.
Qed.

Lemma sketch_idem l : (Merge (add_all l NewHyperLogLog) (add_all l NewHyperLogLog)).2 = add_all l NewHyperLogLog.
Proof. apply sketch_join. tauto. Qed.

Lemma Add_wf e h : wf h -> wf (Add e h).2.
Proof.
  intros [Hl HF]. split; [by rewrite Add_zlen|]. unfold Add. case_match; [|done]. cbn.
  pose proof (hll_rho_range e). unfold zset. case_match; [|done].
  apply Forall_insert; [done|]. lia.
Qed.

Lemma add_all_wf l h : wf h -> wf (add_all l h).
Proof. revert h. induction l as [|e l IH]; intros h Hwf; [done|]. cbn. by apply IH, Add_wf. Qed.

Lemma new_wf : wf NewHyperLogLog.
Proof. split; [apply new_zlen|]. apply Forall_replicate. lia. Qed.

(** A sketch depends only on the set of elements.  Merging the sketch of
    [l2] into the sketch of [l1] (PFMERGE, PFCOUNT over several keys) gives
    the very registers of any sketch of the union, in any order and with any
    repetitions; and two lists with the same elements have the same sketch. *)
Theorem hll_merge_is_union l l1 l2 :
  (forall e, e ∈ l <-> e ∈ l1 \/ e ∈ l2) ->
  (Merge (add_all l2 NewHyperLogLog) (add_all l1 NewHyperLogLog)).2 = add_all l NewHyperLogLog /\
  (forall l', (forall e, e ∈ l' <-> e ∈ l) -> add_all l' NewHyperLogLog = add_all l NewHyperLogLog).
Proof.
  intros H. split; [by apply sketch_join|]. intros l' H'.
  rewrite <-(sketch_join l' l1 l2) by (intros e; by rewrite H', H). by apply sketch_join.
Qed.

Lemma hll_merge_is_union_witness :
  (Merge (add_all ["b"; "c"] NewHyperLogLog) (add_all ["a"; "b"] NewHyperLogLog)).2 =
    add_all ["c"; "a"; "b"; "a"] NewHyperLogLog.
Proof.
  refine (proj1 (hll_merge_is_union ["c"; "a"; "b"; "a"] ["a"; "b"] ["b"; "c"] _)).
  intros e. rewrite !elem_of_cons, !elem_of_nil. tauto.
Defined.

(** Register bounds.  Whatever is added, a sketch keeps 16384 registers
    with values in [0, 51], so a rank always fits its byte; the bisection
    [clz64] is the exact number of leading zeros of a 64-bit word; and PFADD
    of an element already added reports no change. *)
Theorem hll_register_bounds l :
  let h := add_all l NewHyperLogLog in
  wf h /\
  (forall x, 0 < x < 2 ^ 64 -> clz64 x = 63 - Z.log2 x) /\
  (forall e, 0 <= hll_idx e < zlen (registers h)) /\
  (forall e, e ∈ l -> Add e h = (false, h)).
Proof.
  cbv zeta. split; [apply add_all_wf, new_wf|]. split; [apply clz64_pos|].
  split. { intros e. rewrite add_all_zlen, new_zlen. apply hll_idx_range. }
  intros e He. unfold Add. rewrite sketch_zget by apply hll_idx_range.
  pose proof (proj1 (proposal_le l (hll_idx e) _ (proposal_nonneg _ _)) (Z.le_refl _) e He eq_refl).
  by rewrite Z.gtb_ltb, (proj2 (Z.ltb_ge _ _)) by lia.
Qed.

Lemma load_registers h : wf h -> LoadRegisters (Registers h) NewHyperLogLog = h.
Proof.
  intros [Hl _]. destruct h as [r]. unfold LoadRegisters, Registers. cbn [registers] in *. f_equal.
  pose proof new_zlen as Hn. unfold zlen in *.
  rewrite drop_ge, app_nil_r by lia. apply take_ge. lia.
Qed.

End HyperLogLog.
