(* ===== verification/TimeSeries.v ===== *)
(** * Time series (internal/store/timeseries.go)

    Samples in a slice sorted by timestamp.  The invariant is strict
    sortedness; [Add] is insertion in the map from timestamp to value that
    the slice represents, [Range] selects an interval of it, [Downsample]
    aggregates consecutive buckets.  The loop of [Downsample] runs on int64
    and is given fuel: [downsample_terminates] shows that it ends when no
    bucket bound overflows, [downsample_diverges] that it need not when one
    does. *)
From S2P Require Import Prelude GoLib.

Module TimeSeries.

Record TSSample := mkTS { Timestamp : Z; Value : float64 }.

#[export] Instance TSSample_eq_dec : EqDecision TSSample.
Proof. solve_decision. Defined.
#[export] Instance TSSample_inhabited : Inhabited TSSample := populate (mkTS 0 fzero).

Record TimeSeries := mkSeries {
  Samples : list TSSample;
  Labels : gmap string string
}.

Definition NewTimeSeries : TimeSeries := mkSeries [] ∅.

Definition search_from (ts : TimeSeries) (timestamp : Z) : Z :=
  Search (zlen (Samples ts)) (fun i => Timestamp (zget (Samples ts) i) >=? timestamp).

Definition Add (timestamp : Z) (value : float64) (ts : TimeSeries) : TimeSeries :=
  let idx := search_from ts timestamp in
  if (idx <? zlen (Samples ts)) && (Timestamp (zget (Samples ts) idx) =? timestamp)
  then mkSeries (zset (Samples ts) idx (mkTS (Timestamp (zget (Samples ts) idx)) value)) (Labels ts)
  else mkSeries (slice_insert inhabitant idx (mkTS timestamp value) (Samples ts)) (Labels ts).

Definition Range (from to count : Z) (ts : TimeSeries) : list TSSample :=
  let start := search_from ts from in
  scan_loop (fun _ => false) (fun s => Timestamp s >? to) 0 count 0 [] (zdrop start (Samples ts)).

Definition Last (ts : TimeSeries) : TSSample * bool :=
  if zlen (Samples ts) =? 0 then (inhabitant, false)
  else (zget (Samples ts) (zlen (Samples ts) - 1), true).

Definition Len (ts : TimeSeries) : Z := zlen (Samples ts).

Definition sum_values (l : list TSSample) : float64 :=
  fold_left (fun acc s => fadd acc (Value s)) l fzero.

(** The [switch aggType] of [Downsample]; [samples] is not empty. *)
Definition aggregate (aggType : string) (samples : list TSSample) : float64 :=
  if String.eqb aggType "avg" then fdiv (sum_values samples) (f_of_Z (zlen samples))
  else if String.eqb aggType "sum" then sum_values samples
  else if String.eqb aggType "min" then
    fold_left (fun v s => if fltb (Value s) v then Value s else v) samples (finf false)
  else if String.eqb aggType "max" then
    fold_left (fun v s => if fltb v (Value s) then Value s else v) samples (finf true)
  else if String.eqb aggType "count" then f_of_Z (zlen samples)
  else if String.eqb aggType "first" then Value (zget samples 0)
  else if String.eqb aggType "last" then Value (zget samples (zlen samples - 1))
  else Value (zget samples 0).

(** [None]: the fuel is spent and the loop has not ended. *)
Fixpoint downsample_loop (fuel : nat) (bucketStart to bucketSize : Z) (aggType : string)
    (results : list TSSample) (ts : TimeSeries) : option (list TSSample) :=
  if bucketStart <? to then
    match fuel with
    | O => None
    | S fuel =>
        let bucketEnd := wrap64 (bucketStart + bucketSize) in
        let samples := Range bucketStart (wrap64 (bucketEnd - 1)) 0 ts in
        let results :=
          if zlen samples >? 0
          then results ++ [mkTS bucketStart (aggregate aggType samples)] else results in
        downsample_loop fuel bucketEnd to bucketSize aggType results ts
    end
  else Some results.

Definition Downsample (fuel : nat) (from to bucketSize : Z) (aggType : string)
    (ts : TimeSeries) : option (list TSSample) :=
  if (bucketSize <=? 0) || (zlen (Samples ts) =? 0) then Some []
  else downsample_loop fuel from to bucketSize aggType [] ts.

(** ** Invariant *)

Definition earlier (a b : TSSample) : Prop := Timestamp a < Timestamp b.

Definition wf (ts : TimeSeries) : Prop := StronglySorted earlier (Samples ts).

Lemma ts_wf_new : wf NewTimeSeries.
Proof. constructor. Qed.

(** The slice represents a map from time to value. *)
Definition represents (ts : TimeSeries) (m : gmap Z float64) : Prop :=
  wf ts /\ forall t v, mkTS t v ∈ Samples ts <-> m !! t = Some v.

Lemma search_from_split ts t :
  wf ts ->
  let pos := search_from ts t in
  0 <= pos <= zlen (Samples ts) /\
  (forall s, s ∈ take (Z.to_nat pos) (Samples ts) -> Timestamp s < t) /\
  (forall s, s ∈ drop (Z.to_nat pos) (Samples ts) -> t <= Timestamp s).
Proof.
  intros Hwf. destruct (Search_split earlier (fun s => Timestamp s >=? t)) with (l := Samples ts)
    as (Hp & Hlo & Hhi); [|done|].
  - intros a b Hab. unfold earlier in Hab. rewrite !Z.geb_le. lia.
  - split; [done|]. split.
    + intros s Hs%Hlo. rewrite Z.geb_leb in Hs. lia.
    + intros s Hs%Hhi. lia.
Qed.

(** The slice around the insertion point: what lies before, the sample at
    [t] if there is one, what lies after. *)
Lemma search_from_cases ts t :
  wf ts ->
  let l1 := take (Z.to_nat (search_from ts t)) (Samples ts) in
  (exists s l2, Samples ts = l1 ++ s :: l2 /\ Timestamp s = t /\ zlen l1 = search_from ts t) \/
  (Samples ts = l1 ++ drop (Z.to_nat (search_from ts t)) (Samples ts) /\
   zlen l1 = search_from ts t /\
   forall s, s ∈ drop (Z.to_nat (search_from ts t)) (Samples ts) -> t < Timestamp s).
Proof.
  intros Hwf. destruct (search_from_split ts t Hwf) as (Hp & Hlo & Hhi). cbv zeta.
  set (pos := search_from ts t) in *. set (l1 := take _ _) in *.
  assert (zlen l1 = pos) as Hl1 by (unfold l1; zlen_lia).
  pose proof (take_drop (Z.to_nat pos) (Samples ts)) as Htd. fold l1 in Htd.
  destruct (drop (Z.to_nat pos) (Samples ts)) as [|s l2] eqn:Ed.
  - right. split; [done|]. split; [done|]. intros s Hs. by apply not_elem_of_nil in Hs.
  - destruct (decide (Timestamp s = t)) as [Et|Ent].
    + left. exists s, l2. done.
    + right. split; [done|]. split; [done|].
      assert (t <= Timestamp s) by (apply Hhi; left).
      intros x [->|Hx]%elem_of_cons; [lia|].
      unfold wf in Hwf. rewrite <-Htd in Hwf. apply StronglySorted_app_1_r in Hwf.
      apply StronglySorted_cons in Hwf as [HF _]. rewrite Forall_forall in HF.
      specialize (HF x Hx). unfold earlier in HF. lia.
Qed.

Lemma sorted_middle l1 s l2 :
  StronglySorted earlier (l1 ++ s :: l2) <->
  StronglySorted earlier (l1 ++ l2) /\
  (forall x, x ∈ l1 -> Timestamp x < Timestamp s) /\ (forall x, x ∈ l2 -> Timestamp s < Timestamp x).
Proof.
  induction l1 as [|a l1 IH]; cbn.
  - split.
    + intros [HF Hs]%StronglySorted_cons. rewrite Forall_forall in HF. split; [done|].
      split; [|done]. intros x Hx. by apply not_elem_of_nil in Hx.
    + intros (Hs & _ & Hx). constructor; [done|]. by rewrite Forall_forall.
  - split.
    + intros [HF Hs]%StronglySorted_cons. apply IH in Hs as (Hs & Hl & Hr).
      rewrite Forall_forall in HF. split.
      * constructor; [done|]. rewrite Forall_forall. intros x Hx. apply HF.
        rewrite elem_of_app in *. rewrite elem_of_cons. tauto.
      * split; [|done]. intros x [->|Hx]%elem_of_cons; [|by apply Hl].
        apply HF. rewrite elem_of_app, elem_of_cons. tauto.
    + intros ([HF Hs]%StronglySorted_cons & Hl & Hr). rewrite Forall_forall in HF.
      constructor.
      * apply IH. split; [done|]. split; [|done]. intros x Hx. apply Hl. by right.
      * rewrite Forall_forall. intros x [Hx|[->|Hx]%elem_of_cons]%elem_of_app.
        -- apply HF. rewrite elem_of_app. tauto.
        -- apply Hl. left.
        -- apply HF. rewrite elem_of_app. tauto.
Qed.

Lemma earlier_distinct l1 s l2 v :
  StronglySorted earlier (l1 ++ s :: l2) -> mkTS (Timestamp s) v ∉ l1 ++ l2.
Proof.
  intros (_ & Hl & Hr)%sorted_middle [H|H]%elem_of_app; [apply Hl in H|apply Hr in H]; cbn in H; lia.
Qed.

Lemma ts_Add_spec t v ts m : represents ts m -> represents (Add t v ts) (<[t := v]> m).
Proof.
  intros [Hwf Hm]. unfold Add.
  destruct (search_from_split ts t Hwf) as (Hp & Hlo & _).
  destruct (search_from_cases ts t Hwf) as [(s & l2 & Es & <- & Hl1)|(Es & Hl1 & Hgt)];
    set (pos := search_from ts _) in *; set (l1 := take _ _) in *.
  - assert (zget (Samples ts) pos = s) as -> by (rewrite Es, <-Hl1; apply zget_middle).
    rewrite Z.eqb_refl, andb_true_r, (proj2 (Z.ltb_lt _ _)) by (rewrite Es, zlen_app, zlen_cons; pose proof (zlen_nonneg l2); lia).
    assert (zset (Samples ts) pos (mkTS (Timestamp s) v) = l1 ++ mkTS (Timestamp s) v :: l2) as E.
    { unfold zset. rewrite (proj2 (Z.leb_le 0 pos)) by lia. rewrite Es, <-Hl1.
      unfold zlen. rewrite Nat2Z.id. rewrite insert_app_r_alt by lia.
      by rewrite Nat.sub_diag. }
    unfold wf in Hwf. rewrite Es in Hwf. split.
    + unfold wf. cbn [Samples]. rewrite E. apply sorted_middle. by apply sorted_middle in Hwf.
    + cbn [Samples]. rewrite E. intros t' v'. rewrite elem_of_app, elem_of_cons.
      rewrite lookup_insert_Some, <-Hm, Es, elem_of_app, elem_of_cons.
      pose proof (earlier_distinct l1 s l2 v' Hwf) as Hd. rewrite elem_of_app in Hd.
      destruct (decide (t' = Timestamp s)) as [->|Hne].
      * split; [naive_solver|]. intros [[_ ->]|[? _]]; naive_solver.
      * split; [intros [?|[[= ? ?]|?]]; [|congruence|]; right; (split; [congruence|tauto])|].
        intros [[? _]|[_ [?|[<-|?]]]]; [congruence|tauto|done|tauto].
  - assert ((pos <? zlen (Samples ts)) && (Timestamp (zget (Samples ts) pos) =? t) = false) as ->.
    { apply andb_false_iff. destruct (Z.ltb_spec pos (zlen (Samples ts))); [right|by left].
      apply Z.eqb_neq. specialize (Hgt (zget (Samples ts) pos)). intros Heq.
      enough (t < Timestamp (zget (Samples ts) pos)) by lia. apply Hgt.
      apply list_elem_of_lookup. exists 0%nat. rewrite lookup_drop, Nat.add_0_r.
      apply zget_lookup. lia. }
    rewrite slice_insert_eq by done. fold l1. set (l2 := drop _ _) in *. split.
    + apply sorted_middle. rewrite <-Es. split; [done|]. split; [done|]. done.
    + cbn [Samples]. intros t' v'. rewrite elem_of_app, elem_of_cons, lookup_insert_Some, <-Hm, Es, elem_of_app.
      destruct (decide (t' = t)) as [->|Hne]; [|naive_solver].
      assert (mkTS t v' ∉ l1) by (intros Hin%Hlo; cbn in Hin; lia).
      assert (mkTS t v' ∉ l2) by (intros Hin%Hgt; cbn in Hin; lia). naive_solver.
Qed.

(** ** Queries *)

Definition within (from to : Z) (s : TSSample) : Prop := from <= Timestamp s <= to.

#[export] Instance within_dec from to s : Decision (within from to s).
Proof. unfold within. apply _. Defined.

Lemma ts_Range_spec from to count ts :
  wf ts -> Range from to count ts = limit 0 count (filter (within from to) (Samples ts)).
Proof.
  intros Hwf. unfold Range. rewrite scan_limit. f_equal. unfold search_from.
  rewrite (Search_filter earlier (fun s => Timestamp s >=? from)) by
    (done || (intros a b Hab; unfold earlier in Hab; rewrite !Z.geb_le; lia)).
  rewrite (scan_kept_filter _ _ earlier).
  - rewrite list_filter_filter. apply list_filter_iff. intros s. unfold within.
    rewrite Z.geb_le, Z.gtb_ltb, Z.ltb_ge. tauto.
  - by apply StronglySorted_filter.
  - intros a b Hab. unfold earlier in Hab. rewrite !Z.gtb_ltb, !Z.ltb_lt. lia.
Qed.

(** The reference for [Downsample]: [n] consecutive half-open buckets, an
    aggregate for each that holds a sample. *)
Definition bucket (start bucketSize : Z) (ts : TimeSeries) : list TSSample :=
  filter (within start (start + bucketSize - 1)) (Samples ts).

Fixpoint buckets (n : nat) (start bucketSize : Z) (aggType : string) (ts : TimeSeries) : list TSSample :=
  match n with
  | O => []
  | S n =>
      match bucket start bucketSize ts with
      | [] => []
      | b => [mkTS start (aggregate aggType b)]
      end ++ buckets n (start + bucketSize) bucketSize aggType ts
  end.

Lemma downsample_loop_spec n fuel start to bucketSize aggType results ts :
  wf ts -> 0 < bucketSize -> int64_min <= start -> to + bucketSize <= int64_max ->
  to <= start + Z.of_nat n * bucketSize ->
  (n = 0%nat \/ start + (Z.of_nat n - 1) * bucketSize < to) -> (n <= fuel)%nat ->
  downsample_loop fuel start to bucketSize aggType results ts =
    Some (results ++ buckets n start bucketSize aggType ts).
Proof.
  intros Hwf Hb. revert fuel start results.
  induction n as [|n IH]; intros fuel start results Hmin Hmax Hhi Hlo Hf.
  - destruct fuel; cbn [downsample_loop]; rewrite (proj2 (Z.ltb_ge _ _)) by lia; by rewrite app_nil_r.
  - destruct Hlo as [|Hlo]; [done|]. destruct fuel as [|fuel]; [lia|]. cbn [downsample_loop buckets].
    assert (start < to) by nia. rewrite (proj2 (Z.ltb_lt _ _)) by done.
    rewrite !wrap64_id by (unfold in_int64, int64_min, int64_max in *; rewrite ?wrap64_id; unfold in_int64, int64_min, int64_max in *; lia).
    rewrite ts_Range_spec by done. unfold limit. rewrite Z.gtb_ltb. change (0 <? 0) with false. cbn match.
    unfold zdrop. cbn [Z.to_nat drop]. fold (bucket start bucketSize ts).
    rewrite IH; [|lia..| |lia].
    + rewrite (assoc (++)). do 3 f_equal. destruct (bucket start bucketSize ts) as [|s l] eqn:E; cbn; [|done].
      by rewrite app_nil_r.
    + destruct n; [by left|right; lia].
Qed.

(** The series and the map that a list of TS.ADD steps builds. *)
Definition series_of (l : list (Z * float64)) : TimeSeries :=
  fold_left (fun ts p => Add p.1 p.2 ts) l NewTimeSeries.

Definition map_of (l : list (Z * float64)) : gmap Z float64 :=
  fold_left (fun m p => <[p.1 := p.2]> m) l ∅.

Lemma series_of_represents l : represents (series_of l) (map_of l).
Proof.
  unfold series_of, map_of. assert (represents NewTimeSeries ∅) as H0.
  { split; [apply ts_wf_new|]. intros t v. rewrite lookup_empty. cbn. rewrite elem_of_nil. done. }
  revert H0. generalize NewTimeSeries. generalize (∅ : gmap Z float64).
  induction l as [|[t v] l IH]; intros m ts H; [done|]. cbn. by apply IH, ts_Add_spec.
Qed.

(** A time series is a map from time to value.  Folding TS.ADD over any
    list of samples keeps the slice strictly sorted by timestamp and makes it
    represent the map in which the last value of each timestamp wins;
    TS.RANGE then selects exactly the samples with a timestamp in the closed
    interval, in time order, cut at [count] when it is positive. *)
Theorem ts_map_semantics (l : list (Z * float64)) :
  represents (series_of l) (map_of l) /\
  (forall from to count,
    Range from to count (series_of l) = limit 0 count (filter (within from to) (Samples (series_of l)))).
Proof.
  pose proof (series_of_represents l) as H. split; [done|].
  intros. apply ts_Range_spec, H.
Qed.

(** TS.DOWNSAMPLE terminates and is right.  When no bucket bound passes
    the int64 range, one unit of fuel per bucket is enough, and the result is
    one aggregate per non-empty half-open bucket [start, start+size), from
    [from] until a bucket starts at or after [to]. *)
Theorem downsample_terminates l fuel from to bucketSize aggType (n : nat) :
  0 < bucketSize -> int64_min <= from -> to + bucketSize <= int64_max ->
  to <= from + Z.of_nat n * bucketSize -> from + (Z.of_nat n - 1) * bucketSize < to ->
  (n <= fuel)%nat ->
  Downsample fuel from to bucketSize aggType (series_of l) =
    Some (buckets n from bucketSize aggType (series_of l)).
Proof.
  intros Hb Hmin Hmax Hhi Hlo Hf. destruct (series_of_represents l) as [Hwf _]. unfold Downsample.
  rewrite (proj2 (Z.leb_gt _ _)) by lia. cbn [orb].
  destruct (Z.eqb_spec (zlen (Samples (series_of l))) 0) as [E|E].
  - assert (Samples (series_of l) = []) as E0 by (destruct (Samples (series_of l)); [done|zlen_lia]).
    f_equal. symmetry. generalize from. clear -E0. induction n as [|n IH]; intros from; [done|].
    cbn. unfold bucket. rewrite E0. cbn. apply IH.
  - rewrite (downsample_loop_spec n) by (done || lia || by right). done.
Qed.

Lemma downsample_terminates_witness :
  Downsample 2 0 20 10 "sum" (series_of [(1, f_of_Z 1); (11, f_of_Z 2); (12, f_of_Z 3)]) =
    Some (buckets 2 0 10 "sum" (series_of [(1, f_of_Z 1); (11, f_of_Z 2); (12, f_of_Z 3)])) /\
  buckets 2 0 10 "sum" (series_of [(1, f_of_Z 1); (11, f_of_Z 2); (12, f_of_Z 3)]) =
    [mkTS 0 (f_of_Z 1); mkTS 10 (f_of_Z 5)].
Proof.
  split; [|vm_compute; reflexivity].
  apply (downsample_terminates [(1, f_of_Z 1); (11, f_of_Z 2); (12, f_of_Z 3)] 2 0 20 10 "sum" 2);
    unfold int64_min, int64_max; lia.
Defined.

Lemma wrap64_even z : Z.even z = true -> Z.even (wrap64 z) = true.
Proof.
  intros Hz. unfold wrap64. rewrite Z.even_sub.
  assert (Z.even ((z + 2 ^ 63) mod 2 ^ 64) = true) as ->; [|done].
  rewrite Z.mod_eq by lia. rewrite Z.even_sub, Z.even_add, Z.even_mul, Hz. done.
Qed.

Lemma downsample_even_diverges fuel start aggType results ts :
  Z.even start = true -> in_int64 start ->
  downsample_loop fuel start int64_max 2 aggType results ts = None.
Proof.
  revert start results. induction fuel as [|fuel IH]; intros start results He Hr;
    cbn [downsample_loop].
  - rewrite (proj2 (Z.ltb_lt _ _)); [done|]. assert (start <> int64_max) by (intros ->; done).
    unfold in_int64 in Hr. lia.
  - rewrite (proj2 (Z.ltb_lt _ _)).
    2:{ assert (start <> int64_max) by (intros ->; done). unfold in_int64 in Hr. lia. }
    apply IH; [|apply wrap64_range]. apply wrap64_even. by rewrite Z.even_add, He.
Qed.

(** TS.DOWNSAMPLE can hang.  With the largest [to] and buckets of 2 ms
    the next bucket bound wraps around to the negative end, and on a series
    with a sample the loop never ends, whatever the fuel. *)
Theorem downsample_diverges fuel aggType t v :
  Downsample fuel 0 int64_max 2 aggType (series_of [(t, v)]) = None.
Proof.
  unfold Downsample. change (2 <=? 0) with false.
  change (zlen (Samples (series_of [(t, v)])) =? 0) with false. cbn [orb].
  apply downsample_even_diverges; [done|]. unfold in_int64, int64_min, int64_max. lia.
Qed.

(** The last bucket of TS.DOWNSAMPLE is not cut at [to]: with a range
    that is not a multiple of the bucket size, a sample later than [to] is
    aggregated into it. *)
Theorem downsample_past_end :
  Downsample 2 0 11 10 "count" (series_of [(19, fzero)]) = Some [mkTS 10 (f_of_Z 1)] /\
  filter (within 0 11) (Samples (series_of [(19, fzero)])) = [].
Proof. vm_compute. split; reflexivity. Qed.

End TimeSeries.
