(* ===== verification/Json.v ===== *)
(** * JSON documents (internal/store/jsonstore.go)

    A document is the tree [json.Unmarshal] builds; [Get], [Set], [Del],
    [Type], [Keys], [NumIncrBy], [ArrAppend] and [ArrLen] address it by a
    path such as "$.a.b[0]".  Go mutates the parent node in place; no node is
    ever shared (values come fresh from the parser), so writing the changed
    parent back along its path ([write_back]) is the same.  The text syntax of
    JSON (encoding/json) is not modelled. *)
From S2P Require Import Prelude GoLib.

#[local] Set Warnings "-register-all".

Module Json.

Inductive json :=
| JNull
| JBool (b : bool)
| JNum (x : float64)
| JStr (s : string)
| JArr (l : list json)
| JObj (m : gmap string json).

#[export] Instance json_inhabited : Inhabited json := populate JNull.

(** The errors of the package, one constructor per message. *)
Inductive json_error :=
| KeyNotFound (part : string)
| InvalidIndex (part : string)
| IndexRange (idx : Z)
| CannotNavigate
| BadIndex (e : num_error)
| OutOfRange
| CannotSet
| ParentNotContainer
| CannotDelete
| ParentNotObject
| NotObject
| NotNumber
| NotArray.

Definition res (A : Type) : Type := json_error + A.

Definition bind {A B} (x : res A) (f : A -> res B) : res B :=
  match x with inl e => inl e | inr a => f a end.

Notation "'let?' x := a 'in' b" := (bind a (fun x => b))
  (at level 10, x name, b at level 200) : vole_scope.
Open Scope vole_scope.

(** ** Paths *)

(** [string(path[i])]: the conversion of a byte to a string yields the UTF-8
    encoding of the code point with that number. *)
Definition string_of_byte (c : ascii) : string :=
  let n := Z.of_N (N_of_ascii c) in
  if n <? 128 then String c ""
  else String (ascii_of_N (Z.to_N (Z.lor 192 (Z.shiftr n 6))))
         (String (ascii_of_N (Z.to_N (Z.lor 128 (Z.land n 63)))) "").

Definition is_sep (c : ascii) : bool :=
  Ascii.eqb c "." || Ascii.eqb c "[" || Ascii.eqb c "]".

Definition push_part (parts : list string) (current : string) : list string :=
  if String.eqb current "" then parts else parts ++ [current].

Fixpoint parsePath_loop (path : string) (parts : list string) (current : string) : list string :=
  match path with
  | EmptyString => push_part parts current
  | String c path =>
      if is_sep c then parsePath_loop path (push_part parts current) ""
      else parsePath_loop path parts (current +:+ string_of_byte c)
  end.

Definition parsePath (path : string) : list string := parsePath_loop path [] "".

(** [strings.TrimPrefix] *)
Definition TrimPrefix (s prefix : string) : string :=
  if String.prefix prefix s
  then String.substring (String.length prefix) (String.length s - String.length prefix) s else s.

Definition is_root (path : string) : bool :=
  String.eqb path "$" || String.eqb path "." || String.eqb path "".

Definition path_parts (path : string) : list string :=
  parsePath (TrimPrefix (TrimPrefix path "$.") "$").

(** ** Navigation *)

(** The index a part denotes in an array of length [n], for [navigate]. *)
Definition nav_index (part : string) (n : Z) : res Z :=
  match Atoi part with
  | (_, Some _) => inl (InvalidIndex part)
  | (idx, None) =>
      let idx := if idx <? 0 then n + idx else idx in
      if (idx <? 0) || (idx >=? n) then inl (IndexRange idx) else inr idx
  end.

Definition child (current : json) (part : string) : res json :=
  match current with
  | JObj v => match v !! part with None => inl (KeyNotFound part) | Some x => inr x end
  | JArr v => let? idx := nav_index part (zlen v) in inr (zget v idx)
  | _ => inl CannotNavigate
  end.

Fixpoint navigate (current : json) (parts : list string) : res json :=
  match parts with
  | [] => inr current
  | part :: parts => let? x := child current part in navigate x parts
  end.

(** Replacing the node that [navigate] reaches. *)
Definition set_child (current : json) (part : string) (x : json) : res json :=
  match current with
  | JObj v => match v !! part with None => inl (KeyNotFound part) | Some _ => inr (JObj (<[part := x]> v)) end
  | JArr v => let? idx := nav_index part (zlen v) in inr (JArr (zset v idx x))
  | _ => inl CannotNavigate
  end.

Fixpoint write_back (current : json) (parts : list string) (x : json) : res json :=
  match parts with
  | [] => inr x
  | part :: parts =>
      let? c := child current part in
      let? c' := write_back c parts x in
      set_child current part c'
  end.

(** [p[last] = value] on the parent node; [err] is what a scalar gives. *)
Definition assign (err : json_error) (p : json) (last : string) (value : json) : res json :=
  match p with
  | JObj v => inr (JObj (<[last := value]> v))
  | JArr v =>
      match Atoi last with
      | (_, Some e) => inl (BadIndex e)
      | (idx, None) =>
          if (idx <? 0) || (idx >=? zlen v) then inl OutOfRange else inr (JArr (zset v idx value))
      end
  | _ => inl err
  end.

Definition setPath (data : json) (parts : list string) (value : json) : res json :=
  match parts with
  | [] => inr value
  | [part] => assign CannotSet data part value
  | _ =>
      let init := removelast parts in
      let? parent := navigate data init in
      let? parent' := assign ParentNotContainer parent (List.last parts "") value in
      write_back data init parent'
  end.

Definition unassign (err : json_error) (p : json) (last : string) : res json :=
  match p with
  | JObj v => inr (JObj (delete last v))
  | _ => inl err
  end.

Definition delPath (data : json) (parts : list string) : res json :=
  match parts with
  | [] => inr JNull
  | [part] => unassign CannotDelete data part
  | _ =>
      let init := removelast parts in
      let? parent := navigate data init in
      let? parent' := unassign ParentNotObject parent (List.last parts "") in
      write_back data init parent'
  end.

(** ** Operations on a document *)

Definition Get (d : json) (path : string) : res json :=
  if is_root path then inr d else navigate d (path_parts path).

Definition Set_ (d : json) (path : string) (value : json) : res json :=
  if is_root path then inr value else setPath d (path_parts path) value.

Definition Del (d : json) (path : string) : res json :=
  if is_root path then inr JNull else delPath d (path_parts path).

Definition Type_ (d : json) (path : string) : string :=
  match Get d path with
  | inl _ => "null"
  | inr JNull => "null"
  | inr (JObj _) => "object"
  | inr (JArr _) => "array"
  | inr (JStr _) => "string"
  | inr (JNum _) => "number"
  | inr (JBool _) => "boolean"
  end.

Definition Keys (d : json) (path : string) : res (list string) :=
  let? val := Get d path in
  match val with
  | JObj obj => inr (sort_strings (map_to_list obj).*1)
  | _ => inl NotObject
  end.

Definition NumIncrBy (d : json) (path : string) (delta : float64) : res (float64 * json) :=
  let? val := Get d path in
  match val with
  | JNum num =>
      let result := fadd num delta in
      let? d' := Set_ d path (JNum result) in inr (result, d')
  | _ => inl NotNumber
  end.

Definition ArrAppend (d : json) (path : string) (values : list json) : res (Z * json) :=
  let? val := Get d path in
  match val with
  | JArr arr =>
      let arr := arr ++ values in
      let? d' := Set_ d path (JArr arr) in inr (zlen arr, d')
  | _ => inl NotArray
  end.

Definition ArrLen (d : json) (path : string) : res Z :=
  let? val := Get d path in
  match val with
  | JArr arr => inr (zlen arr)
  | _ => inl NotArray
  end.

(** ** Reading back what was written *)

Lemma nav_index_range part n i : nav_index part n = inr i -> 0 <= i < n.
Proof.
  unfold nav_index. destruct (Atoi part) as [idx [e|]]; [done|]. rewrite Z.geb_leb.
  set (k := if idx <? 0 then _ else _). destruct ((k <? 0) || (n <=? k)) eqn:E; [done|].
  intros [= <-]. apply orb_false_iff in E. lia.
Qed.

Lemma child_set_child d part x d' : set_child d part x = inr d' -> child d' part = inr x.
Proof.
  destruct d as [| | | |l|m]; try done; cbn.
  - destruct (nav_index part (zlen l)) as [e|i] eqn:Ei; [done|]. cbn. intros [= <-]. cbn.
    rewrite zlen_zset, Ei. cbn. by rewrite zget_zset_eq by (by eapply nav_index_range).
  - destruct (m !! part); [|done]. intros [= <-]. cbn. by rewrite lookup_insert_eq.
Qed.

Lemma set_child_total d part c x : child d part = inr c -> exists d', set_child d part x = inr d'.
Proof.
  destruct d as [| | | |l|m]; try done; cbn.
  - destruct (nav_index part (zlen l)); [done|]. eauto.
  - destruct (m !! part); [|done]. eauto.
Qed.

Lemma navigate_write_back d parts x d' : write_back d parts x = inr d' -> navigate d' parts = inr x.
Proof.
  revert d d'. induction parts as [|part parts IH]; intros d d'; cbn; [congruence|].
  destruct (child d part) as [|c]; [done|]. cbn.
  destruct (write_back c parts x) as [|c'] eqn:Ec; [done|]. cbn. intros Hs.
  rewrite (child_set_child _ _ _ _ Hs). cbn. by eapply IH.
Qed.

Lemma write_back_total d parts y x : navigate d parts = inr y -> exists d', write_back d parts x = inr d'.
Proof.
  revert d. induction parts as [|part parts IH]; intros d; cbn; [eauto|].
  destruct (child d part) as [|c] eqn:Ec; [done|]. cbn. intros [c' ->]%IH. cbn.
  by eapply set_child_total.
Qed.

Lemma navigate_app d p q : navigate d (p ++ q) = bind (navigate d p) (fun c => navigate c q).
Proof.
  revert d. induction p as [|a p IH]; intros d; [done|]. cbn.
  destruct (child d a); [done|]. cbn. apply IH.
Qed.

Lemma child_assign e p last v p' : assign e p last v = inr p' -> child p' last = inr v.
Proof.
  destruct p as [| | | |l|m]; try done; cbn.
  - destruct (Atoi last) as [idx [err|]] eqn:Ea; [done|].
    destruct ((idx <? 0) || (idx >=? zlen l)) eqn:E; [done|]. intros [= <-]. cbn.
    unfold nav_index. rewrite Ea, zlen_zset.
    apply orb_false_iff in E as [E1 E2]. rewrite E1, E1, E2. cbn.
    rewrite Z.geb_leb in E2. by rewrite zget_zset_eq by lia.
  - intros [= <-]. cbn. by rewrite lookup_insert_eq.
Qed.

Lemma setPath_inv d parts v d' :
  setPath d parts v = inr d' ->
  (parts = [] /\ d' = v) \/
  exists init last e par par', parts = init ++ [last] /\ navigate d init = inr par /\
    assign e par last v = inr par' /\ write_back d init par' = inr d'.
Proof.
  intros H. destruct parts as [|a [|b parts]]; [left; by simplify_eq/=|right..].
  - exists [], a, CannotSet, d, d'. done.
  - unfold setPath in H. set (ps := a :: b :: parts) in *.
    assert (ps = removelast ps ++ [List.last ps ""]) as E by (by apply app_removelast_last).
    destruct (navigate d (removelast ps)) as [|par] eqn:En; [done|]. cbn [bind] in H.
    destruct (assign ParentNotContainer par (List.last ps "") v) as [|par'] eqn:Ea; [done|].
    exists (removelast ps), (List.last ps ""), ParentNotContainer, par, par'. done.
Qed.

Lemma navigate_setPath d parts v d' : setPath d parts v = inr d' -> navigate d' parts = inr v.
Proof.
  intros [[-> ->]|(init & last & e & par & par' & -> & Hn & Ha & Hw)]%setPath_inv; [done|].
  rewrite navigate_app, (navigate_write_back _ _ _ _ Hw). cbn.
  by rewrite (child_assign _ _ _ _ _ Ha).
Qed.

(** ** Writes leave other paths alone *)

(** In [d], the paths [p] and [q] part ways at some node. *)
Inductive apart : json -> list string -> list string -> Prop :=
| apart_key m k k' p q : k <> k' -> apart (JObj m) (k :: p) (k' :: q)
| apart_idx l k k' i j p q :
    nav_index k (zlen l) = inr i -> nav_index k' (zlen l) = inr j -> i <> j ->
    apart (JArr l) (k :: p) (k' :: q)
| apart_key_down m k c p q : m !! k = Some c -> apart c p q -> apart (JObj m) (k :: p) (k :: q)
| apart_idx_down l k k' i p q :
    nav_index k (zlen l) = inr i -> nav_index k' (zlen l) = inr i -> apart (zget l i) p q ->
    apart (JArr l) (k :: p) (k' :: q).

Lemma nav_index_assign n k i idx :
  nav_index k n = inr i -> Atoi k = (idx, None) -> (idx <? 0) || (idx >=? n) = false -> idx = i.
Proof.
  unfold nav_index. intros H Ha Hr. rewrite Ha in H.
  apply orb_false_iff in Hr as [H1 H2]. rewrite H1, H1, H2 in H. by simplify_eq/=.
Qed.

Lemma assign_frame e d k v d' q : assign e d k v = inr d' -> apart d [k] q -> navigate d' q = navigate d q.
Proof.
  intros Ha Hq. inversion Hq; subst; cbn in Ha.
  - simplify_eq. cbn. by rewrite lookup_insert_ne.
  - destruct (Atoi k) as [idx [err|]] eqn:Ek; [done|].
    destruct ((idx <? 0) || (idx >=? zlen l)) eqn:Er; [done|]. simplify_eq.
    assert (idx = i) as -> by (by eapply nav_index_assign). cbn. rewrite zlen_zset.
    match goal with H : nav_index k' _ = _ |- _ => rewrite H end. cbn. by rewrite zget_zset_ne.
  - match goal with H : apart _ [] _ |- _ => inversion H end.
  - match goal with H : apart _ [] _ |- _ => inversion H end.
Qed.

Lemma set_child_obj m k c p x d' :
  m !! k = Some c -> write_back (JObj m) (k :: p) x = inr d' ->
  exists c', write_back c p x = inr c' /\ d' = JObj (<[k := c']> m).
Proof.
  intros Hk. cbn. rewrite Hk. cbn. destruct (write_back c p x) as [|c']; [done|]. cbn. intros [= <-]. eauto.
Qed.

Lemma set_child_arr l k i p x d' :
  nav_index k (zlen l) = inr i -> write_back (JArr l) (k :: p) x = inr d' ->
  exists c', write_back (zget l i) p x = inr c' /\ d' = JArr (zset l i c').
Proof.
  intros Hi. cbn. rewrite Hi. cbn. destruct (write_back _ p x) as [|c']; [done|]. cbn. intros [= <-]. eauto.
Qed.

Lemma write_frame init last e v d par par' d' q :
  navigate d init = inr par -> assign e par last v = inr par' -> write_back d init par' = inr d' ->
  apart d (init ++ [last]) q -> navigate d' q = navigate d q.
Proof.
  revert d d' q. induction init as [|k init IH]; intros d d' q Hn Ha Hw Hq.
  { simplify_eq/=. by eapply assign_frame. }
  destruct (child d k) as [|c] eqn:Hc; [cbn in Hn; by rewrite Hc in Hn|].
  assert (navigate c init = inr par) as Hn' by (cbn in Hn; by rewrite Hc in Hn).
  inversion Hq as [m k1 k' p1 q1 Hne|l k1 k' i j p1 q1 Hi Hj Hne|m k1 c1 p1 q1 Hk Hq1|l k1 k' i p1 q1 Hi Hj Hq1];
    subst; cbn in Hc.
  - destruct (m !! k) as [c1|] eqn:Hk; [|done].
    destruct (set_child_obj _ _ _ _ _ _ Hk Hw) as (c' & _ & ->). cbn. by rewrite lookup_insert_ne.
  - destruct (set_child_arr _ _ _ _ _ _ Hi Hw) as (c' & _ & ->). cbn.
    rewrite zlen_zset, Hj. cbn. by rewrite zget_zset_ne.
  - rewrite Hk in Hc. simplify_eq. destruct (set_child_obj _ _ _ _ _ _ Hk Hw) as (c' & Hw' & ->).
    cbn. rewrite lookup_insert_eq, Hk. cbn. by eapply IH.
  - rewrite Hi in Hc. simplify_eq/=. destruct (set_child_arr _ _ _ _ _ _ Hi Hw) as (c' & Hw' & ->).
    cbn. rewrite zlen_zset, Hj. cbn. rewrite zget_zset_eq by (by eapply nav_index_range). by eapply IH.
Qed.

Lemma Get_Set d path v d' : Set_ d path v = inr d' -> Get d' path = inr v.
Proof.
  unfold Set_, Get. destruct (is_root path); [by intros [= ->]|]. by intros Hs%navigate_setPath.
Qed.

(** JSON.SET then JSON.GET.  A successful write at any path is read back
    at the same path, and every path that parts from it at some node (another
    key of the same object, another element of the same array) reads what it
    read before. *)
Theorem json_set_get d path v d' :
  Set_ d path v = inr d' ->
  Get d' path = inr v /\
  (is_root path = false ->
   forall q, is_root q = false -> apart d (path_parts path) (path_parts q) -> Get d' q = Get d q).
Proof.
  unfold Set_, Get. destruct (is_root path) eqn:Hr.
  { intros [= ->]. by rewrite ?Hr. }
  intros Hs. split; [by apply navigate_setPath in Hs|].
  intros _ q -> Hq.
  apply setPath_inv in Hs as [[Hp ->]|(init & last & e & par & par' & Hp & Hn & Ha & Hw)].
  - rewrite Hp in Hq. inversion Hq.
  - rewrite Hp in Hq. by eapply write_frame.
Qed.

Definition doc : json :=
  JObj (<["a" := JArr [JNum (f_of_Z 1); JStr "x"]]> (<["b" := JBool true]> ∅)).

Lemma json_set_get_witness :
  exists d', Set_ doc "$.a[1]" JNull = inr d' /\ Get d' "$.a[1]" = inr JNull /\
             Get d' "$.a[0]" = Get doc "$.a[0]" /\ Get doc "$.a[0]" = inr (JNum (f_of_Z 1)).
Proof.
  eexists. split; [vm_compute; reflexivity|].
  split; [|split; [|vm_compute; reflexivity]].
  - eapply (json_set_get doc "$.a[1]" JNull); vm_compute; reflexivity.
  - eapply (json_set_get doc "$.a[1]" JNull); [vm_compute; reflexivity..|].
    eapply apart_key_down; [vm_compute; reflexivity|].
    eapply (apart_idx _ "1" "0" 1 0); [vm_compute; reflexivity..|discriminate].
Defined.

(** JSON.NUMINCRBY and JSON.ARRAPPEND.  A successful increment stores
    the floating-point sum at the path, a successful append stores the array
    extended at its end and returns its new length. *)
Theorem json_update_ops d path :
  (forall delta r d', NumIncrBy d path delta = inr (r, d') ->
     exists x, Get d path = inr (JNum x) /\ r = fadd x delta /\ Get d' path = inr (JNum r)) /\
  (forall vs n d', ArrAppend d path vs = inr (n, d') ->
     exists l, Get d path = inr (JArr l) /\ Get d' path = inr (JArr (l ++ vs)) /\
       n = zlen l + zlen vs /\ ArrLen d' path = inr n).
Proof.
  assert (forall v d', Set_ d path v = inr d' -> Get d' path = inr v) as Hset.
  { intros v d'. unfold Set_, Get. destruct (is_root path); [congruence|]. apply navigate_setPath. }
  split.
  - intros delta r d'. unfold NumIncrBy. destruct (Get d path) as [|[]]; try done. cbn.
    destruct (Set_ _ _ _) as [|d1] eqn:Es; [done|]. intros [= <- <-]. eexists. split; [done|].
    split; [done|]. by apply Hset.
  - intros vs n d'. unfold ArrAppend, ArrLen. destruct (Get d path) as [|[]]; try done. cbn.
    destruct (Set_ _ _ _) as [|d1] eqn:Es; [done|]. intros [= <- <-]. eexists. split; [done|].
    rewrite (Hset _ _ Es). cbn. by rewrite zlen_app.
Qed.

(** Negative indexes are read but not written.  [navigate] counts a
    negative index from the end, the last part of a written path does not, so
    JSON.NUMINCRBY on a path JSON.GET accepts fails. *)
Theorem json_negative_index :
  let d := JObj (<["a" := JArr [JNum (f_of_Z 1)]]> ∅) in
  Get d "$.a[-1]" = inr (JNum (f_of_Z 1)) /\
  NumIncrBy d "$.a[-1]" (f_of_Z 1) = inl OutOfRange.
Proof. vm_compute. split; reflexivity. Qed.

(** Keys outside ASCII cannot be addressed.  [parsePath] converts the
    path byte by byte with [string(path[i])], which re-encodes a byte above
    127 as two: the part it looks up is never the key that was written, so a
    member the document has is not found. *)
Theorem json_nonascii_key :
  let k := String "195"%char (String "169"%char "") in
  let d := JObj (<[k := JNull]> ∅) in
  Keys d "$" = inr [k] /\
  exists part, Get d ("$." +:+ k) = inl (KeyNotFound part) /\ part <> k.
Proof.
  vm_compute. split; [reflexivity|]. eexists. split; [reflexivity|discriminate].
Qed.

End Json.
