(* ===== verification/Glob.v ===== *)
(** * Glob matching ([MatchGlob] and [matchBracket] of internal/store/store.go)

    The matcher behind KEYS, SCAN, HSEARCH and PSUBSCRIBE, translated loop by
    loop, and its specification: a parser from patterns to tokens, and the
    language of a token list as an inductive relation.  [glob_correct] shows
    that the matcher accepts exactly that language, and that a malformed
    pattern (an open bracket, a trailing backslash) matches nothing. *)
From S2P Require Import Prelude.

Module Glob.

Definition byte_le (a b : ascii) : bool := (N_of_ascii a <=? N_of_ascii b)%N.

(** ** The matcher *)

(** The loop of [matchBracket] over the rest of the pattern, [first] telling
    whether the index is 0; [None]: no closing bracket. *)
Fixpoint bracket_loop (first : bool) (p : list ascii) (ch : ascii) (matched : bool)
    : option (list ascii * bool) :=
  match p with
  | [] => None
  | c :: p1 =>
      if Ascii.eqb c "]" && negb first then Some (p1, matched)
      else
        match p1 with
        | d :: p2 =>
            if Ascii.eqb c "\" then bracket_loop false p2 ch (matched || Ascii.eqb d ch)
            else
              match p2 with
              | hi :: p3 =>
                  if Ascii.eqb d "-"
                  then bracket_loop false p3 ch (matched || (byte_le c ch && byte_le ch hi))
                  else bracket_loop false p1 ch (matched || Ascii.eqb c ch)
              | [] => bracket_loop false p1 ch (matched || Ascii.eqb c ch)
              end
        | [] => bracket_loop false p1 ch (matched || Ascii.eqb c ch)
        end
  end.

(** The leading "^" or "!" of a bracket. *)
Definition bracket_negate (p : list ascii) : bool * list ascii :=
  match p with
  | c :: p1 => if Ascii.eqb c "^" || Ascii.eqb c "!" then (true, p1) else (false, p)
  | [] => (false, p)
  end.

Definition matchBracket (p : list ascii) (ch : ascii) : list ascii * bool :=
  let '(negate, p) := bracket_negate p in
  match bracket_loop true p ch false with
  | None => ([], false)
  | Some (rest, matched) =>
      let matched := if negate then negb matched else matched in
      if matched then (rest, true) else ([], false)
  end.

Fixpoint skip_stars (p : list ascii) : list ascii :=
  match p with
  | c :: p1 => if Ascii.eqb c "*" then skip_stars p1 else p
  | [] => []
  end.

(** Every turn of the loop, and the recursive calls, shorten the pattern:
    its length is enough fuel. *)
Fixpoint match_loop (fuel : nat) (p s : list ascii) : bool :=
  match p with
  | [] => match s with [] => true | _ => false end
  | c :: p1 =>
      match fuel with
      | O => false
      | S fuel =>
          if Ascii.eqb c "*" then
            match skip_stars p with
            | [] => true
            | p2 => existsb (fun i => match_loop fuel p2 (drop i s)) (seq 0 (S (length s)))
            end
          else if Ascii.eqb c "?" then
            match s with [] => false | _ :: s1 => match_loop fuel p1 s1 end
          else if Ascii.eqb c "[" then
            match s with
            | [] => false
            | ch :: s1 =>
                let '(p2, ok) := matchBracket p1 ch in
                if ok then match_loop fuel p2 s1 else false
            end
          else if Ascii.eqb c "\" then
            match p1, s with
            | d :: p2, ch :: s1 => if Ascii.eqb d ch then match_loop fuel p2 s1 else false
            | _, _ => false
            end
          else
            match s with
            | [] => false
            | ch :: s1 => if Ascii.eqb c ch then match_loop fuel p1 s1 else false
            end
      end
  end.

Definition MatchGlob (pattern str : string) : bool :=
  let p := list_ascii_of_string pattern in
  match_loop (length p) p (list_ascii_of_string str).

(** ** The language of patterns *)

Inductive item := IChar (c : ascii) | IRange (lo hi : ascii).

Inductive token := Star | Any | Lit (c : ascii) | Set_ (negate : bool) (items : list item).

Definition item_mem (ch : ascii) (it : item) : bool :=
  match it with
  | IChar c => Ascii.eqb c ch
  | IRange lo hi => byte_le lo ch && byte_le ch hi
  end.

Definition set_mem (negate : bool) (items : list item) (ch : ascii) : bool :=
  xorb negate (existsb (item_mem ch) items).

Inductive glob_match : list token -> list ascii -> Prop :=
| gm_nil : glob_match [] []
| gm_star ts s1 s2 : glob_match ts s2 -> glob_match (Star :: ts) (s1 ++ s2)
| gm_any ts c s : glob_match ts s -> glob_match (Any :: ts) (c :: s)
| gm_lit ts c s : glob_match ts s -> glob_match (Lit c :: ts) (c :: s)
| gm_set ts neg its c s :
    set_mem neg its c = true -> glob_match ts s -> glob_match (Set_ neg its :: ts) (c :: s).

(** The members of a bracket up to the closing one, and what follows. *)
Fixpoint parse_items (first : bool) (p : list ascii) : option (list item * list ascii) :=
  let cons_item it r := match r with Some (its, rest) => Some (it :: its, rest) | None => None end in
  match p with
  | [] => None
  | c :: p1 =>
      if Ascii.eqb c "]" && negb first then Some ([], p1)
      else
        match p1 with
        | d :: p2 =>
            if Ascii.eqb c "\" then cons_item (IChar d) (parse_items false p2)
            else
              match p2 with
              | hi :: p3 =>
                  if Ascii.eqb d "-" then cons_item (IRange c hi) (parse_items false p3)
                  else cons_item (IChar c) (parse_items false p1)
              | [] => cons_item (IChar c) (parse_items false p1)
              end
        | [] => cons_item (IChar c) (parse_items false p1)
        end
  end.

Definition parse_bracket (p : list ascii) : option (token * list ascii) :=
  let '(negate, p) := bracket_negate p in
  match parse_items true p with
  | None => None
  | Some (its, rest) => Some (Set_ negate its, rest)
  end.

Fixpoint parse (fuel : nat) (p : list ascii) : option (list token) :=
  match p with
  | [] => Some []
  | c :: p1 =>
      match fuel with
      | O => None
      | S fuel =>
          if Ascii.eqb c "*" then cons Star <$> parse fuel p1
          else if Ascii.eqb c "?" then cons Any <$> parse fuel p1
          else if Ascii.eqb c "[" then
            match parse_bracket p1 with
            | None => None
            | Some (t, rest) => cons t <$> parse fuel rest
            end
          else if Ascii.eqb c "\" then
            match p1 with
            | d :: p2 => cons (Lit d) <$> parse fuel p2
            | [] => None
            end
          else cons (Lit c) <$> parse fuel p1
      end
  end.

Definition tokens (pattern : string) : option (list token) :=
  let p := list_ascii_of_string pattern in parse (length p) p.

(** ** Brackets *)

Lemma bracket_loop_items first p ch matched :
  bracket_loop first p ch matched =
    match parse_items first p with
    | None => None
    | Some (its, rest) => Some (rest, matched || existsb (item_mem ch) its)
    end.
Proof.
  revert first matched.
  induction p as [p IH] using (induction_ltof1 _ (@length ascii)); unfold ltof in IH.
  intros first matched. destruct p as [|c p1]; [done|]. cbn.
  destruct (Ascii.eqb c "]" && negb first); [by rewrite orb_false_r|].
  destruct p1 as [|d p2]; [done|].
  destruct (Ascii.eqb c "\").
  { rewrite IH by (cbn; lia). destruct (parse_items false p2) as [[its rest]|]; [|done].
    cbn. by rewrite orb_assoc. }
  destruct p2 as [|hi p3]; [|destruct (Ascii.eqb d "-")].
  - rewrite IH by (cbn; lia). destruct (parse_items false [d]) as [[its rest]|]; [|done].
    cbn. by rewrite orb_assoc.
  - rewrite IH by (cbn; lia). destruct (parse_items false p3) as [[its rest]|]; [|done].
    cbn. by rewrite orb_assoc.
  - rewrite IH by (cbn; lia). destruct (parse_items false (d :: hi :: p3)) as [[its rest]|]; [|done].
    cbn. by rewrite orb_assoc.
Qed.

Lemma matchBracket_spec p ch :
  matchBracket p ch =
    match parse_bracket p with
    | Some (Set_ neg its, rest) => if set_mem neg its ch then (rest, true) else ([], false)
    | _ => ([], false)
    end.
Proof.
  unfold matchBracket, parse_bracket. destruct (bracket_negate p) as [neg q].
  rewrite bracket_loop_items. destruct (parse_items true q) as [[its rest]|]; [|done].
  cbn. unfold set_mem. by destruct neg, (existsb _ _).
Qed.

Lemma parse_items_length first p its rest : parse_items first p = Some (its, rest) -> (length rest < length p)%nat.
Proof.
  revert first its. induction p as [p IH] using (induction_ltof1 _ (@length ascii)); unfold ltof in IH.
  intros first its. destruct p as [|c p1]; [done|]. cbn.
  destruct (Ascii.eqb c "]" && negb first); [intros [= _ <-]; lia|].
  assert (forall q it, (length q < S (length p1))%nat ->
    match parse_items false q with Some (its, rest) => Some (it :: its, rest) | None => None end
      = Some (its, rest) -> (length rest < S (length p1))%nat) as Hstep.
  { intros q it Hq. destruct (parse_items false q) as [[its' rest']|] eqn:E; [|done].
    intros [= _ <-]. apply IH in E; [lia|]. cbn. lia. }
  destruct p1 as [|d p2]; [done|]. destruct (Ascii.eqb c "\"); [apply Hstep; cbn; lia|].
  destruct p2 as [|hi p3]; [apply Hstep; cbn; lia|].
  destruct (Ascii.eqb d "-"); apply Hstep; cbn; lia.
Qed.

Lemma parse_bracket_length p t rest : parse_bracket p = Some (t, rest) -> (length rest < length p)%nat.
Proof.
  unfold parse_bracket. destruct (bracket_negate p) as [neg q] eqn:E.
  assert (length q <= length p)%nat.
  { unfold bracket_negate in E. destruct p as [|c p1]; [by simplify_eq|]. case_match; simplify_eq/=; lia. }
  destruct (parse_items true q) as [[its r]|] eqn:Ei; [|done]. intros [= _ <-].
  apply parse_items_length in Ei. lia.
Qed.

(** ** Fuel *)

Lemma parse_fuel f1 f2 p : (length p <= f1)%nat -> (length p <= f2)%nat -> parse f1 p = parse f2 p.
Proof.
  revert f2 p. induction f1 as [|f1 IH]; intros f2 p H1 H2.
  { destruct p; [by destruct f2|cbn in H1; lia]. }
  destruct p as [|c p1]; [by destruct f2|]. destruct f2 as [|f2]; [cbn in H2; lia|]. cbn in *.
  rewrite (IH f2 p1) by lia.
  destruct (Ascii.eqb c "*"); [done|]. destruct (Ascii.eqb c "?"); [done|].
  destruct (Ascii.eqb c "[").
  { destruct (parse_bracket p1) as [[t rest]|] eqn:E; [|done].
    apply parse_bracket_length in E. by rewrite (IH f2 rest) by lia. }
  destruct (Ascii.eqb c "\"); [|done]. destruct p1 as [|d p2]; [done|]. cbn in *.
  by rewrite (IH f2 p2) by lia.
Qed.

Lemma skip_stars_length p : (length (skip_stars p) <= length p)%nat.
Proof. induction p as [|c p IH]; cbn; [done|]. case_match; cbn; lia. Qed.

Lemma parse_stars fuel p :
  (length p <= fuel)%nat ->
  exists k, parse fuel p = (app (replicate k Star)) <$> parse fuel (skip_stars p).
Proof.
  revert fuel. induction p as [|c p IH]; intros fuel Hf.
  { exists 0%nat. cbn. by destruct fuel. }
  cbn [skip_stars]. destruct (Ascii.eqb c "*") eqn:Ec; [|exists 0%nat; by rewrite option_fmap_id].
  destruct fuel as [|fuel]; [cbn in Hf; lia|]. cbn in Hf. destruct (IH fuel) as [k Hk]; [lia|].
  exists (S k). pose proof (skip_stars_length p).
  rewrite (parse_fuel (S fuel) fuel (skip_stars p)) by lia.
  cbn [parse]. rewrite Ec, Hk. by destruct (parse fuel (skip_stars p)).
Qed.

Lemma glob_match_stars k ts s :
  glob_match (replicate (S k) Star ++ ts) s <-> exists i, (i <= length s)%nat /\ glob_match ts (drop i s).
Proof.
  revert s. induction k as [|k IH]; intros s.
  - cbn. split.
    + inversion 1 as [|ts' s1 s2 Hm| | |]; subst. exists (length s1). rewrite length_app.
      split; [lia|]. by rewrite drop_app_length.
    + intros (i & Hi & Hm). rewrite <-(take_drop i s). by constructor.
  - change (replicate (S (S k)) Star ++ ts) with (Star :: (replicate (S k) Star ++ ts)). split.
    + inversion 1 as [|ts' s1 s2 Hm| | |]; subst. apply IH in Hm as (i & Hi & Hm).
      exists (length s1 + i)%nat. rewrite length_app. split; [lia|].
      by rewrite <-drop_drop, drop_app_length.
    + intros (i & Hi & Hm). rewrite <-(take_drop i s). constructor. apply IH.
      exists 0%nat. split; [lia|]. by rewrite drop_0.
Qed.

(** ** Correctness *)

Lemma match_tokens_cons t ts s :
  match t with
  | Star => True
  | Any => glob_match (t :: ts) s <-> exists c s1, s = c :: s1 /\ glob_match ts s1
  | Lit d => glob_match (t :: ts) s <-> exists s1, s = d :: s1 /\ glob_match ts s1
  | Set_ neg its =>
      glob_match (t :: ts) s <-> exists c s1, s = c :: s1 /\ set_mem neg its c = true /\ glob_match ts s1
  end.
Proof.
  destruct t as [| |d|neg its]; [done|..]; (split; [inversion 1; subst; eauto 10|]).
  - intros (c & s1 & -> & ?). by constructor.
  - intros (s1 & -> & ?). by constructor.
  - intros (c & s1 & -> & ? & ?). by constructor.
Qed.

Definition in_language (fuel : nat) (p s : list ascii) : Prop :=
  exists ts, parse fuel p = Some ts /\ glob_match ts s.

Lemma in_language_cons f p q t s :
  parse f p = cons t <$> parse f q ->
  in_language f p s <-> exists ts, parse f q = Some ts /\ glob_match (t :: ts) s.
Proof.
  intros E. unfold in_language. rewrite E. destruct (parse f q) as [ts|]; cbn; naive_solver.
Qed.

(** The star case, given the matcher on the rest of the pattern. *)
Lemma match_star fuel p s :
  (S (length p) <= S fuel)%nat ->
  (forall q s', (length q <= fuel)%nat -> match_loop fuel q s' = true <-> in_language fuel q s') ->
  match skip_stars p with
  | [] => true
  | p2 => existsb (fun i => match_loop fuel p2 (drop i s)) (seq 0 (S (length s)))
  end = true <->
  exists ts, parse fuel p = Some ts /\ glob_match (Star :: ts) s.
Proof.
  intros Hf IH. destruct (parse_stars fuel p) as [k Hk]; [lia|].
  pose proof (skip_stars_length p) as Hl.
  assert ((exists ts, parse fuel p = Some ts /\ glob_match (Star :: ts) s) <->
          exists ts, parse fuel (skip_stars p) = Some ts /\ glob_match (replicate (S k) Star ++ ts) s) as ->.
  { rewrite Hk. destruct (parse fuel (skip_stars p)) as [ts|]; cbn; naive_solver. }
  setoid_rewrite glob_match_stars.
  destruct (skip_stars p) as [|c q] eqn:E.
  - split; [|done]. intros _. exists []. split; [by destruct fuel|].
    exists (length s). split; [done|]. rewrite drop_all. constructor.
  - rewrite existsb_exists. split.
    + intros (i & Hi & Hm). apply in_seq in Hi. apply IH in Hm as (ts & Hp & Hm); [|lia].
      exists ts. split; [done|]. exists i. split; [lia|done].
    + intros (ts & Hp & i & Hi & Hm). exists i. split; [apply in_seq; lia|].
      apply IH; [lia|]. by exists ts.
Qed.

Lemma match_loop_nil fuel s : match_loop fuel [] s = true <-> in_language fuel [] s.
Proof.
  unfold in_language. split.
  - intros H. exists []. destruct s; [|by destruct fuel]. by destruct fuel; split; constructor.
  - intros (ts & Hp & Hm). destruct fuel; simplify_eq/=; by inversion Hm.
Qed.

(** A token that consumes one byte, then the rest of the pattern. *)
Lemma match_one f fuel p q t (b : ascii -> bool) s :
  parse (S fuel) p = cons t <$> parse fuel q -> (length q <= fuel)%nat ->
  (forall ts s, glob_match (t :: ts) s <-> exists c s1, s = c :: s1 /\ b c = true /\ glob_match ts s1) ->
  (forall q s', (length q <= fuel)%nat -> match_loop f q s' = true <-> in_language fuel q s') ->
  (match s with [] => false | ch :: s1 => if b ch then match_loop f q s1 else false end) = true <->
  in_language (S fuel) p s.
Proof.
  intros Hp Hq Ht IH. unfold in_language at 1. rewrite Hp.
  assert ((exists ts, cons t <$> parse fuel q = Some ts /\ glob_match ts s) <->
          exists ts, parse fuel q = Some ts /\ glob_match (t :: ts) s) as ->.
  { destruct (parse fuel q); cbn; naive_solver. }
  setoid_rewrite Ht. destruct s as [|ch s1].
  - split; [done|]. by intros (ts & _ & c & s1 & ? & _).
  - destruct (b ch) eqn:Eb.
    + rewrite IH by done. unfold in_language. split; [naive_solver|].
      intros (ts & ? & c & s2 & [= <- <-] & _ & ?). eauto.
    + split; [done|]. intros (ts & _ & c & s2 & [= <- <-] & ? & _). congruence.
Qed.

Lemma match_loop_spec fuel p s :
  (length p <= fuel)%nat -> match_loop fuel p s = true <-> in_language fuel p s.
Proof.
  revert p s. induction fuel as [|fuel IH]; intros p s Hf;
    (destruct p as [|c p1]; [apply match_loop_nil|]); [cbn in Hf; lia|].
  cbn [length] in Hf. cbn [match_loop].
  destruct (Ascii.eqb c "*") eqn:E1.
  { cbn [skip_stars]. rewrite E1. rewrite match_star by (done || lia).
    unfold in_language. cbn [parse]. rewrite E1. destruct (parse fuel p1); cbn; naive_solver. }
  destruct (Ascii.eqb c "?") eqn:E2.
  { pose proof (match_one fuel fuel (c :: p1) p1 Any (fun _ => true) s) as H. cbn iota in H.
    apply H; [cbn [parse]; by rewrite E1, E2|lia| |done].
    intros ts s'. rewrite (match_tokens_cons Any). naive_solver. }
  destruct (Ascii.eqb c "[") eqn:E3.
  { assert (forall ch, matchBracket p1 ch = match parse_bracket p1 with
      | Some (Set_ neg its, rest) => if set_mem neg its ch then (rest, true) else ([], false)
      | _ => ([], false) end) as Hb by (intros; apply matchBracket_spec).
    destruct (parse_bracket p1) as [[t rest]|] eqn:Ep.
    - assert (exists neg its, t = Set_ neg its) as (neg & its & ->).
      { unfold parse_bracket in Ep. repeat case_match; simplify_eq; eauto. }
      pose proof (parse_bracket_length _ _ _ Ep).
      pose proof (match_one fuel fuel (c :: p1) rest (Set_ neg its) (set_mem neg its) s) as H'.
      rewrite <-H'; [|cbn [parse]; by rewrite E1, E2, E3, Ep|lia| |done].
      + destruct s as [|ch s1]; [done|]. rewrite Hb. by destruct (set_mem neg its ch).
      + intros ts s'. rewrite (match_tokens_cons (Set_ neg its)). done.
    - unfold in_language. cbn [parse]. rewrite E1, E2, E3, Ep.
      split; [|naive_solver]. destruct s as [|ch s1]; [done|]. by rewrite Hb. }
  destruct (Ascii.eqb c "\") eqn:E4.
  { destruct p1 as [|d p2].
    - unfold in_language. cbn [parse]. rewrite E1, E2, E3, E4. naive_solver.
    - cbn [length] in Hf. apply (match_one fuel fuel (c :: d :: p2) p2 (Lit d) (Ascii.eqb d)); [|lia| |done].
      + cbn [parse]. by rewrite E1, E2, E3, E4.
      + intros ts s'. rewrite (match_tokens_cons (Lit d)). setoid_rewrite Ascii.eqb_eq. naive_solver. }
  apply (match_one fuel fuel (c :: p1) p1 (Lit c) (Ascii.eqb c)); [|lia| |done].
  - cbn [parse]. by rewrite E1, E2, E3, E4.
  - intros ts s'. rewrite (match_tokens_cons (Lit c)). setoid_rewrite Ascii.eqb_eq. naive_solver.
Qed.

(** C35: KEYS patterns.  The backtracking matcher accepts a string exactly
    when the pattern parses into tokens (star, any, literal, bracket set) and
    the string is in the language of those tokens; a malformed pattern
    matches nothing.  The length of the pattern bounds the recursion. *)
Theorem glob_correct pattern str :
  MatchGlob pattern str = true <->
  exists ts, tokens pattern = Some ts /\ glob_match ts (list_ascii_of_string str).
Proof. apply match_loop_spec. done. Qed.

(** Concrete patterns, evaluated. *)
Example glob_examples :
  MatchGlob "user:*:[0-9^]?" "user:x:7q" = true /\ MatchGlob "a\*b" "a*b" = true /\
  MatchGlob "a\*b" "axb" = false /\ MatchGlob "[!a-c]x" "bx" = false /\ MatchGlob "a[" "a[" = false /\
  MatchGlob "**" "" = true.
Proof. repeat split; reflexivity. Qed.

End Glob.
