(* ===== verification/Store.v ===== *)
(** * The store (internal/store/store.go): state, expiry, deletion, versions

    The [Store] record has one field per map of the Go struct.  Every
    operation runs under the store's mutex, so it is a function from the
    state before the critical section to its result and the state after; the
    clock it reads with [time.Now] is the argument [now] (nanoseconds since
    the Unix epoch; one reading per critical section).  Pointers that Go
    shares between maps (blocked waiters) are identifiers into a heap field.

    Here: the fields, the setters, key versions and change events, deletion,
    lazy expiry and the existence tests all commands start with. *)
From S2P Require Import Prelude GoLib Deque SortedSet HyperLogLog TimeSeries Json.

Module Store.

(** ** Time *)

(** The zero [time.Time] (January 1, year 1), and [Time.IsZero]. *)
Definition zeroTime : Z := -62135596800 * 10 ^ 9.
Definition IsZero (t : Z) : bool := t =? zeroTime.

(** [t.Sub(u)] saturates at the int64 range. *)
Definition time_sub (t u : Z) : Z := Z.max int64_min (Z.min int64_max (t - u)).

Definition UnixNano (t : Z) : Z := wrap64 t.
Definition Unix (t : Z) : Z := t / 10 ^ 9.
Definition UnixMilli (t : Z) : Z := t / 10 ^ 6.

(** ** Data *)

Record StreamEntry := mkEntry { ID : string; Fields : list string }.

Record PendingEntry := mkPending { Consumer : string; Delivered : Z }.

Record ConsumerGroup := mkGroup { LastID : string; Pending : gmap string PendingEntry }.

Record RateLimiter := mkRL { Window : Z; Max : Z; Requests : list Z }.

Record QueueMessage := mkMsg {
  MsgID : string;
  Body : string;
  CreatedAt : Z;
  Retries : Z;
  MaxRetry : Z;
  AckDeadline : Z
}.

Record Queue := mkQueue {
  QPending : list QueueMessage;
  Processing : gmap string QueueMessage;
  DeadLetter : list QueueMessage;
  AckTimeout : Z;
  MaxRetries : Z
}.

(** A blocked list client: the end it pops and, once served, the key and
    value sent on its channel. *)
Record ListWaiter := mkLW { lw_left : bool; lw_result : option (string * string) }.

Record Store := mkStore {
  kv : gmap string string;
  hashes : gmap string (gmap string string);
  lists : gmap string Deque.Deque;
  sets : gmap string (gset string);
  zsets : gmap string SortedSet.SortedSet;
  streams : gmap string (list StreamEntry);
  hlls : gmap string HyperLogLog.HyperLogLog;
  jsons : gmap string Json.json;
  groups : gmap string (gmap string ConsumerGroup);
  expires : gmap string Z;
  lastSeq : gmap string Z;
  waits : gmap string (list nat);
  listWaits : gmap string (list nat);
  keyVersion : gmap string Z;
  version : Z;
  rateLimiters : gmap string RateLimiter;
  queues : gmap string Queue;
  queueWaits : gmap string (list nat);
  tags : gmap string (gmap string string);
  timeseries : gmap string TimeSeries.TimeSeries;
  notBefore : gmap string Z;
  onChange : bool;                              (** a callback is registered *)
  onChangeQueue : list (string * string);       (** queued (event, key) calls *)
  maxMemory : Z;
  evictPolicy : string;
  accessTime : gmap string Z;
  memEstimate : Z;
  opsSinceEstimate : Z;
  (** not fields of the Go struct: its heap of waiters and the package's
      message counter *)
  waiterHeap : gmap nat bool;                   (** waiter -> channel closed *)
  listWaiterHeap : gmap nat ListWaiter;
  nextWaiter : nat;
  queueSeq : Z
}.

Definition New : Store :=
  mkStore ∅ ∅ ∅ ∅ ∅ ∅ ∅ ∅ ∅ ∅ ∅ ∅ ∅ ∅ 0 ∅ ∅ ∅ ∅ ∅ ∅ false [] 0 "" ∅ 0 0 ∅ ∅ 0 0.

(** ** Field update: [s <| f ::= g |>] and [s <| f := v |>] *)

Class Setter {R T : Type} (proj : R -> T) := set : (T -> T) -> R -> R.
Arguments set {R T} proj {_} f r.

Definition eta (s : Store) : Store :=
  mkStore (kv s) (hashes s) (lists s) (sets s) (zsets s) (streams s) (hlls s) (jsons s) (groups s)
    (expires s) (lastSeq s) (waits s) (listWaits s) (keyVersion s) (version s) (rateLimiters s)
    (queues s) (queueWaits s) (tags s) (timeseries s) (notBefore s) (onChange s) (onChangeQueue s)
    (maxMemory s) (evictPolicy s) (accessTime s) (memEstimate s) (opsSinceEstimate s)
    (waiterHeap s) (listWaiterHeap s) (nextWaiter s) (queueSeq s).

Ltac mk_setter eta_of :=
  match goal with
  | |- Setter ?P =>
      intros f r;
      let b := eval cbv beta delta [eta_of] in (eta_of r) in
      let b := eval pattern (P r) in b in
      match b with ?g _ => let v := eval cbv beta in (g (f (P r))) in exact v end
  end.

#[export] Instance set_kv : Setter kv. Proof. mk_setter eta. Defined.
#[export] Instance set_hashes : Setter hashes. Proof. mk_setter eta. Defined.
#[export] Instance set_lists : Setter lists. Proof. mk_setter eta. Defined.
#[export] Instance set_sets : Setter sets. Proof. mk_setter eta. Defined.
#[export] Instance set_zsets : Setter zsets. Proof. mk_setter eta. Defined.
#[export] Instance set_streams : Setter streams. Proof. mk_setter eta. Defined.
#[export] Instance set_hlls : Setter hlls. Proof. mk_setter eta. Defined.
#[export] Instance set_jsons : Setter jsons. Proof. mk_setter eta. Defined.
#[export] Instance set_groups : Setter groups. Proof. mk_setter eta. Defined.
#[export] Instance set_expires : Setter expires. Proof. mk_setter eta. Defined.
#[export] Instance set_lastSeq : Setter lastSeq. Proof. mk_setter eta. Defined.
#[export] Instance set_waits : Setter waits. Proof. mk_setter eta. Defined.
#[export] Instance set_listWaits : Setter listWaits. Proof. mk_setter eta. Defined.
#[export] Instance set_keyVersion : Setter keyVersion. Proof. mk_setter eta. Defined.
#[export] Instance set_version : Setter version. Proof. mk_setter eta. Defined.
#[export] Instance set_rateLimiters : Setter rateLimiters. Proof. mk_setter eta. Defined.
#[export] Instance set_queues : Setter queues. Proof. mk_setter eta. Defined.
#[export] Instance set_queueWaits : Setter queueWaits. Proof. mk_setter eta. Defined.
#[export] Instance set_tags : Setter tags. Proof. mk_setter eta. Defined.
#[export] Instance set_timeseries : Setter timeseries. Proof. mk_setter eta. Defined.
#[export] Instance set_notBefore : Setter notBefore. Proof. mk_setter eta. Defined.
#[export] Instance set_onChange : Setter onChange. Proof. mk_setter eta. Defined.
#[export] Instance set_onChangeQueue : Setter onChangeQueue. Proof. mk_setter eta. Defined.
#[export] Instance set_maxMemory : Setter maxMemory. Proof. mk_setter eta. Defined.
#[export] Instance set_evictPolicy : Setter evictPolicy. Proof. mk_setter eta. Defined.
#[export] Instance set_accessTime : Setter accessTime. Proof. mk_setter eta. Defined.
#[export] Instance set_memEstimate : Setter memEstimate. Proof. mk_setter eta. Defined.
#[export] Instance set_opsSinceEstimate : Setter opsSinceEstimate. Proof. mk_setter eta. Defined.
#[export] Instance set_waiterHeap : Setter waiterHeap. Proof. mk_setter eta. Defined.
#[export] Instance set_listWaiterHeap : Setter listWaiterHeap. Proof. mk_setter eta. Defined.
#[export] Instance set_nextWaiter : Setter nextWaiter. Proof. mk_setter eta. Defined.
#[export] Instance set_queueSeq : Setter queueSeq. Proof. mk_setter eta. Defined.

#[local] Set Warnings "-postfix-notation-not-level-1".
Declare Scope store_scope.
Delimit Scope store_scope with store.
Notation "s <| f ::= g |>" := (set f g s) (at level 12, f at level 9, left associativity) : store_scope.
Notation "s <| f := v |>" := (set f (fun _ => v) s) (at level 12, f at level 9, left associativity) : store_scope.
#[global] Open Scope store_scope.

(** Simplify projections of updated stores. *)
Ltac store_cbn :=
  cbn [set set_kv set_hashes set_lists set_sets set_zsets set_streams set_hlls set_jsons set_groups
       set_expires set_lastSeq set_waits set_listWaits set_keyVersion set_version set_rateLimiters
       set_queues set_queueWaits set_tags set_timeseries set_notBefore set_onChange
       set_onChangeQueue set_maxMemory set_evictPolicy set_accessTime set_memEstimate
       set_opsSinceEstimate set_waiterHeap set_listWaiterHeap set_nextWaiter set_queueSeq
       kv hashes lists sets zsets streams hlls jsons groups expires lastSeq waits listWaits
       keyVersion version rateLimiters queues queueWaits tags timeseries notBefore onChange
       onChangeQueue maxMemory evictPolicy accessTime memEstimate opsSinceEstimate
       waiterHeap listWaiterHeap nextWaiter queueSeq fst snd].

(** ** Key versions and change events *)

(** A Go map lookup compared with nil, or its [ok] result. *)
Definition has {A} (m : gmap string A) (key : string) : bool :=
  match m !! key with Some _ => true | None => false end.

(** The capacity of the [onChangeQueue] channel. *)
Definition onChangeCap : Z := 4096.

(** [select { case s.onChangeQueue <- ...: default: }]: a full queue drops. *)
Definition fire (event key : string) (s : Store) : Store :=
  if onChange s && (zlen (onChangeQueue s) <? onChangeCap)
  then s <| onChangeQueue ::= fun q => q ++ [(event, key)] |> else s.

Definition record_versions (keys : list string) (s : Store) : Store :=
  let s := s <| version ::= fun v => wrapu64 (v + 1) |> in
  s <| keyVersion ::= fun m => fold_left (fun m key => <[key := version s]> m) keys m |>.

Definition record_access (now : Z) (keys : list string) (s : Store) : Store :=
  if maxMemory s >? 0
  then s <| accessTime ::= fun m => fold_left (fun m key => <[key := UnixNano now]> m) keys m |>
  else s.

Definition touchKeyLocked (now : Z) (keys : list string) (s : Store) : Store :=
  let s := record_versions keys s in
  let s := fold_left (fun s key => fire "set" key s) keys s in
  record_access now keys s.

Definition touchKeyLockedNoEvent (now : Z) (keys : list string) (s : Store) : Store :=
  record_access now keys (record_versions keys s).

Definition OnChange (s : Store) : Store := s <| onChange := true |>.

Definition KeyVersions (keys : list string) (s : Store) : gmap string Z :=
  fold_left (fun out key => <[key := default 0 (keyVersion s !! key)]> out) keys ∅.

Definition KeysModifiedSince (versions : gmap string Z) (s : Store) : bool :=
  existsb (fun p => negb (default 0 (keyVersion s !! p.1) =? p.2)) (map_to_list versions).

(** ** Deletion *)

Definition deleteKeyLocked (now : Z) (key : string) (s : Store) : Store :=
  let s := s <| kv ::= delete key |> <| hashes ::= delete key |> <| lists ::= delete key |>
             <| sets ::= delete key |> <| zsets ::= delete key |> <| streams ::= delete key |>
             <| hlls ::= delete key |> <| jsons ::= delete key |> <| groups ::= delete key |>
             <| lastSeq ::= delete key |> <| expires ::= delete key |>
             <| rateLimiters ::= delete key |> <| notBefore ::= delete key |>
             <| tags ::= delete key |> <| timeseries ::= delete key |> <| queues ::= delete key |>
             <| accessTime ::= delete key |> in
  touchKeyLockedNoEvent now [key] (fire "del" key s).

(** ** Expiry *)

Definition isExpiredRLocked (now : Z) (key : string) (s : Store) : bool :=
  match expires s !! key with
  | None => false
  | Some expireAt => negb (IsZero expireAt || (now <? expireAt))
  end.

Definition expiredKeyLocked (now : Z) (key : string) (s : Store) : bool * Store :=
  match expires s !! key with
  | None => (false, s)
  | Some expireAt =>
      if IsZero expireAt || (now <? expireAt) then (false, s)
      else (true, deleteKeyLocked now key s)
  end.

(** [nb, ok := s.notBefore[key]; ok && now.Before(nb)] *)
Definition isDelayed (now : Z) (key : string) (s : Store) : bool :=
  match notBefore s !! key with Some nb => now <? nb | None => false end.

Definition isVisibleRLocked (now : Z) (key : string) (s : Store) : bool :=
  if isExpiredRLocked now key s then false
  else if isDelayed now key s then false else true.

Definition purgeExpiredLocked (now : Z) (order : list string) (s : Store) : Store :=
  fold_left (fun s key => (expiredKeyLocked now key s).2) order s.

(** ** Existence *)

(** Every type but the string. *)
Definition has_container (key : string) (s : Store) : bool :=
  has (hashes s) key || has (lists s) key || has (sets s) key || has (zsets s) key
  || has (streams s) key || has (hlls s) key || has (jsons s) key || has (timeseries s) key.

Definition existsStringRLocked (now : Z) (key : string) (s : Store) : bool :=
  if isExpiredRLocked now key s then false
  else if isDelayed now key s then false
  else has (kv s) key.

Definition existsRLocked (now : Z) (key : string) (s : Store) : bool :=
  if isExpiredRLocked now key s then false
  else if isDelayed now key s then false
  else has (kv s) key || has_container key s.

Definition existsStringLocked (now : Z) (key : string) (s : Store) : bool * Store :=
  let '(expired, s) := expiredKeyLocked now key s in
  if expired then (false, s) else (has (kv s) key, s).

Definition existsLocked (now : Z) (key : string) (s : Store) : bool * Store :=
  let '(expired, s) := expiredKeyLocked now key s in
  if expired then (false, s)
  else if isDelayed now key s then (false, s)
  else let '(str, s) := existsStringLocked now key s in (str || has_container key s, s).

(** ** The background sweep *)

(** At most 100 entries of [expires] are looked at, in the order the map
    iteration happens to visit them. *)
Definition sample_key (now : Z) (s : Store) (key : string) : Store :=
  match expires s !! key with
  | None => s
  | Some expireAt =>
      if negb (IsZero expireAt) && (expireAt <? now)
      then deleteKeyLocked now key (fire "expired" key s) else s
  end.

Definition stale_limiter (now : Z) (rl : RateLimiter) : bool :=
  match last (Requests rl) with
  | None => true
  | Some newest => wrap64 (Window rl * 2) <? time_sub now newest
  end.

Definition sweep_tags (now : Z) (order : list string) (s : Store) : Store :=
  fold_left (fun s key =>
    let '(e, s) := existsLocked now key s in
    if e then s else s <| tags ::= delete key |>) order s.

Definition sampleExpired (now : Z) (order tagOrder : list string) (s : Store) : Store :=
  let s := fold_left (sample_key now) (take 100 order) s in
  let s := s <| rateLimiters ::= filter (fun p => stale_limiter now p.2 = false) |> in
  let s := s <| notBefore ::= filter (fun p => (p.2 <? now) = false) |> in
  sweep_tags now tagOrder s.

(** ** What the store holds under one key *)

Record Entry := mkE {
  e_kv : option string;
  e_hash : option (gmap string string);
  e_list : option Deque.Deque;
  e_set : option (gset string);
  e_zset : option SortedSet.SortedSet;
  e_stream : option (list StreamEntry);
  e_hll : option HyperLogLog.HyperLogLog;
  e_json : option Json.json;
  e_ts : option TimeSeries.TimeSeries;
  e_groups : option (gmap string ConsumerGroup);
  e_lastSeq : option Z;
  e_expire : option Z;
  e_notBefore : option Z
}.

Definition no_entry : Entry := mkE None None None None None None None None None None None None None.

Definition eta_e (e : Entry) : Entry :=
  mkE (e_kv e) (e_hash e) (e_list e) (e_set e) (e_zset e) (e_stream e) (e_hll e) (e_json e) (e_ts e)
      (e_groups e) (e_lastSeq e) (e_expire e) (e_notBefore e).

#[export] Instance set_e_kv : Setter e_kv. Proof. mk_setter eta_e. Defined.
#[export] Instance set_e_hash : Setter e_hash. Proof. mk_setter eta_e. Defined.
#[export] Instance set_e_list : Setter e_list. Proof. mk_setter eta_e. Defined.
#[export] Instance set_e_set : Setter e_set. Proof. mk_setter eta_e. Defined.
#[export] Instance set_e_zset : Setter e_zset. Proof. mk_setter eta_e. Defined.
#[export] Instance set_e_stream : Setter e_stream. Proof. mk_setter eta_e. Defined.
#[export] Instance set_e_hll : Setter e_hll. Proof. mk_setter eta_e. Defined.
#[export] Instance set_e_json : Setter e_json. Proof. mk_setter eta_e. Defined.
#[export] Instance set_e_ts : Setter e_ts. Proof. mk_setter eta_e. Defined.
#[export] Instance set_e_groups : Setter e_groups. Proof. mk_setter eta_e. Defined.
#[export] Instance set_e_lastSeq : Setter e_lastSeq. Proof. mk_setter eta_e. Defined.
#[export] Instance set_e_expire : Setter e_expire. Proof. mk_setter eta_e. Defined.
#[export] Instance set_e_notBefore : Setter e_notBefore. Proof. mk_setter eta_e. Defined.

Definition entry (s : Store) (k : string) : Entry :=
  mkE (kv s !! k) (hashes s !! k) (lists s !! k) (sets s !! k) (zsets s !! k) (streams s !! k)
      (hlls s !! k) (jsons s !! k) (timeseries s !! k) (groups s !! k) (lastSeq s !! k)
      (expires s !! k) (notBefore s !! k).

(** The deadline of an entry has passed at [now]. *)
Definition e_expired (now : Z) (e : Entry) : bool :=
  match e_expire e with None => false | Some t => negb (IsZero t || (now <? t)) end.

(** An entry as a command at [now] sees it: an expired one is absent, whether
    or not it has been swept. *)
Definition live (now : Z) (e : Entry) : Entry := if e_expired now e then no_entry else e.

Definition is_some {A} (o : option A) : bool := match o with Some _ => true | None => false end.

Lemma is_some_false {A} (o : option A) : is_some o = false -> o = None.
Proof. by destruct o. Qed.

Definition e_container (e : Entry) : bool :=
  is_some (e_hash e) || is_some (e_list e) || is_some (e_set e) || is_some (e_zset e)
  || is_some (e_stream e) || is_some (e_hll e) || is_some (e_json e) || is_some (e_ts e).

Definition e_delayed (now : Z) (e : Entry) : bool :=
  match e_notBefore e with Some nb => now <? nb | None => false end.

Definition e_exists (now : Z) (e : Entry) : bool :=
  negb (e_expired now e) && negb (e_delayed now e) && (is_some (e_kv e) || e_container e).

Create Rewrite HintDb entry.

(** Writing a field of the store writes that field of the entry. *)
Lemma entry_set_kv g s k : entry (s <| kv ::= g |>) k = entry s k <| e_kv := g (kv s) !! k |>.
Proof. done. Qed.
Lemma entry_set_hashes g s k : entry (s <| hashes ::= g |>) k = entry s k <| e_hash := g (hashes s) !! k |>.
Proof. done. Qed.
Lemma entry_set_lists g s k : entry (s <| lists ::= g |>) k = entry s k <| e_list := g (lists s) !! k |>.
Proof. done. Qed.
Lemma entry_set_sets g s k : entry (s <| sets ::= g |>) k = entry s k <| e_set := g (sets s) !! k |>.
Proof. done. Qed.
Lemma entry_set_zsets g s k : entry (s <| zsets ::= g |>) k = entry s k <| e_zset := g (zsets s) !! k |>.
Proof. done. Qed.
Lemma entry_set_streams g s k : entry (s <| streams ::= g |>) k = entry s k <| e_stream := g (streams s) !! k |>.
Proof. done. Qed.
Lemma entry_set_hlls g s k : entry (s <| hlls ::= g |>) k = entry s k <| e_hll := g (hlls s) !! k |>.
Proof. done. Qed.
Lemma entry_set_jsons g s k : entry (s <| jsons ::= g |>) k = entry s k <| e_json := g (jsons s) !! k |>.
Proof. done. Qed.
Lemma entry_set_timeseries g s k : entry (s <| timeseries ::= g |>) k = entry s k <| e_ts := g (timeseries s) !! k |>.
Proof. done. Qed.
Lemma entry_set_groups g s k : entry (s <| groups ::= g |>) k = entry s k <| e_groups := g (groups s) !! k |>.
Proof. done. Qed.
Lemma entry_set_lastSeq g s k : entry (s <| lastSeq ::= g |>) k = entry s k <| e_lastSeq := g (lastSeq s) !! k |>.
Proof. done. Qed.
Lemma entry_set_expires g s k : entry (s <| expires ::= g |>) k = entry s k <| e_expire := g (expires s) !! k |>.
Proof. done. Qed.
Lemma entry_set_notBefore g s k : entry (s <| notBefore ::= g |>) k = entry s k <| e_notBefore := g (notBefore s) !! k |>.
Proof. done. Qed.
Lemma entry_set_listWaits g s k : entry (s <| listWaits ::= g |>) k = entry s k.
Proof. done. Qed.
Lemma entry_set_listWaiterHeap g s k : entry (s <| listWaiterHeap ::= g |>) k = entry s k.
Proof. done. Qed.
Lemma entry_set_waits g s k : entry (s <| waits ::= g |>) k = entry s k.
Proof. done. Qed.
Lemma entry_set_waiterHeap g s k : entry (s <| waiterHeap ::= g |>) k = entry s k.
Proof. done. Qed.

#[export] Hint Rewrite entry_set_kv entry_set_hashes entry_set_lists entry_set_sets entry_set_zsets
  entry_set_streams entry_set_hlls entry_set_jsons entry_set_timeseries entry_set_groups
  entry_set_lastSeq entry_set_expires entry_set_notBefore entry_set_listWaits
  entry_set_listWaiterHeap entry_set_waits entry_set_waiterHeap : entry.

Lemma entry_fire ev key s k : entry (fire ev key s) k = entry s k.
Proof. unfold fire. by case_match. Qed.

Lemma entry_record_versions keys s k : entry (record_versions keys s) k = entry s k.
Proof. done. Qed.

Lemma entry_record_access now keys s k : entry (record_access now keys s) k = entry s k.
Proof. unfold record_access. by case_match. Qed.

Lemma entry_touch now keys s k : entry (touchKeyLocked now keys s) k = entry s k.
Proof.
  unfold touchKeyLocked. rewrite entry_record_access.
  assert (forall s, entry (fold_left (fun s key => fire "set" key s) keys s) k = entry s k) as ->;
    [|done].
  induction keys as [|a keys IH]; intros s'; [done|]. cbn. by rewrite IH, entry_fire.
Qed.

Lemma entry_touchNoEvent now keys s k : entry (touchKeyLockedNoEvent now keys s) k = entry s k.
Proof. unfold touchKeyLockedNoEvent. by rewrite entry_record_access. Qed.

#[export] Hint Rewrite entry_fire entry_record_versions entry_record_access entry_touch
  entry_touchNoEvent : entry.

Lemma entry_delete_eq now key s : entry (deleteKeyLocked now key s) key = no_entry.
Proof.
  unfold deleteKeyLocked. rewrite entry_touchNoEvent, entry_fire.
  unfold entry. store_cbn. by rewrite !lookup_delete_eq.
Qed.

Lemma entry_delete_ne now key s k : k <> key -> entry (deleteKeyLocked now key s) k = entry s k.
Proof.
  intros. unfold deleteKeyLocked. rewrite entry_touchNoEvent, entry_fire.
  unfold entry. store_cbn. by rewrite !lookup_delete_ne.
Qed.

Lemma entry_delete now key s k :
  entry (deleteKeyLocked now key s) k = if decide (k = key) then no_entry else entry s k.
Proof. case_decide; subst; [apply entry_delete_eq|by apply entry_delete_ne]. Qed.

Lemma isExpired_entry now key s : isExpiredRLocked now key s = e_expired now (entry s key).
Proof. done. Qed.

Lemma isDelayed_entry now key s : isDelayed now key s = e_delayed now (entry s key).
Proof. done. Qed.

Lemma has_container_entry key s : has_container key s = e_container (entry s key).
Proof. done. Qed.

Lemma existsRLocked_entry now key s : existsRLocked now key s = e_exists now (entry s key).
Proof.
  unfold existsRLocked, e_exists. rewrite isExpired_entry, isDelayed_entry, has_container_entry.
  by destruct (e_expired _ _), (e_delayed _ _).
Qed.

Lemma live_expired now e : e_expired now e = true -> live now e = no_entry.
Proof. unfold live. by intros ->. Qed.

Lemma live_fresh now e : e_expired now e = false -> live now e = e.
Proof. unfold live. by intros ->. Qed.

Lemma e_expired_live now e : e_expired now (live now e) = false.
Proof. unfold live. by destruct (e_expired now e) eqn:E. Qed.

Lemma live_idem now e : live now (live now e) = live now e.
Proof. apply live_fresh, e_expired_live. Qed.

Lemma e_exists_live now e : e_exists now (live now e) = e_exists now e.
Proof. unfold live. destruct (e_expired now e) eqn:E; [|done]. unfold e_exists. by rewrite E. Qed.

Lemma expiredKey_fst now key s : (expiredKeyLocked now key s).1 = e_expired now (entry s key).
Proof. unfold expiredKeyLocked, e_expired. cbn. destruct (expires s !! key); [|done]. by case_match. Qed.

Lemma expiredKey_entry now key s k :
  entry (expiredKeyLocked now key s).2 k = if decide (k = key) then live now (entry s k) else entry s k.
Proof.
  unfold expiredKeyLocked, live, e_expired. case_decide; subst; cbn.
  - destruct (expires s !! key); [|done]. case_match; [done|]. apply entry_delete_eq.
  - destruct (expires s !! key); [|done]. case_match; [done|]. by apply entry_delete_ne.
Qed.

Lemma expiredKey_false now key s : e_expired now (entry s key) = false -> expiredKeyLocked now key s = (false, s).
Proof.
  unfold expiredKeyLocked, e_expired. cbn. destruct (expires s !! key); [|done].
  by destruct (IsZero z || (now <? z)).
Qed.

Lemma expiredKey_split now key s :
  exists s1, expiredKeyLocked now key s = (e_expired now (entry s key), s1) /\
    entry s1 key = live now (entry s key) /\ (forall k, k <> key -> entry s1 k = entry s k) /\
    (e_expired now (entry s key) = false -> s1 = s).
Proof.
  exists (expiredKeyLocked now key s).2. split; [|split; [|split]].
  - rewrite <-expiredKey_fst. by destruct (expiredKeyLocked now key s).
  - rewrite expiredKey_entry. by rewrite decide_True.
  - intros k Hk. rewrite expiredKey_entry. by rewrite decide_False.
  - intros H. by rewrite expiredKey_false.
Qed.

Lemma existsString_live now key s :
  e_expired now (entry s key) = false -> existsStringLocked now key s = (is_some (e_kv (entry s key)), s).
Proof. intros H. unfold existsStringLocked. by rewrite expiredKey_false. Qed.

Lemma exists_live now key s :
  e_expired now (entry s key) = false -> existsLocked now key s = (e_exists now (entry s key), s).
Proof.
  intros H. unfold existsLocked, e_exists. rewrite expiredKey_false by done.
  rewrite isDelayed_entry, H. destruct (e_delayed _ _); [done|].
  by rewrite existsString_live.
Qed.

Lemma exists_fst now key s : (existsLocked now key s).1 = e_exists now (entry s key).
Proof.
  destruct (e_expired now (entry s key)) eqn:E; [|by rewrite exists_live].
  destruct (expiredKey_split now key s) as (s1 & H & _). unfold existsLocked.
  rewrite H, E. unfold e_exists. by rewrite E.
Qed.

Lemma exists_entry now key s k :
  entry (existsLocked now key s).2 k = if decide (k = key) then live now (entry s k) else entry s k.
Proof.
  destruct (e_expired now (entry s key)) eqn:E.
  - pose proof (expiredKey_entry now key s k) as H. unfold existsLocked.
    pose proof (expiredKey_fst now key s) as Hf. rewrite E in Hf.
    destruct (expiredKeyLocked now key s) as [b s1]. cbn in *. subst. done.
  - rewrite exists_live by done. cbn. case_decide; [|done]. subst. by rewrite live_fresh.
Qed.

(** ** Local commands

    A command on one key is local when it is a function [f] of the live entry
    of that key: its answer, the entry it leaves, and nothing else changes.
    Two consequences are used throughout: other keys are untouched, and it
    does not matter whether an expired entry has been swept yet. *)

(** The entry left behind is the one [f] computes, or the old one (swept or
    not) when [f] changes nothing. *)
Definition stored (now : Z) (old new result : Entry) : Prop :=
  new = result \/ (new = old /\ result = live now old).

Definition local {A} (now : Z) (key : string) (op : Store -> A * Store) (f : Entry -> A * Entry) : Prop :=
  forall s,
    (op s).1 = (f (live now (entry s key))).1 /\
    stored now (entry s key) (entry (op s).2 key) (f (live now (entry s key))).2 /\
    (forall k, k <> key -> entry (op s).2 k = entry s k).

Lemma stored_live now old new result : stored now old new result -> live now new = live now result.
Proof. intros [->|[-> ->]]; [done|]. by rewrite live_idem. Qed.

Lemma local_use {A} now key (op : Store -> A * Store) f s :
  local now key op f ->
  (op s).1 = (f (live now (entry s key))).1 /\
  live now (entry (op s).2 key) = live now (f (live now (entry s key))).2 /\
  (forall k, k <> key -> entry (op s).2 k = entry s k).
Proof. intros H. destruct (H s) as (H1 & H2%stored_live & H3). done. Qed.

(** A command that only reads. *)
Definition local_read {A} (now : Z) (key : string) (op : Store -> A) (f : Entry -> A) : Prop :=
  forall s, op s = f (live now (entry s key)).

(** The fields of a store at a key are those of its entry. *)
Lemma entry_fields s key e :
  entry s key = e ->
  kv s !! key = e_kv e /\ hashes s !! key = e_hash e /\ lists s !! key = e_list e /\
  sets s !! key = e_set e /\ zsets s !! key = e_zset e /\ streams s !! key = e_stream e /\
  hlls s !! key = e_hll e /\ jsons s !! key = e_json e /\ timeseries s !! key = e_ts e /\
  groups s !! key = e_groups e /\ lastSeq s !! key = e_lastSeq e /\ expires s !! key = e_expire e /\
  notBefore s !! key = e_notBefore e.
Proof. intros <-. done. Qed.

Lemma has_lookup {A} (m : gmap string A) key : has m key = is_some (m !! key).
Proof. done. Qed.

Ltac use_entry H :=
  let E := fresh in
  pose proof (entry_fields _ _ _ H) as E;
  destruct E as (?Hkv & ?Hhash & ?Hlist & ?Hset & ?Hzset & ?Hstream & ?Hhll & ?Hjson & ?Hts & ?Hgroups
                 & ?HlastSeq & ?Hexpire & ?HnotBefore).

(** Entries of updated stores, with the lookups at the updated key resolved. *)
Ltac entry_simp :=
  repeat (autorewrite with entry; store_cbn);
  rewrite ?lookup_insert_eq, ?lookup_delete_eq, ?lookup_insert_ne, ?lookup_delete_ne by done.

(** Close a branch of a locality proof: [Hk] gives the entry of the key
    before the branch, [Hne] that of the other keys. *)
Ltac local_finish Hk Hne :=
  cbn [fst snd]; split; [done|]; split;
  [left; entry_simp; rewrite ?Hk; done
  |let k := fresh "k" in let Hkk := fresh "Hkk" in
   intros k Hkk; entry_simp; rewrite <-?(Hne k Hkk); done].

(** Resolve the leading [expiredKeyLocked] of a command on [key]. *)
Ltac local_start now key s s1 e Hk Hne :=
  let Hs := fresh "Hs" in
  destruct (expiredKey_split now key s) as (s1 & -> & Hk & Hne & Hs);
  set (e := live now (entry s key)) in *.

Lemma live_none now e : e_expired now e = true -> live now e = no_entry.
Proof. apply live_expired. Qed.

(** The branch of a command that returns at once on an expired key. *)
Ltac local_expired now key s e Hk Hne :=
  let E := fresh "Eexp" in
  destruct (e_expired now (entry s key)) eqn:E;
  [assert (e = no_entry) as -> by (unfold e; by apply live_none); local_finish Hk Hne|].

Ltac local_fresh Hx now Hk :=
  assert (e_expired now _ = false) as Hx by (rewrite Hk; apply e_expired_live).

(** ** Versions only grow *)

Definition kver (s : Store) (k : string) : Z := default 0 (keyVersion s !! k).

Lemma KeysModified_spec vs s :
  KeysModifiedSince vs s = true <-> exists k v, vs !! k = Some v /\ kver s k <> v.
Proof.
  unfold KeysModifiedSince. rewrite existsb_exists. split.
  - intros ([k v] & Hin & Hne). apply list_elem_of_In, elem_of_map_to_list in Hin.
    exists k, v. split; [done|]. apply negb_true_iff, Z.eqb_neq in Hne. done.
  - intros (k & v & Hk & Hne). exists (k, v). split; [by apply list_elem_of_In, elem_of_map_to_list|].
    by apply negb_true_iff, Z.eqb_neq.
Qed.

Lemma KeyVersions_lookup keys s k :
  KeyVersions keys s !! k = if decide (k ∈ keys) then Some (kver s k) else None.
Proof.
  unfold KeyVersions.
  assert (forall m, fold_left (fun out key => <[key := default 0 (keyVersion s !! key)]> out) keys m !! k =
            if decide (k ∈ keys) then Some (kver s k) else m !! k) as ->; [|case_decide; [done|apply lookup_empty]].
  induction keys as [|a keys IH]; intros m; [done|]. cbn [fold_left]. rewrite IH.
  destruct (decide (k ∈ keys)).
  - rewrite decide_True; [done|]. by right.
  - destruct (decide (k = a)) as [->|Hne].
    + rewrite lookup_insert_eq, decide_True; [done|]. left.
    + rewrite lookup_insert_ne by done. rewrite decide_False; [done|]. by intros [?|?]%elem_of_cons.
Qed.

(** At most [n] touches lead from [s] to [s']: the counter grew by at most
    [n], and a key's version is the old one or newer than the old counter. *)
Definition vstep (n : Z) (s s' : Store) : Prop :=
  version s <= version s' <= version s + n /\
  forall k, kver s' k = kver s k \/ version s < kver s' k <= version s'.

(** The counter has room for [n] increments (it is a uint64). *)
Definition room (n : Z) (s : Store) : Prop := 0 <= version s /\ version s + n < 2 ^ 64.

Lemma vstep_refl s : vstep 0 s s.
Proof. split; [lia|]. by left. Qed.

Lemma vstep_ext n s t t' :
  version t' = version t -> keyVersion t' = keyVersion t -> vstep n s t -> vstep n s t'.
Proof. unfold vstep, kver. by intros -> ->. Qed.

Lemma vstep_weaken n m s t : n <= m -> vstep n s t -> vstep m s t.
Proof. intros H [? ?]. split; [lia|done]. Qed.

Lemma fold_insert_lookup keys v (m : gmap string Z) k :
  fold_left (fun m key => <[key := v]> m) keys m !! k = if decide (k ∈ keys) then Some v else m !! k.
Proof.
  revert m. induction keys as [|a keys IH]; intros m; [done|]. cbn [fold_left]. rewrite IH.
  destruct (decide (k ∈ keys)).
  - rewrite decide_True; [done|]. by right.
  - destruct (decide (k = a)) as [->|Hne].
    + rewrite lookup_insert_eq, decide_True; [done|]. left.
    + rewrite lookup_insert_ne by done. rewrite decide_False; [done|]. by intros [?|?]%elem_of_cons.
Qed.

Lemma versions_fire ev key s : version (fire ev key s) = version s /\ keyVersion (fire ev key s) = keyVersion s.
Proof. unfold fire. by case_match. Qed.

Lemma versions_access now keys s :
  version (record_access now keys s) = version s /\ keyVersion (record_access now keys s) = keyVersion s.
Proof. unfold record_access. by case_match. Qed.

Lemma versions_touch now keys s :
  version (touchKeyLocked now keys s) = wrapu64 (version s + 1) /\
  forall k, keyVersion (touchKeyLocked now keys s) !! k =
    if decide (k ∈ keys) then Some (wrapu64 (version s + 1)) else keyVersion s !! k.
Proof.
  unfold touchKeyLocked. destruct (versions_access now keys
    (fold_left (fun s key => fire "set" key s) keys (record_versions keys s))) as [-> ->].
  assert (forall l s, version (fold_left (fun s key => fire "set" key s) l s) = version s /\
                      keyVersion (fold_left (fun s key => fire "set" key s) l s) = keyVersion s) as Hf.
  { induction l as [|a l IH]; intros s'; [done|]. cbn. destruct (IH (fire "set" a s')) as [-> ->].
    apply versions_fire. }
  destruct (Hf keys (record_versions keys s)) as [-> ->]. split; [done|].
  intros k. unfold record_versions. store_cbn. apply fold_insert_lookup.
Qed.

Lemma versions_delete now key s :
  version (deleteKeyLocked now key s) = wrapu64 (version s + 1) /\
  forall k, keyVersion (deleteKeyLocked now key s) !! k =
    if decide (k ∈ [key]) then Some (wrapu64 (version s + 1)) else keyVersion s !! k.
Proof.
  unfold deleteKeyLocked, touchKeyLockedNoEvent.
  match goal with |- context [fire "del" key ?t] => set (s' := t) end.
  destruct (versions_access now [key] (record_versions [key] (fire "del" key s'))) as [-> ->].
  unfold record_versions. store_cbn. destruct (versions_fire "del" key s') as [-> ->].
  assert (version s' = version s) as -> by reflexivity.
  assert (keyVersion s' = keyVersion s) as -> by reflexivity.
  split; [done|]. intros k. apply fold_insert_lookup.
Qed.

(** What a touch or a deletion does to the versions. *)
Definition bumped (keys : list string) (t t' : Store) : Prop :=
  version t' = wrapu64 (version t + 1) /\
  forall k, keyVersion t' !! k = if decide (k ∈ keys) then Some (wrapu64 (version t + 1)) else keyVersion t !! k.

Lemma vstep_bumped n s t t' keys :
  vstep n s t -> room (n + 1) s -> bumped keys t t' -> vstep (n + 1) s t'.
Proof.
  intros [Hv Hk] [H0 Hr] [Hv' Hk']. unfold vstep, kver in *. unfold wrapu64 in *.
  rewrite Z.mod_small in Hv', Hk' by lia. rewrite Hv'. split; [lia|].
  intros k. rewrite Hk'. case_decide; [right; cbn; lia|]. destruct (Hk k); [by left|right; lia].
Qed.

Lemma marks_bumped n s t t' keys key :
  vstep n s t -> room (n + 1) s -> bumped keys t t' -> key ∈ keys -> version s < kver t' key.
Proof.
  intros [Hv Hk] [H0 Hr] [Hv' Hk'] Hin. unfold kver, wrapu64 in *.
  rewrite Hk', decide_True by done. cbn. rewrite Z.mod_small by lia. lia.
Qed.

Lemma bumped_touch now keys t : bumped keys t (touchKeyLocked now keys t).
Proof. apply versions_touch. Qed.

Lemma bumped_delete now key t : bumped [key] t (deleteKeyLocked now key t).
Proof. apply versions_delete. Qed.

Lemma vstep_expiredKey now key s : room 1 s -> vstep 1 s (expiredKeyLocked now key s).2.
Proof.
  intros Hr. unfold expiredKeyLocked. destruct (expires s !! key); [|apply (vstep_weaken 0); [lia|apply vstep_refl]].
  case_match; cbn; [apply (vstep_weaken 0); [lia|apply vstep_refl]|].
  apply (vstep_bumped 0 s s _ [key]); [apply vstep_refl|done|apply bumped_delete].
Qed.

Lemma expiredKey_vsplit now key s :
  room 1 s ->
  exists s1, expiredKeyLocked now key s = (e_expired now (entry s key), s1) /\
    entry s1 key = live now (entry s key) /\ vstep 1 s s1.
Proof.
  intros Hr. pose proof (vstep_expiredKey now key s Hr) as Hv.
  destruct (expiredKey_split now key s) as (s1 & E & Hk & _ & _). rewrite E in Hv. by exists s1.
Qed.

(** No empty collection is stored: the commands remove one that empties. *)
Definition tidy (e : Entry) : Prop :=
  e_hash e <> Some ∅ /\ e_set e <> Some ∅ /\
  (forall d, e_list e = Some d -> Deque.Len d <> 0) /\
  (forall z, e_zset e = Some z -> SortedSet.Len z <> 0).

Lemma tidy_live now e : tidy e -> tidy (live now e).
Proof. unfold live. by destruct (e_expired now e). Qed.

(** A command that marks its key: it either leaves the live entry as it was
    or gives the key a version newer than the counter it started from. *)
Definition marked {A} (now : Z) (key : string) (op : Store -> A * Store) : Prop :=
  forall s, room 4 s -> tidy (entry s key) ->
    (live now (entry (op s).2 key) = live now (entry s key) \/ version s < kver (op s).2 key) /\
    vstep 4 s (op s).2.

Lemma live_kept now s s1 key :
  entry s1 key = live now (entry s key) -> live now (entry s1 key) = live now (entry s key).
Proof. intros ->. apply live_idem. Qed.

Lemma marks_touch now keys key s s1 t :
  room 4 s -> vstep 1 s s1 -> version t = version s1 -> keyVersion t = keyVersion s1 -> key ∈ keys ->
  version s < kver (touchKeyLocked now keys t) key.
Proof.
  intros [? ?] Hv H1 H2 Hin. apply (marks_bumped 1 s t _ keys); [by apply (vstep_ext 1 s s1)|split; lia| |done].
  apply bumped_touch.
Qed.

Lemma marks_delete now key s s1 t :
  room 4 s -> vstep 1 s s1 -> version t = version s1 -> keyVersion t = keyVersion s1 ->
  version s < kver (deleteKeyLocked now key t) key.
Proof.
  intros [? ?] Hv H1 H2. apply (marks_bumped 1 s t _ [key]); [by apply (vstep_ext 1 s s1)|split; lia| |].
  - apply bumped_delete.
  - left.
Qed.

Lemma room_le n m s : m <= n -> room n s -> room m s.
Proof. intros ? [? ?]. split; lia. Qed.

Lemma vstep4_ext s s1 t :
  vstep 1 s s1 -> version t = version s1 -> keyVersion t = keyVersion s1 -> vstep 4 s t.
Proof. intros Hv H1 H2. apply (vstep_weaken 1); [lia|]. by apply (vstep_ext 1 s s1). Qed.

Lemma vstep4_touch now keys s s1 t :
  room 4 s -> vstep 1 s s1 -> version t = version s1 -> keyVersion t = keyVersion s1 ->
  vstep 4 s (touchKeyLocked now keys t).
Proof.
  intros [? ?] Hv H1 H2. apply (vstep_weaken 2); [lia|].
  apply (vstep_bumped 1 s t _ keys); [by apply (vstep_ext 1 s s1)|split; lia|apply bumped_touch].
Qed.

Lemma vstep4_delete now key s s1 t :
  room 4 s -> vstep 1 s s1 -> version t = version s1 -> keyVersion t = keyVersion s1 ->
  vstep 4 s (deleteKeyLocked now key t).
Proof.
  intros [? ?] Hv H1 H2. apply (vstep_weaken 2); [lia|].
  apply (vstep_bumped 1 s t _ [key]); [by apply (vstep_ext 1 s s1)|split; lia|apply bumped_delete].
Qed.

Lemma vstep4_refl s : vstep 4 s s.
Proof. apply (vstep_weaken 0); [lia|apply vstep_refl]. Qed.

Ltac vsteps Hr Hv :=
  first [ eapply (vstep4_touch _ _ _ _ _ Hr Hv); reflexivity
        | eapply (vstep4_delete _ _ _ _ _ Hr Hv); reflexivity
        | eapply (vstep4_ext _ _ _ Hv); reflexivity ].

(** Start and close the branches of a [marked] proof. *)
Ltac marked_start now key s s1 Hr Hk Hv :=
  destruct (expiredKey_vsplit now key s (room_le 4 1 s ltac:(lia) Hr)) as (s1 & -> & Hk & Hv).

Ltac marked_finish Hr Hk Hv :=
  cbn [fst snd];
  split;
  [first [ left; exact (live_kept _ _ _ _ Hk)
         | right; eapply (marks_touch _ _ _ _ _ _ Hr Hv); [reflexivity|reflexivity|left]
         | right; eapply (marks_delete _ _ _ _ _ Hr Hv); reflexivity ]
  |vsteps Hr Hv].

(** A touch writes the bookkeeping fields only. *)
Lemma touch_shape now keys s :
  exists v kvs q acc, touchKeyLocked now keys s =
    s <| version := v |> <| keyVersion := kvs |> <| onChangeQueue := q |> <| accessTime := acc |>.
Proof.
  unfold touchKeyLocked.
  assert (forall l (s0 : Store), exists q, fold_left (fun s key => fire "set" key s) l s0 =
            s0 <| onChangeQueue := q |>) as Hf.
  { induction l as [|a l IH]; intros s0.
    - exists (onChangeQueue s0). by destruct s0.
    - cbn. destruct (IH (fire "set" a s0)) as [q ->]. exists q. unfold fire. by case_match. }
  destruct (Hf keys (record_versions keys s)) as [q ->]. unfold record_access, record_versions.
  case_match; [eauto 10|]. exists (wrapu64 (version s + 1)). eexists _, q, (accessTime s).
  by destruct s.
Qed.

(** The maps a deletion empties at its key. *)
Definition without (key : string) (s : Store) : Store :=
  s <| kv ::= delete key |> <| hashes ::= delete key |> <| lists ::= delete key |>
    <| sets ::= delete key |> <| zsets ::= delete key |> <| streams ::= delete key |>
    <| hlls ::= delete key |> <| jsons ::= delete key |> <| groups ::= delete key |>
    <| lastSeq ::= delete key |> <| expires ::= delete key |>
    <| rateLimiters ::= delete key |> <| notBefore ::= delete key |>
    <| tags ::= delete key |> <| timeseries ::= delete key |> <| queues ::= delete key |>
    <| accessTime ::= delete key |>.

Lemma fire_shape ev key s : exists q, fire ev key s = s <| onChangeQueue := q |>.
Proof. unfold fire. case_match; [by eexists|]. exists (onChangeQueue s). by destruct s. Qed.

Lemma touchNoEvent_shape now key s :
  exists v kvs acc, touchKeyLockedNoEvent now [key] s =
    s <| version := v |> <| keyVersion := kvs |> <| accessTime := acc |> /\
    (acc = accessTime s \/ acc = <[key := UnixNano now]> (accessTime s)).
Proof.
  unfold touchKeyLockedNoEvent, record_access, record_versions. case_match.
  - eexists _, _, _. split; [done|]. by right.
  - exists (wrapu64 (version s + 1)), (<[key := wrapu64 (version s + 1)]> (keyVersion s)), (accessTime s).
    split; [by destruct s|]. by left.
Qed.

Lemma delete_shape now key s :
  exists v kvs q acc, deleteKeyLocked now key s =
    without key s <| onChangeQueue := q |> <| version := v |> <| keyVersion := kvs |> <| accessTime := acc |> /\
    (acc = delete key (accessTime s) \/ acc = <[key := UnixNano now]> (delete key (accessTime s))).
Proof.
  unfold deleteKeyLocked. fold (without key s). destruct (fire_shape "del" key (without key s)) as [q ->].
  destruct (touchNoEvent_shape now key (without key s <| onChangeQueue := q |>)) as (v & kvs & acc & -> & Hacc).
  exists v, kvs, q, acc. split; [reflexivity|]. exact Hacc.
Qed.

#[global] Opaque touchKeyLocked touchKeyLockedNoEvent deleteKeyLocked.

End Store.
