(* ===== verification/StoreStrings.v ===== *)
(** * String commands and the generic key commands of internal/store/store.go

    SET and its variants, GET, APPEND, INCRBY, SETRANGE, GETRANGE, EXPIRE,
    TTL, PERSIST, RENAME, DEL, TYPE, KEYS, SCAN: one definition per method of
    [Store].  A method that returns [(value, error)] returns a [result], one
    that can fail at run time an [outcome]. *)
From S2P Require Import Prelude GoLib Glob Store.
Import Store.

Module Strings.

Definition wrongType : string := "wrong type".

Definition slen (s : string) : Z := Z.of_nat (String.length s).

(** ** SET and its variants *)

(** The deletions SET performs on the other types. *)
Definition clear_types (key : string) (s : Store) : Store :=
  s <| hashes ::= delete key |> <| lists ::= delete key |> <| sets ::= delete key |>
    <| zsets ::= delete key |> <| streams ::= delete key |> <| hlls ::= delete key |>
    <| lastSeq ::= delete key |>.

Definition Set_ (now : Z) (key value : string) (ttl : Z) (s : Store) : Store :=
  let s := if ttl >? 0 then s <| expires ::= <[key := now + ttl]> |>
           else s <| expires ::= delete key |> in
  let s := clear_types key (s <| kv ::= <[key := value]> |>) in
  record_access now [key] (touchKeyLocked now [key] s).

Definition SetAbsolute (now : Z) (key value : string) (expireAt : Z) (s : Store) : Store :=
  let s := s <| kv ::= <[key := value]> |> in
  let s := if IsZero expireAt then s <| expires ::= delete key |>
           else s <| expires ::= <[key := expireAt]> |> in
  touchKeyLocked now [key] (clear_types key s).

Definition SetNX (now : Z) (key value : string) (ttl : Z) (s : Store) : bool * Store :=
  let '(_, s) := expiredKeyLocked now key s in
  let '(e, s) := existsLocked now key s in
  if e then (false, s)
  else
    let s := if ttl >? 0 then s <| expires ::= <[key := now + ttl]> |> else s in
    (true, touchKeyLocked now [key] (s <| kv ::= <[key := value]> |>)).

Definition SetXX (now : Z) (key value : string) (ttl : Z) (s : Store) : bool * Store :=
  let '(expired, s) := expiredKeyLocked now key s in
  if expired then (false, s)
  else
    let '(e, s) := existsLocked now key s in
    if negb e then (false, s)
    else
      let s := if ttl >? 0 then s <| expires ::= <[key := now + ttl]> |>
               else s <| expires ::= delete key |> in
      (true, touchKeyLocked now [key] (clear_types key (s <| kv ::= <[key := value]> |>))).

Definition GetSet (now : Z) (key value : string) (s : Store) : result (string * bool) * Store :=
  let '(_, s) := expiredKeyLocked now key s in
  if has_container key s then (Err wrongType, s)
  else
    let old := kv s !! key in
    let s := s <| kv ::= <[key := value]> |> <| expires ::= delete key |>
               <| hashes ::= delete key |> <| lists ::= delete key |> <| sets ::= delete key |>
               <| zsets ::= delete key |> <| streams ::= delete key |> <| lastSeq ::= delete key |> in
    let s := touchKeyLocked now [key] s in
    match old with
    | Some v => (Ok (v, true), s)
    | None => (Ok ("", false), s)
    end.

Definition GetEx (now : Z) (key : string) (ttl : Z) (persist : bool) (s : Store) : (string * bool) * Store :=
  let '(expired, s) := expiredKeyLocked now key s in
  if expired then (("", false), s)
  else
    match kv s !! key with
    | None => (("", false), s)
    | Some v =>
        let s := if persist then s <| expires ::= delete key |>
                 else if ttl >? 0 then s <| expires ::= <[key := now + ttl]> |> else s in
        let s := if persist || (ttl >? 0) then touchKeyLocked now [key] s else s in
        ((v, true), s)
    end.

(** The first loop of MSETNX: is there a key that exists? *)
Fixpoint msetnx_check (now : Z) (keys : list string) (s : Store) : bool * Store :=
  match keys with
  | [] => (true, s)
  | key :: keys =>
      let '(_, s) := expiredKeyLocked now key s in
      let '(e, s) := existsLocked now key s in
      if e then (false, s) else msetnx_check now keys s
  end.

(** [values[i]] for the keys in order; the caller passes as many values. *)
Definition MSetNX (now : Z) (keys values : list string) (s : Store) : bool * Store :=
  let '(ok, s) := msetnx_check now keys s in
  if negb ok then (false, s)
  else
    (true, fold_left (fun s p =>
       touchKeyLocked now [p.1] (s <| kv ::= <[p.1 := p.2]> |> <| expires ::= delete p.1 |>))
       (zip keys values) s).

Definition GetDel (now : Z) (key : string) (s : Store) : (string * bool) * Store :=
  let '(expired, s) := expiredKeyLocked now key s in
  if expired then (("", false), s)
  else
    match kv s !! key with
    | None => (("", false), s)
    | Some v => ((v, true), deleteKeyLocked now key s)
    end.

(** ** Reading strings *)

Definition Get (now : Z) (key : string) (s : Store) : (string * bool) * Store :=
  if isExpiredRLocked now key s then (("", false), s)
  else if isDelayed now key s then (("", false), s)
  else
    match kv s !! key with
    | None => (("", false), s)
    | Some v => ((v, true), record_access now [key] s)
    end.

Definition mget_one (now : Z) (s : Store) (key : string) : string * bool :=
  if isExpiredRLocked now key s then ("", false)
  else if isDelayed now key s then ("", false)
  else match kv s !! key with Some v => (v, true) | None => ("", false) end.

Definition MGet (now : Z) (keys : list string) (s : Store) : list (string * bool) :=
  mget_one now s <$> keys.

Definition Strlen (now : Z) (key : string) (s : Store) : result Z :=
  if isExpiredRLocked now key s then Ok 0
  else if has_container key s then Err wrongType
  else match kv s !! key with None => Ok 0 | Some v => Ok (slen v) end.

Definition GetRange (now : Z) (key : string) (start end_ : Z) (s : Store) : result string :=
  if isExpiredRLocked now key s then Ok ""
  else if has_container key s then Err wrongType
  else
    match kv s !! key with
    | None => Ok ""
    | Some str =>
        let n := slen str in
        let start := if start <? 0 then n + start else start in
        let end_ := if end_ <? 0 then n + end_ else end_ in
        let start := if start <? 0 then 0 else start in
        let end_ := if end_ >=? n then n - 1 else end_ in
        if (start >? end_) || (start >=? n) then Ok ""
        else Ok (String.substring (Z.to_nat start) (Z.to_nat (end_ + 1 - start)) str)
    end.

(** ** Updating strings *)

Definition Append (now : Z) (key value : string) (s : Store) : result Z * Store :=
  let '(_, s) := expiredKeyLocked now key s in
  if has_container key s then (Err wrongType, s)
  else
    let v := default "" (kv s !! key) +:+ value in
    (Ok (slen v), touchKeyLocked now [key] (s <| kv ::= <[key := v]> |>)).

Definition IncrBy (now : Z) (key : string) (delta : Z) (s : Store) : result Z * Store :=
  let '(expired, s) := expiredKeyLocked now key s in
  let s := if expired then s <| kv ::= delete key |> else s in
  if has_container key s then (Err wrongType, s)
  else
    let parsed := match kv s !! key with None => (0, None) | Some v => ParseInt v end in
    match parsed with
    | (_, Some _) => (Err "value is not an integer", s)
    | (n, None) =>
        let n := wrap64 (n + delta) in
        (Ok n, touchKeyLocked now [key] (s <| kv ::= <[key := FormatInt n]> |>))
    end.

Definition Incr (now : Z) (key : string) (s : Store) : result Z * Store := IncrBy now key 1 s.

Definition DecrBy (now : Z) (key : string) (delta : Z) (s : Store) : result Z * Store :=
  IncrBy now key (wrap64 (- delta)) s.

(** [copy(dst[off:], src)] for [0 <= off <= len(dst)] *)
Definition copy_at (off : nat) (src dst : list ascii) : list ascii :=
  let n := Nat.min (length dst - off) (length src) in
  take off dst ++ take n src ++ drop (off + n)%nat dst.

(** [make([]byte, n)] *)
Definition zero_bytes (n : Z) : list ascii := replicate (Z.to_nat n) "000"%char.

(** [make] panics when [needed] is more than the run-time can allocate; the
    slice expression [buf[offset:]] panics when [offset > len(buf)], which
    happens when [needed] wraps around. *)
Definition SetRange (now : Z) (key : string) (offset : Z) (value : string) (s : Store)
    : outcome (result Z * Store) :=
  let '(_, s) := expiredKeyLocked now key s in
  if has_container key s then Ret (Err wrongType, s)
  else if offset <? 0 then Ret (Err "offset is out of range", s)
  else
    let current := list_ascii_of_string (default "" (kv s !! key)) in
    let val := list_ascii_of_string value in
    let needed := wrap64 (offset + zlen val) in
    if (needed >? zlen current) && negb (make_ok 1 needed) then Panic
    else if (needed <=? zlen current) && (offset >? zlen current) then Panic
    else
      let buf := if needed >? zlen current then copy_at 0 current (zero_bytes needed) else current in
      let current := string_of_list_ascii (copy_at (Z.to_nat offset) val buf) in
      Ret (Ok (slen current), touchKeyLocked now [key] (s <| kv ::= <[key := current]> |>)).

(** ** Generic key commands *)

Definition Exists (now : Z) (keys : list string) (s : Store) : Z :=
  zlen (filter (fun key => existsRLocked now key s = true) keys).

Definition Type_ (now : Z) (key : string) (s : Store) : string :=
  if isExpiredRLocked now key s then "none"
  else if isDelayed now key s then "none"
  else if existsStringRLocked now key s then "string"
  else if has (hashes s) key then "hash"
  else if has (lists s) key then "list"
  else if has (sets s) key then "set"
  else if has (zsets s) key then "zset"
  else if has (streams s) key then "stream"
  else if has (hlls s) key then "string"
  else if has (jsons s) key then "json"
  else if has (timeseries s) key then "timeseries"
  else "none".

Fixpoint Del (now : Z) (keys : list string) (n : Z) (s : Store) : Z * Store :=
  match keys with
  | [] => (n, s)
  | key :: keys =>
      let '(expired, s) := expiredKeyLocked now key s in
      if expired then Del now keys n s
      else
        let '(e, s) := existsLocked now key s in
        if e then Del now keys (n + 1) (deleteKeyLocked now key s) else Del now keys n s
  end.

(** [expiredKeyLocked(key) || !existsLocked(key)]: the guard of EXPIRE,
    EXPIREAT and PERSIST. *)
Definition absent (now : Z) (key : string) (s : Store) : bool * Store :=
  let '(expired, s) := expiredKeyLocked now key s in
  if expired then (true, s)
  else let '(e, s) := existsLocked now key s in (negb e, s).

Definition Expire (now : Z) (key : string) (ttl : Z) (s : Store) : bool * Store :=
  let '(gone, s) := absent now key s in
  if gone then (false, s)
  else (true, touchKeyLocked now [key] (s <| expires ::= <[key := now + ttl]> |>)).

Definition ExpireAt (now : Z) (key : string) (expireAt : Z) (s : Store) : bool * Store :=
  let '(gone, s) := absent now key s in
  if gone then (false, s)
  else
    let s := if IsZero expireAt then s <| expires ::= delete key |>
             else s <| expires ::= <[key := expireAt]> |> in
    (true, touchKeyLocked now [key] s).

Definition Persist (now : Z) (key : string) (s : Store) : bool * Store :=
  let '(gone, s) := absent now key s in
  if gone then (false, s)
  else
    let had := has (expires s) key in
    let s := s <| expires ::= delete key |> in
    (had, if had then touchKeyLocked now [key] s else s).

(** [Duration.Seconds]: whole seconds plus the fraction, in float64. *)
Definition Seconds (d : Z) : float64 :=
  fadd (f_of_Z (Z.quot d (10 ^ 9))) (fdiv (f_of_Z (Z.rem d (10 ^ 9))) (f_of_Z (10 ^ 9))).

(** [int64(f)] for a finite float in range: truncation toward zero. *)
Definition int64_of_float (f : float64) : Z :=
  match f with
  | SpecFloat.S754_finite neg m e =>
      let mag := if 0 <=? e then Zpos m * 2 ^ e else Zpos m / 2 ^ (- e) in
      if neg then - mag else mag
  | _ => 0
  end.

(** The common shape of TTL, PTTL, EXPIRETIME and PEXPIRETIME. *)
Definition with_deadline (now : Z) (key : string) (f : Z -> Z) (s : Store) : Z :=
  if isExpiredRLocked now key s || negb (existsRLocked now key s) then -2
  else
    let expireAt := default zeroTime (expires s !! key) in
    if IsZero expireAt then -1 else f expireAt.

Definition TTL (now : Z) (key : string) (s : Store) : Z :=
  with_deadline now key (fun t => int64_of_float (Seconds (time_sub t now))) s.

Definition PTTL (now : Z) (key : string) (s : Store) : Z :=
  with_deadline now key (fun t => Z.quot (time_sub t now) (10 ^ 6)) s.

Definition ExpireTime (now : Z) (key : string) (s : Store) : Z := with_deadline now key Unix s.

Definition PExpireTime (now : Z) (key : string) (s : Store) : Z := with_deadline now key UnixMilli s.

(** [if v, ok := m[key]; ok { m[newkey] = v; delete(m, key) }] *)
Definition move {A} (key newkey : string) (m : gmap string A) : gmap string A :=
  match m !! key with
  | Some v => delete key (<[newkey := v]> m)
  | None => m
  end.

Definition move_all (key newkey : string) (s : Store) : Store :=
  s <| kv ::= move key newkey |> <| hashes ::= move key newkey |>
    <| lists ::= move key newkey |> <| sets ::= move key newkey |>
    <| zsets ::= move key newkey |> <| streams ::= move key newkey |>
    <| hlls ::= move key newkey |> <| groups ::= move key newkey |>
    <| lastSeq ::= move key newkey |> <| expires ::= move key newkey |>.

Definition Rename (now : Z) (key newkey : string) (s : Store) : result unit * Store :=
  let '(expired, s) := expiredKeyLocked now key s in
  if expired then (Err "no such key", s)
  else
    let '(e, s) := existsLocked now key s in
    if negb e then (Err "no such key", s)
    else
      let s := deleteKeyLocked now newkey s in
      (Ok tt, touchKeyLocked now [key; newkey] (move_all key newkey s)).

(** ** Enumerating keys *)

Definition map_keys {A} (m : gmap string A) : list string := (map_to_list m).*1.

(** The nine loops of [allKeysRLocked]; Go's map order is irrelevant to the
    callers below, which sort or count. *)
Definition allKeysRLocked (now : Z) (s : Store) : list string :=
  filter (fun key => isVisibleRLocked now key s = true)
    (map_keys (kv s) ++ map_keys (hashes s) ++ map_keys (lists s) ++ map_keys (sets s)
     ++ map_keys (zsets s) ++ map_keys (streams s) ++ map_keys (hlls s) ++ map_keys (jsons s)
     ++ map_keys (timeseries s)).

Definition keysLocked (now : Z) (pattern : string) (s : Store) : list string :=
  let pattern := if String.eqb pattern "" then "*" else pattern in
  let all := allKeysRLocked now s in
  if String.eqb pattern "*" then all
  else filter (fun key => Glob.MatchGlob pattern key = true) all.

Definition Keys (now : Z) (pattern : string) (s : Store) : list string :=
  sort_strings (keysLocked now pattern s).

(** [keys[cursor:end]] panics when [cursor + count] has wrapped around. *)
Definition Scan (now : Z) (cursor count : Z) (pattern : string) (s : Store)
    : outcome (Z * list string) :=
  let all := sort_strings (allKeysRLocked now s) in
  let count := if count <=? 0 then 10 else count in
  let keys := if String.eqb pattern "" || String.eqb pattern "*" then all
              else filter (fun key => Glob.MatchGlob pattern key = true) all in
  if (cursor <? 0) || (cursor >=? zlen keys) then Ret (0, [])
  else
    let end_ := wrap64 (cursor + count) in
    if end_ >=? zlen keys then Ret (0, zdrop cursor keys)
    else if end_ <? cursor then Panic
    else Ret (end_, zslice cursor end_ keys).

Definition DBSize (now : Z) (s : Store) : Z := zlen (allKeysRLocked now s).

(** ** Per-key meaning of the commands *)

Definition spec_IncrBy (delta : Z) (e : Entry) : result Z * Entry :=
  if e_container e then (Err wrongType, e)
  else
    match match e_kv e with None => (0, None) | Some v => ParseInt v end with
    | (_, Some _) => (Err "value is not an integer", e)
    | (n, None) =>
        (Ok (wrap64 (n + delta)), e <| e_kv := Some (FormatInt (wrap64 (n + delta))) |>)
    end.

Definition spec_Append (value : string) (e : Entry) : result Z * Entry :=
  if e_container e then (Err wrongType, e)
  else
    let v := default "" (e_kv e) +:+ value in (Ok (slen v), e <| e_kv := Some v |>).

Definition set_ttl (now ttl : Z) (e : Entry) : Entry :=
  if ttl >? 0 then e <| e_expire := Some (now + ttl) |> else e.

Definition spec_SetNX (now : Z) (value : string) (ttl : Z) (e : Entry) : bool * Entry :=
  if e_exists now e then (false, e) else (true, set_ttl now ttl (e <| e_kv := Some value |>)).

Definition cleared (e : Entry) : Entry :=
  e <| e_hash := None |> <| e_list := None |> <| e_set := None |> <| e_zset := None |>
    <| e_stream := None |> <| e_hll := None |> <| e_lastSeq := None |>.

Definition spec_SetXX (now : Z) (value : string) (ttl : Z) (e : Entry) : bool * Entry :=
  if e_exists now e
  then (true, set_ttl now ttl (cleared (e <| e_kv := Some value |> <| e_expire := None |>)))
  else (false, e).

Definition spec_GetSet (value : string) (e : Entry) : result (string * bool) * Entry :=
  if e_container e then (Err wrongType, e)
  else
    (Ok match e_kv e with Some v => (v, true) | None => ("", false) end,
     e <| e_kv := Some value |> <| e_expire := None |> <| e_lastSeq := None |>).

Definition spec_GetEx (now ttl : Z) (persist : bool) (e : Entry) : (string * bool) * Entry :=
  match e_kv e with
  | None => (("", false), e)
  | Some v => ((v, true), if persist then e <| e_expire := None |> else set_ttl now ttl e)
  end.

Definition spec_GetDel (e : Entry) : (string * bool) * Entry :=
  match e_kv e with None => (("", false), e) | Some v => ((v, true), no_entry) end.

Definition spec_Expire (now ttl : Z) (e : Entry) : bool * Entry :=
  if e_exists now e then (true, e <| e_expire := Some (now + ttl) |>) else (false, e).

Definition spec_ExpireAt (now expireAt : Z) (e : Entry) : bool * Entry :=
  if e_exists now e
  then (true, e <| e_expire := if IsZero expireAt then None else Some expireAt |>) else (false, e).

Definition spec_Persist (now : Z) (e : Entry) : bool * Entry :=
  if e_exists now e then (is_some (e_expire e), e <| e_expire := None |>) else (false, e).

Lemma IncrBy_local now key delta : local now key (IncrBy now key delta) (spec_IncrBy delta).
Proof.
  intros s. unfold IncrBy, spec_IncrBy.
  destruct (expiredKey_split now key s) as (s1 & -> & Hk & Hne & Hs).
  set (e := live now (entry s key)) in *.
  set (s2 := if e_expired now (entry s key) then _ else s1).
  assert (entry s2 key = e) as Hk2.
  { unfold s2. destruct (e_expired now (entry s key)) eqn:E; [|done].
    entry_simp. rewrite Hk. unfold e. by rewrite live_expired. }
  assert (forall k, k <> key -> entry s2 k = entry s k) as Hne2.
  { intros k Hkk. unfold s2. rewrite <-(Hne k Hkk). destruct (e_expired _ _); [|done]. entry_simp. done. }
  clearbody s2 e. rewrite has_container_entry, Hk2. use_entry Hk2. rewrite Hkv.
  destruct (e_container e); [local_finish Hk2 Hne2|].
  destruct (match e_kv e with None => _ | Some v => _ end) as [n [err|]]; local_finish Hk2 Hne2.
Qed.

Lemma Append_local now key value : local now key (Append now key value) (spec_Append value).
Proof.
  intros s. unfold Append, spec_Append. local_start now key s s1 e Hk Hne.
  rewrite has_container_entry, Hk. use_entry Hk. rewrite Hkv.
  destruct (e_container e); local_finish Hk Hne.
Qed.

Lemma SetNX_local now key value ttl : local now key (SetNX now key value ttl) (spec_SetNX now value ttl).
Proof.
  intros s. unfold SetNX, spec_SetNX, set_ttl. local_start now key s s1 e Hk Hne.
  rewrite exists_live by (rewrite Hk; apply e_expired_live). rewrite Hk.
  destruct (e_exists now e); [local_finish Hk Hne|]. destruct (ttl >? 0); local_finish Hk Hne.
Qed.

Lemma e_exists_none now : e_exists now no_entry = false.
Proof. done. Qed.

Lemma SetXX_local now key value ttl : local now key (SetXX now key value ttl) (spec_SetXX now value ttl).
Proof.
  intros s. unfold SetXX, spec_SetXX, set_ttl, cleared, clear_types. local_start now key s s1 e Hk Hne.
  local_expired now key s e Hk Hne.
  rewrite exists_live by (rewrite Hk; apply e_expired_live). rewrite Hk.
  destruct (e_exists now e); cbn [negb]; [|local_finish Hk Hne].
  destruct (ttl >? 0); local_finish Hk Hne.
Qed.

Lemma container_none e :
  e_container e = false ->
  e_hash e = None /\ e_list e = None /\ e_set e = None /\ e_zset e = None /\ e_stream e = None /\
  e_hll e = None /\ e_json e = None /\ e_ts e = None.
Proof.
  unfold e_container. rewrite !orb_false_iff. intros H. destruct_and! H.
  repeat split; by apply is_some_false.
Qed.

Lemma GetSet_local now key value : local now key (GetSet now key value) (spec_GetSet value).
Proof.
  intros s. unfold GetSet, spec_GetSet. local_start now key s s1 e Hk Hne.
  rewrite has_container_entry, Hk. change (kv s1 !! key) with (e_kv (entry s1 key)). rewrite Hk.
  destruct (e_container e) eqn:Ec; [local_finish Hk Hne|].
  clearbody e. apply container_none in Ec as (? & ? & ? & ? & ? & ? & ? & ?).
  destruct e; cbn in *; subst. case_match; local_finish Hk Hne.
Qed.

Lemma GetEx_local now key ttl persist : local now key (GetEx now key ttl persist) (spec_GetEx now ttl persist).
Proof.
  intros s. unfold GetEx, spec_GetEx, set_ttl. local_start now key s s1 e Hk Hne.
  local_expired now key s e Hk Hne. use_entry Hk. rewrite Hkv.
  destruct (e_kv e); [|local_finish Hk Hne]. destruct persist, (ttl >? 0); cbn [orb]; local_finish Hk Hne.
Qed.

Lemma GetDel_local now key : local now key (GetDel now key) spec_GetDel.
Proof.
  intros s. unfold GetDel, spec_GetDel. local_start now key s s1 e Hk Hne.
  local_expired now key s e Hk Hne. use_entry Hk. rewrite Hkv.
  destruct (e_kv e); [|local_finish Hk Hne]. cbn [fst snd]. split; [done|].
  split; [left; by rewrite entry_delete_eq|]. intros k Hkk. rewrite entry_delete_ne by done. by apply Hne.
Qed.

Lemma absent_spec now key s :
  exists s1, absent now key s = (negb (e_exists now (live now (entry s key))), s1) /\
    entry s1 key = live now (entry s key) /\ (forall k, k <> key -> entry s1 k = entry s k).
Proof.
  unfold absent. local_start now key s s1 e Hk Hne. exists s1.
  destruct (e_expired now (entry s key)) eqn:E.
  - assert (e = no_entry) as -> by (unfold e; by apply live_none). done.
  - rewrite exists_live by (rewrite Hk; apply e_expired_live). by rewrite Hk.
Qed.

Lemma Expire_local now key ttl : local now key (Expire now key ttl) (spec_Expire now ttl).
Proof.
  intros s. unfold Expire, spec_Expire. destruct (absent_spec now key s) as (s1 & -> & Hk & Hne).
  destruct (e_exists now (live now (entry s key))); cbn [negb]; local_finish Hk Hne.
Qed.

Lemma ExpireAt_local now key t : local now key (ExpireAt now key t) (spec_ExpireAt now t).
Proof.
  intros s. unfold ExpireAt, spec_ExpireAt. destruct (absent_spec now key s) as (s1 & -> & Hk & Hne).
  destruct (e_exists now (live now (entry s key))); cbn [negb]; [|local_finish Hk Hne].
  destruct (IsZero t); local_finish Hk Hne.
Qed.

Lemma Persist_local now key : local now key (Persist now key) (spec_Persist now).
Proof.
  intros s. unfold Persist, spec_Persist. destruct (absent_spec now key s) as (s1 & -> & Hk & Hne).
  destruct (e_exists now (live now (entry s key))); cbn [negb]; [|local_finish Hk Hne].
  rewrite has_lookup. use_entry Hk. rewrite Hexpire.
  destruct (is_some (e_expire (live now (entry s key)))); local_finish Hk Hne.
Qed.

(** ** Every change marks its key for WATCH *)

Lemma Append_marked now key value : marked now key (Append now key value).
Proof.
  intros s Hr Htidy. unfold Append. marked_start now key s s1 Hr Hk Hv.
  destruct (has_container key s1); marked_finish Hr Hk Hv.
Qed.

Lemma IncrBy_marked now key delta : marked now key (IncrBy now key delta).
Proof.
  intros s Hr Htidy. unfold IncrBy. marked_start now key s s1 Hr Hk Hv.
  set (s2 := if e_expired now (entry s key) then _ else s1).
  assert (entry s2 key = live now (entry s key) /\ vstep 1 s s2) as [Hk2 Hv2].
  { unfold s2. destruct (e_expired now (entry s key)) eqn:E; [|done].
    split; [entry_simp; rewrite Hk; by rewrite live_expired|exact Hv]. }
  clearbody s2. destruct (has_container key s2); [marked_finish Hr Hk2 Hv2|].
  destruct (match kv s2 !! key with None => _ | Some v => _ end) as [n [err|]]; marked_finish Hr Hk2 Hv2.
Qed.

Lemma SetNX_marked now key value ttl : marked now key (SetNX now key value ttl).
Proof.
  intros s Hr Htidy. unfold SetNX. marked_start now key s s1 Hr Hk Hv.
  rewrite exists_live by (rewrite Hk; apply e_expired_live).
  destruct (e_exists now (entry s1 key)); [marked_finish Hr Hk Hv|]. destruct (ttl >? 0); marked_finish Hr Hk Hv.
Qed.

Lemma SetXX_marked now key value ttl : marked now key (SetXX now key value ttl).
Proof.
  intros s Hr Htidy. unfold SetXX, clear_types. marked_start now key s s1 Hr Hk Hv.
  destruct (e_expired now (entry s key)); [marked_finish Hr Hk Hv|].
  rewrite exists_live by (rewrite Hk; apply e_expired_live).
  destruct (e_exists now (entry s1 key)); cbn [negb]; [|marked_finish Hr Hk Hv].
  destruct (ttl >? 0); marked_finish Hr Hk Hv.
Qed.

Lemma Set_marked now key value ttl : marked now key (fun s => (tt, Set_ now key value ttl s)).
Proof.
  intros s Hr Htidy. cbn [snd]. unfold Set_.
  match goal with |- context [touchKeyLocked now [key] ?t] => set (t' := t) end.
  destruct (versions_access now [key] (touchKeyLocked now [key] t')) as [Ev Ek].
  assert (vstep 1 s t') as Hv.
  { apply (vstep_weaken 0); [lia|].
    apply (vstep_ext 0 s s); [unfold t', clear_types; by destruct (ttl >? 0)..|apply vstep_refl]. }
  split.
  - right. unfold kver. rewrite Ek. apply (marks_touch now [key] key s t' t' Hr Hv); [done..|left].
  - apply (vstep_ext 4 s _ _ Ev Ek). by apply (vstep4_touch now [key] s t' t').
Qed.

Lemma GetSet_marked now key value : marked now key (GetSet now key value).
Proof.
  intros s Hr Htidy. unfold GetSet. marked_start now key s s1 Hr Hk Hv.
  destruct (has_container key s1); [marked_finish Hr Hk Hv|]. destruct (kv s1 !! key); marked_finish Hr Hk Hv.
Qed.

Lemma GetEx_marked now key ttl persist : marked now key (GetEx now key ttl persist).
Proof.
  intros s Hr Htidy. unfold GetEx. marked_start now key s s1 Hr Hk Hv.
  destruct (e_expired now (entry s key)); [marked_finish Hr Hk Hv|].
  destruct (kv s1 !! key); [|marked_finish Hr Hk Hv].
  destruct persist, (ttl >? 0); cbn [orb]; marked_finish Hr Hk Hv.
Qed.

Lemma GetDel_marked now key : marked now key (GetDel now key).
Proof.
  intros s Hr Htidy. unfold GetDel. marked_start now key s s1 Hr Hk Hv.
  destruct (e_expired now (entry s key)); [marked_finish Hr Hk Hv|].
  destruct (kv s1 !! key); marked_finish Hr Hk Hv.
Qed.

Lemma absent_vsplit now key s :
  room 1 s ->
  exists b s1, absent now key s = (b, s1) /\ entry s1 key = live now (entry s key) /\ vstep 1 s s1.
Proof.
  intros Hr. unfold absent. destruct (expiredKey_vsplit now key s Hr) as (s1 & -> & Hk & Hv).
  destruct (e_expired now (entry s key)); [by exists true, s1|].
  rewrite exists_live by (rewrite Hk; apply e_expired_live). eauto.
Qed.

Lemma Expire_marked now key ttl : marked now key (Expire now key ttl).
Proof.
  intros s Hr Htidy. unfold Expire.
  destruct (absent_vsplit now key s (room_le 4 1 s ltac:(lia) Hr)) as (b & s1 & -> & Hk & Hv).
  destruct b; marked_finish Hr Hk Hv.
Qed.

Lemma ExpireAt_marked now key t : marked now key (ExpireAt now key t).
Proof.
  intros s Hr Htidy. unfold ExpireAt.
  destruct (absent_vsplit now key s (room_le 4 1 s ltac:(lia) Hr)) as (b & s1 & -> & Hk & Hv).
  destruct b; [marked_finish Hr Hk Hv|]. destruct (IsZero t); marked_finish Hr Hk Hv.
Qed.

Lemma Persist_marked now key : marked now key (Persist now key).
Proof.
  intros s Hr Htidy. unfold Persist.
  destruct (absent_vsplit now key s (room_le 4 1 s ltac:(lia) Hr)) as (b & s1 & -> & Hk & Hv).
  destruct b; [marked_finish Hr Hk Hv|]. unfold has. destruct (expires s1 !! key) eqn:E; [marked_finish Hr Hk Hv|].
  cbn [fst snd]. split; [|vsteps Hr Hv].
  left. apply live_kept. rewrite <-Hk, entry_set_expires. rewrite lookup_delete_eq, <-E. done.
Qed.

(** ** Reads *)

Definition spec_Get (now : Z) (e : Entry) : string * bool :=
  if e_delayed now e then ("", false)
  else match e_kv e with Some v => (v, true) | None => ("", false) end.

Lemma Get_local now key : local_read now key (fun s => (Get now key s).1) (spec_Get now).
Proof.
  intros s. unfold Get, spec_Get. rewrite isExpired_entry, isDelayed_entry. unfold live.
  destruct (e_expired now (entry s key)); [done|]. destruct (e_delayed now (entry s key)); [done|].
  cbn. by destruct (kv s !! key).
Qed.

Lemma entry_Get now key s k : entry (Get now key s).2 k = entry s k.
Proof. unfold Get. repeat case_match; try done. apply entry_record_access. Qed.

Lemma mget_one_local now key : local_read now key (fun s => mget_one now s key) (spec_Get now).
Proof.
  intros s. unfold mget_one, spec_Get. rewrite isExpired_entry, isDelayed_entry. unfold live.
  destruct (e_expired now (entry s key)); [done|]. destruct (e_delayed now (entry s key)); [done|]. done.
Qed.

Definition spec_Strlen (e : Entry) : result Z :=
  if e_container e then Err wrongType else Ok (slen (default "" (e_kv e))).

Lemma Strlen_local now key : local_read now key (Strlen now key) spec_Strlen.
Proof.
  intros s. unfold Strlen, spec_Strlen. rewrite isExpired_entry, has_container_entry. unfold live.
  destruct (e_expired now (entry s key)); [done|]. destruct (e_container (entry s key)); [done|].
  cbn. by destruct (kv s !! key).
Qed.

Definition spec_Type (now : Z) (e : Entry) : string :=
  if e_delayed now e then "none"
  else if is_some (e_kv e) then "string"
  else if is_some (e_hash e) then "hash"
  else if is_some (e_list e) then "list"
  else if is_some (e_set e) then "set"
  else if is_some (e_zset e) then "zset"
  else if is_some (e_stream e) then "stream"
  else if is_some (e_hll e) then "string"
  else if is_some (e_json e) then "json"
  else if is_some (e_ts e) then "timeseries"
  else "none".

Lemma Type_local now key : local_read now key (Type_ now key) (spec_Type now).
Proof.
  intros s. unfold Type_, existsStringRLocked, spec_Type. rewrite isExpired_entry, isDelayed_entry.
  unfold live. destruct (e_expired now (entry s key)); [done|].
  by destruct (e_delayed now (entry s key)).
Qed.

Lemma existsRLocked_local now key : local_read now key (existsRLocked now key) (e_exists now).
Proof. intros s. by rewrite existsRLocked_entry, e_exists_live. Qed.

Definition spec_deadline (now : Z) (f : Z -> Z) (e : Entry) : Z :=
  if negb (e_exists now e) then -2
  else match e_expire e with
       | None => -1
       | Some t => if IsZero t then -1 else f t
       end.

Lemma with_deadline_local now key f :
  local_read now key (with_deadline now key f) (spec_deadline now f).
Proof.
  intros s. unfold with_deadline, spec_deadline. rewrite isExpired_entry, existsRLocked_entry, e_exists_live.
  unfold live. destruct (e_expired now (entry s key)) eqn:E; cbn [orb].
  { unfold e_exists. by rewrite E. }
  destruct (e_exists now (entry s key)); [|done]. cbn [negb]. cbn [e_expire entry].
  by destruct (expires s !! key).
Qed.

(** ** SET and GET *)

Lemma entry_Set now key value ttl s k :
  entry (Set_ now key value ttl s) k =
    if decide (k = key) then
      set_ttl now ttl (cleared (entry s key <| e_kv := Some value |> <| e_expire := None |>))
    else entry s k.
Proof.
  unfold Set_, clear_types, set_ttl, cleared. case_decide; subst.
  - destruct (ttl >? 0); entry_simp; done.
  - destruct (ttl >? 0); entry_simp; done.
Qed.

(** SET with a time to live.  After SET key value PX ttl at time [now],
    GET at any later time returns the value exactly while the deadline is
    ahead (for ever when no ttl was given), unless the key is still delayed;
    TYPE says "string", PTTL counts down from ttl to the deadline, and no
    other key has changed. *)
Theorem set_get_ttl now now' key value ttl s :
  0 <= now -> now <= now' -> notBefore s !! key = None ->
  let s' := Set_ now key value ttl s in
  (Get now' key s').1 =
    (if (0 <? ttl) && (now + ttl <=? now') then ("", false) else (value, true)) /\
  Type_ now' key s' = (if (0 <? ttl) && (now + ttl <=? now') then "none" else "string") /\
  (in_int64 ttl ->
   PTTL now' key s' = (if 0 <? ttl then if now + ttl <=? now' then -2 else Z.quot (now + ttl - now') (10 ^ 6)
                       else -1)) /\
  (forall k, k <> key -> entry s' k = entry s k).
Proof.
  intros H0 Hle Hnb. cbv zeta. unfold PTTL.
  rewrite (Get_local now' key), (Type_local now' key), (with_deadline_local now' key).
  rewrite !entry_Set, !decide_True by done.
  set (e := entry s key). assert (e_notBefore e = None) as Hnbe by done. clearbody e.
  assert (forall t, 0 < t -> IsZero (now + t) = false) as Hz.
  { intros t Ht. unfold IsZero, zeroTime. apply Z.eqb_neq. lia. }
  split; [|split; [|split]].
  - unfold set_ttl, live, e_expired, spec_Get, e_delayed, cleared. rewrite Z.gtb_ltb.
    destruct (Z.ltb_spec 0 ttl); cbn; [|by rewrite Hnbe]. rewrite Hz by done. cbn.
    destruct (Z.leb_spec (now + ttl) now'), (Z.ltb_spec now' (now + ttl)); try lia; cbn; [done|].
    by rewrite Hnbe.
  - unfold set_ttl, live, e_expired, spec_Type, e_delayed, cleared. rewrite Z.gtb_ltb.
    destruct (Z.ltb_spec 0 ttl); cbn; [|by rewrite Hnbe]. rewrite Hz by done. cbn.
    destruct (Z.leb_spec (now + ttl) now'), (Z.ltb_spec now' (now + ttl)); try lia; cbn; [done|].
    by rewrite Hnbe.
  - intros Httl. unfold set_ttl, live, e_expired, spec_deadline, e_exists, e_expired, e_delayed, cleared.
    rewrite Z.gtb_ltb.
    destruct (Z.ltb_spec 0 ttl); cbn; [|by rewrite Hnbe]. rewrite Hz by done. cbn.
    destruct (Z.leb_spec (now + ttl) now'), (Z.ltb_spec now' (now + ttl)); try lia; cbn; [done|].
    rewrite Hnbe, Hz by done. cbn. destruct (Z.ltb_spec now' (now + ttl)); [|lia]. cbn. f_equal.
    unfold time_sub, in_int64, int64_min, int64_max in *. lia.
  - intros k Hk. by rewrite entry_Set, decide_False.
Qed.

Lemma set_get_ttl_witness :
  let s' := Set_ 1000 "k" "v" 500 New in
  (Get 1200 "k" s').1 = ("v", true) /\ (Get 1500 "k" s').1 = ("", false).
Proof.
  cbv zeta. split.
  - apply (set_get_ttl 1000 1200 "k" "v" 500 New); [lia|lia|reflexivity].
  - apply (set_get_ttl 1000 1500 "k" "v" 500 New); [lia|lia|reflexivity].
Defined.

(** ** RENAME *)

(** What RENAME carries over, and what it leaves behind. *)
Definition carried (e : Entry) : Entry :=
  e <| e_json := None |> <| e_ts := None |> <| e_notBefore := None |>.

Definition left_behind (e : Entry) : Entry :=
  no_entry <| e_json := e_json e |> <| e_ts := e_ts e |> <| e_notBefore := e_notBefore e |>.

Lemma move_other {A} key newkey (m : gmap string A) k :
  k <> key -> k <> newkey -> move key newkey m !! k = m !! k.
Proof. intros. unfold move. case_match; [|done]. by rewrite lookup_delete_ne, lookup_insert_ne. Qed.

Lemma move_new {A} key newkey (m : gmap string A) :
  key <> newkey -> m !! newkey = None -> move key newkey m !! newkey = m !! key.
Proof.
  intros ? Hn. unfold move. destruct (m !! key) eqn:E; [|done].
  by rewrite lookup_delete_ne, lookup_insert_eq.
Qed.

Lemma move_old {A} key newkey (m : gmap string A) : move key newkey m !! key = None.
Proof. unfold move. destruct (m !! key) eqn:E; [|done]. by rewrite lookup_delete_eq. Qed.

Lemma entry_move_all key newkey s k :
  entry (move_all key newkey s) k =
    mkE (move key newkey (kv s) !! k) (move key newkey (hashes s) !! k) (move key newkey (lists s) !! k)
        (move key newkey (sets s) !! k) (move key newkey (zsets s) !! k) (move key newkey (streams s) !! k)
        (move key newkey (hlls s) !! k) (jsons s !! k) (timeseries s !! k)
        (move key newkey (groups s) !! k) (move key newkey (lastSeq s) !! k)
        (move key newkey (expires s) !! k) (notBefore s !! k).
Proof. reflexivity. Qed.

Lemma Rename_ok now key newkey s :
  e_exists now (entry s key) = true ->
  Rename now key newkey s =
    (Ok tt, touchKeyLocked now [key; newkey] (move_all key newkey (deleteKeyLocked now newkey s))).
Proof.
  intros Hex. assert (e_expired now (entry s key) = false) as Hx.
  { unfold e_exists in Hex. by destruct (e_expired _ _). }
  unfold Rename. by rewrite expiredKey_false, exists_live, Hex by done.
Qed.

Lemma Rename_err now key newkey s :
  e_exists now (entry s key) = false ->
  exists s1, Rename now key newkey s = (Err "no such key", s1) /\
    entry s1 key = live now (entry s key) /\ (forall k, k <> key -> entry s1 k = entry s k).
Proof.
  intros Hex. unfold Rename. destruct (expiredKey_split now key s) as (s1 & -> & Hk & Hne & Hs).
  exists s1. destruct (e_expired now (entry s key)) eqn:E; [done|].
  rewrite exists_live by (rewrite Hk; apply e_expired_live). rewrite Hk, e_exists_live, Hex. done.
Qed.

(** RENAME of a key to a different one succeeds exactly when the key
    exists, replaces the target by the value, type and deadline of the source
    and removes them from the source; no third key changes.  A JSON document,
    a time series and a delay are not carried over. *)
Theorem rename_moves now key newkey s :
  key <> newkey ->
  let e := live now (entry s key) in
  let r := Rename now key newkey s in
  r.1 = (if e_exists now e then Ok tt else Err "no such key") /\
  (e_exists now e = true -> entry r.2 newkey = carried e /\ entry r.2 key = left_behind e) /\
  (e_exists now e = false -> entry r.2 key = e /\ entry r.2 newkey = entry s newkey) /\
  (forall k, k <> key -> k <> newkey -> entry r.2 k = entry s k).
Proof.
  intros Hd. cbv zeta. rewrite e_exists_live. destruct (e_exists now (entry s key)) eqn:Hex.
  - rewrite (Rename_ok _ _ _ _ Hex). cbn [fst snd].
    assert (live now (entry s key) = entry s key) as ->.
    { apply live_fresh. unfold e_exists in Hex. by destruct (e_expired _ _). }
    pose proof (entry_delete_eq now newkey s) as Hn2. pose proof (entry_delete_ne now newkey s) as Hk2.
    generalize dependent (deleteKeyLocked now newkey s). intros s2 Hn2 Hk2.
    setoid_rewrite entry_touch. setoid_rewrite entry_move_all.
    split; [done|]. split; [|split; [done|]].
    + intros _. rewrite !move_old. use_entry Hn2. rewrite !move_new by done.
      rewrite Hjson, Hts, HnotBefore. split; [unfold carried; by rewrite <-(Hk2 key)|].
      specialize (Hk2 key Hd). clear -Hk2. use_entry Hk2. by rewrite Hjson, Hts, HnotBefore.
    + intros k H1 H2. rewrite !move_other by done. by rewrite <-Hk2.
  - destruct (Rename_err now key newkey s Hex) as (s1 & -> & Hk & Hne). cbn [fst snd].
    split; [done|]. split; [done|]. split; [|by auto]. intros _. split; [done|]. by apply Hne.
Qed.

Lemma rename_moves_witness :
  let s := Set_ 0 "a" "v" 0 New in
  (Rename 1 "a" "b" s).1 = Ok tt /\ entry (Rename 1 "a" "b" s).2 "b" = carried (live 1 (entry s "a")) /\
  (Get 2 "b" (Rename 1 "a" "b" s).2).1 = ("v", true).
Proof.
  cbv zeta.
  assert (e_exists 1 (live 1 (entry (Set_ 0 "a" "v" 0 New) "a")) = true) as Hx by (vm_compute; reflexivity).
  destruct (rename_moves 1 "a" "b" (Set_ 0 "a" "v" 0 New)) as (H1 & H2 & _); [discriminate|].
  rewrite Hx in H1. split; [exact H1|]. split; [exact (proj1 (H2 Hx))|vm_compute; reflexivity].
Defined.

(** RENAME onto itself destroys the key: the target is deleted before
    the source is moved, so RENAME key key answers OK and leaves nothing. *)
Theorem rename_self_destroys now key s :
  e_exists now (entry s key) = true ->
  (Rename now key key s).1 = Ok tt /\ entry (Rename now key key s).2 key = no_entry.
Proof.
  intros Hex. rewrite (Rename_ok _ _ _ _ Hex). cbn [fst snd]. split; [done|].
  rewrite entry_touch, entry_move_all, !move_old.
  pose proof (entry_delete_eq now key s) as Hd. use_entry Hd. by rewrite Hjson, Hts, HnotBefore.
Qed.

Lemma rename_self_destroys_witness :
  (Rename 1 "a" "a" (Set_ 0 "a" "v" 0 New)).1 = Ok tt /\
  (Get 2 "a" (Rename 1 "a" "a" (Set_ 0 "a" "v" 0 New)).2).1 = ("", false).
Proof.
  assert (e_exists 1 (entry (Set_ 0 "a" "v" 0 New) "a") = true) as Hx by (vm_compute; reflexivity).
  split; [exact (proj1 (rename_self_destroys 1 "a" (Set_ 0 "a" "v" 0 New) Hx))|vm_compute; reflexivity].
Defined.

(** ** INCRBY *)

(** C40: INCRBY on every kind of key that has not expired and is not delayed.  When the key holds text that
    strconv.ParseInt reads as n, the decimal text of any int64 among them, the answer is n plus the
    increment, reduced modulo 2^64 to the int64 range (the exact sum when it fits), GET then returns its
    decimal text and a further INCRBY starts from it; a key without a value counts as 0; a value that ParseInt
    refuses and a key of another type are answered with their errors, and the key keeps its value, type
    and deadline. *)
Theorem incrby_exact now key delta s :
  e_expired now (entry s key) = false -> notBefore s !! key = None ->
  let r := IncrBy now key delta s in
  (forall n, in_int64 n -> ParseInt (FormatInt n) = (n, None)) /\
  (forall n, e_container (entry s key) = false -> from_option ParseInt (0, None) (kv s !! key) = (n, None) ->
     r.1 = Ok (wrap64 (n + delta)) /\
     (in_int64 (n + delta) -> r.1 = Ok (n + delta)) /\
     (Get now key r.2).1 = (FormatInt (wrap64 (n + delta)), true) /\
     (forall d, (IncrBy now key d r.2).1 = Ok (wrap64 (wrap64 (n + delta) + d)))) /\
  (forall v n e, e_container (entry s key) = false -> kv s !! key = Some v -> ParseInt v = (n, Some e) ->
     r.1 = Err "value is not an integer"%string /\ live now (entry r.2 key) = entry s key) /\
  (e_container (entry s key) = true -> r.1 = Err wrongType /\ live now (entry r.2 key) = entry s key).
Proof.
  intros Hx Hnb. cbv zeta.
  destruct (local_use _ _ _ _ s (IncrBy_local now key delta)) as (Hr & He & _).
  set (r := IncrBy now key delta s) in *. clearbody r.
  rewrite (live_fresh _ _ Hx) in *. unfold spec_IncrBy in *. cbn [entry e_kv] in *.
  split; [exact ParseInt_FormatInt|]. split; [|split].
  - intros n Hc Hp. rewrite Hc in *.
    assert (match kv s !! key with Some v => ParseInt v | None => (0, None) end = (n, None)) as Hp' by (by destruct (kv s !! key)).
    rewrite Hp' in *. cbn [fst snd] in *. set (m := wrap64 (n + delta)) in *. assert (in_int64 m) as Hm by apply wrap64_range.
    set (e := entry s key <| e_kv := Some (FormatInt m) |>) in *.
    assert (live now e = e) as Hle by (apply live_fresh; exact Hx).
    split; [done|]. split; [intros; unfold m in *; by rewrite Hr, wrap64_id|]. split.
    + rewrite (Get_local now key r.2), He, Hle. unfold spec_Get, e_delayed, e. cbn. by rewrite Hnb.
    + intros d. destruct (local_use _ _ _ _ r.2 (IncrBy_local now key d)) as (-> & _). rewrite He, Hle.
      unfold spec_IncrBy. assert (e_container e = false) as -> by exact Hc. cbn. by rewrite ParseInt_FormatInt.
  - intros v n e Hc Hv Hp. rewrite Hc in *. cbn in *. rewrite Hv, Hp in *. split; [done|]. rewrite He. by apply live_fresh.
  - intros Hc. rewrite Hc in *. split; [done|]. rewrite He. by apply live_fresh.
Qed.

Lemma incrby_exact_witness :
  let s := Set_ 0 "n" "9223372036854775807" 0 New in
  (IncrBy 1 "n" 1 s).1 = Ok (-9223372036854775808).
Proof.
  cbv zeta.
  destruct (incrby_exact 1 "n" 1 (Set_ 0 "n" "9223372036854775807" 0 New)) as (_ & H & _); [vm_compute; reflexivity..|].
  refine (proj1 (H 9223372036854775807 _ _)); vm_compute; reflexivity.
Defined.

(** ** SETRANGE and GETRANGE *)

Lemma copy_at_length off src dst :
  (off + length src <= length dst)%nat -> length (copy_at off src dst) = length dst.
Proof.
  intros H. unfold copy_at. rewrite !length_app, length_take, length_drop, length_take. lia.
Qed.

Lemma copy_at_lookup off src dst i :
  (off + length src <= length dst)%nat ->
  copy_at off src dst !! i =
    if decide (off <= i < off + length src)%nat then src !! (i - off)%nat else dst !! i.
Proof.
  intros H. unfold copy_at. rewrite Nat.min_r by lia. rewrite firstn_all.
  case_decide.
  - rewrite lookup_app_r by (rewrite length_take; lia). rewrite length_take, Nat.min_l by lia.
    by rewrite lookup_app_l by lia.
  - destruct (decide (i < off)%nat).
    + rewrite lookup_app_l by (rewrite length_take; lia). by rewrite lookup_take_lt.
    + rewrite lookup_app_r by (rewrite length_take; lia). rewrite length_take, Nat.min_l by lia.
      rewrite lookup_app_r by lia. rewrite lookup_drop. f_equal. lia.
Qed.

(** The bytes of a string, zero beyond its end. *)
Definition byte_at (s : string) (i : nat) : ascii :=
  default "000"%char (list_ascii_of_string s !! i).

Lemma byte_at_list l i : byte_at (string_of_list_ascii l) i = default "000"%char (l !! i).
Proof. unfold byte_at. by rewrite list_ascii_of_string_of_list_ascii. Qed.

Lemma slen_list l : slen (string_of_list_ascii l) = zlen l.
Proof.
  unfold slen, zlen. f_equal. induction l as [|c l IH]; [done|]. cbn. by rewrite IH.
Qed.

Lemma length_list_ascii v : length (list_ascii_of_string v) = String.length v.
Proof. induction v as [|c v IH]; [done|]. cbn. by rewrite IH. Qed.

Lemma kv_touch now keys s : kv (touchKeyLocked now keys s) = kv s.
Proof.
  apply map_eq. intros k. pose proof (entry_touch now keys s k) as H. by apply (f_equal e_kv) in H.
Qed.

(** SETRANGE.  When offset plus length is at most what the run-time can
    allocate, the command succeeds; byte [i] of the new value is byte [i - offset] of the argument
    inside the written window and the old byte (zero past the old end)
    outside it, and the length is the larger of the old one and the end of
    the window.  A greater sum makes the allocation panic, and one that
    overflows the slice expression. *)
Theorem setrange_bytes now key offset value s :
  e_expired now (entry s key) = false -> e_container (entry s key) = false -> 0 <= offset ->
  let old := default "" (kv s !! key) in
  (offset + slen value <= maxAlloc ->
   exists new s', SetRange now key offset value s = Ret (Ok (slen new), s') /\
     kv s' !! key = Some new /\ slen new = Z.max (slen old) (offset + slen value) /\
     forall i : nat,
       byte_at new i = if decide (offset <= Z.of_nat i < offset + slen value)
                       then byte_at value (i - Z.to_nat offset) else byte_at old i) /\
  (slen old <= maxAlloc -> maxAlloc < offset + slen value < 2 ^ 64 -> slen old < offset ->
   SetRange now key offset value s = Panic).
Proof.
  intros Hx Hc Hoff. cbv zeta. unfold SetRange. rewrite expiredKey_false by done.
  rewrite has_container_entry, Hc, (proj2 (Z.ltb_ge _ _)) by lia.
  set (old := default "" (kv s !! key)). set (cur := list_ascii_of_string old).
  set (val := list_ascii_of_string value).
  assert (zlen val = slen value) as Hval by (unfold zlen, slen, val; by rewrite length_list_ascii).
  assert (zlen cur = slen old) as Hcur by (unfold zlen, slen, cur; by rewrite length_list_ascii).
  rewrite Hval, Hcur. split.
  - intros Hmax. rewrite wrap64_id by (unfold in_int64, int64_min, int64_max, maxAlloc, slen in *; lia).
    assert ((offset + slen value >? slen old) && negb (make_ok 1 (offset + slen value)) = false) as ->.
    { apply andb_false_iff. right. unfold make_ok. rewrite Z.mul_1_r, (proj2 (Z.leb_le 0 _)), (proj2 (Z.leb_le _ maxAlloc)); [done| |]; unfold slen in *; lia. }
    assert ((offset + slen value <=? slen old) && (offset >? slen old) = false) as ->.
    { rewrite Z.gtb_ltb. destruct (Z.leb_spec (offset + slen value) (slen old)); [|done].
      apply Z.ltb_ge. unfold slen in *. lia. }
    set (buf := if _ >? _ then _ else cur).
    assert (zlen buf = Z.max (slen old) (offset + slen value) /\
            forall i, default "000"%char (buf !! i) = byte_at old i) as [Hbl Hbg].
    { unfold buf. rewrite Z.gtb_ltb. destruct (Z.ltb_spec (slen old) (offset + slen value)).
      - assert (length (zero_bytes (offset + slen value)) = Z.to_nat (offset + slen value)) as Hzl
          by apply length_replicate.
        split; [unfold zlen; rewrite copy_at_length; unfold zlen in *; lia|].
        intros i. rewrite copy_at_lookup by (unfold zlen in *; lia). case_decide.
        + by rewrite Nat.sub_0_r.
        + unfold byte_at. fold cur. rewrite (lookup_ge_None_2 cur i) by (unfold zlen in *; lia). cbn.
          unfold zero_bytes. destruct (decide (i < Z.to_nat (offset + slen value))%nat).
          * by rewrite lookup_replicate_2.
          * rewrite lookup_ge_None_2; [done|]. rewrite length_replicate. lia.
      - split; [lia|done]. }
    eexists _, _. split; [done|]. split; [by rewrite kv_touch; store_cbn; rewrite lookup_insert_eq|].
    assert (Z.to_nat offset + length val <= length buf)%nat by (unfold zlen in *; lia).
    split; [rewrite slen_list; unfold zlen; rewrite copy_at_length by done; unfold zlen in *; lia|].
    intros i. rewrite byte_at_list, copy_at_lookup by done.
    repeat case_decide; try (unfold zlen in *; lia); [done|apply Hbg].
  - intros Hom Hov Ho. destruct (decide (offset + slen value <= int64_max)) as [Hfit|Hwrap].
    { rewrite wrap64_id by (unfold in_int64, int64_min, int64_max, maxAlloc, slen in *; lia).
      assert ((offset + slen value >? slen old) && negb (make_ok 1 (offset + slen value)) = true) as ->; [|done].
      apply andb_true_iff. split; [apply Z.gtb_lt; unfold slen in *; lia|]. unfold make_ok.
      rewrite Z.mul_1_r, (proj2 (Z.leb_gt _ maxAlloc)) by lia. by rewrite andb_false_r. }
    set (needed := wrap64 _). assert (needed = offset + slen value - 2 ^ 64) as ->.
    { unfold needed, wrap64, int64_max, int64_min in *.
      rewrite <-(Z.mod_unique (offset + slen value + 2 ^ 63) (2 ^ 64) 1 (offset + slen value + 2 ^ 63 - 2 ^ 64));
        lia. }
    case_match; [done|]. rewrite (proj2 (Z.leb_le _ _)) by (unfold slen, int64_min in *; lia).
    by rewrite Z.gtb_ltb, (proj2 (Z.ltb_lt _ _)) by lia.
Qed.

Lemma setrange_bytes_witness :
  (exists s', SetRange 1 "k" 6 "Redis" (Set_ 0 "k" "Hello World" 0 New) = Ret (Ok 11, s') /\
     kv s' !! "k" = Some "Hello Redis") /\
  SetRange 1 "k" 9223372036854775807 "x" New = Panic.
Proof.
  split.
  - eexists. split; vm_compute; reflexivity.
  - refine (proj2 (setrange_bytes 1 "k" 9223372036854775807 "x" New _ _ _) _ _ _);
      [vm_compute; reflexivity|vm_compute; reflexivity|lia|vm_compute; discriminate| |vm_compute; reflexivity].
    unfold maxAlloc. change (slen "x") with 1. lia.
Defined.

(** ** KEYS and SCAN *)

Lemma elem_of_map_keys {A} (m : gmap string A) k : k ∈ map_keys m <-> has m k = true.
Proof.
  unfold map_keys, has. rewrite list_elem_of_fmap. split.
  - intros ([k' v] & -> & Hkv%elem_of_map_to_list). cbn. by rewrite Hkv.
  - destruct (m !! k) as [v|] eqn:E; [|done]. intros _. exists (k, v). split; [done|].
    by apply elem_of_map_to_list.
Qed.

Lemma elem_of_allKeys now s k : k ∈ allKeysRLocked now s <-> existsRLocked now k s = true.
Proof.
  unfold allKeysRLocked, existsRLocked, isVisibleRLocked, has_container.
  rewrite list_elem_of_filter, !elem_of_app, !elem_of_map_keys.
  destruct (isExpiredRLocked now k s); [naive_solver|]. destruct (isDelayed now k s); [naive_solver|].
  rewrite !orb_true_iff. tauto.
Qed.

(** The pattern argument as KEYS and SCAN read it. *)
Definition pattern_accepts (pattern key : string) : bool :=
  String.eqb pattern "" || String.eqb pattern "*" || Glob.MatchGlob pattern key.

Lemma keysLocked_filter now pattern s :
  keysLocked now pattern s = filter (fun key => pattern_accepts pattern key = true) (allKeysRLocked now s).
Proof.
  unfold keysLocked, pattern_accepts. destruct (String.eqb_spec pattern "") as [->|Hp]; cbn [orb].
  - symmetry. by apply filter_all.
  - destruct (String.eqb_spec pattern "*"); cbn [orb]; [|done]. symmetry. by apply filter_all.
Qed.

Lemma StronglySorted_sort l : StronglySorted str_le (sort_strings l).
Proof. apply Sorted_StronglySorted; [apply _|apply sort_strings_sorted]. Qed.

Lemma filter_sort_strings (P : string -> Prop) `{forall x, Decision (P x)} l :
  filter P (sort_strings l) = sort_strings (filter P l).
Proof.
  apply (Sorted_unique str_le).
  - apply StronglySorted_Sorted, StronglySorted_filter, StronglySorted_sort.
  - apply sort_strings_sorted.
  - by rewrite (sort_strings_perm (filter P l)), (sort_strings_perm l).
Qed.

Lemma scan_keys now pattern s :
  (if String.eqb pattern "" || String.eqb pattern "*" then sort_strings (allKeysRLocked now s)
   else filter (fun key => Glob.MatchGlob pattern key = true) (sort_strings (allKeysRLocked now s)))
  = Keys now pattern s.
Proof.
  unfold Keys. rewrite keysLocked_filter. unfold pattern_accepts.
  destruct (String.eqb pattern "" || String.eqb pattern "*") eqn:E.
  - f_equal. symmetry. by apply filter_all.
  - rewrite filter_sort_strings. done.
Qed.

(** A client that follows the cursor from 0 until it is 0 again. *)
Fixpoint scan_all (fuel : nat) (now cursor count : Z) (pattern : string) (s : Store)
    : option (list string) :=
  match fuel with
  | O => None
  | S fuel =>
      match Scan now cursor count pattern s with
      | Panic => None
      | Ret (next, page) =>
          if next =? 0 then Some page
          else app page <$> scan_all fuel now next count pattern s
      end
  end.

Lemma scan_all_spec now count pattern s fuel cursor :
  0 <= cursor -> (cursor = 0 \/ cursor < zlen (Keys now pattern s)) ->
  in_int64 count -> zlen (Keys now pattern s) + Z.max count 10 <= int64_max ->
  zlen (Keys now pattern s) - cursor < Z.of_nat fuel ->
  scan_all fuel now cursor count pattern s = Some (zdrop cursor (Keys now pattern s)).
Proof.
  pose proof (zlen_nonneg (Keys now pattern s)).
  revert cursor. induction fuel as [|fuel IH]; intros cursor Hc Hk Hci Hcount Hf; [lia|].
  cbn [scan_all]. unfold Scan. rewrite scan_keys, Z.geb_leb.
  set (c := if count <=? 0 then 10 else count).
  assert (0 < c /\ c <= Z.max count 10) as [Hc0 Hcm] by (unfold c; destruct (Z.leb_spec count 0); lia).
  clearbody c. set (keys := Keys now pattern s) in *. rewrite (proj2 (Z.ltb_ge cursor 0)) by lia. cbn [orb].
  destruct (Z.leb_spec (zlen keys) cursor).
  { cbn. f_equal. unfold zdrop. rewrite drop_ge; [done|]. unfold zlen in *. lia. }
  rewrite wrap64_id by (unfold in_int64, int64_min; lia).
  rewrite Z.geb_leb. destruct (Z.leb_spec (zlen keys) (cursor + c)); [done|].
  rewrite (proj2 (Z.ltb_ge _ _)) by lia. rewrite (proj2 (Z.eqb_neq _ _)) by lia.
  rewrite IH by (done || lia). cbn. f_equal. unfold zslice, zdrop.
  replace (cursor + c - cursor) with c by lia.
  replace (Z.to_nat (cursor + c)) with (Z.to_nat cursor + Z.to_nat c)%nat by lia.
  by rewrite <-drop_drop, take_drop.
Qed.

(** KEYS and SCAN.  KEYS lists, in order, exactly the existing keys that
    match the pattern; a client that follows the SCAN cursor over a store
    that does not change gets exactly that list, page after page, and it
    ends within one call per key. *)
Theorem scan_complete now count pattern s :
  in_int64 count -> zlen (Keys now pattern s) + Z.max count 10 <= int64_max ->
  scan_all (S (length (Keys now pattern s))) now 0 count pattern s = Some (Keys now pattern s) /\
  Sorted str_le (Keys now pattern s) /\
  (forall k, k ∈ Keys now pattern s <->
     existsRLocked now k s = true /\ pattern_accepts pattern k = true).
Proof.
  intros Hci Hc. split; [|split].
  - rewrite scan_all_spec by (done || lia || by left || (unfold zlen; lia)). done.
  - apply sort_strings_sorted.
  - intros k. unfold Keys. rewrite sort_strings_perm, keysLocked_filter, list_elem_of_filter, elem_of_allKeys.
    tauto.
Qed.

Definition two_keys : Store := Set_ 0 "b" "2" 0 (Set_ 0 "a" "1" 0 New).

Lemma scan_complete_witness :
  Keys 0 "*" two_keys = ["a"; "b"] /\
  scan_all (S (length (Keys 0 "*" two_keys))) 0 0 1 "*" two_keys = Some (Keys 0 "*" two_keys).
Proof.
  assert (Keys 0 "*" two_keys = ["a"; "b"]) as E by (vm_compute; reflexivity).
  split; [exact E|]. refine (proj1 (scan_complete 0 1 "*" two_keys _ _)).
  - unfold in_int64, int64_min, int64_max. lia.
  - rewrite E. vm_compute. discriminate.
Defined.

(** SCAN with a huge COUNT crashes: when cursor + count overflows, the
    slice bounds are reversed and the call panics. *)
Theorem scan_overflow_panics now cursor count pattern s :
  0 < cursor < zlen (Keys now pattern s) -> int64_max < cursor + count < 2 ^ 64 ->
  zlen (Keys now pattern s) <= int64_max -> count <= int64_max ->
  Scan now cursor count pattern s = Panic.
Proof.
  intros Hc Hov Hmax Hcm. unfold Scan. rewrite scan_keys.
  rewrite (proj2 (Z.leb_gt count 0)) by lia.
  rewrite (proj2 (Z.ltb_ge cursor 0)), Z.geb_leb, (proj2 (Z.leb_gt _ _)) by lia. cbn [orb].
  set (e := wrap64 _). assert (e = cursor + count - 2 ^ 64) as ->.
  { unfold e, wrap64, int64_max in *.
    rewrite <-(Z.mod_unique (cursor + count + 2 ^ 63) (2 ^ 64) 1 (cursor + count + 2 ^ 63 - 2 ^ 64)); lia. }
  rewrite Z.geb_leb, (proj2 (Z.leb_gt _ _)) by lia. by rewrite (proj2 (Z.ltb_lt _ _)) by lia.
Qed.

Lemma scan_overflow_panics_witness : Scan 0 1 9223372036854775807 "*" two_keys = Panic.
Proof.
  assert (zlen (Keys 0 "*" two_keys) = 2) as E by (vm_compute; reflexivity).
  apply (scan_overflow_panics 0 1 9223372036854775807 "*" two_keys); rewrite ?E; unfold int64_max; lia.
Defined.

End Strings.
