(* ===== verification/StoreHashes.v ===== *)
(** * Hash commands of internal/store/store.go

    HSET, HSETNX, HGET, HGETALL, HKEYS, HVALS, HDEL, HINCRBY, HLEN, HEXISTS,
    the multi-field loops included, with the per-key meaning of each and the
    proofs that the code is local to its key. *)
From S2P Require Import Prelude GoLib Store StoreStrings.
Import Store Strings.

Module Hashes.

(** The types a hash command refuses, strings apart. *)
Definition not_hash (key : string) (s : Store) : bool :=
  has (lists s) key || has (sets s) key || has (zsets s) key || has (streams s) key
  || has (hlls s) key || has (jsons s) key || has (timeseries s) key.

(** [existsStringLocked(key) || s.lists[key] != nil || ...] *)
Definition hash_conflict (now : Z) (key : string) (s : Store) : bool * Store :=
  let '(str, s) := existsStringLocked now key s in (str || not_hash key s, s).

Definition hash_conflictR (now : Z) (key : string) (s : Store) : bool :=
  existsStringRLocked now key s || not_hash key s.

(** ** Writes *)

Definition hset_loop (pairs : list (string * string)) (h : gmap string string) (added : Z)
    : Z * gmap string string :=
  fold_left (fun st p =>
    let '(added, h) := st in
    (if has h p.1 then added else added + 1, <[p.1 := p.2]> h)) pairs (added, h).

Definition HSet (now : Z) (key : string) (pairs : list (string * string)) (s : Store)
    : result Z * Store :=
  if zlen pairs =? 0 then (Err "wrong number of hash field arguments", s)
  else
    let '(_, s) := expiredKeyLocked now key s in
    let '(conflict, s) := hash_conflict now key s in
    if conflict then (Err wrongType, s)
    else
      let '(added, h) := hset_loop pairs (default ∅ (hashes s !! key)) 0 in
      (Ok added, touchKeyLocked now [key] (s <| hashes ::= <[key := h]> |>)).

Definition hdel_loop (fields : list string) (h : gmap string string) (deleted : Z)
    : Z * gmap string string :=
  fold_left (fun st f =>
    let '(deleted, h) := st in
    if has h f then (deleted + 1, delete f h) else (deleted, h)) fields (deleted, h).

Definition HDel (now : Z) (key : string) (fields : list string) (s : Store) : result Z * Store :=
  let '(expired, s) := expiredKeyLocked now key s in
  if expired then (Ok 0, s)
  else
    let '(conflict, s) := hash_conflict now key s in
    if conflict then (Err wrongType, s)
    else
      match hashes s !! key with
      | None => (Ok 0, s)
      | Some hash =>
          let '(deleted, hash) := hdel_loop fields hash 0 in
          let s := if bool_decide (hash = ∅)
                   then s <| hashes ::= delete key |> <| expires ::= delete key |>
                   else s <| hashes ::= <[key := hash]> |> in
          (Ok deleted, if deleted >? 0 then touchKeyLocked now [key] s else s)
      end.

Definition HIncrBy (now : Z) (key field : string) (delta : Z) (s : Store) : result Z * Store :=
  let '(_, s) := expiredKeyLocked now key s in
  let '(conflict, s) := hash_conflict now key s in
  if conflict then (Err wrongType, s)
  else
    let h := default ∅ (hashes s !! key) in
    let s := s <| hashes ::= <[key := h]> |> in
    match match h !! field with None => (0, None) | Some v => ParseInt v end with
    | (_, Some _) => (Err "hash value is not an integer", s)
    | (n, None) =>
        let n := wrap64 (n + delta) in
        (Ok n, touchKeyLocked now [key] (s <| hashes ::= <[key := <[field := FormatInt n]> h]> |>))
    end.

Definition HSetNX (now : Z) (key field value : string) (s : Store) : result bool * Store :=
  let '(_, s) := expiredKeyLocked now key s in
  let '(conflict, s) := hash_conflict now key s in
  if conflict then (Err wrongType, s)
  else
    let h := default ∅ (hashes s !! key) in
    let s := s <| hashes ::= <[key := h]> |> in
    if has h field then (Ok false, s)
    else (Ok true, touchKeyLocked now [key] (s <| hashes ::= <[key := <[field := value]> h]> |>)).

(** ** Reads *)

(** The guard the read commands share, and the hash they go on with. *)
Definition hash_read {A} (now : Z) (key : string) (s : Store) (dflt : A)
    (k : option (gmap string string) -> A) : result A :=
  if isExpiredRLocked now key s then Ok dflt
  else if hash_conflictR now key s then Err wrongType
  else Ok (k (hashes s !! key)).

Definition hget_of (field : string) (h : option (gmap string string)) : string * bool :=
  match h with
  | None => ("", false)
  | Some hash => match hash !! field with Some v => (v, true) | None => ("", false) end
  end.

Definition HGet (now : Z) (key field : string) (s : Store) : result (string * bool) :=
  hash_read now key s ("", false) (hget_of field).

Definition field_le (a b : string * string) : Prop := str_le a.1 b.1.

#[export] Instance field_le_dec a b : Decision (field_le a b).
Proof. unfold field_le. apply _. Defined.

Definition HGetAll (now : Z) (key : string) (s : Store) : result (list (string * string)) :=
  hash_read now key s [] (fun h => merge_sort field_le (map_to_list (default ∅ h))).

Definition HVals (now : Z) (key : string) (s : Store) : result (list string) :=
  hash_read now key s [] (fun h => sort_strings (map_to_list (default ∅ h)).*2).

Definition HKeys (now : Z) (key : string) (s : Store) : result (list string) :=
  hash_read now key s [] (fun h => sort_strings (map_to_list (default ∅ h)).*1).

Definition hlen_of (h : option (gmap string string)) : Z := Z.of_nat (size (default ∅ h)).

Definition HLen (now : Z) (key : string) (s : Store) : result Z :=
  hash_read now key s 0 hlen_of.

Definition HExists (now : Z) (key field : string) (s : Store) : result bool :=
  hash_read now key s false (fun h => match h with None => false | Some hash => has hash field end).

(** ** Per-key meaning *)

Definition e_not_hash (e : Entry) : bool :=
  is_some (e_list e) || is_some (e_set e) || is_some (e_zset e) || is_some (e_stream e)
  || is_some (e_hll e) || is_some (e_json e) || is_some (e_ts e).

Definition spec_HSet (pairs : list (string * string)) (e : Entry) : result Z * Entry :=
  if zlen pairs =? 0 then (Err "wrong number of hash field arguments", e)
  else if is_some (e_kv e) || e_not_hash e then (Err wrongType, e)
  else
    let h := default ∅ (e_hash e) in
    let h' := fold_left (fun h p => <[p.1 := p.2]> h) pairs h in
    (Ok (Z.of_nat (size h') - Z.of_nat (size h)), e <| e_hash := Some h' |>).

Definition spec_HDel (fields : list string) (e : Entry) : result Z * Entry :=
  if is_some (e_kv e) || e_not_hash e then (Err wrongType, e)
  else
    match e_hash e with
    | None => (Ok 0, e)
    | Some h =>
        let h' := filter (fun p => p.1 ∉ fields) h in
        (Ok (Z.of_nat (size h) - Z.of_nat (size h')),
         if decide (h' = ∅) then e <| e_hash := None |> <| e_expire := None |>
         else e <| e_hash := Some h' |>)
    end.

Definition spec_HIncrBy (field : string) (delta : Z) (e : Entry) : result Z * Entry :=
  if is_some (e_kv e) || e_not_hash e then (Err wrongType, e)
  else
    let h := default ∅ (e_hash e) in
    match match h !! field with None => (0, None) | Some v => ParseInt v end with
    | (_, Some _) => (Err "hash value is not an integer", e)
    | (n, None) =>
        let n := wrap64 (n + delta) in (Ok n, e <| e_hash := Some (<[field := FormatInt n]> h) |>)
    end.

Definition spec_HSetNX (field value : string) (e : Entry) : result bool * Entry :=
  if is_some (e_kv e) || e_not_hash e then (Err wrongType, e)
  else
    let h := default ∅ (e_hash e) in
    if has h field then (Ok false, e) else (Ok true, e <| e_hash := Some (<[field := value]> h) |>).

(** ** The loops *)

Lemma hset_loop_spec pairs h added :
  hset_loop pairs h added =
    (added + (Z.of_nat (size (fold_left (fun h p => <[p.1 := p.2]> h) pairs h)) - Z.of_nat (size h)),
     fold_left (fun h p => <[p.1 := p.2]> h) pairs h).
Proof.
  unfold hset_loop. revert h added. induction pairs as [|[f v] pairs IH]; intros h added; cbn.
  { f_equal. lia. }
  rewrite IH. f_equal. unfold has. destruct (h !! f) as [v'|] eqn:E.
  - rewrite map_size_insert_Some by eauto. lia.
  - rewrite map_size_insert_None by done. lia.
Qed.

Lemma hdel_loop_spec fields h deleted :
  hdel_loop fields h deleted =
    (deleted + (Z.of_nat (size h) - Z.of_nat (size (filter (fun p => p.1 ∉ fields) h))),
     filter (fun p => p.1 ∉ fields) h).
Proof.
  unfold hdel_loop. revert h deleted. induction fields as [|f fields IH]; intros h deleted; cbn.
  { rewrite map_filter_id by (intros; apply not_elem_of_nil). f_equal. lia. }
  assert (filter (fun p : string * string => p.1 ∉ f :: fields) h =
          filter (fun p => p.1 ∉ fields) (delete f h)) as ->.
  { apply map_eq. intros k. apply option_eq. intros v.
    rewrite !map_lookup_filter_Some, lookup_delete_Some. cbn. rewrite not_elem_of_cons. naive_solver. }
  unfold has. destruct (h !! f) as [v|] eqn:E.
  - rewrite IH. f_equal. rewrite map_size_delete_Some by eauto.
    assert (size h <> 0%nat) by (intros ->%map_size_empty_iff; by rewrite lookup_empty in E). lia.
  - rewrite IH, delete_id by done. done.
Qed.

(** ** Locality *)

Lemma not_hash_entry key s : not_hash key s = e_not_hash (entry s key).
Proof. done. Qed.

Lemma hash_conflict_live now key s e :
  entry s key = e -> e_expired now e = false ->
  hash_conflict now key s = (is_some (e_kv e) || e_not_hash e, s).
Proof.
  intros <- Hx. unfold hash_conflict. rewrite existsString_live by done. done.
Qed.

(** Resolve the type guard after [local_start]. *)
Ltac hash_guard now Hk :=
  rewrite (hash_conflict_live now _ _ _ Hk) by apply e_expired_live.

Lemma HSet_local now key pairs : local now key (HSet now key pairs) (spec_HSet pairs).
Proof.
  intros s. unfold HSet, spec_HSet. destruct (zlen pairs =? 0).
  { cbn [fst snd]. split; [done|]. split; [by right|done]. }
  local_start now key s s1 e Hk Hne. hash_guard now Hk. fold e.
  change (hashes s1 !! key) with (e_hash (entry s1 key)). rewrite Hk.
  destruct (is_some (e_kv e) || e_not_hash e); [local_finish Hk Hne|].
  rewrite hset_loop_spec, Z.add_0_l. local_finish Hk Hne.
Qed.

Lemma HDel_local now key fields : local now key (HDel now key fields) (spec_HDel fields).
Proof.
  intros s. unfold HDel, spec_HDel. local_start now key s s1 e Hk Hne.
  local_expired now key s e Hk Hne. hash_guard now Hk. fold e.
  change (hashes s1 !! key) with (e_hash (entry s1 key)). rewrite Hk.
  destruct (is_some (e_kv e) || e_not_hash e); [local_finish Hk Hne|].
  destruct (e_hash e) as [h|]; [|local_finish Hk Hne].
  rewrite hdel_loop_spec, Z.add_0_l. set (h' := filter _ h). set (d := _ - _).
  destruct (decide (h' = ∅)) as [Hemp|Hemp].
  - rewrite bool_decide_true by done. destruct (d >? 0); local_finish Hk Hne.
  - rewrite bool_decide_false by done. destruct (d >? 0); local_finish Hk Hne.
Qed.

(** Creating the empty hash before an early return is not visible: it is
    only done when the field, hence the hash, was there. *)
Lemma default_insert_id key (s : Store) (h : gmap string string) field v :
  h = default ∅ (hashes s !! key) -> h !! field = Some v -> <[key := h]> (hashes s) = hashes s.
Proof.
  intros -> Hf. destruct (hashes s !! key) as [h|] eqn:E; cbn in Hf; [|by rewrite lookup_empty in Hf].
  cbn. by rewrite insert_id.
Qed.

Lemma HIncrBy_local now key field delta :
  local now key (HIncrBy now key field delta) (spec_HIncrBy field delta).
Proof.
  intros s. unfold HIncrBy, spec_HIncrBy. local_start now key s s1 e Hk Hne. hash_guard now Hk. fold e.
  set (h := default ∅ (hashes s1 !! key)).
  assert (default ∅ (e_hash e) = h) as -> by (unfold h; by rewrite <-Hk).
  destruct (is_some (e_kv e) || e_not_hash e); [local_finish Hk Hne|].
  destruct (h !! field) as [v|] eqn:Hf.
  - pose proof (default_insert_id key s1 h field v eq_refl Hf) as Hid.
    destruct (ParseInt v) as [n [err|]]; [|local_finish Hk Hne].
    cbn [fst snd]. split; [done|]. split.
    + left. autorewrite with entry. rewrite Hid. exact Hk.
    + intros k Hkk. entry_simp. by rewrite <-Hne.
  - local_finish Hk Hne.
Qed.

Lemma HSetNX_local now key field value :
  local now key (HSetNX now key field value) (spec_HSetNX field value).
Proof.
  intros s. unfold HSetNX, spec_HSetNX. local_start now key s s1 e Hk Hne. hash_guard now Hk. fold e.
  set (h := default ∅ (hashes s1 !! key)).
  assert (default ∅ (e_hash e) = h) as -> by (unfold h; by rewrite <-Hk).
  destruct (is_some (e_kv e) || e_not_hash e); [local_finish Hk Hne|].
  unfold has. destruct (h !! field) as [v|] eqn:Hf; [|local_finish Hk Hne].
  pose proof (default_insert_id key s1 h field v eq_refl Hf) as Hid. cbn [fst snd].
  split; [done|]. split.
  - left. autorewrite with entry. rewrite Hid. exact Hk.
  - intros k Hkk. entry_simp. by rewrite <-Hne.
Qed.

Definition spec_hash_read {A} (now : Z) (dflt : A) (k : option (gmap string string) -> A) (e : Entry)
    : result A :=
  if (negb (e_delayed now e) && is_some (e_kv e)) || e_not_hash e then Err wrongType
  else Ok (k (e_hash e)).

Lemma hash_read_local {A} now key (dflt : A) k :
  k None = dflt -> local_read now key (fun s => hash_read now key s dflt k) (spec_hash_read now dflt k).
Proof.
  intros Hd s. unfold hash_read, spec_hash_read, hash_conflictR, existsStringRLocked.
  rewrite isExpired_entry, isDelayed_entry, not_hash_entry. unfold live.
  destruct (e_expired now (entry s key)); [cbn; by rewrite Hd|].
  by destruct (e_delayed now (entry s key)).
Qed.

Lemma HGet_local now key field :
  local_read now key (HGet now key field) (spec_hash_read now ("", false) (hget_of field)).
Proof. by apply hash_read_local. Qed.

Lemma HLen_local now key : local_read now key (HLen now key) (spec_hash_read now 0 hlen_of).
Proof. by apply hash_read_local. Qed.

Lemma HSet_marked now key pairs : marked now key (HSet now key pairs).
Proof.
  intros s Hr Htidy. unfold HSet. destruct (zlen pairs =? 0); [split; [by left|apply vstep4_refl]|].
  marked_start now key s s1 Hr Hk Hv. hash_guard now Hk.
  destruct (_ || _); [marked_finish Hr Hk Hv|]. rewrite hset_loop_spec. marked_finish Hr Hk Hv.
Qed.

Lemma filter_size_eq (h : gmap string string) (P : string * string -> Prop) `{forall x, Decision (P x)} :
  (size h <= size (filter P h))%nat -> filter P h = h.
Proof.
  intros Hs. apply map_eq. intros k. destruct (h !! k) as [v|] eqn:E.
  - apply map_lookup_filter_Some. split; [done|].
    destruct (decide (P (k, v))) as [|Hn]; [done|]. exfalso.
    assert (filter P h ⊆ delete k h) as Hsub.
    { apply map_subseteq_spec. intros k' v' [Hh Hp]%map_lookup_filter_Some.
      apply lookup_delete_Some. split; [|done]. intros <-. rewrite E in Hh. by simplify_eq. }
    apply map_subseteq_size in Hsub. rewrite map_size_delete_Some in Hsub by eauto.
    assert (size h <> 0%nat) by (intros ->%map_size_empty_iff; by rewrite lookup_empty in E). lia.
  - apply map_lookup_filter_None. by left.
Qed.

Lemma HDel_marked now key fields : marked now key (HDel now key fields).
Proof.
  intros s Hr Htidy. unfold HDel. marked_start now key s s1 Hr Hk Hv.
  destruct (e_expired now (entry s key)); [marked_finish Hr Hk Hv|]. hash_guard now Hk.
  destruct (_ || _); [marked_finish Hr Hk Hv|].
  destruct (hashes s1 !! key) as [h|] eqn:Eh; [|marked_finish Hr Hk Hv].
  rewrite hdel_loop_spec, Z.add_0_l. set (h' := filter _ h). rewrite Z.gtb_ltb.
  destruct (Z.ltb_spec 0 (Z.of_nat (size h) - Z.of_nat (size h'))).
  { destruct (bool_decide (h' = ∅)); marked_finish Hr Hk Hv. }
  assert (h' = h) as -> by (apply filter_size_eq; unfold h' in *; lia). cbn [fst snd].
  split; [|case_bool_decide; vsteps Hr Hv]. case_bool_decide as Hemp.
  - exfalso. apply (tidy_live now) in Htidy as [Ht _]. apply Ht. rewrite <-Hk, <-Hemp. exact Eh.
  - left. apply live_kept. rewrite <-Hk, entry_set_hashes. rewrite lookup_insert_eq, <-Eh. done.
Qed.

Lemma HIncrBy_marked now key field delta : marked now key (HIncrBy now key field delta).
Proof.
  intros s Hr Htidy. unfold HIncrBy. marked_start now key s s1 Hr Hk Hv. hash_guard now Hk.
  destruct (_ || _); [marked_finish Hr Hk Hv|]. set (h := default ∅ (hashes s1 !! key)).
  destruct (h !! field) as [v|] eqn:Hf; [|marked_finish Hr Hk Hv].
  destruct (ParseInt v) as [n [err|]]; [|marked_finish Hr Hk Hv].
  cbn [fst snd]. split; [|vsteps Hr Hv]. left. apply live_kept. rewrite <-Hk, entry_set_hashes.
  by rewrite (default_insert_id key s1 h field v eq_refl Hf).
Qed.

Lemma HSetNX_marked now key field value : marked now key (HSetNX now key field value).
Proof.
  intros s Hr Htidy. unfold HSetNX. marked_start now key s s1 Hr Hk Hv. hash_guard now Hk.
  destruct (_ || _); [marked_finish Hr Hk Hv|]. set (h := default ∅ (hashes s1 !! key)).
  unfold has. destruct (h !! field) as [v|] eqn:Hf; [|marked_finish Hr Hk Hv].
  cbn [fst snd]. split; [|vsteps Hr Hv]. left. apply live_kept. rewrite <-Hk, entry_set_hashes.
  by rewrite (default_insert_id key s1 h field v eq_refl Hf).
Qed.

(** HSET, HDEL and HGET are updates and lookups of one finite map.  On a
    live hash (or a missing key) HSET stores every pair, the last one per
    field winning, and counts the new fields; HDEL removes exactly the named
    fields, counts those that were there, and removes the key with its
    deadline when nothing is left; HGET reads the map back. *)
Theorem hash_commands now key pairs fields s :
  e_expired now (entry s key) = false -> e_kv (entry s key) = None -> e_not_hash (entry s key) = false ->
  pairs <> [] ->
  let h := default ∅ (hashes s !! key) in
  let h1 := fold_left (fun h p => <[p.1 := p.2]> h) pairs h in
  let h2 := filter (fun p => p.1 ∉ fields) h1 in
  let r1 := HSet now key pairs s in
  let r2 := HDel now key fields r1.2 in
  r1.1 = Ok (Z.of_nat (size h1) - Z.of_nat (size h)) /\
  (forall f, HGet now key f r1.2 = Ok match h1 !! f with Some v => (v, true) | None => ("", false) end) /\
  r2.1 = Ok (Z.of_nat (size h1) - Z.of_nat (size h2)) /\
  (forall f, HGet now key f r2.2 = Ok match h2 !! f with Some v => (v, true) | None => ("", false) end) /\
  (h2 = ∅ -> live now (entry r2.2 key) = entry s key <| e_hash := None |> <| e_expire := None |>) /\
  (forall k, k <> key -> entry r2.2 k = entry s k).
Proof.
  intros Hx Hkv Hnh Hp. cbv zeta.
  set (h := default ∅ (hashes s !! key)). set (h1 := fold_left _ pairs h). set (h2 := filter _ h1).
  assert ((zlen pairs =? 0) = false) as Hp0 by (destruct pairs; [done|]; apply Z.eqb_neq; zlen_lia).
  destruct (local_use _ _ _ _ s (HSet_local now key pairs)) as (Hr1 & He1 & Hn1).
  set (r1 := HSet now key pairs s) in *. clearbody r1.
  destruct (local_use _ _ _ _ r1.2 (HDel_local now key fields)) as (Hr2 & He2 & Hn2).
  set (r2 := HDel now key fields r1.2) in *. clearbody r2.
  rewrite (live_fresh _ _ Hx) in *. unfold spec_HSet in Hr1, He1.
  rewrite Hp0, Hkv, Hnh in Hr1, He1. cbn [is_some orb fst snd] in Hr1, He1.
  change (default ∅ (e_hash (entry s key))) with h in *. fold h1 in Hr1, He1.
  set (e := entry s key) in *. set (e1 := e <| e_hash := Some h1 |>) in *.
  assert (live now e1 = e1) as Hl1 by (apply live_fresh; exact Hx). rewrite Hl1 in He1.
  unfold spec_HDel in Hr2, He2. rewrite He1 in Hr2, He2.
  assert (is_some (e_kv e1) || e_not_hash e1 = false) as Hg1
    by (change (is_some (e_kv e) || e_not_hash e = false); by rewrite Hkv).
  rewrite Hg1 in Hr2, He2. cbn [e_hash e1 set set_e_hash fst snd] in Hr2, He2. fold h2 in Hr2, He2.
  assert (forall (r : Store) (e' : Entry), live now (entry r key) = e' -> e_kv e' = None -> e_not_hash e' = false ->
    forall f, HGet now key f r = Ok match default ∅ (e_hash e') !! f with Some v => (v, true) | None => ("", false) end)
    as Hget.
  { intros r e' Hr Hkv' Hnh' f. rewrite (HGet_local now key f r), Hr.
    unfold spec_hash_read. rewrite Hkv', Hnh', andb_false_r. cbn [orb].
    by destruct (e_hash e'). }
  split; [done|]. split; [by apply (Hget _ _ He1)|]. split; [done|].
  destruct (decide (h2 = ∅)) as [Hemp|Hemp].
  - assert (live now (entry r2.2 key) = e <| e_hash := None |> <| e_expire := None |>) as He2'.
    { rewrite He2. by apply live_fresh. }
    split; [|split; [done|]].
    + intros f. rewrite (Hget _ _ He2') by done. cbn. by rewrite Hemp, lookup_empty.
    + intros k Hk. by rewrite Hn2, Hn1.
  - assert (live now (entry r2.2 key) = e1 <| e_hash := Some h2 |>) as He2'.
    { rewrite He2. apply live_fresh. exact Hx. }
    split; [by apply (Hget _ _ He2')|]. split; [done|]. intros k Hk. by rewrite Hn2, Hn1.
Qed.

Lemma hash_commands_witness :
  let r1 := HSet 1 "h" [("f", "1"); ("g", "2"); ("f", "3")] New in
  let r2 := HDel 1 "h" ["f"; "x"] r1.2 in
  r1.1 = Ok 2 /\ HGet 1 "h" "f" r1.2 = Ok ("3", true) /\ r2.1 = Ok 1 /\
  HGet 1 "h" "f" r2.2 = Ok ("", false).
Proof.
  cbv zeta.
  destruct (hash_commands 1 "h" [("f", "1"); ("g", "2"); ("f", "3")] ["f"; "x"] New)
    as (H1 & H2 & H3 & H4 & _); [reflexivity|reflexivity|reflexivity|discriminate|].
  split; [exact H1|]. split; [exact (H2 "f")|]. split; [exact H3|exact (H4 "f")].
Defined.

End Hashes.
