(* ===== verification/StoreSets.v ===== *)
(** * Set and sorted-set commands of internal/store/store.go

    SADD, SREM, SMEMBERS, SISMEMBER, SCARD, SINTER, SUNION, SDIFF, SMOVE,
    SPOP; ZADD, ZREM, ZINCRBY, ZPOPMIN, ZPOPMAX and the sorted-set queries;
    COPY.  A Go map iterated in SPOP visits its members in an arbitrary
    order, which is an argument here. *)
From S2P Require Import Prelude GoLib Deque SortedSet HyperLogLog Store StoreStrings.
Import Store Strings.

Module Sets.

Definition not_set (key : string) (s : Store) : bool :=
  has (hashes s) key || has (lists s) key || has (zsets s) key || has (streams s) key
  || has (hlls s) key || has (jsons s) key || has (timeseries s) key.

Definition set_conflict (now : Z) (key : string) (s : Store) : bool * Store :=
  let '(str, s) := existsStringLocked now key s in (str || not_set key s, s).

Definition set_conflictR (now : Z) (key : string) (s : Store) : bool :=
  existsStringRLocked now key s || not_set key s.

(** ** Sets: writes *)

Definition sadd_loop (members : list string) (m : gset string) (added : Z) : Z * gset string :=
  fold_left (fun st x =>
    let '(added, m) := st in
    if decide (x ∈ m) then (added, m) else (added + 1, {[x]} ∪ m)) members (added, m).

Definition SAdd (now : Z) (key : string) (members : list string) (s : Store) : result Z * Store :=
  if zlen members =? 0 then (Err "wrong number of set members", s)
  else
    let '(_, s) := expiredKeyLocked now key s in
    let '(conflict, s) := set_conflict now key s in
    if conflict then (Err wrongType, s)
    else
      let '(added, m) := sadd_loop members (default ∅ (sets s !! key)) 0 in
      (Ok added, touchKeyLocked now [key] (s <| sets ::= <[key := m]> |>)).

Definition srem_loop (members : list string) (m : gset string) (removed : Z) : Z * gset string :=
  fold_left (fun st x =>
    let '(removed, m) := st in
    if decide (x ∈ m) then (removed + 1, m ∖ {[x]}) else (removed, m)) members (removed, m).

(** A set that became empty is removed with its deadline. *)
Definition put_set (key : string) (m : gset string) (s : Store) : Store :=
  if bool_decide (m = ∅) then s <| sets ::= delete key |> <| expires ::= delete key |>
  else s <| sets ::= <[key := m]> |>.

(** SREM is the one write that does not call [touchKeyLocked]. *)
Definition SRem (now : Z) (key : string) (members : list string) (s : Store) : result Z * Store :=
  let '(expired, s) := expiredKeyLocked now key s in
  if expired then (Ok 0, s)
  else
    let '(conflict, s) := set_conflict now key s in
    if conflict then (Err wrongType, s)
    else
      let m := default ∅ (sets s !! key) in
      if bool_decide (m = ∅) then (Ok 0, s)
      else
        let '(removed, m) := srem_loop members m 0 in
        (Ok removed, put_set key m s).

Definition SMove (now : Z) (src dst member : string) (s : Store) : result bool * Store :=
  let '(_, s) := expiredKeyLocked now src s in
  let '(_, s) := expiredKeyLocked now dst s in
  let '(conflict, s) := set_conflict now src s in
  if conflict then (Err wrongType, s)
  else
    let '(conflict, s) := set_conflict now dst s in
    if conflict then (Err wrongType, s)
    else
      match sets s !! src with
      | None => (Ok false, s)
      | Some srcSet =>
          if decide (member ∈ srcSet) then
            let s := put_set src (srcSet ∖ {[member]}) s in
            let s := s <| sets ::= <[dst := {[member]} ∪ default ∅ (sets s !! dst)]> |> in
            (Ok true, touchKeyLocked now [dst] (touchKeyLocked now [src] s))
          else (Ok false, s)
      end.

(** [order]: the members in the order the iteration visits them. *)
Definition SPop (now : Z) (key : string) (count : Z) (order : list string) (s : Store)
    : result (list string) * Store :=
  let '(expired, s) := expiredKeyLocked now key s in
  if expired then (Ok [], s)
  else
    let '(conflict, s) := set_conflict now key s in
    if conflict then (Err wrongType, s)
    else
      let m := default ∅ (sets s !! key) in
      if bool_decide (m = ∅) then (Ok [], s)
      else
        let count := if count <=? 0 then 1 else count in
        let result := ztake count order in
        (Ok result, touchKeyLocked now [key] (put_set key (m ∖ list_to_set result) s)).

(** ** Sets: reads *)

Definition set_read {A} (now : Z) (key : string) (s : Store) (dflt : A) (k : gset string -> A) : result A :=
  if isExpiredRLocked now key s then Ok dflt
  else if set_conflictR now key s then Err wrongType
  else Ok (k (default ∅ (sets s !! key))).

Definition sorted_members (m : gset string) : list string := sort_strings (elements m).

Definition SMembers (now : Z) (key : string) (s : Store) : result (list string) :=
  set_read now key s [] sorted_members.

Definition SIsMember (now : Z) (key member : string) (s : Store) : result bool :=
  set_read now key s false (fun m => bool_decide (member ∈ m)).

Definition SCard (now : Z) (key : string) (s : Store) : result Z :=
  set_read now key s 0 (fun m => Z.of_nat (size m)).

(** The collecting loop of SINTER: [None] is the early return of an empty
    answer. *)
Fixpoint sinter_collect (now : Z) (keys : list string) (acc : list (gset string)) (s : Store)
    : result (option (list (gset string))) :=
  match keys with
  | [] => Ok (Some acc)
  | key :: keys =>
      if isExpiredRLocked now key s then Ok None
      else if set_conflictR now key s then Err wrongType
      else
        let m := default ∅ (sets s !! key) in
        if bool_decide (m = ∅) then Ok None
        else sinter_collect now keys (acc ++ [m]) s
  end.

(** The index of the first smallest set. *)
Definition smallest_step (l : list (gset string)) (st : nat * nat) (m : gset string) : nat * nat :=
  let '(i, best) := st in (S i, if (size m <? size (l !!! best))%nat then i else best).

Definition smallest_index (l : list (gset string)) : nat :=
  snd (fold_left (smallest_step l) (tail l) (1, 0)%nat).

Definition in_all_but (i : nat) (l : list (gset string)) (x : string) : bool :=
  forallb (fun p => bool_decide (p.1 = i) || bool_decide (x ∈ p.2)) (zip (seq 0 (length l)) l).

Definition SInter (now : Z) (keys : list string) (s : Store) : result (list string) :=
  match sinter_collect now keys [] s with
  | Err e => Err e
  | Ok None => Ok []
  | Ok (Some l) =>
      if zlen l =? 0 then Ok []
      else
        let i := smallest_index l in
        Ok (sort_strings (filter (fun x => in_all_but i l x = true) (elements (l !!! i))))
  end.

Fixpoint sunion_collect (now : Z) (keys : list string) (union : gset string) (s : Store)
    : result (gset string) :=
  match keys with
  | [] => Ok union
  | key :: keys =>
      if isExpiredRLocked now key s then sunion_collect now keys union s
      else if set_conflictR now key s then Err wrongType
      else sunion_collect now keys (union ∪ default ∅ (sets s !! key)) s
  end.

Definition SUnion (now : Z) (keys : list string) (s : Store) : result (list string) :=
  match sunion_collect now keys ∅ s with
  | Err e => Err e
  | Ok u => Ok (sorted_members u)
  end.

Fixpoint sdiff_collect (now : Z) (keys : list string) (acc : list (gset string)) (s : Store)
    : result (list (gset string)) :=
  match keys with
  | [] => Ok acc
  | key :: keys =>
      if isExpiredRLocked now key s then sdiff_collect now keys (acc ++ [∅]) s
      else if set_conflictR now key s then Err wrongType
      else sdiff_collect now keys (acc ++ [default ∅ (sets s !! key)]) s
  end.

(** [sets[0]] panics on an empty argument list. *)
Definition SDiff (now : Z) (keys : list string) (s : Store) : outcome (result (list string)) :=
  match sdiff_collect now keys [] s with
  | Err e => Ret (Err e)
  | Ok [] => Panic
  | Ok (first :: others) =>
      Ret (Ok (sort_strings (filter (fun x => forallb (fun m => bool_decide (x ∉ m)) others = true)
                                    (elements first))))
  end.

(** ** Sorted sets *)

Definition not_zset (key : string) (s : Store) : bool :=
  has (hashes s) key || has (lists s) key || has (sets s) key || has (streams s) key
  || has (hlls s) key || has (jsons s) key || has (timeseries s) key.

Definition zset_conflict (now : Z) (key : string) (s : Store) : bool * Store :=
  let '(str, s) := existsStringLocked now key s in (str || not_zset key s, s).

Definition zset_conflictR (now : Z) (key : string) (s : Store) : bool :=
  existsStringRLocked now key s || not_zset key s.

Definition zadd_loop (members : list SortedSet.ZMember) (z : SortedSet.SortedSet) (added : Z)
    : Z * SortedSet.SortedSet :=
  fold_left (fun st m =>
    let '(added, z) := st in
    let '(b, z) := SortedSet.Add (SortedSet.Member m) (SortedSet.Score m) z in
    (if b then added + 1 else added, z)) members (added, z).

Definition ZAdd (now : Z) (key : string) (members : list SortedSet.ZMember) (s : Store) : result Z * Store :=
  if zlen members =? 0 then (Err "wrong number of sorted set members", s)
  else
    let '(_, s) := expiredKeyLocked now key s in
    let '(conflict, s) := zset_conflict now key s in
    if conflict then (Err wrongType, s)
    else
      let '(added, z) := zadd_loop members (default SortedSet.NewSortedSet (zsets s !! key)) 0 in
      (Ok added, touchKeyLocked now [key] (s <| zsets ::= <[key := z]> |>)).

Definition put_zset (key : string) (z : SortedSet.SortedSet) (s : Store) : Store :=
  if SortedSet.Len z =? 0 then s <| zsets ::= delete key |> <| expires ::= delete key |>
  else s <| zsets ::= <[key := z]> |>.

Definition zrem_loop (members : list string) (z : SortedSet.SortedSet) (removed : Z)
    : Z * SortedSet.SortedSet :=
  fold_left (fun st m =>
    let '(removed, z) := st in
    let '(b, z) := SortedSet.Remove m z in
    (if b then removed + 1 else removed, z)) members (removed, z).

(** The guard of the sorted-set writes that need an existing set. *)
Definition zset_write {A} (now : Z) (key : string) (s : Store) (dflt : A)
    (k : SortedSet.SortedSet -> Store -> A * Store) : result A * Store :=
  let '(expired, s) := expiredKeyLocked now key s in
  if expired then (Ok dflt, s)
  else
    let '(conflict, s) := zset_conflict now key s in
    if conflict then (Err wrongType, s)
    else
      match zsets s !! key with
      | None => (Ok dflt, s)
      | Some zs =>
          if SortedSet.Len zs =? 0 then (Ok dflt, s)
          else let '(a, s) := k zs s in (Ok a, s)
      end.

Definition ZRem (now : Z) (key : string) (members : list string) (s : Store) : result Z * Store :=
  zset_write now key s 0 (fun zs s =>
    let '(removed, zs) := zrem_loop members zs 0 in
    let s := put_zset key zs s in
    (removed, if removed >? 0 then touchKeyLocked now [key] s else s)).

Definition ZPopMin (now : Z) (key : string) (count : Z) (s : Store)
    : result (list SortedSet.ZMember) * Store :=
  zset_write now key s [] (fun zs s =>
    let '(result, zs) := SortedSet.PopMin count zs in
    (result, touchKeyLocked now [key] (put_zset key zs s))).

Definition ZPopMax (now : Z) (key : string) (count : Z) (s : Store)
    : result (list SortedSet.ZMember) * Store :=
  zset_write now key s [] (fun zs s =>
    let '(result, zs) := SortedSet.PopMax count zs in
    (result, touchKeyLocked now [key] (put_zset key zs s))).

Definition ZIncrBy (now : Z) (key : string) (incr : float64) (member : string) (s : Store)
    : result float64 * Store :=
  let '(_, s) := expiredKeyLocked now key s in
  let '(conflict, s) := zset_conflict now key s in
  if conflict then (Err wrongType, s)
  else
    let zs := default SortedSet.NewSortedSet (zsets s !! key) in
    let '(score, zs) :=
      match SortedSet.Score_ zs member with
      | Some sc => (sc, (SortedSet.Remove member zs).2)
      | None => (fzero, zs)
      end in
    let newScore := fadd score incr in
    let zs := (SortedSet.Add member newScore zs).2 in
    (Ok newScore, touchKeyLocked now [key] (s <| zsets ::= <[key := zs]> |>)).

Definition zset_read {A} (now : Z) (key : string) (s : Store) (dflt : A)
    (k : SortedSet.SortedSet -> A) : result A :=
  if isExpiredRLocked now key s then Ok dflt
  else if zset_conflictR now key s then Err wrongType
  else match zsets s !! key with None => Ok dflt | Some zs => Ok (k zs) end.

(** [zs == nil || zs.Len() == 0] *)
Definition zset_list (now : Z) (key : string) (s : Store)
    (k : SortedSet.SortedSet -> list SortedSet.ZMember) : result (list SortedSet.ZMember) :=
  zset_read now key s [] (fun zs => if SortedSet.Len zs =? 0 then [] else k zs).

Definition ZRange (now : Z) (key : string) (start stop : Z) (s : Store) : result (list SortedSet.ZMember) :=
  zset_list now key s (SortedSet.Range start stop).

Definition ZRevRange (now : Z) (key : string) (start stop : Z) (s : Store) : result (list SortedSet.ZMember) :=
  zset_list now key s (SortedSet.RevRange start stop).

Definition ZRangeByScore (now : Z) (key : string) (min max : float64) (offset count : Z) (s : Store)
    : result (list SortedSet.ZMember) :=
  zset_list now key s (SortedSet.RangeByScore min max offset count).

Definition ZRangeByLex (now : Z) (key min max : string) (offset count : Z) (s : Store)
    : result (list SortedSet.ZMember) :=
  zset_list now key s (SortedSet.RangeByLex min max offset count).

Definition ZScore (now : Z) (key member : string) (s : Store) : result (option float64) :=
  zset_read now key s None (fun zs => SortedSet.Score_ zs member).

Definition ZRank (now : Z) (key member : string) (s : Store) : result (option Z) :=
  zset_read now key s None (fun zs => SortedSet.Rank zs member).

Definition ZRevRank (now : Z) (key member : string) (s : Store) : result (option Z) :=
  zset_read now key s None (fun zs => (fun r => SortedSet.Len zs - 1 - r) <$> SortedSet.Rank zs member).

Definition ZCount (now : Z) (key : string) (min max : float64) (s : Store) : result Z :=
  zset_read now key s 0 (SortedSet.CountByScore min max).

Definition ZCard (now : Z) (key : string) (s : Store) : result Z :=
  zset_read now key s 0 SortedSet.Len.

(** ** COPY *)

Definition copy_to {A} (src dst : string) (clone : A -> A) (m : gmap string A) : gmap string A :=
  match m !! src with Some v => <[dst := clone v]> m | None => m end.

Definition clone_deque (d : Deque.Deque) : Deque.Deque :=
  Deque.PushBack (Deque.ToSlice d) Deque.empty.

Definition clone_zset (z : SortedSet.SortedSet) : SortedSet.SortedSet :=
  fold_left (fun z m => (SortedSet.Add (SortedSet.Member m) (SortedSet.Score m) z).2)
    (SortedSet.Members z) SortedSet.NewSortedSet.

Definition copy_all (src dst : string) (s : Store) : Store :=
  s <| kv ::= copy_to src dst id |> <| hashes ::= copy_to src dst id |>
    <| lists ::= copy_to src dst clone_deque |> <| sets ::= copy_to src dst id |>
    <| zsets ::= copy_to src dst clone_zset |> <| streams ::= copy_to src dst id |>
    <| hlls ::= copy_to src dst id |> <| expires ::= copy_to src dst id |>
    <| lastSeq ::= copy_to src dst id |>.

Definition Copy (now : Z) (src dst : string) (replace : bool) (s : Store) : bool * Store :=
  let '(_, s) := expiredKeyLocked now src s in
  let '(e, s) := existsLocked now src s in
  if negb e then (false, s)
  else
    let '(ed, s) := existsLocked now dst s in
    if ed && negb replace then (false, s)
    else
      let '(ed, s) := existsLocked now dst s in
      let s := if ed then deleteKeyLocked now dst s else s in
      (true, touchKeyLocked now [dst] (copy_all src dst s)).

(** ** Set algebra *)

(** The set a read command sees under a key. *)
Definition live_set (now : Z) (key : string) (s : Store) : gset string :=
  default ∅ (e_set (live now (entry s key))).

Lemma live_set_fresh now key s :
  isExpiredRLocked now key s = false -> live_set now key s = default ∅ (sets s !! key).
Proof. rewrite isExpired_entry. intros H. unfold live_set. by rewrite live_fresh. Qed.

Lemma live_set_expired now key s : isExpiredRLocked now key s = true -> live_set now key s = ∅.
Proof. rewrite isExpired_entry. intros H. unfold live_set. by rewrite live_expired. Qed.

Lemma sinter_collect_some now keys acc s l :
  sinter_collect now keys acc s = Ok (Some l) -> l = acc ++ ((fun k => live_set now k s) <$> keys).
Proof.
  revert acc. induction keys as [|key keys IH]; intros acc; cbn; [intros [= <-]; by rewrite app_nil_r|].
  destruct (isExpiredRLocked now key s) eqn:Ex; [done|]. destruct (set_conflictR now key s); [done|].
  case_bool_decide; [done|]. intros ->%IH. rewrite <-(assoc (++)). cbn. by rewrite live_set_fresh.
Qed.

Lemma sinter_collect_none now keys acc s :
  sinter_collect now keys acc s = Ok None -> exists k, k ∈ keys /\ live_set now k s = ∅.
Proof.
  revert acc. induction keys as [|key keys IH]; intros acc; cbn; [done|].
  destruct (isExpiredRLocked now key s) eqn:Ex.
  { intros _. exists key. split; [left|]. by apply live_set_expired. }
  destruct (set_conflictR now key s); [done|]. case_bool_decide as Hm.
  - intros _. exists key. split; [left|]. by rewrite live_set_fresh.
  - intros (k & ? & ?)%IH. exists k. split; [by right|done].
Qed.

Lemma smallest_index_lt l : l <> [] -> (smallest_index l < length l)%nat.
Proof.
  intros Hl. unfold smallest_index.
  assert (forall t i best, (best < length l)%nat -> (i + length t <= length l)%nat ->
    (snd (fold_left (smallest_step l) t (i, best)) < length l)%nat) as H.
  { induction t as [|m t IH]; intros i best Hb Hi; [done|]. cbn [fold_left smallest_step].
    cbn [length] in Hi. apply IH; [|lia]. case_match; lia. }
  destruct l as [|m l]; [done|]. apply H; cbn; lia.
Qed.

(** Being in the smallest set and in all the others is being in all. *)
Lemma smallest_filter l x :
  l <> [] ->
  (in_all_but (smallest_index l) l x = true /\ x ∈ l !!! smallest_index l) <-> (forall m, m ∈ l -> x ∈ m).
Proof.
  intros Hl. pose proof (smallest_index_lt l Hl) as Hi. set (i := smallest_index l) in *.
  unfold in_all_but. rewrite forallb_forall. split.
  - intros [Hall Hx] m (j & Hj)%list_elem_of_lookup.
    destruct (decide (j = i)) as [->|Hne]; [by rewrite (list_lookup_total_correct _ _ _ Hj) in Hx|].
    assert (In (j, m) (zip (seq 0 (length l)) l)) as Hin.
    { apply list_elem_of_In, list_elem_of_lookup. exists j. apply lookup_zip_with_Some.
      exists j, m. split; [done|]. split; [|done]. apply lookup_seq. split; [done|].
      by apply lookup_lt_Some in Hj. }
    apply Hall in Hin. cbn in Hin. rewrite bool_decide_false in Hin by done. by apply bool_decide_eq_true in Hin.
  - intros Hall. split.
    + intros [j m] Hin. apply orb_true_iff. right. apply bool_decide_eq_true. apply Hall.
      apply list_elem_of_In, elem_of_zip_r in Hin. done.
    + apply Hall. apply list_elem_of_lookup. exists i. by apply list_lookup_lookup_total_lt.
Qed.

Lemma sort_elements_mem (m : gset string) x : x ∈ sorted_members m <-> x ∈ m.
Proof. unfold sorted_members. by rewrite sort_strings_perm, elem_of_elements. Qed.

Lemma sunion_collect_ok now keys u s r :
  sunion_collect now keys u s = Ok r ->
  forall x, x ∈ r <-> x ∈ u \/ exists k, k ∈ keys /\ x ∈ live_set now k s.
Proof.
  revert u. induction keys as [|key keys IH]; intros u; cbn.
  { intros [= ->] x. set_solver. }
  destruct (isExpiredRLocked now key s) eqn:Ex.
  { intros Hr x. rewrite (IH u Hr x). pose proof (live_set_expired now key s Ex). set_solver. }
  destruct (set_conflictR now key s); [done|]. intros Hr x. rewrite (IH _ Hr x).
  rewrite <-(live_set_fresh now key s Ex). set_solver.
Qed.

Lemma sdiff_collect_ok now keys acc s l :
  sdiff_collect now keys acc s = Ok l -> l = acc ++ ((fun k => live_set now k s) <$> keys).
Proof.
  revert acc. induction keys as [|key keys IH]; intros acc; cbn; [intros [= <-]; by rewrite app_nil_r|].
  destruct (isExpiredRLocked now key s) eqn:Ex.
  { intros ->%IH. rewrite <-(assoc (++)). cbn. by rewrite live_set_expired. }
  destruct (set_conflictR now key s); [done|]. intros ->%IH. rewrite <-(assoc (++)). cbn.
  by rewrite live_set_fresh.
Qed.

(** SINTER, SUNION and SDIFF.  When they answer, the answer is sorted and
    lists exactly the members of the intersection (of at least one set), the
    union and the difference of the live sets, a missing or expired key
    counting as empty: scanning the smallest set only, and the early return on
    an empty one, lose nothing. *)
Theorem set_algebra now s keys :
  (forall l, SInter now keys s = Ok l ->
     Sorted str_le l /\ forall x, x ∈ l <-> keys <> [] /\ forall k, k ∈ keys -> x ∈ live_set now k s) /\
  (forall l, SUnion now keys s = Ok l ->
     Sorted str_le l /\ forall x, x ∈ l <-> exists k, k ∈ keys /\ x ∈ live_set now k s) /\
  (forall k0 ks l, keys = k0 :: ks -> SDiff now keys s = Ret (Ok l) ->
     Sorted str_le l /\
     forall x, x ∈ l <-> x ∈ live_set now k0 s /\ forall k, k ∈ ks -> x ∉ live_set now k s).
Proof.
  split; [|split].
  - intros l. unfold SInter. destruct (sinter_collect now keys [] s) as [[c|]|] eqn:E; [|intros [= <-]|done].
    + apply sinter_collect_some in E as ->. cbn [app].
      destruct keys as [|key keys]; [cbn; intros [= <-]; split; [constructor|set_solver]|].
      set (ls := (fun k => live_set now k s) <$> key :: keys). assert (ls <> []) as Hls by done.
      rewrite (proj2 (Z.eqb_neq (zlen ls) 0)) by (unfold ls; zlen_lia). intros [= <-].
      split; [apply sort_strings_sorted|]. intros x.
      rewrite sort_strings_perm, list_elem_of_filter, elem_of_elements, smallest_filter by done.
      unfold ls. setoid_rewrite list_elem_of_fmap. naive_solver.
    + apply sinter_collect_none in E as (k & Hk & He). split; [constructor|]. intros x.
      split; [by intros ?%not_elem_of_nil|]. intros [_ Hall]. specialize (Hall k Hk). set_solver.
  - intros l. unfold SUnion. destruct (sunion_collect now keys ∅ s) as [u|] eqn:E; [|done]. intros [= <-].
    split; [apply sort_strings_sorted|]. intros x. rewrite sort_elements_mem.
    rewrite (sunion_collect_ok _ _ _ _ _ E). set_solver.
  - intros k0 ks l ->. unfold SDiff. destruct (sdiff_collect now (k0 :: ks) [] s) as [u|] eqn:E; [|done].
    apply sdiff_collect_ok in E as ->. cbn. intros [= <-]. split; [apply sort_strings_sorted|].
    intros x. rewrite sort_strings_perm, list_elem_of_filter, elem_of_elements, forallb_forall.
    setoid_rewrite bool_decide_eq_true. setoid_rewrite <-list_elem_of_In.
    setoid_rewrite list_elem_of_fmap. naive_solver.
Qed.

(** ** Per-key meaning of the writes *)

Definition e_not_set (e : Entry) : bool :=
  is_some (e_hash e) || is_some (e_list e) || is_some (e_zset e) || is_some (e_stream e)
  || is_some (e_hll e) || is_some (e_json e) || is_some (e_ts e).

Definition e_not_zset (e : Entry) : bool :=
  is_some (e_hash e) || is_some (e_list e) || is_some (e_set e) || is_some (e_stream e)
  || is_some (e_hll e) || is_some (e_json e) || is_some (e_ts e).

Definition spec_SAdd (members : list string) (e : Entry) : result Z * Entry :=
  if zlen members =? 0 then (Err "wrong number of set members", e)
  else if is_some (e_kv e) || e_not_set e then (Err wrongType, e)
  else
    let m := default ∅ (e_set e) in
    let m' := list_to_set members ∪ m in
    (Ok (Z.of_nat (size m') - Z.of_nat (size m)), e <| e_set := Some m' |>).

Definition e_put_set (m : gset string) (e : Entry) : Entry :=
  if decide (m = ∅) then e <| e_set := None |> <| e_expire := None |> else e <| e_set := Some m |>.

Definition spec_SRem (members : list string) (e : Entry) : result Z * Entry :=
  if is_some (e_kv e) || e_not_set e then (Err wrongType, e)
  else
    let m := default ∅ (e_set e) in
    if decide (m = ∅) then (Ok 0, e)
    else
      let m' := m ∖ list_to_set members in
      (Ok (Z.of_nat (size m) - Z.of_nat (size m')), e_put_set m' e).

Definition spec_ZAdd (members : list SortedSet.ZMember) (e : Entry) : result Z * Entry :=
  if zlen members =? 0 then (Err "wrong number of sorted set members", e)
  else if is_some (e_kv e) || e_not_zset e then (Err wrongType, e)
  else
    let '(added, z) := zadd_loop members (default SortedSet.NewSortedSet (e_zset e)) 0 in
    (Ok added, e <| e_zset := Some z |>).

Definition e_put_zset (z : SortedSet.SortedSet) (e : Entry) : Entry :=
  if SortedSet.Len z =? 0 then e <| e_zset := None |> <| e_expire := None |> else e <| e_zset := Some z |>.

Definition spec_zset_write {A} (dflt : A) (k : SortedSet.SortedSet -> A * SortedSet.SortedSet) (e : Entry)
    : result A * Entry :=
  if is_some (e_kv e) || e_not_zset e then (Err wrongType, e)
  else
    match e_zset e with
    | None => (Ok dflt, e)
    | Some zs => if SortedSet.Len zs =? 0 then (Ok dflt, e)
                 else let '(a, zs) := k zs in (Ok a, e_put_zset zs e)
    end.

Lemma sadd_loop_spec members m added :
  sadd_loop members m added =
    (added + (Z.of_nat (size (list_to_set members ∪ m)) - Z.of_nat (size m)), list_to_set members ∪ m).
Proof.
  unfold sadd_loop. revert m added. induction members as [|x members IH]; intros m added; cbn [fold_left].
  { cbn. rewrite union_empty_l_L. f_equal. lia. }
  cbn [list_to_set foldr]. destruct (decide (x ∈ m)).
  - rewrite IH. by replace ({[x]} ∪ list_to_set members ∪ m) with (list_to_set members ∪ m) by set_solver.
  - rewrite IH.
    replace (list_to_set members ∪ ({[x]} ∪ m)) with ({[x]} ∪ list_to_set members ∪ m) by set_solver.
    f_equal. rewrite (size_union {[x]} m) by set_solver. rewrite size_singleton. lia.
Qed.

Lemma srem_loop_spec members m removed :
  srem_loop members m removed =
    (removed + (Z.of_nat (size m) - Z.of_nat (size (m ∖ list_to_set members))), m ∖ list_to_set members).
Proof.
  unfold srem_loop. revert m removed. induction members as [|x members IH]; intros m removed; cbn [fold_left].
  { cbn. replace (m ∖ ∅) with m by set_solver. f_equal. lia. }
  cbn [list_to_set foldr]. destruct (decide (x ∈ m)).
  - rewrite IH. replace (m ∖ {[x]} ∖ list_to_set members) with (m ∖ ({[x]} ∪ list_to_set members)) by set_solver.
    f_equal. rewrite (size_difference m {[x]}) by set_solver. rewrite size_singleton.
    assert (size m <> 0%nat) by (intros ?%size_empty_inv; set_solver). lia.
  - rewrite IH. by replace (m ∖ ({[x]} ∪ list_to_set members)) with (m ∖ list_to_set members) by set_solver.
Qed.

Lemma set_conflict_live now key s e :
  entry s key = e -> e_expired now e = false ->
  set_conflict now key s = (is_some (e_kv e) || e_not_set e, s).
Proof. intros <- Hx. unfold set_conflict. by rewrite existsString_live. Qed.

Lemma zset_conflict_live now key s e :
  entry s key = e -> e_expired now e = false ->
  zset_conflict now key s = (is_some (e_kv e) || e_not_zset e, s).
Proof. intros <- Hx. unfold zset_conflict. by rewrite existsString_live. Qed.

Lemma entry_put_set key m s k :
  entry (put_set key m s) k = if decide (k = key) then e_put_set m (entry s key) else entry s k.
Proof.
  unfold put_set, e_put_set. case_bool_decide; repeat case_decide; subst; try done; entry_simp; done.
Qed.

Lemma entry_put_zset key z s k :
  entry (put_zset key z s) k = if decide (k = key) then e_put_zset z (entry s key) else entry s k.
Proof.
  unfold put_zset, e_put_zset. destruct (SortedSet.Len z =? 0); case_decide; subst; entry_simp; done.
Qed.

Lemma SAdd_local now key members : local now key (SAdd now key members) (spec_SAdd members).
Proof.
  intros s. unfold SAdd, spec_SAdd. destruct (zlen members =? 0).
  { cbn [fst snd]. split; [done|]. split; [by right|done]. }
  local_start now key s s1 e Hk Hne. rewrite (set_conflict_live now _ _ _ Hk) by apply e_expired_live. fold e.
  change (sets s1 !! key) with (e_set (entry s1 key)). rewrite Hk.
  destruct (is_some (e_kv e) || e_not_set e); [local_finish Hk Hne|].
  rewrite sadd_loop_spec, Z.add_0_l. local_finish Hk Hne.
Qed.

Lemma SRem_local now key members : local now key (SRem now key members) (spec_SRem members).
Proof.
  intros s. unfold SRem, spec_SRem. local_start now key s s1 e Hk Hne.
  local_expired now key s e Hk Hne. rewrite (set_conflict_live now _ _ _ Hk) by apply e_expired_live. fold e.
  change (sets s1 !! key) with (e_set (entry s1 key)). rewrite Hk.
  destruct (is_some (e_kv e) || e_not_set e); [local_finish Hk Hne|].
  case_bool_decide; case_decide; try done; [local_finish Hk Hne|].
  rewrite srem_loop_spec, Z.add_0_l. cbn [fst snd]. split; [done|]. split.
  - left. rewrite entry_put_set, decide_True by done. by rewrite Hk.
  - intros k Hkk. rewrite entry_put_set, decide_False by done. by apply Hne.
Qed.

Lemma ZAdd_local now key members : local now key (ZAdd now key members) (spec_ZAdd members).
Proof.
  intros s. unfold ZAdd, spec_ZAdd. destruct (zlen members =? 0).
  { cbn [fst snd]. split; [done|]. split; [by right|done]. }
  local_start now key s s1 e Hk Hne. rewrite (zset_conflict_live now _ _ _ Hk) by apply e_expired_live. fold e.
  change (zsets s1 !! key) with (e_zset (entry s1 key)). rewrite Hk.
  destruct (is_some (e_kv e) || e_not_zset e); [local_finish Hk Hne|].
  destruct (zadd_loop _ _ _) as [added z]. local_finish Hk Hne.
Qed.

(** The continuations of [zset_write] store the new set and may touch. *)
Definition zset_cont {A} (key : string) (k : SortedSet.SortedSet -> Store -> A * Store)
    (k' : SortedSet.SortedSet -> A * SortedSet.SortedSet) : Prop :=
  forall zs s, (k zs s).1 = (k' zs).1 /\ forall j, entry (k zs s).2 j = entry (put_zset key (k' zs).2 s) j.

Lemma zset_write_local {A} now key (dflt : A) k k' :
  zset_cont key k k' ->
  local now key (fun s => zset_write now key s dflt k) (spec_zset_write dflt k').
Proof.
  intros Hc s. unfold zset_write, spec_zset_write. local_start now key s s1 e Hk Hne.
  local_expired now key s e Hk Hne. rewrite (zset_conflict_live now _ _ _ Hk) by apply e_expired_live. fold e.
  change (zsets s1 !! key) with (e_zset (entry s1 key)). rewrite Hk.
  destruct (is_some (e_kv e) || e_not_zset e); [local_finish Hk Hne|].
  destruct (e_zset e) as [zs|]; [|local_finish Hk Hne].
  destruct (SortedSet.Len zs =? 0); [local_finish Hk Hne|].
  destruct (Hc zs s1) as [H1 H2]. destruct (k zs s1) as [a s2]. destruct (k' zs) as [a' zs'].
  cbn [fst snd] in *. subst. split; [done|]. split.
  - left. rewrite H2, entry_put_zset, decide_True by done. by rewrite Hk.
  - intros j Hj. rewrite H2, entry_put_zset, decide_False by done. by apply Hne.
Qed.

Lemma ZPopMin_local now key count :
  local now key (ZPopMin now key count) (spec_zset_write [] (SortedSet.PopMin count)).
Proof.
  apply zset_write_local. intros zs s. destruct (SortedSet.PopMin count zs). cbn.
  split; [done|]. intros. by rewrite entry_touch.
Qed.

Lemma ZPopMax_local now key count :
  local now key (ZPopMax now key count) (spec_zset_write [] (SortedSet.PopMax count)).
Proof.
  apply zset_write_local. intros zs s. destruct (SortedSet.PopMax count zs). cbn.
  split; [done|]. intros. by rewrite entry_touch.
Qed.

Lemma ZRem_local now key members :
  local now key (ZRem now key members) (spec_zset_write 0 (fun zs => zrem_loop members zs 0)).
Proof.
  apply zset_write_local. intros zs s. destruct (zrem_loop members zs 0) as [r z]. cbn.
  split; [done|]. intros. destruct (r >? 0); [by rewrite entry_touch|done].
Qed.

(** ** Marks for WATCH *)

Lemma SAdd_marked now key members : marked now key (SAdd now key members).
Proof.
  intros s Hr Htidy. unfold SAdd. destruct (zlen members =? 0); [split; [by left|apply vstep4_refl]|].
  marked_start now key s s1 Hr Hk Hv. rewrite (set_conflict_live now _ _ _ Hk) by apply e_expired_live.
  destruct (_ || _); [marked_finish Hr Hk Hv|]. rewrite sadd_loop_spec. marked_finish Hr Hk Hv.
Qed.

Lemma ZAdd_marked now key members : marked now key (ZAdd now key members).
Proof.
  intros s Hr Htidy. unfold ZAdd. destruct (zlen members =? 0); [split; [by left|apply vstep4_refl]|].
  marked_start now key s s1 Hr Hk Hv. rewrite (zset_conflict_live now _ _ _ Hk) by apply e_expired_live.
  destruct (_ || _); [marked_finish Hr Hk Hv|]. destruct (zadd_loop _ _ _). marked_finish Hr Hk Hv.
Qed.

Lemma zset_pop_marked now key (pop : SortedSet.SortedSet -> list SortedSet.ZMember * SortedSet.SortedSet) :
  marked now key (fun s => zset_write now key s [] (fun zs s =>
    let '(result, zs) := pop zs in (result, touchKeyLocked now [key] (put_zset key zs s)))).
Proof.
  intros s Hr Htidy. unfold zset_write. marked_start now key s s1 Hr Hk Hv.
  destruct (e_expired now (entry s key)); [marked_finish Hr Hk Hv|].
  rewrite (zset_conflict_live now _ _ _ Hk) by apply e_expired_live.
  destruct (_ || _); [marked_finish Hr Hk Hv|]. destruct (zsets s1 !! key) as [zs|]; [|marked_finish Hr Hk Hv].
  destruct (SortedSet.Len zs =? 0); [marked_finish Hr Hk Hv|]. destruct (pop zs) as [l zs'].
  unfold put_zset. destruct (SortedSet.Len zs' =? 0); marked_finish Hr Hk Hv.
Qed.

Lemma ZPopMin_marked now key count : marked now key (ZPopMin now key count).
Proof. apply zset_pop_marked. Qed.

Lemma ZPopMax_marked now key count : marked now key (ZPopMax now key count).
Proof. apply zset_pop_marked. Qed.

Lemma Remove_false m z : (SortedSet.Remove m z).1 = false -> (SortedSet.Remove m z).2 = z.
Proof. unfold SortedSet.Remove. by destruct (SortedSet.scores z !! m). Qed.

Lemma zrem_loop_ge members z r : r <= (zrem_loop members z r).1.
Proof.
  unfold zrem_loop. revert z r. induction members as [|m members IH]; intros z r; cbn [fold_left]; [cbn; lia|].
  destruct (SortedSet.Remove m z) as [[|] z']; etrans; [|apply IH| |apply IH]; lia.
Qed.

Lemma zrem_loop_none members z r : (zrem_loop members z r).1 <= r -> zrem_loop members z r = (r, z).
Proof.
  unfold zrem_loop. revert z. induction members as [|m members IH]; intros z H; [done|]. cbn [fold_left] in *.
  pose proof (Remove_false m z) as Hf. destruct (SortedSet.Remove m z) as [[|] z'].
  - pose proof (zrem_loop_ge members z' (r + 1)) as Hge. unfold zrem_loop in Hge. lia.
  - cbn in Hf. rewrite (Hf eq_refl) in *. by apply IH.
Qed.

Lemma ZRem_marked now key members : marked now key (ZRem now key members).
Proof.
  intros s Hr Htidy. unfold ZRem, zset_write. marked_start now key s s1 Hr Hk Hv.
  destruct (e_expired now (entry s key)); [marked_finish Hr Hk Hv|].
  rewrite (zset_conflict_live now _ _ _ Hk) by apply e_expired_live.
  destruct (_ || _); [marked_finish Hr Hk Hv|].
  destruct (zsets s1 !! key) as [zs|] eqn:Ez; [|marked_finish Hr Hk Hv].
  destruct (SortedSet.Len zs =? 0) eqn:El; [marked_finish Hr Hk Hv|].
  pose proof (zrem_loop_none members zs 0) as Hnone.
  destruct (zrem_loop members zs 0) as [r zs']. cbn [fst] in Hnone. rewrite Z.gtb_ltb.
  destruct (Z.ltb_spec 0 r) as [Hpos|Hpos].
  { unfold put_zset. destruct (SortedSet.Len zs' =? 0); marked_finish Hr Hk Hv. }
  specialize (Hnone Hpos). simplify_eq. unfold put_zset. rewrite El. cbn [fst snd].
  split; [|vsteps Hr Hv]. left. apply live_kept. rewrite <-Hk, entry_set_zsets.
  by rewrite lookup_insert_eq, <-Ez.
Qed.

Lemma SRem_vstep now key members s : room 4 s -> vstep 4 s (SRem now key members s).2.
Proof.
  intros Hr. unfold SRem. marked_start now key s s1 Hr Hk Hv.
  destruct (e_expired now (entry s key)); [vsteps Hr Hv|].
  rewrite (set_conflict_live now _ _ _ Hk) by apply e_expired_live.
  destruct (_ || _); [vsteps Hr Hv|]. case_bool_decide; [vsteps Hr Hv|].
  destruct (srem_loop _ _ _). unfold put_set. cbn [snd]. case_bool_decide; vsteps Hr Hv.
Qed.

(** SREM is invisible to WATCH.  Removing a member changes the set but
    neither the key's version nor the counter, so a transaction that watches
    the key is not aborted. *)
Theorem srem_not_watched now key x m s :
  e_expired now (entry s key) = false -> e_kv (entry s key) = None -> e_not_set (entry s key) = false ->
  sets s !! key = Some m -> x ∈ m ->
  let s' := (SRem now key [x] s).2 in
  (SRem now key [x] s).1 = Ok 1 /\
  default ∅ (sets s' !! key) = m ∖ {[x]} /\
  KeysModifiedSince (KeyVersions [key] s) s' = false.
Proof.
  intros Hx Hkv Hns Hm Hin. cbv zeta. unfold SRem. rewrite expiredKey_false by done.
  rewrite (set_conflict_live now _ _ _ eq_refl Hx), Hkv, Hns. cbn [is_some orb]. rewrite Hm. change (default ∅ (Some m)) with m.
  rewrite bool_decide_false by set_solver. rewrite srem_loop_spec. cbn [fst snd list_to_set foldr].
  replace ({[x]} ∪ ∅) with ({[x]} : gset string) by set_solver. split; [|split].
  - rewrite size_difference by set_solver. rewrite size_singleton.
    assert (size m <> 0%nat) by (intros ?%size_empty_inv; set_solver). f_equal. lia.
  - unfold put_set. case_bool_decide as He; store_cbn.
    + by rewrite lookup_delete_eq, He.
    + by rewrite lookup_insert_eq.
  - assert (keyVersion (put_set key (m ∖ {[x]}) s) = keyVersion s) as Hv.
    { unfold put_set. by case_bool_decide. }
    apply not_true_iff_false. rewrite KeysModified_spec. intros (k & v & Hk & Hne).
    rewrite KeyVersions_lookup in Hk. unfold kver in *. rewrite Hv in Hne. case_decide; simplify_eq.
Qed.

Lemma srem_not_watched_witness :
  let s := (SAdd 1 "s" ["a"; "b"] New).2 in
  (SRem 1 "s" ["a"] s).1 = Ok 1 /\
  KeysModifiedSince (KeyVersions ["s"] s) (SRem 1 "s" ["a"] s).2 = false.
Proof.
  cbv zeta. set (s := (SAdd 1 "s" ["a"; "b"] New).2).
  assert (sets s !! "s" = Some (default ∅ (sets s !! "s"))) as Hm by (vm_compute; reflexivity).
  assert ("a" ∈ default ∅ (sets s !! "s")) as Hin by (apply elem_of_elements, list_elem_of_In; vm_compute; tauto).
  destruct (srem_not_watched 1 "s" "a" (default ∅ (sets s !! "s")) s) as (H1 & _ & H3);
    [vm_compute; reflexivity..|exact Hin|]. split; [exact H1|exact H3].
Defined.

End Sets.
