(* ===== verification/Keyspace.v ===== *)
(** * The keyspace as a whole

    The single-key commands of the string, hash, set and sorted-set files are
    gathered in one [command] type with an executor [exec] (the code) and a
    per-key meaning [spec].  Three theorems about arbitrary traces follow:
    lazy expiry and the background sweep cannot be observed
    ([lazy_expiry_refines]), a key never holds two types and never an empty
    collection ([reachable_invariant]), and every change that one of these
    commands makes to a watched key is seen by WATCH ([watch_detects]; SREM is
    the exception, see [srem_not_watched]). *)
From S2P Require Import Prelude GoLib Deque SortedSet Store StoreStrings StoreHashes StoreSets.
Import Store Strings Hashes Sets.

Module Keyspace.

Inductive command :=
| CSet (key value : string) (ttl : Z)
| CSetNX (key value : string) (ttl : Z)
| CSetXX (key value : string) (ttl : Z)
| CGetSet (key value : string)
| CGetEx (key : string) (ttl : Z) (persist : bool)
| CGetDel (key : string)
| CAppend (key value : string)
| CIncrBy (key : string) (delta : Z)
| CExpire (key : string) (ttl : Z)
| CExpireAt (key : string) (at_ : Z)
| CPersist (key : string)
| CHSet (key : string) (pairs : list (string * string))
| CHDel (key : string) (fields : list string)
| CHIncrBy (key field : string) (delta : Z)
| CHSetNX (key field value : string)
| CSAdd (key : string) (members : list string)
| CSRem (key : string) (members : list string)
| CZAdd (key : string) (members : list SortedSet.ZMember)
| CZRem (key : string) (members : list string)
| CZPopMin (key : string) (count : Z)
| CZPopMax (key : string) (count : Z)
| CGet (key : string)
| CType (key : string)
| CExists (key : string)
| CPTTL (key : string)
| CStrlen (key : string)
| CHGet (key field : string)
| CHLen (key : string).

Inductive reply :=
| RUnit
| RBool (b : bool)
| RInt (z : Z)
| RStr (s : string)
| RVal (r : string * bool)
| RResInt (r : result Z)
| RResBool (r : result bool)
| RResVal (r : result (string * bool))
| RResMembers (r : result (list SortedSet.ZMember)).

Definition key_of (c : command) : string :=
  match c with
  | CSet k _ _ | CSetNX k _ _ | CSetXX k _ _ | CGetSet k _ | CGetEx k _ _ | CGetDel k | CAppend k _
  | CIncrBy k _ | CExpire k _ | CExpireAt k _ | CPersist k | CHSet k _ | CHDel k _ | CHIncrBy k _ _
  | CHSetNX k _ _ | CSAdd k _ | CSRem k _ | CZAdd k _ | CZRem k _ | CZPopMin k _ | CZPopMax k _
  | CGet k | CType k | CExists k | CPTTL k | CStrlen k | CHGet k _ | CHLen k => k
  end.

Definition wrap {A S} (g : A -> reply) (p : A * S) : reply * S := (g p.1, p.2).

Definition exec (now : Z) (c : command) (s : Store) : reply * Store :=
  match c with
  | CSet k v ttl => (RUnit, Set_ now k v ttl s)
  | CSetNX k v ttl => wrap RBool (SetNX now k v ttl s)
  | CSetXX k v ttl => wrap RBool (SetXX now k v ttl s)
  | CGetSet k v => wrap RResVal (GetSet now k v s)
  | CGetEx k ttl p => wrap RVal (GetEx now k ttl p s)
  | CGetDel k => wrap RVal (GetDel now k s)
  | CAppend k v => wrap RResInt (Append now k v s)
  | CIncrBy k d => wrap RResInt (IncrBy now k d s)
  | CExpire k ttl => wrap RBool (Expire now k ttl s)
  | CExpireAt k t => wrap RBool (ExpireAt now k t s)
  | CPersist k => wrap RBool (Persist now k s)
  | CHSet k ps => wrap RResInt (HSet now k ps s)
  | CHDel k fs => wrap RResInt (HDel now k fs s)
  | CHIncrBy k f d => wrap RResInt (HIncrBy now k f d s)
  | CHSetNX k f v => wrap RResBool (HSetNX now k f v s)
  | CSAdd k ms => wrap RResInt (SAdd now k ms s)
  | CSRem k ms => wrap RResInt (SRem now k ms s)
  | CZAdd k ms => wrap RResInt (ZAdd now k ms s)
  | CZRem k ms => wrap RResInt (ZRem now k ms s)
  | CZPopMin k n => wrap RResMembers (ZPopMin now k n s)
  | CZPopMax k n => wrap RResMembers (ZPopMax now k n s)
  | CGet k => wrap RVal (Get now k s)
  | CType k => (RStr (Type_ now k s), s)
  | CExists k => (RBool (existsRLocked now k s), s)
  | CPTTL k => (RInt (PTTL now k s), s)
  | CStrlen k => (RResInt (Strlen now k s), s)
  | CHGet k f => (RResVal (HGet now k f s), s)
  | CHLen k => (RResInt (HLen now k s), s)
  end.

Definition spec_Set (now : Z) (value : string) (ttl : Z) (e : Entry) : Entry :=
  set_ttl now ttl (cleared (e <| e_kv := Some value |> <| e_expire := None |>)).

Definition spec (now : Z) (c : command) (e : Entry) : reply * Entry :=
  match c with
  | CSet k v ttl => (RUnit, spec_Set now v ttl e)
  | CSetNX k v ttl => wrap RBool (spec_SetNX now v ttl e)
  | CSetXX k v ttl => wrap RBool (spec_SetXX now v ttl e)
  | CGetSet k v => wrap RResVal (spec_GetSet v e)
  | CGetEx k ttl p => wrap RVal (spec_GetEx now ttl p e)
  | CGetDel k => wrap RVal (spec_GetDel e)
  | CAppend k v => wrap RResInt (spec_Append v e)
  | CIncrBy k d => wrap RResInt (spec_IncrBy d e)
  | CExpire k ttl => wrap RBool (spec_Expire now ttl e)
  | CExpireAt k t => wrap RBool (spec_ExpireAt now t e)
  | CPersist k => wrap RBool (spec_Persist now e)
  | CHSet k ps => wrap RResInt (spec_HSet ps e)
  | CHDel k fs => wrap RResInt (spec_HDel fs e)
  | CHIncrBy k f d => wrap RResInt (spec_HIncrBy f d e)
  | CHSetNX k f v => wrap RResBool (spec_HSetNX f v e)
  | CSAdd k ms => wrap RResInt (spec_SAdd ms e)
  | CSRem k ms => wrap RResInt (spec_SRem ms e)
  | CZAdd k ms => wrap RResInt (spec_ZAdd ms e)
  | CZRem k ms => wrap RResInt (spec_zset_write 0 (fun zs => zrem_loop ms zs 0) e)
  | CZPopMin k n => wrap RResMembers (spec_zset_write [] (SortedSet.PopMin n) e)
  | CZPopMax k n => wrap RResMembers (spec_zset_write [] (SortedSet.PopMax n) e)
  | CGet k => (RVal (spec_Get now e), e)
  | CType k => (RStr (spec_Type now e), e)
  | CExists k => (RBool (e_exists now e), e)
  | CPTTL k => (RInt (spec_deadline now (fun t => Z.quot (time_sub t now) (10 ^ 6)) e), e)
  | CStrlen k => (RResInt (spec_Strlen e), e)
  | CHGet k f => (RResVal (spec_hash_read now ("", false) (hget_of f) e), e)
  | CHLen k => (RResInt (spec_hash_read now 0 hlen_of e), e)
  end.

(** ** Keys of the classical types

    The commands above create no JSON document, time series, stream,
    HyperLogLog, list, consumer group or delay; an entry without the ones SET
    forgets to clear is [plain]. *)
Definition plain (e : Entry) : Prop :=
  e_json e = None /\ e_ts e = None /\ e_groups e = None /\ e_notBefore e = None.

Lemma local_wrap {A} now key (op : Store -> A * Store) f g :
  local now key op f -> local now key (fun s => wrap g (op s)) (fun e => wrap g (f e)).
Proof.
  intros H s. destruct (H s) as (H1 & H2 & H3). unfold wrap. cbn [fst snd].
  rewrite H1. done.
Qed.

Lemma local_of_read {A} now key (op : Store -> A) f (g : A -> reply) :
  local_read now key op f -> local now key (fun s => (g (op s), s)) (fun e => (g (f e), e)).
Proof. intros H s. cbn [fst snd]. rewrite (H s). split; [done|]. split; [by right|done]. Qed.

Lemma Get_full_local now key :
  local now key (fun s => wrap RVal (Get now key s)) (fun e => (RVal (spec_Get now e), e)).
Proof.
  intros s. unfold wrap. cbn [fst snd]. rewrite (Get_local now key s). split; [done|].
  rewrite entry_Get. split; [by right|]. intros. apply entry_Get.
Qed.

(** SET does not look at the old entry's deadline: it is local as long as an
    expired entry holds nothing it does not clear. *)
Lemma Set_local now key value ttl s :
  (e_expired now (entry s key) = true -> plain (entry s key)) ->
  stored now (entry s key) (entry (Set_ now key value ttl s) key) (spec_Set now value ttl (live now (entry s key))) /\
  (forall k, k <> key -> entry (Set_ now key value ttl s) k = entry s k).
Proof.
  intros Hp. split; [|intros k Hk; by rewrite entry_Set, decide_False].
  left. rewrite entry_Set, decide_True by done. unfold live, spec_Set.
  destruct (e_expired now (entry s key)); [|done]. destruct (Hp eq_refl) as (H1 & H2 & H3 & H4).
  destruct (entry s key); cbn in *; subst. done.
Qed.

(** Only SET looks at what an expired entry still holds. *)
Lemma exec_local_weak now c s :
  (forall key value ttl, c = CSet key value ttl -> plain (entry s key)) ->
  (exec now c s).1 = (spec now c (live now (entry s (key_of c)))).1 /\
  stored now (entry s (key_of c)) (entry (exec now c s).2 (key_of c))
    (spec now c (live now (entry s (key_of c)))).2 /\
  (forall k, k <> key_of c -> entry (exec now c s).2 k = entry s k).
Proof.
  intros Hp. destruct c; cbn [key_of exec spec] in *.
  - split; [done|]. apply Set_local. intros _. by eapply Hp.
  - apply (local_wrap _ _ _ _ _ (SetNX_local now key value ttl)).
  - apply (local_wrap _ _ _ _ _ (SetXX_local now key value ttl)).
  - apply (local_wrap _ _ _ _ _ (GetSet_local now key value)).
  - apply (local_wrap _ _ _ _ _ (GetEx_local now key ttl persist)).
  - apply (local_wrap _ _ _ _ _ (GetDel_local now key)).
  - apply (local_wrap _ _ _ _ _ (Append_local now key value)).
  - apply (local_wrap _ _ _ _ _ (IncrBy_local now key delta)).
  - apply (local_wrap _ _ _ _ _ (Expire_local now key ttl)).
  - apply (local_wrap _ _ _ _ _ (ExpireAt_local now key at_)).
  - apply (local_wrap _ _ _ _ _ (Persist_local now key)).
  - apply (local_wrap _ _ _ _ _ (HSet_local now key pairs)).
  - apply (local_wrap _ _ _ _ _ (HDel_local now key fields)).
  - apply (local_wrap _ _ _ _ _ (HIncrBy_local now key field delta)).
  - apply (local_wrap _ _ _ _ _ (HSetNX_local now key field value)).
  - apply (local_wrap _ _ _ _ _ (SAdd_local now key members)).
  - apply (local_wrap _ _ _ _ _ (SRem_local now key members)).
  - apply (local_wrap _ _ _ _ _ (ZAdd_local now key members)).
  - apply (local_wrap _ _ _ _ _ (ZRem_local now key members)).
  - apply (local_wrap _ _ _ _ _ (ZPopMin_local now key count)).
  - apply (local_wrap _ _ _ _ _ (ZPopMax_local now key count)).
  - apply Get_full_local.
  - apply (local_of_read _ _ _ _ _ (Type_local now key)).
  - apply (local_of_read _ _ _ _ _ (existsRLocked_local now key)).
  - apply (local_of_read _ _ _ _ _ (with_deadline_local now key _)).
  - apply (local_of_read _ _ _ _ _ (Strlen_local now key)).
  - apply (local_of_read _ _ _ _ _ (HGet_local now key field)).
  - apply (local_of_read _ _ _ _ _ (HLen_local now key)).
Qed.

Lemma exec_local now c s :
  plain (entry s (key_of c)) ->
  (exec now c s).1 = (spec now c (live now (entry s (key_of c)))).1 /\
  stored now (entry s (key_of c)) (entry (exec now c s).2 (key_of c))
    (spec now c (live now (entry s (key_of c)))).2 /\
  (forall k, k <> key_of c -> entry (exec now c s).2 k = entry s k).
Proof. intros Hp. apply exec_local_weak. intros key value ttl ->. exact Hp. Qed.

(** A command leaves every other key alone, whatever the store holds. *)
Lemma exec_ne now c s k : k <> key_of c -> entry (exec now c s).2 k = entry s k.
Proof.
  intros Hk. destruct c; [cbn [exec snd]; by rewrite entry_Set, decide_False|..];
    (refine (proj2 (proj2 (exec_local_weak now _ s _)) k Hk); discriminate).
Qed.

(** ** Time *)

Lemma e_expired_mono t t' e : t <= t' -> e_expired t e = true -> e_expired t' e = true.
Proof.
  intros Ht. unfold e_expired. destruct (e_expire e) as [d|]; [|done].
  rewrite !negb_true_iff, !orb_false_iff, !Z.ltb_ge. intros [? ?]. split; [done|lia].
Qed.

Lemma live_mono t t' e : t <= t' -> live t' (live t e) = live t' e.
Proof.
  intros Ht. unfold live at 2. destruct (e_expired t e) eqn:E; [|done].
  by rewrite (live_expired t' e) by (by eapply e_expired_mono).
Qed.

(** ** The invariant *)

Definition b2z (b : bool) : Z := if b then 1 else 0.

(** The number of types stored under a key. *)
Definition ntypes (e : Entry) : Z :=
  b2z (is_some (e_kv e)) + b2z (is_some (e_hash e)) + b2z (is_some (e_list e)) + b2z (is_some (e_set e))
  + b2z (is_some (e_zset e)) + b2z (is_some (e_stream e)) + b2z (is_some (e_hll e))
  + b2z (is_some (e_json e)) + b2z (is_some (e_ts e)).

Definition ok_entry (e : Entry) : Prop := plain e /\ ntypes e <= 1 /\ tidy e.

Lemma ok_none : ok_entry no_entry.
Proof. repeat split; try done. Qed.

Lemma ok_live now e : ok_entry e -> ok_entry (live now e).
Proof. unfold live. destruct (e_expired now e); [intros; apply ok_none|done]. Qed.

Lemma fold_insert_nonempty (pairs : list (string * string)) (h : gmap string string) :
  pairs <> [] -> fold_left (fun h p => <[p.1 := p.2]> h) pairs h <> ∅.
Proof.
  revert h. induction pairs as [|[f v] pairs IH]; intros h Hne; [done|]. cbn.
  destruct pairs as [|p pairs]; [cbn; apply insert_non_empty|by apply IH].
Qed.

Lemma Add_Len m sc z : SortedSet.Len (SortedSet.Add m sc z).2 <> 0.
Proof.
  assert (forall (g : gmap string float64), is_Some (g !! m) -> Z.of_nat (size g) <> 0) as Hne.
  { intros g [x Hx] H. assert (size g = 0%nat) as ->%map_size_empty_iff by lia. by rewrite lookup_empty in Hx. }
  unfold SortedSet.Len, SortedSet.Add. destruct (SortedSet.scores z !! m) as [old|] eqn:E.
  - destruct (feqb old sc); cbn; apply Hne; [eauto|]. rewrite lookup_insert_eq. eauto.
  - cbn. apply Hne. rewrite lookup_insert_eq. eauto.
Qed.

Lemma zadd_loop_Len members z n : members <> [] -> SortedSet.Len (zadd_loop members z n).2 <> 0.
Proof.
  unfold zadd_loop. revert z n. induction members as [|m members IH]; intros z n Hne; [done|]. cbn [fold_left].
  pose proof (Add_Len (SortedSet.Member m) (SortedSet.Score m) z) as HL.
  destruct (SortedSet.Add (SortedSet.Member m) (SortedSet.Score m) z) as [b z']. cbn in HL.
  destruct members as [|m' members]; [done|]. by apply IH.
Qed.

(** The guards, as facts about the fields. *)
Lemma not_hash_none e :
  is_some (e_kv e) || e_not_hash e = false ->
  e_kv e = None /\ e_list e = None /\ e_set e = None /\ e_zset e = None /\ e_stream e = None /\
  e_hll e = None /\ e_json e = None /\ e_ts e = None.
Proof.
  unfold e_not_hash. rewrite !orb_false_iff. intros H. destruct_and! H. repeat split; by apply is_some_false.
Qed.

Lemma not_set_none e :
  is_some (e_kv e) || e_not_set e = false ->
  e_kv e = None /\ e_hash e = None /\ e_list e = None /\ e_zset e = None /\ e_stream e = None /\
  e_hll e = None /\ e_json e = None /\ e_ts e = None.
Proof.
  unfold e_not_set. rewrite !orb_false_iff. intros H. destruct_and! H. repeat split; by apply is_some_false.
Qed.

Lemma not_zset_none e :
  is_some (e_kv e) || e_not_zset e = false ->
  e_kv e = None /\ e_hash e = None /\ e_list e = None /\ e_set e = None /\ e_stream e = None /\
  e_hll e = None /\ e_json e = None /\ e_ts e = None.
Proof.
  unfold e_not_zset. rewrite !orb_false_iff. intros H. destruct_and! H. repeat split; by apply is_some_false.
Qed.

(** An entry with one collection, or only a string, is fine. *)
Lemma ok_string e v :
  plain e -> e_container e = false -> ok_entry (e <| e_kv := Some v |>).
Proof.
  intros (H1 & H2 & H3 & H4) (? & ? & ? & ? & ? & ? & ? & ?)%container_none.
  destruct e; cbn in *; subst. repeat split; done.
Qed.

Lemma ok_hash e h : plain e -> is_some (e_kv e) || e_not_hash e = false -> h <> ∅ -> ok_entry (e <| e_hash := Some h |>).
Proof.
  intros (H1 & H2 & H3 & H4) (? & ? & ? & ? & ? & ? & ? & ?)%not_hash_none Hh.
  destruct e; cbn in *; subst. repeat split; try done; cbn; congruence.
Qed.

Lemma ok_set e m : plain e -> is_some (e_kv e) || e_not_set e = false -> m <> ∅ -> ok_entry (e <| e_set := Some m |>).
Proof.
  intros (H1 & H2 & H3 & H4) (? & ? & ? & ? & ? & ? & ? & ?)%not_set_none Hm.
  destruct e; cbn in *; subst. repeat split; try done; cbn; congruence.
Qed.

Lemma ok_zset e z :
  plain e -> is_some (e_kv e) || e_not_zset e = false -> SortedSet.Len z <> 0 -> ok_entry (e <| e_zset := Some z |>).
Proof.
  intros (H1 & H2 & H3 & H4) (? & ? & ? & ? & ? & ? & ? & ?)%not_zset_none Hz.
  destruct e; cbn in *; subst. repeat split; try done; cbn; congruence.
Qed.

Lemma ok_expire e t : ok_entry e -> ok_entry (e <| e_expire := t |>).
Proof. intros (H1 & H2 & H3). destruct e. done. Qed.

Lemma ok_set_ttl now ttl e : ok_entry e -> ok_entry (set_ttl now ttl e).
Proof. unfold set_ttl. destruct (ttl >? 0); [apply ok_expire|done]. Qed.

Lemma ok_lastSeq e t : ok_entry e -> ok_entry (e <| e_lastSeq := t |>).
Proof. intros (H1 & H2 & H3). destruct e. done. Qed.

(** Removing the one collection. *)
Lemma ok_less (e e' : Entry) :
  ok_entry e -> plain e' -> ntypes e' <= ntypes e -> tidy e' -> ok_entry e'.
Proof. intros (H1 & H2 & H3) ? ? ?. split; [done|]. split; [lia|done]. Qed.

Lemma ok_cleared e v : plain e -> ok_entry (cleared (e <| e_kv := Some v |> <| e_expire := None |>)).
Proof. intros (H1 & H2 & H3 & H4). destruct e; cbn in *; subst. repeat split; done. Qed.

Lemma b2z_range b : 0 <= b2z b <= 1.
Proof. destruct b; cbn; lia. Qed.

Lemma ok_no_hash e : ok_entry e -> ok_entry (e <| e_hash := None |>).
Proof.
  intros H. apply (ok_less e); [done|by destruct H as [? _], e| |].
  - unfold ntypes. cbn. pose proof (b2z_range (is_some (e_hash e))). lia.
  - destruct H as (_ & _ & (? & ? & ? & ?)), e. done.
Qed.

Lemma ok_no_set e : ok_entry e -> ok_entry (e <| e_set := None |>).
Proof.
  intros H. apply (ok_less e); [done|by destruct H as [? _], e| |].
  - unfold ntypes. cbn. pose proof (b2z_range (is_some (e_set e))). lia.
  - destruct H as (_ & _ & (? & ? & ? & ?)), e. done.
Qed.

Lemma ok_no_zset e : ok_entry e -> ok_entry (e <| e_zset := None |>).
Proof.
  intros H. apply (ok_less e); [done|by destruct H as [? _], e| |].
  - unfold ntypes. cbn. pose proof (b2z_range (is_some (e_zset e))). lia.
  - destruct H as (_ & _ & (? & ? & ? & ?)), e. done.
Qed.

Lemma not_exists_plain now e :
  plain e -> e_expired now e = false -> e_exists now e = false -> e_container e = false.
Proof.
  intros (_ & _ & _ & Hnb) Hx. unfold e_exists, e_delayed. rewrite Hx, Hnb. cbn. by intros [_ ?]%orb_false_iff.
Qed.

Lemma spec_string_ok now c e :
  ok_entry e -> e_expired now e = false ->
  match c with
  | CSet _ _ _ | CSetNX _ _ _ | CSetXX _ _ _ | CGetSet _ _ | CGetEx _ _ _ | CGetDel _ | CAppend _ _
  | CIncrBy _ _ | CExpire _ _ | CExpireAt _ _ | CPersist _ => ok_entry (spec now c e).2
  | _ => True
  end.
Proof.
  intros Hok Hx. pose proof Hok as (Hp & Hn & Ht). destruct c; try done; cbn [spec wrap snd].
  - by apply ok_set_ttl, ok_cleared.
  - unfold spec_SetNX. destruct (e_exists now e) eqn:E; cbn; [done|].
    apply ok_set_ttl, ok_string; [done|by eapply not_exists_plain].
  - unfold spec_SetXX. destruct (e_exists now e); cbn; [by apply ok_set_ttl, ok_cleared|done].
  - unfold spec_GetSet. destruct (e_container e) eqn:E; cbn [snd]; [done|].
    by apply ok_lastSeq, ok_expire, ok_string.
  - unfold spec_GetEx. destruct (e_kv e); cbn; [|done]. destruct persist; [by apply ok_expire|by apply ok_set_ttl].
  - unfold spec_GetDel. destruct (e_kv e); cbn; [apply ok_none|done].
  - unfold spec_Append. destruct (e_container e) eqn:E; cbn [snd]; [done|]. by apply ok_string.
  - unfold spec_IncrBy. destruct (e_container e) eqn:E; cbn [snd]; [done|].
    destruct (match e_kv e with None => _ | Some v => _ end) as [n [err|]]; cbn [snd]; [done|]. by apply ok_string.
  - unfold spec_Expire. destruct (e_exists now e); cbn; [by apply ok_expire|done].
  - unfold spec_ExpireAt. destruct (e_exists now e); cbn; [by apply ok_expire|done].
  - unfold spec_Persist. destruct (e_exists now e); cbn; [by apply ok_expire|done].
Qed.

Lemma spec_zset_write_ok {A} (dflt : A) k e :
  ok_entry e -> ok_entry (spec_zset_write dflt k e).2.
Proof.
  intros Hok. unfold spec_zset_write. destruct (_ || _) eqn:E; [done|].
  destruct (e_zset e) as [zs|]; [|done]. destruct (SortedSet.Len zs =? 0); [done|].
  destruct (k zs) as [a zs']. cbn [snd]. unfold e_put_zset.
  destruct (Z.eqb_spec (SortedSet.Len zs') 0).
  - by apply ok_expire, ok_no_zset.
  - apply ok_zset; [apply Hok|done|done].
Qed.

Lemma zlen_nonempty {A} (l : list A) : (zlen l =? 0) = false -> l <> [].
Proof. by destruct l. Qed.

Lemma spec_ok now c e : ok_entry e -> e_expired now e = false -> ok_entry (spec now c e).2.
Proof.
  intros Hok Hx. pose proof (spec_string_ok now c e Hok Hx) as Hs. pose proof Hok as (Hp & Hn & Ht).
  destruct c; try exact Hs; clear Hs; cbn [spec wrap snd]; try done.
  - unfold spec_HSet. destruct (zlen pairs =? 0) eqn:El; [done|]. destruct (_ || _) eqn:E; [done|].
    cbn [snd]. apply ok_hash; [done|done|]. by apply fold_insert_nonempty, zlen_nonempty.
  - unfold spec_HDel. destruct (_ || _) eqn:E; [done|]. destruct (e_hash e) as [h|]; [|done]. cbn [snd].
    case_decide; [by apply ok_expire, ok_no_hash|by apply ok_hash].
  - unfold spec_HIncrBy. destruct (_ || _) eqn:E; [done|].
    destruct (match default ∅ (e_hash e) !! field with None => _ | Some v => _ end) as [n [err|]]; [done|].
    cbn [snd]. apply ok_hash; [done|done|apply insert_non_empty].
  - unfold spec_HSetNX. destruct (_ || _) eqn:E; [done|]. destruct (has _ field); [done|].
    cbn [snd]. apply ok_hash; [done|done|apply insert_non_empty].
  - unfold spec_SAdd. destruct (zlen members =? 0) eqn:El; [done|]. destruct (_ || _) eqn:E; [done|].
    cbn [snd]. apply ok_set; [done|done|]. apply zlen_nonempty in El. destruct members; [done|]. set_solver.
  - unfold spec_SRem. destruct (_ || _) eqn:E; [done|]. case_decide; [done|]. cbn [snd]. unfold e_put_set.
    case_decide; [by apply ok_expire, ok_no_set|by apply ok_set].
  - unfold spec_ZAdd. destruct (zlen members =? 0) eqn:El; [done|]. destruct (_ || _) eqn:E; [done|].
    pose proof (zadd_loop_Len members (default SortedSet.NewSortedSet (e_zset e)) 0 (zlen_nonempty _ El)) as HL.
    destruct (zadd_loop _ _ _) as [n z]. cbn [snd] in *. by apply ok_zset.
  - by apply spec_zset_write_ok.
  - by apply spec_zset_write_ok.
  - by apply spec_zset_write_ok.
Qed.

(** ** Traces *)

(** A command at a time, or a run of the background sweep at a time, visiting
    the deadlines and the tags in some order. *)
Inductive event :=
| EvCmd (t : Z) (c : command)
| EvSweep (t : Z) (order tagOrder : list string).

Definition time_of (ev : event) : Z := match ev with EvCmd t _ => t | EvSweep t _ _ => t end.

Fixpoint run (evs : list event) (s : Store) : list reply * Store :=
  match evs with
  | [] => ([], s)
  | EvCmd t c :: evs =>
      let '(r, s) := exec t c s in let '(rs, s) := run evs s in (r :: rs, s)
  | EvSweep t o to_ :: evs => run evs (sampleExpired t o to_ s)
  end.

(** The abstract keyspace: entries vanish at their deadline, there is no
    sweep and no version, and a command sees only its own key. *)
Definition keyspace := string -> Entry.

Definition upd (k : string) (e : Entry) (K : keyspace) : keyspace := fun j => if decide (j = k) then e else K j.

Fixpoint arun (evs : list event) (K : keyspace) : list reply :=
  match evs with
  | [] => []
  | EvCmd t c :: evs =>
      let '(r, e) := spec t c (live t (K (key_of c))) in r :: arun evs (upd (key_of c) e K)
  | EvSweep _ _ _ :: evs => arun evs K
  end.

(** The simulation: the raw entries are plain (SET needs it), the live ones
    are fine and are those of the abstract keyspace. *)
Record sim (t : Z) (s : Store) (K : keyspace) : Prop := {
  sim_plain : forall k, plain (entry s k);
  sim_ok : forall k, ok_entry (live t (entry s k));
  sim_eq : forall k, live t (entry s k) = live t (K k)
}.

Lemma sim_later t t' s K : t <= t' -> sim t s K -> sim t' s K.
Proof.
  intros Ht [H1 H2 H3]. split; [done|..]; intros k.
  - rewrite <-(live_mono t t') by done. by apply ok_live.
  - by rewrite <-(live_mono t t'), H3, live_mono.
Qed.

Lemma plain_stored now old new result : stored now old new result -> plain old -> plain result -> plain new.
Proof. by intros [->|[-> _]]. Qed.

Lemma sim_exec t s K c :
  sim t s K ->
  (exec t c s).1 = (spec t c (live t (K (key_of c)))).1 /\
  sim t (exec t c s).2 (upd (key_of c) (spec t c (live t (K (key_of c)))).2 K).
Proof.
  intros [H1 H2 H3]. destruct (exec_local t c s (H1 _)) as (Hr & Hs & Hne).
  rewrite H3 in Hr, Hs. split; [done|]. set (k0 := key_of c) in *. set (e := live t (K k0)) in *.
  assert (ok_entry e /\ e_expired t e = false) as [Hok Hx].
  { split; [unfold e; rewrite <-H3; apply H2|apply e_expired_live]. }
  pose proof (spec_ok t c e Hok Hx) as Hok'. unfold upd. split; intros k.
  - destruct (decide (k = k0)) as [->|Hk]; [|rewrite Hne by done; apply H1].
    eapply plain_stored; [exact Hs|apply H1|apply Hok'].
  - destruct (decide (k = k0)) as [->|Hk]; [|rewrite Hne by done; apply H2].
    rewrite (stored_live _ _ _ _ Hs). by apply ok_live.
  - case_decide as Hk; [subst; by apply stored_live in Hs|]. rewrite Hne by done. apply H3.
Qed.

(** ** The sweep only removes what has expired *)

Definition swept (t : Z) (s s' : Store) : Prop :=
  forall k, entry s' k = entry s k \/ (entry s' k = no_entry /\ live t (entry s k) = no_entry).

Lemma swept_refl t s : swept t s s.
Proof. by left. Qed.

Lemma swept_trans t s1 s2 s3 : swept t s1 s2 -> swept t s2 s3 -> swept t s1 s3.
Proof.
  intros H1 H2 k. destruct (H1 k) as [E1|[E1 L1]], (H2 k) as [E2|[E2 L2]]; rewrite ?E2, ?E1 in *; auto.
Qed.

Lemma swept_fold {B} t (f : Store -> B -> Store) l s :
  (forall s b, swept t s (f s b)) -> swept t s (fold_left f l s).
Proof.
  intros Hf. revert s. induction l as [|b l IH]; intros s; [apply swept_refl|]. cbn.
  eapply swept_trans; [apply Hf|apply IH].
Qed.

Lemma swept_sample_key t s key : swept t s (sample_key t s key).
Proof.
  intros k. unfold sample_key. destruct (expires s !! key) as [d|] eqn:E; [|by left].
  destruct (negb (IsZero d) && (d <? t)) eqn:Ed; [|by left].
  rewrite entry_delete, entry_fire. case_decide; [|by left]. subst. right. split; [done|].
  apply live_expired. unfold e_expired. cbn [entry e_expire]. rewrite E.
  apply andb_true_iff in Ed as [Hz Hlt%Z.ltb_lt]. apply negb_true_iff in Hz. rewrite Hz. cbn.
  apply negb_true_iff, Z.ltb_ge. lia.
Qed.

Lemma swept_exists t key s : swept t s (existsLocked t key s).2.
Proof.
  intros k. rewrite exists_entry. case_decide; [|by left]. unfold live.
  destruct (e_expired t (entry s k)); [by right|by left].
Qed.

Lemma swept_tags t order s : swept t s (sweep_tags t order s).
Proof.
  apply swept_fold. intros s' key. pose proof (swept_exists t key s') as H.
  destruct (existsLocked t key s') as [[|] s'']; exact H.
Qed.

Lemma filter_notBefore_none (m : gmap string Z) P `{forall x, Decision (P x)} k :
  m !! k = None -> filter P m !! k = None.
Proof. intros E. apply map_lookup_filter_None. by left. Qed.

Lemma swept_sampleExpired t order tagOrder s :
  (forall k, plain (entry s k)) -> swept t s (sampleExpired t order tagOrder s).
Proof.
  intros Hp. unfold sampleExpired.
  set (s1 := fold_left _ _ s). assert (swept t s s1) as H1 by apply swept_fold, swept_sample_key.
  assert (forall k, notBefore s1 !! k = None) as Hnb.
  { intros k. destruct (H1 k) as [E|[E _]]; apply (f_equal e_notBefore) in E; cbn in E; [|done].
    rewrite E. apply Hp. }
  clearbody s1. eapply swept_trans; [exact H1|]. eapply swept_trans; [|apply swept_tags].
  intros k. left. rewrite entry_set_notBefore, filter_notBefore_none by apply Hnb.
  unfold entry. store_cbn. by rewrite Hnb.
Qed.

Lemma sim_sweep t s K order tagOrder : sim t s K -> sim t (sampleExpired t order tagOrder s) K.
Proof.
  intros [H1 H2 H3]. pose proof (swept_sampleExpired t order tagOrder s H1) as Hsw.
  split; intros k; destruct (Hsw k) as [E|[E L]]; rewrite E; try done.
  by rewrite <-H3, L.
Qed.

Fixpoint end_time (t : Z) (evs : list event) : Z :=
  match evs with [] => t | ev :: evs => end_time (time_of ev) evs end.

Lemma sim_run evs t s K :
  sim t s K -> Sorted Z.le (t :: (time_of <$> evs)) ->
  (run evs s).1 = arun evs K /\ exists K', sim (end_time t evs) (run evs s).2 K'.
Proof.
  revert t s K. induction evs as [|ev evs IH]; intros t s K Hsim Hs.
  { split; [done|]. by exists K. }
  cbn in Hs. apply Sorted_inv in Hs as [Hs Hhd]. apply HdRel_inv in Hhd.
  apply (sim_later _ (time_of ev)) in Hsim; [|done].
  destruct ev as [t1 c|t1 o to_]; cbn [time_of run arun] in *.
  - destruct (sim_exec t1 s K c Hsim) as [Hr Hsim'].
    destruct (exec t1 c s) as [r s']. destruct (spec t1 c (live t1 (K (key_of c)))) as [r' e'].
    cbn [fst snd] in *. destruct (IH _ _ _ Hsim' Hs) as [Ho HK].
    destruct (run evs s') as [rs s'']. cbn [fst snd] in *. split; [by f_equal|done].
  - apply (IH _ _ _ (sim_sweep _ _ _ o to_ Hsim) Hs).
Qed.

Lemma sim_New t : sim t New (fun _ => no_entry).
Proof. split; intros k; [done|apply ok_none|done]. Qed.

(** C2: Lazy expiry refines eager expiry, for the classical types.  From an
    empty store, for any sequence of the 28 commands of [command] (the store
    operations on one key behind SET with NX and XX, GETSET, GETEX, GETDEL,
    APPEND, INCRBY, EXPIRE, EXPIREAT, PERSIST, HSET, HDEL, HINCRBY, HSETNX,
    SADD, SREM, ZADD, ZREM, ZPOPMIN, ZPOPMAX, GET, TYPE, EXISTS, PTTL, STRLEN,
    HGET and HLEN) at non-decreasing times, with background sweeps at any
    moment and in any order, the store answers exactly as an ideal keyspace
    in which a key is gone the instant its deadline passes and a command sees
    only its own key: when an expired key is physically deleted cannot be
    observed.  Documents, series, streams and lists, and commands on several
    keys, are not among them. *)
Theorem lazy_expiry_refines evs t0 :
  Sorted Z.le (t0 :: (time_of <$> evs)) ->
  (run evs New).1 = arun evs (fun _ => no_entry).
Proof. intros Hs. by apply (sim_run evs t0 New _ (sim_New t0)). Qed.

Definition sample_trace : list event :=
  [EvCmd 0 (CSet "k" "5" 10); EvCmd 4 (CIncrBy "k" 2); EvSweep 10 ["k"] []; EvCmd 10 (CGet "k");
   EvCmd 11 (CHSet "k" [("f", "v")]); EvCmd 12 (CAppend "k" "x"); EvCmd 13 (CType "k")].

Lemma lazy_expiry_refines_witness :
  (run sample_trace New).1 = arun sample_trace (fun _ => no_entry) /\
  arun sample_trace (fun _ => no_entry) =
    [RUnit; RResInt (Ok 7); RVal ("", false); RResInt (Ok 1); RResInt (Err "wrong type"); RStr "hash"].
Proof.
  split; [|vm_compute; reflexivity].
  apply (lazy_expiry_refines sample_trace 0). cbn. repeat constructor; lia.
Defined.

(** C6: One type per key, for the classical types.  In every state that a
    sequence of the 28 string, hash, set and sorted set commands of [command]
    and of sweeps, at non-decreasing times, reaches from the empty store, a
    key that has not expired holds at most one type, and never an empty hash,
    set or sorted set.  Commands on documents and series, which SET does not
    clear, are not among them. *)
Theorem reachable_invariant evs t0 k :
  Sorted Z.le (t0 :: (time_of <$> evs)) ->
  let e := live (end_time t0 evs) (entry (run evs New).2 k) in ntypes e <= 1 /\ tidy e.
Proof.
  intros Hs. destruct (sim_run evs t0 New _ (sim_New t0) Hs) as (_ & K & [_ Hok _]).
  split; apply Hok.
Qed.

Lemma reachable_invariant_witness :
  ntypes (live (end_time 0 sample_trace) (entry (run sample_trace New).2 "k")) <= 1.
Proof. refine (proj1 (reachable_invariant sample_trace 0 "k" _)). cbn. repeat constructor; lia. Defined.

(** ** WATCH *)

Definition is_srem (c : command) : bool := match c with CSRem _ _ => true | _ => false end.

(** No version is ahead of the counter. *)
Definition vers_ok (s : Store) : Prop := forall k, kver s k <= version s.

Lemma vers_ok_vstep n s s' : vstep n s s' -> vers_ok s -> vers_ok s' /\ forall k, kver s k <= kver s' k.
Proof.
  intros [Hv Hk] Hok. split; intros k; specialize (Hok k); destruct (Hk k); lia.
Qed.

Lemma marked_wrap {A} now key (op : Store -> A * Store) g :
  marked now key op -> marked now key (fun s => wrap g (op s)).
Proof. intros H s. apply H. Qed.

Lemma marked_read {A} now key (r : Store -> A) : marked now key (fun s => (r s, s)).
Proof. intros s _ _. split; [by left|apply vstep4_refl]. Qed.

Lemma Get_marked now key : marked now key (Get now key).
Proof.
  intros s _ _. split; [left; by rewrite entry_Get|]. unfold Get.
  destruct (isExpiredRLocked now key s); [apply vstep4_refl|].
  destruct (isDelayed now key s); [apply vstep4_refl|].
  destruct (kv s !! key); [|apply vstep4_refl]. cbn [snd].
  destruct (versions_access now [key] s). by apply (vstep_ext 4 s s); [..|apply vstep4_refl].
Qed.

Lemma exec_marked now c : is_srem c = false -> marked now (key_of c) (exec now c).
Proof.
  intros Hc. destruct c; cbn [key_of] in *; try discriminate; cbn [exec].
  - intros s. apply (Set_marked now key value ttl s).
  - apply marked_wrap, SetNX_marked.
  - apply marked_wrap, SetXX_marked.
  - apply marked_wrap, GetSet_marked.
  - apply marked_wrap, GetEx_marked.
  - apply marked_wrap, GetDel_marked.
  - apply marked_wrap, Append_marked.
  - apply marked_wrap, IncrBy_marked.
  - apply marked_wrap, Expire_marked.
  - apply marked_wrap, ExpireAt_marked.
  - apply marked_wrap, Persist_marked.
  - apply marked_wrap, HSet_marked.
  - apply marked_wrap, HDel_marked.
  - apply marked_wrap, HIncrBy_marked.
  - apply marked_wrap, HSetNX_marked.
  - apply marked_wrap, SAdd_marked.
  - apply marked_wrap, ZAdd_marked.
  - apply marked_wrap, ZRem_marked.
  - apply marked_wrap, ZPopMin_marked.
  - apply marked_wrap, ZPopMax_marked.
  - apply marked_wrap, Get_marked.
  - apply (marked_read now key (fun s => RStr (Type_ now key s))).
  - apply (marked_read now key (fun s => RBool (existsRLocked now key s))).
  - apply (marked_read now key (fun s => RInt (PTTL now key s))).
  - apply (marked_read now key (fun s => RResInt (Strlen now key s))).
  - apply (marked_read now key (fun s => RResVal (HGet now key field s))).
  - apply (marked_read now key (fun s => RResInt (HLen now key s))).
Qed.

(** C23: WATCH sees every change that the listed commands make.  Whenever one
    of the 28 string, hash, set and sorted set commands of [command] other
    than SREM, run on a store in which no version is ahead of the counter,
    the counter is not about to overflow and the key of the command holds no
    empty container, changes what is live under a watched key, the versions
    recorded at WATCH no longer match, so EXEC aborts; and none of these
    commands takes a version back, so a later one cannot hide the change.
    FLUSHDB and the loading of a snapshot, which reset the versions, are not
    among them. *)
Theorem watch_detects now c s ks :
  room 4 s -> vers_ok s -> tidy (entry s (key_of c)) ->
  is_srem c = false ->
  let s' := (exec now c s).2 in
  (forall k, k ∈ ks -> live now (entry s' k) <> live now (entry s k) ->
     KeysModifiedSince (KeyVersions ks s) s' = true) /\
  vers_ok s' /\ (forall k, kver s k <= kver s' k).
Proof.
  intros Hr Hok Ht Hc. cbv zeta. destruct (exec_marked now c Hc s Hr Ht) as [Hm Hv].
  split; [|by apply (vers_ok_vstep 4)].
  intros k Hk Hne. apply KeysModified_spec. exists k, (kver s k).
  rewrite KeyVersions_lookup, decide_True by done. split; [done|].
  destruct (decide (k = key_of c)) as [->|Hkk].
  - destruct Hm as [Hm|Hm]; [done|]. specialize (Hok (key_of c)). lia.
  - by rewrite exec_ne in Hne.
Qed.

Lemma watch_detects_witness :
  KeysModifiedSince (KeyVersions ["k"] New) (exec 1 (CSet "k" "v" 0) New).2 = true.
Proof.
  assert (room 4 New) as Hr by (split; vm_compute; [discriminate|reflexivity]).
  assert (vers_ok New) as Hok by (intros k; vm_compute; discriminate).
  destruct (watch_detects 1 (CSet "k" "v" 0) New ["k"] Hr Hok) as (H & _);
    [repeat split; done|done|].
  apply (H "k"); [left|]. vm_compute. discriminate.
Defined.

End Keyspace.
