(* ===== verification/StoreLists.v ===== *)
(** * List commands and blocked list clients of internal/store/store.go

    LPUSH, RPUSH, LPOP, RPOP, LMOVE, LRANGE, LLEN, LINDEX, LSET, LINSERT,
    LPOS, LREM over the ring buffers of Deque.v, and BLPOP/BRPOP: a client
    that finds its lists empty leaves a waiter under each key; a push serves
    the waiters of its key in order.  One waiter is shared by all its keys,
    so waiters are identifiers into [listWaiterHeap], and the [sync.Once] of a
    waiter is its [lw_result] being set only once.  The two halves of BPop
    (before and after blocking) are separate operations, so that interleavings
    are sequences of operations. *)
From S2P Require Import Prelude Ranges Deque GoLib Store StoreStrings.
Import Store Strings.

Module Lists.

Definition not_list (key : string) (s : Store) : bool :=
  has (hashes s) key || has (sets s) key || has (zsets s) key || has (streams s) key
  || has (hlls s) key || has (jsons s) key || has (timeseries s) key.

Definition list_conflict (now : Z) (key : string) (s : Store) : bool * Store :=
  let '(str, s) := existsStringLocked now key s in (str || not_list key s, s).

Definition list_conflictR (now : Z) (key : string) (s : Store) : bool :=
  existsStringRLocked now key s || not_list key s.

(** The deque after a pop: removed with its deadline when empty. *)
Definition put_list (key : string) (d : Deque.Deque) (s : Store) : Store :=
  if Deque.Len d =? 0 then s <| lists ::= delete key |> <| expires ::= delete key |>
  else s <| lists ::= <[key := d]> |>.

Definition pop_end (left : bool) (d : Deque.Deque) : (string * bool) * Deque.Deque :=
  if left then Deque.PopFront d else Deque.PopBack d.

Definition push_end (left : bool) (values : list string) (d : Deque.Deque) : Deque.Deque :=
  if left then Deque.PushFront values d else Deque.PushBack values d.

(** ** Waking blocked clients *)

(** [w.once.Do(func() { w.ch <- ...; close(w.ch) })] *)
Definition deliver (w : nat) (key val : string) (s : Store) : Store :=
  s <| listWaiterHeap ::= alter (fun lw =>
         match lw_result lw with
         | None => mkLW (lw_left lw) (Some (key, val))
         | Some _ => lw
         end) w |>.

(** [s.listWaits[key] = ws], the entry being removed when it empties *)
Definition put_waits (key : string) (ws : list nat) (s : Store) : Store :=
  match ws with
  | [] => s <| listWaits ::= delete key |>
  | _ => s <| listWaits ::= <[key := ws]> |>
  end.

Definition waiter_left (w : nat) (s : Store) : bool :=
  match listWaiterHeap s !! w with Some lw => lw_left lw | None => false end.

Fixpoint wake_loop (key : string) (ws : list nat) (s : Store) : Store :=
  match ws with
  | [] => s
  | w :: ws =>
      match lists s !! key with
      | None => s
      | Some d =>
          if Deque.Len d =? 0 then s
          else
            let s := put_waits key ws s in
            let '((val, _), d) := pop_end (waiter_left w s) d in
            wake_loop key ws (deliver w key val (put_list key d s))
      end
  end.

Definition wakeListWaitersLocked (key : string) (s : Store) : Store :=
  wake_loop key (default [] (listWaits s !! key)) s.

(** ** Pushes and pops *)

Definition pushList (now : Z) (key : string) (left : bool) (values : list string) (s : Store)
    : result Z * Store :=
  if zlen values =? 0 then (Err "wrong number of list values", s)
  else
    let '(_, s) := expiredKeyLocked now key s in
    let '(conflict, s) := list_conflict now key s in
    if conflict then (Err wrongType, s)
    else
      let d := push_end left values (default Deque.empty (lists s !! key)) in
      let s := touchKeyLocked now [key] (s <| lists ::= <[key := d]> |>) in
      let s := wakeListWaitersLocked key s in
      (Ok match lists s !! key with Some d => Deque.Len d | None => 0 end, s).

Definition LPush (now : Z) (key : string) (values : list string) (s : Store) : result Z * Store :=
  pushList now key true values s.

Definition RPush (now : Z) (key : string) (values : list string) (s : Store) : result Z * Store :=
  pushList now key false values s.

Definition popList (now : Z) (key : string) (left : bool) (s : Store) : result (string * bool) * Store :=
  let '(expired, s) := expiredKeyLocked now key s in
  if expired then (Ok ("", false), s)
  else
    let '(conflict, s) := list_conflict now key s in
    if conflict then (Err wrongType, s)
    else
      match lists s !! key with
      | None => (Ok ("", false), s)
      | Some d =>
          if Deque.Len d =? 0 then (Ok ("", false), s)
          else
            let '((value, ok), d) := pop_end left d in
            if negb ok then (Ok ("", false), s)
            else (Ok (value, true), touchKeyLocked now [key] (put_list key d s))
      end.

Definition LPop (now : Z) (key : string) (s : Store) : result (string * bool) * Store :=
  popList now key true s.

Definition RPop (now : Z) (key : string) (s : Store) : result (string * bool) * Store :=
  popList now key false s.

(** The type check of LMOVE leaves out JSON documents and time series. *)
Definition lmove_conflict (now : Z) (key : string) (s : Store) : bool * Store :=
  let '(str, s) := existsStringLocked now key s in
  (str || has (hashes s) key || has (sets s) key || has (zsets s) key || has (streams s) key
   || has (hlls s) key, s).

Definition LMove (now : Z) (src dst : string) (srcLeft dstLeft : bool) (s : Store)
    : result (string * bool) * Store :=
  let '(_, s) := expiredKeyLocked now src s in
  let '(conflict, s) := lmove_conflict now src s in
  if conflict then (Err wrongType, s)
  else
    match lists s !! src with
    | None => (Ok ("", false), s)
    | Some srcD =>
        if Deque.Len srcD =? 0 then (Ok ("", false), s)
        else
          let '(conflict, s) :=
            if String.eqb src dst then (false, s)
            else let '(_, s) := expiredKeyLocked now dst s in lmove_conflict now dst s in
          if conflict then (Err wrongType, s)
          else
            let '((val, _), srcD) := pop_end srcLeft srcD in
            let s := put_list src srcD s in
            let d := push_end dstLeft [val] (default Deque.empty (lists s !! dst)) in
            let s := s <| lists ::= <[dst := d]> |> in
            let s := touchKeyLocked now [src; dst] s in
            (Ok (val, true), wakeListWaitersLocked dst s)
    end.

(** ** Other list commands *)

Definition list_read {A} (now : Z) (key : string) (s : Store) (dflt : A) (k : Deque.Deque -> A) : result A :=
  if isExpiredRLocked now key s then Ok dflt
  else if list_conflictR now key s then Err wrongType
  else
    match lists s !! key with
    | None => Ok dflt
    | Some d => if Deque.Len d =? 0 then Ok dflt else Ok (k d)
    end.

Definition LRange (now : Z) (key : string) (start stop : Z) (s : Store) : result (list string) :=
  list_read now key s [] (Deque.Range start stop).

Definition LLen (now : Z) (key : string) (s : Store) : result Z :=
  if isExpiredRLocked now key s then Ok 0
  else if list_conflictR now key s then Err wrongType
  else match lists s !! key with None => Ok 0 | Some d => Ok (Deque.Len d) end.

Definition LIndex (now : Z) (key : string) (index : Z) (s : Store) : result (string * bool) :=
  list_read now key s ("", false) (fun d =>
    let index := if index <? 0 then Deque.Len d + index else index in
    if (index <? 0) || (index >=? Deque.Len d) then ("", false) else (Deque.Get d index, true)).

(** [for i := 0; i < d.Len(); i++ { if d.Get(i) == x { ...; break } }] *)
Definition find_index (x : string) (d : Deque.Deque) : option Z :=
  List.find (fun i => String.eqb (Deque.Get d i) x) (seqZ 0 (Deque.Len d)).

Definition LPos (now : Z) (key element : string) (s : Store) : result (Z * bool) :=
  list_read now key s (0, false) (fun d =>
    match find_index element d with Some i => (i, true) | None => (0, false) end).

Definition LSet (now : Z) (key : string) (index : Z) (value : string) (s : Store) : result unit * Store :=
  let '(expired, s) := expiredKeyLocked now key s in
  if expired then (Err "no such key", s)
  else
    let '(conflict, s) := list_conflict now key s in
    if conflict then (Err wrongType, s)
    else
      match lists s !! key with
      | None => (Err "no such key", s)
      | Some d =>
          if Deque.Len d =? 0 then (Err "no such key", s)
          else
            let index := if index <? 0 then Deque.Len d + index else index in
            if (index <? 0) || (index >=? Deque.Len d) then (Err "index out of range", s)
            else (Ok tt, touchKeyLocked now [key] (s <| lists ::= <[key := Deque.Set_ index value d]> |>))
      end.

Definition LInsert (now : Z) (key : string) (before : bool) (pivot value : string) (s : Store)
    : result Z * Store :=
  let '(expired, s) := expiredKeyLocked now key s in
  if expired then (Ok 0, s)
  else
    let '(conflict, s) := list_conflict now key s in
    if conflict then (Err wrongType, s)
    else
      match lists s !! key with
      | None => (Ok 0, s)
      | Some d =>
          if Deque.Len d =? 0 then (Ok 0, s)
          else
            match find_index pivot d with
            | None => (Ok (-1), s)
            | Some idx =>
                let d := Deque.Insert (if before then idx else idx + 1) value d in
                (Ok (Deque.Len d), touchKeyLocked now [key] (s <| lists ::= <[key := d]> |>))
            end
      end.

(** The three loops of LREM: from the head, from the tail, all. *)
Fixpoint lrem_front (count : Z) (element : string) (items : list string) (removed : Z) : list string * Z :=
  match items with
  | [] => ([], removed)
  | x :: items =>
      if String.eqb x element && (removed <? count) then lrem_front count element items (removed + 1)
      else let '(kept, r) := lrem_front count element items removed in (x :: kept, r)
  end.

(** The indices chosen from the tail. *)
Definition lrem_pick (absCount : Z) (element : string) (items : list string) : list Z * Z :=
  fold_left (fun st i =>
    let '(removeIdx, removed) := st in
    if (removed <? absCount) && String.eqb (zget items i) element
    then (i :: removeIdx, removed + 1) else (removeIdx, removed))
    (reverse (seqZ 0 (zlen items))) ([], 0).

Definition lrem_items (count : Z) (element : string) (items : list string) : list string * Z :=
  if count >? 0 then lrem_front count element items 0
  else if count <? 0 then
    let '(removeIdx, removed) := lrem_pick (wrap64 (- count)) element items in
    (omap (fun i => if decide (i ∈ removeIdx) then None else Some (zget items i)) (seqZ 0 (zlen items)),
     removed)
  else
    let kept := filter (fun x => x <> element) items in (kept, zlen items - zlen kept).

Definition LRem (now : Z) (key : string) (count : Z) (element : string) (s : Store) : result Z * Store :=
  let '(expired, s) := expiredKeyLocked now key s in
  if expired then (Ok 0, s)
  else
    let '(conflict, s) := list_conflict now key s in
    if conflict then (Err wrongType, s)
    else
      match lists s !! key with
      | None => (Ok 0, s)
      | Some d =>
          if Deque.Len d =? 0 then (Ok 0, s)
          else
            let '(kept, removed) := lrem_items count element (Deque.ToSlice d) in
            let s := if zlen kept =? 0 then s <| lists ::= delete key |> <| expires ::= delete key |>
                     else s <| lists ::= <[key := Deque.PushBack kept Deque.empty]> |> in
            (Ok removed, if removed >? 0 then touchKeyLocked now [key] s else s)
      end.

(** ** BLPOP and BRPOP *)

Fixpoint bpop_try (now : Z) (keys : list string) (left : bool) (s : Store) : option (string * string) * Store :=
  match keys with
  | [] => (None, s)
  | key :: keys =>
      let '(expired, s) := expiredKeyLocked now key s in
      if expired then bpop_try now keys left s
      else
        match lists s !! key with
        | Some d =>
            if Deque.Len d >? 0 then
              let '((val, _), d) := pop_end left d in
              (Some (key, val), touchKeyLocked now [key] (put_list key d s))
            else bpop_try now keys left s
        | None => bpop_try now keys left s
        end
  end.

(** The first critical section: an answer, or the new waiter. *)
Definition BPop_start (now : Z) (keys : list string) (left : bool) (s : Store)
    : (string * string + nat) * Store :=
  match bpop_try now keys left s with
  | (Some r, s) => (inl r, s)
  | (None, s) =>
      let w := nextWaiter s in
      let s := s <| listWaiterHeap ::= <[w := mkLW left None]> |> <| nextWaiter ::= S |> in
      let s := fold_left (fun s key =>
                 s <| listWaits ::= fun m => <[key := default [] (m !! key) ++ [w]]> m |>) keys s in
      (inr w, s)
  end.

Definition removeListWaiter (keys : list string) (target : nat) (s : Store) : Store :=
  fold_left (fun s key =>
    put_waits key (filter (fun w => w <> target) (default [] (listWaits s !! key))) s) keys s.

(** [case result := <-w.ch]: possible once the waiter has been served. *)
Definition BPop_wake (keys : list string) (w : nat) (s : Store) : option ((string * string) * Store) :=
  match listWaiterHeap s !! w with
  | Some lw => match lw_result lw with
               | Some r => Some (r, removeListWaiter keys w s)
               | None => None
               end
  | None => None
  end.

(** [case <-time.After(timeout)]: the timer may be chosen even when a value
    has been sent meanwhile; the value is then never read. *)
Definition BPop_timeout (keys : list string) (w : nat) (s : Store) : Store := removeListWaiter keys w s.

(** ** FLUSHDB *)

Definition FlushDB (s : Store) : Store :=
  New <| version := wrapu64 (version s + 1) |> <| onChange := onChange s |>
      <| onChangeQueue := onChangeQueue s |> <| maxMemory := maxMemory s |>
      <| evictPolicy := evictPolicy s |> <| waiterHeap := waiterHeap s |>
      <| listWaiterHeap := listWaiterHeap s |> <| nextWaiter := nextWaiter s |>
      <| queueSeq := queueSeq s |>.

(** ** Serving blocked clients *)

(** The elements under a key, and what a waiter has received. *)
Definition contents (s : Store) (key : string) : list string :=
  match lists s !! key with Some d => Deque.ToSlice d | None => [] end.

Definition wf_list (s : Store) (key : string) : Prop :=
  forall d, lists s !! key = Some d -> Deque.wf d.

Definition served (s : Store) (w : nat) : option (string * string) :=
  listWaiterHeap s !! w ≫= lw_result.

Definition waiting (s : Store) (w : nat) : Prop :=
  exists lw, listWaiterHeap s !! w = Some lw /\ lw_result lw = None.

Lemma lists_put_waits key ws s : lists (put_waits key ws s) = lists s.
Proof. by destruct ws. Qed.

Lemma heap_put_waits key ws s : listWaiterHeap (put_waits key ws s) = listWaiterHeap s.
Proof. by destruct ws. Qed.

Lemma heap_put_list key d s : listWaiterHeap (put_list key d s) = listWaiterHeap s.
Proof. unfold put_list. by case_match. Qed.

Lemma lists_put_list key d s :
  lists (put_list key d s) !! key = if Deque.Len d =? 0 then None else Some d.
Proof.
  unfold put_list. case_match; store_cbn; [apply lookup_delete_eq|apply lookup_insert_eq].
Qed.

Lemma pop_end_spec left d :
  Deque.wf d -> Deque.Len d <> 0 ->
  exists v d', pop_end left d = ((v, true), d') /\ Deque.wf d' /\
    (if left then Deque.ToSlice d = v :: Deque.ToSlice d' else Deque.ToSlice d = Deque.ToSlice d' ++ [v]).
Proof.
  intros Hwf Hlen. pose proof (Deque.zlen_ToSlice d Hwf) as Hz. unfold Deque.Len in Hlen.
  assert (Deque.ToSlice d <> []) as Hne by (intros E; rewrite E in Hz; done).
  unfold pop_end. destruct left.
  - destruct (Deque.PopFront_spec d Hwf) as [Hw H]. destruct (Deque.ToSlice d) as [|x l]; [done|].
    destruct (Deque.PopFront d) as [[v b] d']. cbn in *. destruct H as [[= -> ->] <-]. eauto.
  - destruct (Deque.PopBack_spec d Hwf) as [Hw H].
    destruct (last (Deque.ToSlice d)) as [x|] eqn:El; [|by apply last_None in El].
    destruct (Deque.PopBack d) as [[v b] d']. cbn in *. destruct H as [[= -> ->] ->]. eauto.
Qed.

Lemma served_deliver w key v s w' :
  waiting s w -> served (deliver w key v s) w' = if decide (w' = w) then Some (key, v) else served s w'.
Proof.
  intros (lw & Hw & Hn). unfold served, deliver. store_cbn. case_decide; subst.
  - rewrite lookup_alter_eq, Hw. cbn. by rewrite Hn.
  - by rewrite lookup_alter_ne.
Qed.

Lemma waiting_deliver w key v s w' : w' <> w -> waiting s w' -> waiting (deliver w key v s) w'.
Proof. intros Hne (lw & Hw & Hn). exists lw. unfold deliver. store_cbn. by rewrite lookup_alter_ne. Qed.

(** One served waiter: the state handed to the rest of the loop. *)
Lemma wake_once key w ws s d :
  lists s !! key = Some d -> Deque.wf d -> Deque.Len d <> 0 ->
  NoDup (w :: ws) -> (forall x, x ∈ w :: ws -> waiting s x) ->
  exists v s1, wake_loop key (w :: ws) s = wake_loop key ws s1 /\
    wf_list s1 key /\ contents s key ≡ₚ v :: contents s1 key /\
    (waiter_left w s = true -> contents s key = v :: contents s1 key) /\
    (forall x, x ∈ ws -> waiting s1 x) /\
    (forall x, served s1 x = if decide (x = w) then Some (key, v) else served s x) /\
    (forall x, waiter_left x s1 = waiter_left x s).
Proof.
  intros Hd Hwf Hlen Hnd Hwait. cbn [wake_loop]. rewrite Hd, (proj2 (Z.eqb_neq _ _) Hlen).
  destruct (pop_end_spec (waiter_left w (put_waits key ws s)) d Hwf Hlen) as (v & d' & -> & Hwf' & Hpop).
  set (s1 := deliver w key v (put_list key d' (put_waits key ws s))). exists v, s1. split; [done|].
  assert (waiting (put_list key d' (put_waits key ws s)) w) as Hw.
  { destruct (Hwait w) as (lw & ? & ?); [left|]. exists lw. by rewrite heap_put_list, heap_put_waits. }
  assert (lists s1 !! key = if Deque.Len d' =? 0 then None else Some d') as Hl1 by apply lists_put_list.
  assert (contents s1 key = Deque.ToSlice d') as Hc1.
  { unfold contents. rewrite Hl1. destruct (Z.eqb_spec (Deque.Len d') 0) as [E|E]; [|done].
    pose proof (Deque.zlen_ToSlice d' Hwf') as Hz. unfold Deque.Len in E. rewrite E in Hz.
    destruct (Deque.ToSlice d'); [done|zlen_lia]. }
  assert (contents s key = Deque.ToSlice d) as Hc by (unfold contents; by rewrite Hd).
  assert (forall x, waiter_left x (put_waits key ws s) = waiter_left x s) as Hwl
    by (intros x; unfold waiter_left; by rewrite heap_put_waits).
  split; [|split; [|split; [|split; [|split]]]].
  - intros d0. rewrite Hl1. case_match; congruence.
  - rewrite Hc, Hc1. destruct (waiter_left w (put_waits key ws s)); rewrite Hpop; [done|].
    by rewrite (comm (++)).
  - rewrite Hc, Hc1, <-Hwl. intros Hleft. by rewrite Hleft in Hpop.
  - intros x Hx. apply waiting_deliver; [intros ->; by apply NoDup_cons in Hnd as [? _]|].
    destruct (Hwait x) as (lw & ? & ?); [by right|]. exists lw. by rewrite heap_put_list, heap_put_waits.
  - intros x. unfold s1. rewrite (served_deliver w key v _ x Hw). case_decide; [done|]. unfold served.
    by rewrite heap_put_list, heap_put_waits.
  - intros x. unfold waiter_left, s1, deliver. store_cbn. rewrite heap_put_list, heap_put_waits.
    destruct (decide (x = w)) as [->|]; [|by rewrite lookup_alter_ne].
    rewrite lookup_alter_eq. destruct (listWaiterHeap s !! w) as [lw|]; [|done]. cbn. by destruct (lw_result lw).
Qed.

Lemma wake_loop_spec key ws s :
  wf_list s key -> NoDup ws -> (forall w, w ∈ ws -> waiting s w) ->
  exists got, length got = Nat.min (length ws) (length (contents s key)) /\
    contents s key ≡ₚ got ++ contents (wake_loop key ws s) key /\
    (forall i w v, ws !! i = Some w -> got !! i = Some v -> served (wake_loop key ws s) w = Some (key, v)) /\
    (forall w, w ∉ take (length got) ws -> served (wake_loop key ws s) w = served s w) /\
    ((forall w, w ∈ ws -> waiter_left w s = true) -> contents s key = got ++ contents (wake_loop key ws s) key).
Proof.
  revert s. induction ws as [|w ws IH]; intros s Hwf Hnd Hwait.
  { exists []. cbn. repeat split; try done. }
  destruct (lists s !! key) as [d|] eqn:Hd.
  2:{ exists []. cbn [wake_loop]. unfold contents. rewrite Hd. cbn. repeat split; try done; by rewrite Hd. }
  specialize (Hwf d Hd) as Hwfd. destruct (decide (Deque.Len d = 0)) as [Hlen|Hlen].
  { assert (contents s key = []) as Hc.
    { unfold contents. rewrite Hd. pose proof (Deque.zlen_ToSlice d Hwfd) as Hz.
      unfold Deque.Len in Hlen. rewrite Hlen in Hz. destruct (Deque.ToSlice d); [done|zlen_lia]. }
    exists []. cbn [wake_loop]. rewrite Hd, (proj2 (Z.eqb_eq _ _) Hlen), Hc. cbn. repeat split; done. }
  destruct (wake_once key w ws s d Hd Hwfd Hlen Hnd Hwait) as (v & s1 & -> & Hwf1 & Hp1 & Hl1 & Hw1 & Hs1 & Hleft1).
  apply NoDup_cons in Hnd as [Hnin Hnd].
  destruct (IH s1 Hwf1 Hnd Hw1) as (got & Hlg & Hp & Hserved & Hother & Hfifo).
  exists (v :: got). split; [|split; [|split; [|split]]].
  - cbn. rewrite Hp1. cbn. by rewrite Hlg.
  - by rewrite Hp1, Hp.
  - intros [|i] x y; cbn; [|apply Hserved]. intros [= <-] [= <-].
    rewrite Hother, Hs1, decide_True; [done|done|]. intros Hin. by apply elem_of_take_1 in Hin.
  - intros x Hx. cbn in Hx. apply not_elem_of_cons in Hx as [Hxw Hx]. rewrite Hother, Hs1, decide_False by done. done.
  - intros Hall. rewrite (Hl1 (Hall w ltac:(left))). cbn. f_equal. apply Hfifo.
    intros x Hx. rewrite Hleft1. apply Hall. by right.
Qed.

Lemma wake_loop_wf key ws s :
  wf_list s key -> NoDup ws -> (forall w, w ∈ ws -> waiting s w) -> wf_list (wake_loop key ws s) key.
Proof.
  revert s. induction ws as [|w ws IH]; intros s Hwf Hnd Hwait; [done|].
  destruct (lists s !! key) as [d|] eqn:Hd; [|cbn [wake_loop]; by rewrite Hd].
  specialize (Hwf d Hd) as Hwfd. destruct (decide (Deque.Len d = 0)) as [Hlen|Hlen].
  { cbn [wake_loop]. by rewrite Hd, (proj2 (Z.eqb_eq _ _) Hlen). }
  destruct (wake_once key w ws s d Hd Hwfd Hlen Hnd Hwait) as (v & s1 & -> & Hwf1 & _ & _ & Hw1 & _).
  apply NoDup_cons in Hnd as [_ Hnd]. by apply IH.
Qed.

(** The length the push answers with. *)
Lemma list_len s key : wf_list s key -> match lists s !! key with Some d => Deque.Len d | None => 0 end = zlen (contents s key).
Proof.
  intros Hwf. unfold contents. destruct (lists s !! key) as [d|] eqn:E; [|done]. by rewrite (Deque.zlen_ToSlice d (Hwf d E)).
Qed.

Definition e_not_list (e : Entry) : bool :=
  is_some (e_hash e) || is_some (e_set e) || is_some (e_zset e) || is_some (e_stream e)
  || is_some (e_hll e) || is_some (e_json e) || is_some (e_ts e).

(** The key holds a list or nothing, and is not expired. *)
Definition list_key (now : Z) (key : string) (s : Store) : Prop :=
  e_expired now (entry s key) = false /\ kv s !! key = None /\ e_not_list (entry s key) = false.

Lemma list_guard now key s :
  list_key now key s -> expiredKeyLocked now key s = (false, s) /\ list_conflict now key s = (false, s).
Proof.
  intros (Hx & Hkv & Hn). split; [by apply expiredKey_false|].
  unfold list_conflict. rewrite existsString_live by done. cbn [entry e_kv]. rewrite Hkv. cbn [is_some orb].
  f_equal. exact Hn.
Qed.

Lemma push_end_spec left values d :
  Deque.wf d ->
  Deque.wf (push_end left values d) /\
  Deque.ToSlice (push_end left values d) =
    if left then reverse values ++ Deque.ToSlice d else Deque.ToSlice d ++ values.
Proof. destruct left; [apply Deque.PushFront_spec|apply Deque.PushBack_spec]. Qed.

Lemma lists_touch now keys s : lists (touchKeyLocked now keys s) = lists s.
Proof. by destruct (touch_shape now keys s) as (v & kvs & q & acc & ->). Qed.

Lemma listWaits_touch now keys s : listWaits (touchKeyLocked now keys s) = listWaits s.
Proof. by destruct (touch_shape now keys s) as (v & kvs & q & acc & ->). Qed.

Lemma heap_touch now keys s : listWaiterHeap (touchKeyLocked now keys s) = listWaiterHeap s.
Proof. by destruct (touch_shape now keys s) as (v & kvs & q & acc & ->). Qed.

(** C39: A push serves blocked clients and loses nothing.  If the clients
    waiting on the key are distinct and not yet served, LPUSH/RPUSH hands one
    element to each of the first clients while elements last, in the order
    they arrived; what they received together with what stays in the list is
    exactly the old list with the new values, for clients of BLPOP it is its
    first elements in order, and the reply is the length that remains. *)
Theorem push_serves_waiters now key left values s :
  list_key now key s -> wf_list s key -> values <> [] ->
  let ws := default [] (listWaits s !! key) in
  NoDup ws -> (forall w, w ∈ ws -> waiting s w) ->
  let s' := (pushList now key left values s).2 in
  (pushList now key left values s).1 = Ok (zlen (contents s' key)) /\
  let l := if left then reverse values ++ contents s key else contents s key ++ values in
  exists got, length got = Nat.min (length ws) (length l) /\
    l ≡ₚ got ++ contents s' key /\
    (forall i w v, ws !! i = Some w -> got !! i = Some v -> served s' w = Some (key, v)) /\
    (forall w, w ∉ take (length got) ws -> served s' w = served s w) /\
    ((forall w, w ∈ ws -> waiter_left w s = true) -> l = got ++ contents s' key).
Proof.
  intros Hkey Hwf Hv. cbv zeta. intros Hnd Hwait. unfold pushList.
  destruct (list_guard now key s Hkey) as [E1 E2]. rewrite E1, E2.
  assert ((zlen values =? 0) = false) as -> by (destruct values; [done|]; apply Z.eqb_neq; zlen_lia).
  cbn [fst snd]. set (d := push_end left values (default Deque.empty (lists s !! key))).
  set (s1 := touchKeyLocked now [key] (s <| lists ::= <[key := d]> |>)).
  assert (Deque.wf (default Deque.empty (lists s !! key))) as Hwf0.
  { destruct (lists s !! key) as [d0|] eqn:E; [by apply Hwf|apply Deque.empty_wf]. }
  destruct (push_end_spec left values _ Hwf0) as [Hwfd Hd]. fold d in Hwfd, Hd.
  assert (lists s1 !! key = Some d) as Hl1 by (unfold s1; rewrite lists_touch; store_cbn; apply lookup_insert_eq).
  assert (listWaiterHeap s1 = listWaiterHeap s) as Hh1 by (unfold s1; by rewrite heap_touch).
  assert (listWaits s1 = listWaits s) as Hw1 by (unfold s1; by rewrite listWaits_touch).
  assert (contents s1 key = if left then reverse values ++ contents s key else contents s key ++ values) as Hc1.
  { unfold contents. rewrite Hl1, Hd. destruct (lists s !! key); done. }
  assert (wf_list s1 key) as Hwf1 by (intros d0; rewrite Hl1; by intros [= <-]).
  assert (forall w, w ∈ default [] (listWaits s !! key) -> waiting s1 w) as Hwait1.
  { intros w Hw. unfold waiting. rewrite Hh1. by apply Hwait. }
  unfold wakeListWaitersLocked. rewrite Hw1. clearbody s1. split.
  { by rewrite (list_len _ key (wake_loop_wf key _ s1 Hwf1 Hnd Hwait1)). }
  destruct (wake_loop_spec key (default [] (listWaits s !! key)) s1 Hwf1 Hnd Hwait1) as (got & H1 & H2 & H3 & H4 & H5).
  - rewrite Hc1 in H1, H2, H5. exists got. split; [done|]. split; [done|]. split; [done|]. split.
    + intros w Hw. rewrite H4 by done. unfold served. by rewrite Hh1.
    + intros Hall. apply H5. intros w Hw. unfold waiter_left. rewrite Hh1. by apply Hall.
Qed.

Definition blocked_on (keys : list string) : Store := (BPop_start 0 keys true New).2.

Lemma push_serves_waiters_witness :
  let s' := (pushList 1 "a" false ["x"; "y"] (blocked_on ["a"])).2 in
  (pushList 1 "a" false ["x"; "y"] (blocked_on ["a"])).1 = Ok (zlen (contents s' "a")) /\
  exists got, length got = 1%nat /\ ["x"; "y"] ≡ₚ got ++ contents s' "a".
Proof.
  cbv zeta.
  destruct (push_serves_waiters 1 "a" false ["x"; "y"] (blocked_on ["a"])) as (H0 & got & H1 & H2 & _).
  - repeat split; vm_compute; reflexivity.
  - intros d. vm_compute. discriminate.
  - discriminate.
  - vm_compute. repeat constructor. by intros ?%not_elem_of_nil.
  - intros w Hw. assert (w = 0%nat) as ->.
    { vm_compute in Hw. by apply list_elem_of_singleton in Hw. }
    exists (mkLW true None). split; vm_compute; reflexivity.
  - split; [exact H0|]. exists got. split; [exact H1|exact H2].
Defined.

(** A client blocked on several keys loses elements.  It stays
    registered under its other keys until it wakes up; a push to one of them
    in between pops an element for it, which its [sync.Once] then discards:
    "y" was pushed to "b" and is neither in the list nor delivered. *)
Theorem bpop_multi_key_loses :
  let s1 := (pushList 1 "a" false ["x"] (blocked_on ["a"; "b"])).2 in
  let r2 := pushList 2 "b" false ["y"] s1 in
  r2.1 = Ok 0 /\ contents r2.2 "b" = [] /\
  (forall w, served r2.2 w = if decide (w = 0%nat) then Some ("a", "x") else None).
Proof.
  cbv zeta. split; [vm_compute; reflexivity|]. split; [vm_compute; reflexivity|].
  intros w. case_decide; subst; [vm_compute; reflexivity|].
  assert (listWaiterHeap (pushList 2 "b" false ["y"]
            (pushList 1 "a" false ["x"] (blocked_on ["a"; "b"])).2).2 =
          {[0%nat := mkLW true (Some ("a", "x"))]}) as E by (vm_compute; reflexivity).
  unfold served. by rewrite E, lookup_singleton_ne.
Qed.

(** A timeout can lose an element.  When the timer of BLPOP fires and a
    push serves the waiter before it is unregistered, the client answers nil
    and nobody ever reads the element that was popped for it. *)
Theorem bpop_timeout_loses :
  let s1 := (pushList 1 "a" false ["x"] (blocked_on ["a"])).2 in
  let s2 := BPop_timeout ["a"] 0 s1 in
  contents s2 "a" = [] /\ default [] (listWaits s2 !! "a") = [] /\ served s2 0 = Some ("a", "x").
Proof. vm_compute. repeat split; reflexivity. Qed.

End Lists.
