(* ===== verification/StoreQueue.v ===== *)
(** * Message queues of internal/store/queue.go

    ENQUEUE, DEQUEUE, QACK, QNACK, QPEEK, QLEN, QINFO and QDEAD: a queue
    holds pending messages, messages handed to a worker and awaiting its
    acknowledgement, and dead letters.  [Dequeue] that blocks is two critical
    sections, so it is two operations here ([Dequeue_start], [Dequeue_retry]);
    a blocked worker is an identifier in [queueWaits], its channel a flag of
    [waiterHeap].  The order in which Go visits the map [Processing] is the
    argument [order].  The package counter [queueSeq] is a field of the state. *)
From S2P Require Import Prelude GoLib Store.
Import Store.

Module Queues.

Definition NewQueue : Queue := mkQueue [] ∅ [] (5 * 60 * 10 ^ 9) 3.

(** [fmt.Sprintf("%d-%d", time.Now().UnixMilli(), seq)] *)
Definition message_id (ms seq : Z) : string := String.append (FormatInt ms) (String "-" (format_uint seq)).

Definition nextQueueID (now : Z) (s : Store) : string * Store :=
  let s := s <| queueSeq ::= fun n => wrapu64 (n + 1) |> in
  (message_id (UnixMilli now) (queueSeq s), s).

Definition put_queue (name : string) (q : Queue) (s : Store) : Store :=
  s <| queues ::= <[name := q]> |>.

(** [w.once.Do(func() { close(w.ch) })] on the first blocked worker *)
Definition wake_first (name : string) (s : Store) : Store :=
  match queueWaits s !! name with
  | Some (w :: ws) =>
      let s := match ws with
               | [] => s <| queueWaits ::= delete name |>
               | _ => s <| queueWaits ::= <[name := ws]> |>
               end in
      s <| waiterHeap ::= <[w := true]> |>
  | _ => s
  end.

Definition Enqueue (now : Z) (name body : string) (delay : Z) (s : Store) : string * Store :=
  let q := default NewQueue (queues s !! name) in
  let '(id, s) := nextQueueID now s in
  let created := if delay >? 0 then now + delay else now in
  let msg := mkMsg id body created 0 (MaxRetries q) zeroTime in
  let q := mkQueue (QPending q ++ [msg]) (Processing q) (DeadLetter q) (AckTimeout q) (MaxRetries q) in
  (id, wake_first name (touchKeyLocked now [name] (put_queue name q s))).

(** A message that was not acknowledged: retried, or dead-lettered once its
    retries are used up. *)
Definition give_back (now : Z) (id : string) (msg : QueueMessage) (q : Queue) : Queue :=
  let processing := delete id (Processing q) in
  let retries := Retries msg + 1 in
  if retries >=? MaxRetry msg
  then mkQueue (QPending q) processing
         (DeadLetter q ++ [mkMsg (MsgID msg) (Body msg) (CreatedAt msg) retries (MaxRetry msg) (AckDeadline msg)])
         (AckTimeout q) (MaxRetries q)
  else mkQueue (QPending q ++ [mkMsg (MsgID msg) (Body msg) now retries (MaxRetry msg) (AckDeadline msg)])
         processing (DeadLetter q) (AckTimeout q) (MaxRetries q).

(** One iteration of [for id, msg := range q.Processing]. *)
Definition requeue_one (now : Z) (q : Queue) (id : string) : Queue :=
  match Processing q !! id with
  | None => q
  | Some msg => if AckDeadline msg <? now then give_back now id msg q else q
  end.

Definition requeueExpiredLocked (now : Z) (order : list string) (name : string) (s : Store) : Store :=
  match queues s !! name with
  | None => s
  | Some q => put_queue name (fold_left (requeue_one now) order q) s
  end.

(** The first pending message whose delay has passed, and the others. *)
Fixpoint take_ready (now : Z) (l : list QueueMessage) : option (QueueMessage * list QueueMessage) :=
  match l with
  | [] => None
  | msg :: l =>
      if now <? CreatedAt msg
      then match take_ready now l with Some (m, l) => Some (m, msg :: l) | None => None end
      else Some (msg, l)
  end.

(** [msg.AckDeadline = now.Add(q.AckTimeout); q.Processing[msg.ID] = msg] *)
Definition hand_out (now : Z) (msg : QueueMessage) (rest : list QueueMessage) (q : Queue) : QueueMessage * Queue :=
  let msg := mkMsg (MsgID msg) (Body msg) (CreatedAt msg) (Retries msg) (MaxRetry msg) (now + AckTimeout q) in
  (msg, mkQueue rest (<[MsgID msg := msg]> (Processing q)) (DeadLetter q) (AckTimeout q) (MaxRetries q)).

(** One attempt of [Dequeue] under the lock. *)
Definition dequeue_try (now : Z) (order : list string) (name : string) (s : Store)
    : option QueueMessage * Store :=
  let s := requeueExpiredLocked now order name s in
  match queues s !! name with
  | None => (None, s)
  | Some q =>
      match take_ready now (QPending q) with
      | None => (None, s)
      | Some (msg, rest) =>
          let '(msg, q) := hand_out now msg rest q in
          (Some msg, touchKeyLocked now [name] (put_queue name q s))
      end
  end.

Inductive dequeued :=
| DMessage (msg : QueueMessage)
| DNone
| DBlocked (w : nat).

(** [Dequeue] up to its [select]: a message, nothing, or a registered waiter. *)
Definition Dequeue_start (now : Z) (order : list string) (name : string) (timeout : Z) (s : Store)
    : dequeued * Store :=
  let '(m, s) := dequeue_try now order name s in
  match m with
  | Some msg => (DMessage msg, s)
  | None =>
      if timeout <=? 0 then (DNone, s)
      else
        let w := nextWaiter s in
        let s := s <| waiterHeap ::= <[w := false]> |> <| nextWaiter ::= S |> in
        (DBlocked w, s <| queueWaits ::= <[name := default [] (queueWaits s !! name) ++ [w]]> |>)
  end.

(** [Dequeue] after its [select], woken or timed out. *)
Definition Dequeue_retry (now : Z) (order : list string) (name : string) (s : Store) : dequeued * Store :=
  let '(m, s) := dequeue_try now order name s in
  (match m with Some msg => DMessage msg | None => DNone end, s).

Definition QAck (now : Z) (name messageID : string) (s : Store) : bool * Store :=
  match queues s !! name with
  | None => (false, s)
  | Some q =>
      match Processing q !! messageID with
      | None => (false, s)
      | Some _ =>
          let q := mkQueue (QPending q) (delete messageID (Processing q)) (DeadLetter q)
                     (AckTimeout q) (MaxRetries q) in
          (true, touchKeyLocked now [name] (put_queue name q s))
      end
  end.

Definition QNack (now : Z) (name messageID : string) (s : Store) : bool * Store :=
  match queues s !! name with
  | None => (false, s)
  | Some q =>
      match Processing q !! messageID with
      | None => (false, s)
      | Some msg => (true, touchKeyLocked now [name] (put_queue name (give_back now messageID msg q) s))
      end
  end.

Definition QPeek (name : string) (count : Z) (s : Store) : list QueueMessage :=
  match queues s !! name with
  | None => []
  | Some q => ztake (if count <=? 0 then 1 else count) (QPending q)
  end.

Definition QLen (name : string) (s : Store) : Z :=
  match queues s !! name with None => 0 | Some q => zlen (QPending q) end.

Definition QInfo (name : string) (s : Store) : Z * Z * Z :=
  match queues s !! name with
  | None => (0, 0, 0)
  | Some q => (zlen (QPending q), Z.of_nat (size (Processing q)), zlen (DeadLetter q))
  end.

Definition QDead (name : string) (count : Z) (s : Store) : list QueueMessage :=
  match queues s !! name with
  | None => []
  | Some q => ztake (if count <=? 0 then 10 else count) (DeadLetter q)
  end.

(** ** Calls and what they report *)

Inductive qcall :=
| CEnqueue (now : Z) (body : string) (delay : Z)
| CDequeue (now : Z) (order : list string) (timeout : Z)
| CRetry (now : Z) (order : list string)
| CAck (now : Z) (id : string)
| CNack (now : Z) (id : string).

Inductive qreport := Sent (id : string) | Delivered (id : string) | Acked (id : string).

Definition report_dequeued (r : dequeued) : list qreport :=
  match r with DMessage msg => [Delivered (MsgID msg)] | _ => [] end.

Definition qexec (name : string) (c : qcall) (s : Store) : list qreport * Store :=
  match c with
  | CEnqueue now body delay => let '(id, s) := Enqueue now name body delay s in ([Sent id], s)
  | CDequeue now order timeout =>
      let '(r, s) := Dequeue_start now order name timeout s in (report_dequeued r, s)
  | CRetry now order => let '(r, s) := Dequeue_retry now order name s in (report_dequeued r, s)
  | CAck now id => let '(ok, s) := QAck now name id s in (if ok then [Acked id] else [], s)
  | CNack now id => let '(_, s) := QNack now name id s in ([], s)
  end.

(** Calls on any queues, in the order they take the lock; the log tags each
    report with its queue. *)
Fixpoint qrun (cs : list (string * qcall)) (s : Store) : list (string * qreport) * Store :=
  match cs with
  | [] => ([], s)
  | (name, c) :: cs =>
      let '(r, s) := qexec name c s in
      let '(log, s) := qrun cs s in
      ((pair name <$> r) ++ log, s)
  end.

Definition sent_of (r : qreport) : list string := match r with Sent id => [id] | _ => [] end.
Definition delivered_of (r : qreport) : list string := match r with Delivered id => [id] | _ => [] end.
Definition acked_of (r : qreport) : list string := match r with Acked id => [id] | _ => [] end.

(** The reports of one kind about one queue. *)
Definition of_queue (name : string) (f : qreport -> list string) (log : list (string * qreport)) : list string :=
  concat ((fun p => if String.eqb p.1 name then f p.2 else []) <$> log).

(** How often a message was handed to a worker. *)
Definition deliveries (name : string) (log : list (string * qreport)) (id : string) : Z :=
  zlen (filter (fun x => x = id) (of_queue name delivered_of log)).

(** Where the messages of a queue are. *)
Definition ids (q : Queue) : list string :=
  (MsgID <$> QPending q) ++ (map_to_list (Processing q)).*1 ++ (MsgID <$> DeadLetter q).

Definition the_queue (name : string) (s : Store) : Queue := default NewQueue (queues s !! name).

(** ** Conservation and bounded redelivery *)

Definition pending_ok (nd : string -> Z) (m : QueueMessage) : Prop :=
  MaxRetry m = 3 /\ 0 <= Retries m < 3 /\ nd (MsgID m) = Retries m.

Definition processing_ok (nd : string -> Z) (id : string) (m : QueueMessage) : Prop :=
  MsgID m = id /\ MaxRetry m = 3 /\ 0 <= Retries m < 3 /\ nd id = Retries m + 1.

Definition dead_ok (nd : string -> Z) (m : QueueMessage) : Prop :=
  Retries m = 3 /\ nd (MsgID m) = 3.

(** What a queue and the history of its calls (messages sent, acknowledged,
    number of deliveries) have in common. *)
Record qinv (sent acked : list string) (nd : string -> Z) (q : Queue) : Prop := {
  inv_ids : sent ≡ₚ acked ++ ids q;
  inv_nodup : NoDup sent;
  inv_pending : Forall (pending_ok nd) (QPending q);
  inv_processing : map_Forall (processing_ok nd) (Processing q);
  inv_dead : Forall (dead_ok nd) (DeadLetter q);
  inv_acked : Forall (fun id => 1 <= nd id <= 3) acked;
  inv_unsent : forall id, id ∉ sent -> nd id = 0;
  inv_max : MaxRetries q = 3
}.

Lemma ids_nodup sent acked nd q : qinv sent acked nd q -> NoDup (acked ++ ids q).
Proof. intros H. rewrite <-(inv_ids _ _ _ _ H). apply H. Qed.

Lemma map_ids_delete (m : gmap string QueueMessage) id x :
  m !! id = Some x -> (map_to_list m).*1 ≡ₚ id :: (map_to_list (delete id m)).*1.
Proof. intros H. by rewrite <-(map_to_list_delete m id x H). Qed.

Lemma map_ids_insert (m : gmap string QueueMessage) id x :
  m !! id = None -> (map_to_list (<[id := x]> m)).*1 ≡ₚ id :: (map_to_list m).*1.
Proof. intros H. by rewrite (map_to_list_insert m id x H). Qed.

Lemma give_back_inv sent acked nd q now id m :
  qinv sent acked nd q -> Processing q !! id = Some m -> qinv sent acked nd (give_back now id m q).
Proof.
  intros H Hm. destruct (inv_processing _ _ _ _ H id m Hm) as (<- & Hmax & Hr & Hnd).
  assert (ids (give_back now (MsgID m) m q) ≡ₚ ids q) as Hids.
  { unfold give_back, ids. rewrite (map_ids_delete _ _ _ Hm).
    case_match; cbn; rewrite ?fmap_app; cbn; solve_Permutation. }
  split; try apply H.
  - rewrite Hids. apply H.
  - unfold give_back. rewrite Hmax. case_match; cbn; [apply H|].
    apply Forall_app. split; [apply H|]. apply Forall_singleton. unfold pending_ok. cbn.
    rewrite Z.geb_leb, Z.leb_gt in *. lia.
  - unfold give_back. case_match; cbn; apply map_Forall_delete, H.
  - unfold give_back. rewrite Hmax. case_match; cbn; [|apply H].
    apply Forall_app. split; [apply H|]. apply Forall_singleton. unfold dead_ok. cbn.
    rewrite Z.geb_leb, Z.leb_le in *. lia.
  - unfold give_back. case_match; apply H.
Qed.

Lemma requeue_inv sent acked nd now order q :
  qinv sent acked nd q -> qinv sent acked nd (fold_left (requeue_one now) order q).
Proof.
  revert q. induction order as [|id order IH]; intros q H; [done|]. cbn. apply IH.
  unfold requeue_one. destruct (Processing q !! id) as [m|] eqn:E; [|done].
  case_match; [by eapply give_back_inv|done].
Qed.

Lemma take_ready_spec now l m rest :
  take_ready now l = Some (m, rest) ->
  exists l1 l2, l = l1 ++ m :: l2 /\ rest = l1 ++ l2 /\ CreatedAt m <= now /\
    Forall (fun x => now < CreatedAt x) l1.
Proof.
  revert m rest. induction l as [|x l IH]; intros m rest; cbn; [done|].
  destruct (Z.ltb_spec now (CreatedAt x)).
  - destruct (take_ready now l) as [[m' l']|]; [|done]. intros [= -> <-].
    destruct (IH m l' eq_refl) as (l1 & l2 & -> & -> & ? & ?). exists (x :: l1), l2.
    do 3 (split; [done|]). by constructor.
  - intros [= -> ->]. by exists [], rest.
Qed.

Lemma take_ready_none now l : take_ready now l = None -> Forall (fun x => now < CreatedAt x) l.
Proof.
  induction l as [|x l IH]; cbn; [done|]. destruct (Z.ltb_spec now (CreatedAt x)); [|done].
  destruct (take_ready now l) as [[? ?]|]; [done|]. constructor; [done|]. by apply IH.
Qed.

Definition count_one (nd : string -> Z) (id : string) : string -> Z :=
  fun x => if decide (x = id) then nd x + 1 else nd x.

Lemma hand_out_inv sent acked nd now q m l1 l2 :
  QPending q = l1 ++ m :: l2 -> qinv sent acked nd q ->
  qinv sent acked (count_one nd (MsgID m)) (hand_out now m (l1 ++ l2) q).2.
Proof.
  intros Hp H. pose proof (ids_nodup _ _ _ _ H) as Hnd.
  assert (pending_ok nd m) as (Hmax & Hr & Hm).
  { pose proof (inv_pending _ _ _ _ H) as HF. rewrite Forall_forall in HF. apply HF. rewrite Hp. set_solver. }
  assert (acked ++ ids q ≡ₚ MsgID m :: acked ++ (MsgID <$> l1 ++ l2) ++ (map_to_list (Processing q)).*1
            ++ (MsgID <$> DeadLetter q)) as Hperm.
  { unfold ids. rewrite Hp, !fmap_app. cbn. solve_Permutation. }
  rewrite Hperm in Hnd. apply NoDup_cons in Hnd as [Hnew Hnd].
  rewrite !elem_of_app in Hnew.
  assert (Processing q !! MsgID m = None) as Hfree.
  { destruct (Processing q !! MsgID m) as [x|] eqn:E; [|done]. exfalso. apply Hnew. right. right. left.
    apply list_elem_of_fmap. exists (MsgID m, x). split; [done|]. by apply elem_of_map_to_list. }
  assert (forall x, x <> MsgID m -> count_one nd (MsgID m) x = nd x) as Hother.
  { intros x Hx. unfold count_one. by rewrite decide_False. }
  split; cbn.
  - rewrite (inv_ids _ _ _ _ H), Hperm. unfold ids. cbn. rewrite map_ids_insert by done. solve_Permutation.
  - apply H.
  - pose proof (inv_pending _ _ _ _ H) as HF. rewrite Hp in HF. rewrite Forall_forall in *.
    intros x Hx. unfold pending_ok. rewrite Hother; [apply HF; set_solver|].
    intros E. apply Hnew. right. left. rewrite <-E. by apply list_elem_of_fmap_2.
  - apply map_Forall_insert; [done|]. split.
    + unfold processing_ok, count_one. cbn. rewrite decide_True by done. repeat split; try done; lia.
    + intros i x Hx. pose proof (inv_processing _ _ _ _ H i x Hx) as (? & ? & ? & ?).
      unfold processing_ok. rewrite Hother; [done|]. intros ->. congruence.
  - pose proof (inv_dead _ _ _ _ H) as HF. rewrite Forall_forall in *. intros x Hx.
    unfold dead_ok. rewrite Hother; [by apply HF|].
    intros E. apply Hnew. right. right. right. rewrite <-E. by apply list_elem_of_fmap_2.
  - pose proof (inv_acked _ _ _ _ H) as HF. rewrite Forall_forall in *. intros x Hx.
    rewrite Hother; [by apply HF|]. intros ->. apply Hnew. by left.
  - intros x Hx. rewrite Hother; [by apply (inv_unsent _ _ _ _ H)|]. intros ->. apply Hx.
    rewrite (inv_ids _ _ _ _ H), Hperm. left.
  - apply H.
Qed.

Lemma ack_inv sent acked nd q id m :
  qinv sent acked nd q -> Processing q !! id = Some m ->
  qinv sent (acked ++ [id]) nd
    (mkQueue (QPending q) (delete id (Processing q)) (DeadLetter q) (AckTimeout q) (MaxRetries q)).
Proof.
  intros H Hm. destruct (inv_processing _ _ _ _ H id m Hm) as (_ & _ & Hr & Hnd).
  split; cbn; try apply H.
  - rewrite (inv_ids _ _ _ _ H). unfold ids. cbn. rewrite (map_ids_delete _ _ _ Hm). solve_Permutation.
  - apply map_Forall_delete, H.
  - apply Forall_app. split; [apply H|]. apply Forall_singleton. lia.
Qed.

Lemma enqueue_inv sent acked nd q m :
  qinv sent acked nd q -> MsgID m ∉ sent -> Retries m = 0 -> MaxRetry m = MaxRetries q ->
  qinv (sent ++ [MsgID m]) acked nd
    (mkQueue (QPending q ++ [m]) (Processing q) (DeadLetter q) (AckTimeout q) (MaxRetries q)).
Proof.
  intros H Hnew Hr Hmax. split; cbn; try apply H.
  - rewrite (inv_ids _ _ _ _ H). unfold ids. cbn. rewrite fmap_app. cbn. solve_Permutation.
  - apply NoDup_app. split; [apply H|]. split; [|apply NoDup_singleton]. set_solver.
  - apply Forall_app. split; [apply H|]. apply Forall_singleton. unfold pending_ok.
    rewrite Hmax, (inv_max _ _ _ _ H), (inv_unsent _ _ _ _ H) by done. lia.
  - intros id Hid. apply (inv_unsent _ _ _ _ H). set_solver.
Qed.

(** *** Message identifiers *)

Fixpoint last_part (s : string) : string :=
  match s with
  | EmptyString => ""
  | String c r => if has_byte "-" r then last_part r else if Ascii.eqb c "-" then r else s
  end.

Lemma last_part_app a d : has_byte "-" d = false -> last_part (String.append a (String "-" d)) = d.
Proof.
  intros Hd. induction a as [|c a IH].
  - change (last_part (String "-" d) = d). cbn. by rewrite Hd.
  - change (last_part (String c (String.append a (String "-" d))) = d). cbn [last_part].
    by rewrite has_byte_app, orb_true_r.
Qed.

(** The sequence number can be read back from an identifier. *)
Lemma message_id_seq ms k : 0 <= k <= uint64_max -> ParseUint (last_part (message_id ms k)) = (k, None).
Proof.
  intros Hk. unfold message_id. rewrite last_part_app; [by apply ParseUint_format|].
  unfold format_uint. rewrite digits_no_byte by (done || lia). done.
Qed.

Definition older (n : Z) (id : string) : Prop := exists ms k, id = message_id ms k /\ 0 <= k <= n.

Lemma older_fresh n ms id : n + 1 <= uint64_max -> 0 <= n -> older n id -> id <> message_id ms (n + 1).
Proof.
  intros Hn H0 (ms' & k & -> & Hk) E. apply (f_equal (fun x => ParseUint (last_part x))) in E.
  rewrite !message_id_seq in E by lia. injection E as ->. lia.
Qed.

(** *** Calls *)

Lemma touch_queues now keys s :
  queues (touchKeyLocked now keys s) = queues s /\ queueSeq (touchKeyLocked now keys s) = queueSeq s.
Proof. destruct (touch_shape now keys s) as (? & ? & ? & ? & ->). done. Qed.

Lemma wake_queues name s :
  queues (wake_first name s) = queues s /\ queueSeq (wake_first name s) = queueSeq s.
Proof. unfold wake_first. repeat case_match; done. Qed.

(** What one call does to the queue it names, as the history sees it. *)
Inductive qstep : Queue -> list qreport -> Queue -> Prop :=
| step_send q m : Retries m = 0 -> MaxRetry m = MaxRetries q ->
    qstep q [Sent (MsgID m)]
      (mkQueue (QPending q ++ [m]) (Processing q) (DeadLetter q) (AckTimeout q) (MaxRetries q))
| step_requeue now order q : qstep q [] (fold_left (requeue_one now) order q)
| step_deliver now order q m l1 l2 :
    QPending (fold_left (requeue_one now) order q) = l1 ++ m :: l2 ->
    qstep q [Delivered (MsgID m)] (hand_out now m (l1 ++ l2) (fold_left (requeue_one now) order q)).2
| step_ack q id m : Processing q !! id = Some m ->
    qstep q [Acked id]
      (mkQueue (QPending q) (delete id (Processing q)) (DeadLetter q) (AckTimeout q) (MaxRetries q))
| step_nack now q id m : Processing q !! id = Some m -> qstep q [] (give_back now id m q).

Lemma qstep_nothing q : qstep q [] q.
Proof. apply (step_requeue 0 [] q). Qed.

Lemma Enqueue_shape now name body delay s :
  exists created s',
    Enqueue now name body delay s =
      (message_id (UnixMilli now) (wrapu64 (queueSeq s + 1)), s') /\
    queueSeq s' = wrapu64 (queueSeq s + 1) /\
    queues s' = <[name :=
      let q := the_queue name s in
      mkQueue (QPending q ++ [mkMsg (message_id (UnixMilli now) (wrapu64 (queueSeq s + 1))) body created 0
                                (MaxRetries q) zeroTime])
        (Processing q) (DeadLetter q) (AckTimeout q) (MaxRetries q)]> (queues s).
Proof.
  unfold Enqueue, nextQueueID. store_cbn. eexists _, _. split; [done|].
  match goal with |- context [wake_first name ?t] => destruct (wake_queues name t) as [-> ->] end.
  match goal with |- context [touchKeyLocked now ?l ?t] => destruct (touch_queues now l t) as [-> ->] end.
  unfold put_queue. store_cbn. split; [done|]. done.
Qed.

Lemma dequeue_try_shape now order name s :
  exists r s', dequeue_try now order name s = (r, s') /\ queueSeq s' = queueSeq s /\
    (forall k, k <> name -> queues s' !! k = queues s !! k) /\
    qstep (the_queue name s) (match r with Some m => [Delivered (MsgID m)] | None => [] end) (the_queue name s').
Proof.
  unfold dequeue_try, requeueExpiredLocked, the_queue. destruct (queues s !! name) as [q|] eqn:E.
  - unfold put_queue. store_cbn. rewrite lookup_insert_eq.
    destruct (take_ready now _) as [[m rest]|] eqn:Et.
    + apply take_ready_spec in Et as (l1 & l2 & Hp & -> & _).
      eexists _, _. split; [done|].
      match goal with |- context [touchKeyLocked now ?l ?t] => destruct (touch_queues now l t) as [-> ->] end.
      store_cbn. split; [done|]. split.
      { intros k Hk. by rewrite !lookup_insert_ne by done. }
      rewrite lookup_insert_eq. apply (step_deliver now order q m l1 l2 Hp).
    + eexists _, _. split; [done|]. store_cbn. split; [done|]. split.
      { intros k Hk. by rewrite !lookup_insert_ne by done. }
      rewrite lookup_insert_eq. apply step_requeue.
  - rewrite E. eexists _, _. split; [done|]. do 2 (split; [done|]). rewrite E. apply qstep_nothing.
Qed.

Lemma qexec_shape name c s :
  exists r s', qexec name c s = (r, s') /\
    (forall k, k <> name -> queues s' !! k = queues s !! k) /\
    qstep (the_queue name s) r (the_queue name s') /\
    (queueSeq s' = queueSeq s /\ concat (sent_of <$> r) = [] \/
     queueSeq s' = wrapu64 (queueSeq s + 1) /\
     exists ms, r = [Sent (message_id ms (wrapu64 (queueSeq s + 1)))]).
Proof.
  destruct c as [now body delay|now order timeout|now order|now id|now id]; unfold qexec.
  - destruct (Enqueue_shape now name body delay s) as (created & s' & -> & Hseq & Hq).
    eexists _, _. split; [done|]. split; [intros k Hk; by rewrite Hq, lookup_insert_ne by done|]. split.
    + unfold the_queue at 2. rewrite Hq, lookup_insert_eq.
      refine (step_send _ (mkMsg _ _ _ _ _ _) _ _); done.
    + right. split; [done|]. by eexists.
  - unfold Dequeue_start. destruct (dequeue_try_shape now order name s) as (r & s' & -> & Hseq & Ho & Hstep).
    destruct r as [m|]; [|destruct (timeout <=? 0)]; (eexists _, _; split; [done|]); (split; [exact Ho|]); (split; [exact Hstep|]);
      by left.
  - unfold Dequeue_retry. destruct (dequeue_try_shape now order name s) as (r & s' & -> & Hseq & Ho & Hstep).
    exists (report_dequeued match r with Some msg => DMessage msg | None => DNone end), s'.
    split; [done|]. split; [done|]. destruct r; (split; [done|]); by left.
  - unfold QAck. destruct (queues s !! name) as [q|] eqn:E;
      [|eexists _, _; split; [done|]; split; [done|]; split; [apply qstep_nothing|by left]].
    destruct (Processing q !! id) as [m|] eqn:Em;
      [|eexists _, _; split; [done|]; split; [done|]; split; [apply qstep_nothing|by left]].
    eexists _, _. split; [done|]. unfold the_queue.
    match goal with |- context [touchKeyLocked now ?l ?t] => destruct (touch_queues now l t) as [-> ->] end.
    unfold put_queue. store_cbn. split; [intros k Hk; by rewrite lookup_insert_ne by done|].
    rewrite lookup_insert_eq, E. split; [by eapply step_ack|by left].
  - unfold QNack. destruct (queues s !! name) as [q|] eqn:E;
      [|eexists _, _; split; [done|]; split; [done|]; split; [apply qstep_nothing|by left]].
    destruct (Processing q !! id) as [m|] eqn:Em;
      [|eexists _, _; split; [done|]; split; [done|]; split; [apply qstep_nothing|by left]].
    eexists _, _. split; [done|]. unfold the_queue.
    match goal with |- context [touchKeyLocked now ?l ?t] => destruct (touch_queues now l t) as [-> ->] end.
    unfold put_queue. store_cbn. split; [intros k Hk; by rewrite lookup_insert_ne by done|].
    rewrite lookup_insert_eq, E. split; [by eapply step_nack|by left].
Qed.

(** The invariant is kept by the steps, the history growing with the reports. *)
Lemma qinv_ext sent acked nd nd' q : (forall x, nd x = nd' x) -> qinv sent acked nd q -> qinv sent acked nd' q.
Proof.
  intros He H. split; try apply H; unfold pending_ok, processing_ok, dead_ok.
  - eapply Forall_impl; [apply H|]. intros m. unfold pending_ok. by rewrite He.
  - eapply map_Forall_impl; [apply H|]. intros i m. unfold processing_ok. by rewrite He.
  - eapply Forall_impl; [apply H|]. intros m. unfold dead_ok. by rewrite He.
  - eapply Forall_impl; [apply H|]. intros m. cbn. by rewrite He.
  - intros id Hid. rewrite <-He. by apply (inv_unsent _ _ _ _ H).
Qed.

Definition count_all (nd : string -> Z) (l : list string) : string -> Z :=
  fun x => nd x + zlen (filter (fun y => y = x) l).

Lemma qstep_inv sent acked nd q r q' :
  qstep q r q' -> qinv sent acked nd q -> Forall (fun id => id ∉ sent) (concat (sent_of <$> r)) ->
  qinv (sent ++ concat (sent_of <$> r)) (acked ++ concat (acked_of <$> r))
    (count_all nd (concat (delivered_of <$> r))) q'.
Proof.
  assert (forall x, nd x = count_all nd [] x) as H0 by (intros x; unfold count_all, zlen; cbn; lia).
  intros Hs H Hnew. destruct Hs as [q m Hr Hmax|now order q|now order q m l1 l2 Hp|q id m Hm|now q id m Hm];
    cbn; rewrite ?app_nil_r.
  - apply (qinv_ext _ _ nd); [done|]. apply enqueue_inv; [done| |done|done].
    apply Forall_inv in Hnew. exact Hnew.
  - apply (qinv_ext _ _ nd); [done|]. by apply requeue_inv.
  - apply (qinv_ext _ _ (count_one nd (MsgID m))).
    { intros x. unfold count_one, count_all. rewrite filter_cons, filter_nil.
      repeat case_decide; subst; try congruence; unfold zlen; cbn; lia. }
    eapply hand_out_inv; [done|]. by apply requeue_inv.
  - apply (qinv_ext _ _ nd); [done|]. by eapply ack_inv.
  - apply (qinv_ext _ _ nd); [done|]. by eapply give_back_inv.
Qed.

Lemma of_queue_app n f l1 l2 : of_queue n f (l1 ++ l2) = of_queue n f l1 ++ of_queue n f l2.
Proof. unfold of_queue. by rewrite fmap_app, concat_app. Qed.

Lemma of_queue_tagged n f name r :
  of_queue n f (pair name <$> r) = if String.eqb name n then concat (f <$> r) else [].
Proof.
  unfold of_queue. rewrite <-list_fmap_compose. destruct (String.eqb name n) eqn:E.
  - f_equal. apply list_fmap_ext. intros i x _. cbn. by rewrite E.
  - induction r as [|x r IH]; cbn; [done|]. rewrite E. done.
Qed.

Lemma deliveries_app n l1 l2 x :
  deliveries n (l1 ++ l2) x = count_all (deliveries n l1) (of_queue n delivered_of l2) x.
Proof. unfold deliveries, count_all. by rewrite of_queue_app, filter_app, zlen_app. Qed.

(** The invariant of a whole run, for the queue [n]. *)
Record ginv (n : string) (log : list (string * qreport)) (s : Store) : Prop := {
  g_inv : qinv (of_queue n sent_of log) (of_queue n acked_of log) (deliveries n log) (the_queue n s);
  g_old : Forall (older (queueSeq s)) (of_queue n sent_of log);
  g_seq : 0 <= queueSeq s
}.

Lemma older_mono a b id : a <= b -> older a id -> older b id.
Proof. intros H (ms & k & -> & Hk). exists ms, k. split; [done|lia]. Qed.

Lemma ginv_step n log s name c r s' :
  ginv n log s -> queueSeq s + 1 <= uint64_max -> qexec name c s = (r, s') ->
  ginv n (log ++ (pair name <$> r)) s' /\ queueSeq s' <= queueSeq s + 1.
Proof.
  intros [Hinv Hold Hseq] Hroom Hexec.
  destruct (qexec_shape name c s) as (r' & s'' & E & Hother & Hstep & Hids).
  rewrite Hexec in E. injection E as <- <-.
  assert (wrapu64 (queueSeq s + 1) = queueSeq s + 1) as Hw.
  { unfold wrapu64, uint64_max in *. apply Z.mod_small. lia. }
  rewrite Hw in Hids.
  assert (Forall (fun id => id ∉ of_queue n sent_of log) (concat (sent_of <$> r)) /\
          Forall (older (queueSeq s')) (concat (sent_of <$> r)) /\
          queueSeq s <= queueSeq s' <= queueSeq s + 1) as (Hnew & Hold' & Hs').
  { destruct Hids as [[-> ->]|[-> [ms ->]]]; [split; [constructor|split; [constructor|lia]]|].
    cbn. split; [|split; [|lia]]; apply Forall_singleton.
    - intros Hin. rewrite Forall_forall in Hold.
      by apply (older_fresh _ ms _ Hroom Hseq (Hold _ Hin)).
    - exists ms, (queueSeq s + 1). split; [done|lia]. }
  split; [|lia]. split; [| |lia].
  - rewrite !of_queue_app, !of_queue_tagged. destruct (String.eqb_spec name n) as [->|Hne].
    + eapply qinv_ext; [|by eapply qstep_inv].
      intros x. rewrite deliveries_app, of_queue_tagged, String.eqb_refl. done.
    + rewrite !app_nil_r. unfold the_queue. rewrite (Hother n) by done.
      eapply qinv_ext; [|exact Hinv]. intros x. rewrite deliveries_app, of_queue_tagged.
      rewrite (proj2 (String.eqb_neq name n)) by done. unfold count_all, zlen. cbn. lia.
  - rewrite of_queue_app, of_queue_tagged. apply Forall_app. split.
    + eapply Forall_impl; [exact Hold|]. intros id. apply older_mono. lia.
    + case_match; [done|constructor].
Qed.

Lemma ginv_run n cs log s :
  ginv n log s -> queueSeq s + zlen cs <= uint64_max ->
  ginv n (log ++ (qrun cs s).1) (qrun cs s).2.
Proof.
  revert log s. induction cs as [|[name c] cs IH]; intros log s H Hroom; cbn [qrun].
  - by rewrite app_nil_r.
  - rewrite zlen_cons in Hroom. pose proof (zlen_nonneg cs).
    destruct (qexec name c s) as [r s'] eqn:E.
    destruct (ginv_step n log s name c r s' H ltac:(lia) E) as [H' Hseq].
    specialize (IH _ _ H' ltac:(lia)). destruct (qrun cs s') as [log' s'']. cbn in *. by rewrite app_assoc.
Qed.

(** C11: no message is lost or duplicated and redelivery is bounded.  Start from any state in which the
    queue does not exist and run any interleaving of ENQUEUE, DEQUEUE (both of its critical sections),
    QACK and QNACK on it and on other queues, with any clock readings and map orders: the messages sent
    have distinct identifiers; each is, exactly once, among the acknowledged, pending, processing or
    dead ones; no message is handed out more than three times, a dead one was handed out exactly three
    times, and an acknowledged one at least once. *)
Theorem queue_conservation n cs s :
  queues s !! n = None -> 0 <= queueSeq s -> queueSeq s + zlen cs <= uint64_max ->
  let '(log, s') := qrun cs s in
  let q := the_queue n s' in
  NoDup (of_queue n sent_of log) /\
  of_queue n sent_of log ≡ₚ of_queue n acked_of log ++ ids q /\
  (forall id, deliveries n log id <= 3) /\
  (forall m, m ∈ DeadLetter q -> deliveries n log (MsgID m) = 3) /\
  (forall id, id ∈ of_queue n acked_of log -> 1 <= deliveries n log id).
Proof.
  intros Hn Hs Hroom.
  assert (ginv n [] s) as H0.
  { split; [|constructor|done]. unfold the_queue. rewrite Hn.
    split; try constructor; done. }
  pose proof (ginv_run n cs [] s H0 Hroom) as [H _ _]. destruct (qrun cs s) as [log s']. cbn in H |- *.
  split; [apply H|]. split; [apply H|]. split; [|split].
  - intros id. destruct (decide (id ∈ of_queue n sent_of log)) as [Hin|Hin].
    + rewrite (inv_ids _ _ _ _ H) in Hin. unfold ids in Hin. rewrite !elem_of_app in Hin.
      destruct Hin as [Hin|[Hin|[Hin|Hin]]].
      * pose proof (inv_acked _ _ _ _ H) as HF. rewrite Forall_forall in HF. apply HF in Hin. lia.
      * apply list_elem_of_fmap in Hin as (m & -> & Hin). pose proof (inv_pending _ _ _ _ H) as HF.
        rewrite Forall_forall in HF. apply HF in Hin as (_ & ? & ->). lia.
      * apply list_elem_of_fmap in Hin as ([i m] & -> & Hin%elem_of_map_to_list).
        apply (inv_processing _ _ _ _ H) in Hin as (_ & _ & ? & Hd). cbn. rewrite Hd. lia.
      * apply list_elem_of_fmap in Hin as (m & -> & Hin). pose proof (inv_dead _ _ _ _ H) as HF.
        rewrite Forall_forall in HF. apply HF in Hin as [_ ->]. done.
    + rewrite (inv_unsent _ _ _ _ H) by done. done.
  - pose proof (inv_dead _ _ _ _ H) as HF. rewrite Forall_forall in HF. intros m Hm. by apply HF.
  - pose proof (inv_acked _ _ _ _ H) as HF. rewrite Forall_forall in HF. intros id Hid. apply HF in Hid. lia.
Qed.

(** A run with a rejected, an expired and an acknowledged message. *)
Definition sample_calls : list (string * qcall) :=
  [("jobs", CEnqueue 1000 "a" 0); ("jobs", CEnqueue 1000 "b" 0); ("other", CEnqueue 1000 "c" 0);
   ("jobs", CDequeue 2000 [] 0); ("jobs", CNack 3000 "0-1"); ("jobs", CDequeue 4000 [] 0);
   ("jobs", CAck 5000 "0-2"); ("jobs", CDequeue 6000 [] 0); ("jobs", CDequeue (10 ^ 12) ["0-1"] 0)].

Lemma queue_conservation_witness :
  queues New !! "jobs" = None /\ queueSeq New + zlen sample_calls <= uint64_max /\
  let '(log, s') := qrun sample_calls New in
  NoDup (of_queue "jobs" sent_of log) /\ deliveries "jobs" log "0-1" <= 3.
Proof.
  assert (queueSeq New + zlen sample_calls <= uint64_max) as Hroom by (vm_compute; congruence).
  split; [reflexivity|]. split; [exact Hroom|].
  pose proof (queue_conservation "jobs" sample_calls New eq_refl (Z.le_refl 0) Hroom) as H.
  destruct (qrun sample_calls New) as [log s'].
  exact (conj (proj1 H) (proj1 (proj2 (proj2 H)) "0-1")).
Defined.

Example sample_deliveries : deliveries "jobs" (qrun sample_calls New).1 "0-1" = 3.
Proof. vm_compute. reflexivity. Qed.

(** ** What DEQUEUE hands out *)

Definition keyed (q : Queue) : Prop := map_Forall (fun id m => MsgID m = id) (Processing q).

Lemma requeue_one_spec now q id :
  keyed q ->
  let q' := requeue_one now q id in
  keyed q' /\ Processing q' ⊆ Processing q /\ (exists l, QPending q' = QPending q ++ l) /\
  AckTimeout q' = AckTimeout q /\
  (forall m, Processing q' !! id = Some m -> now <= AckDeadline m).
Proof.
  intros Hk. unfold requeue_one. destruct (Processing q !! id) as [m|] eqn:E.
  - specialize (Hk id m E) as Hid. destruct (Z.ltb_spec (AckDeadline m) now) as [Hlt|Hge]; cbn zeta.
    + assert (Processing (give_back now id m q) = delete id (Processing q)) as Hp
        by (unfold give_back; by case_match).
      rewrite Hp. split; [unfold keyed; rewrite Hp; by apply map_Forall_delete|].
      split; [apply delete_subseteq|]. split; [|split].
      * unfold give_back. case_match; cbn; [exists []; by rewrite app_nil_r|by eexists].
      * unfold give_back. by case_match.
      * intros x. by rewrite lookup_delete_eq.
    + do 2 (split; [done|]). split; [exists []; by rewrite app_nil_r|]. split; [done|].
      intros x. rewrite E. by intros [= <-].
  - cbn zeta. do 2 (split; [done|]). split; [exists []; by rewrite app_nil_r|]. split; [done|].
    intros x. by rewrite E.
Qed.

Lemma requeue_spec now order q :
  keyed q ->
  let q' := fold_left (requeue_one now) order q in
  keyed q' /\ Processing q' ⊆ Processing q /\ (exists l, QPending q' = QPending q ++ l) /\
  AckTimeout q' = AckTimeout q /\
  (forall id m, id ∈ order -> Processing q' !! id = Some m -> now <= AckDeadline m).
Proof.
  revert q. induction order as [|a order IH]; intros q Hk; cbn zeta; cbn [fold_left].
  - do 2 (split; [done|]). split; [exists []; by rewrite app_nil_r|]. split; [done|].
    intros id m Hin. by apply not_elem_of_nil in Hin.
  - destruct (requeue_one_spec now q a Hk) as (Hk1 & Hsub1 & [l1 Hp1] & Ht1 & Ha).
    destruct (IH _ Hk1) as (Hk2 & Hsub2 & [l2 Hp2] & Ht2 & Hall).
    split; [done|]. split; [by etrans|]. split; [exists (l1 ++ l2); by rewrite Hp2, Hp1, app_assoc|].
    split; [congruence|]. intros id m [->|Hin]%elem_of_cons Hm.
    + apply Ha. by eapply lookup_weaken.
    + by eapply Hall.
Qed.

Lemma take_ready_first now l l1 m0 l2 :
  l = l1 ++ m0 :: l2 -> Forall (fun x => now < CreatedAt x) l1 -> CreatedAt m0 <= now ->
  take_ready now l = Some (m0, l1 ++ l2).
Proof.
  intros -> Hl Hm. induction Hl as [|x l1 Hx Hl IH]; cbn.
  - by rewrite (proj2 (Z.ltb_ge _ _)).
  - by rewrite (proj2 (Z.ltb_lt _ _)), IH.
Qed.

(** What DEQUEUE hands out.  When the loop over Processing visits every message, no message whose
    acknowledgement deadline has passed is left in processing.  If a message is returned its delay has
    passed, it is in processing with a deadline one acknowledgement timeout away, and it is the first
    message of the pending list that was ready, if one was; if none is returned, every pending message
    is still delayed. *)
Theorem dequeue_visibility now order name s q :
  queues s !! name = Some q -> keyed q -> 0 <= AckTimeout q ->
  (forall id, is_Some (Processing q !! id) -> id ∈ order) ->
  let '(r, s') := dequeue_try now order name s in
  let q' := the_queue name s' in
  map_Forall (fun _ m => now <= AckDeadline m) (Processing q') /\
  match r with
  | None => Forall (fun m => now < CreatedAt m) (QPending q')
  | Some m =>
      CreatedAt m <= now /\ AckDeadline m = now + AckTimeout q /\ Processing q' !! MsgID m = Some m /\
      (forall l1 m0 l2, QPending q = l1 ++ m0 :: l2 -> Forall (fun x => now < CreatedAt x) l1 ->
         CreatedAt m0 <= now -> MsgID m = MsgID m0 /\ Body m = Body m0)
  end.
Proof.
  intros Hq Hk Ht Hall. destruct (requeue_spec now order q Hk) as (_ & Hsub & [ext Hp] & Htq & Hdl).
  unfold dequeue_try, requeueExpiredLocked, the_queue, put_queue. rewrite Hq. store_cbn.
  rewrite lookup_insert_eq. set (q1 := fold_left (requeue_one now) order q) in *.
  assert (map_Forall (fun _ m => now <= AckDeadline m) (Processing q1)) as Hold.
  { intros id m Hm. apply (Hdl id m); [|done]. apply Hall. exists m. by eapply lookup_weaken. }
  destruct (take_ready now (QPending q1)) as [[m rest]|] eqn:E.
  - pose proof (take_ready_spec _ _ _ _ E) as (l1 & l2 & _ & _ & Hm & _).
    unfold hand_out. cbv beta iota zeta.
    match goal with |- context [touchKeyLocked now ?l ?t] => destruct (touch_queues now l t) as [-> _] end.
    store_cbn. rewrite lookup_insert_eq. cbn. split.
    + apply map_Forall_insert_2; [cbn; lia|]. done.
    + split; [done|]. rewrite Htq. split; [done|]. split; [apply lookup_insert_eq|].
      intros k1 m0 k2 Hpq Hk1 Hm0.
      rewrite (take_ready_first now (QPending q1) k1 m0 (k2 ++ ext)) in E; [|by rewrite Hp, Hpq, <-app_assoc|done|done].
      by injection E as -> _.
  - store_cbn. rewrite lookup_insert_eq. split; [done|]. by apply take_ready_none.
Qed.

(** A queue with a delayed and a ready message, and one whose worker is late. *)
Definition late_queue : Queue :=
  mkQueue [mkMsg "0-1" "later" 900 0 3 zeroTime; mkMsg "0-2" "ready" 100 0 3 zeroTime]
    {["0-3" := mkMsg "0-3" "late" 50 0 3 400]} [] (5 * 60 * 10 ^ 9) 3.

Lemma dequeue_visibility_witness :
  keyed late_queue /\
  map_Forall (fun _ m => 500 <= AckDeadline m)
    (Processing (the_queue "jobs" (dequeue_try 500 ["0-3"] "jobs" (put_queue "jobs" late_queue New)).2)).
Proof.
  assert (keyed late_queue) as Hk.
  { intros id m. unfold late_queue. cbn. intros [<- <-]%lookup_singleton_Some. reflexivity. }
  split; [exact Hk|].
  assert (forall id, is_Some (Processing late_queue !! id) -> id ∈ ["0-3"]) as Hall.
  { intros id [m Hm]. unfold late_queue in Hm. cbn in Hm. apply lookup_singleton_Some in Hm as [<- _]. left. }
  pose proof (dequeue_visibility 500 ["0-3"] "jobs" (put_queue "jobs" late_queue New) late_queue eq_refl Hk
    ltac:(cbn; lia) Hall) as H.
  destruct (dequeue_try 500 ["0-3"] "jobs" (put_queue "jobs" late_queue New)) as [r s'].
  exact (proj1 H).
Defined.

(** A worker whose blocking DEQUEUE timed out stays in the wait list, so the next ENQUEUE closes
    its channel instead of the channel of a worker that is really blocked: that worker is not woken
    although a message is ready. *)
Theorem queue_stale_waiter :
  exists s1 s2 s3 s4,
    Dequeue_start 1000 [] "jobs" 10 New = (DBlocked 0, s1) /\
    Dequeue_retry 2000 [] "jobs" s1 = (DNone, s2) /\
    Dequeue_start 3000 [] "jobs" (10 ^ 12) s2 = (DBlocked 1, s3) /\
    (Enqueue 4000 "jobs" "work" 0 s3).2 = s4 /\
    waiterHeap s4 !! 0%nat = Some true /\ waiterHeap s4 !! 1%nat = Some false /\
    QLen "jobs" s4 = 1 /\ (dequeue_try 5000 [] "jobs" s4).1 <> None.
Proof.
  eexists _, _, _, _. do 3 (split; [vm_compute; reflexivity|]). split; [reflexivity|].
  do 3 (split; [vm_compute; reflexivity|]). vm_compute. done.
Qed.

End Queues.
