(* ===== verification/StoreLimits.v ===== *)
(** * Rate limiters and eviction of internal/store/store.go

    RATELIMIT, RATELIMIT.PEEK and RATELIMIT.RESET (a sliding window of request
    times per key), and the memory limit: the cached size estimate and the
    loop that evicts keys before a write.  A [range] over a Go map visits the
    keys in an arbitrary order: [perm] gives the order of each visit. *)
From S2P Require Import Prelude GoLib Deque SortedSet HyperLogLog Store.
Import Store.

Module Limits.

(** ** Rate limiting *)

(** [d.Milliseconds()] *)
Definition Milliseconds (d : Z) : Z := Z.quot d (10 ^ 6).

Definition put_limiter (key : string) (rl : RateLimiter) (s : Store) : Store :=
  s <| rateLimiters ::= <[key := rl]> |>.

(** The times after the cut-off [now - window]. *)
Definition in_window (now window : Z) (l : list Z) : list Z :=
  filter (fun t => now + wrap64 (- window) < t) l.

Record verdict := mkVerdict { v_allowed : bool; v_remaining : Z; v_retryAfterMs : Z; v_resetAtMs : Z }.

(** [rl.Requests[0]] is evaluated without a test when the limit is reached:
    with [max <= 0] and no request it is out of range. *)
Definition RateLimit (now : Z) (key : string) (max window : Z) (s : Store) : outcome verdict * Store :=
  let valid := in_window now window
                 (match rateLimiters s !! key with Some rl => Requests rl | None => [] end) in
  let s := put_limiter key (mkRL window max valid) s in
  let resetAtMs := match valid with
                   | first :: _ => UnixMilli (first + window)
                   | [] => UnixMilli (now + window)
                   end in
  if zlen valid >=? max then
    match valid with
    | [] => (Panic, s)
    | first :: _ =>
        let retryAfter := Z.max 0 (time_sub (first + window) now) in
        (Ret (mkVerdict false 0 (Milliseconds retryAfter) resetAtMs), s)
    end
  else
    let valid := valid ++ [now] in
    let s := touchKeyLocked now [key] (put_limiter key (mkRL window max valid) s) in
    (Ret (mkVerdict true (wrap64 (max - zlen valid)) 0 resetAtMs), s).

Definition RateLimitPeek (now : Z) (key : string) (s : Store) : Z * Z :=
  match rateLimiters s !! key with
  | None => (-1, 0)
  | Some rl =>
      (wrap64 (Max rl - zlen (in_window now (Window rl) (Requests rl))),
       match Requests rl with first :: _ => UnixMilli (first + Window rl) | [] => 0 end)
  end.

Definition RateLimitReset (key : string) (s : Store) : bool * Store :=
  if has (rateLimiters s) key then (true, s <| rateLimiters ::= delete key |>) else (false, s).

(** ** Eviction *)

Definition SetMaxMemory (bytes : Z) (s : Store) : Store :=
  s <| maxMemory := bytes |> <| memEstimate := 0 |> <| opsSinceEstimate := 0 |>.

Definition SetEvictPolicy (policy : string) (s : Store) : Store := s <| evictPolicy := policy |>.

Definition GetEvictPolicy (s : Store) : string :=
  if String.eqb (evictPolicy s) "" then "noeviction" else evictPolicy s.

Definition slen (x : string) : Z := Z.of_nat (String.length x).

(** [for k, v := range m { mem += size(k, v) }] *)
Definition sum_map {A} (size : string -> A -> Z) (m : gmap string A) : Z :=
  map_fold (fun k v mem => wrap64 (mem + size k v)) 0 m.

Definition size_fields (h : gmap string string) : Z :=
  sum_map (fun f v => slen f + slen v + 32) h.

Definition size_entry (e : StreamEntry) : Z :=
  fold_left (fun mem f => mem + (slen f + 16)) (Fields e) (slen (ID e) + 48).

(** The sum over every map, each term as in the loop for its type. *)
Definition memory (s : Store) : Z :=
  wrap64 (
    sum_map (fun k v => slen k + slen v + 64) (kv s)
    + sum_map (fun k h => slen k + 64 + size_fields h) (hashes s)
    + sum_map (fun k d => slen k + 64 + Deque.Len d * 48) (lists s)
    + sum_map (fun k m => slen k + 64 + Z.of_nat (size m) * 48) (sets s)
    + sum_map (fun k z => slen k + 64 + SortedSet.Len z * 64) (zsets s)
    + sum_map (fun k l => slen k + 64 + fold_left (fun mem e => mem + size_entry e) l 0) (streams s)
    + sum_map (fun k _ => slen k + HyperLogLog.hllRegisters + 64) (hlls s)).

Definition estimateMemoryLocked (s : Store) : Z * Store :=
  let s := s <| opsSinceEstimate ::= fun n => wrap64 (n + 1) |> in
  if (opsSinceEstimate s <? 1000) && (memEstimate s >? 0) then (memEstimate s, s)
  else
    let s := s <| opsSinceEstimate := 0 |> in
    let mem := memory s in
    (mem, s <| memEstimate := mem |>).

(** The first key a [range] over a map yields. *)
Definition first_key {A} (perm : list string -> list string) (m : gmap string A) : option string :=
  head (perm (map_to_list m).*1).

Definition evict (now : Z) (key : string) (s : Store) : Store :=
  deleteKeyLocked now key s <| memEstimate := 0 |>.

(** The maps in the order they are tried. *)
Definition random_key (perm : list string -> list string) (onlyVolatile : bool) (s : Store) : option string :=
  if onlyVolatile then first_key perm (expires s)
  else
    match first_key perm (kv s) with Some k => Some k | None =>
    match first_key perm (hashes s) with Some k => Some k | None =>
    match first_key perm (lists s) with Some k => Some k | None =>
    match first_key perm (sets s) with Some k => Some k | None =>
    match first_key perm (zsets s) with Some k => Some k | None =>
    match first_key perm (streams s) with Some k => Some k | None =>
    first_key perm (hlls s) end end end end end end.

Definition evictRandomKeyLocked (now : Z) (perm : list string -> list string) (onlyVolatile : bool) (s : Store)
    : bool * Store :=
  match random_key perm onlyVolatile s with
  | Some key => (true, evict now key s)
  | None => (false, s)
  end.

(** The oldest of the (at most five) sampled access times. *)
Definition oldest_step (s : Store) (acc : string * Z) (key : string) : string * Z :=
  match accessTime s !! key with
  | Some t => if t <? acc.2 then (key, t) else acc
  | None => acc
  end.

Definition evictLRUKeyLocked (now : Z) (perm : list string -> list string) (s : Store) : bool * Store :=
  let sample := take 5 (perm (map_to_list (accessTime s)).*1) in
  let oldest := (fold_left (oldest_step s) sample ("", int64_max)).1 in
  if String.eqb oldest "" then evictRandomKeyLocked now perm false s
  else
    let s := deleteKeyLocked now oldest s in
    (true, s <| accessTime ::= delete oldest |> <| memEstimate := 0 |>).

Definition oom : string := "OOM command not allowed when used memory > 'maxmemory'".

(** The loop of [EvictIfNeeded]; [None] when the fuel does not suffice. *)
Fixpoint evict_loop (fuel : nat) (now : Z) (perm : nat -> list string -> list string) (s : Store)
    : option (result unit * Store) :=
  match fuel with
  | O => None
  | S fuel =>
      let '(mem, s) := estimateMemoryLocked s in
      if mem >? maxMemory s then
        let policy := evictPolicy s in
        if String.eqb policy "noeviction" || String.eqb policy "" then Some (Err oom, s)
        else if String.eqb policy "allkeys-random" then
          let '(ok, s) := evictRandomKeyLocked now (perm fuel) false s in
          if ok then evict_loop fuel now perm s else Some (Ok tt, s)
        else if String.eqb policy "volatile-random" then
          let '(ok, s) := evictRandomKeyLocked now (perm fuel) true s in
          if ok then evict_loop fuel now perm s else Some (Err oom, s)
        else if String.eqb policy "allkeys-lru" then
          let '(ok, s) := evictLRUKeyLocked now (perm fuel) s in
          if ok then evict_loop fuel now perm s else Some (Ok tt, s)
        else Some (Ok tt, s)
      else Some (Ok tt, s)
  end.

Definition EvictIfNeeded (fuel : nat) (now : Z) (perm : nat -> list string -> list string) (s : Store)
    : option (result unit * Store) :=
  if maxMemory s <=? 0 then Some (Ok tt, s) else evict_loop fuel now perm s.

(** ** The sliding window *)

(** RATELIMIT on a key, and the background sweep, at a clock reading. *)
Inductive rl_event :=
| RLCall (now : Z) (key : string)
| RLSweep (now : Z) (order tagOrder : list string).

Definition rl_time (e : rl_event) : Z := match e with RLCall now _ => now | RLSweep now _ _ => now end.

(** A key without a deadline keeps its limiter through the sweep. *)
Definition limiter_kept (k : string) (s s' : Store) : Prop :=
  expires s !! k = None -> rateLimiters s' !! k = rateLimiters s !! k /\ expires s' !! k = None.

Lemma limiter_kept_trans k s1 s2 s3 : limiter_kept k s1 s2 -> limiter_kept k s2 s3 -> limiter_kept k s1 s3.
Proof. intros H1 H2 H0. destruct (H1 H0) as [<- He]. by apply H2. Qed.

Lemma limiter_kept_fold {A} k (f : Store -> A -> Store) l s :
  (forall s x, limiter_kept k s (f s x)) -> limiter_kept k s (fold_left f l s).
Proof.
  intros Hf. revert s. induction l as [|x l IH]; intros s; [by split|]. cbn.
  by eapply limiter_kept_trans.
Qed.

Lemma delete_limiter_kept now key k s :
  is_Some (expires s !! key) -> limiter_kept k s (deleteKeyLocked now key s).
Proof.
  intros [t Ht] Hk. destruct (delete_shape now key s) as (? & ? & ? & ? & -> & _). unfold without. store_cbn.
  assert (k <> key) by congruence. by rewrite !lookup_delete_ne.
Qed.

Lemma expiredKey_limiter_kept now key k s : limiter_kept k s (expiredKeyLocked now key s).2.
Proof.
  unfold expiredKeyLocked. destruct (expires s !! key) as [t|] eqn:E; [|by split].
  case_match; [by split|]. apply delete_limiter_kept. by exists t.
Qed.

Lemma exists_limiter_kept now key k s : limiter_kept k s (existsLocked now key s).2.
Proof.
  pose proof (expiredKey_limiter_kept now key k s) as H1. unfold existsLocked.
  destruct (expiredKeyLocked now key s) as [b s1]. destruct b; [done|]. case_match; [done|].
  unfold existsStringLocked. pose proof (expiredKey_limiter_kept now key k s1) as H2.
  destruct (expiredKeyLocked now key s1) as [b s2]. cbn in *.
  destruct b; by eapply limiter_kept_trans.
Qed.

Lemma sample_limiter_kept now k s key : limiter_kept k s (sample_key now s key).
Proof.
  unfold sample_key. destruct (expires s !! key) as [t|] eqn:E; [|by split].
  case_match; [|by split]. destruct (fire_shape "expired" key s) as [q ->].
  apply (limiter_kept_trans k _ (s <| onChangeQueue := q |>)); [by split|].
  apply delete_limiter_kept. by exists t.
Qed.

Lemma sweep_limiters now order tagOrder k s :
  expires s !! k = None ->
  expires (sampleExpired now order tagOrder s) !! k = None /\
  rateLimiters (sampleExpired now order tagOrder s) !! k =
    match rateLimiters s !! k with
    | Some rl => if stale_limiter now rl then None else Some rl
    | None => None
    end.
Proof.
  intros Hk. unfold sampleExpired.
  destruct (limiter_kept_fold k (sample_key now) (take 100 order) s
    (fun s x => sample_limiter_kept now k s x) Hk) as [H1 H2].
  set (s1 := fold_left (sample_key now) (take 100 order) s) in *. clearbody s1.
  set (s2 := s1 <| rateLimiters ::= filter (fun p => stale_limiter now p.2 = false) |>
                <| notBefore ::= filter (fun p => (p.2 <? now) = false) |>).
  assert (limiter_kept k s2 (sweep_tags now tagOrder s2)) as Ht.
  { unfold sweep_tags. apply limiter_kept_fold. intros s3 x.
    pose proof (exists_limiter_kept now x k s3) as H3. destruct (existsLocked now x s3) as [[] s4]; [done|].
    eapply limiter_kept_trans; [exact H3|]. by split. }
  destruct (Ht H2) as [-> He]. split; [done|]. unfold s2. store_cbn. rewrite <-H1.
  destruct (rateLimiters s1 !! k) as [rl|] eqn:Er.
  - destruct (stale_limiter now rl) eqn:Es.
    + apply map_lookup_filter_None. right. intros x Hx. rewrite Er in Hx. injection Hx as <-. cbn. by rewrite Es.
    + by apply map_lookup_filter_Some.
  - apply map_lookup_filter_None. by left.
Qed.

Section RateLimiting.
(** The limit and window each key is called with. *)
Context (max window : string -> Z).

(** The times at which each key was allowed, or [Panic]. *)
Fixpoint rl_run (evs : list rl_event) (s : Store) : outcome (list (string * Z)) * Store :=
  match evs with
  | [] => (Ret [], s)
  | RLCall now key :: evs =>
      let '(r, s) := RateLimit now key (max key) (window key) s in
      match r with
      | Panic => (Panic, s)
      | Ret v =>
          let '(log, s) := rl_run evs s in
          (match log with
           | Ret log => Ret (if v_allowed v then (key, now) :: log else log)
           | Panic => Panic
           end, s)
      end
  | RLSweep now order tagOrder :: evs => rl_run evs (sampleExpired now order tagOrder s)
  end.

Definition times_of (key : string) (log : list (string * Z)) : list Z :=
  (filter (fun p => p.1 = key) log).*2.

Definition requests (key : string) (s : Store) : list Z :=
  match rateLimiters s !! key with Some rl => Requests rl | None => [] end.

(** The requests counted in the window that ends at [t]. *)
Definition counted (key : string) (t : Z) (h : list Z) : Z :=
  zlen (filter (fun a => t - window key < a <= t) h).

Hypothesis Hmax : forall key, 0 < max key.
Hypothesis Hwindow : forall key, 0 <= window key < 2 ^ 62.

(** [h] is the history of allowed times up to the clock reading [T]. *)
Record rl_inv (key : string) (h : list Z) (T : Z) (s : Store) : Prop := {
  rl_expires : expires s !! key = None;
  rl_window : forall rl, rateLimiters s !! key = Some rl -> Window rl = window key /\
                StronglySorted Z.le (Requests rl);
  rl_kept : forall c, T - window key <= c -> filter (fun a => c < a) (requests key s) = filter (fun a => c < a) h;
  rl_past : Forall (fun a => a <= T) h;
  rl_bound : forall t, counted key t h <= max key
}.

Lemma neg_window key : wrap64 (- window key) = - window key.
Proof. apply wrap64_id. pose proof (Hwindow key). unfold in_int64, int64_min, int64_max. lia. Qed.

Lemma rl_inv_later key h T T' s : T <= T' -> rl_inv key h T s -> rl_inv key h T' s.
Proof.
  intros HT H. split; try apply H.
  - intros c Hc. apply (rl_kept _ _ _ _ H). lia.
  - eapply Forall_impl; [apply H|]. cbn. lia.
Qed.

Lemma touch_limiters now keys s :
  rateLimiters (touchKeyLocked now keys s) = rateLimiters s /\ expires (touchKeyLocked now keys s) = expires s.
Proof. destruct (touch_shape now keys s) as (? & ? & ? & ? & ->). done. Qed.

(** What [RateLimit] answers and stores, given the requests in the window. *)
Lemma RateLimit_cases now key s :
  let valid := filter (fun a => now - window key < a) (requests key s) in
  exists v s', RateLimit now key (max key) (window key) s = (Ret v, s') /\
    (v_allowed v = true <-> zlen valid < max key) /\
    rateLimiters s' = <[key := mkRL (window key) (max key) (if v_allowed v then valid ++ [now] else valid)]>
                        (rateLimiters s) /\
    expires s' = expires s.
Proof.
  intros valid0. unfold RateLimit, in_window. rewrite neg_window. fold (requests key s).
  assert (filter (fun t => now + - window key < t) (requests key s) = valid0) as ->.
  { apply filter_iff_in. intros x _. lia. }
  generalize valid0. clear valid0. intros valid. rewrite Z.geb_leb. destruct (Z.leb_spec (max key) (zlen valid)) as [Hle|Hlt].
  - destruct valid as [|a valid].
    { pose proof (Hmax key). rewrite zlen_nil in Hle. lia. }
    eexists _, _. split; [done|]. cbn [v_allowed]. split; [split; [done|lia]|]. done.
  - eexists _, _. split; [done|]. cbn [v_allowed]. split; [split; [lia|done]|].
    match goal with |- context [touchKeyLocked now ?l ?t] => destruct (touch_limiters now l t) as [-> ->] end.
    unfold put_limiter. store_cbn. split; [|done]. by rewrite insert_insert_eq.
Qed.

Lemma filter_filter_gt (l : list Z) b c : b <= c ->
  filter (fun a => c < a) (filter (fun a => b < a) l) = filter (fun a => c < a) l.
Proof.
  intros H. rewrite list_filter_filter. apply filter_iff_in. intros x _. lia.
Qed.

Lemma counted_le key t now h :
  Forall (fun a => a <= now) h -> now <= t ->
  counted key t (h ++ [now]) <= zlen (filter (fun a => now - window key < a) h) + 1.
Proof.
  intros Hp Ht. unfold counted. rewrite filter_app, zlen_app.
  assert (zlen (filter (fun a => t - window key < a <= t) [now]) <= 1) as H1.
  { rewrite filter_cons, filter_nil. case_decide; unfold zlen; cbn; lia. }
  enough (zlen (filter (fun a => t - window key < a <= t) h) <= zlen (filter (fun a => now - window key < a) h))
    by lia.
  assert (filter (fun a => t - window key < a <= t) h
          = filter (fun a => t - window key < a <= t) (filter (fun a => now - window key < a) h)) as ->.
  { rewrite list_filter_filter. apply filter_iff_in. intros x _. lia. }
  unfold zlen. pose proof (length_filter (fun a => t - window key < a <= t)
    (filter (fun a => now - window key < a) h)). lia.
Qed.

(** A request allowed now: the bound holds for the longer history. *)
Lemma counted_snoc key now h :
  Forall (fun a => a <= now) h -> (forall t, counted key t h <= max key) ->
  zlen (filter (fun a => now - window key < a) h) < max key ->
  forall t, counted key t (h ++ [now]) <= max key.
Proof.
  intros Hp Hb Hlt t. destruct (decide (now <= t)) as [Hle|Hgt].
  - pose proof (counted_le key t now h Hp Hle). lia.
  - unfold counted in *. rewrite filter_app, filter_cons, filter_nil, decide_False by lia.
    rewrite app_nil_r. apply Hb.
Qed.

Lemma rl_call key h T s now :
  rl_inv key h T s -> T <= now ->
  exists v s', RateLimit now key (max key) (window key) s = (Ret v, s') /\
    rl_inv key (if v_allowed v then h ++ [now] else h) now s' /\
    (forall k h' T', k <> key -> rl_inv k h' T' s -> rl_inv k h' T' s').
Proof.
  intros H HT. apply (rl_inv_later _ _ _ _ _ HT) in H.
  destruct (RateLimit_cases now key s) as (v & s' & E & Hv & Hrl & Hexp).
  set (valid := filter (fun a => now - window key < a) (requests key s)) in *.
  assert (valid = filter (fun a => now - window key < a) h) as Hvalid.
  { apply (rl_kept _ _ _ _ H). lia. }
  exists v, s'. split; [done|]. split.
  - assert (requests key s' = if v_allowed v then valid ++ [now] else valid) as Hreq.
    { unfold requests. by rewrite Hrl, lookup_insert_eq. }
    assert (StronglySorted Z.le valid) as Hsort.
    { apply StronglySorted_filter. unfold requests. destruct (rateLimiters s !! key) as [rl|] eqn:Er; [|constructor].
      by apply (rl_window _ _ _ _ H rl). }
    assert (Forall (fun a => a <= now) valid) as Hpast.
    { rewrite Hvalid. rewrite Forall_forall. intros x [_ Hx]%list_elem_of_filter.
      pose proof (rl_past _ _ _ _ H) as HF. rewrite Forall_forall in HF. by apply HF. }
    split.
    + rewrite Hexp. apply H.
    + intros rl. rewrite Hrl, lookup_insert_eq. intros [= <-]. split; [done|]. cbn [Requests].
      destruct (v_allowed v); [by apply StronglySorted_snoc|done].
    + intros c Hc. rewrite Hreq. destruct (v_allowed v); rewrite ?filter_app, Hvalid, filter_filter_gt by lia; done.
    + destruct (v_allowed v); [|apply H]. apply Forall_app. split; [apply H|]. by apply Forall_singleton.
    + destruct (v_allowed v) eqn:Ea; [|apply H]. apply counted_snoc; [apply H|apply H|].
      rewrite <-Hvalid. by apply Hv.
  - intros k h' T' Hk H'. assert (rateLimiters s' !! k = rateLimiters s !! k) as Hk'.
    { by rewrite Hrl, lookup_insert_ne. }
    split; try apply H'.
    + rewrite Hexp. apply H'.
    + intros rl. rewrite Hk'. apply H'.
    + unfold requests. rewrite Hk'. apply H'.
Qed.

Lemma rl_sweep key h T s now order tagOrder :
  rl_inv key h T s -> T <= now -> rl_inv key h now (sampleExpired now order tagOrder s).
Proof.
  intros H HT. apply (rl_inv_later _ _ _ _ _ HT) in H.
  destruct (sweep_limiters now order tagOrder key s (rl_expires _ _ _ _ H)) as [He Hr].
  split; [done| | |apply H|apply H].
  - intros rl. rewrite Hr. destruct (rateLimiters s !! key) as [rl0|] eqn:E; [|done].
    case_match; [done|]. intros [= <-]. by apply (rl_window _ _ _ _ H).
  - intros c Hc. rewrite <-(rl_kept _ _ _ _ H c Hc). unfold requests. rewrite Hr.
    destruct (rateLimiters s !! key) as [rl|] eqn:E; [|done].
    destruct (stale_limiter now rl) eqn:Es; [|done].
    destruct (rl_window _ _ _ _ H rl E) as [Hw Hsort]. rewrite filter_nil. symmetry.
    apply filter_none. intros x Hx. unfold stale_limiter in Es.
    destruct (last (Requests rl)) as [newest|] eqn:El.
    + assert (x <= newest) by (destruct (StronglySorted_last _ _ _ _ Hsort El Hx); [by subst|done]).
      apply Z.ltb_lt in Es. pose proof (Hwindow key). rewrite Hw, wrap64_id in Es.
      * unfold time_sub, int64_max, int64_min in Es. lia.
      * unfold in_int64, int64_min, int64_max. lia.
    + apply last_None in El. rewrite El in Hx. by apply not_elem_of_nil in Hx.
Qed.

Lemma times_of_cons key k now log b :
  times_of key (if b : bool then (k, now) :: log else log) =
  (if b && bool_decide (k = key) then [now] else []) ++ times_of key log.
Proof.
  destruct b; [|done]. unfold times_of. rewrite filter_cons. cbn [fst]. case_bool_decide; by case_decide.
Qed.

Lemma rl_run_inv evs : forall T s h key,
  StronglySorted Z.le (T :: (rl_time <$> evs)) ->
  (forall k, exists h, rl_inv k h T s) -> rl_inv key h T s ->
  exists log s' T', rl_run evs s = (Ret log, s') /\ rl_inv key (h ++ times_of key log) T' s'.
Proof.
  induction evs as [|ev evs IH]; intros T s h key Hs Hall H.
  - exists [], s, T. split; [done|]. unfold times_of. cbn. by rewrite app_nil_r.
  - cbn [fmap list_fmap] in Hs. apply StronglySorted_inv in Hs as [Hs HF].
    apply Forall_cons in HF as [HT _]. destruct ev as [now k|now order tagOrder]; cbn [rl_time rl_run] in *.
    + destruct (Hall k) as [hk Hk].
      destruct (rl_call k hk T s now Hk HT) as (v & s1 & E & Hk1 & Hothers). rewrite E.
      assert (forall k' h', rl_inv k' h' T s ->
                rl_inv k' (h' ++ if v_allowed v && bool_decide (k = k') then [now] else []) now s1) as Hstep.
      { intros k' h' H'. case_bool_decide as Hkk.
        - subst k'. destruct (rl_call k h' T s now H' HT) as (v' & s1' & E' & Hk' & _).
          rewrite E in E'. injection E' as <- <-. rewrite andb_true_r. destruct (v_allowed v); by rewrite ?app_nil_r.
        - rewrite andb_false_r, app_nil_r. apply (rl_inv_later _ _ T); [done|]. by apply Hothers. }
      destruct (IH now s1 (h ++ if v_allowed v && bool_decide (k = key) then [now] else []) key) as
        (log & s' & T' & -> & Hinv).
      * done.
      * intros k'. destruct (Hall k') as [h' H']. eexists. by apply Hstep.
      * by apply Hstep.
      * eexists _, s', T'. split; [done|]. by rewrite times_of_cons, app_assoc.
    + destruct (IH now (sampleExpired now order tagOrder s) h key) as (log & s' & T' & -> & Hinv).
      * done.
      * intros k'. destruct (Hall k') as [h' H']. exists h'. by apply (rl_sweep _ _ T).
      * by apply (rl_sweep _ _ T).
      * by exists log, s', T'.
Qed.

(** C20: the sliding window is enforced.  From a state without limiters and deadlines, any interleaving
    of RATELIMIT calls on any keys (each key with a fixed positive limit and window) and of the
    background sweep, at clock readings that do not go back, never panics, and no window of the given
    length, wherever it is placed, holds more allowed requests of a key than its limit. *)
Theorem rate_limit_window evs s :
  rateLimiters s = ∅ -> expires s = ∅ -> StronglySorted Z.le (rl_time <$> evs) ->
  exists log s', rl_run evs s = (Ret log, s') /\
    forall key t, counted key t (times_of key log) <= max key.
Proof.
  intros Hr He Hs.
  assert (exists T, StronglySorted Z.le (T :: (rl_time <$> evs))) as [T HsT].
  { destruct evs as [|ev evs]; [exists 0; repeat constructor|].
    exists (rl_time ev). cbn [fmap list_fmap] in *. constructor; [done|].
    apply StronglySorted_inv in Hs as [_ HF]. by constructor. }
  assert (forall k, rl_inv k [] T s) as H0.
  { intros k. assert (0 < max k) by apply Hmax. split.
    - by rewrite He, lookup_empty.
    - intros rl. by rewrite Hr, lookup_empty.
    - intros c _. unfold requests. by rewrite Hr, lookup_empty.
    - constructor.
    - intros t. unfold counted. rewrite filter_nil, zlen_nil. lia. }
  destruct (rl_run_inv evs T s [] "" HsT (fun k => ex_intro _ _ (H0 k)) (H0 "")) as (log & s' & T' & E & _).
  exists log, s'. split; [done|]. intros key t.
  destruct (rl_run_inv evs T s [] key HsT (fun k => ex_intro _ _ (H0 k)) (H0 key)) as (log' & s'' & T'' & E' & H).
  rewrite E in E'. injection E' as <- <-. apply H.
Qed.

End RateLimiting.

(** Two requests per 10 ns on a key: the third of a burst is refused, a later
    one is allowed again, and the sweep runs in between. *)
Definition burst : list rl_event :=
  [RLCall 100 "u"; RLCall 101 "u"; RLCall 102 "u"; RLCall 103 "v"; RLSweep 104 [] []; RLCall 111 "u"].

Lemma rate_limit_window_witness :
  StronglySorted Z.le (rl_time <$> burst) /\
  exists log s', rl_run (fun _ => 2) (fun _ => 10) burst New = (Ret log, s') /\
    forall key t, counted (fun _ => 10) key t (times_of key log) <= 2.
Proof.
  assert (StronglySorted Z.le (rl_time <$> burst)) as Hs by (repeat constructor; cbn; lia).
  split; [exact Hs|].
  exact (rate_limit_window (fun _ => 2) (fun _ => 10) (fun _ => eq_refl) ltac:(intros; cbn; lia)
    burst New eq_refl eq_refl Hs).
Defined.

Example burst_allowed :
  (rl_run (fun _ => 2) (fun _ => 10) burst New).1 = Ret [("u", 100); ("u", 101); ("v", 103); ("u", 111)].
Proof. vm_compute. reflexivity. Qed.

(** RATELIMIT with a limit that is not positive, which the command accepts, indexes the empty
    request list and panics on a key that has no limiter yet. *)
Theorem rate_limit_nonpositive_panics now key max window s :
  max <= 0 -> rateLimiters s !! key = None -> (RateLimit now key max window s).1 = Panic.
Proof.
  intros Hm Hk. unfold RateLimit. rewrite Hk. unfold in_window. rewrite filter_nil, zlen_nil.
  by rewrite Z.geb_leb, (proj2 (Z.leb_le _ _)).
Qed.

Lemma rate_limit_nonpositive_panics_witness :
  rateLimiters New !! "u" = None /\ (RateLimit 0 "u" 0 60 New).1 = Panic.
Proof.
  split; [reflexivity|].
  exact (rate_limit_nonpositive_panics 0 "u" 0 60 New (Z.le_refl 0) eq_refl).
Defined.

(** ** The eviction loop ends *)

(** Every eviction lowers this number. *)
Definition mu (s : Store) : nat :=
  (2 * (size (kv s) + size (hashes s) + size (lists s) + size (sets s) + size (zsets s)
        + size (streams s) + size (hlls s) + size (expires s)) + size (accessTime s))%nat.

Lemma size_delete_le {A} (m : gmap string A) k : (size (delete k m) <= size m)%nat.
Proof. apply map_subseteq_size, delete_subseteq. Qed.

Lemma size_delete_lt {A} (m : gmap string A) k : is_Some (m !! k) -> (S (size (delete k m)) <= size m)%nat.
Proof.
  intros [x Hx]. rewrite map_size_delete_Some by eauto.
  assert (size m <> 0%nat); [|lia]. intros E. apply map_size_empty_inv in E. subst. by rewrite lookup_empty in Hx.
Qed.

Definition evictable (s : Store) (key : string) : Prop :=
  is_Some (kv s !! key) \/ is_Some (hashes s !! key) \/ is_Some (lists s !! key) \/ is_Some (sets s !! key) \/
  is_Some (zsets s !! key) \/ is_Some (streams s !! key) \/ is_Some (hlls s !! key) \/ is_Some (expires s !! key).

Lemma first_key_in {A} perm (m : gmap string A) k :
  (forall l, perm l ≡ₚ l) -> first_key perm m = Some k -> is_Some (m !! k).
Proof.
  unfold first_key. intros Hp H. apply head_Some_elem_of in H. rewrite Hp in H.
  apply list_elem_of_fmap in H as ([k' x] & -> & Hin%elem_of_map_to_list). by exists x.
Qed.

Lemma first_key_none {A} perm (m : gmap string A) :
  (forall l, perm l ≡ₚ l) -> first_key perm m = None -> m = ∅.
Proof.
  unfold first_key. intros Hp H. apply head_None in H.
  pose proof (Hp (map_to_list m).*1) as Hl. rewrite H in Hl. apply Permutation_nil in Hl.
  apply fmap_nil_inv in Hl. by apply map_to_list_empty_iff.
Qed.

Definition no_data (s : Store) : Prop :=
  kv s = ∅ /\ hashes s = ∅ /\ lists s = ∅ /\ sets s = ∅ /\ zsets s = ∅ /\ streams s = ∅ /\ hlls s = ∅.

Lemma random_key_in perm v s k :
  (forall l, perm l ≡ₚ l) -> random_key perm v s = Some k ->
  evictable s k /\ (v = true -> is_Some (expires s !! k)).
Proof.
  intros Hp. unfold random_key, evictable. destruct v.
  - intros H%first_key_in; [|done]. tauto.
  - intros H. split; [|done]. revert H. repeat (case_match eqn:E; [intros [= ->]; apply first_key_in in E; tauto|clear E]).
    intros E. apply first_key_in in E; tauto.
Qed.

Lemma random_key_none perm v s :
  (forall l, perm l ≡ₚ l) -> random_key perm v s = None -> if v then expires s = ∅ else no_data s.
Proof.
  intros Hp. unfold random_key, no_data. destruct v.
  - by apply first_key_none.
  - repeat (let E := fresh "E" in case_match eqn:E; [done|apply first_key_none in E; [|done]]).
    intros Elast. apply first_key_none in Elast; tauto.
Qed.

(** What the loop keeps of the state it started from. *)
Record evicted (s s' : Store) : Prop := {
  ev_entry : forall k, entry s' k = entry s k \/ entry s' k = no_entry;
  ev_policy : evictPolicy s' = evictPolicy s;
  ev_limit : maxMemory s' = maxMemory s
}.

Lemma evicted_refl s : evicted s s.
Proof. split; [by left|done|done]. Qed.

Lemma evicted_trans s1 s2 s3 : evicted s1 s2 -> evicted s2 s3 -> evicted s1 s3.
Proof.
  intros H1 H2. split.
  - intros k. destruct (ev_entry _ _ H2 k) as [->| ->]; [apply H1|by right].
  - rewrite (ev_policy _ _ H2). apply H1.
  - rewrite (ev_limit _ _ H2). apply H1.
Qed.

Lemma deleted_evicted now key s : evicted s (deleteKeyLocked now key s).
Proof.
  split.
  - intros k. rewrite entry_delete. case_decide; [by right|by left].
  - destruct (delete_shape now key s) as (? & ? & ? & ? & -> & _). done.
  - destruct (delete_shape now key s) as (? & ? & ? & ? & -> & _). done.
Qed.

(** Settings the loop writes that the data do not depend on. *)
Lemma evicted_memEstimate s t v : evicted s t -> evicted s (t <| memEstimate := v |>).
Proof. intros [H1 H2 H3]. by split. Qed.

Lemma evicted_accessTime s t g : evicted s t -> evicted s (t <| accessTime ::= g |>).
Proof. intros [H1 H2 H3]. by split. Qed.

Lemma mu_memEstimate t v : mu (t <| memEstimate := v |>) = mu t.
Proof. reflexivity. Qed.

Lemma entry_memEstimate t v k : entry (t <| memEstimate := v |>) k = entry t k.
Proof. reflexivity. Qed.

Lemma deleted_mu now key s :
  evictable s key -> (mu (deleteKeyLocked now key s) < mu s)%nat.
Proof.
  intros H. destruct (delete_shape now key s) as (? & ? & ? & acc & -> & Hacc).
  assert (size acc <= S (size (accessTime s)))%nat as Ha.
  { pose proof (size_delete_le (accessTime s) key). destruct Hacc as [->| ->]; [lia|].
    rewrite map_size_insert_None by apply lookup_delete_eq. lia. }
  clear Hacc. unfold mu, without. store_cbn.
  pose proof (size_delete_le (kv s) key). pose proof (size_delete_le (hashes s) key).
  pose proof (size_delete_le (lists s) key). pose proof (size_delete_le (sets s) key).
  pose proof (size_delete_le (zsets s) key). pose proof (size_delete_le (streams s) key).
  pose proof (size_delete_le (hlls s) key). pose proof (size_delete_le (expires s) key).
  destruct H as [H|[H|[H|[H|[H|[H|[H|H]]]]]]]; apply size_delete_lt in H; lia.
Qed.

Lemma estimate_cases s :
  exists mem s', estimateMemoryLocked s = (mem, s') /\ memEstimate s' = mem /\ evicted s s' /\ mu s' = mu s /\
    (forall k, entry s' k = entry s k) /\ expires s' = expires s.
Proof.
  unfold estimateMemoryLocked. store_cbn. case_match; (eexists _, _; split; [done|]);
    (split; [done|]); (split; [by split; [left| |]|]); done.
Qed.

Lemma evictRandom_cases now perm v s :
  (forall l, perm l ≡ₚ l) ->
  (evictRandomKeyLocked now perm v s = (false, s) /\ if v then expires s = ∅ else no_data s) \/
  exists key s', evictRandomKeyLocked now perm v s = (true, s') /\ evicted s s' /\ (mu s' < mu s)%nat /\
    (v = true -> is_Some (expires s !! key)) /\ (forall k, k <> key -> entry s' k = entry s k).
Proof.
  intros Hp. unfold evictRandomKeyLocked. destruct (random_key perm v s) as [key|] eqn:E.
  - right. destruct (random_key_in _ _ _ _ Hp E) as [He Hv]. exists key, (evict now key s).
    split; [done|]. unfold evict. split; [|split; [|split; [done|]]].
    + apply evicted_memEstimate, deleted_evicted.
    + rewrite mu_memEstimate. by apply deleted_mu.
    + intros k Hk. rewrite entry_memEstimate. by apply entry_delete_ne.
  - left. split; [done|]. by eapply random_key_none.
Qed.

Lemma oldest_in s l acc :
  acc.1 = "" ->
  let r := fold_left (oldest_step s) l acc in r.1 = "" \/ is_Some (accessTime s !! r.1).
Proof.
  intros Ha. assert (acc.1 = "" \/ is_Some (accessTime s !! acc.1)) as H by by left. clear Ha.
  revert acc H. induction l as [|k l IH]; intros acc H; cbn; [done|]. apply IH.
  unfold oldest_step. destruct (accessTime s !! k) as [t|] eqn:E; [|done]. case_match; [|done].
  right. cbn. by exists t.
Qed.

Lemma deleted_lru_mu now key s :
  is_Some (accessTime s !! key) -> (mu (deleteKeyLocked now key s <| accessTime ::= delete key |>) < mu s)%nat.
Proof.
  intros H. destruct (delete_shape now key s) as (? & ? & ? & acc & -> & Hacc).
  assert (size (delete key acc) = size (delete key (accessTime s)))%nat as Ha.
  { destruct Hacc as [->| ->]; rewrite ?delete_insert_eq, delete_delete_eq; done. }
  clear Hacc. unfold mu, without. store_cbn. rewrite Ha.
  pose proof (size_delete_le (kv s) key). pose proof (size_delete_le (hashes s) key).
  pose proof (size_delete_le (lists s) key). pose proof (size_delete_le (sets s) key).
  pose proof (size_delete_le (zsets s) key). pose proof (size_delete_le (streams s) key).
  pose proof (size_delete_le (hlls s) key). pose proof (size_delete_le (expires s) key).
  apply size_delete_lt in H. lia.
Qed.

Lemma evictLRU_cases now perm s :
  (forall l, perm l ≡ₚ l) ->
  (evictLRUKeyLocked now perm s = (false, s) /\ no_data s) \/
  exists s', evictLRUKeyLocked now perm s = (true, s') /\ evicted s s' /\ (mu s' < mu s)%nat.
Proof.
  intros Hp. unfold evictLRUKeyLocked.
  destruct (oldest_in s (take 5 (perm (map_to_list (accessTime s)).*1)) ("", int64_max)) as [E|E];
    [reflexivity| |].
  - rewrite E. change (String.eqb "" "") with true. cbv iota.
    destruct (evictRandom_cases now perm false s Hp) as [H|(key & s' & H1 & H2 & H3 & _)]; [by left|].
    right. by exists s'.
  - set (oldest := (fold_left _ _ _).1) in *. clearbody oldest.
    destruct (String.eqb oldest "") eqn:Eo.
    + destruct (evictRandom_cases now perm false s Hp) as [H|(key & s' & H1 & H2 & H3 & _)]; [by left|].
      right. by exists s'.
    + right. eexists. split; [done|]. split.
      * apply evicted_memEstimate, evicted_accessTime, deleted_evicted.
      * rewrite mu_memEstimate. by apply deleted_lru_mu.
Qed.

(** What holds when the loop returns [r] in [s']. *)
Definition evict_done (s : Store) (r : result unit) (s' : Store) : Prop :=
  evicted s s' /\
  (evictPolicy s = "volatile-random" -> forall k, expires s !! k = None -> entry s' k = entry s k) /\
  match r with
  | Err _ => memEstimate s' > maxMemory s /\
      (evictPolicy s = "volatile-random" /\ expires s' = ∅ \/
       (evictPolicy s = "noeviction" \/ evictPolicy s = "") /\ forall k, entry s' k = entry s k)
  | Ok _ => memEstimate s' <= maxMemory s \/ no_data s' \/
      evictPolicy s ∉ ["noeviction"; ""; "allkeys-random"; "volatile-random"; "allkeys-lru"]
  end.

Lemma evict_done_step s s1 r s' :
  evicted s s1 ->
  (evictPolicy s = "volatile-random" -> forall k, expires s !! k = None ->
     entry s1 k = entry s k /\ expires s1 !! k = None) ->
  evictPolicy s <> "noeviction" -> evictPolicy s <> "" ->
  evict_done s1 r s' -> evict_done s r s'.
Proof.
  intros H1 Hv Hn He (H2 & Hv' & Hr).
  pose proof (ev_policy _ _ H1) as Hp. pose proof (ev_limit _ _ H1) as Hl. rewrite Hp, Hl in *.
  split; [by eapply evicted_trans|]. split.
  - intros Hpol k Hk. destruct (Hv Hpol k Hk) as [Hentry Hexp]. rewrite <-Hentry. by apply Hv'.
  - destruct r as [u|msg]; [done|]. destruct Hr as [Hmem [H|[[?|?] _]]]; [|done|done]. split; [done|]. by left.
Qed.

Lemma evict_loop_done perm now :
  (forall n l, perm n l ≡ₚ l) ->
  forall fuel s, (mu s < fuel)%nat -> exists r s', evict_loop fuel now perm s = Some (r, s') /\ evict_done s r s'.
Proof.
  intros Hp. induction fuel as [|fuel IH]; intros s Hmu; [lia|]. cbn [evict_loop].
  destruct (estimate_cases s) as (mem & s1 & -> & Hmem & Hev & Hmu1 & Hent & Hexp).
  pose proof (ev_policy _ _ Hev) as Hpol. pose proof (ev_limit _ _ Hev) as Hlim.
  rewrite Hlim, Hpol. rewrite Z.gtb_ltb. destruct (Z.ltb_spec (maxMemory s) mem) as [Hgt|Hle].
  2:{ exists (Ok tt), s1. split; [done|]. split; [done|]. split; [done|]. left. lia. }
  destruct (String.eqb_spec (evictPolicy s) "noeviction") as [E1|E1]; cbn [orb].
  { exists (Err oom), s1. split; [done|]. split; [done|]. split; [done|]. split; [lia|]. right. tauto. }
  destruct (String.eqb_spec (evictPolicy s) "") as [E2|E2].
  { exists (Err oom), s1. split; [done|]. split; [done|]. split; [done|]. split; [lia|]. right. tauto. }
  assert (forall s2, evicted s1 s2 -> (mu s2 < mu s1)%nat ->
            (evictPolicy s = "volatile-random" -> forall k, expires s !! k = None ->
               entry s2 k = entry s1 k /\ expires s2 !! k = None) ->
            exists r s', evict_loop fuel now perm s2 = Some (r, s') /\ evict_done s r s') as Hnext.
  { intros s2 H12 Hm2 Hv. destruct (IH s2 ltac:(lia)) as (r & s' & -> & Hd). exists r, s'. split; [done|].
    apply (evict_done_step s s2); [by eapply evicted_trans| |done|done|done].
    intros Hvp k Hk. rewrite <-(Hent k). by apply Hv. }
  destruct (String.eqb_spec (evictPolicy s) "allkeys-random") as [E3|E3].
  { destruct (evictRandom_cases now (perm fuel) false s1 (Hp fuel)) as [[-> Hnone]|(key & s2 & -> & H12 & Hm2 & _)].
    - exists (Ok tt), s1. split; [done|]. split; [done|]. split; [done|]. tauto.
    - apply Hnext; [done|done|]. by rewrite E3. }
  destruct (String.eqb_spec (evictPolicy s) "volatile-random") as [E4|E4].
  { destruct (evictRandom_cases now (perm fuel) true s1 (Hp fuel))
      as [[-> Hnone]|(key & s2 & -> & H12 & Hm2 & Hkey & Hoth)].
    - exists (Err oom), s1. split; [done|]. split; [done|]. split; [done|]. split; [lia|]. by left.
    - apply Hnext; [done|done|]. intros _ k Hk. destruct (Hkey eq_refl) as [t Ht]. rewrite <-Hexp in Hk.
      assert (k <> key) as Hne by congruence. rewrite (Hoth k Hne). split; [done|].
      change (e_expire (entry s2 k) = None). rewrite (Hoth k Hne). done. }
  destruct (String.eqb_spec (evictPolicy s) "allkeys-lru") as [E5|E5].
  { destruct (evictLRU_cases now (perm fuel) s1 (Hp fuel)) as [[-> Hnone]|(s2 & -> & H12 & Hm2)].
    - exists (Ok tt), s1. split; [done|]. split; [done|]. split; [done|]. tauto.
    - apply Hnext; [done|done|]. by rewrite E5. }
  exists (Ok tt), s1. split; [done|]. split; [done|]. split; [done|]. right. right. set_solver.
Qed.

(** C21: the eviction loop ends and evicts only what its policy allows.  Whatever orders Go visits the
    maps in, the loop returns after at most [mu s + 1] rounds ([mu] counts keys, deadlines and access
    times); every key is left as it was or removed whole; under volatile-random keys without a deadline
    are untouched; it reports OOM only under noeviction (and then removes nothing) or when no key with a
    deadline is left, and otherwise the size estimate is within the limit, or no key of a counted type
    is left, or the policy is unknown. *)
Theorem evict_terminates now perm s :
  (forall n l, perm n l ≡ₚ l) -> 0 < maxMemory s ->
  exists r s', EvictIfNeeded (S (mu s)) now perm s = Some (r, s') /\ evict_done s r s'.
Proof.
  intros Hp Hm. unfold EvictIfNeeded. rewrite (proj2 (Z.leb_gt _ _) Hm). apply evict_loop_done; [done|lia].
Qed.

(** Three strings over the limit of 150 bytes, evicted at random. *)
Definition crowded : Store :=
  SetEvictPolicy "allkeys-random" (SetMaxMemory 150
    (New <| kv := {["a" := "1"; "b" := "2"; "c" := "3"]} |>)).

Lemma evict_terminates_witness :
  0 < maxMemory crowded /\
  exists r s', EvictIfNeeded (S (mu crowded)) 0 (fun _ l => l) crowded = Some (r, s') /\ evict_done crowded r s'.
Proof.
  assert (0 < maxMemory crowded) as H by (vm_compute; reflexivity).
  split; [exact H|]. exact (evict_terminates 0 (fun _ l => l) crowded (fun _ l => Permutation_refl l) H).
Defined.

Example crowded_evicted :
  match EvictIfNeeded (S (mu crowded)) 0 (fun _ l => l) crowded with
  | Some (Ok _, s) => size (kv s) = 2%nat
  | _ => False
  end.
Proof. vm_compute. reflexivity. Qed.

End Limits.
