(* ===== verification/StoreStreams.v ===== *)
(** * Streams and consumer groups of internal/store/store.go

    Stream identifiers, XADD (also in its two-step form NextStreamID and
    XAddPrepared), XRANGE, XREAD, XTRIM, the consumer groups (XGROUP CREATE,
    XREADGROUP as XReadGroupPlan and XGroupDeliver, XACK, XCLAIM, XAUTOCLAIM,
    XPENDING, XINFO) and clients blocked on streams.  The waiters a new entry
    wakes are closed right after the lock is released; here they are closed by
    the operation itself. *)
From S2P Require Import Prelude GoLib Store StoreStrings.
Import Store Strings.

Module Streams.

(** ** Identifiers *)

(** Parse errors are ignored: the value [ParseInt] returns is used. *)
Definition parseID (id : string) : Z * Z :=
  if String.eqb id "-" then (0, 0)
  else if String.eqb id "+" || String.eqb id "$" then (2 ^ 62 - 1, 2 ^ 62 - 1)
  else match cut_byte "-" id with
       | Some (ms, seq) => ((ParseInt ms).1, (ParseInt seq).1)
       | None => ((ParseInt id).1, 0)
       end.

Definition compareID (a b : string) : Z :=
  if String.eqb b "$" then 1
  else
    let '(a0, a1) := parseID a in
    let '(b0, b1) := parseID b in
    if negb (a0 =? b0) then (if a0 <? b0 then -1 else 1)
    else if a1 <? b1 then -1
    else if a1 >? b1 then 1 else 0.

(** The unused reference definition of the range test. *)
Definition inRange (id start stop : string) : bool :=
  if negb (String.eqb start "-") && (compareID id start <? 0) then false
  else if negb (String.eqb stop "+") && (compareID id stop >? 0) then false
  else true.

Definition entries_of (stream : string) (s : Store) : list StreamEntry := default [] (streams s !! stream).

Definition lastIDLocked (stream : string) (s : Store) : string :=
  match last (entries_of stream s) with Some e => ID e | None => "0-0" end.

Definition seq_of (stream : string) (s : Store) : Z := default 0 (lastSeq s !! stream).

(** ** Adding entries *)

(** JSON documents and time series are not tested. *)
Definition stream_conflict (now : Z) (stream : string) (s : Store) : bool * Store :=
  let '(str, s) := existsStringLocked now stream s in
  (str || has (hashes s) stream || has (lists s) stream || has (sets s) stream
   || has (zsets s) stream || has (hlls s) stream, s).

Definition badID : string := "stream ID must be greater than previous ID".
Definition badFields : string := "wrong number of stream field arguments".

Definition make_id (ms seq : Z) : string := String.append (FormatInt ms) (String "-" (FormatInt seq)).

Definition prepareStreamIDLocked (now : Z) (stream id : string) (s : Store) : result string * Store :=
  if String.eqb id "*" then
    let '(last0, last1) := parseID (lastIDLocked stream s) in
    let ms := UnixMilli now in
    let '(ms, s) := if ms <=? last0 then (last0, s <| lastSeq ::= <[stream := last1]> |>) else (ms, s) in
    let seq := wrap64 (seq_of stream s + 1) in
    (Ok (make_id ms seq), s <| lastSeq ::= <[stream := seq]> |>)
  else if compareID id (lastIDLocked stream s) <=? 0 then (Err badID, s)
  else (Ok id, s <| lastSeq ::= <[stream := (parseID id).2]> |>).

Definition close_waiters (ws : list nat) (s : Store) : Store :=
  s <| waiterHeap ::= fun h => fold_left (fun h w => <[w := true]> h) ws h |>.

Definition addStreamEntryLocked (now : Z) (stream id : string) (fields : list string) (s : Store)
    : list nat * Store :=
  let s := s <| streams ::= <[stream := entries_of stream s ++ [mkEntry id fields]]> |> in
  let s := touchKeyLocked now [stream] s in
  (default [] (waits s !! stream), s <| waits ::= delete stream |>).

Definition bad_fields (fields : list string) : bool :=
  (zlen fields =? 0) || negb (Z.rem (zlen fields) 2 =? 0).

Definition XAdd (now : Z) (stream id : string) (fields : list string) (s : Store) : result string * Store :=
  if bad_fields fields then (Err badFields, s)
  else
    let '(_, s) := expiredKeyLocked now stream s in
    let '(conflict, s) := stream_conflict now stream s in
    if conflict then (Err wrongType, s)
    else
      let '(r, s) := prepareStreamIDLocked now stream id s in
      match r with
      | Err e => (Err e, s)
      | Ok id =>
          let '(ws, s) := addStreamEntryLocked now stream id fields s in
          (Ok id, close_waiters ws s)
      end.

Definition NextStreamID (now : Z) (stream id : string) (s : Store) : result string * Store :=
  let '(_, s) := expiredKeyLocked now stream s in
  let '(conflict, s) := stream_conflict now stream s in
  if conflict then (Err wrongType, s) else prepareStreamIDLocked now stream id s.

Definition XAddPrepared (now : Z) (stream id : string) (fields : list string) (s : Store) : result unit * Store :=
  if bad_fields fields then (Err badFields, s)
  else
    let '(expired, s) := expiredKeyLocked now stream s in
    if expired then (Err badID, s)
    else if compareID id (lastIDLocked stream s) <=? 0 then (Err badID, s)
    else
      let s := s <| lastSeq ::= <[stream := (parseID id).2]> |> in
      let '(ws, s) := addStreamEntryLocked now stream id fields s in
      (Ok tt, close_waiters ws s).

(** [entries[trimmed:]] is out of range for a negative [maxLen]. *)
Definition XTrim (now : Z) (stream : string) (maxLen : Z) (s : Store) : outcome (result Z) * Store :=
  let l := entries_of stream s in
  if zlen l <=? maxLen then (Ret (Ok 0), s)
  else if maxLen <? 0 then (Panic, s)
  else
    let trimmed := zlen l - maxLen in
    (Ret (Ok trimmed), touchKeyLocked now [stream] (s <| streams ::= <[stream := zdrop trimmed l]> |>)).

(** ** Reading *)

Definition XLen (now : Z) (key : string) (s : Store) : result Z :=
  if isExpiredRLocked now key s then Ok 0
  else if existsStringRLocked now key s || has (hashes s) key || has (lists s) key || has (sets s) key
          || has (zsets s) key || has (hlls s) key || has (jsons s) key || has (timeseries s) key
  then Err wrongType
  else Ok (zlen (entries_of key s)).

Definition LastID (now : Z) (stream : string) (s : Store) : string :=
  if isExpiredRLocked now stream s then "0-0" else lastIDLocked stream s.

Definition no_stream_entry : StreamEntry := mkEntry "" [].
#[export] Instance StreamEntry_inhabited : Inhabited StreamEntry := populate no_stream_entry.

Definition searchStreamStart (l : list StreamEntry) (afterID : string) : Z :=
  Search (zlen l) (fun i => compareID (ID (zget l i)) afterID >? 0).

(** The loop of [XRange]: [out] has [n] entries so far. *)
Fixpoint xrange_loop (stop : string) (count n : Z) (l : list StreamEntry) : list StreamEntry :=
  match l with
  | [] => []
  | e :: l =>
      if negb (String.eqb stop "+") && (compareID (ID e) stop >? 0) then []
      else if (count >? 0) && (n + 1 >=? count) then [e]
      else e :: xrange_loop stop count (n + 1) l
  end.

Definition XRange (now : Z) (stream start stop : string) (count : Z) (s : Store) : list StreamEntry :=
  if isExpiredRLocked now stream s then []
  else
    let l := entries_of stream s in
    if zlen l =? 0 then []
    else
      let begin := if negb (String.eqb start "-")
                   then Search (zlen l) (fun i => compareID (ID (zget l i)) start >=? 0) else 0 in
      xrange_loop stop count 0 (zdrop begin l).

(** [out[stream] = append(out[stream], ...)]: a stream without entries has no key. *)
Definition extend (stream : string) (l : list StreamEntry) (out : gmap string (list StreamEntry))
    : gmap string (list StreamEntry) :=
  match l with [] => out | _ => <[stream := default [] (out !! stream) ++ l]> out end.

Definition XRead (now : Z) (reqs : list (string * string)) (s : Store) : gmap string (list StreamEntry) :=
  fold_left (fun out '(stream, id) =>
    if isExpiredRLocked now stream s then out
    else
      let l := entries_of stream s in
      if zlen l =? 0 then out else extend stream (zdrop (searchStreamStart l id) l) out) reqs ∅.

(** ** Consumer groups *)

Definition group_of (stream group : string) (s : Store) : option ConsumerGroup :=
  match groups s !! stream with Some gs => gs !! group | None => None end.

Definition put_group (stream group : string) (g : ConsumerGroup) (s : Store) : Store :=
  s <| groups ::= fun m => <[stream := <[group := g]> (default ∅ (m !! stream))]> m |>.

Definition noGroup : string := "consumer group does not exist".

Definition XGroupCreate (now : Z) (stream group id : string) (mkstream : bool) (s : Store) : result unit * Store :=
  let '(_, s) := expiredKeyLocked now stream s in
  let '(conflict, s) := stream_conflict now stream s in
  if conflict then (Err wrongType, s)
  else if negb (has (streams s) stream) && negb mkstream then (Err "stream does not exist", s)
  else
    let id := if String.eqb id "$" then lastIDLocked stream s else id in
    let s := s <| groups ::= fun m => <[stream := default ∅ (m !! stream)]> m |> in
    match group_of stream group s with
    | Some _ => (Err "consumer group already exists", s)
    | None => (Ok tt, touchKeyLocked now [stream] (put_group stream group (mkGroup id ∅) s))
    end.

Definition XGroupExists (now : Z) (stream group : string) (s : Store) : bool :=
  if isExpiredRLocked now stream s then false
  else match group_of stream group s with Some _ => true | None => false end.

(** Entries appended one by one until [out[stream]] has [count]; the test
    comes after the append. *)
Fixpoint take_until (count n : Z) (l : list StreamEntry) : list StreamEntry :=
  match l with
  | [] => []
  | e :: l => if n + 1 >=? count then [e] else e :: take_until count (n + 1) l
  end.

Definition pending_for (consumer after : string) (g : ConsumerGroup) (e : StreamEntry) : bool :=
  match Pending g !! ID e with
  | Some p => String.eqb (Consumer p) consumer && (compareID (ID e) after >? 0)
  | None => false
  end.

Fixpoint plan_loop (now : Z) (group consumer : string) (count : Z) (reqs : list (string * string)) (s : Store)
    (out : gmap string (list StreamEntry)) : result (gmap string (list StreamEntry)) :=
  match reqs with
  | [] => Ok out
  | (stream, id) :: reqs =>
      if isExpiredRLocked now stream s then plan_loop now group consumer count reqs s out
      else
        match group_of stream group s with
        | None => Err noGroup
        | Some g =>
            let l := entries_of stream s in
            let n := zlen (default [] (out !! stream)) in
            let found := if String.eqb id ">"
                         then take_until count n (zdrop (searchStreamStart l (Store.LastID g)) l)
                         else take_until count n (filter (fun e => pending_for consumer id g e = true) l) in
            plan_loop now group consumer count reqs s (extend stream found out)
        end
  end.

Definition XReadGroupPlan (now : Z) (group consumer : string) (reqs : list (string * string)) (count : Z) (s : Store)
    : result (gmap string (list StreamEntry)) :=
  plan_loop now group consumer (if count <=? 0 then 10 else count) reqs s ∅.

Definition deliver_one (consumer : string) (delivered : Z) (g : ConsumerGroup) (id : string) : ConsumerGroup :=
  mkGroup (if compareID id (Store.LastID g) >? 0 then id else Store.LastID g)
    (<[id := mkPending consumer delivered]> (Pending g)).

Definition XGroupDeliver (now : Z) (stream group consumer : string) (ids : list string) (delivered : Z) (s : Store)
    : result unit * Store :=
  match group_of stream group s with
  | None => (Err noGroup, s)
  | Some g =>
      let delivered := if IsZero delivered then now else delivered in
      let g := fold_left (deliver_one consumer delivered) ids g in
      (Ok tt, touchKeyLocked now [stream] (put_group stream group g s))
  end.

Definition ack_one (acc : Z * gmap string PendingEntry) (id : string) : Z * gmap string PendingEntry :=
  match acc.2 !! id with Some _ => (acc.1 + 1, delete id acc.2) | None => acc end.

Definition XAck (now : Z) (stream group : string) (ids : list string) (s : Store) : result Z * Store :=
  let '(expired, s) := expiredKeyLocked now stream s in
  if expired then (Ok 0, s)
  else
    match group_of stream group s with
    | None => (Err noGroup, s)
    | Some g =>
        let '(n, p) := fold_left ack_one ids (0, Pending g) in
        let s := put_group stream group (mkGroup (Store.LastID g) p) s in
        (Ok n, if n >? 0 then touchKeyLocked now [stream] s else s)
    end.

Definition idle_enough (now minIdleMs : Z) (p : PendingEntry) : bool :=
  (Z.quot (time_sub now (Delivered p)) (10 ^ 6) >=? minIdleMs) || (minIdleMs =? 0).

(** The first entry with that identifier. *)
Definition find_entry (id : string) (l : list StreamEntry) : list StreamEntry :=
  match List.find (fun e => String.eqb (ID e) id) l with Some e => [e] | None => [] end.

Definition claim_one (now : Z) (consumer : string) (minIdleMs : Z) (l : list StreamEntry)
    (acc : gmap string PendingEntry * list StreamEntry) (id : string) : gmap string PendingEntry * list StreamEntry :=
  match acc.1 !! id with
  | Some p => if idle_enough now minIdleMs p
              then (<[id := mkPending consumer now]> acc.1, acc.2 ++ find_entry id l) else acc
  | None => acc
  end.

Definition XClaim (now : Z) (stream group consumer : string) (minIdleMs : Z) (ids : list string) (s : Store)
    : result (list StreamEntry) * Store :=
  match group_of stream group s with
  | None => (Err noGroup, s)
  | Some g =>
      let '(p, claimed) := fold_left (claim_one now consumer minIdleMs (entries_of stream s)) ids (Pending g, []) in
      let s := put_group stream group (mkGroup (Store.LastID g) p) s in
      (Ok claimed, if zlen claimed >? 0 then touchKeyLocked now [stream] s else s)
  end.

Definition cmp_le (a b : string) : Prop := compareID a b <= 0.
#[export] Instance cmp_le_dec : RelDecision cmp_le.
Proof. intros a b. unfold cmp_le. apply _. Defined.

(** The loop of [XAutoClaim] over the sorted candidates. *)
Fixpoint autoclaim_loop (now : Z) (consumer : string) (minIdleMs count : Z) (l : list StreamEntry)
    (acc : gmap string PendingEntry * list StreamEntry) (ids : list string)
    : string * (gmap string PendingEntry * list StreamEntry) :=
  match ids with
  | [] => ("0-0", acc)
  | id :: ids =>
      if zlen acc.2 >=? count then (id, acc)
      else autoclaim_loop now consumer minIdleMs count l (claim_one now consumer minIdleMs l acc id) ids
  end.

(** [order]: the keys of [Pending] as the map iteration yields them. *)
Definition XAutoClaim (now : Z) (order : list string) (stream group consumer : string) (minIdleMs : Z)
    (startID : string) (count : Z) (s : Store) : string * result (list StreamEntry) * Store :=
  match group_of stream group s with
  | None => ("0-0", Err noGroup, s)
  | Some g =>
      let candidates := merge_sort cmp_le (filter (fun id => (compareID id startID >=? 0) = true) order) in
      let '(nextID, (p, claimed)) :=
        autoclaim_loop now consumer minIdleMs (if count <=? 0 then 100 else count) (entries_of stream s)
          (Pending g, []) candidates in
      let s := put_group stream group (mkGroup (Store.LastID g) p) s in
      (nextID, Ok claimed, if zlen claimed >? 0 then touchKeyLocked now [stream] s else s)
  end.

Definition summary_step (g : ConsumerGroup) (acc : string * string * gmap string Z) (id : string)
    : string * string * gmap string Z :=
  let '(minID, maxID, consumers) := acc in
  match Pending g !! id with
  | None => acc
  | Some p =>
      (if String.eqb minID "" || (compareID id minID <? 0) then id else minID,
       if String.eqb maxID "" || (compareID id maxID >? 0) then id else maxID,
       <[Consumer p := default 0 (consumers !! Consumer p) + 1]> consumers)
  end.

Definition XPendingSummary (order : list string) (stream group : string) (s : Store)
    : Z * string * string * gmap string Z :=
  match group_of stream group s with
  | None => (0, "", "", ∅)
  | Some g =>
      if Z.of_nat (size (Pending g)) =? 0 then (0, "", "", ∅)
      else
        let '(minID, maxID, consumers) := fold_left (summary_step g) order ("", "", ∅) in
        (Z.of_nat (size (Pending g)), minID, maxID, consumers)
  end.

Definition XInfoStream (stream : string) (s : Store) : Z * string * string * Z * bool :=
  let l := entries_of stream s in
  let gs := Z.of_nat (size (default ∅ (groups s !! stream))) in
  match l, last l with
  | first :: _, Some lst => (zlen l, ID first, ID lst, gs, true)
  | _, _ => (0, "0-0", "0-0", gs, has (streams s) stream)
  end.

(** Name, number of consumers, number of pending entries, last identifier. *)
Definition XInfoGroups (order : list string) (stream : string) (s : Store) : list (string * Z * Z * string) :=
  omap (fun name =>
    match group_of stream name s with
    | None => None
    | Some g =>
        let consumers : gset string := list_to_set (Consumer <$> (map_to_list (Pending g)).*2) in
        Some (name, Z.of_nat (size consumers), Z.of_nat (size (Pending g)), Store.LastID g)
    end) order.

(** ** Blocked clients *)

(** [Wait] up to its [select]. *)
Definition Wait_start (names : list string) (s : Store) : nat * Store :=
  let w := nextWaiter s in
  let s := s <| waiterHeap ::= <[w := false]> |> <| nextWaiter ::= S |> in
  (w, s <| waits ::= fun m =>
        fold_left (fun m stream => <[stream := default [] (m !! stream) ++ [w]]> m) names m |>).

(** The deferred [removeWaiter]. *)
Definition removeWaiter (names : list string) (target : nat) (s : Store) : Store :=
  s <| waits ::= fun m =>
    fold_left (fun m stream =>
      match m !! stream with
      | None | Some [] => m
      | Some ws =>
          match filter (fun w => w <> target) ws with
          | [] => delete stream m
          | kept => <[stream := kept]> m
          end
      end) names m |>.

(** ** The order of identifiers *)

Definition lex (p q : Z * Z) : Prop := p.1 < q.1 \/ p.1 = q.1 /\ p.2 < q.2.

#[export] Instance lex_trans : Transitive lex.
Proof. intros [a b] [c d] [e f]. unfold lex. cbn. lia. Qed.

Lemma lex_irrefl p : ~ lex p p.
Proof. destruct p. unfold lex. cbn. lia. Qed.

(** [compareID] is the lexicographic order, except that everything is after [$]. *)
Lemma compareID_cases a b :
  b <> "$" ->
  (compareID a b = -1 /\ lex (parseID a) (parseID b)) \/
  (compareID a b = 1 /\ lex (parseID b) (parseID a)) \/
  (compareID a b = 0 /\ parseID a = parseID b).
Proof.
  intros Hb. unfold compareID, lex. rewrite (proj2 (String.eqb_neq _ _) Hb).
  destruct (parseID a) as [a0 a1], (parseID b) as [b0 b1]. cbn.
  destruct (Z.eqb_spec a0 b0) as [->|]; cbn.
  - destruct (Z.ltb_spec a1 b1); [lia|]. rewrite Z.gtb_ltb. destruct (Z.ltb_spec b1 a1); [lia|].
    right. right. split; [done|]. f_equal. lia.
  - destruct (Z.ltb_spec a0 b0); lia.
Qed.

Lemma compareID_gt a b : b <> "$" -> compareID a b > 0 <-> lex (parseID b) (parseID a).
Proof.
  intros Hb. destruct (compareID_cases a b Hb) as [[-> H]|[[-> H]|[-> H]]].
  - split; [lia|]. intros H'. exfalso. by apply (lex_irrefl (parseID a)); etrans.
  - split; [done|lia].
  - rewrite H. split; [lia|]. intros H'. by apply lex_irrefl in H'.
Qed.

Lemma compareID_ge a b : b <> "$" -> compareID a b >= 0 <-> ~ lex (parseID a) (parseID b).
Proof.
  intros Hb. destruct (compareID_cases a b Hb) as [[-> H]|[[-> H]|[-> H]]].
  - split; [lia|]. intros H'. by destruct H'.
  - split; [|lia]. intros _ H'. by apply (lex_irrefl (parseID a)); etrans.
  - rewrite H. split; [|lia]. intros _. apply lex_irrefl.
Qed.

Lemma parseID_range id : in_int64 (parseID id).1 /\ in_int64 (parseID id).2.
Proof.
  unfold parseID. case_match; [unfold in_int64, int64_min, int64_max; cbn; lia|].
  case_match; [unfold in_int64, int64_min, int64_max; cbn; lia|].
  destruct (cut_byte "-" id) as [[a b]|]; cbn; (split; [apply ParseInt_range|]); [apply ParseInt_range|].
  unfold in_int64, int64_min, int64_max; lia.
Qed.

(** The identifiers the server makes are read back. *)
Lemma make_id_digit ms seq : 0 <= ms -> exists c r, make_id ms seq = String c r /\ is_Some (digit_val c).
Proof.
  intros Hm. unfold make_id, FormatInt. rewrite (proj2 (Z.ltb_ge ms 0)) by done. unfold format_uint.
  destruct (format_loop _ ms "") as [|c r] eqn:E; [by apply format_loop_nonempty in E|].
  exists c, (String.append r (String "-" (if seq <? 0 then String "-" (format_uint (- seq)) else format_uint seq))).
  split; [done|]. by eapply format_loop_head.
Qed.

Lemma make_id_parse ms seq :
  0 <= ms -> in_int64 ms -> in_int64 seq -> parseID (make_id ms seq) = (ms, seq) /\ make_id ms seq <> "$".
Proof.
  intros Hm Hms Hseq. destruct (make_id_digit ms seq Hm) as (c & r & E & [d Hd]).
  assert (forall x, digit_val x = None -> forall t, make_id ms seq <> String x t) as Hne.
  { intros x Hx t Ht. rewrite E in Ht. injection Ht as -> _. congruence. }
  split; [|by apply Hne]. unfold parseID.
  rewrite !(proj2 (String.eqb_neq _ _)) by by apply Hne. cbn [orb].
  unfold make_id. rewrite cut_byte_app.
  - by rewrite !ParseInt_FormatInt.
  - apply cut_byte_none. unfold FormatInt, format_uint. rewrite (proj2 (Z.ltb_ge ms 0)) by done.
    by rewrite digits_no_byte.
Qed.

(** ** Streams are sorted *)

Definition pid (e : StreamEntry) : Z * Z := parseID (ID e).

Definition before (a b : StreamEntry) : Prop := lex (pid a) (pid b).

Record sorted_stream (B : Z) (l : list StreamEntry) (seq : Z) : Prop := {
  ss_sorted : StronglySorted before l;
  ss_entry : Forall (fun e => ID e <> "$" /\ lex (0, 0) (pid e) /\ (pid e).2 <= B) l;
  ss_seq : int64_min <= seq <= B
}.

Definition last_pid (l : list StreamEntry) : Z * Z := match last l with Some e => pid e | None => (0, 0) end.

Lemma lastID_pid stream s : parseID (lastIDLocked stream s) = last_pid (entries_of stream s).
Proof. unfold lastIDLocked, last_pid. by destruct (last _). Qed.

Lemma lastID_not_dollar B stream s seq :
  sorted_stream B (entries_of stream s) seq -> lastIDLocked stream s <> "$".
Proof.
  intros H. unfold lastIDLocked. destruct (last (entries_of stream s)) as [e|] eqn:E; [|done].
  pose proof (ss_entry _ _ _ H) as HF. rewrite Forall_forall in HF. by apply HF, last_Some_elem_of.
Qed.

Lemma last_pid_facts B l seq :
  0 <= B -> sorted_stream B l seq ->
  0 <= (last_pid l).1 /\ in_int64 (last_pid l).1 /\ int64_min <= (last_pid l).2 <= B.
Proof.
  intros HB H. unfold last_pid. destruct (last l) as [e|] eqn:E.
  - pose proof (ss_entry _ _ _ H) as HF. rewrite Forall_forall in HF.
    destruct (HF e (last_Some_elem_of _ _ E)) as (_ & Hl & Hb). unfold pid in *.
    destruct (parseID_range (ID e)) as [H1 H2]. unfold lex in Hl. cbn in Hl. split; [lia|]. split; [done|].
    unfold in_int64 in H2. lia.
  - cbn. unfold in_int64, int64_min, int64_max. lia.
Qed.

Lemma sorted_snoc B l seq id fields seq' :
  sorted_stream B l seq -> id <> "$" -> lex (last_pid l) (parseID id) -> (parseID id).2 <= B ->
  int64_min <= seq' <= B -> sorted_stream B (l ++ [mkEntry id fields]) seq'.
Proof.
  intros [Hs HF Hq] Hd Hlt Hb Hq'.
  assert (forall e, e ∈ l -> lex (pid e) (parseID id)) as Hall.
  { intros e He. unfold last_pid in Hlt. destruct (last l) as [x|] eqn:El.
    - destruct (StronglySorted_last _ _ _ _ Hs El He) as [->|Hex]; [done|]. by transitivity (pid x).
    - apply last_None in El. subst l. by apply not_elem_of_nil in He. }
  split; [|apply Forall_app; split; [done|]|done].
  - apply StronglySorted_snoc; [done|]. rewrite Forall_forall. exact Hall.
  - apply Forall_singleton. split; [done|]. split; [|done]. unfold pid. cbn.
    unfold last_pid in Hlt. destruct (last l) as [x|] eqn:El; [|done].
    rewrite Forall_forall in HF. destruct (HF x (last_Some_elem_of _ _ El)) as (_ & Hx & _). by transitivity (pid x).
Qed.

Lemma sorted_drop B l seq n : sorted_stream B l seq -> sorted_stream B (drop n l) seq.
Proof.
  intros [Hs HF Hq]. split; [| |done].
  - rewrite <-(take_drop n l) in Hs. by apply StronglySorted_app_1_r in Hs.
  - by apply Forall_drop.
Qed.

Lemma sorted_nil B : 0 <= B -> sorted_stream B [] 0.
Proof. intros H. split; [constructor|constructor|unfold int64_min; lia]. Qed.

Lemma sorted_weaken B B' l seq : B <= B' -> sorted_stream B l seq -> sorted_stream B' l seq.
Proof.
  intros HB [Hs HF Hq]. split; [done| |lia]. eapply Forall_impl; [exact HF|]. cbn. intros e (? & ? & ?).
  split; [done|]. split; [done|]. lia.
Qed.

(** *** Operations *)

Definition e_entries (e : Entry) : list StreamEntry := default [] (e_stream e).
Definition sinv (B : Z) (e : Entry) : Prop := sorted_stream B (e_entries e) (default 0 (e_lastSeq e)).

Definition time_ok (now : Z) : Prop := 0 <= UnixMilli now <= int64_max.

(** An identifier a client may give: not [$], and its sequence number leaves
    room to count on. *)
Definition id_ok (B : Z) (id : string) : Prop := id <> "$" /\ (parseID id).2 <= B.

Lemma sinv_live B now e : 0 <= B -> sinv B e -> sinv B (live now e).
Proof. intros HB H. unfold live. case_match; [by apply sorted_nil|done]. Qed.

(** Only the entry of [stream] changes, and it stays sorted. *)
Definition keeps_sorted (B : Z) (stream : string) (s s' : Store) : Prop :=
  (forall k, k <> stream -> entry s' k = entry s k) /\ sinv (B + 1) (entry s' stream).

Lemma sinv_weaken B B' e : B <= B' -> sinv B e -> sinv B' e.
Proof. apply sorted_weaken. Qed.

(** What preparing an identifier leaves: only [lastSeq] of the stream is
    written, and an accepted identifier is after the last entry. *)
Definition prepared (B : Z) (stream : string) (s : Store) (r : result string) (s' : Store) : Prop :=
  (forall k, k <> stream -> entry s' k = entry s k) /\
  (exists q, entry s' stream = entry s stream <| e_lastSeq := q |>) /\
  sinv (B + 1) (entry s' stream) /\
  match r with
  | Ok id' => id' <> "$" /\ lex (last_pid (entries_of stream s)) (parseID id') /\ (parseID id').2 <= B + 1
  | Err _ => True
  end.

Lemma prepared_put B stream s q id' g :
  sinv B (entry s stream) -> int64_min <= q <= B + 1 -> g (lastSeq s) = <[stream := q]> (lastSeq s) ->
  id' <> "$" -> lex (last_pid (entries_of stream s)) (parseID id') -> (parseID id').2 <= B + 1 ->
  prepared B stream s (Ok id') (s <| lastSeq ::= g |>).
Proof.
  intros Hs Hq Hg Hd Hl Hb.
  assert (forall k, entry (s <| lastSeq ::= g |>) k = entry s k <| e_lastSeq := <[stream := q]> (lastSeq s) !! k |>) as He.
  { intros k. rewrite entry_set_lastSeq, Hg. done. }
  split; [|split; [|split]].
  - intros k Hk. rewrite He, lookup_insert_ne by done. reflexivity.
  - by eexists.
  - rewrite He, lookup_insert_eq. destruct (sinv_weaken B (B + 1) _ ltac:(lia) Hs) as [H1 H2 _].
    split; [exact H1|exact H2|done].
  - done.
Qed.

Lemma prepare_sorted B now stream id s :
  0 <= B -> B + 1 <= int64_max -> time_ok now -> id_ok B id -> sinv B (entry s stream) ->
  exists r s', prepareStreamIDLocked now stream id s = (r, s') /\ prepared B stream s r s'.
Proof.
  intros HB HB1 [Ht0 Ht1] [Hd Hseq] Hs. pose proof (ss_seq _ _ _ Hs) as Hq.
  destruct (last_pid_facts B (entries_of stream s) (seq_of stream s) HB Hs) as (Hl0 & Hl0r & Hl1).
  change (default 0 (e_lastSeq (entry s stream))) with (seq_of stream s) in Hq.
  unfold prepareStreamIDLocked. destruct (String.eqb_spec id "*") as [->|Hstar].
  - rewrite lastID_pid. destruct (last_pid (entries_of stream s)) as [last0 last1] eqn:Elast.
    cbn [fst snd] in Hl0, Hl0r, Hl1.
    destruct (Z.leb_spec (UnixMilli now) last0) as [Hle|Hgt].
    + unfold seq_of. store_cbn. rewrite lookup_insert_eq. change (default 0 (Some last1)) with last1.
      rewrite wrap64_id by (unfold in_int64; lia).
      destruct (make_id_parse last0 (last1 + 1) Hl0 Hl0r ltac:(unfold in_int64; lia)) as [Ep Hnd].
      eexists _, _. split; [done|]. apply (prepared_put B stream s (last1 + 1) _
        (fun m => <[stream := last1 + 1]> (<[stream := last1]> m))); [done|lia|by rewrite insert_insert_eq|done| |].
      * rewrite Elast, Ep. unfold lex. cbn. lia.
      * rewrite Ep. cbn. lia.
    + rewrite wrap64_id by (unfold in_int64; lia).
      destruct (make_id_parse (UnixMilli now) (seq_of stream s + 1) Ht0 ltac:(unfold in_int64, int64_min; lia)
        ltac:(unfold in_int64; lia)) as [Ep Hnd].
      eexists _, _. split; [done|]. apply (prepared_put B stream s (seq_of stream s + 1)); [done|lia|done|done| |].
      * rewrite Elast, Ep. unfold lex. cbn. lia.
      * rewrite Ep. cbn. lia.
  - pose proof (lastID_not_dollar B stream s _ Hs) as Hnd.
    destruct (Z.leb_spec (compareID id (lastIDLocked stream s)) 0) as [Hle|Hgt]; (eexists _, _; split; [done|]).
    + split; [done|]. split; [exists (e_lastSeq (entry s stream)); reflexivity|]. split; [|done].
      by apply (sinv_weaken B); [lia|].
    + destruct (parseID_range id) as [_ Hr]. apply (prepared_put B stream s (parseID id).2);
        [done|unfold in_int64 in Hr; lia|done|done| |lia].
      rewrite <-lastID_pid. apply compareID_gt; [done|lia].
Qed.

Lemma add_entry now stream id fields s ws s' :
  addStreamEntryLocked now stream id fields s = (ws, s') ->
  (forall k, k <> stream -> entry (close_waiters ws s') k = entry s k) /\
  entry (close_waiters ws s') stream =
    entry s stream <| e_stream := Some (entries_of stream s ++ [mkEntry id fields]) |>.
Proof.
  unfold addStreamEntryLocked. intros [= _ <-]. unfold close_waiters. split.
  - intros k Hk. autorewrite with entry. store_cbn. rewrite lookup_insert_ne by done. reflexivity.
  - autorewrite with entry. store_cbn. by rewrite lookup_insert_eq.
Qed.

Lemma add_sorted B now stream id fields s ws s' :
  addStreamEntryLocked now stream id fields s = (ws, s') -> sinv B (entry s stream) ->
  id <> "$" -> lex (last_pid (entries_of stream s)) (parseID id) -> (parseID id).2 <= B ->
  (forall k, k <> stream -> entry (close_waiters ws s') k = entry s k) /\
  sinv B (entry (close_waiters ws s') stream).
Proof.
  intros E Hs Hd Hl Hb. destruct (add_entry _ _ _ _ _ _ _ E) as [Ho He]. split; [done|]. rewrite He.
  apply (sorted_snoc B (entries_of stream s) (seq_of stream s)); [exact Hs|done|done|done|].
  apply (ss_seq _ _ _ Hs).
Qed.

Lemma stream_guard now stream s :
  exists b s1, (let '(_, s) := expiredKeyLocked now stream s in stream_conflict now stream s) = (b, s1) /\
    entry s1 stream = live now (entry s stream) /\ (forall k, k <> stream -> entry s1 k = entry s k).
Proof.
  destruct (expiredKey_split now stream s) as (s1 & -> & Hk & Hne & _). unfold stream_conflict.
  rewrite existsString_live by (rewrite Hk; apply e_expired_live). by eexists _, s1.
Qed.

Lemma XAdd_sorted B now stream id fields s :
  0 <= B -> B + 1 <= int64_max -> time_ok now -> id_ok B id -> sinv B (entry s stream) ->
  keeps_sorted B stream s (XAdd now stream id fields s).2.
Proof.
  intros HB HB1 Ht Hid Hs. unfold XAdd. destruct (bad_fields fields).
  { split; [done|]. by apply (sinv_weaken B); [lia|]. }
  destruct (stream_guard now stream s) as (b & s1 & E & Hk & Hne).
  destruct (expiredKeyLocked now stream s) as [x s0]. rewrite E.
  assert (sinv B (entry s1 stream)) as Hs1 by (rewrite Hk; by apply sinv_live).
  destruct b; [split; [done|]; by apply (sinv_weaken B); [lia|]|].
  destruct (prepare_sorted B now stream id s1 HB HB1 Ht Hid Hs1) as (r & s2 & -> & Ho & [q Hq] & Hs2 & Hr).
  destruct r as [id'|msg]; cbn [snd].
  - destruct (addStreamEntryLocked now stream id' fields s2) as [ws s3] eqn:Ea. cbn [snd].
    destruct Hr as (Hd & Hl & Hb). destruct (add_sorted (B + 1) _ _ _ _ _ _ _ Ea Hs2 Hd) as [Ho3 Hs3].
    + change (entries_of stream s2) with (e_entries (entry s2 stream)). by rewrite Hq.
    + done.
    + split; [|done]. intros k Hkk. by rewrite Ho3, Ho, Hne.
  - split; [|done]. intros k Hkk. by rewrite Ho, Hne.
Qed.

Lemma NextStreamID_sorted B now stream id s :
  0 <= B -> B + 1 <= int64_max -> time_ok now -> id_ok B id -> sinv B (entry s stream) ->
  keeps_sorted B stream s (NextStreamID now stream id s).2.
Proof.
  intros HB HB1 Ht Hid Hs. unfold NextStreamID.
  destruct (stream_guard now stream s) as (b & s1 & E & Hk & Hne).
  destruct (expiredKeyLocked now stream s) as [x s0]. rewrite E.
  assert (sinv B (entry s1 stream)) as Hs1 by (rewrite Hk; by apply sinv_live).
  destruct b; [split; [done|]; by apply (sinv_weaken B); [lia|]|].
  destruct (prepare_sorted B now stream id s1 HB HB1 Ht Hid Hs1) as (r & s2 & -> & Ho & _ & Hs2 & _).
  split; [|done]. intros k Hkk. by rewrite Ho, Hne.
Qed.

Lemma XAddPrepared_sorted B now stream id fields s :
  0 <= B -> id_ok B id -> sinv B (entry s stream) ->
  keeps_sorted B stream s (XAddPrepared now stream id fields s).2.
Proof.
  intros HB [Hd Hb] Hs. unfold XAddPrepared. destruct (bad_fields fields).
  { split; [done|]. by apply (sinv_weaken B); [lia|]. }
  destruct (expiredKey_split now stream s) as (s1 & -> & Hk & Hne & _).
  assert (sinv B (entry s1 stream)) as Hs1 by (rewrite Hk; by apply sinv_live).
  destruct (e_expired now (entry s stream)); [split; [done|]; by apply (sinv_weaken B); [lia|]|].
  pose proof (lastID_not_dollar B stream s1 _ Hs1) as Hnd.
  destruct (Z.leb_spec (compareID id (lastIDLocked stream s1)) 0) as [Hle|Hgt];
    [split; [done|]; by apply (sinv_weaken B); [lia|]|].
  destruct (parseID_range id) as [_ Hr].
  destruct (prepared_put B stream s1 (parseID id).2 id (<[stream := (parseID id).2]>)) as (Ho & [q Hq] & Hs2 & _);
    [done|unfold in_int64 in Hr; lia|done|done| |lia|].
  { rewrite <-lastID_pid. apply compareID_gt; [done|lia]. }
  set (s2 := s1 <| lastSeq ::= _ |>) in *. clearbody s2.
  destruct (addStreamEntryLocked now stream id fields s2) as [ws s3] eqn:Ea. cbn [snd].
  destruct (add_sorted (B + 1) _ _ _ _ _ _ _ Ea Hs2 Hd) as [Ho3 Hs3]; [|lia|].
  - change (entries_of stream s2) with (e_entries (entry s2 stream)). rewrite Hq.
    change (lex (last_pid (entries_of stream s1)) (parseID id)). rewrite <-lastID_pid.
    apply compareID_gt; [done|lia].
  - split; [|done]. intros k Hkk. by rewrite Ho3, Ho, Hne.
Qed.

Lemma XTrim_sorted B now stream maxLen s :
  sinv B (entry s stream) -> keeps_sorted B stream s (XTrim now stream maxLen s).2.
Proof.
  intros Hs. apply (sinv_weaken B (B + 1)) in Hs; [|lia]. unfold XTrim. case_match; [done|]. case_match; [done|].
  cbn [snd]. split.
  - intros k Hk. autorewrite with entry. store_cbn. rewrite lookup_insert_ne by done. reflexivity.
  - autorewrite with entry. store_cbn. rewrite lookup_insert_eq. apply (sorted_drop _ _ _ _ Hs).
Qed.

(** ** Runs *)

Inductive stream_event :=
| SAdd (now : Z) (stream id : string) (fields : list string)
| SNext (now : Z) (stream id : string)
| SPrepared (now : Z) (stream id : string) (fields : list string)
| STrim (now : Z) (stream : string) (maxLen : Z).

Definition stream_step (s : Store) (e : stream_event) : Store :=
  match e with
  | SAdd now stream id fields => (XAdd now stream id fields s).2
  | SNext now stream id => (NextStreamID now stream id s).2
  | SPrepared now stream id fields => (XAddPrepared now stream id fields s).2
  | STrim now stream maxLen => (XTrim now stream maxLen s).2
  end.

Definition event_ok (B : Z) (e : stream_event) : Prop :=
  match e with
  | SAdd now _ id _ | SNext now _ id => time_ok now /\ id_ok B id
  | SPrepared _ _ id _ => id_ok B id
  | STrim _ _ _ => True
  end.

Lemma id_ok_weaken B B' id : B <= B' -> id_ok B id -> id_ok B' id.
Proof. intros HB [H1 H2]. split; [done|lia]. Qed.

Lemma step_sorted B0 B e s :
  0 <= B0 <= B -> B + 1 <= int64_max -> event_ok B0 e -> (forall k, sinv B (entry s k)) ->
  forall k, sinv (B + 1) (entry (stream_step s e) k).
Proof.
  intros [H0 HB] HB1 He Hs k.
  assert (exists stream, keeps_sorted B stream s (stream_step s e)) as [stream [Ho Hk]].
  { destruct e as [now stream id fields|now stream id|now stream id fields|now stream maxLen]; exists stream; cbn in *.
    - destruct He as [Ht Hid]. apply XAdd_sorted; [lia|done|done|by apply (id_ok_weaken B0)|done].
    - destruct He as [Ht Hid]. apply NextStreamID_sorted; [lia|done|done|by apply (id_ok_weaken B0)|done].
    - apply XAddPrepared_sorted; [lia|by apply (id_ok_weaken B0)|done].
    - by apply XTrim_sorted. }
  destruct (decide (k = stream)) as [->|Hne]; [done|]. rewrite Ho by done. apply (sinv_weaken B); [lia|done].
Qed.

(** C33: stream identifiers only grow.  Start from a store without streams and run any sequence of XADD
    (with generated or given identifiers, in one step or in the server's two), and XTRIM on any streams,
    at clock readings that are not before 1970.  No given identifier is the special one written as a
    dollar sign, and the sequence number of a given identifier is at most some B such that B plus the number
    of commands is at most the greatest int64, so that no generated number wraps around.  Then in
    every stream the entries stay strictly increasing in the order of their identifiers, so no identifier
    occurs twice. *)
Theorem stream_ids_increase B evs s :
  0 <= B -> B + zlen evs <= int64_max -> streams s = ∅ -> lastSeq s = ∅ -> Forall (event_ok B) evs ->
  forall stream, StronglySorted before (entries_of stream (fold_left stream_step evs s)) /\
    NoDup (ID <$> entries_of stream (fold_left stream_step evs s)).
Proof.
  intros HB Hroom Hst Hsq Hev.
  assert (forall evs b s, B <= b -> b + zlen evs <= int64_max -> Forall (event_ok B) evs ->
            (forall k, sinv b (entry s k)) -> forall k, sinv (b + zlen evs) (entry (fold_left stream_step evs s) k)) as Hrun.
  { clear -HB. induction evs as [|e evs IH]; intros b s Hb Hroom Hev Hs k.
    - rewrite zlen_nil, Z.add_0_r. apply Hs.
    - apply Forall_cons in Hev as [He Hev]. rewrite zlen_cons in *. pose proof (zlen_nonneg evs).
      cbn [fold_left]. replace (b + (zlen evs + 1)) with (b + 1 + zlen evs) by lia.
      apply IH; [lia|lia|done|]. apply (step_sorted B b); [lia|lia|done|done]. }
  intros stream. assert (sinv (B + zlen evs) (entry (fold_left stream_step evs s) stream)) as H.
  { apply Hrun; [lia|done|done|]. intros k. unfold sinv, e_entries, entry. cbn. rewrite Hst, Hsq, !lookup_empty.
    by apply sorted_nil. }
  pose proof (ss_sorted _ _ _ H) as Hs. split; [exact Hs|].
  change (entries_of stream (fold_left stream_step evs s)) with (e_entries (entry (fold_left stream_step evs s) stream)).
  clear -Hs. induction Hs as [|a l Hs IH HF]; [constructor|]. cbn. constructor; [|done].
  intros (b & Eb & Hb)%list_elem_of_fmap. rewrite Forall_forall in HF. specialize (HF b Hb).
  unfold before, pid in HF. rewrite <-Eb in HF. by apply lex_irrefl in HF.
Qed.

Definition sample_events : list stream_event :=
  [SAdd (10 ^ 9) "s" "*" ["a"; "1"]; SAdd 0 "s" "*" ["a"; "2"]; SNext (2 * 10 ^ 9) "s" "*";
   SPrepared (2 * 10 ^ 9) "s" "2000-3" ["a"; "3"]; SAdd 0 "t" "5-1" ["b"; "1"]; STrim 0 "s" 2].

Lemma stream_ids_increase_witness :
  Forall (event_ok 100) sample_events /\
  StronglySorted before (entries_of "s" (fold_left stream_step sample_events New)).
Proof.
  assert (Forall (event_ok 100) sample_events) as H.
  { repeat constructor; try discriminate; vm_compute; discriminate. }
  split; [exact H|].
  exact (proj1 (stream_ids_increase 100 sample_events New ltac:(lia)
    ltac:(unfold int64_max, sample_events, zlen; cbn; lia) eq_refl eq_refl H "s")).
Defined.

Example sample_entries :
  ID <$> entries_of "s" (fold_left stream_step sample_events New) = ["1000-2"; "2000-3"].
Proof. vm_compute. reflexivity. Qed.

(** An identifier written as a dollar sign destroys the order.  XADD accepts it as the identifier of
    an entry; every identifier counts as greater than it, so the next XADD with an old identifier is
    accepted too, and the stream is no longer sorted. *)
Theorem stream_dollar_breaks_order :
  exists s1 s2,
    XAdd 0 "s" "7-1" ["a"; "1"] New = (Ok "7-1", s1) /\
    (XAdd 0 "s" "$" ["a"; "2"] s1).1 = Ok "$" /\
    s2 = (XAdd 0 "s" "$" ["a"; "2"] s1).2 /\
    (XAdd 0 "s" "7-1" ["a"; "3"] s2).1 = Ok "7-1" /\
    ID <$> entries_of "s" (XAdd 0 "s" "7-1" ["a"; "3"] s2).2 = ["7-1"; "$"; "7-1"].
Proof.
  eexists _, _. split; [vm_compute; reflexivity|]. split; [vm_compute; reflexivity|]. split; [reflexivity|].
  split; vm_compute; reflexivity.
Qed.

(** A sequence number at the end of its range wraps.  After an entry of a future millisecond with the
    greatest sequence number, a generated identifier has the least one and is appended behind it. *)
Theorem stream_sequence_wraps :
  let s1 := (XAdd 0 "s" "99-9223372036854775807" ["a"; "1"] New).2 in
  (XAdd 0 "s" "*" ["a"; "2"] s1).1 = Ok "99--9223372036854775808" /\
  ID <$> entries_of "s" (XAdd 0 "s" "*" ["a"; "2"] s1).2 = ["99-9223372036854775807"; "99--9223372036854775808"] /\
  compareID "99--9223372036854775808" "99-9223372036854775807" = -1.
Proof. vm_compute. repeat split. Qed.

(** ** Range queries *)

Definition limited (count : Z) {A} (l : list A) : list A := if count >? 0 then ztake count l else l.

Lemma limited_nil count A : limited count (@nil A) = [].
Proof. unfold limited, ztake. case_match; by rewrite ?take_nil. Qed.

Definition beyond (stop : string) (e : StreamEntry) : bool :=
  negb (String.eqb stop "+") && (compareID (ID e) stop >? 0).

Lemma from_up start a b :
  before a b -> (compareID (ID a) start >=? 0) = true -> (compareID (ID b) start >=? 0) = true.
Proof.
  unfold before, pid. intros Hab. destruct (decide (start = "$")) as [->|Hd]; [intros _; reflexivity|].
  rewrite !Z.geb_le. intros Ha.
  assert (~ lex (parseID (ID a)) (parseID start)) as H1 by (apply compareID_ge; [done|lia]).
  assert (compareID (ID b) start >= 0); [|lia]. apply compareID_ge; [done|]. intros Hb. apply H1. by etrans.
Qed.

Lemma after_up id a b :
  before a b -> (compareID (ID a) id >? 0) = true -> (compareID (ID b) id >? 0) = true.
Proof.
  unfold before, pid. intros Hab. destruct (decide (id = "$")) as [->|Hd]; [intros _; reflexivity|].
  rewrite !Z.gtb_ltb, !Z.ltb_lt. intros Ha.
  assert (lex (parseID id) (parseID (ID a))) as H1 by (apply compareID_gt; [done|lia]).
  assert (compareID (ID b) id > 0); [|lia]. apply compareID_gt; [done|]. by etrans.
Qed.

Lemma beyond_up stop a b : before a b -> beyond stop a = true -> beyond stop b = true.
Proof. unfold beyond. intros Hab. destruct (String.eqb stop "+"); [done|]. by apply after_up. Qed.

Lemma xrange_loop_spec stop count l : forall n,
  StronglySorted before l -> (count > 0 -> n < count) ->
  xrange_loop stop count n l = limited (if count >? 0 then count - n else 0) (filter (fun e => beyond stop e = false) l).
Proof.
  intros n Hs. revert n. induction Hs as [|e l Hs IH HF]; intros n Hn.
  - rewrite filter_nil. by rewrite limited_nil.
  - cbn [xrange_loop]. fold (beyond stop e). destruct (beyond stop e) eqn:Eb.
    + rewrite filter_cons_False by congruence. rewrite filter_none.
      * by rewrite limited_nil.
      * intros x Hx. rewrite Forall_forall in HF. by rewrite (beyond_up stop e x (HF x Hx) Eb).
    + rewrite filter_cons_True by done. rewrite Z.gtb_ltb in *. destruct (Z.ltb_spec 0 count) as [Hc|Hc]; cbn [andb].
      * rewrite Z.geb_leb. unfold limited. rewrite Z.gtb_ltb, (proj2 (Z.ltb_lt _ _)) by lia.
        destruct (Z.leb_spec count (n + 1)) as [Hle|Hgt].
        -- replace (count - n) with 1 by lia. done.
        -- rewrite IH by lia. unfold limited, ztake.
           rewrite !Z.gtb_ltb, (proj2 (Z.ltb_lt 0 (count - (n + 1)))) by lia.
           replace (Z.to_nat (count - n)) with (S (Z.to_nat (count - (n + 1)))) by lia. done.
      * rewrite IH by lia. done.
Qed.

(** XRANGE selects exactly the entries in the range.  On a sorted stream the binary search for the
    first entry and the early exit return the entries that pass the reference test [inRange] of both
    bounds, in order, the first COUNT of them when a positive count is given. *)
Theorem xrange_selects now stream start stop count s :
  isExpiredRLocked now stream s = false -> StronglySorted before (entries_of stream s) ->
  XRange now stream start stop count s =
    limited count (filter (fun e => inRange (ID e) start stop = true) (entries_of stream s)).
Proof.
  intros He Hs. unfold XRange. rewrite He. set (l := entries_of stream s) in *.
  assert (forall e, inRange (ID e) start stop = true <->
            beyond stop e = false /\ (String.eqb start "-" = true \/ (compareID (ID e) start >=? 0) = true)) as Hin.
  { intros e. unfold inRange. fold (beyond stop e). rewrite Z.geb_leb, Z.ltb_antisym.
    destruct (String.eqb start "-"), (beyond stop e), (0 <=? compareID (ID e) start); cbn; naive_solver. }
  assert (limited count (filter (fun e => inRange (ID e) start stop = true) l) =
          xrange_loop stop count 0 (filter (fun e => String.eqb start "-" = true \/ (compareID (ID e) start >=? 0) = true) l)) as ->.
  { rewrite xrange_loop_spec by (lia || by apply StronglySorted_filter).
    rewrite list_filter_filter. unfold limited. rewrite Z.gtb_ltb.
    assert (filter (fun e => inRange (ID e) start stop = true) l =
            filter (fun e => beyond stop e = false /\ (String.eqb start "-" = true \/ (compareID (ID e) start >=? 0) = true)) l) as ->
      by (apply filter_iff_in; intros x _; apply Hin).
    destruct (Z.ltb_spec 0 count) as [Hc|Hc]; [|done]. rewrite Z.sub_0_r, Z.gtb_ltb, (proj2 (Z.ltb_lt _ _)) by done. done. }
  destruct (Z.eqb_spec (zlen l) 0) as [E|_].
  { destruct l as [|x l']; [done|]. rewrite zlen_cons in E. pose proof (zlen_nonneg l'). lia. }
  f_equal. destruct (String.eqb start "-"); cbn [negb].
  - unfold zdrop. cbn. symmetry. apply filter_all. intros x _. by left.
  - rewrite (Search_filter before (fun e => compareID (ID e) start >=? 0) (from_up start) l Hs).
    apply filter_iff_in. intros x _. split; [by right|]. by intros [?|?].
Qed.

Definition three_entries : Store :=
  New <| streams := {["s" := [mkEntry "1-1" []; mkEntry "1-2" []; mkEntry "3" []]]} |>.

Lemma three_sorted : StronglySorted before (entries_of "s" three_entries).
Proof.
  assert (entries_of "s" three_entries = [mkEntry "1-1" []; mkEntry "1-2" []; mkEntry "3" []]) as -> by reflexivity.
  assert (parseID "1-1" = (1, 1) /\ parseID "1-2" = (1, 2) /\ parseID "3" = (3, 0)) as (E1 & E2 & E3) by done.
  repeat constructor; unfold before, pid, lex; cbn [ID]; rewrite ?E1, ?E2, ?E3; cbn; lia.
Qed.

Lemma xrange_selects_witness :
  XRange 0 "s" "1-2" "+" 0 three_entries =
    limited 0 (filter (fun e => inRange (ID e) "1-2" "+" = true) (entries_of "s" three_entries)).
Proof. exact (xrange_selects 0 "s" "1-2" "+" 0 three_entries eq_refl three_sorted). Defined.

(** ** Consumer groups deliver each entry once *)

(** XREADGROUP with [>] on one stream, as the server runs it under its
    persistence lock: plan, then deliver what was found. *)
Definition read_new (stream group : string) (now : Z) (consumer : string) (count : Z) (s : Store)
    : list StreamEntry * Store :=
  match XReadGroupPlan now group consumer [(stream, ">")] count s with
  | Err _ => ([], s)
  | Ok out =>
      match default [] (out !! stream) with
      | [] => ([], s)
      | l => (l, (XGroupDeliver now stream group consumer (ID <$> l) now s).2)
      end
  end.

Fixpoint read_all (stream group : string) (reads : list (Z * string * Z)) (s : Store)
    : list (list StreamEntry) * Store :=
  match reads with
  | [] => ([], s)
  | (now, consumer, count) :: reads =>
      let '(l, s) := read_new stream group now consumer count s in
      let '(ls, s) := read_all stream group reads s in
      (l :: ls, s)
  end.

(** Successive chunks of a list. *)
Fixpoint chunks {A} (ns : list Z) (l : list A) : list (list A) :=
  match ns with [] => [] | n :: ns => ztake n l :: chunks ns (zdrop n l) end.

Definition effective (count : Z) : Z := if count <=? 0 then 10 else count.

Definition after (id : string) (e : StreamEntry) : Prop := (compareID (ID e) id >? 0) = true.
#[export] Instance after_dec id e : Decision (after id e).
Proof. unfold after. apply _. Defined.

Lemma take_until_spec count l : forall n, n < count -> take_until count n l = ztake (count - n) l.
Proof.
  induction l as [|e l IH]; intros n Hn; cbn [take_until]; unfold ztake; [by rewrite take_nil|].
  rewrite Z.geb_leb. destruct (Z.leb_spec count (n + 1)).
  - by replace (count - n) with 1 by lia.
  - rewrite IH by lia. unfold ztake.
    replace (Z.to_nat (count - n)) with (S (Z.to_nat (count - (n + 1)))) by lia. done.
Qed.

Lemma plan_new now stream group consumer count s g :
  isExpiredRLocked now stream s = false -> group_of stream group s = Some g ->
  StronglySorted before (entries_of stream s) ->
  XReadGroupPlan now group consumer [(stream, ">")] count s =
    Ok (extend stream (ztake (effective count) (filter (after (Store.LastID g)) (entries_of stream s))) ∅).
Proof.
  intros He Hg Hs. unfold XReadGroupPlan. fold (effective count). cbn [plan_loop]. rewrite He, Hg.
  change (String.eqb ">" ">") with true. cbv iota. rewrite lookup_empty.
  change (zlen (default [] (@None (list StreamEntry)))) with 0.
  assert (0 < effective count) by (unfold effective; case_match; lia).
  rewrite take_until_spec, Z.sub_0_r by done. unfold searchStreamStart.
  by rewrite (Search_filter before (fun e => compareID (ID e) (Store.LastID g) >? 0) (after_up _) _ Hs).
Qed.

(** Delivering increasing identifiers moves [LastID] to the last one. *)
Lemma deliver_spec consumer d l : forall g,
  StronglySorted before l -> Forall (after (Store.LastID g)) l -> Forall (fun e => ID e <> "$") l ->
  let g' := fold_left (deliver_one consumer d) (ID <$> l) g in
  Store.LastID g' = match last l with Some e => ID e | None => Store.LastID g end /\
  (forall e, e ∈ l -> Pending g' !! ID e = Some (mkPending consumer d)) /\
  (forall id, id ∉ (ID <$> l) -> Pending g' !! id = Pending g !! id).
Proof.
  induction l as [|e l IH]; intros g Hs Ha Hd; cbn zeta.
  - split; [done|]. split; [|done]. intros e He. by apply not_elem_of_nil in He.
  - apply StronglySorted_inv in Hs as [Hs HF]. apply Forall_cons in Ha as [Hae Ha]. apply Forall_cons in Hd as [Hde Hd].
    cbn [fmap list_fmap fold_left]. set (g1 := deliver_one consumer d g (ID e)).
    assert (Store.LastID g1 = ID e) as H1 by (unfold g1, deliver_one; cbn; unfold after in Hae; by rewrite Hae).
    assert (Forall (after (Store.LastID g1)) l) as Ha1.
    { rewrite H1. eapply Forall_impl; [exact HF|]. intros x Hx. unfold after. rewrite Z.gtb_ltb, Z.ltb_lt.
      assert (compareID (ID x) (ID e) > 0); [|lia]. by apply compareID_gt. }
    destruct (IH g1 Hs Ha1 Hd) as (H2 & H3 & H4). split; [|split].
    + rewrite H2, H1, last_cons. by destruct (last l).
    + intros x [->|Hx]%elem_of_cons; [|by apply H3].
      rewrite H4; [unfold g1, deliver_one; cbn; by rewrite lookup_insert_eq|].
      intros (y & Ey & Hy)%list_elem_of_fmap. rewrite Forall_forall in HF. specialize (HF y Hy).
      unfold before, pid in HF. rewrite Ey in HF. by apply lex_irrefl in HF.
    + intros id Hid. apply not_elem_of_cons in Hid as [Hne Hid]. rewrite H4 by done.
      unfold g1, deliver_one. cbn. by rewrite lookup_insert_ne.
Qed.

(** What is left after the first [n] entries have been delivered. *)
Lemma after_rest id n l x :
  StronglySorted before l -> Forall (fun e => ID e <> "$") l ->
  last (ztake n (filter (after id) l)) = Some x ->
  filter (after (ID x)) l = zdrop n (filter (after id) l).
Proof.
  intros Hs Hd Hx. set (F := filter (after id) l) in *.
  assert (StronglySorted before F) as HF by by apply StronglySorted_filter.
  assert (x ∈ F) as HxF by (apply last_Some_elem_of in Hx; by eapply elem_of_take_1).
  assert (x ∈ l /\ after id x) as [Hxl Hax] by (apply list_elem_of_filter in HxF; tauto).
  assert (ID x <> "$") as Hxd by (rewrite Forall_forall in Hd; by apply Hd).
  assert (forall e, after (ID x) e <-> before x e) as Hbx.
  { intros e. unfold after, before, pid. rewrite <-compareID_gt by done. rewrite Z.gtb_ltb, Z.ltb_lt. lia. }
  assert (filter (after (ID x)) l = filter (after (ID x)) F) as ->.
  { unfold F. rewrite list_filter_filter. apply filter_iff_in. intros e _. split; [|tauto].
    intros He. split; [done|]. apply (after_up id x e); [by apply Hbx|done]. }
  unfold zdrop, ztake in *. rewrite <-(take_drop (Z.to_nat n) F) at 1. rewrite filter_app.
  assert (StronglySorted before (take (Z.to_nat n) F ++ drop (Z.to_nat n) F)) as Hs' by by rewrite take_drop.
  assert (StronglySorted before (take (Z.to_nat n) F)) as Ht.
  { by apply StronglySorted_app_1_l in Hs'. }
  rewrite filter_none, filter_all; [done| |].
  - intros e He. apply Hbx. eapply StronglySorted_app_1_elem_of; [exact Hs'| |exact He]. by apply last_Some_elem_of.
  - intros e He Hae. apply Hbx in Hae. destruct (StronglySorted_last _ _ _ _ Ht Hx He) as [->|Hex].
    + by apply lex_irrefl in Hae.
    + apply (lex_irrefl (pid e)). by transitivity (pid x).
Qed.

(** A group on a sorted stream that does not expire. *)
Definition group_state (stream group : string) (l : list StreamEntry) (g : ConsumerGroup) (s : Store) : Prop :=
  expires s !! stream = None /\ entries_of stream s = l /\ group_of stream group s = Some g.

Lemma put_group_state stream group l g g' now s :
  group_state stream group l g s ->
  group_state stream group l g' (touchKeyLocked now [stream] (put_group stream group g' s)).
Proof.
  intros (He & Hl & Hg). destruct (touch_shape now [stream] (put_group stream group g' s)) as (? & ? & ? & ? & ->).
  unfold group_state, entries_of, group_of, put_group. store_cbn.
  split; [done|]. split; [done|]. by rewrite !lookup_insert_eq.
Qed.

Lemma read_new_spec stream group l g now consumer count s :
  StronglySorted before l -> Forall (fun e => ID e <> "$") l -> group_state stream group l g s ->
  exists g' s', read_new stream group now consumer count s =
      (ztake (effective count) (filter (after (Store.LastID g)) l), s') /\
    group_state stream group l g' s' /\
    filter (after (Store.LastID g')) l = zdrop (effective count) (filter (after (Store.LastID g)) l) /\
    (forall e, e ∈ ztake (effective count) (filter (after (Store.LastID g)) l) ->
       Pending g' !! ID e = Some (mkPending consumer now)) /\
    (forall id, id ∉ (ID <$> ztake (effective count) (filter (after (Store.LastID g)) l)) ->
       Pending g' !! id = Pending g !! id).
Proof.
  intros Hs Hd Hst. pose proof Hst as (He & Hl & Hg). unfold read_new.
  rewrite (plan_new _ _ _ _ _ _ g); [|by unfold isExpiredRLocked; rewrite He|done|by rewrite Hl]. rewrite Hl.
  assert (0 < effective count) as Hc by (unfold effective; case_match; lia).
  set (F := filter (after (Store.LastID g)) l). unfold extend.
  destruct (ztake (effective count) F) as [|e r] eqn:E.
  - rewrite lookup_empty. exists g, s. split; [done|]. split; [done|].
    assert (F = []) as EF.
    { unfold ztake in E. destruct (Z.to_nat (effective count)) as [|n] eqn:En; [lia|]. by destruct F. }
    split; [fold F; rewrite EF; unfold zdrop; by rewrite drop_nil|]. split; [|done]. intros x Hx. by apply not_elem_of_nil in Hx.
  - rewrite lookup_empty, lookup_insert_eq.
    change (default [] (Some (default [] (@None (list StreamEntry)) ++ e :: r))) with (e :: r). cbv iota. rewrite <-E.
    unfold XGroupDeliver. rewrite Hg.
    assert ((if IsZero now then now else now) = now) as -> by by case_match.
    assert (forall x, x ∈ ztake (effective count) F -> x ∈ l /\ after (Store.LastID g) x) as Hin.
    { intros x Hx. apply elem_of_take_1, list_elem_of_filter in Hx. tauto. }
    destruct (deliver_spec consumer now (ztake (effective count) F) g) as (H1 & H2 & H3).
    { apply (StronglySorted_app_1_l _ _ (zdrop (effective count) F)). unfold ztake, zdrop. rewrite take_drop.
      by apply StronglySorted_filter. }
    { rewrite Forall_forall. intros x Hx. by apply Hin. }
    { rewrite Forall_forall in *. intros x Hx. apply Hd. by apply Hin. }
    eexists _, _. split; [reflexivity|]. split; [by apply (put_group_state _ _ _ g)|].
    split; [|by split]. rewrite H1. destruct (last (ztake (effective count) F)) as [x|] eqn:El.
    + by apply after_rest.
    + apply last_None in El. rewrite El in E. done.
Qed.

Lemma read_all_spec stream group reads l :
  StronglySorted before l -> Forall (fun e => ID e <> "$") l ->
  forall s g, group_state stream group l g s ->
  let '(ls, s') := read_all stream group reads s in
  ls = chunks ((fun r => effective r.2) <$> reads) (filter (after (Store.LastID g)) l) /\
  exists g', group_of stream group s' = Some g' /\
    (forall i now consumer count es e, reads !! i = Some (now, consumer, count) -> ls !! i = Some es -> e ∈ es ->
       Pending g' !! ID e = Some (mkPending consumer now)) /\
    (forall id, id ∉ (ID <$> filter (after (Store.LastID g)) l) -> Pending g' !! id = Pending g !! id).
Proof.
  intros Hs Hd. induction reads as [|[[now consumer] count] reads IH]; intros s g Hst; cbn [read_all].
  - split; [done|]. exists g. split; [apply Hst|]. split; [|done]. intros i; by destruct i.
  - destruct (read_new_spec stream group l g now consumer count s Hs Hd Hst) as (g1 & s1 & -> & Hst1 & Hrest & Hp & Ho).
    specialize (IH s1 g1 Hst1). destruct (read_all stream group reads s1) as [ls s2].
    destruct IH as (Hls & g2 & Hg2 & Hpend & Hkept). set (F := filter (after (Store.LastID g)) l) in *.
    assert (StronglySorted before (ztake (effective count) F ++ zdrop (effective count) F)) as HF.
    { unfold ztake, zdrop. rewrite take_drop. by apply StronglySorted_filter. }
    split; [cbn; by rewrite Hls, Hrest|]. exists g2. split; [done|]. split.
    + intros i now' consumer' count' es e Hr Hi He. destruct i as [|i]; [|by eapply Hpend].
      cbn in Hr, Hi. injection Hr as <- <- <-. injection Hi as <-. rewrite Hkept; [by apply Hp|].
      rewrite Hrest. intros (y & Ey & Hy)%list_elem_of_fmap.
      pose proof (StronglySorted_app_1_elem_of _ _ _ _ _ HF He Hy) as Hlt.
      unfold before, pid in Hlt. rewrite Ey in Hlt. by apply lex_irrefl in Hlt.
    + intros id Hid. rewrite Hkept, Ho; [done| |].
      * intros (y & Ey & Hy)%list_elem_of_fmap. apply Hid. apply list_elem_of_fmap. exists y.
        split; [done|]. by eapply elem_of_take_1.
      * rewrite Hrest. intros (y & Ey & Hy)%list_elem_of_fmap. apply Hid. apply list_elem_of_fmap. exists y.
        split; [done|]. by eapply elem_of_drop_1.
Qed.

(** C24: a consumer group hands every entry to exactly one reader.  On a sorted stream with a group, any
    sequence of XREADGROUP calls for new entries by any consumers with any counts returns successive
    chunks, in order and without gaps or repetitions, of the entries after the group's last identifier;
    each delivered entry is recorded as pending for the consumer that received it. *)
Theorem group_reads_once stream group reads s l g :
  StronglySorted before l -> Forall (fun e => ID e <> "$") l -> group_state stream group l g s ->
  let '(ls, s') := read_all stream group reads s in
  ls = chunks ((fun r => effective r.2) <$> reads) (filter (after (Store.LastID g)) l) /\
  exists g', group_of stream group s' = Some g' /\
    forall i now consumer count es e, reads !! i = Some (now, consumer, count) -> ls !! i = Some es -> e ∈ es ->
      Pending g' !! ID e = Some (mkPending consumer now).
Proof.
  intros Hs Hd Hst. pose proof (read_all_spec stream group reads l Hs Hd s g Hst) as H.
  destruct (read_all stream group reads s) as [ls s']. destruct H as (H1 & g' & H2 & H3 & _).
  split; [done|]. by exists g'.
Qed.

Definition grouped : Store := (XGroupCreate 0 "s" "g" "0" false three_entries).2.

Lemma group_reads_once_witness :
  group_state "s" "g" (entries_of "s" three_entries) (mkGroup "0" ∅) grouped /\
  (read_all "s" "g" [(5, "alice", 2); (6, "bob", 2)] grouped).1 =
    chunks [2; 2] (filter (after "0") (entries_of "s" three_entries)).
Proof.
  assert (group_state "s" "g" (entries_of "s" three_entries) (mkGroup "0" ∅) grouped) as H
    by (split; [reflexivity|split; reflexivity]).
  split; [exact H|].
  pose proof (group_reads_once "s" "g" [(5, "alice", 2); (6, "bob", 2)] grouped _ _ three_sorted
    ltac:(repeat constructor; discriminate) H) as Hr.
  destruct (read_all "s" "g" [(5, "alice", 2); (6, "bob", 2)] grouped) as [ls s']. exact (proj1 Hr).
Defined.

Example grouped_reads :
  map (map ID) (read_all "s" "g" [(5, "alice", 2); (6, "bob", 2)] grouped).1 = [["1-1"; "1-2"]; ["3"]].
Proof. vm_compute. reflexivity. Qed.

End Streams.
