(* ===== verification/StoreSnapshot.v ===== *)
(** * Snapshots (Dump and Load of internal/store/store.go, internal/server/snapshot.go)

    [Dump] copies every map of the store into a [Snapshot], [Load] rebuilds
    the maps from one; [SaveSnapshot] writes the encoded snapshot to a
    temporary file and renames it, [LoadSnapshot] reads it back.  The text of
    a JSON document and the text of the snapshot file are produced by package
    encoding/json, which is a parameter: [marshal] and [unmarshal] for one
    document, [encode] and [decode] for the file.  The file system is a map
    from paths to contents, and [SaveSnapshot] returns every state of it that
    a crash could leave behind. *)
From S2P Require Import Prelude GoLib Deque SortedSet HyperLogLog TimeSeries Json Store StoreSets Keyspace.

Module Snapshots.
Import Store Sets Keyspace.

(** ** The data of a snapshot *)

(** The six maps older snapshot files lack are nil when absent. *)
Record Snapshot := mkSnapshot {
  KV : gmap string string;
  Hashes : gmap string (gmap string string);
  Lists : gmap string (list string);
  Sets_ : gmap string (list string);
  ZSets : gmap string (list SortedSet.ZMember);
  Streams : gmap string (list StreamEntry);
  Groups : gmap string (gmap string ConsumerGroup);
  Expires : gmap string Z;
  LastSeq : gmap string Z;
  JSONDocs : option (gmap string string);
  TimeSeries_ : option (gmap string TimeSeries.TimeSeries);
  Queues : option (gmap string Queue);
  Tags : option (gmap string (gmap string string));
  HLLs : option (gmap string (list Z));
  NotBefore : option (gmap string Z)
}.

(** The copies [Dump] and [Load] make of a group, a series and a queue. *)
Definition copy_group (g : ConsumerGroup) : ConsumerGroup := mkGroup (Store.LastID g) (Pending g).

Definition copy_groups (gs : gmap string ConsumerGroup) : gmap string ConsumerGroup := copy_group <$> gs.

Definition copy_series (ts : TimeSeries.TimeSeries) : TimeSeries.TimeSeries :=
  TimeSeries.mkSeries (TimeSeries.Samples ts)
    (map_fold (fun k v labels => <[k := v]> labels) ∅ (TimeSeries.Labels ts)).

Definition copy_queue (q : Queue) : Queue :=
  mkQueue (QPending q) (map_fold (fun id m p => <[id := m]> p) ∅ (Processing q)) (DeadLetter q)
    (AckTimeout q) (MaxRetries q).

Definition load_list (l : list string) : Deque.Deque := Deque.PushBack l Deque.empty.

Definition load_set (members : list string) : gset string :=
  fold_left (fun set member => {[member]} ∪ set) members ∅.

Definition load_zset (members : list SortedSet.ZMember) : SortedSet.SortedSet :=
  fold_left (fun zs m => (SortedSet.Add (SortedSet.Member m) (SortedSet.Score m) zs).2) members
    SortedSet.NewSortedSet.

Definition load_hll (regs : list Z) : HyperLogLog.HyperLogLog :=
  HyperLogLog.LoadRegisters regs HyperLogLog.NewHyperLogLog.

Section Encoding.
Context (marshal : Json.json -> string) (unmarshal : string -> option Json.json).

Definition Dump (now : Z) (order : list string) (s : Store) : Snapshot * Store :=
  let s := purgeExpiredLocked now order s in
  (mkSnapshot (kv s) (hashes s) (Deque.ToSlice <$> lists s) (sorted_members <$> sets s)
     (SortedSet.Members <$> zsets s) (streams s) (copy_groups <$> groups s) (expires s) (lastSeq s)
     (Some (marshal <$> jsons s)) (Some (copy_series <$> timeseries s)) (Some (copy_queue <$> queues s))
     (Some (tags s)) (Some (HyperLogLog.Registers <$> hlls s)) (Some (notBefore s)), s).

(** The maps of [Load] before its final sweep.  The registered callbacks, the
    blocked clients, the rate limiters and the access times are those of the
    store that loads. *)
Definition restore (d : Snapshot) (s : Store) : Store :=
  s <| kv := KV d |> <| hashes := Hashes d |> <| lists := load_list <$> Lists d |>
    <| sets := load_set <$> Sets_ d |> <| zsets := load_zset <$> ZSets d |>
    <| streams := Streams d |> <| groups := copy_groups <$> Groups d |>
    <| lastSeq := LastSeq d |> <| expires := Expires d |>
    <| jsons := match JSONDocs d with Some docs => omap unmarshal docs | None => ∅ end |>
    <| timeseries := match TimeSeries_ d with Some m => copy_series <$> m | None => ∅ end |>
    <| queues := match Queues d with Some m => copy_queue <$> m | None => ∅ end |>
    <| tags := match Tags d with Some m => m | None => ∅ end |>
    <| hlls := match HLLs d with Some m => load_hll <$> m | None => ∅ end |>
    <| notBefore := match NotBefore d with Some m => m | None => ∅ end |>
    <| version ::= fun v => wrapu64 (v + 1) |> <| keyVersion := ∅ |>.

(** [order] visits the deadlines of the snapshot. *)
Definition Load (now : Z) (order : list string) (d : Snapshot) (s : Store) : Store :=
  purgeExpiredLocked now order (restore d s).

(** ** The snapshot file *)

Definition fs := gmap string string.

(** What the operating system answers: the errors of the calls, and the
    lengths the temporary file has while it is being written. *)
Record io := mkIO {
  mkdir_err : option string;
  open_err : option string;
  written : list nat;
  write_err : option string;
  sync_err : option string;
  close_err : option string;
  rename_err : option string
}.

Context (encode : Snapshot -> result string) (decode : string -> result Snapshot).

Definition put (path text : string) (f : fs) : fs := <[path := text]> f.

Definition prefix (n : nat) (s : string) : string := String.substring 0 n s.

(** The result, the states of the file system in the order they arise, and
    the store (the dump sweeps it). *)
Definition SaveSnapshot (path : string) (o : io) (now : Z) (order : list string) (f : fs) (s : Store)
    : result unit * list fs * Store :=
  if (path =? "")%string then (Ok tt, [f], s) else
  match mkdir_err o with Some e => (Err e, [f], s) | None =>
  match open_err o with Some e => (Err e, [f], s) | None =>
  let tmp := String.append path ".tmp" in
  let f0 := put tmp "" f in
  let '(d, s) := Dump now order s in
  match encode d with
  | Err e => (Err e, [f; f0], s)
  | Ok text =>
      let partial := f :: f0 :: ((fun n => put tmp (prefix n text) f) <$> written o) in
      match write_err o with Some e => (Err e, partial, s) | None =>
      let f1 := put tmp text f in
      match sync_err o with Some e => (Err e, partial ++ [f1], s) | None =>
      match close_err o with Some e => (Err e, partial ++ [f1], s) | None =>
      match rename_err o with Some e => (Err e, partial ++ [f1], s) | None =>
        (Ok tt, partial ++ [f1; put path text (delete tmp f1)], s)
      end end end end
  end end end.

Definition LoadSnapshot (path : string) (open_err : option string) (now : Z) (order : list string) (f : fs)
    (s : Store) : result unit * Store :=
  if (path =? "")%string then (Ok tt, s) else
  match f !! path with
  | None => (Ok tt, s)
  | Some text =>
      match open_err with Some e => (Err e, s) | None =>
      match decode text with
      | Err e => (Err e, s)
      | Ok d => (Ok tt, Load now order d s)
      end end
  end.

End Encoding.

(** ** What a snapshot preserves *)

(** Two entries hold the same data: equal but for the layout of a list's
    ring buffer. *)
Definition same_data (e1 e2 : Entry) : Prop :=
  Deque.ToSlice <$> e_list e1 = Deque.ToSlice <$> e_list e2 /\
  e1 <| e_list := None |> = e2 <| e_list := None |>.

#[export] Instance same_data_equiv : Equivalence same_data.
Proof.
  split; [done| |].
  - intros e1 e2 [H1 H2]. done.
  - intros e1 e2 e3 [H1 H2] [H3 H4]. split; [by rewrite H1|by rewrite H2].
Qed.

Lemma same_data_expired now e1 e2 : same_data e1 e2 -> e_expired now e1 = e_expired now e2.
Proof. intros [_ H]. apply (f_equal e_expire) in H. cbn in H. unfold e_expired. by rewrite H. Qed.

#[export] Instance live_proper now : Proper (same_data ==> same_data) (live now).
Proof.
  intros e1 e2 H. unfold live. rewrite (same_data_expired now e1 e2 H). by destruct (e_expired now e2).
Qed.

(** The values of an entry are well formed: what the commands that build
    lists, sorted sets and sketches guarantee. *)
Definition wf_values (e : Entry) : Prop :=
  (forall d, e_list e = Some d -> Deque.wf d) /\
  (forall z, e_zset e = Some z -> SortedSet.wf z) /\
  (forall h, e_hll e = Some h -> HyperLogLog.wf h).

(** What is kept beside an entry. *)
Definition aside (s : Store) (k : string) : option Queue * option (gmap string string) :=
  (queues s !! k, tags s !! k).

Lemma entry_expiredKey_other now key s k :
  (entry (expiredKeyLocked now key s).2 k, aside (expiredKeyLocked now key s).2 k) =
  if decide (k = key /\ e_expired now (entry s key) = true) then (no_entry, (None, None))
  else (entry s k, aside s k).
Proof.
  destruct (e_expired now (entry s key)) eqn:Ex.
  2: { rewrite expiredKey_false by done. rewrite decide_False; [done|]. by intros []. }
  pose proof (expiredKey_entry now key s k) as He.
  assert ((expiredKeyLocked now key s).2 = deleteKeyLocked now key s) as E.
  { revert Ex. unfold e_expired, expiredKeyLocked. cbn. destruct (expires s !! key); [|done].
    by destruct (IsZero z || (now <? z)). }
  rewrite He, E. destruct (delete_shape now key s) as (v & kvs & q & acc & -> & _).
  unfold aside, without. store_cbn. case_decide as Hk.
  - subst. rewrite decide_True by done. rewrite !lookup_delete_eq, live_expired by done. done.
  - rewrite decide_False by (by intros []). by rewrite !lookup_delete_ne by done.
Qed.

(** Sweeping every key with a deadline leaves exactly the live entries, and
    what lies beside them. *)
Lemma purge_entries now order s k :
  (forall k, is_Some (expires s !! k) -> k ∈ order) ->
  entry (purgeExpiredLocked now order s) k = live now (entry s k) /\
  aside (purgeExpiredLocked now order s) k = if e_expired now (entry s k) then (None, None) else aside s k.
Proof.
  intros Hcover.
  assert (forall s, (entry (purgeExpiredLocked now order s) k, aside (purgeExpiredLocked now order s) k) =
            if decide (k ∈ order /\ e_expired now (entry s k) = true) then (no_entry, (None, None))
            else (entry s k, aside s k)) as H.
  { clear. unfold purgeExpiredLocked. induction order as [|a order IH]; intros s; cbn [fold_left].
    { rewrite decide_False; [done|]. intros [H _]. by apply elem_of_nil in H. }
    rewrite IH. pose proof (entry_expiredKey_other now a s k) as Ha.
    destruct (decide (k = a /\ e_expired now (entry s a) = true)) as [[-> Hx]|Hn];
      pose proof (f_equal fst Ha) as He; pose proof (f_equal snd Ha) as Has; cbn [fst snd] in He, Has.
    - rewrite He, Has, Hx. rewrite decide_False by (by intros []). rewrite decide_True; [|split; [left|done]]. done.
    - rewrite He, Has.
      destruct (decide (k ∈ order /\ _)) as [[Hin Hx]|Hn2]; destruct (decide (k ∈ a :: order /\ _)) as [[Hin' Hx']|Hn'];
        try done; exfalso.
      + apply Hn'. split; [by right|done].
      + apply elem_of_cons in Hin' as [->|Hin']; [by apply Hn|by apply Hn2]. }
  specialize (H s). pose proof (f_equal fst H) as He. pose proof (f_equal snd H) as Has. clear H.
  cbn [fst snd] in He, Has. rewrite He, Has. unfold live. clear He Has.
  destruct (e_expired now (entry s k)) eqn:Ex.
  - rewrite decide_True; [done|]. split; [|done]. apply Hcover.
    revert Ex. unfold e_expired. cbn. destruct (expires s !! k); by eauto.
  - by rewrite decide_False by (by intros []).
Qed.
(** ** Each value survives *)

Lemma load_list_spec l : Deque.ToSlice (load_list l) = l.
Proof. unfold load_list. by destruct (Deque.PushBack_spec l Deque.empty Deque.empty_wf) as [_ ->]. Qed.

Lemma load_set_spec members : load_set members = list_to_set members.
Proof.
  unfold load_set. apply set_eq. intros x. rewrite elem_of_list_to_set.
  assert (forall acc : gset string, x ∈ fold_left (fun set member => {[member]} ∪ set) members acc <->
            x ∈ members \/ x ∈ acc) as H.
  { induction members as [|a members IH]; intros acc; cbn [fold_left]; [set_solver|]. rewrite IH. set_solver. }
  rewrite (H (∅ : gset string)). set_solver.
Qed.

Lemma load_set_members m : load_set (sorted_members m) = m.
Proof.
  rewrite load_set_spec. apply set_eq. intros x. rewrite elem_of_list_to_set. unfold sorted_members.
  by rewrite sort_strings_perm, elem_of_elements.
Qed.

Lemma load_zset_spec l :
  NoDup (SortedSet.Member <$> l) -> (forall e, e ∈ l -> is_nan (SortedSet.Score e) = false) ->
  SortedSet.wf (load_zset l) /\
  forall m s, SortedSet.scores (load_zset l) !! m = Some s <-> SortedSet.mkZ m s ∈ l.
Proof.
  induction l as [|[a x] l IH] using rev_ind; intros Hnd Hnum.
  { split; [apply SortedSet.wf_new|]. intros m s. cbn. rewrite lookup_empty. split; [done|]. by intros ?%elem_of_nil. }
  rewrite fmap_app in Hnd. apply NoDup_app in Hnd as (Hnd & Hdis & _).
  destruct (IH Hnd) as [Hwf Hsc]. { intros e He. apply Hnum. set_solver. }
  unfold load_zset in *. rewrite fold_left_app. cbn [fold_left SortedSet.Member SortedSet.Score].
  set (z := fold_left _ l _) in *. clearbody z.
  destruct (SortedSet.Add_spec a x z Hwf) as (Hwf' & _ & Hadd).
  { apply (Hnum (SortedSet.mkZ a x)). set_solver. }
  split; [done|]. intros m s. rewrite Hadd. unfold SortedSet.add_scores.
  assert (SortedSet.scores z !! a = None) as Ha.
  { apply eq_None_not_Some. intros [s' Hs']. apply Hsc in Hs'. apply (Hdis a); [|cbn; set_solver].
    apply list_elem_of_fmap. by exists (SortedSet.mkZ a s'). }
  rewrite Ha, elem_of_app, list_elem_of_singleton. destruct (decide (m = a)) as [->|Hne].
  - rewrite lookup_insert_eq. split; [intros [= ->]; by right|]. intros [H|[= ->]]; [|done].
    apply Hsc in H. congruence.
  - rewrite lookup_insert_ne by done. rewrite Hsc. split; [by left|]. intros [H|[= ? ?]]; done.
Qed.

Lemma wf_members_NoDup z : SortedSet.wf z -> NoDup (SortedSet.Member <$> SortedSet.ordered z).
Proof.
  intros Hwf. pose proof (SortedSet.wf_NoDup z Hwf) as Hnd.
  apply NoDup_fmap_2_strong; [|done]. intros [m s] [m' s'] Hx Hy [= <-].
  apply (SortedSet.wf_iff z Hwf) in Hx, Hy. congruence.
Qed.

Lemma load_zset_members z : SortedSet.wf z -> load_zset (SortedSet.Members z) = z.
Proof.
  intros Hwf. unfold SortedSet.Members.
  destruct (load_zset_spec (SortedSet.ordered z) (wf_members_NoDup z Hwf) (SortedSet.wf_num z Hwf)) as [Hwf' Hsc].
  set (z' := load_zset _) in *. clearbody z'.
  assert (SortedSet.scores z' = SortedSet.scores z) as Hs.
  { apply map_eq. intros m. apply option_eq. intros s. rewrite Hsc. apply (SortedSet.wf_iff z Hwf). }
  pose proof (SortedSet.wf_ranking z' Hwf') as Hr. rewrite Hs in Hr.
  pose proof (SortedSet.is_ranking_unique _ _ _ Hr (SortedSet.wf_ranking z Hwf)) as Ho.
  destruct z, z'. cbn in *. by subst.
Qed.

Lemma load_hll_registers h : HyperLogLog.wf h -> load_hll (HyperLogLog.Registers h) = h.
Proof. apply HyperLogLog.load_registers. Qed.

Lemma copy_map {A} (m : gmap string A) : map_fold (fun k v acc => <[k := v]> acc) ∅ m = m.
Proof.
  apply (map_fold_weak_ind (fun r m => r = m)); [done|]. by intros k v m' r _ ->.
Qed.

Lemma copy_group_id g : copy_group g = g.
Proof. by destruct g. Qed.

Lemma copy_groups_id gs : copy_groups gs = gs.
Proof.
  unfold copy_groups. rewrite <-(map_fmap_id gs) at 2. apply map_fmap_ext. intros. apply copy_group_id.
Qed.

Lemma copy_series_id ts : copy_series ts = ts.
Proof. destruct ts. unfold copy_series. cbn. by rewrite copy_map. Qed.

Lemma copy_queue_id q : copy_queue q = q.
Proof. destruct q. unfold copy_queue. cbn. by rewrite copy_map. Qed.
(** ** A load restores a dump *)

Lemma fmap_some_id {A} (f : A -> A) (o : option A) : (forall a, o = Some a -> f a = a) -> f <$> o = o.
Proof. destruct o as [a|]; [|done]. intros H. cbn. by rewrite H. Qed.

Section Restore.
Context (marshal : Json.json -> string) (unmarshal : string -> option Json.json).

(** The snapshot of a swept store. *)
Definition dumped (s : Store) : Snapshot :=
  mkSnapshot (kv s) (hashes s) (Deque.ToSlice <$> lists s) (sorted_members <$> sets s)
     (SortedSet.Members <$> zsets s) (streams s) (copy_groups <$> groups s) (expires s) (lastSeq s)
     (Some (marshal <$> jsons s)) (Some (copy_series <$> timeseries s)) (Some (copy_queue <$> queues s))
     (Some (tags s)) (Some (HyperLogLog.Registers <$> hlls s)) (Some (notBefore s)).

(** The documents that encoding/json reads back as they were. *)
Definition doc_ok (e : Entry) : Prop := forall d, e_json e = Some d -> unmarshal (marshal d) = Some d.

Lemma doc_ok_live now e : doc_ok e -> doc_ok (live now e).
Proof. intros H. unfold live. by destruct (e_expired now e). Qed.

Lemma wf_values_live now e : wf_values e -> wf_values (live now e).
Proof. intros H. unfold live. destruct (e_expired now e); [|done]. by split; [|split]. Qed.

Lemma restore_entry s s0 k :
  wf_values (entry s k) -> doc_ok (entry s k) ->
  same_data (entry (restore unmarshal (dumped s) s0) k) (entry s k) /\
  aside (restore unmarshal (dumped s) s0) k = aside s k.
Proof.
  intros (Hl & Hz & Hh) Hd. cbn [entry e_list e_zset e_hll] in *.
  assert (forall z, zsets s !! k = Some z -> load_zset (SortedSet.Members z) = z) as Hz'.
  { intros z E. apply load_zset_members. by apply Hz. }
  assert (forall h, hlls s !! k = Some h -> load_hll (HyperLogLog.Registers h) = h) as Hh'.
  { intros h E. apply load_hll_registers. by apply Hh. }
  unfold same_data, aside, entry, restore, dumped. store_cbn.
  cbn [KV Hashes Lists Sets_ ZSets Streams Groups Expires LastSeq JSONDocs TimeSeries_ Queues Tags HLLs NotBefore
       set set_e_list e_list].
  rewrite !lookup_fmap, !lookup_omap, !lookup_fmap, <-!option_fmap_compose.
  split; [split|].
  - destruct (lists s !! k) as [d|]; [|done]. cbn. by rewrite load_list_spec.
  - cbn. rewrite (fmap_some_id (load_set ∘ sorted_members)) by (intros; apply load_set_members).
    rewrite (fmap_some_id (load_zset ∘ SortedSet.Members)) by apply Hz'.
    rewrite (fmap_some_id (load_hll ∘ HyperLogLog.Registers)) by apply Hh'.
    rewrite (fmap_some_id (copy_groups ∘ copy_groups)) by (intros; cbn; by rewrite !copy_groups_id).
    rewrite (fmap_some_id (copy_series ∘ copy_series)) by (intros; cbn; by rewrite !copy_series_id).
    assert (((marshal <$> jsons s !! k) ≫= unmarshal) = jsons s !! k) as ->; [|done].
    unfold doc_ok in Hd. cbn [entry e_json] in Hd.
    destruct (jsons s !! k) as [d|]; [|done]. cbn. by apply Hd.
  - rewrite (fmap_some_id (copy_queue ∘ copy_queue)) by (intros; cbn; by rewrite !copy_queue_id). done.
Qed.
Lemma Dump_eq now order s : Dump marshal now order s = (dumped (purgeExpiredLocked now order s), purgeExpiredLocked now order s).
Proof. done. Qed.

(** An iteration over a map visits every key. *)
Definition visits {A} (m : gmap string A) (order : list string) : Prop := forall k, is_Some (m !! k) -> k ∈ order.

Lemma Load_Dump_entry t1 t2 o1 o2 s s0 k :
  t1 <= t2 -> visits (expires s) o1 -> visits (Expires (Dump marshal t1 o1 s).1) o2 ->
  wf_values (entry s k) -> doc_ok (entry s k) ->
  same_data (entry (Load unmarshal t2 o2 (Dump marshal t1 o1 s).1 s0) k) (live t2 (entry s k)) /\
  aside (Load unmarshal t2 o2 (Dump marshal t1 o1 s).1 s0) k =
    if e_expired t2 (entry s k) then (None, None) else aside s k.
Proof.
  intros Ht Ho1 Ho2 Hwf Hd. rewrite Dump_eq in *. cbn [fst] in *.
  destruct (purge_entries t1 o1 s k Ho1) as [Hp Ha]. set (p := purgeExpiredLocked t1 o1 s) in *.
  destruct (restore_entry p s0 k) as [Hr Hra].
  { rewrite Hp. by apply wf_values_live. }
  { rewrite Hp. by apply doc_ok_live. }
  unfold Load. set (r := restore unmarshal (dumped p) s0) in *.
  destruct (purge_entries t2 o2 r k Ho2) as [-> ->]. split.
  - rewrite Hr, Hp, live_mono by done. reflexivity.
  - rewrite Hra, (same_data_expired _ _ _ Hr), Ha, Hp. unfold live.
    destruct (e_expired t1 (entry s k)) eqn:E; [|done].
    rewrite (e_expired_mono t1 t2 (entry s k) Ht E). by destruct (e_expired t2 no_entry).
Qed.
End Restore.

(** Loading a snapshot restores the store that was dumped.  Dump a store
    whose lists, sorted sets and sketches are well formed, and load the result
    later into any store: every key that has not expired by then holds the
    same data it held (a list up to the layout of its ring buffer), with the
    same deadline, delay, consumer groups and last sequence number, the same
    queue and the same tags; expired keys and keys of the loading store are
    gone.  Of encoding/json it uses that each stored document reads back as it
    was written. *)
Theorem snapshot_restores (marshal : Json.json -> string) (unmarshal : string -> option Json.json)
    t1 t2 o1 o2 s s0 :
  t1 <= t2 -> visits (expires s) o1 -> visits (Expires (Dump marshal t1 o1 s).1) o2 ->
  (forall k, wf_values (entry s k)) -> (forall k, doc_ok marshal unmarshal (entry s k)) ->
  forall k,
    same_data (entry (Load unmarshal t2 o2 (Dump marshal t1 o1 s).1 s0) k) (live t2 (entry s k)) /\
    aside (Load unmarshal t2 o2 (Dump marshal t1 o1 s).1 s0) k =
      if e_expired t2 (entry s k) then (None, None) else aside s k.
Proof. intros Ht H1 H2 Hwf Hd k. by apply Load_Dump_entry. Qed.

(** A store with a string that expires at 5, a set, a document and tags. *)
Definition small_store : Store :=
  New <| kv := {["s" := "v"]} |> <| expires := {["s" := 5]} |> <| sets := {["m" := {["a"; "b"]}]} |>
      <| jsons := {["j" := Json.JNull]} |> <| tags := {["m" := {["colour" := "red"]}]} |>.

Lemma small_store_wf k : wf_values (entry small_store k).
Proof.
  unfold wf_values. cbn [entry e_list e_zset e_hll small_store]. store_cbn.
  change (lists small_store) with (∅ : gmap string Deque.Deque).
  change (zsets small_store) with (∅ : gmap string SortedSet.SortedSet).
  change (hlls small_store) with (∅ : gmap string HyperLogLog.HyperLogLog).
  rewrite !lookup_empty. by split; [|split].
Qed.

Lemma small_store_docs k : doc_ok (fun _ => "null") (fun _ => Some Json.JNull) (entry small_store k).
Proof.
  intros d. change (e_json (entry small_store k)) with (({["j" := Json.JNull]} : gmap string Json.json) !! k).
  rewrite lookup_singleton_Some. by intros [_ <-].
Qed.

Lemma small_store_visits : visits ({["s" := 5]} : gmap string Z) ["s"].
Proof. intros k [x Hx]. apply lookup_singleton_Some in Hx as [<- _]. left. Qed.

Lemma snapshot_restores_witness :
  let d := (Dump (fun _ => "null") 1 ["s"] small_store).1 in
  same_data (entry (Load (fun _ => Some Json.JNull) 9 ["s"] d New) "m") (live 9 (entry small_store "m")) /\
  entry (Load (fun _ => Some Json.JNull) 9 ["s"] d New) "s" = no_entry.
Proof.
  split; [|vm_compute; reflexivity].
  exact (proj1 (snapshot_restores (fun _ => "null") (fun _ => Some Json.JNull) 1 9 ["s"] ["s"] small_store New
    ltac:(lia) small_store_visits small_store_visits small_store_wf small_store_docs "m")).
Defined.

(** ** The file is replaced atomically *)

Lemma tmp_ne path : String.append path ".tmp" <> path.
Proof.
  induction path as [|c path IH]; [done|]. by intros [= H].
Qed.

Lemma put_tmp path text f : put (String.append path ".tmp") text f !! path = f !! path.
Proof. apply lookup_insert_ne, tmp_ne. Qed.

Lemma put_other path text f q : q <> path -> put path text f !! q = f !! q.
Proof. intros. by apply lookup_insert_ne. Qed.

Section File.
Context (marshal : Json.json -> string) (unmarshal : string -> option Json.json)
        (encode : Snapshot -> result string) (decode : string -> result Snapshot).

(** The text [SaveSnapshot] writes. *)
Definition snapshot_text (now : Z) (order : list string) (s : Store) : result string :=
  encode (Dump marshal now order s).1.

(** Only the snapshot and its temporary file are written, and the snapshot is
    the old one or the complete new one. *)
Definition untorn (path : string) (new : result string) (f f' : fs) : Prop :=
  (f' !! path = f !! path \/ exists text, new = Ok text /\ f' !! path = Some text) /\
  forall q, q <> path -> q <> String.append path ".tmp" -> f' !! q = f !! q.

Lemma untorn_tmp path new f text : untorn path new f (put (String.append path ".tmp") text f).
Proof.
  split; [left; apply put_tmp|]. intros q _ Hq. by apply put_other.
Qed.

Lemma untorn_refl path new f : untorn path new f f.
Proof. split; [by left|done]. Qed.

Lemma untorn_renamed path text f :
  untorn path (Ok text) f (put path text (delete (String.append path ".tmp") (put (String.append path ".tmp") text f))).
Proof.
  split; [right; exists text; split; [done|apply lookup_insert_eq]|].
  intros q Hq Ht. rewrite put_other by done. unfold fs in *. rewrite lookup_delete_ne by done. by apply put_other.
Qed.

Lemma save_states path o now order f s f' :
  f' ∈ (SaveSnapshot marshal encode path o now order f s).1.2 ->
  untorn path (snapshot_text now order s) f f'.
Proof.
  unfold SaveSnapshot, snapshot_text. rewrite Dump_eq. cbn [fst].
  set (tmp := String.append path ".tmp").
  assert (forall new g, g ∈ [f; put tmp "" f] -> untorn path new f g) as H2.
  { intros new g. rewrite !elem_of_cons. intros [->|[->|[]%elem_of_nil]]; [apply untorn_refl|apply untorn_tmp]. }
  destruct (path =? "")%string; [cbn; rewrite list_elem_of_singleton; intros ->; apply untorn_refl|].
  destruct (mkdir_err o); [cbn; rewrite list_elem_of_singleton; intros ->; apply untorn_refl|].
  destruct (open_err o); [cbn; rewrite list_elem_of_singleton; intros ->; apply untorn_refl|].
  destruct (encode _) as [text|e]; [|apply H2].
  assert (forall g, g ∈ f :: put tmp "" f :: ((fun n => put tmp (prefix n text) f) <$> written o) ->
            untorn path (Ok text) f g) as H3.
  { intros g Hg. change (g ∈ [f; put tmp "" f] ++ ((fun n => put tmp (prefix n text) f) <$> written o)) in Hg.
    apply elem_of_app in Hg as [Hg|Hg]; [by apply H2|].
    apply list_elem_of_fmap in Hg as (n & -> & _). apply untorn_tmp. }
  destruct (write_err o); [apply H3|].
  destruct (sync_err o), (close_err o), (rename_err o); cbn [fst snd]; rewrite elem_of_app;
    intros [Hg|Hg]; try (by apply H3); rewrite ?elem_of_cons, ?elem_of_nil in Hg;
    destruct Hg as [->|Hg]; try apply untorn_tmp; try done.
  destruct Hg as [->|[]]. apply untorn_renamed.
Qed.

Lemma save_ok path o now order f s :
  path <> "" -> (SaveSnapshot marshal encode path o now order f s).1.1 = Ok tt ->
  exists text f', snapshot_text now order s = Ok text /\
    last (SaveSnapshot marshal encode path o now order f s).1.2 = Some f' /\ f' !! path = Some text.
Proof.
  intros Hp%String.eqb_neq. unfold SaveSnapshot, snapshot_text. rewrite Hp, Dump_eq. cbn [fst].
  destruct (mkdir_err o), (open_err o); try done.
  destruct (encode _) as [text|e]; [|done].
  destruct (write_err o), (sync_err o), (close_err o), (rename_err o); try done. cbn [fst snd]. intros _.
  exists text. eexists. split; [done|]. rewrite !last_app. split; [done|]. apply lookup_insert_eq.
Qed.

End File.

(** C30: a crash while saving cannot damage the snapshot.  Whatever call fails
    and wherever the process stops, the snapshot file is the previous one or
    the complete new one, and no file but it and its temporary file is
    touched; when SaveSnapshot reports success the file holds the encoding of
    the dumped store. *)
Theorem snapshot_file_atomic (marshal : Json.json -> string) (encode : Snapshot -> result string)
    path o now order f s :
  path <> "" ->
  let '(r, states, _) := SaveSnapshot marshal encode path o now order f s in
  (forall f', f' ∈ states -> untorn path (encode (Dump marshal now order s).1) f f') /\
  (r = Ok tt -> exists text f', encode (Dump marshal now order s).1 = Ok text /\
                  last states = Some f' /\ f' !! path = Some text).
Proof.
  intros Hp. pose proof (save_states marshal encode path o now order f s) as H1.
  pose proof (save_ok marshal encode path o now order f s Hp) as H2.
  destruct (SaveSnapshot _ _ _ _ _ _ _ _) as [[r states] s']. done.
Qed.

Lemma snapshot_file_atomic_witness :
  let o := mkIO None None [1%nat] None (Some "disk full") None None in
  let states := (SaveSnapshot (fun _ => "null") (fun _ => Ok "text") "dump" o 0 [] {["dump" := "old"]} small_store).1.2 in
  (forall f', f' ∈ states -> untorn "dump" (Ok "text") {["dump" := "old"]} f') /\ zlen states = 4.
Proof.
  split; [|vm_compute; reflexivity].
  pose proof (snapshot_file_atomic (fun _ => "null") (fun _ => Ok "text") "dump"
    (mkIO None None [1%nat] None (Some "disk full") None None) 0 [] {["dump" := "old"]} small_store
    ltac:(discriminate)) as H.
  destruct (SaveSnapshot _ _ _ _ _ _ _ _) as [[r states] s']. exact (proj1 H).
Defined.

(** Loading replaces the key versions with an empty map, so a transaction
    that watched a key before it existed does not see that the load created
    it. *)
Theorem load_hides_from_watch :
  let d := (Dump (fun _ => "null") 1 ["s"] small_store).1 in
  let s := Load (fun _ => Some Json.JNull) 2 ["s"] d New in
  existsRLocked 2 "s" New = false /\ existsRLocked 2 "s" s = true /\
  KeysModifiedSince (KeyVersions ["s"] New) s = false.
Proof. vm_compute. done. Qed.
End Snapshots.
