(* ===== verification/StoreBits.v ===== *)
(** * Bitmaps (SetBit, GetBit, BitCount, BitOp, BitPos of internal/store/store.go)

    A string is read as a sequence of bits, most significant bit of each byte
    first.  Bytes are integers between 0 and 255 with Go's byte operations;
    the loops are the counting loops of the prelude.  The specification is
    [bit_at], the infinite sequence of bits of a string (zero past its end):
    SETBIT updates it at one position, BITCOUNT counts it, BITPOS searches it
    and BITOP combines such sequences pointwise. *)
From S2P Require Import Prelude GoLib Store StoreStrings.

Module Bits.
Import Store Strings.

(** ** Bytes *)

Definition byte_of (c : ascii) : Z := Z.of_N (N_of_ascii c).
Definition bytes (s : string) : list Z := byte_of <$> list_ascii_of_string s.
Definition string_of_bytes (l : list Z) : string := string_of_list_ascii ((fun b => ascii_of_N (Z.to_N b)) <$> l).

Definition badOffset : string := "bit offset is not an integer or out of range".
Definition badBit : string := "bit is not an integer or out of range".

(** A byte has 8 bits, so 8 rounds empty it. *)
Fixpoint popcount_loop (fuel : nat) (b count : Z) : Z :=
  match fuel with
  | O => count
  | S fuel => if b =? 0 then count else popcount_loop fuel (Z.shiftr b 1) (count + Z.land b 1)
  end.

Definition popcount (b : Z) : Z := popcount_loop 8 b 0.

(** ** The commands *)

Definition SetBit (now : Z) (key : string) (offset value : Z) (s : Store) : result Z * Store :=
  if offset <? 0 then (Err badOffset, s)
  else if negb (value =? 0) && negb (value =? 1) then (Err badBit, s)
  else
    let '(_, s) := expiredKeyLocked now key s in
    if has_container key s then (Err wrongType, s)
    else
      let byteIndex := Z.quot offset 8 in
      let bitIndex := 7 - Z.rem offset 8 in
      let buf := bytes (default "" (kv s !! key)) in
      let buf := if byteIndex >=? zlen buf
                 then buf ++ replicate (Z.to_nat (byteIndex + 1 - zlen buf)) 0 else buf in
      let b := zget buf byteIndex in
      let oldBit := Z.land (Z.shiftr b bitIndex) 1 in
      let b := if value =? 1 then Z.lor b (Z.shiftl 1 bitIndex) else Z.ldiff b (Z.shiftl 1 bitIndex) in
      let buf := zset buf byteIndex b in
      (Ok oldBit, touchKeyLocked now [key] (s <| kv ::= <[key := string_of_bytes buf]> |>)).

Definition GetBit (now : Z) (key : string) (offset : Z) (s : Store) : result Z :=
  if offset <? 0 then Err badOffset
  else if isExpiredRLocked now key s then Ok 0
  else if has_container key s then Err wrongType
  else match kv s !! key with
       | None => Ok 0
       | Some v =>
           let data := bytes v in
           let byteIndex := Z.quot offset 8 in
           let bitIndex := 7 - Z.rem offset 8 in
           if byteIndex >=? zlen data then Ok 0
           else Ok (Z.land (Z.shiftr (zget data byteIndex) bitIndex) 1)
       end.

(** The byte range of BITCOUNT and BITPOS. *)
Definition byte_bounds (n start stop : Z) (hasBounds : bool) : Z * Z :=
  let start := if hasBounds then start else 0 in
  let stop := if hasBounds then stop else n - 1 in
  let start := if start <? 0 then n + start else start in
  let stop := if stop <? 0 then n + stop else stop in
  let start := if start <? 0 then 0 else start in
  let stop := if stop >=? n then n - 1 else stop in
  (start, stop).

Definition BitCount (now : Z) (key : string) (start stop : Z) (hasBounds : bool) (s : Store) : result Z :=
  if isExpiredRLocked now key s then Ok 0
  else if has_container key s then Err wrongType
  else match kv s !! key with
       | None => Ok 0
       | Some v =>
           let data := bytes v in
           let '(start, stop) := byte_bounds (zlen data) start stop hasBounds in
           if start >? stop then Ok 0
           else Ok (for_range start (stop + 1) (fun i count => count + popcount (zget data i)) 0)
       end.

(** The values of the source keys, up to the first one of another type. *)
Fixpoint read_bufs (now : Z) (keys : list string) (s : Store) : result (list (list Z)) * Store :=
  match keys with
  | [] => (Ok [], s)
  | key :: keys =>
      let '(_, s) := expiredKeyLocked now key s in
      if has_container key s then (Err wrongType, s)
      else
        let buf := match kv s !! key with Some v => bytes v | None => [] end in
        let '(r, s) := read_bufs now keys s in
        match r with Ok bufs => (Ok (buf :: bufs), s) | Err e => (Err e, s) end
  end.

Definition max_len (bufs : list (list Z)) : Z := fold_left (fun m buf => if zlen buf >? m then zlen buf else m) bufs 0.

Definition and_buf (maxLen : Z) (result buf : list Z) : list Z :=
  for_range 0 maxLen (fun i r =>
    zset r i (Z.land (zget r i) (if i <? zlen buf then zget buf i else 0))) result.

Definition or_buf (result buf : list Z) : list Z :=
  for_range 0 (zlen buf) (fun i r => zset r i (Z.lor (zget r i) (zget buf i))) result.

Definition xor_buf (result buf : list Z) : list Z :=
  for_range 0 (zlen buf) (fun i r => zset r i (Z.lxor (zget r i) (zget buf i))) result.

Definition not_buf (maxLen : Z) (buf result : list Z) : list Z :=
  for_range 0 maxLen (fun i r => zset r i (Z.lxor (zget buf i) 255)) result.

Definition bitop_result (op : string) (bufs : list (list Z)) : option (list Z) :=
  let maxLen := max_len bufs in
  let zeros := replicate (Z.to_nat maxLen) 0 in
  if (op =? "AND")%string then Some (fold_left (and_buf maxLen) bufs (replicate (Z.to_nat maxLen) 255))
  else if (op =? "OR")%string then Some (fold_left or_buf bufs zeros)
  else if (op =? "XOR")%string then Some (fold_left xor_buf bufs zeros)
  else if (op =? "NOT")%string then Some (not_buf maxLen (zget bufs 0) zeros)
  else None.

(** [op] in the upper case [strings.ToUpper] gives it; the message of an
    unknown operation is the format string without the quoted name. *)
Definition BitOp (now : Z) (op destKey : string) (keys : list string) (s : Store) : result Z * Store :=
  if (op =? "NOT")%string && negb (zlen keys =? 1) then (Err "BITOP NOT requires one and only one key", s)
  else
    let '(r, s) := read_bufs now keys s in
    match r with
    | Err e => (Err e, s)
    | Ok bufs =>
        match bitop_result op bufs with
        | None => (Err "unsupported BITOP operation", s)
        | Some result =>
            let s := deleteKeyLocked now destKey s in
            let s := s <| kv ::= <[destKey := string_of_bytes result]> |> in
            (Ok (max_len bufs), touchKeyLocked now [destKey] s)
        end
    end.

(** The inner loop of BITPOS: the first bit of a byte that equals [bit]. *)
Fixpoint bit_in_byte (b bit : Z) (js : list Z) : option Z :=
  match js with
  | [] => None
  | j :: js => if Z.land (Z.shiftr b j) 1 =? bit then Some (7 - j) else bit_in_byte b bit js
  end.

Fixpoint bitpos_loop (data : list Z) (bit : Z) (idx : list Z) : option Z :=
  match idx with
  | [] => None
  | i :: idx =>
      match bit_in_byte (zget data i) bit [7; 6; 5; 4; 3; 2; 1; 0] with
      | Some p => Some (i * 8 + p)
      | None => bitpos_loop data bit idx
      end
  end.

Definition BitPos (now : Z) (key : string) (bit start stop : Z) (hasBounds : bool) (s : Store) : result Z :=
  if isExpiredRLocked now key s then Ok (if bit =? 0 then 0 else -1)
  else if has_container key s then Err wrongType
  else match kv s !! key with
       | None => Ok (if bit =? 0 then 0 else -1)
       | Some v =>
           let data := bytes v in
           let n := zlen data in
           let '(start, stop) := byte_bounds n start stop hasBounds in
           if start >? stop then Ok (-1)
           else match bitpos_loop data bit (seqZ start (stop + 1 - start)) with
                | Some p => Ok p
                | None => Ok (if (bit =? 0) && negb hasBounds then n * 8 else -1)
                end
       end.

(** ** The bits of a string *)

(** Bit [p] of a sequence of bytes, most significant bit first; false past
    the end. *)
Definition bit_at (l : list Z) (p : Z) : bool :=
  if (0 <=? p) && (p / 8 <? zlen l) then Z.testbit (zget l (p / 8)) (7 - p mod 8) else false.


(** ** Bytes and strings *)

Definition is_byte (b : Z) : Prop := 0 <= b < 256.

Lemma byte_of_range c : is_byte (byte_of c).
Proof. unfold is_byte, byte_of. pose proof (N_ascii_bounded c). lia. Qed.

Lemma bytes_range s : Forall is_byte (bytes s).
Proof. unfold bytes. apply Forall_fmap, Forall_true. intros c. apply byte_of_range. Qed.

Lemma zlen_bytes s : zlen (bytes s) = slen s.
Proof. unfold zlen, bytes, slen. by rewrite length_fmap, length_list_ascii. Qed.

Lemma bytes_string l : Forall is_byte l -> bytes (string_of_bytes l) = l.
Proof.
  intros H. unfold bytes, string_of_bytes. rewrite list_ascii_of_string_of_list_ascii, <-list_fmap_compose.
  induction H as [|b l [H1 H2] Hl IH]; [done|]. cbn. f_equal; [|done].
  unfold byte_of. rewrite N_ascii_embedding by lia. lia.
Qed.

Lemma zget_byte l i : Forall is_byte l -> 0 <= i < zlen l -> is_byte (zget l i).
Proof. intros H Hi. apply (Forall_lookup_1 _ _ _ _ H (zget_lookup l i Hi)). Qed.

Lemma zset_bytes l i b : Forall is_byte l -> is_byte b -> Forall is_byte (zset l i b).
Proof. intros H Hb. unfold zset. case_match; [by apply Forall_insert|done]. Qed.

(** A decidable fact about bytes can be checked on all 256 of them. *)
Lemma byte_cases (P : Z -> bool) : forallb P (seqZ 0 256) = true -> forall b, is_byte b -> P b = true.
Proof.
  intros H b Hb. rewrite forallb_forall in H. apply H, list_elem_of_In, elem_of_seqZ. unfold is_byte in Hb. lia.
Qed.

Lemma shift_bit b j : 0 <= j -> Z.land (Z.shiftr b j) 1 = Z.b2z (Z.testbit b j).
Proof.
  intros Hj. change 1 with (Z.ones 1). rewrite Z.land_ones, Z.testbit_spec', Z.shiftr_div_pow2 by lia. done.
Qed.

Lemma is_byte_bits b : (forall j, 8 <= j -> Z.testbit b j = false) -> 0 <= b -> is_byte b.
Proof.
  intros H Hb. split; [done|]. destruct (Z.lt_ge_cases b 256) as [|Hge]; [done|]. exfalso.
  assert (8 <= Z.log2 b) as Hl by (apply (Z.log2_le_mono 256) in Hge; exact Hge).
  specialize (H (Z.log2 b) Hl). rewrite Z.bit_log2 in H by lia. done.
Qed.

Lemma byte_high b j : is_byte b -> 8 <= j -> Z.testbit b j = false.
Proof.
  intros [H1 H2] Hj. destruct (Z.eq_dec b 0) as [->|]; [apply Z.testbit_0_l|].
  apply Z.bits_above_log2; [done|]. apply (Z.lt_le_trans _ 8); [|done]. apply Z.log2_lt_pow2; lia.
Qed.

Lemma bit_at_byte l i j : 0 <= i < zlen l -> 0 <= j < 8 -> bit_at l (8 * i + j) = Z.testbit (zget l i) (7 - j).
Proof.
  intros Hi Hj. unfold bit_at.
  rewrite <-(Z.div_unique (8 * i + j) 8 i j), <-(Z.mod_unique (8 * i + j) 8 i j) by lia.
  by rewrite (proj2 (Z.leb_le _ _)), (proj2 (Z.ltb_lt _ _)) by lia.
Qed.

Lemma bit_at_past l p : 8 * zlen l <= p -> bit_at l p = false.
Proof.
  intros H. unfold bit_at. rewrite (proj2 (Z.ltb_ge (p / 8) (zlen l))); [by rewrite andb_false_r|].
  apply Z.div_le_lower_bound; lia.
Qed.

Lemma bit_at_empty p : bit_at (bytes "") p = false.
Proof. unfold bit_at. cbn. destruct (Z.leb_spec 0 p); [|done]. by rewrite (proj2 (Z.ltb_ge _ _)) by (apply Z.div_pos; lia). Qed.

(** Every position is a bit of a byte. *)
Lemma bit_position p : 0 <= p -> exists i j, 0 <= i /\ 0 <= j < 8 /\ p = 8 * i + j.
Proof.
  intros H. exists (p / 8), (p mod 8). pose proof (Z.div_mod p 8 ltac:(lia)).
  pose proof (Z.mod_pos_bound p 8 ltac:(lia)). pose proof (Z.div_pos p 8 H ltac:(lia)). lia.
Qed.

(** ** SETBIT and GETBIT *)

Lemma zget_app_l (l1 l2 : list Z) i : 0 <= i < zlen l1 -> zget (l1 ++ l2) i = zget l1 i.
Proof.
  intros H. unfold zget. rewrite (proj2 (Z.leb_le 0 i)) by lia. apply lookup_total_app_l. unfold zlen in H. lia.
Qed.

Lemma bit_at_pad l n p : bit_at (l ++ replicate n 0) p = bit_at l p.
Proof.
  destruct (Z.lt_ge_cases p 0) as [Hn|Hp].
  { unfold bit_at. by rewrite (proj2 (Z.leb_gt 0 p)) by lia. }
  destruct (bit_position p Hp) as (i & j & Hi & Hj & ->).
  destruct (Z.lt_ge_cases i (zlen l)) as [Hl|Hl].
  - rewrite !bit_at_byte by (rewrite ?zlen_app; pose proof (zlen_nonneg (replicate n 0)); lia).
    by rewrite zget_app_l.
  - rewrite (bit_at_past l) by lia. destruct (Z.lt_ge_cases i (zlen l + Z.of_nat n)) as [Hl2|Hl2].
    + rewrite bit_at_byte by (rewrite ?zlen_app, ?zlen_replicate; lia).
      assert ((l ++ replicate n 0) !! Z.to_nat i = Some 0) as E.
      { unfold zlen in *. rewrite lookup_app_r by lia. apply lookup_replicate_2. lia. }
      pose proof (lookup_zget _ _ _ E) as E'. rewrite Z2Nat.id in E' by lia. rewrite E'. apply Z.testbit_0_l.
    + apply bit_at_past. rewrite zlen_app, zlen_replicate. lia.
Qed.

Lemma bit_at_zset l i b p :
  0 <= i < zlen l -> 0 <= p ->
  bit_at (zset l i b) p = if p / 8 =? i then Z.testbit b (7 - p mod 8) else bit_at l p.
Proof.
  intros Hi Hp. unfold bit_at. rewrite zlen_zset, (proj2 (Z.leb_le 0 p)) by lia. cbn [andb].
  destruct (Z.eqb_spec (p / 8) i) as [->|Hne].
  - by rewrite (proj2 (Z.ltb_lt _ _)), zget_zset_eq by lia.
  - by rewrite zget_zset_ne by done.
Qed.

(** Writing one bit of a byte. *)
Definition put_bit (b bitIndex value : Z) : Z :=
  if value =? 1 then Z.lor b (Z.shiftl 1 bitIndex) else Z.ldiff b (Z.shiftl 1 bitIndex).

Lemma testbit_mask k j : 0 <= k -> Z.testbit (Z.shiftl 1 k) j = (j =? k).
Proof. intros. rewrite Z.shiftl_1_l. destruct (Z.eqb_spec j k) as [->|]; [by apply Z.pow2_bits_true|by apply Z.pow2_bits_false]. Qed.

Lemma put_bit_spec b k v j : 0 <= k -> 0 <= j ->
  Z.testbit (put_bit b k v) j = if j =? k then v =? 1 else Z.testbit b j.
Proof.
  intros Hk Hj. unfold put_bit. destruct (v =? 1).
  - rewrite Z.lor_spec, testbit_mask by done. destruct (j =? k); [apply orb_true_r|apply orb_false_r].
  - rewrite Z.ldiff_spec, testbit_mask by done. destruct (j =? k); [apply andb_false_r|apply andb_true_r].
Qed.

Lemma put_bit_byte b k v : is_byte b -> 0 <= k < 8 -> is_byte (put_bit b k v).
Proof.
  intros Hb Hk. apply is_byte_bits.
  - intros j Hj. rewrite put_bit_spec by lia. rewrite (proj2 (Z.eqb_neq j k)) by lia. by apply byte_high.
  - unfold put_bit. destruct Hb. case_match; [apply Z.lor_nonneg; split; [lia|]|apply Z.ldiff_nonneg; lia].
    apply Z.shiftl_nonneg. lia.
Qed.

(** What the commands read under a key: the string of its live entry. *)
Definition value_of (now : Z) (s : Store) (key : string) : string := default "" (e_kv (live now (entry s key))).

Lemma GetBit_value now key p s :
  0 <= p -> e_container (live now (entry s key)) = false ->
  GetBit now key p s = Ok (Z.b2z (bit_at (bytes (value_of now s key)) p)).
Proof.
  intros Hp. unfold GetBit, value_of, live. rewrite (proj2 (Z.ltb_ge p 0)), isExpired_entry, has_container_entry by done.
  destruct (e_expired now (entry s key)); [intros _; by rewrite bit_at_empty|]. intros ->.
  cbn [entry e_kv]. destruct (kv s !! key) as [v|]; [change (default "" (Some v)) with v|by rewrite bit_at_empty].
  rewrite Z.quot_div_nonneg, Z.rem_mod_nonneg by lia. pose proof (Z.mod_pos_bound p 8 ltac:(lia)).
  unfold bit_at. rewrite (proj2 (Z.leb_le 0 p)) by done. cbn [andb]. rewrite Z.geb_leb.
  destruct (Z.leb_spec (zlen (bytes v)) (p / 8)).
  - by rewrite (proj2 (Z.ltb_ge _ _)) by lia.
  - rewrite (proj2 (Z.ltb_lt _ _)) by lia. f_equal. apply shift_bit. lia.
Qed.

(** The buffer of SETBIT: long enough, with the bits of the old value. *)
Definition extended (buf : list Z) (byteIndex : Z) : list Z :=
  if byteIndex >=? zlen buf then buf ++ replicate (Z.to_nat (byteIndex + 1 - zlen buf)) 0 else buf.

Lemma extended_spec buf i :
  0 <= i -> Forall is_byte buf ->
  zlen (extended buf i) = Z.max (zlen buf) (i + 1) /\ Forall is_byte (extended buf i) /\
  forall p, bit_at (extended buf i) p = bit_at buf p.
Proof.
  intros Hi Hb. unfold extended. rewrite Z.geb_leb. destruct (Z.leb_spec (zlen buf) i).
  - split; [rewrite zlen_app, zlen_replicate; lia|]. split; [|intros p; apply bit_at_pad].
    apply Forall_app. split; [done|]. apply Forall_replicate. unfold is_byte. lia.
  - split; [lia|done].
Qed.

(** SETBIT on a key that holds a string or nothing: the state after, the
    reply, and the new value. *)
Lemma SetBit_shape now key p v s :
  0 <= p -> v = 0 \/ v = 1 -> e_container (live now (entry s key)) = false ->
  exists s', SetBit now key p v s = (Ok (Z.b2z (bit_at (bytes (value_of now s key)) p)), s') /\
    entry s' key = live now (entry s key) <| e_kv := Some (string_of_bytes
      (let buf := extended (bytes (value_of now s key)) (p / 8) in
       zset buf (p / 8) (put_bit (zget buf (p / 8)) (7 - p mod 8) v))) |> /\
    forall k, k <> key -> entry s' k = entry s k.
Proof.
  intros Hp Hv Hc. unfold SetBit. rewrite (proj2 (Z.ltb_ge p 0)) by done.
  assert (negb (v =? 0) && negb (v =? 1) = false) as -> by (by destruct Hv as [->| ->]).
  destruct (expiredKey_split now key s) as (s1 & -> & Hk & Hne & _).
  rewrite has_container_entry, Hk, Hc. rewrite Z.quot_div_nonneg, Z.rem_mod_nonneg by lia.
  assert (kv s1 !! key = e_kv (live now (entry s key))) as Hkv by (rewrite <-Hk; done).
  rewrite Hkv. fold (value_of now s key). set (old := bytes (value_of now s key)).
  fold (extended old (p / 8)). set (buf := extended old (p / 8)).
  eexists. split; [|split].
  - f_equal. f_equal. pose proof (Z.mod_pos_bound p 8 ltac:(lia)).
    rewrite shift_bit by lia. f_equal.
    pose proof (Z.div_pos p 8 Hp ltac:(lia)) as Hd.
    destruct (extended_spec old (p / 8) Hd (bytes_range _)) as (Hl & _ & Hb). fold buf in Hl, Hb.
    rewrite <-Hb. unfold bit_at. rewrite (proj2 (Z.leb_le 0 p)), (proj2 (Z.ltb_lt _ _)) by lia. done.
  - rewrite entry_touch, entry_set_kv, Hk. cbn zeta. by rewrite lookup_insert_eq.
  - intros k Hkk. rewrite entry_touch, entry_set_kv, <-(Hne k Hkk). by rewrite lookup_insert_ne.
Qed.

(** SETBIT and GETBIT address one bit.  On a key that holds a string or
    nothing, SETBIT answers the old bit and leaves a string that differs from
    the old one in that bit only (zero bits are appended up to the byte that
    holds it), the deadline of the key stays, GETBIT reads every bit of the
    new value, and no other key changes. *)
Theorem setbit_one_bit now key p v s :
  0 <= p -> v = 0 \/ v = 1 -> e_container (live now (entry s key)) = false ->
  let old := value_of now s key in
  let '(r, s') := SetBit now key p v s in
  let new := value_of now s' key in
  r = Ok (Z.b2z (bit_at (bytes old) p)) /\
  slen new = Z.max (slen old) (p / 8 + 1) /\
  (forall q, 0 <= q -> bit_at (bytes new) q = if q =? p then v =? 1 else bit_at (bytes old) q) /\
  (forall q, 0 <= q -> GetBit now key q s' = Ok (Z.b2z (bit_at (bytes new) q))) /\
  e_expire (entry s' key) = e_expire (live now (entry s key)) /\
  (forall k, k <> key -> entry s' k = entry s k).
Proof.
  intros Hp Hv Hc. cbv zeta. destruct (SetBit_shape now key p v s Hp Hv Hc) as (s' & -> & He & Hne).
  set (old := value_of now s key) in *. set (buf := extended (bytes old) (p / 8)) in *. cbv zeta in He.
  set (new := zset buf _ _) in He.
  pose proof (Z.div_pos p 8 Hp ltac:(lia)) as Hd. pose proof (Z.mod_pos_bound p 8 ltac:(lia)) as Hm.
  destruct (extended_spec (bytes old) (p / 8) Hd (bytes_range _)) as (Hl & Hf & Hb). fold buf in Hl, Hf, Hb.
  assert (Forall is_byte new) as Hnew.
  { apply zset_bytes; [done|]. apply put_bit_byte; [|lia]. apply zget_byte; [done|lia]. }
  assert (live now (entry s' key) = entry s' key) as Hlive.
  { apply live_fresh. rewrite He. apply (e_expired_live now (entry s key)). }
  assert (value_of now s' key = string_of_bytes new) as Hval by (unfold value_of; by rewrite Hlive, He).
  rewrite Hval, bytes_string by done. split; [done|]. split; [|split; [|split; [|split; [|done]]]].
  - rewrite <-zlen_bytes, bytes_string, <-zlen_bytes by done. unfold new. by rewrite zlen_zset, Hl.
  - intros q Hq. unfold new. rewrite bit_at_zset, put_bit_spec, Hb by (pose proof (Z.mod_pos_bound q 8 ltac:(lia)); lia).
    pose proof (Z.mod_pos_bound q 8 ltac:(lia)) as Hmq. pose proof (Z.div_mod p 8 ltac:(lia)). pose proof (Z.div_mod q 8 ltac:(lia)).
    destruct (Z.eqb_spec (q / 8) (p / 8)) as [E|E]; [|by rewrite (proj2 (Z.eqb_neq q p)) by congruence].
    destruct (Z.eqb_spec q p) as [->|]; [by rewrite Z.eqb_refl|].
    rewrite (proj2 (Z.eqb_neq _ _)) by lia. rewrite <-Hb. unfold bit_at.
    rewrite (proj2 (Z.leb_le 0 q)), (proj2 (Z.ltb_lt (q / 8) (zlen buf))) by lia. cbn [andb]. by rewrite E.
  - intros q Hq. rewrite GetBit_value; [|done|]; [by rewrite Hval, bytes_string|]. by rewrite Hlive, He.
  - by rewrite He.
Qed.

Lemma setbit_one_bit_witness :
  let s := Set_ 0 "k" "a" 0 New in
  (SetBit 1 "k" 14 1 s).1 = Ok 0 /\ slen (value_of 1 (SetBit 1 "k" 14 1 s).2 "k") = 2.
Proof.
  cbv zeta.
  pose proof (setbit_one_bit 1 "k" 14 1 (Set_ 0 "k" "a" 0 New) ltac:(lia) (or_intror eq_refl) ltac:(vm_compute; reflexivity)) as H.
  destruct (SetBit 1 "k" 14 1 (Set_ 0 "k" "a" 0 New)) as [r s']. cbv zeta in H. cbn [fst snd].
  destruct H as (H1 & H2 & _). split; [rewrite H1; vm_compute; reflexivity|rewrite H2; vm_compute; reflexivity].
Defined.

(** ** BITCOUNT and BITPOS *)

(** The positions of the bits of bytes [lo] to [hi]. *)
Definition positions (lo hi : Z) : list Z := seqZ (8 * lo) (8 * (hi + 1 - lo)).

(** The positions of a list that hold [bit]. *)
Definition hits (bit : Z) (data : list Z) (ps : list Z) : list Z := filter (fun p => Z.b2z (bit_at data p) = bit) ps.

(** The positions in a byte, from its most significant bit, that hold [bit]. *)
Definition byte_hits (bit b : Z) : list Z := filter (fun j => Z.b2z (Z.testbit b (7 - j)) = bit) (seqZ 0 8).

Lemma popcount_spec b : is_byte b -> popcount b = zlen (byte_hits 1 b).
Proof.
  intros Hb. apply Z.eqb_eq. apply (byte_cases (fun b => popcount b =? zlen (byte_hits 1 b))); [|done].
  vm_compute. reflexivity.
Qed.

Definition same_first (bit b : Z) : bool :=
  bool_decide (bit_in_byte b bit [7; 6; 5; 4; 3; 2; 1; 0] = head (byte_hits bit b)).

Lemma bit_in_byte_spec b bit : is_byte b -> bit = 0 \/ bit = 1 ->
  bit_in_byte b bit [7; 6; 5; 4; 3; 2; 1; 0] = head (byte_hits bit b).
Proof.
  intros Hb Hbit.
  assert (same_first bit b = true) as H.
  { apply byte_cases; [|done]. destruct Hbit as [->| ->]; vm_compute; reflexivity. }
  unfold same_first in H. by apply bool_decide_eq_true in H.
Qed.

(** The positions of one byte, and of a range from its first byte on. *)
Lemma seqZ_shift i n : seqZ i n = (fun j => i + j) <$> seqZ 0 n.
Proof. rewrite fmap_add_seqZ. by rewrite Z.add_0_r. Qed.

Lemma positions_snoc lo hi : lo <= hi -> positions lo hi = positions lo (hi - 1) ++ ((fun j => 8 * hi + j) <$> seqZ 0 8).
Proof.
  intros H. unfold positions. replace (8 * (hi + 1 - lo)) with (8 * (hi - 1 + 1 - lo) + 8) by lia.
  rewrite seqZ_app by lia. f_equal. rewrite seqZ_shift. f_equal. 
  replace (8 * lo + 8 * (hi - 1 + 1 - lo)) with (8 * hi) by lia. done.
Qed.

Lemma positions_cons lo hi : lo <= hi -> positions lo hi = ((fun j => 8 * lo + j) <$> seqZ 0 8) ++ positions (lo + 1) hi.
Proof.
  intros H. unfold positions. replace (8 * (hi + 1 - lo)) with (8 + 8 * (hi + 1 - (lo + 1))) by lia.
  rewrite seqZ_app by lia. f_equal; [by rewrite seqZ_shift|]. f_equal. lia.
Qed.

Lemma hits_byte bit data i :
  0 <= i < zlen data ->
  hits bit data ((fun j => 8 * i + j) <$> seqZ 0 8) = (fun j => 8 * i + j) <$> byte_hits bit (zget data i).
Proof.
  intros Hi. unfold hits, byte_hits.
  assert (Forall (fun j => 0 <= j < 8) (seqZ 0 8)) as Hall by (apply Forall_forall; intros j Hj; apply elem_of_seqZ in Hj; lia).
  induction Hall as [|j js Hj _ IH]; [done|]. cbn [fmap list_fmap]. rewrite !filter_cons, bit_at_byte by done.
  case_decide; [cbn [fmap list_fmap]; f_equal|]; exact IH.
Qed.

Lemma count_loop_spec data lo n :
  Forall is_byte data -> 0 <= lo -> 0 <= n -> lo + n <= zlen data ->
  for_range lo (lo + n) (fun i count => count + popcount (zget data i)) 0 =
  zlen (hits 1 data (positions lo (lo + n - 1))).
Proof.
  intros Hb Hlo Hn Hz.
  apply (for_range_inv (fun i count => count = zlen (hits 1 data (positions lo (i - 1))))); [lia| |].
  - unfold positions. rewrite seqZ_nil by lia. done.
  - intros i count Hi ->. replace (i + 1 - 1) with i by lia. rewrite (positions_snoc lo i) by lia.
    unfold hits. rewrite filter_app, zlen_app. fold (hits 1 data (positions lo (i - 1))).
    fold (hits 1 data ((fun j => 8 * i + j) <$> seqZ 0 8)). rewrite hits_byte by lia.
    rewrite popcount_spec by (apply zget_byte; [done|lia]). unfold zlen. by rewrite length_fmap.
Qed.

Lemma pos_loop_spec data bit n lo :
  Forall is_byte data -> bit = 0 \/ bit = 1 -> 0 <= lo -> lo + Z.of_nat n <= zlen data ->
  bitpos_loop data bit (seqZ lo (Z.of_nat n)) = head (hits bit data (positions lo (lo + Z.of_nat n - 1))).
Proof.
  intros Hb Hbit. revert lo. induction n as [|n IH]; intros lo Hlo Hz.
  { unfold positions. by rewrite !seqZ_nil by lia. }
  rewrite seqZ_cons by lia. cbn [bitpos_loop].
  rewrite (positions_cons lo) by lia. unfold hits. rewrite filter_app.
  fold (hits bit data ((fun j => 8 * lo + j) <$> seqZ 0 8)). rewrite hits_byte by lia.
  rewrite bit_in_byte_spec by (done || (apply zget_byte; [done|lia])).
  destruct (byte_hits bit (zget data lo)) as [|j js]; cbn [fmap list_fmap app head].
  - replace (Z.pred (Z.of_nat (S n))) with (Z.of_nat n) by lia.
    replace (Z.succ lo) with (lo + 1) by lia. rewrite IH by lia. unfold hits. do 3 f_equal. lia.
  - f_equal. lia.
Qed.

Lemma byte_bounds_range n start stop b lo hi :
  0 <= n -> byte_bounds n start stop b = (lo, hi) -> lo <= hi -> 0 <= lo /\ hi < n.
Proof.
  intros Hn. unfold byte_bounds. destruct b; intros [= <- <-]; rewrite !Z.geb_leb;
    repeat match goal with |- context [?a <? ?c] => destruct (Z.ltb_spec a c) | |- context [?a <=? ?c] => destruct (Z.leb_spec a c) end;
    lia.
Qed.

(** The positions a BITCOUNT or BITPOS looks at. *)
Definition window (data : list Z) (start stop : Z) (hasBounds : bool) : list Z :=
  let '(lo, hi) := byte_bounds (zlen data) start stop hasBounds in positions lo hi.

(** BITCOUNT and BITPOS are what they say.  On a stored string BITCOUNT
    is the number of set bits in the bytes the bounds select, and BITPOS is
    the first position there that holds the bit; when there is none it is -1,
    or, for a clear bit of a non-empty string and no bounds, the position just
    past the end. *)
Theorem bit_queries now key start stop hasBounds v s :
  e_kv (live now (entry s key)) = Some v -> e_container (live now (entry s key)) = false ->
  let data := bytes v in
  BitCount now key start stop hasBounds s = Ok (zlen (hits 1 data (window data start stop hasBounds))) /\
  forall bit, bit = 0 \/ bit = 1 ->
    BitPos now key bit start stop hasBounds s =
      Ok match head (hits bit data (window data start stop hasBounds)) with
         | Some p => p
         | None => if (bit =? 0) && negb hasBounds && (0 <? zlen data) then 8 * zlen data else -1
         end.
Proof.
  intros Hv Hc. cbv zeta. unfold BitCount, BitPos, window. rewrite isExpired_entry, has_container_entry.
  assert (e_expired now (entry s key) = false) as Hx.
  { unfold live in Hv. by destruct (e_expired now (entry s key)). }
  rewrite live_fresh in Hv, Hc by done. rewrite Hx, Hc. cbn [entry e_kv] in Hv. rewrite Hv.
  set (data := bytes v). pose proof (bytes_range v : Forall is_byte data) as Hb.
  pose proof (zlen_nonneg data) as Hn.
  destruct (byte_bounds (zlen data) start stop hasBounds) as [lo hi] eqn:E.
  rewrite Z.gtb_ltb. destruct (Z.ltb_spec hi lo) as [Hlt|Hle].
  - assert (positions lo hi = []) as -> by (unfold positions; apply seqZ_nil; lia). split; [done|].
    intros bit Hbit. cbn [hits head filter list_filter]. 
    assert ((bit =? 0) && negb hasBounds && (0 <? zlen data) = false) as ->; [|done].
    destruct hasBounds; [by rewrite andb_false_r|]. unfold byte_bounds in E. injection E as <- <-.
    destruct (Z.ltb_spec 0 (zlen data)); [|by rewrite andb_false_r].
    revert Hlt. rewrite Z.geb_leb. repeat case_match; lia.
  - destruct (byte_bounds_range _ _ _ _ _ _ Hn E Hle) as [Hlo Hhi]. split.
    + f_equal. replace (hi + 1) with (lo + (hi + 1 - lo)) by lia. rewrite count_loop_spec by (done || lia).
      do 3 f_equal. lia.
    + intros bit Hbit. pose proof (pos_loop_spec data bit (Z.to_nat (hi + 1 - lo)) lo Hb Hbit Hlo ltac:(lia)) as Hp.
      rewrite Z2Nat.id in Hp by lia. replace (lo + (hi + 1 - lo) - 1) with hi in Hp by lia. rewrite Hp.
      destruct (head _) as [p|]; [done|]. rewrite (proj2 (Z.ltb_lt 0 (zlen data))) by lia.
      rewrite andb_true_r, Z.mul_comm. done.
Qed.

Lemma bit_queries_witness :
  let s := Set_ 0 "k" "abc" 0 New in
  BitCount 1 "k" 0 (-2) true s = Ok 6 /\ BitPos 1 "k" 1 1 2 true s = Ok 9 /\ BitPos 1 "k" 0 0 0 false s = Ok 0.
Proof.
  pose proof (bit_queries 1 "k" 0 (-2) true "abc" (Set_ 0 "k" "abc" 0 New) ltac:(vm_compute; reflexivity) ltac:(vm_compute; reflexivity)) as [H1 _].
  pose proof (bit_queries 1 "k" 1 2 true "abc" (Set_ 0 "k" "abc" 0 New) ltac:(vm_compute; reflexivity) ltac:(vm_compute; reflexivity)) as [_ H2].
  cbv zeta. split; [|split].
  - rewrite H1. vm_compute. reflexivity.
  - rewrite (H2 1 (or_intror eq_refl)). vm_compute. reflexivity.
  - vm_compute. reflexivity.
Defined.

(** ** BITOP *)

(** A loop that updates the bytes of a buffer one by one. *)
Lemma update_loop (f : Z -> Z -> Z) m r :
  0 <= m <= zlen r ->
  let r' := for_range 0 m (fun i r => zset r i (f i (zget r i))) r in
  zlen r' = zlen r /\ forall i, 0 <= i < zlen r -> zget r' i = if i <? m then f i (zget r i) else zget r i.
Proof.
  intros Hm. cbv zeta.
  apply (for_range_inv (fun m r' => zlen r' = zlen r /\
    forall i, 0 <= i < zlen r -> zget r' i = if i <? m then f i (zget r i) else zget r i)); [lia| |].
  - split; [done|]. intros i Hi. by rewrite (proj2 (Z.ltb_ge i 0)) by lia.
  - intros k r' Hk [Hl Hg]. split; [by rewrite zlen_zset|]. intros i Hi. destruct (Z.eq_dec i k) as [->|Hne].
    + rewrite zget_zset_eq by lia. rewrite Hg by lia.
      by rewrite (proj2 (Z.ltb_ge k k)), (proj2 (Z.ltb_lt k (k + 1))) by lia.
    + rewrite zget_zset_ne by done. rewrite Hg by done.
      destruct (Z.ltb_spec i k); [by rewrite (proj2 (Z.ltb_lt i (k + 1))) by lia|].
      by rewrite (proj2 (Z.ltb_ge i (k + 1))) by lia.
Qed.

(** Byte [i] of a buffer, zero past its end. *)
Definition byte_or0 (i : Z) (buf : list Z) : Z := if i <? zlen buf then zget buf i else 0.

Lemma max_len_spec bufs : 0 <= max_len bufs /\ forall buf, buf ∈ bufs -> zlen buf <= max_len bufs.
Proof.
  unfold max_len.
  assert (forall m, m <= fold_left (fun m buf => if zlen buf >? m then zlen buf else m) bufs m /\
    forall buf, buf ∈ bufs -> zlen buf <= fold_left (fun m buf => if zlen buf >? m then zlen buf else m) bufs m) as H.
  { induction bufs as [|b bufs IH]; intros m; cbn [fold_left]; [split; [lia|by intros ? ?%elem_of_nil]|].
    rewrite Z.gtb_ltb. destruct (IH (if m <? zlen b then zlen b else m)) as [H1 H2].
    destruct (Z.ltb_spec m (zlen b)); split; try lia; intros buf [->|Hin]%elem_of_cons; try lia; by apply H2. }
  apply H.
Qed.

(** One pass of AND, OR or XOR combines byte [i] of the accumulator with byte
    [i] of the buffer. *)
Definition passes (op : Z -> Z -> Z) (m : Z) (pass : list Z -> list Z -> list Z) : Prop :=
  forall r buf, zlen r = m -> zlen buf <= m ->
    zlen (pass r buf) = m /\ forall i, 0 <= i < m -> zget (pass r buf) i = op (zget r i) (byte_or0 i buf).

Lemma and_passes m : 0 <= m -> passes Z.land m (and_buf m).
Proof.
  intros Hm r buf Hr Hb. unfold and_buf.
  destruct (update_loop (fun i x => Z.land x (if i <? zlen buf then zget buf i else 0)) m r ltac:(lia)) as [H1 H2].
  cbv zeta in *. split; [congruence|]. intros i Hi. rewrite H2 by lia. by rewrite (proj2 (Z.ltb_lt i m)) by lia.
Qed.

Lemma partial_passes (op : Z -> Z -> Z) m :
  (forall x, op x 0 = x) -> passes op m (fun r buf => for_range 0 (zlen buf) (fun i r => zset r i (op (zget r i) (zget buf i))) r).
Proof.
  intros Hop r buf Hr Hb.
  destruct (update_loop (fun i x => op x (zget buf i)) (zlen buf) r) as [H1 H2]; [pose proof (zlen_nonneg buf); lia|].
  cbv zeta in *. split; [congruence|]. intros i Hi. rewrite H2 by lia. unfold byte_or0.
  by destruct (i <? zlen buf).
Qed.

Lemma fold_passes op m pass bufs r :
  passes op m pass -> zlen r = m -> (forall buf, buf ∈ bufs -> zlen buf <= m) ->
  zlen (fold_left pass bufs r) = m /\
  forall i, 0 <= i < m -> zget (fold_left pass bufs r) i = fold_left op (byte_or0 i <$> bufs) (zget r i).
Proof.
  intros Hp. revert r. induction bufs as [|b bufs IH]; intros r Hr Hb; [done|]. cbn [fold_left fmap list_fmap].
  destruct (Hp r b Hr) as [H1 H2]; [apply Hb; left|].
  destruct (IH (pass r b) H1) as [H3 H4]; [intros buf Hin; apply Hb; by right|].
  split; [done|]. intros i Hi. by rewrite H4, H2.
Qed.

Lemma bit_at_or0 buf i j : 0 <= i -> 0 <= j < 8 -> bit_at buf (8 * i + j) = Z.testbit (byte_or0 i buf) (7 - j).
Proof.
  intros Hi Hj. unfold byte_or0. destruct (Z.ltb_spec i (zlen buf)); [apply bit_at_byte; lia|].
  rewrite Z.testbit_0_l. apply bit_at_past. lia.
Qed.

(** An operation on bytes that works bit by bit. *)
Definition bitwise (op : Z -> Z -> Z) (f : bool -> bool -> bool) : Prop :=
  f false false = false /\ (forall a b, 0 <= a -> 0 <= b -> 0 <= op a b) /\
  forall a b j, Z.testbit (op a b) j = f (Z.testbit a j) (Z.testbit b j).

Lemma bitwise_land : bitwise Z.land andb.
Proof. split; [done|]. split; [intros; apply Z.land_nonneg; by left|apply Z.land_spec]. Qed.

Lemma bitwise_lor : bitwise Z.lor orb.
Proof. split; [done|]. split; [intros; by apply Z.lor_nonneg|apply Z.lor_spec]. Qed.

Lemma bitwise_lxor : bitwise Z.lxor xorb.
Proof. split; [done|]. split; [intros; by apply Z.lxor_nonneg|apply Z.lxor_spec]. Qed.

Lemma bitwise_byte op f a b : bitwise op f -> is_byte a -> is_byte b -> is_byte (op a b).
Proof.
  intros (H0 & H1 & H2) Ha Hb. apply is_byte_bits; [|apply H1; [apply Ha|apply Hb]].
  intros j Hj. by rewrite H2, (byte_high a), (byte_high b).
Qed.

Lemma fold_bitwise op f l a j :
  bitwise op f -> Z.testbit (fold_left op l a) j = fold_left f ((fun b => Z.testbit b j) <$> l) (Z.testbit a j).
Proof.
  intros (_ & _ & H). revert a. induction l as [|b l IH]; intros a; [done|]. cbn [fold_left fmap list_fmap].
  by rewrite IH, H.
Qed.

Lemma fold_byte op f l a : bitwise op f -> is_byte a -> Forall is_byte l -> is_byte (fold_left op l a).
Proof.
  intros H Ha Hl. revert a Ha. induction Hl as [|b l Hb _ IH]; intros a Ha; [done|]. cbn.
  apply IH. by apply (bitwise_byte op f).
Qed.

Lemma byte_or0_byte i buf : 0 <= i -> Forall is_byte buf -> is_byte (byte_or0 i buf).
Proof.
  intros Hi H. unfold byte_or0. destruct (Z.ltb_spec i (zlen buf)); [apply zget_byte; [done|lia]|]. unfold is_byte. lia.
Qed.

Lemma zget_replicate m (x : Z) i : 0 <= i < m -> zget (replicate (Z.to_nat m) x) i = x.
Proof.
  intros H. assert (replicate (Z.to_nat m) x !! Z.to_nat i = Some x) as E by (apply lookup_replicate_2; lia).
  apply lookup_zget in E. by rewrite Z2Nat.id in E by lia.
Qed.

Lemma Forall_zget (l : list Z) : (forall i, 0 <= i < zlen l -> is_byte (zget l i)) -> Forall is_byte l.
Proof.
  intros H. apply Forall_lookup. intros i x Hx. rewrite <-(lookup_zget _ _ _ Hx). apply H.
  apply lookup_lt_Some in Hx. unfold zlen. lia.
Qed.

(** A fold of passes over an initial byte value, bit by bit. *)
Lemma fold_bits op f m pass bufs x :
  bitwise op f -> passes op m pass -> 0 <= m -> is_byte x ->
  (forall buf, buf ∈ bufs -> zlen buf <= m /\ Forall is_byte buf) ->
  let r := fold_left pass bufs (replicate (Z.to_nat m) x) in
  zlen r = m /\ Forall is_byte r /\
  forall i j, 0 <= i < m -> 0 <= j < 8 ->
    bit_at r (8 * i + j) = fold_left f ((fun buf => bit_at buf (8 * i + j)) <$> bufs) (Z.testbit x (7 - j)).
Proof.
  intros Hop Hp Hm Hx Hb. cbv zeta.
  destruct (fold_passes op m pass bufs (replicate (Z.to_nat m) x) Hp) as [Hl Hg].
  { rewrite zlen_replicate. lia. }
  { intros buf Hin. by apply Hb. }
  assert (forall i, 0 <= i < m -> is_byte (zget (fold_left pass bufs (replicate (Z.to_nat m) x)) i)) as Hbytes.
  { intros i Hi. rewrite Hg, zget_replicate by done. apply (fold_byte op f); [done|done|].
    apply Forall_fmap, Forall_forall. intros buf Hin. apply byte_or0_byte; [lia|]. by apply Hb. }
  split; [done|]. split; [apply Forall_zget; intros i Hi; apply Hbytes; lia|].
  intros i j Hi Hj. rewrite bit_at_byte by lia. rewrite Hg, zget_replicate by done. rewrite (fold_bitwise op f) by done.
  rewrite <-list_fmap_compose. f_equal. apply list_fmap_ext. intros n buf _. cbn. symmetry. apply bit_at_or0; lia.
Qed.

Definition combine (op : string) (bits : list bool) : bool :=
  if (op =? "AND")%string then fold_left andb bits true
  else if (op =? "OR")%string then fold_left orb bits false
  else if (op =? "XOR")%string then fold_left xorb bits false
  else negb (hd false bits).

Definition is_bitop (op : string) (n : Z) : Prop := op = "AND" \/ op = "OR" \/ op = "XOR" \/ op = "NOT" /\ n = 1.

Lemma not_bits m buf :
  zlen buf = m -> Forall is_byte buf ->
  let r := not_buf m buf (replicate (Z.to_nat m) 0) in
  zlen r = m /\ Forall is_byte r /\
  forall i j, 0 <= i < m -> 0 <= j < 8 -> bit_at r (8 * i + j) = negb (bit_at buf (8 * i + j)).
Proof.
  intros Hm Hb. pose proof (zlen_nonneg buf). cbv zeta.
  destruct (update_loop (fun i _ => Z.lxor (zget buf i) 255) m (replicate (Z.to_nat m) 0)) as [Hl Hg];
    [rewrite zlen_replicate; lia|]. cbv zeta in *. fold (not_buf m buf (replicate (Z.to_nat m) 0)) in *.
  rewrite zlen_replicate, Z2Nat.id in Hl, Hg by lia.
  split; [done|]. split.
  - apply Forall_zget. intros i Hi. rewrite Hg by lia. rewrite (proj2 (Z.ltb_lt _ _)) by lia.
    apply (bitwise_byte _ _ _ _ bitwise_lxor); [apply zget_byte; [done|lia]|]. unfold is_byte. lia.
  - intros i j Hi Hj. rewrite !bit_at_byte by lia. rewrite Hg by lia. rewrite (proj2 (Z.ltb_lt _ _)) by lia.
    rewrite Z.lxor_spec. change 255 with (Z.ones 8). by rewrite Z.ones_spec_low, xorb_true_r by lia.
Qed.

Lemma bitop_result_spec op bufs :
  is_bitop op (zlen bufs) -> Forall (Forall is_byte) bufs ->
  exists r, bitop_result op bufs = Some r /\ zlen r = max_len bufs /\ Forall is_byte r /\
    forall i j, 0 <= i < max_len bufs -> 0 <= j < 8 ->
      bit_at r (8 * i + j) = combine op ((fun buf => bit_at buf (8 * i + j)) <$> bufs).
Proof.
  intros Hop Hb. destruct (max_len_spec bufs) as [Hm Hmax]. set (m := max_len bufs) in *.
  assert (forall buf, buf ∈ bufs -> zlen buf <= m /\ Forall is_byte buf) as Hall.
  { intros buf Hin. split; [by apply Hmax|]. rewrite Forall_forall in Hb. by apply Hb. }
  unfold bitop_result. fold m. destruct Hop as [->|[->|[->|[-> Hn]]]]; cbn [String.eqb Ascii.eqb Bool.eqb].
  - eexists. split; [reflexivity|].
    destruct (fold_bits Z.land andb m (and_buf m) bufs 255 bitwise_land (and_passes m Hm) Hm ltac:(unfold is_byte; lia) Hall) as (H1 & H2 & H3).
    split; [done|]. split; [done|]. intros i j Hi Hj. rewrite H3 by done. unfold combine. cbn [String.eqb Ascii.eqb Bool.eqb].
    change 255 with (Z.ones 8). by rewrite Z.ones_spec_low by lia.
  - eexists. split; [reflexivity|].
    destruct (fold_bits Z.lor orb m or_buf bufs 0 bitwise_lor (partial_passes Z.lor m Z.lor_0_r) Hm ltac:(unfold is_byte; lia) Hall) as (H1 & H2 & H3).
    split; [done|]. split; [done|]. intros i j Hi Hj. rewrite H3 by done. by rewrite Z.testbit_0_l.
  - eexists. split; [reflexivity|].
    destruct (fold_bits Z.lxor xorb m xor_buf bufs 0 bitwise_lxor (partial_passes Z.lxor m Z.lxor_0_r) Hm ltac:(unfold is_byte; lia) Hall) as (H1 & H2 & H3).
    split; [done|]. split; [done|]. intros i j Hi Hj. rewrite H3 by done. by rewrite Z.testbit_0_l.
  - destruct bufs as [|buf [|buf2 bufs]]; [done| |rewrite !zlen_cons in Hn; pose proof (zlen_nonneg bufs); lia].
    eexists. split; [reflexivity|].
    assert (zlen buf = m) as Hbm.
    { unfold m, max_len. cbn. rewrite Z.gtb_ltb. pose proof (zlen_nonneg buf).
      destruct (Z.ltb_spec 0 (zlen buf)); lia. }
    destruct (not_bits m buf Hbm) as (H1 & H2 & H3); [apply Hall; left|].
    split; [done|]. split; [done|]. exact H3.
Qed.

Lemma read_bufs_spec now keys s :
  (forall k, k ∈ keys -> e_container (live now (entry s k)) = false) ->
  exists s1, read_bufs now keys s = (Ok ((fun k => bytes (value_of now s k)) <$> keys), s1) /\
    forall k, live now (entry s1 k) = live now (entry s k).
Proof.
  revert s. induction keys as [|key keys IH]; intros s Hc; cbn [read_bufs fmap list_fmap]; [by exists s|].
  destruct (expiredKey_split now key s) as (s1 & -> & Hk & Hne & _).
  assert (forall k, live now (entry s1 k) = live now (entry s k)) as Hlive.
  { intros k. destruct (decide (k = key)) as [->|]; [by rewrite Hk, live_idem|by rewrite Hne]. }
  rewrite has_container_entry, Hk, Hc by left.
  destruct (IH s1) as (s2 & E & H2). { intros k Hin. rewrite Hlive. apply Hc. by right. }
  rewrite E. exists s2. split; [|intros k; by rewrite H2].
  f_equal. f_equal. f_equal.
  - assert (kv s1 !! key = e_kv (live now (entry s key))) as -> by (rewrite <-Hk; done).
    unfold value_of. by destruct (e_kv (live now (entry s key))).
  - apply list_fmap_ext. intros i k _. unfold value_of. by rewrite Hlive.
Qed.

(** BITOP works bit by bit.  When no source key holds another type, BITOP
    answers the length of the longest source and stores at the destination a
    string of that length, without a deadline, each bit of which is the AND,
    OR, XOR or negation of the bits of the sources at that position (bits past
    the end of a source count as zero); no other key's live entry changes. *)
Theorem bitop_pointwise now op dest keys s :
  is_bitop op (zlen keys) -> (forall k, k ∈ keys -> e_container (live now (entry s k)) = false) ->
  let srcs := (fun k => bytes (value_of now s k)) <$> keys in
  let '(r, s') := BitOp now op dest keys s in
  r = Ok (max_len srcs) /\
  (exists new, entry s' dest = no_entry <| e_kv := Some new |> /\ slen new = max_len srcs /\
     forall p, 0 <= p < 8 * max_len srcs ->
       bit_at (bytes new) p = combine op ((fun src => bit_at src p) <$> srcs)) /\
  (forall k, k <> dest -> live now (entry s' k) = live now (entry s k)).
Proof.
  intros Hop Hc. cbv zeta. unfold BitOp. destruct (read_bufs_spec now keys s Hc) as (s1 & -> & Hlive).
  set (srcs := (fun k => bytes (value_of now s k)) <$> keys).
  assert ((op =? "NOT")%string && negb (zlen keys =? 1) = false) as ->.
  { destruct Hop as [->|[->|[->|[-> ->]]]]; done. }
  destruct (bitop_result_spec op srcs) as (r & -> & Hl & Hb & Hbits).
  { unfold srcs, zlen. by rewrite length_fmap. }
  { apply Forall_fmap, Forall_true. intros k. apply bytes_range. }
  split; [done|]. split.
  - exists (string_of_bytes r). split; [|split].
    + rewrite entry_touch, entry_set_kv, lookup_insert_eq, entry_delete_eq. done.
    + by rewrite <-zlen_bytes, bytes_string.
    + intros p Hp. rewrite bytes_string by done. destruct (bit_position p ltac:(lia)) as (i & j & Hi & Hj & ->).
      apply Hbits; lia.
  - intros k Hk. rewrite entry_touch, entry_set_kv, lookup_insert_ne by done.
    assert (entry (deleteKeyLocked now dest s1) k = entry s1 k) as E by by apply entry_delete_ne.
    rewrite E. replace (kv (deleteKeyLocked now dest s1) !! k) with (e_kv (entry s1 k)) by (by rewrite <-E).
    rewrite <-Hlive. by destruct (entry s1 k).
Qed.

Lemma bitop_pointwise_witness :
  let s := Set_ 0 "b" "abc" 0 (Set_ 0 "a" "xy" 0 New) in
  (BitOp 1 "XOR" "d" ["a"; "b"] s).1 = Ok 3.
Proof.
  pose proof (bitop_pointwise 1 "XOR" "d" ["a"; "b"] (Set_ 0 "b" "abc" 0 (Set_ 0 "a" "xy" 0 New))
    (or_intror (or_intror (or_introl eq_refl)))) as H.
  cbv zeta in *. specialize (H ltac:(intros k Hk; repeat (apply elem_of_cons in Hk as [->|Hk]; [vm_compute; reflexivity|]); by apply elem_of_nil in Hk)).
  destruct (BitOp _ _ _ _ _) as [r s']. cbn [fst]. destruct H as [-> _]. vm_compute. reflexivity.
Defined.
End Bits.
