(* ===== verification/StoreDocs.v ===== *)
(** * Documents, sketches, tags, series and delayed keys (internal/store/store.go)

    The store methods around the JSON document, HyperLogLog and time series
    types, the tags of a key, and SETDELAYED.  Package encoding/json is a
    parameter: [unmarshal] of a text into a document and [marshal] of a
    document into a text, both of which can fail. *)
From S2P Require Import Prelude GoLib HyperLogLog TimeSeries Json Store StoreStrings Keyspace.

Module Docs.
Import Store Strings Keyspace.

(** ** Delayed keys *)

Definition SetDelayed (now : Z) (key value : string) (delay ttl : Z) (s : Store) : Store :=
  let s := s <| kv ::= <[key := value]> |> <| notBefore ::= <[key := now + delay]> |> in
  let s := if ttl >? 0 then s <| expires ::= <[key := now + delay + ttl]> |> else s <| expires ::= delete key |> in
  let s := s <| hashes ::= delete key |> <| lists ::= delete key |> <| sets ::= delete key |>
             <| zsets ::= delete key |> <| streams ::= delete key |> <| lastSeq ::= delete key |>
             <| hlls ::= delete key |> <| jsons ::= delete key |> in
  touchKeyLocked now [key] s.

(** ** JSON documents *)

Inductive doc_error :=
| WrongType
| KeyMissing                      (** key not found *)
| NewDocRoot                      (** new doc must use root path *)
| PathError (e : Json.json_error)
| CodecError (msg : string).

Section Codec.
Context (unmarshal : string -> result Json.json) (marshal : Json.json -> result string).

(** The types JSONSet rejects; a time series is not among them. *)
Definition json_conflict (key : string) (s : Store) : bool :=
  has (kv s) key || has (hashes s) key || has (lists s) key || has (sets s) key || has (zsets s) key
  || has (streams s) key || has (hlls s) key.

Definition JSONSet (now : Z) (key path raw : string) (s : Store) : (doc_error + unit) * Store :=
  let '(_, s) := expiredKeyLocked now key s in
  if json_conflict key s then (inl WrongType, s)
  else match unmarshal raw with
  | Err e => (inl (CodecError e), s)
  | Ok value =>
      match jsons s !! key with
      | None =>
          if negb ((path =? "$")%string || (path =? ".")%string || (path =? "")%string) then (inl NewDocRoot, s)
          else (inr tt, touchKeyLocked now [key] (s <| jsons ::= <[key := value]> |>))
      | Some doc =>
          match Json.Set_ doc path value with
          | inl e => (inl (PathError e), s)
          | inr doc => (inr tt, touchKeyLocked now [key] (s <| jsons ::= <[key := doc]> |>))
          end
      end
  end.

Definition JSONGet (now : Z) (key path : string) (s : Store) : doc_error + option string :=
  if isExpiredRLocked now key s then inr None
  else match jsons s !! key with
  | None => inr None
  | Some doc =>
      match Json.Get doc path with
      | inl e => inl (PathError e)
      | inr val => match marshal val with Err e => inl (CodecError e) | Ok b => inr (Some b) end
      end
  end.

Definition JSONDel (now : Z) (key path : string) (s : Store) : (doc_error + bool) * Store :=
  let '(expired, s) := expiredKeyLocked now key s in
  if expired then (inr false, s)
  else match jsons s !! key with
  | None => (inr false, s)
  | Some doc =>
      if (path =? "$")%string || (path =? "")%string
      then (inr true, touchKeyLocked now [key] (s <| jsons ::= delete key |>))
      else match Json.Del doc path with
      | inl e => (inl (PathError e), s)
      | inr doc => (inr true, touchKeyLocked now [key] (s <| jsons ::= <[key := doc]> |>))
      end
  end.

Definition JSONType (now : Z) (key path : string) (s : Store) : string :=
  if isExpiredRLocked now key s then "null"
  else match jsons s !! key with None => "null" | Some doc => Json.Type_ doc path end.

Definition JSONNumIncrBy (now : Z) (key path : string) (delta : float64) (s : Store)
    : (doc_error + float64) * Store :=
  let '(expired, s) := expiredKeyLocked now key s in
  if expired then (inl KeyMissing, s)
  else match jsons s !! key with
  | None => (inl KeyMissing, s)
  | Some doc =>
      match Json.NumIncrBy doc path delta with
      | inl e => (inl (PathError e), s)
      | inr (x, doc) => (inr x, touchKeyLocked now [key] (s <| jsons ::= <[key := doc]> |>))
      end
  end.

(** The values of JSON.ARRAPPEND, up to the first that does not parse. *)
Fixpoint parse_values (values : list string) : string + list Json.json :=
  match values with
  | [] => inr []
  | v :: values =>
      match unmarshal v with
      | Err e => inl e
      | Ok x => match parse_values values with inl e => inl e | inr l => inr (x :: l) end
      end
  end.

Definition JSONArrAppend (now : Z) (key path : string) (values : list string) (s : Store)
    : (doc_error + Z) * Store :=
  let '(expired, s) := expiredKeyLocked now key s in
  if expired then (inl KeyMissing, s)
  else match jsons s !! key with
  | None => (inl KeyMissing, s)
  | Some doc =>
      match parse_values values with
      | inl e => (inl (CodecError e), s)
      | inr parsed =>
          match Json.ArrAppend doc path parsed with
          | inl e => (inl (PathError e), s)
          | inr (n, doc) => (inr n, touchKeyLocked now [key] (s <| jsons ::= <[key := doc]> |>))
          end
      end
  end.

End Codec.

Definition JSONArrLen (now : Z) (key path : string) (s : Store) : doc_error + Z :=
  if isExpiredRLocked now key s then inl KeyMissing
  else match jsons s !! key with
  | None => inl KeyMissing
  | Some doc => match Json.ArrLen doc path with inl e => inl (PathError e) | inr n => inr n end
  end.

Definition JSONKeys (now : Z) (key path : string) (s : Store) : doc_error + list string :=
  if isExpiredRLocked now key s then inl KeyMissing
  else match jsons s !! key with
  | None => inl KeyMissing
  | Some doc => match Json.Keys doc path with inl e => inl (PathError e) | inr l => inr l end
  end.

(** ** HyperLogLog commands *)

Definition hll_conflict (key : string) (s : Store) : bool :=
  has (kv s) key || has (hashes s) key || has (lists s) key || has (sets s) key || has (zsets s) key
  || has (streams s) key.

Fixpoint pfadd_loop (elements : list string) (changed : bool) (h : HyperLogLog.HyperLogLog)
    : bool * HyperLogLog.HyperLogLog :=
  match elements with
  | [] => (changed, h)
  | e :: elements =>
      let '(c, h) := HyperLogLog.Add e h in pfadd_loop elements (if c then true else changed) h
  end.

Definition PFAdd (now : Z) (key : string) (elements : list string) (s : Store) : result bool * Store :=
  let '(_, s) := expiredKeyLocked now key s in
  if hll_conflict key s then (Err wrongType, s)
  else
    let hll := default HyperLogLog.NewHyperLogLog (hlls s !! key) in
    let '(changed, hll) := pfadd_loop elements false hll in
    (Ok changed, touchKeyLocked now [key] (s <| hlls ::= <[key := hll]> |>)).

(** The source loop runs while the destination is already in the map, and
    its sketch is shared with it: a source equal to the destination is
    merged with itself. *)
Definition pfmerge_one (now : Z) (destKey : string) (s : Store) (key : string) : Store :=
  let '(_, s) := expiredKeyLocked now key s in
  match hlls s !! key, hlls s !! destKey with
  | Some h, Some dest => s <| hlls ::= <[destKey := (HyperLogLog.Merge h dest).2]> |>
  | _, _ => s
  end.

Definition PFMerge (now : Z) (destKey : string) (srcKeys : list string) (s : Store) : Store :=
  let '(_, s) := expiredKeyLocked now destKey s in
  let dest := default HyperLogLog.NewHyperLogLog (hlls s !! destKey) in
  let s := s <| hlls ::= <[destKey := dest]> |> in
  touchKeyLocked now [destKey] (fold_left (pfmerge_one now destKey) srcKeys s).

(** ** Tags *)

Definition TagSet (now : Z) (key : string) (new : gmap string string) (s : Store) : result unit * Store :=
  let '(expired, s) := expiredKeyLocked now key s in
  if expired then (Err "key not found", s)
  else
    let '(e, s) := existsLocked now key s in
    if negb e then (Err "key not found", s)
    else (Ok tt, s <| tags ::= <[key := new ∪ default ∅ (tags s !! key)]> |>).

Definition TagGet (now : Z) (key : string) (s : Store) : option (gmap string string) :=
  if isExpiredRLocked now key s then None else tags s !! key.

Definition tagdel_one (acc : Z * gmap string string) (f : string) : Z * gmap string string :=
  if has acc.2 f then (acc.1 + 1, delete f acc.2) else acc.

Definition TagDel (key : string) (fields : list string) (s : Store) : Z * Store :=
  match tags s !! key with
  | None => (0, s)
  | Some t =>
      let '(n, t) := fold_left tagdel_one fields (0, t) in
      (n, if decide (t = ∅) then s <| tags ::= delete key |> else s <| tags ::= <[key := t]> |>)
  end.

(** [tags[field] != value]: a missing field reads as the empty string. *)
Definition tag_match (criteria t : gmap string string) : bool :=
  forallb (fun p => (default "" (t !! p.1) =? p.2)%string) (map_to_list criteria).

(** [order] is the order in which the map iteration visits the tagged keys. *)
Fixpoint tagquery_loop (now : Z) (criteria : gmap string string) (limit : Z) (order results : list string)
    (s : Store) : list string :=
  match order with
  | [] => results
  | key :: order =>
      if isExpiredRLocked now key s then tagquery_loop now criteria limit order results s
      else if tag_match criteria (default ∅ (tags s !! key)) then
        let results := results ++ [key] in
        if zlen results >=? limit then results else tagquery_loop now criteria limit order results s
      else tagquery_loop now criteria limit order results s
  end.

Definition TagQuery (now : Z) (order : list string) (criteria : gmap string string) (limit : Z) (s : Store)
    : list string :=
  let limit := if limit <=? 0 then 100 else limit in
  sort_strings (tagquery_loop now criteria limit order [] s).

(** ** Time series commands *)

Definition ts_conflict (key : string) (s : Store) : bool :=
  has (kv s) key || has (hashes s) key || has (lists s) key || has (sets s) key || has (zsets s) key
  || has (streams s) key || has (hlls s) key || has (jsons s) key.

Definition TSAdd (now : Z) (key : string) (timestamp : Z) (value : float64) (labels : gmap string string)
    (s : Store) : result unit * Store :=
  let '(_, s) := expiredKeyLocked now key s in
  if ts_conflict key s then (Err wrongType, s)
  else
    let ts := default TimeSeries.NewTimeSeries (timeseries s !! key) in
    let timestamp := if timestamp =? 0 then UnixMilli now else timestamp in
    let ts := TimeSeries.Add timestamp value ts in
    let ts := TimeSeries.mkSeries (TimeSeries.Samples ts) (labels ∪ TimeSeries.Labels ts) in
    (Ok tt, touchKeyLocked now [key] (s <| timeseries ::= <[key := ts]> |>)).

Definition TSRange (now : Z) (key : string) (from to count : Z) (s : Store) : list TimeSeries.TSSample :=
  if isExpiredRLocked now key s then []
  else match timeseries s !! key with None => [] | Some ts => TimeSeries.Range from to count ts end.

Definition TSGet (now : Z) (key : string) (s : Store) : option TimeSeries.TSSample :=
  if isExpiredRLocked now key s then None
  else match timeseries s !! key with
       | None => None
       | Some ts => let '(sample, ok) := TimeSeries.Last ts in if (ok : bool) then Some sample else None
       end.

Definition TSInfo (now : Z) (key : string) (s : Store) : result (Z * gmap string string * Z * Z) :=
  if isExpiredRLocked now key s then Err "key not found"
  else match timeseries s !! key with
       | None => Err "key not found"
       | Some ts =>
           let l := TimeSeries.Samples ts in
           let '(first, lst) := match head l, last l with
                                | Some a, Some b => (TimeSeries.Timestamp a, TimeSeries.Timestamp b)
                                | _, _ => (0, 0)
                                end in
           Ok (TimeSeries.Len ts, TimeSeries.Labels ts, first, lst)
       end.

(** [None]: the downsampling loop does not end within the fuel. *)
Definition TSDownsample (fuel : nat) (now : Z) (srcKey dstKey aggType : string) (from to bucketSize : Z)
    (s : Store) : option (result Z * Store) :=
  let '(expired, s) := expiredKeyLocked now srcKey s in
  if expired then Some (Err "source key not found", s)
  else match timeseries s !! srcKey with
  | None => Some (Err "source key not found", s)
  | Some src =>
      match TimeSeries.Downsample fuel from to bucketSize aggType src with
      | None => None
      | Some results =>
          let dst := fold_left (fun ts r => TimeSeries.Add (TimeSeries.Timestamp r) (TimeSeries.Value r) ts) results
                       TimeSeries.NewTimeSeries in
          let s := deleteKeyLocked now dstKey s in
          Some (Ok (zlen results), touchKeyLocked now [dstKey] (s <| timeseries ::= <[dstKey := dst]> |>))
      end
  end.


(** ** Delayed keys *)

Lemma SetDelayed_entry now key value delay ttl s :
  entry (SetDelayed now key value delay ttl s) key =
    mkE (Some value) None None None None None None None (timeseries s !! key) (groups s !! key) None
      (if ttl >? 0 then Some (now + delay + ttl) else None) (Some (now + delay)).
Proof.
  unfold SetDelayed. rewrite entry_touch. unfold entry. store_cbn.
  destruct (ttl >? 0); store_cbn; rewrite !lookup_insert_eq, !lookup_delete_eq; done.
Qed.

Lemma Get_entry now key s :
  (Get now key s).1 = match e_kv (live now (entry s key)) with
                      | Some v => if e_delayed now (live now (entry s key)) then ("", false) else (v, true)
                      | None => ("", false)
                      end.
Proof.
  unfold Get, live. rewrite isExpired_entry, isDelayed_entry. destruct (e_expired now (entry s key)); [done|].
  cbn [entry e_kv]. destruct (e_delayed now (entry s key)), (kv s !! key); done.
Qed.

(** A delayed key shows up on time and lives as long as asked.  After
    SETDELAYED at time [t] the key is absent for GET and EXISTS before [t]
    plus the delay, present with its value from then on, and absent again
    when its time to live, counted from the moment it became visible, is
    over. *)
Theorem delayed_visibility t key value delay ttl s t' :
  zeroTime < t -> 0 <= delay ->
  let s' := SetDelayed t key value delay ttl s in
  let visible := (t + delay <=? t') && ((ttl <=? 0) || (t' <? t + delay + ttl)) in
  (Get t' key s').1 = (if visible then (value, true) else ("", false)) /\
  existsRLocked t' key s' = visible.
Proof.
  intros Ht Hd. cbv zeta. rewrite Get_entry, existsRLocked_entry. unfold live, e_exists, e_expired, e_delayed.
  rewrite SetDelayed_entry. cbn [e_expire e_notBefore e_kv is_some orb]. rewrite andb_true_r.
  rewrite Z.gtb_ltb, (Z.leb_antisym 0 ttl). destruct (Z.ltb_spec 0 ttl); cbn [negb orb].
  - unfold IsZero. rewrite (proj2 (Z.eqb_neq (t + delay + ttl) zeroTime)) by lia. cbn [orb].
    destruct (Z.ltb_spec t' (t + delay + ttl)); cbn [negb].
    + cbn [e_kv e_notBefore]. rewrite andb_true_r, (Z.leb_antisym t' (t + delay)).
      by destruct (t' <? t + delay).
    + rewrite andb_false_r. done.
  - cbn [e_kv e_notBefore negb andb]. rewrite andb_true_r, (Z.leb_antisym t' (t + delay)). by destruct (t' <? t + delay).
Qed.

Lemma delayed_visibility_witness :
  let s' := SetDelayed 100 "k" "v" 10 5 New in
  (Get 109 "k" s').1 = ("", false) /\ (Get 112 "k" s').1 = ("v", true) /\ (Get 115 "k" s').1 = ("", false).
Proof.
  cbv zeta. split; [|split].
  - exact (proj1 (delayed_visibility 100 "k" "v" 10 5 New 109 ltac:(vm_compute; reflexivity) ltac:(lia))).
  - exact (proj1 (delayed_visibility 100 "k" "v" 10 5 New 112 ltac:(vm_compute; reflexivity) ltac:(lia))).
  - exact (proj1 (delayed_visibility 100 "k" "v" 10 5 New 115 ltac:(vm_compute; reflexivity) ltac:(lia))).
Defined.

(** ** One type per key, and where it fails *)

Lemma PFMerge_nil now key s :
  e_expired now (entry s key) = false ->
  entry (PFMerge now key [] s) key =
    entry s key <| e_hll := Some (default HyperLogLog.NewHyperLogLog (e_hll (entry s key))) |>.
Proof.
  intros Hx. unfold PFMerge. rewrite expiredKey_false by done. cbn [fold_left].
  by rewrite entry_touch, entry_set_hlls, lookup_insert_eq.
Qed.

Lemma Set_entry_New now key value : entry (Set_ now key value 0 New) key = no_entry <| e_kv := Some value |>.
Proof.
  unfold Set_, clear_types. autorewrite with entry. unfold entry. store_cbn.
  change (0 >? 0) with false. cbn match. store_cbn. by rewrite lookup_insert_eq, !lookup_delete_eq.
Qed.

(** Several commands leave a second type under a key.  SET on a key that
    holds a document or a delay keeps both, so JSON.GET still answers the
    document and a SET after SETDELAYED stays invisible until the delay has
    passed; PFMERGE checks no type and JSON.SET does not look for a time
    series. *)
Theorem types_overlap now key value ttl (s : Store) :
  e_json (entry (Set_ now key value ttl s) key) = e_json (entry s key) /\
  e_notBefore (entry (Set_ now key value ttl s) key) = e_notBefore (entry s key) /\
  (forall t delay, 0 < delay -> (Get t key (Set_ t key value 0 (SetDelayed t key "x" delay 0 s))).1 = ("", false)) /\
  (forall v, let s' := PFMerge 1 "k" [] (Set_ 0 "k" v 0 New) in
     e_kv (entry s' "k") = Some v /\ e_hll (entry s' "k") = Some HyperLogLog.NewHyperLogLog) /\
  (forall unmarshal d x, unmarshal "x" = Ok d ->
     let s' := (JSONSet unmarshal 1 "k" "$" "x" (TSAdd 0 "k" 5 x ∅ New).2).2 in
     is_some (e_ts (entry s' "k")) = true /\ e_json (entry s' "k") = Some d).
Proof.
  assert (forall now key value ttl s, e_json (entry (Set_ now key value ttl s) key) = e_json (entry s key) /\
    e_notBefore (entry (Set_ now key value ttl s) key) = e_notBefore (entry s key) /\
    e_kv (entry (Set_ now key value ttl s) key) = Some value) as H.
  { clear. intros. unfold Set_, clear_types. autorewrite with entry. unfold entry. store_cbn.
    destruct (ttl >? 0); store_cbn; by rewrite lookup_insert_eq. }
  split; [apply H|]. split; [apply H|]. split; [|split].
  - intros t delay Hd. rewrite Get_entry. set (s1 := SetDelayed _ _ _ _ _ _).
    destruct (H t key value 0 s1) as (_ & Hnb & _). unfold live.
    destruct (e_expired t (entry _ key)); [done|]. unfold e_delayed. rewrite Hnb. unfold s1. rewrite SetDelayed_entry.
    cbn [e_notBefore]. rewrite (proj2 (Z.ltb_lt _ _)) by lia. by case_match.
  - intros v. cbv zeta. rewrite PFMerge_nil; rewrite Set_entry_New; done.
  - intros unmarshal d x Hd. cbv zeta.
    assert (entry (TSAdd 0 "k" 5 x ∅ New).2 "k" =
      no_entry <| e_ts := Some (TimeSeries.mkSeries [TimeSeries.mkTS 5 x] ∅) |>) as E.
    { unfold TSAdd. rewrite expiredKey_false by done. assert (ts_conflict "k" New = false) as -> by reflexivity.
      cbn [snd]. rewrite entry_touch. reflexivity. }
    revert E. generalize (TSAdd 0 "k" 5 x ∅ New).2. intros s1 E.
    unfold JSONSet. rewrite expiredKey_false by (rewrite E; done). use_entry E. unfold json_conflict.
    rewrite !has_lookup, Hkv, Hhash, Hlist, Hset, Hzset, Hstream, Hhll, Hd, Hjson.
    cbn [is_some orb no_entry e_kv e_hash e_list e_set e_zset e_stream e_hll e_json set set_e_ts negb String.eqb Ascii.eqb Bool.eqb snd].
    rewrite entry_touch, entry_set_jsons, lookup_insert_eq, E. done.
Qed.

(** ** Documents *)

(** JSON.SET then JSON.GET.  When JSON.SET succeeds, JSON.GET at the same
    path answers the encoding of the value that was parsed, the deadline of
    the key is the one it had, and no other key changes; when it fails,
    nothing the key holds has changed. *)
Theorem json_store_roundtrip (unmarshal : string -> result Json.json) (marshal : Json.json -> result string)
    now key path raw v b s :
  unmarshal raw = Ok v -> marshal v = Ok b ->
  let '(r, s') := JSONSet unmarshal now key path raw s in
  (r = inr tt -> JSONGet marshal now key path s' = inr (Some b)) /\
  (r <> inr tt -> live now (entry s' key) = live now (entry s key)) /\
  e_expire (live now (entry s' key)) = e_expire (live now (entry s key)) /\
  (forall k, k <> key -> entry s' k = entry s k).
Proof.
  intros Hu Hm. unfold JSONSet. destruct (expiredKey_split now key s) as (s1 & -> & Hk & Hne & _).
  assert (forall r : doc_error, (inl r = (inr tt : doc_error + unit) -> JSONGet marshal now key path s1 = inr (Some b)) /\
    (inl r <> (inr tt : doc_error + unit) -> live now (entry s1 key) = live now (entry s key)) /\
    e_expire (live now (entry s1 key)) = e_expire (live now (entry s key)) /\
    (forall k, k <> key -> entry s1 k = entry s k)) as Hfail.
  { intros r. rewrite Hk, live_idem. done. }
  destruct (json_conflict key s1); [apply Hfail|]. rewrite Hu.
  assert (forall d, Json.Get d path = inr v ->
    let s' := touchKeyLocked now [key] (s1 <| jsons ::= <[key := d]> |>) in
    (inr tt = (inr tt : doc_error + unit) -> JSONGet marshal now key path s' = inr (Some b)) /\
    (inr tt <> (inr tt : doc_error + unit) -> live now (entry s' key) = live now (entry s key)) /\
    e_expire (live now (entry s' key)) = e_expire (live now (entry s key)) /\
    (forall k, k <> key -> entry s' k = entry s k)) as Hok.
  { intros d Hd. cbv zeta. set (s' := touchKeyLocked _ _ _).
    assert (entry s' key = live now (entry s key) <| e_json := Some d |>) as E.
    { unfold s'. by rewrite entry_touch, entry_set_jsons, lookup_insert_eq, Hk. }
    assert (e_expired now (entry s' key) = false) as Hx.
    { rewrite E. apply (e_expired_live now (entry s key)). }
    split; [|split; [done|split]].
    - intros _. unfold JSONGet. rewrite isExpired_entry, Hx.
      assert (jsons s' !! key = Some d) as -> by (change (e_json (entry s' key) = Some d); by rewrite E).
      by rewrite Hd, Hm.
    - rewrite (live_fresh now (entry s' key)) by done. by rewrite E.
    - intros k Hkk. unfold s'. rewrite entry_touch, entry_set_jsons, lookup_insert_ne by done. rewrite <-(Hne k Hkk). done. }
  destruct (jsons s1 !! key) as [doc|].
  - destruct (Json.Set_ doc path v) as [e|d] eqn:Es; [apply Hfail|]. apply Hok. by eapply Json.Get_Set.
  - destruct (negb _) eqn:Ep; [apply Hfail|]. apply Hok. apply negb_false_iff in Ep.
    unfold Json.Get, Json.is_root. by rewrite Ep.
Qed.

Lemma json_store_roundtrip_witness :
  let s := (JSONSet (fun _ => Ok (Json.JStr "x")) 1 "k" "$" "raw" New).2 in
  JSONGet (fun _ => Ok "quoted") 1 "k" "$" s = inr (Some "quoted").
Proof.
  cbv zeta.
  pose proof (json_store_roundtrip (fun _ => Ok (Json.JStr "x")) (fun _ => Ok "quoted") 1 "k" "$" "raw"
    (Json.JStr "x") "quoted" New eq_refl eq_refl) as H.
  assert ((JSONSet (fun _ => Ok (Json.JStr "x")) 1 "k" "$" "raw" New).1 = inr tt) as E by (vm_compute; reflexivity).
  destruct (JSONSet (fun _ => Ok (Json.JStr "x")) 1 "k" "$" "raw" New) as [r s']. exact (proj1 H E).
Defined.

(** ** Sketches *)

Definition sketch (l : list string) : HyperLogLog.HyperLogLog := HyperLogLog.add_all l HyperLogLog.NewHyperLogLog.

(** The sketch of a key: a new one when it has none. *)
Definition e_sketch (e : Entry) : HyperLogLog.HyperLogLog := default HyperLogLog.NewHyperLogLog (e_hll e).

Lemma sketch_same l l' : (forall e, e ∈ l <-> e ∈ l') -> sketch l = sketch l'.
Proof.
  intros H. unfold sketch. rewrite <-(HyperLogLog.sketch_join l l l) by (intros; tauto).
  rewrite (HyperLogLog.sketch_join l' l l); [done|]. intros e. rewrite <-H. tauto.
Qed.

Lemma pfadd_loop_spec l b h : (pfadd_loop l b h).2 = HyperLogLog.add_all l h.
Proof.
  revert b h. induction l as [|e l IH]; intros b h; [done|]. cbn [pfadd_loop].
  change (HyperLogLog.add_all (e :: l) h) with (HyperLogLog.add_all l (HyperLogLog.Add e h).2).
  destruct (HyperLogLog.Add e h) as [c h']. apply IH.
Qed.

(** The state of the merge loop: the destination holds the sketch of [d],
    the other keys are as they were. *)
Definition merging (now : Z) (dest : string) (d : list string) (s0 s : Store) : Prop :=
  e_expired now (entry s dest) = false /\ e_hll (entry s dest) = Some (sketch d) /\
  forall k, k <> dest -> live now (entry s k) = live now (entry s0 k).

Lemma pfmerge_one_spec now dest d s0 s key l :
  merging now dest d s0 s -> (key <> dest -> e_sketch (live now (entry s0 key)) = sketch l) ->
  (key = dest -> forall e, e ∈ l -> e ∈ d) ->
  merging now dest (d ++ l) s0 (pfmerge_one now dest s key).
Proof.
  intros (Hx & Hd & Ho) Hl Hself. unfold pfmerge_one.
  destruct (expiredKey_split now key s) as (s1 & -> & Hk & Hne & Hsame).
  assert (entry s1 dest = entry s dest) as Hdest.
  { destruct (decide (dest = key)) as [->|]; [rewrite Hk; by apply live_fresh|by apply Hne]. }
  assert (hlls s1 !! dest = Some (sketch d)) as Hd1 by (change (e_hll (entry s1 dest) = Some (sketch d)); by rewrite Hdest).
  assert (forall k, k <> dest -> live now (entry s1 k) = live now (entry s0 k)) as Ho1.
  { intros k Hkd. rewrite <-(Ho k Hkd). destruct (decide (k = key)) as [->|]; [by rewrite Hk, live_idem|by rewrite Hne]. }
  rewrite Hd1. destruct (hlls s1 !! key) as [h|] eqn:Eh.
  - assert (h = sketch l \/ key = dest /\ h = sketch d) as Hh.
    { destruct (decide (key = dest)) as [->|Hkd]; [right; split; [done|congruence]|left].
      rewrite <-(Hl Hkd), <-(Ho1 key Hkd), Hk, live_idem. unfold e_sketch.
      assert (e_hll (live now (entry s key)) = Some h) as -> by (rewrite <-Hk; exact Eh). done. }
    split; [|split].
    + rewrite entry_set_hlls. change (e_expired now (entry s1 dest) = false). by rewrite Hdest.
    + rewrite entry_set_hlls, lookup_insert_eq. cbn. f_equal. destruct Hh as [->|[-> ->]].
      * apply HyperLogLog.sketch_join. intros e. by rewrite elem_of_app.
      * unfold sketch. rewrite HyperLogLog.sketch_idem. apply sketch_same. intros e. rewrite elem_of_app.
        split; [by left|]. intros [|He]; [done|]. by apply Hself.
    + intros k Hkd. rewrite entry_set_hlls, lookup_insert_ne by done. rewrite <-(Ho1 k Hkd). done.
  - assert (sketch l = sketch (@nil string) /\ key <> dest) as [Hnil Hkd].
    { assert (key <> dest) as Hkd by (intros ->; congruence). split; [|done].
      rewrite <-(Hl Hkd), <-(Ho1 key Hkd), Hk, live_idem. unfold e_sketch.
      assert (e_hll (live now (entry s key)) = None) as -> by (rewrite <-Hk; exact Eh). done. }
    split; [by rewrite Hdest|]. split; [|done]. rewrite Hdest, Hd. f_equal. unfold sketch in *.
    rewrite <-(HyperLogLog.sketch_join (d ++ l) d l) by (intros e; by rewrite elem_of_app).
    rewrite Hnil. symmetry. apply HyperLogLog.sketch_join. set_solver.
Qed.

Lemma pfmerge_loop now dest (l : string -> list string) srcs d s0 s :
  merging now dest d s0 s -> (forall k, k ∈ srcs -> k <> dest -> e_sketch (live now (entry s0 k)) = sketch (l k)) ->
  (forall e, e ∈ l dest -> e ∈ d) ->
  merging now dest (d ++ mjoin (l <$> srcs)) s0 (fold_left (pfmerge_one now dest) srcs s).
Proof.
  revert d s. induction srcs as [|key srcs IH]; intros d s Hm Hl Hd; cbn [fold_left fmap list_fmap mjoin list_join].
  { by rewrite app_nil_r. }
  rewrite (assoc (++)). apply IH; [|intros k Hk; apply Hl; by right|set_solver].
  apply pfmerge_one_spec; [done|intros; apply Hl; [left|done]|]. by intros ->.
Qed.

(** PFMERGE computes the sketch of the union.  When the live sketch of
    the destination and of every source is that of some elements, then after
    PFMERGE the destination holds the very sketch of all of them together,
    whether or not the destination is also a source, and the live entries of
    the other keys are unchanged. *)
Theorem pfmerge_union now dest srcs (l : string -> list string) s :
  (forall k, k ∈ dest :: srcs -> e_sketch (live now (entry s k)) = sketch (l k)) ->
  let s' := PFMerge now dest srcs s in
  e_hll (entry s' dest) = Some (sketch (mjoin (l <$> dest :: srcs))) /\
  e_expired now (entry s' dest) = false /\
  (forall k, k <> dest -> live now (entry s' k) = live now (entry s k)).
Proof.
  intros Hl. cbv zeta. unfold PFMerge. destruct (expiredKey_split now dest s) as (s1 & -> & Hk & Hne & _).
  set (s2 := s1 <| hlls ::= _ |>).
  assert (merging now dest (l dest) s s2) as Hm.
  { split; [|split].
    - unfold s2. rewrite entry_set_hlls. change (e_expired now (entry s1 dest) = false). rewrite Hk. apply e_expired_live.
    - unfold s2. rewrite entry_set_hlls, lookup_insert_eq. cbn. f_equal. rewrite <-Hl by left. unfold e_sketch.
      by rewrite <-Hk.
    - intros k Hkd. unfold s2. rewrite entry_set_hlls, lookup_insert_ne by done. rewrite <-(Hne k Hkd). done. }
  destruct (pfmerge_loop now dest l srcs (l dest) s s2 Hm) as (Hx & Hd & Ho); [|done|].
  { intros k Hin _. apply Hl. by right. }
  split; [by rewrite entry_touch|]. split; [by rewrite entry_touch|]. intros k Hkd. rewrite entry_touch. by apply Ho.
Qed.

(** Two sketches, of x, y and of y, z. *)
Definition two_sketches : Store := (PFAdd 0 "b" ["y"; "z"] (PFAdd 0 "a" ["x"; "y"] New).2).2.
Definition sketched (k : string) : list string :=
  if decide (k = "a") then ["x"; "y"] else if decide (k = "b") then ["y"; "z"] else [].

Lemma pfmerge_union_witness :
  e_hll (entry (PFMerge 1 "d" ["a"; "b"; "a"] two_sketches) "d") = Some (sketch ["x"; "y"; "y"; "z"; "x"; "y"]).
Proof.
  assert (forall k, k ∈ ["d"; "a"; "b"; "a"] -> e_sketch (live 1 (entry two_sketches k)) = sketch (sketched k)) as H.
  { intros k Hk. repeat (apply elem_of_cons in Hk as [->|Hk]; [vm_compute; reflexivity|]). by apply elem_of_nil in Hk. }
  destruct (pfmerge_union 1 "d" ["a"; "b"; "a"] sketched two_sketches H) as [H1 _]. rewrite H1.
  assert (mjoin (sketched <$> ["d"; "a"; "b"; "a"]) = ["x"; "y"; "y"; "z"; "x"; "y"]) as -> by (vm_compute; reflexivity).
  reflexivity.
Defined.

(** ** Tags *)

(** A tagged key a query with these criteria should return. *)
Definition tagged (now : Z) (criteria : gmap string string) (s : Store) (key : string) : Prop :=
  e_expired now (entry s key) = false /\
  forall f v, criteria !! f = Some v -> default "" (default ∅ (tags s !! key) !! f) = v.

Lemma tag_match_spec criteria t :
  tag_match criteria t = true <-> forall f v, criteria !! f = Some v -> default "" (t !! f) = v.
Proof.
  unfold tag_match. rewrite forallb_forall. split.
  - intros H f v Hf. apply String.eqb_eq, (H (f, v)), list_elem_of_In, elem_of_map_to_list, Hf.
  - intros H [f v] Hf. apply String.eqb_eq, H, elem_of_map_to_list, list_elem_of_In, Hf.
Qed.

Definition selected (now : Z) (criteria : gmap string string) (s : Store) (key : string) : bool :=
  negb (isExpiredRLocked now key s) && tag_match criteria (default ∅ (tags s !! key)).

Lemma selected_spec now criteria s key : selected now criteria s key = true <-> tagged now criteria s key.
Proof.
  unfold selected, tagged. rewrite andb_true_iff, negb_true_iff, isExpired_entry, tag_match_spec. done.
Qed.

Lemma tagquery_loop_spec now criteria lim order results s :
  zlen results < lim ->
  tagquery_loop now criteria lim order results s =
    results ++ ztake (lim - zlen results) (filter (fun k => selected now criteria s k = true) order).
Proof.
  revert results. induction order as [|key order IH]; intros results Hl; cbn [tagquery_loop].
  { cbn. unfold ztake. by rewrite take_nil, app_nil_r. }
  rewrite filter_cons.
  destruct (isExpiredRLocked now key s) eqn:Ex; cbn [negb andb].
  { rewrite decide_False by (unfold selected; by rewrite Ex). by apply IH. }
  destruct (tag_match criteria (default ∅ (tags s !! key))) eqn:Em.
  2: { rewrite decide_False by (unfold selected; by rewrite Ex, Em). by apply IH. }
  rewrite decide_True by (unfold selected; by rewrite Ex, Em).
  rewrite Z.geb_leb, zlen_app. change (zlen [key]) with 1.
  assert (ztake (lim - zlen results) (key :: filter (fun k => selected now criteria s k = true) order) =
          key :: ztake (lim - zlen results - 1) (filter (fun k => selected now criteria s k = true) order)) as ->.
  { unfold ztake. replace (Z.to_nat (lim - zlen results)) with (S (Z.to_nat (lim - zlen results - 1))) by lia. done. }
  destruct (Z.leb_spec lim (zlen results + 1)).
  - replace (lim - zlen results - 1) with 0 by lia. done.
  - rewrite IH by (rewrite zlen_app; change (zlen [key]) with 1; lia).
    rewrite zlen_app, <-(assoc (++)). change (zlen [key]) with 1. cbn [app].
    by replace (lim - (zlen results + 1)) with (lim - zlen results - 1) by lia.
Qed.

(** TAGQUERY.  The result is sorted, holds only tagged keys that have not
    expired and carry every field of the query with its value, at most as
    many as the limit (100 when none is given); and when no more than that
    many qualify it holds all of them, in whatever order the map iteration
    visits the tagged keys. *)
Theorem tag_query_exact now order criteria lim s :
  NoDup order -> (forall k, k ∈ order <-> is_Some (tags s !! k)) ->
  let n := if lim <=? 0 then 100 else lim in
  let all := sort_strings (filter (fun k => selected now criteria s k = true) order) in
  let r := TagQuery now order criteria lim s in
  Sorted str_le r /\ NoDup r /\ zlen r <= n /\
  (forall k, k ∈ r -> is_Some (tags s !! k) /\ tagged now criteria s k) /\
  (zlen all <= n -> forall k, is_Some (tags s !! k) -> tagged now criteria s k -> k ∈ r).
Proof.
  intros Hnd Hord. cbv zeta. unfold TagQuery. set (n := if lim <=? 0 then 100 else lim).
  assert (0 < n) as Hn by (unfold n; destruct (Z.leb_spec lim 0); lia). clearbody n.
  rewrite (tagquery_loop_spec now criteria n order [] s) by (rewrite zlen_nil; lia).
  rewrite zlen_nil, Z.sub_0_r. cbn [app].
  set (fl := filter (fun k => selected now criteria s k = true) order).
  assert (NoDup fl) as Hfl by (by apply NoDup_filter).
  split; [apply sort_strings_sorted|]. split; [rewrite sort_strings_perm; apply (sublist_NoDup _ fl Hfl), sublist_take|].
  assert (forall l, zlen (sort_strings l) = zlen l) as Hlen by (intros l; unfold zlen; by rewrite sort_strings_perm).
  rewrite !Hlen. split; [unfold zlen, ztake; rewrite length_take; lia|]. split.
  - intros k. rewrite sort_strings_perm. unfold ztake. intros Hk%elem_of_take_1.
    unfold fl in Hk. apply list_elem_of_filter in Hk as [Hs Hk]. split; [by apply Hord|by apply selected_spec].
  - intros Hall k Hk Ht. rewrite sort_strings_perm. unfold ztake. rewrite take_ge by (unfold zlen in Hall; lia).
    apply list_elem_of_filter. split; [by apply selected_spec|by apply Hord].
Qed.

(** A store whose keys a and b are tagged. *)
Definition tagged_store : Store :=
  (TagSet 0 "b" {["x" := "1"]} (TagSet 0 "a" {["x" := "1"; "y" := "2"]} (Set_ 0 "b" "" 0 (Set_ 0 "a" "" 0 New))).2).2.

Lemma tag_query_exact_witness :
  "a" ∈ TagQuery 1 ["b"; "a"] {["y" := "2"]} 0 tagged_store.
Proof.
  assert (forall k, k ∈ ["b"; "a"] <-> is_Some (tags tagged_store !! k)) as Hord.
  { assert (tags tagged_store = {["a" := {["x" := "1"; "y" := "2"]}; "b" := {["x" := "1"]}]}) as ->
      by (vm_compute; reflexivity).
    intros k. rewrite !elem_of_cons, elem_of_nil. split.
    - intros [->|[->|[]]]; vm_compute; eauto.
    - intros [t Ht]. destruct (decide (k = "a")) as [->|]; [by right; left|]. rewrite lookup_insert_ne in Ht by done.
      apply lookup_singleton_Some in Ht as [<- _]. by left. }
  assert (NoDup ["b"; "a"]) as Hnd by (repeat constructor; rewrite ?elem_of_cons, ?elem_of_nil; intros H; destruct H; done).
  refine (proj2 (proj2 (proj2 (proj2 (tag_query_exact 1 ["b"; "a"] {["y" := "2"]} 0 tagged_store Hnd Hord)))) _ "a" _ _).
  - vm_compute. discriminate.
  - vm_compute. eauto.
  - apply selected_spec. vm_compute. reflexivity.
Defined.
End Docs.
