(* ===== verification/Geo.v ===== *)
(** * Geographic positions (internal/store/geo.go and the GEO methods of
    internal/store/store.go)

    A position is stored as the score of a sorted-set member: the longitude
    and the latitude are quantized to 26 bits each and the bits interleaved.
    Floating-point operations are IEEE binary64; conversions to unsigned
    integers are those of amd64 where Go leaves them to the implementation.
    The trigonometric functions of package math and the order in which
    [sort.Slice] leaves elements it considers equal are parameters. *)
From Stdlib Require Import SpecFloat.
From S2P Require Import Prelude GoLib GoText SortedSet Store StoreStrings StoreSets.

Module Geo.
Import Text Store.

(** ** Conversions *)

(** [int64(x)]: truncation towards zero, the least [int64] outside the range. *)
Definition f_to_int64 (x : float64) : Z :=
  match x with
  | S754_finite neg m e =>
      let z := if 0 <=? e then Z.pos m * 2 ^ e else Z.pos m / 2 ^ (- e) in
      let z := if neg then - z else z in
      if (int64_min <=? z) && (z <=? int64_max) then z else int64_min
  | S754_zero _ => 0
  | _ => int64_min
  end.

Definition two63 : float64 := f_of_Z (2 ^ 63).

Definition f_to_uint64 (x : float64) : Z :=
  if fltb x two63 then f_to_int64 x mod 2 ^ 64
  else Z.lxor (f_to_int64 (fsub x two63) mod 2 ^ 64) (2 ^ 63).

Definition f_to_uint32 (x : float64) : Z := f_to_int64 x mod 2 ^ 32.

Definition is_inf (neg : bool) (x : float64) : bool :=
  match x with S754_infinity s => Bool.eqb s neg | _ => false end.
Definition signbit (x : float64) : bool :=
  match x with S754_zero s => s | S754_infinity s => s | S754_finite s _ _ => s | S754_nan => false end.

(** [math.Max] and [math.Min] *)
Definition fmax (x y : float64) : float64 :=
  if is_inf false x || is_inf false y then finf false
  else if is_nan x || is_nan y then fnan
  else if feqb x fzero && feqb x y then (if signbit x then y else x)
  else if fltb y x then x else y.
Definition fmin (x y : float64) : float64 :=
  if is_inf true x || is_inf true y then finf true
  else if is_nan x || is_nan y then fnan
  else if feqb x fzero && feqb x y then (if signbit x then x else y)
  else if fltb x y then x else y.

(** ** The geohash *)

(** Differences of constants are computed exactly and rounded once. *)
Definition geoMaxLat : float64 := decimal_float false 8505112878 (-8).
Definition geoMinLat : float64 := decimal_float true 8505112878 (-8).
Definition geoMaxLon : float64 := f_of_Z 180.
Definition geoMinLon : float64 := f_of_Z (-180).
Definition latRange : float64 := decimal_float false 17010225756 (-8).
Definition lonRange : float64 := f_of_Z 360.
Definition geoSteps : nat := 26.
Definition steps26 : float64 := f_of_Z (2 ^ 26).

Record GeoPoint := mkPoint { Longitude : float64; Latitude : float64 }.
Record GeoMember := mkMember { lon : float64; lat : float64; Name : string }.
Record GeoResult := mkResult {
  Member : string; Dist : float64; rlon : float64; rlat : float64; Hash : float64
}.

Definition quantize (x min max range : float64) : Z :=
  let x := fmax min (fmin max x) in
  let off := fdiv (fsub x min) range in
  f_to_uint32 (fmul off steps26).

(** [for i := n - 1; i >= 0; i--] *)
Fixpoint encode_loop (n : nat) (lonQ latQ hash : Z) : Z :=
  match n with
  | O => hash
  | S i =>
      let hash := Z.lor (Z.shiftl hash 1) (Z.land (Z.shiftr lonQ (Z.of_nat i)) 1) in
      let hash := Z.lor (Z.shiftl hash 1) (Z.land (Z.shiftr latQ (Z.of_nat i)) 1) in
      encode_loop i lonQ latQ hash
  end.

Definition GeoEncode (lon lat : float64) : float64 :=
  let latQ := quantize lat geoMinLat geoMaxLat latRange in
  let lonQ := quantize lon geoMinLon geoMaxLon lonRange in
  f_of_Z (encode_loop geoSteps lonQ latQ 0).

Fixpoint decode_loop (n : nat) (h lonQ latQ : Z) : Z * Z :=
  match n with
  | O => (lonQ, latQ)
  | S i =>
      let bit := 2 * Z.of_nat i in
      let latQ := Z.lor latQ (Z.shiftl (Z.land (Z.shiftr h bit) 1) (Z.of_nat i)) in
      let lonQ := Z.lor lonQ (Z.shiftl (Z.land (Z.shiftr h (bit + 1)) 1) (Z.of_nat i)) in
      decode_loop i h lonQ latQ
  end.

(** The corner of a cell. *)
Definition corner (q : Z) (range min : float64) : float64 := fadd (fmul (fdiv (f_of_Z q) steps26) range) min.

Definition GeoDecode (hash : float64) : float64 * float64 :=
  let '(lonQ, latQ) := decode_loop geoSteps (f_to_uint64 hash) 0 0 in
  (corner lonQ lonRange geoMinLon, corner latQ latRange geoMinLat).

(** ** Distances and searches *)

Record math := mkMath {
  Sin : float64 -> float64; Cos : float64 -> float64; Atan2 : float64 -> float64 -> float64; Log : float64 -> float64
}.

Definition Pi : float64 := decimal_float false 31415926535897932384626433832795 (-31).
Definition earthRadius : float64 := decimal_float false 6372797560856 (-6).
Definition Sqrt (x : float64) : float64 := SFsqrt 53 1024 x.

Section Search.
Context (M : math) (sort_by_dist : list GeoResult -> list GeoResult).

Definition radians (x : float64) : float64 := fdiv (fmul x Pi) (f_of_Z 180).

Definition GeoDistBetween (lon1 lat1 lon2 lat2 : float64) : float64 :=
  let lat1r := radians lat1 in
  let lat2r := radians lat2 in
  let dlat := radians (fsub lat2 lat1) in
  let dlon := radians (fsub lon2 lon1) in
  let half x := fdiv x (f_of_Z 2) in
  let a := fadd (fmul (Sin M (half dlat)) (Sin M (half dlat)))
                (fmul (fmul (fmul (Cos M lat1r) (Cos M lat2r)) (Sin M (half dlon))) (Sin M (half dlon))) in
  let c := fmul (f_of_Z 2) (Atan2 M (Sqrt a) (Sqrt (fsub (f_of_Z 1) a))) in
  fmul earthRadius c.

Definition search_one (centerLon centerLat radius : float64) (m : SortedSet.ZMember) : option GeoResult :=
  let '(lon, lat) := GeoDecode (SortedSet.Score m) in
  let dist := GeoDistBetween centerLon centerLat lon lat in
  if fleb dist radius then Some (mkResult (SortedSet.Member m) dist lon lat (SortedSet.Score m)) else None.

Definition GeoSearch (members : list SortedSet.ZMember) (centerLon centerLat radius : float64) : list GeoResult :=
  sort_by_dist (omap (search_one centerLon centerLat radius) members).

(** ** The methods of the store *)

Definition GeoAdd (now : Z) (key : string) (members : list GeoMember) (s : Store) : result Z * Store :=
  Sets.ZAdd now key ((fun m => SortedSet.mkZ (Name m) (GeoEncode (lon m) (lat m))) <$> members) s.

(** The sorted set under a key that has not expired; its type is not checked. *)
Definition live_zset (now : Z) (key : string) (s : Store) : option SortedSet.SortedSet :=
  if isExpiredRLocked now key s then None else zsets s !! key.

(** [None] for a member that is not found. *)
Definition GeoPos (now : Z) (key : string) (members : list string) (s : Store) : list (option GeoPoint) :=
  match live_zset now key s with
  | None => (fun _ => None) <$> members
  | Some zs =>
      (fun m => match SortedSet.Score_ zs m with
                | Some score => let '(lon, lat) := GeoDecode score in Some (mkPoint lon lat)
                | None => None
                end) <$> members
  end.

Definition GeoDist (now : Z) (key member1 member2 : string) (s : Store) : option float64 :=
  zs ← live_zset now key s;
  s1 ← SortedSet.Score_ zs member1;
  s2 ← SortedSet.Score_ zs member2;
  let '(lon1, lat1) := GeoDecode s1 in
  let '(lon2, lat2) := GeoDecode s2 in
  Some (GeoDistBetween lon1 lat1 lon2 lat2).

(** The direction and the limit of the answer. *)
Definition arrange (asc : bool) (count : Z) (results : list GeoResult) : list GeoResult :=
  let results := if asc then results else rev results in
  if (count >? 0) && (zlen results >? count) then ztake count results else results.

Definition GeoSearchByRadius (now : Z) (key : string) (lon lat radius : float64) (count : Z) (asc : bool) (s : Store)
    : list GeoResult :=
  match live_zset now key s with
  | None => []
  | Some zs => arrange asc count (GeoSearch (SortedSet.Members zs) lon lat radius)
  end.

Definition GeoSearchByMember (now : Z) (key member : string) (radius : float64) (count : Z) (asc : bool) (s : Store)
    : result (list GeoResult) :=
  match live_zset now key s with
  | None => Ok []
  | Some zs =>
      match SortedSet.Score_ zs member with
      | None => Err "member not found"
      | Some score =>
          let '(lon, lat) := GeoDecode score in
          Ok (arrange asc count (GeoSearch (SortedSet.Members zs) lon lat radius))
      end
  end.
End Search.

(** ** Integers of at most 53 bits are floats *)

Lemma digits2_iter_xO p k : Zpos (digits2_pos (Pos.iter xO p k)) = Zpos (digits2_pos p) + Zpos k.
Proof.
  induction k as [|k IH] using Pos.peano_ind; [cbn; lia|]. rewrite Pos.iter_succ. cbn [digits2_pos]. lia.
Qed.

Lemma iter_xO_value p k : Zpos (Pos.iter xO p k) = Zpos p * 2 ^ Zpos k.
Proof.
  induction k as [|k IH] using Pos.peano_ind; [cbn; lia|]. rewrite Pos.iter_succ, Pos2Z.inj_succ, Z.pow_succ_r by lia.
  rewrite Pos2Z.inj_xO, IH. lia.
Qed.

Lemma digits2_bound p d : 0 <= d -> Zpos p < 2 ^ d -> Zpos (digits2_pos p) <= d.
Proof.
  revert d. induction p as [p IH|p IH|]; intros d Hd Hp; cbn [digits2_pos].
  - assert (0 < d) by (destruct (decide (d = 0)) as [->|]; [cbn in Hp; lia|lia]).
    rewrite <-(Z.succ_pred d), Z.pow_succ_r in Hp by lia. specialize (IH (Z.pred d)). lia.
  - assert (0 < d) by (destruct (decide (d = 0)) as [->|]; [cbn in Hp; lia|lia]).
    rewrite <-(Z.succ_pred d), Z.pow_succ_r in Hp by lia. specialize (IH (Z.pred d)). lia.
  - assert (0 < d) by (destruct (decide (d = 0)) as [->|]; [cbn in Hp; lia|lia]). lia.
Qed.

Lemma round_aux_full m e :
  Zpos (digits2_pos m) = 53 -> -1074 <= e <= 971 -> binary_round_aux 53 1024 false (Zpos m) e loc_Exact = S754_finite false m e.
Proof.
  intros Hd He. unfold binary_round_aux.
  assert (shr_fexp 53 1024 (Zpos m) e loc_Exact = (Build_shr_record (Zpos m) false false, e)) as Hs.
  { unfold shr_fexp, fexp, emin. cbn [Zdigits2]. rewrite Hd.
    replace (Z.max (53 + e - 53) (3 - 1024 - 53) - e) with 0 by lia. done. }
  rewrite Hs. cbn [shr_m loc_of_shr_record round_nearest_even]. rewrite Hs. cbn [shr_m].
  replace (e <=? 1024 - 53) with true by lia. done.
Qed.

Lemma f_of_pos p :
  Zpos p < 2 ^ 53 ->
  exists m e, f_of_Z (Zpos p) = S754_finite false m e /\ -53 <= e <= 0 /\ Zpos m = Zpos p * 2 ^ (- e).
Proof.
  intros Hp. pose proof (digits2_bound p 53 ltac:(lia) Hp) as Hd. set (d := Zpos (digits2_pos p)) in *.
  unfold f_of_Z, binary_normalize, binary_round, shl_align. fold d.
  assert (fexp 53 1024 (d + 0) - 0 = d - 53) as -> by (unfold fexp, emin; lia).
  destruct (d - 53) as [|k|k] eqn:E; [|lia|].
  - exists p, 0. rewrite round_aux_full by (fold d; lia). split; [done|lia].
  - exists (Pos.iter xO p k), (Zneg k). unfold fexp, emin. replace (Z.max (d + 0 - 53) (3 - 1024 - 53)) with (Zneg k) by lia.
    rewrite round_aux_full; [|rewrite digits2_iter_xO; fold d; lia|lia]. split; [done|]. split; [lia|].
    rewrite iter_xO_value. f_equal.
Qed.

Lemma f_to_uint64_exact n : 0 <= n < 2 ^ 53 -> f_to_uint64 (f_of_Z n) = n.
Proof.
  intros [H0 Hn]. destruct n as [|p|p]; [done| |lia].
  destruct (f_of_pos p Hn) as (m & e & Hf & He & Hm). unfold f_to_uint64. rewrite Hf.
  assert (fltb (S754_finite false m e) two63 = true) as ->.
  { replace two63 with (S754_finite false 4503599627370496 11) by (vm_compute; reflexivity).
    apply fltb_key; [done|done|]. cbn [fkey key_lt]. lia. }
  unfold f_to_int64. assert ((if 0 <=? e then Z.pos m * 2 ^ e else Z.pos m / 2 ^ (- e)) = Zpos p) as ->.
  { rewrite Hm. destruct (Z.leb_spec 0 e) as [Hle|Hle].
    - replace e with 0 by lia. cbn. lia.
    - apply Z.div_mul. apply Z.pow_nonzero; lia. }
  change int64_min with (- 2 ^ 63). change int64_max with (2 ^ 63 - 1).
  replace ((- 2 ^ 63 <=? Z.pos p) && (Z.pos p <=? 2 ^ 63 - 1)) with true by lia. apply Z.mod_small. lia.
Qed.

(** ** Interleaving *)

Lemma testbit_low_bit x i j : 0 <= i -> 0 <= j ->
  Z.testbit (Z.land (Z.shiftr x i) 1) j = (j =? 0) && Z.testbit x i.
Proof.
  intros Hi Hj. rewrite Z.land_spec, Z.shiftr_spec by done. destruct (Z.eqb_spec j 0) as [->|Hne].
  - change (Z.testbit 1 0) with true. by rewrite andb_true_r.
  - rewrite (Z.bits_above_log2 1 j) by (cbn; lia). apply andb_false_r.
Qed.

Lemma halves i : Z.even (2 * i) = true /\ 2 * i / 2 = i /\ Z.even (2 * i + 1) = false /\ (2 * i + 1) / 2 = i.
Proof.
  rewrite Z.even_add, Z.even_mul. repeat split; [rewrite Z.mul_comm; by apply Z.div_mul|].
  rewrite Z.mul_comm, Z.div_add_l by done. change (1 / 2) with 0. lia.
Qed.

Lemma encode_loop_bit n lonQ latQ hash j :
  0 <= j ->
  Z.testbit (encode_loop n lonQ latQ hash) j =
  if j <? 2 * Z.of_nat n then Z.testbit (if Z.even j then latQ else lonQ) (j / 2) else Z.testbit hash (j - 2 * Z.of_nat n).
Proof.
  intros Hj. revert hash. induction n as [|i IH]; intros hash.
  - cbn [encode_loop]. change (2 * Z.of_nat 0) with 0. replace (j <? 0) with false by (symmetry; apply Z.ltb_ge; lia). by rewrite Z.sub_0_r.
  - cbn [encode_loop]. rewrite IH. destruct (Z.ltb_spec j (2 * Z.of_nat i)) as [Hlt|Hge].
    + by replace (j <? 2 * Z.of_nat (S i)) with true by (symmetry; apply Z.ltb_lt; lia).
    + rewrite !Z.lor_spec, !Z.shiftl_spec, !testbit_low_bit by lia.
      set (k := j - 2 * Z.of_nat i) in *. destruct (Z.ltb_spec j (2 * Z.of_nat (S i))) as [Hlt|Hge2].
      * assert (k = 0 \/ k = 1) as [Hk|Hk] by lia.
        -- replace j with (2 * Z.of_nat i) by lia. destruct (halves (Z.of_nat i)) as (-> & -> & _).
           rewrite Hk. cbn. by rewrite (Z.testbit_neg_r _ (-1)) by lia.
        -- replace j with (2 * Z.of_nat i + 1) by lia. destruct (halves (Z.of_nat i)) as (_ & _ & -> & ->).
           rewrite Hk, Z.lor_spec, Z.shiftl_spec, testbit_low_bit by lia. cbn.
           rewrite (Z.testbit_neg_r _ (-1)) by lia. cbn. by rewrite orb_false_r.
      * rewrite Z.lor_spec, Z.shiftl_spec, testbit_low_bit by lia.
        replace (k =? 0) with false by lia. replace (k - 1 =? 0) with false by lia. cbn [andb]. rewrite !orb_false_r.
        f_equal. lia.
Qed.

Lemma decode_loop_bits n h lonQ latQ j :
  0 <= j ->
  Z.testbit (decode_loop n h lonQ latQ).1 j = Z.testbit lonQ j || ((j <? Z.of_nat n) && Z.testbit h (2 * j + 1)) /\
  Z.testbit (decode_loop n h lonQ latQ).2 j = Z.testbit latQ j || ((j <? Z.of_nat n) && Z.testbit h (2 * j)).
Proof.
  intros Hj. revert lonQ latQ. induction n as [|i IH]; intros lonQ latQ.
  - cbn [decode_loop fst snd]. change (Z.of_nat 0) with 0. replace (j <? 0) with false by (symmetry; apply Z.ltb_ge; lia). by rewrite !orb_false_r.
  - cbn [decode_loop]. destruct (IH (Z.lor lonQ (Z.shiftl (Z.land (Z.shiftr h (2 * Z.of_nat i + 1)) 1) (Z.of_nat i)))
      (Z.lor latQ (Z.shiftl (Z.land (Z.shiftr h (2 * Z.of_nat i)) 1) (Z.of_nat i)))) as [-> ->].
    rewrite !Z.lor_spec, !Z.shiftl_spec by lia. rewrite <-!orb_assoc.
    assert (forall b, 0 <= b -> Z.testbit (Z.land (Z.shiftr h b) 1) (j - Z.of_nat i) = (j =? Z.of_nat i) && Z.testbit h b) as Hbit.
    { intros b Hb. destruct (decide (0 <= j - Z.of_nat i)).
      - rewrite testbit_low_bit by lia. f_equal. lia.
      - rewrite Z.testbit_neg_r by lia. by replace (j =? Z.of_nat i) with false by lia. }
    rewrite !Hbit by lia. destruct (Z.eqb_spec j (Z.of_nat i)) as [->|Hne]; cbn [andb].
    + replace (Z.of_nat i <? Z.of_nat i) with false by (symmetry; apply Z.ltb_ge; lia). replace (Z.of_nat i <? Z.of_nat (S i)) with true by (symmetry; apply Z.ltb_lt; lia).
      cbn [andb]. by rewrite !orb_false_r.
    + assert ((j <? Z.of_nat (S i)) = (j <? Z.of_nat i)) as ->; [|done]. destruct (Z.ltb_spec j (Z.of_nat i)); [apply Z.ltb_lt|apply Z.ltb_ge]; lia.
Qed.

Lemma decode_encode lonQ latQ n :
  decode_loop n (encode_loop n lonQ latQ 0) 0 0 = (lonQ mod 2 ^ Z.of_nat n, latQ mod 2 ^ Z.of_nat n).
Proof.
  assert (forall x y : Z * Z, x.1 = y.1 -> x.2 = y.2 -> x = y) as Hpair by (intros [] []; cbn; congruence).
  apply Hpair; cbn [fst snd]; apply Z.bits_inj'; intros j Hj.
  - rewrite (proj1 (decode_loop_bits n _ 0 0 j Hj)), Z.bits_0, encode_loop_bit by lia. cbn [orb].
    rewrite Z.testbit_mod_pow2 by lia. destruct (Z.ltb_spec j (Z.of_nat n)) as [Hlt|Hge]; [|done]. cbn [andb].
    replace (2 * j + 1 <? 2 * Z.of_nat n) with true by (symmetry; apply Z.ltb_lt; lia). by destruct (halves j) as (_ & _ & -> & ->).
  - rewrite (proj2 (decode_loop_bits n _ 0 0 j Hj)), Z.bits_0, encode_loop_bit by lia. cbn [orb].
    rewrite Z.testbit_mod_pow2 by lia. destruct (Z.ltb_spec j (Z.of_nat n)) as [Hlt|Hge]; [|done]. cbn [andb].
    replace (2 * j <? 2 * Z.of_nat n) with true by (symmetry; apply Z.ltb_lt; lia). by destruct (halves j) as (-> & -> & _).
Qed.

Lemma encode_loop_range lonQ latQ n : 0 <= encode_loop n lonQ latQ 0 < 2 ^ (2 * Z.of_nat n).
Proof.
  assert (encode_loop n lonQ latQ 0 = encode_loop n lonQ latQ 0 mod 2 ^ (2 * Z.of_nat n)) as ->.
  - apply Z.bits_inj'. intros j Hj. rewrite Z.testbit_mod_pow2, encode_loop_bit by lia.
    destruct (j <? 2 * Z.of_nat n); [done|]. by rewrite Z.bits_0.
  - apply Z.mod_pos_bound. apply Z.pow_pos_nonneg; lia.
Qed.

(** Two scores that compare equal decode to the same position. *)
Lemma feqb_decode x y : feqb x y = true -> GeoDecode x = GeoDecode y.
Proof.
  intros H. destruct x as [a|a| |a m e], y as [b|b| |b m' e']; try done; [by destruct a, b..|].
  unfold feqb, SFeqb, SFcompare in H. destruct a, b; try done;
    destruct (Z.compare_spec e e') as [->| |]; try done; fold (Pos.compare m m') in H;
    destruct (Pos.compare_spec m m') as [->| |]; done.
Qed.

Lemma add_position m x z : exists sc, SortedSet.Score_ (SortedSet.Add m x z).2 m = Some sc /\ GeoDecode sc = GeoDecode x.
Proof.
  unfold SortedSet.Add, SortedSet.Score_. destruct (SortedSet.scores z !! m) as [old|] eqn:E.
  - destruct (feqb old x) eqn:Ex; [exists old; split; [exact E|by apply feqb_decode]|].
    exists x. split; [|reflexivity]. cbn. by rewrite lookup_insert_eq.
  - exists x. split; [|reflexivity]. cbn. by rewrite lookup_insert_eq.
Qed.

Lemma add_other m x z k : k <> m -> SortedSet.Score_ (SortedSet.Add m x z).2 k = SortedSet.Score_ z k.
Proof.
  intros Hk. unfold SortedSet.Add, SortedSet.Score_. destruct (SortedSet.scores z !! m) as [old|].
  - destruct (feqb old x); cbn; [done|]. rewrite lookup_insert_ne by done. unfold SortedSet.removeOrdered. by case_match.
  - cbn. by rewrite lookup_insert_ne.
Qed.

(** Of several members of one name the last one counts. *)
Lemma zadd_loop_other l z n k : k ∉ SortedSet.Member <$> l -> SortedSet.Score_ (Sets.zadd_loop l z n).2 k = SortedSet.Score_ z k.
Proof.
  revert z n. induction l as [|m l IH]; intros z n Hk; [done|]. apply not_elem_of_cons in Hk as [Hm Hl].
  unfold Sets.zadd_loop. cbn [fold_left]. pose proof (add_other (SortedSet.Member m) (SortedSet.Score m) z k Hm) as Ha.
  destruct (SortedSet.Add (SortedSet.Member m) (SortedSet.Score m) z) as [b z']. rewrite <-Ha. exact (IH z' _ Hl).
Qed.

Lemma zadd_loop_position pre m post z n :
  SortedSet.Member m ∉ SortedSet.Member <$> post ->
  exists sc, SortedSet.Score_ (Sets.zadd_loop (pre ++ m :: post) z n).2 (SortedSet.Member m) = Some sc /\
    GeoDecode sc = GeoDecode (SortedSet.Score m).
Proof.
  intros Hm. unfold Sets.zadd_loop. rewrite fold_left_app. destruct (fold_left _ pre (n, z)) as [n1 z1]. cbn [fold_left].
  destruct (add_position (SortedSet.Member m) (SortedSet.Score m) z1) as (sc & Hsc & Hd).
  destruct (SortedSet.Add (SortedSet.Member m) (SortedSet.Score m) z1) as [b z2]. exists sc. split; [|done].
  rewrite <-Hsc. by apply zadd_loop_other.
Qed.

Lemma encode_decode lon lat :
  let lonQ := quantize lon geoMinLon geoMaxLon lonRange in
  let latQ := quantize lat geoMinLat geoMaxLat latRange in
  exists h, 0 <= h < 2 ^ 52 /\ GeoEncode lon lat = f_of_Z h /\ f_to_uint64 (f_of_Z h) = h /\
    GeoDecode (GeoEncode lon lat) =
    (corner (lonQ mod 2 ^ 26) lonRange geoMinLon, corner (latQ mod 2 ^ 26) latRange geoMinLat).
Proof.
  intros lonQ latQ. exists (encode_loop geoSteps lonQ latQ 0).
  pose proof (encode_loop_range lonQ latQ geoSteps) as Hr. change (2 * Z.of_nat geoSteps) with 52 in Hr.
  assert (f_to_uint64 (f_of_Z (encode_loop geoSteps lonQ latQ 0)) = encode_loop geoSteps lonQ latQ 0) as Hx
    by (apply f_to_uint64_exact; lia).
  split; [exact Hr|]. split; [reflexivity|]. split; [exact Hx|].
  unfold GeoDecode, GeoEncode. fold lonQ latQ. by rewrite Hx, decode_encode.
Qed.

(** The score under which ZADD leaves a member. *)
Lemma zadd_position now key s n pre m post :
  (Sets.ZAdd now key (pre ++ m :: post) s).1 = Ok n -> SortedSet.Member m ∉ SortedSet.Member <$> post ->
  exists z sc, live_zset now key (Sets.ZAdd now key (pre ++ m :: post) s).2 = Some z /\
    SortedSet.Score_ z (SortedSet.Member m) = Some sc /\ GeoDecode sc = GeoDecode (SortedSet.Score m).
Proof.
  intros Hok Hlast. destruct (local_use _ _ _ _ s (Sets.ZAdd_local now key (pre ++ m :: post))) as (Hr & Hl & _).
  rewrite Hok in Hr. set (s' := (Sets.ZAdd now key (pre ++ m :: post) s).2) in *. clearbody s'. unfold Sets.spec_ZAdd in *.
  set (e := live now (entry s key)) in *. destruct (zlen (pre ++ m :: post) =? 0); [discriminate Hr|].
  destruct (is_some (e_kv e) || Sets.e_not_zset e); [discriminate Hr|].
  destruct (zadd_loop_position pre m post (default SortedSet.NewSortedSet (e_zset e)) 0 Hlast) as (sc & Hsc & Hdec).
  destruct (Sets.zadd_loop (pre ++ m :: post) _ 0) as [added z]. cbn [fst snd] in Hl, Hsc.
  exists z, sc. split; [|exact (conj Hsc Hdec)].
  rewrite (live_fresh now (e <| e_zset := Some z |>)) in Hl by apply e_expired_live.
  unfold live_zset. rewrite isExpired_entry. change (zsets s' !! key) with (e_zset (entry s' key)).
  unfold live in Hl. destruct (e_expired now (entry s' key)); [discriminate (f_equal e_zset Hl)|]. rewrite Hl. reflexivity.
Qed.

Lemma geopos_one now key s nm z sc p q :
  live_zset now key s = Some z -> SortedSet.Score_ z nm = Some sc -> GeoDecode sc = (p, q) ->
  GeoPos now key [nm] s = [Some (mkPoint p q)].
Proof. intros Hz Hs Hd. unfold GeoPos. rewrite Hz. cbn [fmap list_fmap]. rewrite Hs, Hd. reflexivity. Qed.

(** C38: a position that GEOADD stores is read back as its cell.  Whatever the coordinates, the score of a member is an
    integer of 52 bits, which float64 holds exactly.  After a GEOADD that succeeds, on a new or an existing key,
    GEOPOS at the same time answers for each member (the last one given, where a name is given twice) the
    corner of the cell whose numbers are the quantized longitude and latitude, cut to 26 bits:
    interleaving and separating the bits loses nothing else. *)
Theorem geo_roundtrip now key members s n pre m post :
  (GeoAdd now key members s).1 = Ok n -> members = pre ++ m :: post -> Name m ∉ Name <$> post ->
  let lonQ := quantize (lon m) geoMinLon geoMaxLon lonRange in
  let latQ := quantize (lat m) geoMinLat geoMaxLat latRange in
  (exists h, 0 <= h < 2 ^ 52 /\ GeoEncode (lon m) (lat m) = f_of_Z h /\ f_to_uint64 (f_of_Z h) = h) /\
  GeoPos now key [Name m] (GeoAdd now key members s).2 =
  [Some (mkPoint (corner (lonQ mod 2 ^ 26) lonRange geoMinLon) (corner (latQ mod 2 ^ 26) latRange geoMinLat))].
Proof.
  intros Hok -> Hlast lonQ latQ. destruct (encode_decode (lon m) (lat m)) as (h & Hh & He & Hx & Hd).
  split; [exists h; exact (conj Hh (conj He Hx))|].
  unfold GeoAdd in *. rewrite fmap_app, fmap_cons in Hok |- *.
  destruct (zadd_position _ _ _ _ _ _ _ Hok) as (z & sc & Hz & Hsc & Hdec); [rewrite <-list_fmap_compose; exact Hlast|].
  eapply geopos_one; [exact Hz|exact Hsc|]. etransitivity; [exact Hdec|]. exact Hd.
Qed.

Lemma geo_roundtrip_witness :
  let m := mkMember (f_of_Z 12) (f_of_Z 41) "Rome" in
  (GeoAdd 0 "g" [m] New).1 = Ok 1 /\
  exists lonQ latQ, GeoPos 0 "g" ["Rome"%string] (GeoAdd 0 "g" [m] New).2 =
    [Some (mkPoint (corner (lonQ mod 2 ^ 26) lonRange geoMinLon) (corner (latQ mod 2 ^ 26) latRange geoMinLat))].
Proof.
  intros m. assert ((GeoAdd 0 "g" [m] New).1 = Ok 1) as H by (vm_compute; reflexivity). split; [exact H|].
  destruct (geo_roundtrip 0 "g" [m] New 1 [] m [] H eq_refl (not_elem_of_nil _)) as [_ Hp]. do 2 eexists. exact Hp.
Defined.

(** Positions on the edge jump and positions drift.  The largest coordinates quantize to 2 ^ 26, one more
    than 26 bits hold, so the north-east corner of the map is stored as its south-west corner; and adding
    a member again at the latitude GEOPOS answers for it can move it one cell to the south. *)
Theorem geo_edges :
  quantize geoMaxLat geoMinLat geoMaxLat latRange = 2 ^ 26 /\ quantize geoMaxLon geoMinLon geoMaxLon lonRange = 2 ^ 26 /\
  GeoDecode (GeoEncode geoMaxLon geoMaxLat) = (geoMinLon, geoMinLat) /\
  (let '(lon, lat) := GeoDecode (f_of_Z 5) in GeoEncode lon lat = f_of_Z 4).
Proof. vm_compute. repeat split. Qed.

(** ** Searches *)

Definition dist_le (x y : GeoResult) : Prop := fltb (Dist y) (Dist x) = false.

(** [sort.Slice(results, func(i, j int) bool { return results[i].Dist < results[j].Dist })] *)
Class SortsByDist (sort : list GeoResult -> list GeoResult) := {
  sorts_perm l : sort l ≡ₚ l;
  sorts_sorted l : Forall (fun r => is_nan (Dist r) = false) l -> StronglySorted dist_le (sort l)
}.

(** A sort that qualifies: by the order keys of the distances. *)
Definition key_le (x y : GeoResult) : Prop := ~ key_lt (fkey (Dist y)) (fkey (Dist x)).
#[export] Instance key_lt_dec a b : Decision (key_lt a b).
Proof. destruct a as [[a1 a2] a3], b as [[b1 b2] b3]. unfold key_lt. apply _. Defined.
#[export] Instance key_le_dec : RelDecision key_le.
Proof. intros x y. unfold key_le. apply _. Defined.
#[export] Instance key_le_total : Total key_le.
Proof.
  intros x y. unfold key_le. destruct (decide (key_lt (fkey (Dist y)) (fkey (Dist x)))) as [H|H]; [right|by left].
  intros H'. by apply (key_lt_irrefl (fkey (Dist x))), (key_lt_trans _ (fkey (Dist y))).
Qed.
#[export] Instance key_le_trans : Transitive key_le.
Proof.
  intros x y z Hxy Hyz H. destruct (key_trichotomy (fkey (Dist x)) (fkey (Dist y))) as [Hl|[E|Hl]]; [|by rewrite E in H|done].
  apply Hyz. by apply (key_lt_trans _ (fkey (Dist x))).
Qed.

#[export] Instance merge_sorts_by_dist : SortsByDist (merge_sort key_le).
Proof.
  split; [apply merge_sort_Permutation|]. intros l Hl.
  assert (StronglySorted key_le (merge_sort key_le l)) as Hs by (apply StronglySorted_merge_sort; apply _).
  rewrite <-(merge_sort_Permutation key_le l) in Hl. revert Hl. generalize (merge_sort key_le l) Hs. clear.
  intros l Hs. induction Hs as [|x l Hs IH Hx]; intros Hl; [constructor|]. apply Forall_cons in Hl as [Hn Hl].
  constructor; [by apply IH|]. rewrite Forall_forall in Hx, Hl |- *. intros y Hy. unfold dist_le.
  destruct (fltb (Dist y) (Dist x)) eqn:E; [|done]. exfalso. apply (Hx y Hy). apply fltb_key; [by apply Hl|done|done].
Qed.

Section Exact.
Context (M : math) (sort : list GeoResult -> list GeoResult) `{!SortsByDist sort}.

Lemma search_one_near lon lat radius m r :
  search_one M lon lat radius m = Some r ->
  Member r = SortedSet.Member m /\ Hash r = SortedSet.Score m /\ (rlon r, rlat r) = GeoDecode (SortedSet.Score m) /\
  Dist r = GeoDistBetween M lon lat (rlon r) (rlat r) /\ fleb (Dist r) radius = true.
Proof.
  unfold search_one. destruct (GeoDecode _) as [lon' lat']. case_match eqn:E; [|done].
  intros Hr. injection Hr as <-. cbn [Member Hash rlon rlat Dist]. do 4 (split; [reflexivity|]). exact E.
Qed.

Lemma fleb_not_nan x y : fleb x y = true -> is_nan x = false.
Proof. by destruct x, y. Qed.

Lemma near_sorted lon lat radius members :
  let all := omap (search_one M lon lat radius) members in
  GeoSearch M sort members lon lat radius ≡ₚ all /\ StronglySorted dist_le (GeoSearch M sort members lon lat radius).
Proof.
  intros all. unfold GeoSearch. fold all. split; [apply sorts_perm|]. apply sorts_sorted. apply Forall_forall. intros r Hr.
  apply list_elem_of_omap in Hr as (m & _ & Hr). apply search_one_near in Hr as (_ & _ & _ & _ & Hd). by eapply fleb_not_nan.
Qed.

(** GEOSEARCH answers the nearest members within the radius.  For a live sorted set, the answer of an
    ascending search is sorted by distance, consists of members whose decoded position is within the radius,
    is as long as COUNT allows, and every member within the radius that it leaves out is at least as
    far away as each one it contains.  [sort] is any sorting function. *)
Theorem geo_search_exact now key lon lat radius count s zs :
  live_zset now key s = Some zs ->
  let near := omap (search_one M lon lat radius) (SortedSet.Members zs) in
  let r := GeoSearchByRadius M sort now key lon lat radius count true s in
  StronglySorted dist_le r /\
  zlen r = (if count >? 0 then Z.min count (zlen near) else zlen near) /\
  (forall x, x ∈ r -> fleb (Dist x) radius = true /\
     exists m, m ∈ SortedSet.Members zs /\ Member x = SortedSet.Member m /\ GeoDecode (SortedSet.Score m) = (rlon x, rlat x) /\
       Dist x = GeoDistBetween M lon lat (rlon x) (rlat x)) /\
  exists rest, near ≡ₚ r ++ rest /\ forall x y, x ∈ r -> y ∈ rest -> dist_le x y.
Proof.
  intros Hz near r. destruct (near_sorted lon lat radius (SortedSet.Members zs)) as [Hp Hs]. fold near in Hp.
  set (all := GeoSearch _ _ _ _ _ _) in *.
  assert (r = arrange true count all) as Hre by (unfold r, GeoSearchByRadius; by rewrite Hz). clearbody r.
  assert (exists rest, all = r ++ rest /\ zlen r = (if count >? 0 then Z.min count (zlen near) else zlen near)) as (rest & Hr & Hl).
  { assert (zlen near = zlen all) as -> by (by rewrite Hp). rewrite Hre. unfold arrange. destruct (count >? 0) eqn:E; cbn [andb]; [|exists []; by rewrite app_nil_r].
    destruct (zlen all >? count) eqn:El.
    - exists (zdrop count all). unfold ztake, zdrop. rewrite take_drop. split; [done|]. unfold zlen in *. rewrite length_take. lia.
    - exists []. rewrite app_nil_r. split; [done|]. lia. }
  rewrite Hr in Hs. apply StronglySorted_app in Hs as (Hxy & Hs & _). split; [done|]. split; [done|]. split.
  - intros x Hx. assert (x ∈ near) as Hin by (rewrite <-Hp, Hr; apply elem_of_app; by left).
    apply list_elem_of_omap in Hin as (m & Hm & Hx'). apply search_one_near in Hx' as (H1 & _ & H2 & H3 & H4).
    split; [exact H4|]. exists m. split; [exact Hm|]. split; [exact H1|]. split; [symmetry; exact H2|exact H3].
  - exists rest. rewrite <-Hp, Hr. split; [done|]. intros x y. apply Hxy.
Qed.
End Exact.

(** A map with two towns, with trigonometry replaced by lines. *)
Definition flat : math := mkMath (fun x => x) (fun _ => f_of_Z 1) (fun y _ => y) (fun x => fsub x (f_of_Z 1)).
Definition towns : Store :=
  (GeoAdd 0 "map" [mkMember (f_of_Z 10) (f_of_Z 10) "a"; mkMember (f_of_Z 20) (f_of_Z 20) "b"] New).2.
Definition towns_zset : SortedSet.SortedSet := default SortedSet.NewSortedSet (live_zset 0 "map" towns).

Lemma geo_search_exact_witness :
  let r := GeoSearchByRadius flat (merge_sort key_le) 0 "map" (f_of_Z 11) (f_of_Z 11) (f_of_Z 500000) 0 true towns in
  Member <$> r = ["a"%string] /\ StronglySorted dist_le r /\
  zlen r = zlen (omap (search_one flat (f_of_Z 11) (f_of_Z 11) (f_of_Z 500000)) (SortedSet.Members towns_zset)).
Proof.
  intros r. split; [vm_compute; reflexivity|].
  destruct (geo_search_exact flat (merge_sort key_le) 0 "map" (f_of_Z 11) (f_of_Z 11) (f_of_Z 500000) 0 towns towns_zset)
    as (H1 & H2 & _); [vm_compute; reflexivity|]. split; [exact H1|exact H2].
Defined.
End Geo.
