(* ===== verification/StoreSketch.v ===== *)
(** * The estimate of a sketch (internal/store/hyperloglog.go: Count, and
    PFCount of internal/store/store.go)

    The sum over the registers is computed in binary64 in their order;
    [math.Pow(2, -k)] is exact, and the logarithm of package math is a
    parameter. *)
From Stdlib Require Import SpecFloat.
From S2P Require Import Prelude GoLib GoText HyperLogLog Store StoreDocs Geo.

Module Sketch.
Import Text HyperLogLog Store Docs.

(** A constant of type float64, rounded after each operation. *)
Definition hllAlpha : float64 :=
  fdiv (decimal_float false 7213 (-4)) (fadd (f_of_Z 1) (fdiv (decimal_float false 1079 (-3)) (f_of_Z hllRegisters))).

Definition two_to (e : Z) : float64 := binary_normalize 53 1024 1 e false.

(** [math.Round]: to the nearest integer, halves away from zero. *)
Definition Round (x : float64) : float64 :=
  match x with
  | S754_finite neg m e =>
      if 0 <=? e then x
      else
        let z := (Z.pos m + 2 ^ (- e - 1)) / 2 ^ (- e) in
        if z =? 0 then S754_zero neg else f_of_Z (if neg then - z else z)
  | _ => x
  end.

#[local] Opaque NewHyperLogLog.

Section Estimate.
Context (Log : float64 -> float64).

(** The sum and the number of empty registers. *)
Definition count_one (acc : float64 * Z) (val : Z) : float64 * Z :=
  (fadd acc.1 (two_to (- val)), if val =? 0 then acc.2 + 1 else acc.2).

Definition Count (h : HyperLogLog) : Z :=
  let '(sum, zeros) := fold_left count_one (registers h) (fzero, 0) in
  let m := f_of_Z hllRegisters in
  let estimate := fdiv (fmul (fmul hllAlpha m) m) sum in
  let estimate :=
    if fleb estimate (fmul (decimal_float false 25 (-1)) m) && (zeros >? 0)
    then fmul m (Log (fdiv m (f_of_Z zeros))) else estimate in
  Geo.f_to_int64 (Round estimate).

Definition pfcount_one (now : Z) (s : Store) (merged : HyperLogLog) (key : string) : HyperLogLog :=
  if isExpiredRLocked now key s then merged
  else match hlls s !! key with Some hll => (Merge hll merged).2 | None => merged end.

Definition PFCount (now : Z) (keys : list string) (s : Store) : Z :=
  match keys with
  | [key] =>
      if isExpiredRLocked now key s then 0
      else match hlls s !! key with Some hll => Count hll | None => 0 end
  | _ => Count (fold_left (pfcount_one now s) keys NewHyperLogLog)
  end.

(** ** The estimate is that of the union *)

Hypothesis Log_one : Log (f_of_Z 1) = fzero.

(** No element: the correction for small ranges gives 0. *)
Lemma Count_new : Count NewHyperLogLog = 0.
Proof.
  assert (fold_left count_one (registers NewHyperLogLog) (fzero, 0) = (f_of_Z hllRegisters, hllRegisters)) as E by (vm_compute; reflexivity).
  assert (fleb (fdiv (fmul (fmul hllAlpha (f_of_Z hllRegisters)) (f_of_Z hllRegisters)) (f_of_Z hllRegisters))
    (fmul (decimal_float false 25 (-1)) (f_of_Z hllRegisters)) && (hllRegisters >? 0) = true) as E1 by (vm_compute; reflexivity).
  assert (fdiv (f_of_Z hllRegisters) (f_of_Z hllRegisters) = f_of_Z 1) as E2 by (vm_compute; reflexivity).
  assert (Geo.f_to_int64 (Round (fmul (f_of_Z hllRegisters) fzero)) = 0) as E3 by (vm_compute; reflexivity).
  unfold Count. rewrite E. cbv zeta. by rewrite E1, E2, Log_one, E3.
Qed.

Lemma live_sketch now s k l :
  e_sketch (live now (entry s k)) = sketch l ->
  (if isExpiredRLocked now k s then NewHyperLogLog else default NewHyperLogLog (hlls s !! k)) = sketch l.
Proof. intros <-. rewrite isExpired_entry. unfold live. by destruct (e_expired now (entry s k)). Qed.

Lemma merge_new l : (Merge NewHyperLogLog (sketch l)).2 = sketch l.
Proof. apply (sketch_join l l []). set_solver. Qed.

Lemma pfcount_loop now s (l : string -> list string) keys : forall acc,
  (forall k, k ∈ keys -> e_sketch (live now (entry s k)) = sketch (l k)) ->
  fold_left (pfcount_one now s) keys (sketch acc) = sketch (acc ++ mjoin (l <$> keys)).
Proof.
  induction keys as [|k keys IH]; intros acc Hl; cbn [fold_left fmap list_fmap mjoin list_join]; [by rewrite app_nil_r|].
  rewrite (assoc (++)), <-IH by (intros; apply Hl; by right). f_equal.
  pose proof (live_sketch _ _ _ _ (Hl k ltac:(left))) as H. unfold pfcount_one.
  assert ((Merge (sketch (l k)) (sketch acc)).2 = sketch (acc ++ l k)) as Hj by (apply sketch_join; intros; apply elem_of_app).
  destruct (isExpiredRLocked now k s); [rewrite <-Hj, <-H; symmetry; apply merge_new|].
  destruct (hlls s !! k); cbn [from_option default id] in H; [unfold id in H; rewrite H; exact Hj|rewrite <-Hj, <-H; symmetry; apply merge_new].
Qed.

Theorem pfcount_is_union now keys (l : string -> list string) s :
  (forall k, k ∈ keys -> e_sketch (live now (entry s k)) = sketch (l k)) ->
  PFCount now keys s = Count (sketch (mjoin (l <$> keys))).
Proof.
  intros Hl. assert (PFCount now keys s = Count (fold_left (pfcount_one now s) keys NewHyperLogLog)) as ->.
  { destruct keys as [|k [|k' keys]]; [reflexivity| |reflexivity]. unfold PFCount. cbn [fold_left]. unfold pfcount_one.
    pose proof (live_sketch _ _ _ _ (Hl k ltac:(left))) as H. destruct (isExpiredRLocked now k s); [symmetry; apply Count_new|].
    destruct (hlls s !! k) as [h|]; cbn [from_option default id] in H; [|symmetry; apply Count_new].
    unfold id in H. rewrite H. f_equal. symmetry. apply (sketch_join (l k) [] (l k)). set_solver. }
  f_equal. exact (pfcount_loop now s l keys [] Hl).
Qed.

(** PFCOUNT of several keys is what PFMERGE into one of them would make of
    that key: both estimate the union of the elements. *)
Theorem pfcount_merged now dest srcs (l : string -> list string) s :
  (forall k, k ∈ dest :: srcs -> e_sketch (live now (entry s k)) = sketch (l k)) ->
  PFCount now [dest] (PFMerge now dest srcs s) = PFCount now (dest :: srcs) s.
Proof.
  intros Hl. destruct (pfmerge_union now dest srcs l s Hl) as (Hd & Hx & _).
  rewrite (pfcount_is_union now (dest :: srcs) l) by done.
  rewrite (pfcount_is_union now [dest] (fun _ => mjoin (l <$> dest :: srcs))); [cbn; by rewrite app_nil_r|].
  intros k ->%list_elem_of_singleton. unfold live. rewrite Hx. unfold e_sketch. by rewrite Hd.
Qed.
End Estimate.

(** Halves are rounded away from zero, and the float below one half down. *)
Lemma round_cases :
  Round (decimal_float false 25 (-1)) = f_of_Z 3 /\ Round (decimal_float true 25 (-1)) = f_of_Z (-3) /\
  Round (decimal_float false 49999999999999994 (-17)) = fzero.
Proof. vm_compute. repeat split. Qed.

(** With any logarithm that is 0 at 1, counting two overlapping sketches is counting their merge. *)
Lemma pfcount_merged_example :
  PFCount (Geo.Log Geo.flat) 1 ["d"] (PFMerge 1 "d" ["a"; "b"] two_sketches) = PFCount (Geo.Log Geo.flat) 1 ["d"; "a"; "b"] two_sketches.
Proof.
  apply (pfcount_merged (Geo.Log Geo.flat) ltac:(vm_compute; reflexivity) 1 "d" ["a"; "b"] sketched).
  intros k Hk. repeat (apply elem_of_cons in Hk as [->|Hk]; [vm_compute; reflexivity|]). by apply elem_of_nil in Hk.
Qed.
End Sketch.
