(* ===== verification/StoreSearch.v ===== *)
(** * Searching, sorting and sampling (internal/store/store.go)

    HSEARCH and its conditions, SORT, SRANDMEMBER, HRANDFIELD, RANDOMKEY,
    INCRBYFLOAT, DUMP of one key and the counters of INFO.  A Go map is
    iterated in an arbitrary order, which is an argument ([order]);
    [rand.Intn n] is an arbitrary draw reduced modulo [n]. *)
From S2P Require Import Prelude GoLib GoText Deque SortedSet Glob Store StoreStrings StoreHashes StoreSets.

Module Search.
Import Store Strings Hashes Sets Text.

(** ** INCRBYFLOAT *)

Definition IncrByFloat (now : Z) (key : string) (delta : float64) (s : Store) : result float64 * Store :=
  let '(expired, s) := expiredKeyLocked now key s in
  let s := if expired then s <| kv ::= delete key |> else s in
  if has_container key s then (Err wrongType, s)
  else
    let parsed := match kv s !! key with None => (fzero, None) | Some v => ParseFloat v end in
    match parsed with
    | (_, Some _) => (Err "value is not a valid float", s)
    | (n, None) =>
        let n := fadd n delta in
        (Ok n, touchKeyLocked now [key] (s <| kv ::= <[key := FormatFloat n]> |>))
    end.

(** ** HSEARCH *)

Record SearchCondition := mkCond { Field : string; Op : string; Value : string }.

Record SearchResult := mkResult { Key : string; Fields : gmap string string }.

(** [strings.HasPrefix], [strings.Contains] *)
Definition HasPrefix (s p : string) : bool := String.prefix p s.

Fixpoint Contains (s sub : string) : bool :=
  HasPrefix s sub || match s with EmptyString => false | String _ s => Contains s sub end.

Definition compare_floats (op : string) (a b : float64) : option bool :=
  if (op =? ">")%string then Some (fltb b a)
  else if (op =? "<")%string then Some (fltb a b)
  else if (op =? ">=")%string then Some (fleb b a)
  else if (op =? "<=")%string then Some (fleb a b)
  else None.

Definition compare_strings (op a b : string) : option bool :=
  if (op =? ">")%string then Some (str_ltb b a)
  else if (op =? "<")%string then Some (str_ltb a b)
  else if (op =? ">=")%string then Some (str_leb b a)
  else if (op =? "<=")%string then Some (str_leb a b)
  else None.

Definition evalCondition (fieldValue op condValue : string) : bool :=
  let u := ToUpper op in
  if (u =? "=")%string || (u =? "==")%string then (fieldValue =? condValue)%string
  else if (u =? "!=")%string then negb (fieldValue =? condValue)%string
  else if (u =? "CONTAINS")%string then Contains (ToLower fieldValue) (ToLower condValue)
  else if (u =? "STARTSWITH")%string then HasPrefix (ToLower fieldValue) (ToLower condValue)
  else if bool_decide (u ∈ [">"; "<"; ">="; "<="]) then
    match ParseFloat fieldValue, ParseFloat condValue with
    | (fv, None), (cv, None) =>
        match compare_floats op fv cv with
        | Some r => r
        | None => default false (compare_strings op fieldValue condValue)
        end
    | _, _ => default false (compare_strings op fieldValue condValue)
    end
  else false.

Fixpoint matchesConditions (hash : gmap string string) (conditions : list SearchCondition) : bool :=
  match conditions with
  | [] => true
  | cond :: conditions =>
      match hash !! Field cond with
      | None => false
      | Some value =>
          if negb (evalCondition value (Op cond) (Value cond)) then false
          else matchesConditions hash conditions
      end
  end.

Definition key_le (a b : SearchResult) : Prop := str_le (Key a) (Key b).
#[export] Instance key_le_dec a b : Decision (key_le a b).
Proof. unfold key_le. apply _. Defined.

(** The keys of a map are distinct, so the sort by key has one result. *)
Definition HSearch (now : Z) (pattern : string) (conditions : list SearchCondition) (offset count : Z) (s : Store)
    : list SearchResult :=
  let found := filter (fun kh : string * gmap string string =>
                         (negb (isExpiredRLocked now kh.1 s) && Glob.MatchGlob pattern kh.1
                          && matchesConditions kh.2 conditions)%bool = true)
                 (map_to_list (hashes s)) in
  let results := merge_sort key_le ((fun kh => mkResult kh.1 kh.2) <$> found) in
  if (offset >? 0) && (offset >=? zlen results) then []
  else
    let results := if offset >? 0 then zdrop offset results else results in
    if (count >? 0) && (count <? zlen results) then ztake count results else results.

(** ** SORT *)

(** [sort.SliceStable]: the insertion sort Go runs on slices of at most twenty
    elements.  For a longer slice Go merges blocks sorted this way, with the
    same result whenever [less] is a strict weak order. *)
Section SliceStable.
Context {A : Type} (less : A -> A -> bool).

(** The prefix is kept reversed: the element moves left past those it is less than. *)
Fixpoint sink (x : A) (prefix : list A) : list A :=
  match prefix with
  | [] => [x]
  | y :: ys => if less x y then y :: sink x ys else x :: y :: ys
  end.

Definition SliceStable (l : list A) : list A := reverse (fold_left (fun prefix x => sink x prefix) l []).
End SliceStable.

Definition sort_less (a b : string) : bool :=
  match ParseFloat a, ParseFloat b with
  | (x, None), (y, None) => fltb x y
  | _, _ => str_ltb a b
  end.

Definition sort_elements (order : list string) (key : string) (s : Store) : option (list string) :=
  match lists s !! key, sets s !! key, zsets s !! key with
  | Some d, _, _ => Some (Deque.ToSlice d)
  | None, Some _, _ => Some order
  | None, None, Some zs => Some (SortedSet.Member <$> SortedSet.Members zs)
  | None, None, None => None
  end.

(** [elements[offset:]] panics for a negative offset. *)
Definition sort_limit (offset count : Z) (l : list string) : outcome (list string) :=
  if (offset >? 0) || (count >? 0) then
    if offset >=? zlen l then Ret []
    else if offset <? 0 then Panic
    else
      let l := zdrop offset l in
      Ret (if (count >? 0) && (count <? zlen l) then ztake count l else l)
  else Ret l.

Definition Sort (now : Z) (order : list string) (key : string) (alpha desc : bool) (offset count : Z)
    (storeKey : string) (s : Store) : outcome (result (list string)) * Store :=
  let '(expired, s) := expiredKeyLocked now key s in
  let to_store := negb (storeKey =? "")%string in
  if expired then
    (Ret (Ok []), if to_store then touchKeyLocked now [storeKey] (s <| lists ::= delete storeKey |>) else s)
  else
    match sort_elements order key s with
    | None =>
        if has (kv s) key then (Ret (Err wrongType), s)
        else (Ret (Ok []), if to_store then touchKeyLocked now [storeKey] (deleteKeyLocked now storeKey s) else s)
    | Some elements =>
        let elements := if alpha then sort_strings elements else SliceStable sort_less elements in
        let elements := if desc then reverse elements else elements in
        match sort_limit offset count elements with
        | Panic => (Panic, s)
        | Ret elements =>
            (Ret (Ok elements),
             if to_store then
               let s := deleteKeyLocked now storeKey s in
               let s := if zlen elements >? 0
                        then s <| lists ::= <[storeKey := Deque.PushBack elements Deque.empty]> |> else s in
               touchKeyLocked now [storeKey] s
             else s)
        end
    end.

(** ** Random members *)

Definition Intn (draw n : Z) : Z := draw mod n.

Definition swap (l : list string) (i j : Z) : list string := zset (zset l i (zget l j)) j (zget l i).

(** Fisher-Yates: the indices from [i] down to 1; [rnd] are the draws to come. *)
Fixpoint shuffle (i : nat) (rnd : nat -> Z) (l : list string) : list string :=
  match i with
  | O => l
  | S i' => shuffle i' (fun n => rnd (S n)) (swap l (Z.of_nat i) (Intn (rnd O) (Z.of_nat i + 1)))
  end.

(** The tail SRANDMEMBER and HRANDFIELD share; [make] panics on a negative
    length, which is what [-count] is for the least [int64]. *)
Definition sample (rnd : nat -> Z) (count : Z) (members : list string) : outcome (list string) :=
  if count =? 0 then Ret []
  else
    let allowDupes := count <? 0 in
    let count := if count <? 0 then wrap64 (- count) else count in
    if negb allowDupes then
      if count >=? zlen members then Ret (sort_strings members)
      else Ret (ztake count (shuffle (length members - 1) rnd members))
    else if count <? 0 then Panic
    else Ret ((fun i => zget members (Intn (rnd i) (zlen members))) <$> seq 0 (Z.to_nat count)).

Definition SRandMember (now : Z) (rnd : nat -> Z) (order : list string) (key : string) (count : Z) (s : Store)
    : outcome (result (list string)) :=
  if isExpiredRLocked now key s then Ret (Ok [])
  else if set_conflictR now key s then Ret (Err wrongType)
  else if bool_decide (default ∅ (sets s !! key) = ∅) then Ret (Ok [])
  else match sample rnd count order with Panic => Panic | Ret l => Ret (Ok l) end.

Definition HRandField (now : Z) (rnd : nat -> Z) (order : list string) (key : string) (count : Z) (s : Store)
    : outcome (result (list string)) :=
  if isExpiredRLocked now key s then Ret (Ok [])
  else if existsStringRLocked now key s || not_hash key s then Ret (Err wrongType)
  else if bool_decide (default ∅ (hashes s !! key) = ∅) then Ret (Ok [])
  else match sample rnd count order with Panic => Panic | Ret l => Ret (Ok l) end.

(** ** RANDOMKEY, INFO, DUMP *)

(** [order] is one iteration order per map: strings, hashes, lists, sets,
    sorted sets, streams, sketches. *)
Definition RandomKey (now : Z) (order : list (list string)) (s : Store) : option string :=
  List.find (fun key => negb (isExpiredRLocked now key s)) (concat order).

Definition Stats (now : Z) (order : list string) (s : Store) : (Z * Z) * Store :=
  let s := purgeExpiredLocked now order s in
  ((Z.of_nat (size (kv s)), Z.of_nat (size (streams s))), s).

Definition join (sep : string) (l : list string) : string := String.concat sep l.

(** [order] is the iteration order of the hash. *)
Definition DumpKey (now : Z) (order : list string) (key : string) (s : Store) : option string :=
  if isExpiredRLocked now key s then None
  else
    match kv s !! key, hashes s !! key, lists s !! key, sets s !! key, zsets s !! key with
    | Some v, _, _, _, _ => Some (String.append "STRING:" v)
    | None, Some h, _, _, _ =>
        Some (String.append "HASH:"
                (join "," ((fun f => String.append f (String.append "=" (default "" (h !! f)))) <$> order)))
    | None, None, Some d, _, _ => Some (String.append "LIST:" (join "," (Deque.ToSlice d)))
    | None, None, None, Some m, _ => Some (String.append "SET:" (join "," (sorted_members m)))
    | None, None, None, None, Some z =>
        Some (String.append "ZSET:"
                (join "," ((fun m => String.append (SortedSet.Member m)
                                       (String.append "=" (FormatFloat (SortedSet.Score m))))
                           <$> SortedSet.Members z)))
    | None, None, None, None, None => None
    end.

(** Ten, nine and "1a" are each less than the next around the circle, so SORT
    without ALPHA leaves a mixed list in an order that depends on its input. *)
Example sort_less_cycle :
  (sort_less "10" "1a", sort_less "1a" "9", sort_less "9" "10") = (true, true, true).
Proof. vm_compute. reflexivity. Qed.

(** ** HSEARCH returns exactly the matching hashes *)

Definition holds (h : gmap string string) (c : SearchCondition) : Prop :=
  exists v, h !! Field c = Some v /\ evalCondition v (Op c) (Value c) = true.

Lemma matchesConditions_spec h conds : matchesConditions h conds = true <-> Forall (holds h) conds.
Proof.
  induction conds as [|c conds IH]; cbn; [by split|].
  rewrite Forall_cons, <-IH. unfold holds at 1.
  destruct (h !! Field c) as [v|]; [|naive_solver].
  destruct (evalCondition v (Op c) (Value c)) eqn:E; cbn; naive_solver.
Qed.

(** The page LIMIT selects. *)
Definition page {A} (offset count : Z) (l : list A) : list A :=
  let l := drop (Z.to_nat offset) l in if count >? 0 then take (Z.to_nat count) l else l.

Lemma page_spec {A} (offset count : Z) (l : list A) :
  (if (offset >? 0) && (offset >=? zlen l) then []
   else let l := if offset >? 0 then zdrop offset l else l in
        if (count >? 0) && (count <? zlen l) then ztake count l else l) = page offset count l.
Proof.
  unfold page, zdrop, ztake, zlen. cbn zeta.
  destruct (offset >? 0) eqn:Ho; cbn [andb].
  - destruct (offset >=? _) eqn:H.
    + rewrite drop_ge by lia. destruct (count >? 0); [by rewrite take_nil|done].
    + destruct (count >? 0); cbn [andb]; [|done].
      destruct (count <? _) eqn:Hc; [done|]. rewrite take_ge; [done|lia].
  - replace (Z.to_nat offset) with O by lia. rewrite drop_0.
    destruct (count >? 0); cbn [andb]; [|done].
    destruct (count <? _) eqn:Hc; [done|]. rewrite take_ge; [done|lia].
Qed.

#[export] Instance key_le_trans : Transitive key_le.
Proof. intros a b c. unfold key_le. apply str_le_trans. Qed.
#[export] Instance key_le_total : Total key_le.
Proof. intros a b. unfold key_le. apply str_le_total. Qed.

Definition key_lt (a b : SearchResult) : Prop := str_lt (Key a) (Key b).

Lemma sorted_strict l : StronglySorted key_le l -> NoDup (Key <$> l) -> StronglySorted key_lt l.
Proof.
  induction 1 as [|a l Hs IH Ha]; intros Hnd; [constructor|].
  apply NoDup_cons in Hnd as [Hnot Hnd]. constructor; [auto|].
  rewrite Forall_forall in Ha |- *. intros b Hb. destruct (proj1 (str_le_cases _ _) (Ha b Hb)) as [?|E]; [done|].
  destruct Hnot. rewrite E. by apply list_elem_of_fmap_2.
Qed.

(** HSEARCH returns exactly the live hashes whose key matches the pattern
    and whose fields satisfy every condition, each with all its fields, in
    strictly ascending key order and cut to the page LIMIT asks for. *)
Theorem hsearch_exact now pattern conditions offset count s :
  exists all,
    StronglySorted key_lt all /\
    (forall key h, mkResult key h ∈ all <->
       e_hash (live now (entry s key)) = Some h /\ Glob.MatchGlob pattern key = true /\
       Forall (holds h) conditions) /\
    HSearch now pattern conditions offset count s = page offset count all.
Proof.
  unfold HSearch. rewrite page_spec. eexists. split; [|split; [|reflexivity]].
  - apply sorted_strict; [apply Sorted_StronglySorted; [apply _|]; by apply Sorted_merge_sort, _|].
    rewrite (fmap_Permutation Key _ _ (merge_sort_Permutation key_le _)).
    rewrite <-list_fmap_compose. change (Key ∘ _) with (fst (A:=string) (B:=gmap string string)).
    eapply sublist_NoDup; [apply (NoDup_fst_map_to_list (hashes s))|].
    apply fmap_sublist, sublist_filter.
  - intros key h. rewrite (merge_sort_Permutation key_le _), list_elem_of_fmap.
    transitivity ((key, h) ∈ map_to_list (hashes s) /\
      (negb (isExpiredRLocked now key s) && Glob.MatchGlob pattern key && matchesConditions h conditions = true)%bool).
    { split; [intros ([k' h'] & E & Hin); injection E as -> ->; apply list_elem_of_filter in Hin; naive_solver|].
      intros [Hin Hc]. exists (key, h). split; [done|]. by apply list_elem_of_filter. }
    rewrite elem_of_map_to_list, !andb_true_iff, negb_true_iff, matchesConditions_spec, isExpired_entry.
    unfold live. change (hashes s !! key) with (e_hash (entry s key)).
    destruct (e_expired now (entry s key)); cbn; naive_solver.
Qed.

(** ** SORT *)

Lemma StronglySorted_reverse {A} (R : relation A) l :
  StronglySorted (flip R) l -> StronglySorted R (reverse l).
Proof.
  induction 1 as [|a l Hs IH Ha]; [constructor|]. rewrite reverse_cons.
  apply StronglySorted_snoc; [done|]. by rewrite Forall_reverse.
Qed.

Section Stable.
Context {A : Type} (less : A -> A -> bool) (P : A -> Prop).

Definition not_after (a b : A) : Prop := less b a = false.

Hypothesis asym : forall a b, P a -> P b -> less a b = true -> less b a = false.
Hypothesis trans : forall a b c, P a -> P b -> P c -> not_after a b -> not_after b c -> not_after a c.

Lemma sink_perm x l : sink less x l ≡ₚ x :: l.
Proof.
  induction l as [|y l IH]; [done|]. cbn. destruct (less x y); [|done]. rewrite IH. constructor.
Qed.

Lemma sink_sorted x l : P x -> Forall P l ->
  StronglySorted (flip not_after) l -> StronglySorted (flip not_after) (sink less x l).
Proof.
  intros Hx. induction l as [|y l IH]; intros HP Hs; cbn; [repeat constructor|].
  apply Forall_cons in HP as [Hy Hl]. apply StronglySorted_cons in Hs as [Hfa Hs].
  destruct (less x y) eqn:E.
  - constructor; [auto|]. rewrite Forall_forall in Hfa |- *. intros b Hb.
    rewrite sink_perm, elem_of_cons in Hb. destruct Hb as [->|Hb]; [|auto].
    unfold flip, not_after. auto.
  - constructor; [by constructor|]. constructor; [done|]. rewrite Forall_forall in Hfa, Hl |- *.
    intros b Hb. unfold flip. apply (trans b y x); auto. apply (Hfa b Hb).
Qed.

Lemma SliceStable_perm l : SliceStable less l ≡ₚ l.
Proof.
  unfold SliceStable. rewrite reverse_Permutation.
  assert (forall acc, fold_left (fun prefix x => sink less x prefix) l acc ≡ₚ acc ++ l) as H; [|by rewrite H].
  induction l as [|x l IH]; intros acc; cbn; [by rewrite app_nil_r|].
  rewrite IH, sink_perm. cbn. apply Permutation_middle.
Qed.

Lemma SliceStable_sorted l : Forall P l -> StronglySorted not_after (SliceStable less l).
Proof.
  intros HP. apply StronglySorted_reverse.
  assert (forall acc, Forall P acc -> StronglySorted (flip not_after) acc ->
    StronglySorted (flip not_after) (fold_left (fun prefix x => sink less x prefix) l acc)) as H;
    [|apply H; constructor].
  induction HP as [|x l Hx HP IH]; intros acc Hacc Hs; cbn; [done|].
  apply IH; [|by apply sink_sorted]. rewrite Forall_forall in Hacc |- *. intros b.
  rewrite sink_perm, elem_of_cons. naive_solver.
Qed.
End Stable.

(** A text SORT compares as a number. *)
Definition numeric (a : string) : Prop := exists x, ParseFloat a = (x, None) /\ is_nan x = false.

Definition number (a : string) : float64 := (ParseFloat a).1.

Lemma sort_less_numeric a b : numeric a -> numeric b -> sort_less a b = fltb (number a) (number b).
Proof. intros (x & Ha & _) (y & Hb & _). unfold sort_less, number. by rewrite Ha, Hb. Qed.

Lemma fltb_false x y : is_nan x = false -> is_nan y = false -> fltb x y = false <-> ~ GoLib.key_lt (fkey x) (fkey y).
Proof. intros Hx Hy. rewrite <-(fltb_key x y Hx Hy). by destruct (fltb x y). Qed.

Lemma numeric_nan a : numeric a -> is_nan (number a) = false.
Proof. intros (x & Ha & Hx). unfold number. by rewrite Ha. Qed.

Lemma numeric_asym a b : numeric a -> numeric b -> sort_less a b = true -> sort_less b a = false.
Proof.
  intros Ha Hb. rewrite !sort_less_numeric by done.
  apply numeric_nan in Ha, Hb. rewrite fltb_key, fltb_false by done.
  intros H1 H2. by apply (key_lt_irrefl (fkey (number a))), (key_lt_trans _ _ _ H1).
Qed.

Lemma numeric_trans a b c : numeric a -> numeric b -> numeric c ->
  not_after sort_less a b -> not_after sort_less b c -> not_after sort_less a c.
Proof.
  intros Ha Hb Hc. unfold not_after. rewrite !sort_less_numeric by done.
  apply numeric_nan in Ha, Hb, Hc. rewrite !fltb_false by done. intros H1 H2 H3.
  destruct (key_trichotomy (fkey (number a)) (fkey (number b))) as [H|[E|H]]; [|by rewrite E in H3|done].
  by apply H2, (key_lt_trans _ _ _ H3).
Qed.

(** The order SORT promises: [ALPHA] or numeric, ascending or [DESC]. *)
Definition in_order (alpha desc : bool) (a b : string) : Prop :=
  let '(a, b) := if desc then (b, a) else (a, b) in
  if alpha then str_le a b else fltb (number b) (number a) = false.

Definition sort_all (alpha desc : bool) (l : list string) : list string :=
  let l := if alpha then sort_strings l else SliceStable sort_less l in if desc then reverse l else l.

Lemma StronglySorted_impl {A} (R R' : relation A) (P : A -> Prop) l :
  (forall a b, P a -> P b -> R a b -> R' a b) -> Forall P l -> StronglySorted R l -> StronglySorted R' l.
Proof.
  intros HR HP Hs. induction Hs as [|a l Hs IH Ha]; [constructor|].
  apply Forall_cons in HP as [Ha' HP]. constructor; [auto|].
  rewrite Forall_forall in Ha, HP |- *. auto.
Qed.

Lemma sort_all_spec alpha desc l : alpha = true \/ Forall numeric l ->
  sort_all alpha desc l ≡ₚ l /\ StronglySorted (in_order alpha desc) (sort_all alpha desc l).
Proof.
  intros H. unfold sort_all.
  assert (exists r, (if alpha then sort_strings l else SliceStable sort_less l) = r /\
            r ≡ₚ l /\ StronglySorted (in_order alpha false) r) as (r & -> & Hp & Hs).
  { eexists. split; [reflexivity|]. destruct alpha.
    - split; [apply sort_strings_perm|]. apply Sorted_StronglySorted; [apply str_le_trans|]. apply sort_strings_sorted.
    - destruct H as [H|H]; [done|]. split; [apply SliceStable_perm|].
      apply (StronglySorted_impl (not_after sort_less) _ numeric).
      + intros a b Ha Hb. unfold not_after, in_order. by rewrite sort_less_numeric.
      + rewrite Forall_forall in H |- *. intros x. rewrite SliceStable_perm. auto.
      + apply (SliceStable_sorted _ numeric); [apply numeric_asym|apply numeric_trans|done]. }
  destruct desc; [|done]. split; [by rewrite reverse_Permutation|].
  apply StronglySorted_reverse. exact Hs.
Qed.

Lemma sort_limit_page offset count l : 0 <= offset -> sort_limit offset count l = Ret (page offset count l).
Proof.
  intros Ho. rewrite <-page_spec. unfold sort_limit. cbn zeta.
  destruct (offset >? 0) eqn:E; cbn [orb andb].
  - destruct (offset >=? zlen l); [done|]. by replace (offset <? 0) with false by lia.
  - replace offset with 0 by lia. destruct (count >? 0); cbn [andb]; [|done].
    destruct (0 >=? zlen l) eqn:El.
    + assert (l = []) as -> by (destruct l; [done|]; rewrite zlen_cons in El; pose proof (zlen_nonneg l); lia).
      destruct (count <? zlen []); [|done]. unfold ztake. by rewrite take_nil.
    + replace (0 <? 0) with false by lia. by unfold zdrop.
Qed.

(** What the collection under a key holds. *)
Definition collection (e : Entry) : option (list string) :=
  match e_list e, e_set e, e_zset e with
  | Some d, _, _ => Some (Deque.ToSlice d)
  | None, Some m, _ => Some (elements m)
  | None, None, Some z => Some (SortedSet.Member <$> SortedSet.ordered z)
  | None, None, None => None
  end.

Lemma sort_elements_spec order key s els :
  (forall m, e_set (entry s key) = Some m -> order ≡ₚ elements m) ->
  collection (entry s key) = Some els -> exists l, sort_elements order key s = Some l /\ l ≡ₚ els.
Proof.
  intros Ho. unfold collection, sort_elements. cbn in *.
  destruct (lists s !! key); [intros [= <-]; eauto|]. destruct (sets s !! key) as [m|]; [|destruct (zsets s !! key)];
    intros [= <-]; eauto.
Qed.

(** The state SORT leaves when it stores [r] under [dst]. *)
Definition list_at (r : list string) (e : Entry) : Prop :=
  if decide (r = []) then e = no_entry
  else exists d, e = no_entry <| e_list := Some d |> /\ Deque.wf d /\ Deque.ToSlice d = r.

Lemma sort_store now dst r s :
  let s' := touchKeyLocked now [dst]
    (let s := deleteKeyLocked now dst s in
     if zlen r >? 0 then s <| lists ::= <[dst := Deque.PushBack r Deque.empty]> |> else s) in
  list_at r (entry s' dst) /\ forall k, k <> dst -> entry s' k = entry s k.
Proof.
  cbn zeta. unfold list_at. rewrite entry_touch. split.
  - destruct (decide (r = [])) as [->|Hr].
    + rewrite zlen_nil. change (0 >? 0) with false. cbn match. apply entry_delete_eq.
    + destruct r as [|x r]; [done|]. rewrite zlen_cons. pose proof (zlen_nonneg r).
      replace (zlen r + 1 >? 0) with true by lia.
      destruct (Deque.PushBack_spec (x :: r) Deque.empty Deque.empty_wf) as [Hwf Hl].
      rewrite entry_set_lists, entry_delete_eq, lookup_insert_eq. eauto.
  - intros k Hk. rewrite entry_touch. case_match; [|by apply entry_delete_ne].
    rewrite entry_set_lists, lookup_insert_ne by done.
    rewrite <-(entry_delete_ne now dst s k Hk). reflexivity.
Qed.

(** SORT answers a page of the elements of the list, set or sorted set in
    the order asked for (byte order with ALPHA, numeric order otherwise when
    every element is a number, reversed by DESC), changes nothing without
    STORE, and with STORE replaces whatever the destination held by a list of
    exactly the answer, or by nothing when the answer is empty. *)
Theorem sort_command now order key alpha desc offset count dst s els :
  e_expired now (entry s key) = false ->
  (forall m, e_set (entry s key) = Some m -> order ≡ₚ elements m) ->
  collection (entry s key) = Some els ->
  alpha = true \/ Forall numeric els ->
  0 <= offset ->
  exists full s',
    full ≡ₚ els /\ StronglySorted (in_order alpha desc) full /\
    Sort now order key alpha desc offset count dst s = (Ret (Ok (page offset count full)), s') /\
    (dst = "" -> s' = s) /\
    (dst <> "" -> list_at (page offset count full) (entry s' dst) /\
                  forall k, k <> dst -> entry s' k = entry s k).
Proof.
  intros Hx Ho Hc Ha Hoff.
  destruct (sort_elements_spec _ _ _ _ Ho Hc) as (l & Hl & Hp).
  assert (alpha = true \/ Forall numeric l) as Ha' by (by rewrite Hp).
  destruct (sort_all_spec alpha desc l Ha') as [Hp' Hs].
  exists (sort_all alpha desc l). eexists. split; [by rewrite Hp'|]. split; [done|].
  unfold Sort. rewrite expiredKey_false by done. cbn match. rewrite Hl. cbn match.
  fold (sort_all alpha desc l). rewrite sort_limit_page by done. split; [reflexivity|].
  split; [by intros ->|]. intros Hd. rewrite (proj2 (String.eqb_neq dst "") Hd). cbn [negb].
  apply sort_store.
Qed.

Definition scores_store : Store := (ZAdd 0 "z" [SortedSet.mkZ "30" fzero; SortedSet.mkZ "4" (f_of_Z 1)] New).2.

Lemma sort_command_witness :
  e_expired 1 (entry scores_store "z") = false /\
  exists full s',
    full ≡ₚ ["30"; "4"] /\ StronglySorted (in_order false true) full /\
    Sort 1 [] "z" false true 0 1 "out" scores_store = (Ret (Ok (page 0 1 full)), s') /\
    ("out"%string = ""%string -> s' = scores_store) /\
    ("out"%string <> ""%string -> list_at (page 0 1 full) (entry s' "out") /\
       forall k, k <> "out"%string -> entry s' k = entry scores_store k).
Proof.
  split; [vm_compute; reflexivity|].
  apply (sort_command 1 [] "z" false true 0 1 "out" scores_store ["30"; "4"]).
  - vm_compute; reflexivity.
  - intros m H. assert (e_set (entry scores_store "z") = None) as E by (vm_compute; reflexivity). congruence.
  - vm_compute; reflexivity.
  - right. repeat constructor; (eexists; split; [vm_compute; reflexivity|reflexivity]).
  - lia.
Defined.

(** ** Random members *)

Lemma insert_perm {A} (l : list A) i x y : l !! i = Some x -> x :: <[i := y]> l ≡ₚ y :: l.
Proof.
  intros H. rewrite insert_take_drop by (by apply lookup_lt_Some in H).
  rewrite <-(take_drop_middle l i x H) at 3. rewrite <-!Permutation_middle. constructor.
Qed.

Lemma swap_perm l i j : 0 <= i < zlen l -> 0 <= j < zlen l -> swap l i j ≡ₚ l.
Proof.
  intros Hi Hj. unfold swap.
  assert (zget (zset l i (zget l j)) j = zget l j) as E.
  { destruct (decide (i = j)) as [->|Hij]; [by rewrite zget_zset_eq|by rewrite zget_zset_ne]. }
  apply (Permutation_cons_inv (a := zget l j)).
  transitivity (zget l i :: zset l i (zget l j)).
  - unfold zset at 1. rewrite (proj2 (Z.leb_le 0 j)) by lia. apply insert_perm.
    rewrite zget_lookup, E; [done|]. by rewrite zlen_zset.
  - unfold zset. rewrite (proj2 (Z.leb_le 0 i)) by lia. apply insert_perm. by rewrite zget_lookup.
Qed.

Lemma shuffle_perm i rnd l : (i < length l)%nat -> shuffle i rnd l ≡ₚ l.
Proof.
  revert rnd l. induction i as [|i IH]; intros rnd l Hi; [done|]. cbn [shuffle].
  assert (swap l (Z.of_nat (S i)) (Intn (rnd 0%nat) (Z.of_nat (S i) + 1)) ≡ₚ l) as Hp.
  { apply swap_perm; unfold zlen; [lia|].
    pose proof (Z.mod_pos_bound (rnd 0%nat) (Z.of_nat (S i) + 1) ltac:(lia)). unfold Intn. lia. }
  rewrite IH; [done|]. rewrite (Permutation_length Hp). lia.
Qed.

(** What a sample of the members [m] looks like for each [count]. *)
Definition sampled (count : Z) (m : gset string) (r : outcome (list string)) : Prop :=
  (0 < count -> exists l, r = Ret l /\ NoDup l /\ (forall x, x ∈ l -> x ∈ m) /\
                          zlen l = Z.min count (Z.of_nat (size m))) /\
  (int64_min < count < 0 -> exists l, r = Ret l /\ (forall x, x ∈ l -> x ∈ m) /\ zlen l = - count) /\
  (count = 0 -> r = Ret []) /\
  (count = int64_min -> r = Panic).

Lemma sample_distinct rnd count order : order <> [] -> NoDup order -> 0 < count ->
  exists l, sample rnd count order = Ret l /\ NoDup l /\ (forall x, x ∈ l -> x ∈ order) /\
            zlen l = Z.min count (zlen order).
Proof.
  intros Hne Hnd Hc. unfold sample.
  rewrite (proj2 (Z.eqb_neq count 0)), (proj2 (Z.ltb_ge count 0)) by lia. cbn [negb].
  destruct (count >=? zlen order) eqn:E.
  - pose proof (sort_strings_perm order) as Hp. exists (sort_strings order). split; [done|].
    split; [by rewrite Hp|]. split; [intros x; by rewrite Hp|].
    unfold zlen in *. rewrite (Permutation_length Hp). lia.
  - eexists. split; [reflexivity|].
    assert (shuffle (length order - 1) rnd order ≡ₚ order) as Hp.
    { apply shuffle_perm. destruct order; [done|]. cbn. lia. }
    split; [|split].
    + eapply sublist_NoDup; [|apply sublist_take]. by rewrite Hp.
    + intros x Hx. unfold ztake in Hx. apply elem_of_take in Hx as (i & Hx & _). apply list_elem_of_lookup_2 in Hx. by rewrite Hp in Hx.
    + unfold ztake, zlen in *. rewrite length_take, (Permutation_length Hp). lia.
Qed.

Lemma sample_repeated rnd count order : order <> [] -> int64_min < count < 0 ->
  exists l, sample rnd count order = Ret l /\ (forall x, x ∈ l -> x ∈ order) /\ zlen l = - count.
Proof.
  intros Hne Hc. unfold sample. rewrite (proj2 (Z.eqb_neq count 0)), (proj2 (Z.ltb_lt count 0)) by lia. cbn [negb].
  rewrite wrap64_id by (unfold in_int64, int64_min, int64_max in *; lia).
  rewrite (proj2 (Z.ltb_ge (- count) 0)) by lia. eexists. split; [reflexivity|]. split.
  - intros x. rewrite list_elem_of_fmap. intros (i & -> & _).
    assert (0 < zlen order) by (destruct order; [done|]; rewrite zlen_cons; pose proof (zlen_nonneg order); lia).
    pose proof (Z.mod_pos_bound (rnd i) (zlen order) ltac:(lia)).
    eapply list_elem_of_lookup_2, zget_lookup. unfold Intn. lia.
  - unfold zlen. rewrite length_fmap, length_seq. lia.
Qed.

Lemma sample_spec rnd count order m :
  m <> ∅ -> order ≡ₚ elements m -> sampled count m (sample rnd count order).
Proof.
  intros Hm Hp.
  assert (order <> []) as Hne.
  { intros ->. apply Permutation_nil in Hp. by apply elements_empty_inv, leibniz_equiv in Hp. }
  assert (forall l : list string, (forall x, x ∈ l -> x ∈ order) -> forall x, x ∈ l -> x ∈ m) as Hin.
  { intros l H x Hx. apply H in Hx. rewrite Hp in Hx. by apply elem_of_elements. }
  repeat split.
  - intros Hc. destruct (sample_distinct rnd count order Hne) as (l & E & Hnd & Hl & Hlen); [|done|].
    { rewrite Hp. apply NoDup_elements. }
    exists l. repeat split; [done..|by apply Hin|]. rewrite Hlen. unfold zlen. by rewrite (Permutation_length Hp).
  - intros Hc. destruct (sample_repeated rnd count order Hne Hc) as (l & E & Hl & Hlen). eauto.
  - by intros ->.
  - by intros ->.
Qed.

(** SRANDMEMBER with a positive count answers that many distinct members
    (all of them when the set is smaller), with a negative count exactly
    [-count] members with repetition, for every outcome of the random
    numbers; only the least [int64], whose negation overflows, panics. *)
Theorem srandmember_sample now rnd order key count s m :
  isExpiredRLocked now key s = false -> set_conflictR now key s = false ->
  sets s !! key = Some m -> m <> ∅ -> order ≡ₚ elements m ->
  exists r, sampled count m r /\
    SRandMember now rnd order key count s = match r with Panic => Panic | Ret l => Ret (Ok l) end.
Proof.
  intros Hx Hc Hs Hm Hp. exists (sample rnd count order). split; [by apply sample_spec|].
  unfold SRandMember. rewrite Hx, Hc, Hs. by rewrite bool_decide_false.
Qed.

Lemma srandmember_sample_witness :
  let s := (SAdd 0 "s" ["a"; "b"; "c"] New).2 in
  exists r, sampled (-4) {["a"; "b"; "c"]} r /\
    SRandMember 0 (fun n => Z.of_nat n) ["b"; "c"; "a"] "s" (-4) s =
      match r with Panic => Panic | Ret l => Ret (Ok l) end.
Proof.
  cbn zeta. apply srandmember_sample.
  - vm_compute; reflexivity.
  - vm_compute; reflexivity.
  - apply (bool_decide_eq_true_1 _). vm_compute; reflexivity.
  - apply (bool_decide_eq_true_1 _). vm_compute; reflexivity.
  - apply (bool_decide_eq_true_1 _). vm_compute; reflexivity.
Defined.

End Search.
