(* ===== verification/Schema.v ===== *)
(** * Schemas of hashes (internal/server/schema.go)

    A list of rules, each a glob pattern with the types of some fields.  HSET
    validates its arguments against the first rule whose pattern matches the
    key.  Go iterates over the fields of a rule in an arbitrary order, which
    only decides which violation is reported: [order] lists the field names
    in that order. *)
From S2P Require Import Prelude GoLib GoText Glob StoreSearch.

Module Schema.
Import Text.

Record SchemaRule := mkRule { Pattern : string; Fields : gmap string string }.

(** The rules, oldest first. *)
Definition SchemaManager := list SchemaRule.

Definition NewSchemaManager : SchemaManager := [].

Fixpoint Set_ (pattern : string) (fields : gmap string string) (sm : SchemaManager) : SchemaManager :=
  match sm with
  | [] => [mkRule pattern fields]
  | rule :: sm =>
      if (Pattern rule =? pattern)%string then mkRule pattern fields :: sm
      else rule :: Set_ pattern fields sm
  end.

Definition Get (pattern : string) (sm : SchemaManager) : option SchemaRule :=
  List.find (fun rule => (Pattern rule =? pattern)%string) sm.

Fixpoint Del (pattern : string) (sm : SchemaManager) : bool * SchemaManager :=
  match sm with
  | [] => (false, [])
  | rule :: sm =>
      if (Pattern rule =? pattern)%string then (true, sm)
      else let '(found, sm) := Del pattern sm in (found, rule :: sm)
  end.

Definition List_ (sm : SchemaManager) : list SchemaRule := sm.

(** The two messages of [Validate]. *)
Inductive violation :=
| Required (field : string)
| MustBe (field typ value : string).

#[export] Instance violation_eq_dec : EqDecision violation.
Proof. solve_decision. Defined.

Definition is_none {A} (o : option A) : bool := match o with None => true | Some _ => false end.

Definition validateFieldType (field value typ : string) : option violation :=
  if (typ =? "string")%string || (typ =? "required")%string then None
  else if (typ =? "int")%string then
    if is_none (ParseInt value).2 then None else Some (MustBe field "int" value)
  else if (typ =? "float")%string then
    if is_none (ParseFloat value).2 then None else Some (MustBe field "float" value)
  else if (typ =? "bool")%string then
    let v := ToLower value in
    if negb (v =? "true")%string && negb (v =? "false")%string && negb (v =? "0")%string && negb (v =? "1")%string
    then Some (MustBe field "bool" value) else None
  else if (typ =? "email")%string then
    if negb (Search.Contains value "@") || negb (Search.Contains value ".")
    then Some (MustBe field "email" value) else None
  else None.

Fixpoint check_fields (order : list string) (rule : SchemaRule) (fields : gmap string string) : option violation :=
  match order with
  | [] => None
  | name :: order =>
      match Fields rule !! name with
      | None => check_fields order rule fields
      | Some typ =>
          match fields !! name with
          | None => if (typ =? "required")%string then Some (Required name) else check_fields order rule fields
          | Some value =>
              match validateFieldType name value typ with
              | Some err => Some err
              | None => check_fields order rule fields
              end
          end
      end
  end.

Definition Validate (order : list string) (key : string) (fields : gmap string string) (sm : SchemaManager)
    : option violation :=
  match List.find (fun rule => Glob.MatchGlob (Pattern rule) key) sm with
  | None => None
  | Some rule => check_fields order rule fields
  end.

(** The argument parser of SCHEMA.SET. *)
Inductive set_error := InvalidField (arg : string) | UnknownType (typ : string).

#[export] Instance set_error_eq_dec : EqDecision set_error.
Proof. solve_decision. Defined.

Definition valid_types : list string := ["string"; "int"; "float"; "bool"; "email"; "required"].

Fixpoint parse_fields (args : list string) (fields : gmap string string) : set_error + gmap string string :=
  match args with
  | [] => inr fields
  | a :: args =>
      match cut_byte ":" a with
      | None => inl (InvalidField a)
      | Some (name, typ) =>
          if bool_decide (typ ∈ valid_types) then parse_fields args (<[name := typ]> fields)
          else inl (UnknownType typ)
      end
  end.

(** ** What the types mean *)

Definition conforms (typ value : string) : Prop :=
  match typ with
  | "int"%string => exists n, ParseInt value = (n, None)
  | "float"%string => exists x, ParseFloat value = (x, None)
  | "bool"%string => ToLower value ∈ ["true"; "false"; "0"; "1"]
  | "email"%string => Search.Contains value "@" = true /\ Search.Contains value "." = true
  | _ => True
  end.

(** The declared types of a rule hold of the fields. *)
Definition satisfies (rule : SchemaRule) (fields : gmap string string) : Prop :=
  forall name typ, Fields rule !! name = Some typ ->
    match fields !! name with
    | Some value => conforms typ value
    | None => typ <> "required"
    end.

Definition well_typed (rule : SchemaRule) : Prop := map_Forall (fun _ typ => typ ∈ valid_types) (Fields rule).

Definition wf (sm : SchemaManager) : Prop := NoDup (Pattern <$> sm) /\ Forall well_typed sm.

Lemma validateFieldType_spec name value typ :
  typ ∈ valid_types -> validateFieldType name value typ = None <-> conforms typ value.
Proof.
  intros H. unfold valid_types in H.
  repeat (apply elem_of_cons in H as [->|H]); [..|by apply not_elem_of_nil in H];
    unfold validateFieldType, conforms; cbn; [done|..|done].
  - destruct (ParseInt value) as [n [e|]]; cbn; naive_solver.
  - destruct (ParseFloat value) as [n [e|]]; cbn; naive_solver.
  - rewrite !elem_of_cons, elem_of_nil.
    destruct (String.eqb_spec (ToLower value) "true"), (String.eqb_spec (ToLower value) "false"),
      (String.eqb_spec (ToLower value) "0"), (String.eqb_spec (ToLower value) "1"); cbn; naive_solver.
  - destruct (Search.Contains value "@"), (Search.Contains value "."); naive_solver.
Qed.

Lemma check_fields_spec order rule fields : well_typed rule ->
  check_fields order rule fields = None <->
  forall name typ, name ∈ order -> Fields rule !! name = Some typ ->
    match fields !! name with Some value => conforms typ value | None => typ <> "required"%string end.
Proof.
  intros Hw. induction order as [|name order IH]; cbn; [split; [intros _ ? ? []%not_elem_of_nil|done]|].
  assert (forall P : string -> string -> Prop,
    (forall n t, n ∈ name :: order -> Fields rule !! n = Some t -> P n t) <->
    (forall t, Fields rule !! name = Some t -> P name t) /\ (forall n t, n ∈ order -> Fields rule !! n = Some t -> P n t))
    as Hcons by (intros P; setoid_rewrite elem_of_cons; naive_solver).
  rewrite (Hcons (fun n t => match fields !! n with Some value => conforms t value | None => t <> "required"%string end)).
  destruct (Fields rule !! name) as [typ|] eqn:Ef; [|naive_solver].
  destruct (fields !! name) as [value|] eqn:Ev.
  - pose proof (validateFieldType_spec name value typ (Hw _ _ Ef)) as Hv.
    destruct (validateFieldType name value typ); naive_solver.
  - destruct (String.eqb_spec typ "required"); naive_solver.
Qed.

Lemma Set_patterns pattern fields sm q :
  Get q (Set_ pattern fields sm) = if decide (q = pattern) then Some (mkRule pattern fields) else Get q sm.
Proof.
  unfold Get. induction sm as [|rule sm IH]; cbn.
  - destruct (String.eqb_spec pattern q); case_decide; congruence.
  - destruct (String.eqb_spec (Pattern rule) pattern) as [E|E]; cbn.
    + rewrite E. destruct (String.eqb_spec pattern q); case_decide; congruence.
    + rewrite IH. destruct (String.eqb_spec (Pattern rule) q); case_decide; congruence.
Qed.

Lemma Set_elem pattern fields sm q :
  q ∈ Pattern <$> Set_ pattern fields sm <-> q = pattern \/ q ∈ Pattern <$> sm.
Proof.
  induction sm as [|rule sm IH]; cbn; [set_solver|].
  destruct (String.eqb_spec (Pattern rule) pattern) as [E|E]; cbn; rewrite !elem_of_cons; [|rewrite IH]; naive_solver.
Qed.

Lemma Set_wf pattern fields sm : wf sm -> map_Forall (fun _ typ => typ ∈ valid_types) fields -> wf (Set_ pattern fields sm).
Proof.
  intros [Hnd Hw] Hf. unfold wf.
  induction sm as [|rule sm IH]; cbn.
  { split; [apply NoDup_singleton|]. by constructor. }
  apply NoDup_cons in Hnd as [Hn Hnd]. apply Forall_cons in Hw as [Hr Hw].
  destruct (String.eqb_spec (Pattern rule) pattern) as [E|E]; cbn.
  - rewrite <-E. split; [by constructor|by constructor].
  - destruct (IH Hnd Hw) as [IH1 IH2]. split; [|by constructor]. constructor; [|done].
    rewrite Set_elem. naive_solver.
Qed.

Lemma parse_fields_wf args fields fields' :
  map_Forall (fun _ typ => typ ∈ valid_types) fields -> parse_fields args fields = inr fields' ->
  map_Forall (fun _ typ => typ ∈ valid_types) fields'.
Proof.
  revert fields. induction args as [|a args IH]; intros fields Hf; cbn; [by intros [= <-]|].
  destruct (cut_byte ":" a) as [[name typ]|]; [|done]. case_bool_decide; [|done].
  apply IH. by apply map_Forall_insert_2.
Qed.

Lemma Del_sublist pattern sm : (Del pattern sm).2 `sublist_of` sm.
Proof.
  induction sm as [|rule sm IH]; cbn; [done|]. destruct (_ =? _)%string; cbn; [by constructor|].
  destruct (Del pattern sm) as [found sm']. cbn in *. by constructor.
Qed.

Lemma Del_wf pattern sm : wf sm -> wf (Del pattern sm).2.
Proof.
  intros [Hnd Hw]. pose proof (Del_sublist pattern sm) as Hs. split.
  - eapply sublist_NoDup; [exact Hnd|]. by apply fmap_sublist.
  - rewrite Forall_forall in Hw |- *. intros r Hr. apply Hw. by eapply elem_of_sublist.
Qed.

(** The managers SCHEMA.SET and SCHEMA.DEL can build. *)
Inductive reachable : SchemaManager -> Prop :=
| reach_new : reachable NewSchemaManager
| reach_set pattern args fields sm :
    reachable sm -> parse_fields args ∅ = inr fields -> reachable (Set_ pattern fields sm)
| reach_del pattern sm : reachable sm -> reachable (Del pattern sm).2.

Lemma rules_wf sm : reachable sm -> wf sm.
Proof.
  induction 1 as [|pattern args fields sm _ IH Hp|pattern sm _ IH].
  - split; [apply NoDup_nil_2|constructor].
  - apply Set_wf; [done|]. eapply parse_fields_wf; [|done]. apply map_Forall_empty.
  - by apply Del_wf.
Qed.

Lemma find_first {A} (f : A -> bool) l x :
  List.find f l = Some x <-> exists pre post, l = pre ++ x :: post /\ f x = true /\ Forall (fun y => f y = false) pre.
Proof.
  induction l as [|a l IH]; cbn.
  - split; [done|]. intros (pre & post & E & _). by destruct pre.
  - destruct (f a) eqn:Ea.
    + split.
      * intros [= <-]. exists [], l. repeat split; [done|constructor].
      * intros (pre & post & E & Hx & Hp). destruct pre as [|b pre]; [by injection E as -> ->|].
        injection E as -> ->. apply Forall_cons in Hp as [? _]. congruence.
    + rewrite IH. split.
      * intros (pre & post & -> & Hx & Hp). exists (a :: pre), post. repeat split; [done|by constructor].
      * intros (pre & post & E & Hx & Hp). destruct pre as [|b pre]; [injection E as -> ->; congruence|].
        injection E as -> ->. apply Forall_cons in Hp as [_ Hp]. eauto.
Qed.

(** C36: for rules made by SCHEMA.SET and SCHEMA.DEL, HSET's validation accepts
    its fields exactly when they satisfy the first rule whose pattern matches
    the key: every declared field that is given has its type, and every
    field declared required is given.  The order in which Go iterates over
    the declared fields does not matter. *)
Theorem schema_accepts_exactly sm order key fields :
  reachable sm ->
  (forall rule name, rule ∈ sm -> is_Some (Fields rule !! name) -> name ∈ order) ->
  Validate order key fields sm = None <->
  forall pre rule post, sm = pre ++ rule :: post -> Glob.MatchGlob (Pattern rule) key = true ->
    Forall (fun r => Glob.MatchGlob (Pattern r) key = false) pre -> satisfies rule fields.
Proof.
  intros Hr Ho. apply rules_wf in Hr as [_ Hw]. unfold Validate.
  pose proof (find_first (fun rule => Glob.MatchGlob (Pattern rule) key) sm) as Hf.
  destruct (List.find _ sm) as [rule|].
  - destruct (proj1 (Hf rule) eq_refl) as (pre & post & -> & Hm & Hpre).
    assert (rule ∈ pre ++ rule :: post) as Hin by (apply elem_of_app; right; left).
    rewrite Forall_forall in Hw. rewrite check_fields_spec by auto. split.
    + intros H pre' rule' post' E Hm' Hpre'.
      assert (Some rule = Some rule') as [= <-] by (apply Hf; eauto 6).
      intros name typ Ht. apply H; [|done]. eauto.
    + intros H name typ _ Ht. by apply (H pre rule post).
  - split; [|done]. intros _ pre rule post E Hm Hpre.
    assert (None = Some rule) as [=] by (apply Hf; eauto 6).
Qed.

Definition user_rules : SchemaManager := Set_ "user:*" {["age" := "int"; "name" := "required"]} NewSchemaManager.

Lemma schema_accepts_exactly_witness :
  let fields : gmap string string := {["age" := "44"; "name" := "ann"]} in
  Validate ["name"; "age"] "user:1" fields user_rules = None <->
  forall pre rule post, user_rules = pre ++ rule :: post -> Glob.MatchGlob (Pattern rule) "user:1" = true ->
    Forall (fun r => Glob.MatchGlob (Pattern r) "user:1" = false) pre -> satisfies rule fields.
Proof.
  cbn zeta. apply schema_accepts_exactly.
  - apply (reach_set "user:*" ["name:required"; "age:int"]); [apply reach_new|].
    vm_compute. reflexivity.
  - intros rule name. unfold user_rules. cbn [Set_ NewSchemaManager]. rewrite list_elem_of_singleton. intros ->.
    cbn [Fields]. intros [t Ht]. apply lookup_insert_Some in Ht as [[<- _]|[_ Ht]]; [set_solver|].
    apply lookup_singleton_Some in Ht as [<- _]. set_solver.
Defined.

(** A required field must be given by every HSET, also when the hash already
    has it. *)
Example required_each_time :
  Validate ["name"; "age"] "user:1" {["age" := "45"]} user_rules = Some (Required "name").
Proof. vm_compute. reflexivity. Qed.

End Schema.
