(* ===== verification/Namespace.v ===== *)
(** * Namespaces (internal/server/namespace.go)

    A namespace is a name registered with the manager; a connection that uses
    it prefixes the key arguments of its commands with the name and a colon
    before they reach the shared store ([prefixKeyArgs]), and strips the
    prefix from the keys KEYS, SCAN and RANDOMKEY answer. *)
From S2P Require Import Prelude GoLib GoText Store StoreSearch.

Module Namespace.
Import Text.

(** Each namespace also owns a store of its own, which no command uses. *)
Record Namespace := mkNamespace { Name : string; Own : Store.Store; Created : Z }.

Definition NamespaceManager := gmap string Namespace.

Definition NewNamespaceManager (now : Z) (defaultStore : Store.Store) : NamespaceManager :=
  {["default" := mkNamespace "default" defaultStore now]}.

Definition Get (name : string) (nm : NamespaceManager) : option Namespace := nm !! name.

Definition Create (now : Z) (name : string) (nm : NamespaceManager) : result unit * NamespaceManager :=
  if (name =? "")%string then (Err "namespace name cannot be empty", nm)
  else if Search.Contains name ":" then (Err "namespace name cannot contain ':'", nm)
  else match nm !! name with
       | Some _ => (Err "namespace already exists", nm)
       | None => (Ok tt, <[name := mkNamespace name Store.New now]> nm)
       end.

Definition Drop (name : string) (nm : NamespaceManager) : result unit * NamespaceManager :=
  if (name =? "default")%string then (Err "cannot drop default namespace", nm)
  else match nm !! name with
       | None => (Err "namespace does not exist", nm)
       | Some _ => (Ok tt, delete name nm)
       end.

Definition List_ (nm : NamespaceManager) : list string := sort_strings (map_to_list nm).*1.

Definition Default (nm : NamespaceManager) : option Namespace := nm !! "default".

(** ** Prefixing the key arguments *)

(** Commands whose first argument is the key. *)
Definition first_key : list string :=
  ["GET"; "SET"; "SETNX"; "SETEX"; "PSETEX"; "TYPE"; "TTL"; "PTTL";
   "EXPIRE"; "PEXPIRE"; "EXPIREAT"; "PEXPIREAT";
   "PERSIST"; "INCR"; "INCRBY"; "DECR"; "DECRBY"; "INCRBYFLOAT";
   "STRLEN"; "APPEND"; "GETDEL"; "GETSET"; "GETEX"; "GETRANGE"; "SETRANGE";
   "RATELIMIT"; "RATELIMIT.PEEK"; "RATELIMIT.RESET"; "SETDELAYED";
   "HSET"; "HGET"; "HGETALL"; "HDEL"; "HLEN"; "HEXISTS"; "HKEYS"; "HVALS";
   "HINCRBY"; "HINCRBYFLOAT"; "HSETNX"; "HMSET"; "HMGET";
   "LPUSH"; "RPUSH"; "LPUSHX"; "RPUSHX"; "LPOP"; "RPOP";
   "LRANGE"; "LLEN"; "LINDEX"; "LSET"; "LINSERT"; "LPOS";
   "SADD"; "SREM"; "SMEMBERS"; "SISMEMBER"; "SCARD"; "SRANDMEMBER"; "SPOP";
   "ZADD"; "ZRANGE"; "ZRANGEBYSCORE"; "ZREVRANGEBYSCORE"; "ZREVRANGE";
   "ZREM"; "ZSCORE"; "ZCARD"; "ZRANK"; "ZREVRANK"; "ZCOUNT";
   "ZINCRBY"; "ZLEXCOUNT"; "ZRANGEBYLEX";
   "XADD"; "XRANGE"; "XREVRANGE"; "XLEN"; "XREAD";
   "SETBIT"; "GETBIT"; "BITCOUNT"; "BITPOS";
   "PFADD"; "PFCOUNT";
   "GEOADD"; "GEOPOS"; "GEODIST"; "GEOSEARCH";
   "OBJECT"; "EXPIRETIME"; "PEXPIRETIME"; "TOUCH"; "UNLINK";
   "SORT"; "DUMP"; "RESTORE"; "DEBUG";
   "KEYS"].

Definition all_keys : list string :=
  ["DEL"; "EXISTS"; "MGET"; "SINTER"; "SUNION"; "SDIFF"; "SINTERSTORE"; "SUNIONSTORE"; "SDIFFSTORE"; "PFMERGE"].

Definition two_keys : list string := ["RENAME"; "RENAMENX"; "COPY"; "RPOPLPUSH"; "LMOVE"; "SMOVE"].

(** Whether the argument at index [i] of a command of [n] words is a key. *)
Definition is_key (cmd : string) (n i : nat) : bool :=
  if bool_decide (cmd ∈ first_key) then (i =? 1)%nat
  else if bool_decide (cmd ∈ all_keys) then (1 <=? i)%nat
  else if (cmd =? "MSET")%string || (cmd =? "MSETNX")%string then Nat.odd i
  else if bool_decide (cmd ∈ two_keys) then (i =? 1)%nat || (i =? 2)%nat
  else if (cmd =? "BLPOP")%string || (cmd =? "BRPOP")%string then (1 <=? i)%nat && (i <? n - 1)%nat
  else if (cmd =? "BITOP")%string then (2 <=? i)%nat
  else false.

Definition prefixKeyArgs (args : list string) (prefix : string) : list string :=
  if (prefix =? "")%string then args
  else
    let cmd := ToUpper (nth 0 args "") in
    imap (fun i a => if is_key cmd (length args) i then String.append prefix a else a) args.

(** [strings.TrimPrefix] *)
Fixpoint TrimPrefix (s prefix : string) : option string :=
  match prefix, s with
  | EmptyString, _ => Some s
  | String c prefix, String d s => if Ascii.eqb c d then TrimPrefix s prefix else None
  | String _ _, EmptyString => None
  end.

Definition stripKeyPrefix (key prefix : string) : string :=
  if (prefix =? "")%string then key else default key (TrimPrefix key prefix).

Definition ns_prefix (name : string) : string := String.append name ":".

(** ** Names and prefixes *)

Lemma TrimPrefix_append p s : TrimPrefix (String.append p s) p = Some s.
Proof. induction p as [|c p IH]; [by destruct s|]. change (String.append (String c p) s) with (String c (String.append p s)). cbn [TrimPrefix]. by rewrite (proj2 (Ascii.eqb_eq c c) eq_refl). Qed.

Lemma strip_prefixed name key : stripKeyPrefix (String.append (ns_prefix name) key) (ns_prefix name) = key.
Proof.
  unfold stripKeyPrefix. destruct (ns_prefix name =? "")%string eqn:E; [|by rewrite TrimPrefix_append].
  apply String.eqb_eq in E. by rewrite E.
Qed.

(** A text without a colon. *)
Definition no_colon (s : string) : Prop := Search.Contains s ":" = false.

Lemma no_colon_cons c s : no_colon (String c s) -> c <> ":"%char /\ no_colon s.
Proof.
  unfold no_colon. cbn. rewrite orb_false_iff. unfold Search.HasPrefix. cbn.
  intros [H1 H2]. split; [|done]. intros ->. by destruct s.
Qed.

Lemma prefix_disjoint n1 n2 k1 k2 : no_colon n1 -> no_colon n2 ->
  String.append (ns_prefix n1) k1 = String.append (ns_prefix n2) k2 -> n1 = n2 /\ k1 = k2.
Proof.
  unfold ns_prefix. revert n2. induction n1 as [|c n1 IH]; intros [|d n2] H1 H2; cbn.
  - intros E. by injection E as E.
  - intros [= <- _]. by apply no_colon_cons in H2 as [? _].
  - intros [= -> _]. by apply no_colon_cons in H1 as [? _].
  - intros [= -> E]. apply no_colon_cons in H1 as [_ H1], H2 as [_ H2].
    destruct (IH n2 H1 H2 E) as [-> ->]. done.
Qed.

(** The managers NAMESPACE CREATE and DROP can build. *)
Inductive reachable : NamespaceManager -> Prop :=
| reach_new now st : reachable (NewNamespaceManager now st)
| reach_create now name nm : reachable nm -> reachable (Create now name nm).2
| reach_drop name nm : reachable nm -> reachable (Drop name nm).2.

Definition wf (nm : NamespaceManager) : Prop :=
  is_Some (nm !! "default") /\ map_Forall (fun name ns => Name ns = name /\ name <> ""%string /\ no_colon name) nm.

Lemma registry_wf nm : reachable nm -> wf nm.
Proof.
  induction 1 as [now st|now name nm _ [Hd Hf]|name nm _ [Hd Hf]].
  - split; [by eexists; apply lookup_singleton_eq|]. by apply map_Forall_singleton.
  - unfold Create. destruct (String.eqb_spec name ""); [by split|].
    destruct (Search.Contains name ":") eqn:E; [by split|]. destruct (nm !! name) eqn:En; [by split|].
    split; cbn; [apply lookup_insert_is_Some'; auto|by apply map_Forall_insert_2].
  - unfold Drop. destruct (String.eqb_spec name "default"); [by split|]. destruct (nm !! name); [|by split].
    split; cbn; [|by apply map_Forall_delete]. destruct Hd as [d Hd]. exists d. by apply lookup_delete_Some.
Qed.

End Namespace.
