(* ===== verification/Resp.v ===== *)
(** * The wire protocol: internal/resp/resp.go

    A [Reader] is the bytes that are still to come (the end of the string is
    the end of the stream); each read returns a value and the bytes after it,
    an error, or panics.  A [Writer] call is the bytes it appends.  [make]
    with a negative length, or with more than the address space holds, panics;
    so does indexing a buffer at -1. *)
From S2P Require Import Prelude GoLib.

Module Resp.

Inductive Type_ := SimpleString | ErrorString | Integer | BulkString | Array.

#[export] Instance Type__eq_dec : EqDecision Type_.
Proof. solve_decision. Defined.

Inductive Value :=
  mkValue { v_type : Type_; v_text : string; v_int : Z; v_items : list Value; v_null : bool }.

(** ** Reading *)

Inductive read_error := EOF | UnexpectedEOF | NumError (e : num_error) | ExpectedBulk (t : ascii)
  | BadTerminator | UnknownType (b : ascii).

Inductive read (A : Type) :=
| ROk (a : A) (rest : string)
| RErr (e : read_error).
Arguments ROk {A} a rest.
Arguments RErr {A} e.

Definition reader (A : Type) : Type := string -> outcome (read A).

Definition rret {A} (a : A) : reader A := fun s => Ret (ROk a s).
Definition rfail {A} (e : read_error) : reader A := fun _ => Ret (RErr e).
Definition rpanic {A} : reader A := fun _ => Panic.

Definition rbind {A B} (m : reader A) (f : A -> reader B) : reader B := fun s =>
  match m s with
  | Panic => Panic
  | Ret (RErr e) => Ret (RErr e)
  | Ret (ROk a s) => f a s
  end.

Notation "'let!' x ':=' m 'in' f" := (rbind m (fun x => f)) (at level 10, x name, m at level 200, f at level 200).

Definition LF : ascii := ascii_of_nat 10.
Definition CR : ascii := ascii_of_nat 13.
Definition crlf : string := String CR (String LF "").

Definition ReadByte : reader ascii := fun s =>
  match s with EmptyString => Ret (RErr EOF) | String b s => Ret (ROk b s) end.

(** [ReadString('\n')]: up to and including the first line feed. *)
Fixpoint split_line (s : string) : option (string * string) :=
  match s with
  | EmptyString => None
  | String b s =>
      if Ascii.eqb b LF then Some (String b "", s)
      else match split_line s with Some (l, r) => Some (String b l, r) | None => None end
  end.

Definition ReadString : reader string := fun s =>
  match split_line s with None => Ret (RErr EOF) | Some (l, r) => Ret (ROk l r) end.

Definition readLine : reader string :=
  let! line := ReadString in rret (trim_suffix CR (trim_suffix LF line)).

Definition readLen : reader Z :=
  let! line := readLine in
  match Atoi line with
  | (n, None) => rret n
  | (_, Some e) => rfail (NumError e)
  end.

Fixpoint split_at (n : nat) (s : string) : option (string * string) :=
  match n with
  | O => Some ("", s)
  | S n =>
      match s with
      | EmptyString => None
      | String b s => match split_at n s with Some (a, r) => Some (String b a, r) | None => None end
      end
  end.

(** [io.ReadFull(r, buf)] with [len(buf) = n] *)
Definition ReadFull (n : Z) : reader string := fun s =>
  if Z.of_nat (String.length s) <? n then Ret (RErr (if String.eqb s "" then EOF else UnexpectedEOF))
  else match split_at (Z.to_nat n) s with
       | Some (a, r) => Ret (ROk a r)
       | None => Ret (RErr UnexpectedEOF)
       end.

Definition byte_at (s : string) (i : Z) : ascii :=
  match String.get (Z.to_nat i) s with Some b => b | None => Ascii.zero end.

(** The body of a bulk string of [l] bytes and its terminator. *)
Definition read_bulk (l : Z) : reader string :=
  let n := wrap64 (l + 2) in
  if negb (make_ok 1 n) then rpanic
  else
    let! buf := ReadFull n in
    if l <? 0 then rpanic
    else if negb (Ascii.eqb (byte_at buf l) CR) || negb (Ascii.eqb (byte_at buf (l + 1)) LF)
    then rfail BadTerminator
    else rret (String.substring 0 (Z.to_nat l) buf).

Definition splitInline (line : string) : list string :=
  let line := TrimSpace line in
  if String.eqb line "" then [] else Fields line.

Example inline_words : splitInline (String.append "  SET  k 	v " crlf) = ["SET"; "k"; "v"].
Proof. reflexivity. Qed.

(** [for i := 0; i < n; i++] over the bulk strings of a command; every round
    reads at least one byte, so the length of the input bounds the rounds. *)
Fixpoint read_parts (fuel : nat) (n : Z) : reader (list string) :=
  if n <=? 0 then rret []
  else match fuel with
  | O => rfail EOF
  | S fuel =>
      let! t := ReadByte in
      if negb (Ascii.eqb t "$") then rfail (ExpectedBulk t)
      else
        let! l := readLen in
        let! part := read_bulk l in
        let! parts := read_parts fuel (n - 1) in
        rret (part :: parts)
  end.

Definition ReadCommand : reader (list string) :=
  let! b := ReadByte in
  if negb (Ascii.eqb b "*") then
    let! line := ReadString in rret (splitInline (String b line))
  else
    let! n := readLen in
    if negb (make_ok 16 n) then rpanic
    else fun s => read_parts (S (String.length s)) n s.

(** [ReadValue] recurses on arrays; [None] when the fuel does not suffice. *)
Definition lift {A} (m : reader A) : string -> option (outcome (read A)) := fun s => Some (m s).

Definition obind {A B} (m : string -> option (outcome (read A))) (f : A -> string -> option (outcome (read B)))
    : string -> option (outcome (read B)) := fun s =>
  match m s with
  | None => None
  | Some Panic => Some Panic
  | Some (Ret (RErr e)) => Some (Ret (RErr e))
  | Some (Ret (ROk a s)) => f a s
  end.

Notation "'let?' x ':=' m 'in' f" := (obind m (fun x => f)) (at level 10, x name, m at level 200, f at level 200).

(** Everything but the items of an array. *)
Definition read_scalar (b : ascii) : reader Value :=
  if Ascii.eqb b "+" then let! line := readLine in rret (mkValue SimpleString line 0 [] false)
  else if Ascii.eqb b "-" then let! line := readLine in rret (mkValue ErrorString line 0 [] false)
  else if Ascii.eqb b ":" then
    let! line := readLine in
    match ParseInt line with
    | (n, None) => rret (mkValue Integer "" n [] false)
    | (_, Some e) => rfail (NumError e)
    end
  else if Ascii.eqb b "$" then
    let! l := readLen in
    if l =? -1 then rret (mkValue BulkString "" 0 [] true)
    else let! text := read_bulk l in rret (mkValue BulkString text 0 [] false)
  else rfail (UnknownType b).

Fixpoint ReadValue (fuel : nat) (s : string) : option (outcome (read Value)) :=
  match fuel with
  | O => None
  | S fuel =>
      (let? b := lift ReadByte in
       if negb (Ascii.eqb b "*") then lift (read_scalar b)
       else
         let? n := lift readLen in
         if n =? -1 then lift (rret (mkValue Array "" 0 [] true))
         else if negb (make_ok 64 n) then lift rpanic
         else
           let? items := read_items fuel n in
           lift (rret (mkValue Array "" 0 items false))) s
  end
with read_items (fuel : nat) (n : Z) (s : string) : option (outcome (read (list Value))) :=
  if n <=? 0 then lift (rret []) s
  else match fuel with
  | O => None
  | S fuel =>
      (let? item := ReadValue fuel in
       let? items := read_items fuel (n - 1) in
       lift (rret (item :: items))) s
  end.

(** ** Writing *)

Definition cat (a b : string) : string := String.append a b.
Infix "^^" := cat (at level 60, right associativity) : vole_scope.
Open Scope vole_scope.

Definition Simple (s : string) : string := "+" ^^ s ^^ crlf.
Definition Error (s : string) : string := "-" ^^ s ^^ crlf.
Definition Int (n : Z) : string := ":" ^^ FormatInt n ^^ crlf.
Definition Bulk (s : string) : string := "$" ^^ FormatInt (Z.of_nat (String.length s)) ^^ crlf ^^ s ^^ crlf.
Definition Null : string := "$-1" ^^ crlf.
Definition ArrayLen (n : Z) : string := "*" ^^ FormatInt n ^^ crlf.
Definition NullArray : string := "*-1" ^^ crlf.

Definition Command (args : list string) : string :=
  ArrayLen (zlen args) ^^ foldr (fun arg out => Bulk arg ^^ out) "" args.

(** A reply as the writer's calls build it. *)
Fixpoint encode (v : Value) : string :=
  match v_type v with
  | SimpleString => Simple (v_text v)
  | ErrorString => Error (v_text v)
  | Integer => Int (v_int v)
  | BulkString => if v_null v then Null else Bulk (v_text v)
  | Array =>
      if v_null v then NullArray
      else ArrayLen (zlen (v_items v)) ^^ foldr (fun item out => encode item ^^ out) "" (v_items v)
  end.

(** ** Strings *)

Lemma cat_assoc a b c : (a ^^ b) ^^ c = a ^^ b ^^ c.
Proof.
  unfold cat. induction a as [|x a IH]; [done|].
  change (String x (String.append (String.append a b) c) = String x (String.append a (String.append b c))).
  by rewrite IH.
Qed.

Lemma cat_cons x a b : String x a ^^ b = String x (a ^^ b).
Proof. done. Qed.

Lemma cat_nil_r x : x ^^ "" = x.
Proof. induction x as [|c x IH]; [done|]. change (String c x ^^ "") with (String c (x ^^ "")). by rewrite IH. Qed.

Lemma length_cat a b : String.length (a ^^ b) = (String.length a + String.length b)%nat.
Proof. induction a as [|x a IH]; [done|]. rewrite cat_cons. cbn. by rewrite IH. Qed.

Lemma has_byte_cat b x y : has_byte b (x ^^ y) = has_byte b x || has_byte b y.
Proof. apply has_byte_app. Qed.

Lemma split_line_cat a r :
  has_byte LF a = false -> split_line (a ^^ String LF r) = Some (a ^^ String LF "", r).
Proof.
  induction a as [|c a IH]; intros H; [done|]. cbn in H. apply orb_false_iff in H as [Hc Ha].
  rewrite !cat_cons. cbn [split_line]. by rewrite Hc, IH.
Qed.

Lemma trim_suffix_snoc b a : trim_suffix b (a ^^ String b "") = a.
Proof.
  induction a as [|c a IH]; [change (trim_suffix b (String b "") = ""); cbn; by rewrite Ascii.eqb_refl|].
  rewrite cat_cons. cbn [trim_suffix]. rewrite IH. by destruct a.
Qed.

(** A line ended by CR LF is read back without its terminator. *)
Lemma readLine_crlf a r : has_byte LF a = false -> readLine (a ^^ crlf ^^ r) = Ret (ROk a r).
Proof.
  intros H. unfold readLine, rbind, ReadString.
  replace (a ^^ crlf ^^ r) with ((a ^^ String CR "") ^^ String LF r) by by rewrite cat_assoc.
  rewrite split_line_cat by by rewrite has_byte_cat, H. unfold rret. by rewrite !trim_suffix_snoc.
Qed.

Lemma FormatInt_no_lf n : has_byte LF (FormatInt n) = false.
Proof.
  unfold FormatInt, format_uint. destruct (Z.ltb_spec n 0).
  - cbn [has_byte]. rewrite digits_no_byte by (done || lia). done.
  - rewrite digits_no_byte by (done || lia). done.
Qed.

Lemma readLen_int n r : in_int64 n -> readLen (FormatInt n ^^ crlf ^^ r) = Ret (ROk n r).
Proof.
  intros H. unfold readLen, rbind. rewrite readLine_crlf by apply FormatInt_no_lf.
  unfold Atoi. by rewrite ParseInt_FormatInt.
Qed.

Lemma split_at_cat a r : split_at (String.length a) (a ^^ r) = Some (a, r).
Proof. induction a as [|c a IH]; [done|]. rewrite cat_cons. cbn. by rewrite IH. Qed.

Lemma get_cat a b i : String.get (String.length a + i) (a ^^ b) = String.get i b.
Proof. induction a as [|c a IH]; [done|]. rewrite cat_cons. cbn. apply IH. Qed.

Lemma substring_cat a b : String.substring 0 (String.length a) (a ^^ b) = a.
Proof. induction a as [|c a IH]; [by destruct b|]. rewrite cat_cons. cbn. by rewrite IH. Qed.

Definition small (s : string) : Prop := Z.of_nat (String.length s) + 2 <= maxAlloc.

Lemma small_int64 s : small s -> in_int64 (Z.of_nat (String.length s)).
Proof. unfold small, maxAlloc, in_int64, int64_min, int64_max. lia. Qed.

(** A bulk string of any bytes is read back. *)
Lemma read_bulk_back a r :
  small a -> read_bulk (Z.of_nat (String.length a)) (a ^^ crlf ^^ r) = Ret (ROk a r).
Proof.
  intros Hs. unfold read_bulk. unfold small, maxAlloc in Hs.
  rewrite wrap64_id by (unfold in_int64, int64_min, int64_max; lia).
  unfold make_ok, maxAlloc. rewrite (proj2 (Z.leb_le _ _)), (proj2 (Z.leb_le _ _)) by lia. cbn [negb andb].
  assert (a ^^ crlf ^^ r = (a ^^ crlf) ^^ r) as -> by by rewrite cat_assoc.
  assert (Z.of_nat (String.length a) + 2 = Z.of_nat (String.length (a ^^ crlf))) as Hl
    by (rewrite length_cat; cbn; lia).
  rewrite Hl. unfold rbind, ReadFull. rewrite (length_cat (a ^^ crlf) r), (proj2 (Z.ltb_ge _ _)) by lia.
  rewrite Nat2Z.id, split_at_cat. rewrite (proj2 (Z.ltb_ge _ _)) by lia. unfold byte_at.
  rewrite Nat2Z.id. replace (Z.to_nat (Z.of_nat (String.length a) + 1)) with (String.length a + 1)%nat by lia.
  rewrite get_cat, <-(Nat.add_0_r (String.length a)), get_cat, Nat.add_0_r. cbn [String.get crlf negb orb].
  rewrite !Ascii.eqb_refl. cbn [negb orb]. by rewrite substring_cat.
Qed.

Definition bulks (args : list string) : string := foldr (fun arg out => Bulk arg ^^ out) "" args.

Lemma bulks_length args : (length args <= String.length (bulks args))%nat.
Proof.
  induction args as [|a args IH]; [done|]. cbn [bulks foldr length]. fold (bulks args). rewrite length_cat.
  unfold Bulk. rewrite length_cat. cbn [String.length]. lia.
Qed.

Lemma ReadByte_cat c x : ReadByte (String c "" ^^ x) = Ret (ROk c x).
Proof. done. Qed.

Lemma read_parts_back args r fuel :
  Forall small args -> (length args <= fuel)%nat -> read_parts fuel (zlen args) (bulks args ^^ r) = Ret (ROk args r).
Proof.
  intros Hs. revert fuel. induction Hs as [|a args Ha Hs IH]; intros fuel Hf.
  - destruct fuel; done.
  - destruct fuel as [|fuel]; [cbn in Hf; lia|]. cbn [read_parts]. rewrite zlen_cons.
    pose proof (zlen_nonneg args). rewrite (proj2 (Z.leb_gt _ _)) by lia.
    cbn [bulks foldr]. fold (bulks args). unfold Bulk. rewrite !cat_assoc. unfold rbind.
    rewrite ReadByte_cat. change (Ascii.eqb "$" "$") with true. cbn [negb].
    rewrite readLen_int by by apply small_int64. rewrite read_bulk_back by done.
    replace (zlen args + 1 - 1) with (zlen args) by lia. rewrite IH by (cbn in Hf; lia). done.
Qed.

(** C31: a command survives the wire.  Whatever bytes the arguments hold and whatever follows in the
    stream, [ReadCommand] on what [Command] wrote returns the arguments and leaves the rest, so
    pipelined commands are read one by one (lengths within the run-time's allocation limit). *)
Theorem resp_command_roundtrip args rest :
  Forall small args -> zlen args * 16 <= maxAlloc ->
  ReadCommand (Command args ^^ rest) = Ret (ROk args rest).
Proof.
  intros Hs Hn. pose proof (zlen_nonneg args) as H0. unfold Command, ArrayLen, ReadCommand. fold (bulks args).
  rewrite !cat_assoc. unfold rbind at 1. rewrite ReadByte_cat. change (Ascii.eqb "*" "*") with true. cbn [negb].
  unfold rbind. rewrite readLen_int by (unfold in_int64, int64_min, int64_max, maxAlloc in *; lia).
  unfold make_ok. rewrite (proj2 (Z.leb_le _ _)), (proj2 (Z.leb_le _ _)) by lia. cbn [negb andb].
  apply read_parts_back; [done|]. rewrite length_cat. pose proof (bulks_length args). lia.
Qed.

Lemma resp_command_roundtrip_witness :
  ReadCommand (Command ["SET"; crlf; ""] ^^ Command ["PING"]) = Ret (ROk ["SET"; crlf; ""] (Command ["PING"])).
Proof.
  apply (resp_command_roundtrip ["SET"; crlf; ""] (Command ["PING"])).
  - repeat constructor; vm_compute; discriminate.
  - vm_compute. discriminate.
Defined.

(** A negative array length kills the process.  Every command header with a negative count, the
    null array of the protocol included, makes [ReadCommand] panic in [make]; so does a bulk string of
    negative length that is followed by another byte. *)
Theorem resp_negative_length_panics n rest :
  in_int64 n -> n < 0 ->
  ReadCommand ("*" ^^ FormatInt n ^^ crlf ^^ rest) = Panic /\
  (rest <> "" -> ReadCommand ("*1" ^^ crlf ^^ "$" ^^ FormatInt n ^^ crlf ^^ rest) = Panic).
Proof.
  intros Hi Hn. split.
  - unfold ReadCommand, rbind at 1. rewrite ReadByte_cat. change (Ascii.eqb "*" "*") with true. cbn [negb].
    unfold rbind. rewrite readLen_int by done. unfold make_ok. by rewrite (proj2 (Z.leb_gt _ _)) by lia.
  - intros Hr. change ("*1" ^^ crlf ^^ "$" ^^ FormatInt n ^^ crlf ^^ rest)
      with ("*" ^^ FormatInt 1 ^^ crlf ^^ "$" ^^ FormatInt n ^^ crlf ^^ rest).
    unfold ReadCommand, rbind at 1. rewrite ReadByte_cat. change (Ascii.eqb "*" "*") with true. cbn [negb].
    unfold rbind at 1. rewrite readLen_int by done. cbn [make_ok]. change (make_ok 16 1) with true. cbn [negb].
    cbn [read_parts]. change (1 <=? 0) with false. unfold rbind. rewrite ReadByte_cat.
    change (Ascii.eqb "$" "$") with true. cbn [negb]. rewrite readLen_int by done.
    unfold read_bulk, rbind. destruct (make_ok 1 (wrap64 (n + 2))) eqn:E; [|done]. cbn [negb].
    unfold in_int64, int64_min, int64_max in Hi. unfold make_ok in E. apply andb_true_iff in E as [E _].
    apply Z.leb_le in E. assert (n = -1 \/ n = -2) as Hcase.
    { rewrite wrap64_id in E by (unfold in_int64, int64_min, int64_max; lia). lia. }
    destruct rest as [|c rest]; [done|].
    unfold ReadFull. destruct Hcase as [-> | ->]; [|done].
    change (wrap64 (-1 + 2)) with 1. cbn [String.length]. rewrite (proj2 (Z.ltb_ge _ _)) by lia. done.
Qed.

Lemma resp_negative_length_panics_witness :
  in_int64 (-1) /\ ReadCommand NullArray = Panic.
Proof.
  assert (in_int64 (-1)) as H by (unfold in_int64, int64_min, int64_max; lia).
  split; [exact H|]. exact (proj1 (resp_negative_length_panics (-1) "" H eq_refl)).
Defined.

(** ** Replies *)

(** The values the writer can express; only simple strings and errors cannot
    hold a line feed. *)
Fixpoint wf (v : Value) : Prop :=
  match v with
  | mkValue SimpleString text n items null | mkValue ErrorString text n items null =>
      has_byte LF text = false /\ n = 0 /\ items = [] /\ null = false
  | mkValue Integer text n items null => in_int64 n /\ text = "" /\ items = [] /\ null = false
  | mkValue BulkString text n items null =>
      n = 0 /\ items = [] /\ if null then text = "" else small text
  | mkValue Array text n items null =>
      n = 0 /\ text = "" /\
      if null then items = []
      else zlen items * 64 <= maxAlloc /\ foldr (fun v P => wf v /\ P) True items
  end.

Definition encodes (l : list Value) : string := foldr (fun item out => encode item ^^ out) "" l.

Lemma encode_nonempty v : (1 <= String.length (encode v))%nat.
Proof.
  destruct v as [t text n items null]. cbn [encode v_type v_text v_int v_null v_items].
  destruct t; [| | |destruct null|destruct null]; unfold Simple, Error, Int, Null, Bulk, NullArray, ArrayLen;
    rewrite ?cat_assoc, length_cat; cbn [String.length]; lia.
Qed.

(** Everything but arrays. *)
Lemma read_scalar_back v r f :
  wf v -> v_type v <> Array -> ReadValue (S f) (encode v ^^ r) = Some (Ret (ROk v r)).
Proof.
  intros Hw Ht. destruct v as [t text n items null]. cbn [v_type] in Ht.
  cbn [ReadValue encode v_type v_text v_int v_null v_items]. unfold obind, lift.
  destruct t; try done; cbn [wf] in Hw.
  - destruct Hw as (Hl & -> & -> & ->). unfold Simple. rewrite !cat_assoc, ReadByte_cat. cbn -[readLine].
    unfold rbind. by rewrite readLine_crlf.
  - destruct Hw as (Hl & -> & -> & ->). unfold Error. rewrite !cat_assoc, ReadByte_cat. cbn -[readLine].
    unfold rbind. by rewrite readLine_crlf.
  - destruct Hw as (Hi & -> & -> & ->). unfold Int. rewrite !cat_assoc, ReadByte_cat. cbn -[readLine ParseInt].
    unfold rbind. rewrite readLine_crlf by apply FormatInt_no_lf. by rewrite ParseInt_FormatInt.
  - destruct Hw as (-> & -> & Hn). destruct null.
    + subst text. reflexivity.
    + unfold Bulk. rewrite !cat_assoc, ReadByte_cat. cbn -[readLen read_bulk].
      unfold rbind. rewrite readLen_int by by apply small_int64.
      rewrite (proj2 (Z.eqb_neq _ _)) by lia. by rewrite read_bulk_back.
Qed.

Lemma read_back fuel :
  (forall v r, wf v -> (2 * String.length (encode v) < fuel)%nat ->
     ReadValue fuel (encode v ^^ r) = Some (Ret (ROk v r))) /\
  (forall l r, foldr (fun v P => wf v /\ P) True l -> (2 * String.length (encodes l) + 1 < fuel)%nat ->
     read_items fuel (zlen l) (encodes l ^^ r) = Some (Ret (ROk l r))).
Proof.
  induction fuel as [|f [IHv IHl]]; [split; lia|]. split.
  - intros v r Hw Hf. destruct (decide (v_type v = Array)) as [Ht|Ht]; [|by apply read_scalar_back].
    destruct v as [t text n items null]. cbn in Ht. subst t. cbn [wf] in Hw. destruct Hw as (-> & -> & Hw).
    cbn [ReadValue encode v_type v_text v_int v_null v_items] in *. unfold obind, lift.
    destruct null; [by subst items|]. destruct Hw as [Hn Hw]. fold (encodes items) in *.
    pose proof (zlen_nonneg items). unfold ArrayLen in *. rewrite !cat_assoc in *.
    rewrite ReadByte_cat. change (Ascii.eqb "*" "*") with true. cbn [negb].
    rewrite readLen_int by (unfold in_int64, int64_min, int64_max, maxAlloc in *; lia).
    rewrite (proj2 (Z.eqb_neq _ _)) by lia. unfold make_ok.
    rewrite (proj2 (Z.leb_le _ _)), (proj2 (Z.leb_le _ _)) by lia. cbn [negb andb].
    rewrite IHl; [done|done|]. rewrite !length_cat in Hf. cbn [String.length crlf] in Hf. lia.
  - intros l r Hw Hf. cbn [read_items]. destruct l as [|v l]; [done|]. destruct Hw as [Hv Hl].
    rewrite zlen_cons. pose proof (zlen_nonneg l). rewrite (proj2 (Z.leb_gt _ _)) by lia.
    cbn [encodes foldr] in *. fold (encodes l) in *. rewrite cat_assoc. rewrite length_cat in Hf.
    pose proof (encode_nonempty v). unfold obind. rewrite IHv by (done || lia).
    replace (zlen l + 1 - 1) with (zlen l) by lia. rewrite IHl by (done || lia). done.
Qed.

(** Replies survive the wire.  [ReadValue] on what the writer produced for a value, nested arrays
    and nulls included, returns that value and leaves the rest of the stream; twice the length of the
    encoding bounds the recursion. *)
Theorem resp_value_roundtrip v rest fuel :
  wf v -> (2 * String.length (encode v) < fuel)%nat ->
  ReadValue fuel (encode v ^^ rest) = Some (Ret (ROk v rest)).
Proof. apply (proj1 (read_back fuel)). Qed.

Definition sample_reply : Value :=
  mkValue Array "" 0
    [mkValue SimpleString "OK" 0 [] false; mkValue Integer "" (-7) [] false;
     mkValue Array "" 0 [mkValue BulkString crlf 0 [] false; mkValue BulkString "" 0 [] true] false;
     mkValue Array "" 0 [] true] false.

Lemma resp_value_roundtrip_witness :
  ReadValue 200 (encode sample_reply ^^ Null) = Some (Ret (ROk sample_reply Null)).
Proof.
  apply (resp_value_roundtrip sample_reply Null 200).
  - unfold in_int64, small, maxAlloc, int64_min, int64_max. repeat split; try (vm_compute; discriminate); lia.
  - apply Nat.ltb_lt. vm_compute. reflexivity.
Defined.

(** ** Termination *)

(** A reader returns no more bytes than it was given. *)
Definition consumes {A} (m : reader A) : Prop :=
  forall s a r, m s = Ret (ROk a r) -> (String.length r <= String.length s)%nat.

Lemma consumes_bind {A B} (m : reader A) (f : A -> reader B) :
  consumes m -> (forall a, consumes (f a)) -> consumes (rbind m f).
Proof.
  intros Hm Hf s b r. unfold rbind. destruct (m s) as [[a s'|e]|] eqn:E; [|done|done].
  intros H. apply Hf in H. apply Hm in E. lia.
Qed.

Lemma consumes_ret {A} (a : A) : consumes (rret a).
Proof. intros s b r [= -> ->]. done. Qed.

Lemma consumes_fail {A} e : consumes (@rfail A e).
Proof. intros s b r H. done. Qed.

Lemma consumes_panic {A} : consumes (@rpanic A).
Proof. intros s b r H. done. Qed.

Lemma ReadByte_consumes s b r : ReadByte s = Ret (ROk b r) -> String.length s = S (String.length r).
Proof. destruct s; [done|]. by intros [= -> ->]. Qed.

Lemma consumes_ReadString : consumes ReadString.
Proof.
  intros s l r. unfold ReadString. destruct (split_line s) as [[l' r']|] eqn:E; [|done]. intros [= -> ->].
  revert l E. induction s as [|c s IH]; intros l; cbn; [done|].
  case_match; [intros [= <- <-]; lia|]. destruct (split_line s) as [[x y]|]; [|done].
  intros [= <- ->]. specialize (IH x eq_refl). lia.
Qed.

Lemma split_at_consumes k s a r : split_at k s = Some (a, r) -> (String.length r <= String.length s)%nat.
Proof.
  revert s a. induction k as [|k IH]; intros s a; cbn; [intros [= <- <-]; lia|].
  destruct s as [|c s]; [done|]. destruct (split_at k s) as [[x y]|] eqn:E; [|done].
  intros [= <- ->]. apply IH in E. cbn. lia.
Qed.

Lemma consumes_ReadFull n : consumes (ReadFull n).
Proof.
  intros s l r. unfold ReadFull. case_match; [done|].
  destruct (split_at (Z.to_nat n) s) as [[x y]|] eqn:E; [|done]. intros [= -> ->]. by eapply split_at_consumes.
Qed.

Create HintDb consumes.
#[export] Hint Resolve consumes_bind consumes_ret consumes_fail consumes_panic consumes_ReadString
  consumes_ReadFull : consumes.

Lemma consumes_readLine : consumes readLine.
Proof. unfold readLine. apply consumes_bind; [apply consumes_ReadString|]. intros a. apply consumes_ret. Qed.

Lemma consumes_readLen : consumes readLen.
Proof.
  unfold readLen. apply consumes_bind; [apply consumes_readLine|]. intros line.
  destruct (Atoi line) as [n [e|]]; auto with consumes.
Qed.

Lemma consumes_read_bulk l : consumes (read_bulk l).
Proof.
  unfold read_bulk. destruct (negb _); [apply consumes_panic|]. apply consumes_bind; [apply consumes_ReadFull|].
  intros buf. destruct (l <? 0); [apply consumes_panic|]. destruct (_ || _); auto with consumes.
Qed.
#[export] Hint Resolve consumes_readLine consumes_readLen consumes_read_bulk : consumes.

Lemma consumes_read_scalar b : consumes (read_scalar b).
Proof.
  unfold read_scalar. destruct (Ascii.eqb b "+"); [auto with consumes|].
  destruct (Ascii.eqb b "-"); [auto with consumes|].
  destruct (Ascii.eqb b ":").
  { apply consumes_bind; [auto with consumes|]. intros line. destruct (ParseInt line) as [n [e|]]; auto with consumes. }
  destruct (Ascii.eqb b "$"); [|auto with consumes].
  apply consumes_bind; [auto with consumes|]. intros l. destruct (l =? -1); auto with consumes.
Qed.

Lemma read_total fuel :
  (forall s, (2 * String.length s < fuel)%nat -> exists o, ReadValue fuel s = Some o /\
     forall v r, o = Ret (ROk v r) -> (String.length r < String.length s)%nat) /\
  (forall n s, (2 * String.length s + 1 < fuel)%nat -> exists o, read_items fuel n s = Some o /\
     forall l r, o = Ret (ROk l r) -> (String.length r <= String.length s)%nat).
Proof.
  induction fuel as [|f [IHv IHl]]; [split; lia|]. split.
  - intros s Hf. cbn [ReadValue]. unfold obind, lift.
    destruct (ReadByte s) as [[b s1|e]|] eqn:Eb; [|by eexists|by eexists].
    apply ReadByte_consumes in Eb. destruct (negb (Ascii.eqb b "*")).
    { eexists. split; [done|]. intros v r H. apply consumes_read_scalar in H. lia. }
    destruct (readLen s1) as [[n s2|e]|] eqn:En; [|by eexists|by eexists]. apply consumes_readLen in En.
    destruct (n =? -1); [eexists; split; [done|]; intros v r [= _ <-]; lia|].
    destruct (negb (make_ok 64 n)); [by eexists|].
    destruct (IHl n s2 ltac:(lia)) as (o & -> & Ho). destruct o as [[l s3|e]|]; [|by eexists|by eexists].
    eexists. split; [done|]. intros v r [= _ <-]. specialize (Ho l s3 eq_refl). lia.
  - intros n s Hf. cbn [read_items]. destruct (n <=? 0); [eexists; split; [done|]; intros l r [= _ <-]; lia|].
    unfold obind, lift. destruct (IHv s ltac:(lia)) as (o & -> & Ho).
    destruct o as [[v s1|e]|]; [|by eexists|by eexists]. specialize (Ho v s1 eq_refl).
    destruct (IHl (n - 1) s1 ltac:(lia)) as (o & -> & Ho'). destruct o as [[l s2|e]|]; [|by eexists|by eexists].
    eexists. split; [done|]. intros l' r [= _ <-]. specialize (Ho' l s2 eq_refl). lia.
Qed.

(** The rounds of [ReadCommand] are bounded by the input. *)
Lemma read_parts_fuel f1 : forall f2 n s,
  (String.length s < f1)%nat -> (String.length s < f2)%nat -> read_parts f1 n s = read_parts f2 n s.
Proof.
  induction f1 as [|f1 IH]; intros [|f2] n s H1 H2; try lia. cbn [read_parts]. case_match; [done|].
  unfold rbind. destruct (ReadByte s) as [[t s1|e]|] eqn:E; [|done|done]. apply ReadByte_consumes in E.
  destruct (negb _); [done|].
  destruct (readLen s1) as [[l s2|e]|] eqn:El; [|done|done]. apply consumes_readLen in El.
  destruct (read_bulk l s2) as [[p s3|e]|] eqn:Ep; [|done|done]. apply consumes_read_bulk in Ep.
  rewrite (IH f2); [done|lia|lia].
Qed.

(** C32: the readers terminate on every input.  [ReadValue] on any bytes, well formed or not, returns a
    value, an error or panics within twice the input's length of nested calls, and the loop of
    [ReadCommand] is not cut short by its bound. *)
Theorem resp_reader_terminates s :
  (exists o, ReadValue (2 * String.length s + 1) s = Some o) /\
  (forall n fuel, (String.length s < fuel)%nat -> read_parts fuel n s = read_parts (S (String.length s)) n s).
Proof.
  split.
  - destruct (proj1 (read_total (2 * String.length s + 1)) s ltac:(lia)) as (o & Ho & _). by exists o.
  - intros n fuel H. apply read_parts_fuel; lia.
Qed.

End Resp.
