(* ===== verification/Metrics.v ===== *)
(** * Metrics: internal/server/metrics.go

    Atomic counters and the page in the text format of Prometheus.  The
    printing of a float with a fixed number of digits, the clock and what the
    runtime reports are arguments. *)
From S2P Require Import Prelude GoLib Resp.

Module Metrics.
Import Resp.
Open Scope vole_scope.

Record Metrics := mkMetrics {
  CommandsProcessed : Z; ConnectionsTotal : Z; ConnectionsCurrent : Z; KeyspaceHits : Z; KeyspaceMisses : Z;
  BytesReceived : Z; BytesSent : Z; StartTime : Z
}.

Definition NewMetrics (now : Z) : Metrics := mkMetrics 0 0 0 0 0 0 0 now.

(** [atomic.AddInt64] *)
Definition add (n d : Z) : Z := wrap64 (n + d).

Definition IncrCommands (m : Metrics) : Metrics :=
  mkMetrics (add (CommandsProcessed m) 1) (ConnectionsTotal m) (ConnectionsCurrent m) (KeyspaceHits m) (KeyspaceMisses m)
    (BytesReceived m) (BytesSent m) (StartTime m).
Definition IncrConnections (m : Metrics) : Metrics :=
  mkMetrics (CommandsProcessed m) (add (ConnectionsTotal m) 1) (add (ConnectionsCurrent m) 1) (KeyspaceHits m) (KeyspaceMisses m)
    (BytesReceived m) (BytesSent m) (StartTime m).
Definition DecrConnections (m : Metrics) : Metrics :=
  mkMetrics (CommandsProcessed m) (ConnectionsTotal m) (add (ConnectionsCurrent m) (-1)) (KeyspaceHits m) (KeyspaceMisses m)
    (BytesReceived m) (BytesSent m) (StartTime m).
Definition IncrHits (m : Metrics) : Metrics :=
  mkMetrics (CommandsProcessed m) (ConnectionsTotal m) (ConnectionsCurrent m) (add (KeyspaceHits m) 1) (KeyspaceMisses m)
    (BytesReceived m) (BytesSent m) (StartTime m).
Definition IncrMisses (m : Metrics) : Metrics :=
  mkMetrics (CommandsProcessed m) (ConnectionsTotal m) (ConnectionsCurrent m) (KeyspaceHits m) (add (KeyspaceMisses m) 1)
    (BytesReceived m) (BytesSent m) (StartTime m).

(** ** The page *)

Section Page.
(** [%.nf] *)
Context (Fixed : Z -> float64 -> string).

Record sample := mkSample { name : string; help : string; kind : string; value : string }.

Definition hit_rate (m : Metrics) : float64 :=
  let total := add (KeyspaceHits m) (KeyspaceMisses m) in
  if 0 <? total then fdiv (f_of_Z (KeyspaceHits m)) (f_of_Z total) else fzero.

(** [uptime] in seconds, the number of keys, and the runtime's numbers. *)
Definition samples (uptime : float64) (dbSize alloc sys goroutines : Z) (m : Metrics) : list sample :=
  [mkSample "vole_uptime_seconds" "Server uptime in seconds" "gauge" (Fixed 2 uptime);
   mkSample "vole_commands_processed_total" "Total commands processed" "counter" (FormatInt (CommandsProcessed m));
   mkSample "vole_connections_total" "Total connections received" "counter" (FormatInt (ConnectionsTotal m));
   mkSample "vole_connections_current" "Current open connections" "gauge" (FormatInt (ConnectionsCurrent m));
   mkSample "vole_keyspace_hits_total" "Keyspace hits" "counter" (FormatInt (KeyspaceHits m));
   mkSample "vole_keyspace_misses_total" "Keyspace misses" "counter" (FormatInt (KeyspaceMisses m));
   mkSample "vole_db_keys" "Total keys in database" "gauge" (FormatInt dbSize);
   mkSample "vole_memory_used_bytes" "Memory used by Go runtime" "gauge" (FormatInt alloc);
   mkSample "vole_memory_sys_bytes" "Total memory obtained from OS" "gauge" (FormatInt sys);
   mkSample "vole_goroutines" "Current goroutine count" "gauge" (FormatInt goroutines);
   mkSample "vole_keyspace_hit_rate" "Keyspace hit rate" "gauge" (Fixed 4 (hit_rate m))]%string.

Definition nl : string := String LF "".

Definition write_sample (s : sample) : string :=
  "# HELP " ^^ name s ^^ " " ^^ help s ^^ nl ^^ "# TYPE " ^^ name s ^^ " " ^^ kind s ^^ nl ^^ name s ^^ " " ^^ value s ^^ nl.

Definition PrometheusFormat (uptime : float64) (dbSize alloc sys goroutines : Z) (m : Metrics) : string :=
  foldr (fun s out => write_sample s ^^ out) ""%string (samples uptime dbSize alloc sys goroutines m).

(** ** What a scraper reads *)

(** The lines that are no comments, each cut at its first blank. *)
Definition scrape_line (line : string) : list (string * string) :=
  match line with
  | EmptyString => []
  | String c _ => if Ascii.eqb c "#" then [] else match cut_byte " " line with Some x => [x] | None => [] end
  end.
Definition scrape (page : string) : list (string * string) := concat (scrape_line <$> split_byte LF page).

Definition plain_sample (s : sample) : Prop :=
  cut_byte " " (name s) = None /\ has_byte LF (name s) = false /\ has_byte LF (help s) = false /\ has_byte LF (kind s) = false /\
  has_byte LF (value s) = false /\ match name s with String c _ => Ascii.eqb c "#" = false | EmptyString => False end.

Lemma split_line a r : has_byte LF a = false -> split_byte LF (a ^^ nl ^^ r) = a :: split_byte LF r.
Proof. apply (split_byte_app LF a r). Qed.

Lemma scrape_sample s rest : plain_sample s -> scrape (write_sample s ^^ rest) = (name s, value s) :: scrape rest.
Proof.
  intros (Hb & Hn & Hh & Hk & Hv & Hc). unfold scrape.
  assert (write_sample s ^^ rest = ("# HELP " ^^ name s ^^ " " ^^ help s) ^^ nl ^^ ("# TYPE " ^^ name s ^^ " " ^^ kind s) ^^ nl ^^
            (name s ^^ " " ^^ value s) ^^ nl ^^ rest) as -> by (unfold write_sample; by rewrite !cat_assoc).
  rewrite !split_line by (rewrite !has_byte_cat, ?Hn, ?Hh, ?Hk, ?Hv; reflexivity). cbn [fmap list_fmap concat].
  change (scrape_line ("# HELP " ^^ ?x)) with (@nil (string * string)). change (scrape_line ("# TYPE " ^^ ?x)) with (@nil (string * string)).
  cbn [app]. assert (cut_byte " " (name s ^^ " " ^^ value s) = Some (name s, value s)) as Hcut by (by apply (cut_byte_app " ")).
  destruct (name s) as [|c n]; [done|]. change (String c n ^^ ?x) with (String c (n ^^ x)) in *. unfold scrape_line at 1.
  by rewrite Hc, Hcut.
Qed.

(** The page says what the counters hold: a scraper reads the samples in order, each with its value, and
    nothing else. *)
Theorem metrics_page_exact uptime dbSize alloc sys goroutines m :
  (forall n x, has_byte LF (Fixed n x) = false) ->
  scrape (PrometheusFormat uptime dbSize alloc sys goroutines m) =
  (fun s => (name s, value s)) <$> samples uptime dbSize alloc sys goroutines m.
Proof.
  intros HF. unfold PrometheusFormat. assert (Forall plain_sample (samples uptime dbSize alloc sys goroutines m)) as H.
  { repeat constructor; cbn [value]; first [apply FormatInt_no_lf|apply HF]. }
  induction H as [|s l Hs _ IH]; [done|]. cbn [foldr fmap list_fmap]. rewrite scrape_sample by done. by rewrite IH.
Qed.
End Page.

(** ** The counters *)

Inductive event := Command | Open | Close | Hit | Miss.

Definition count (m : Metrics) (e : event) : Metrics :=
  match e with
  | Command => IncrCommands m
  | Open => IncrConnections m
  | Close => DecrConnections m
  | Hit => IncrHits m
  | Miss => IncrMisses m
  end.

#[export] Instance event_eq_dec : EqDecision event.
Proof. solve_decision. Defined.

Definition times (e : event) (l : list event) : Z := zlen (filter (eq e) l).

Lemma times_snoc e l x : times e (l ++ [x]) = times e l + if decide (e = x) then 1 else 0.
Proof. unfold times. rewrite filter_app, zlen_app. f_equal. rewrite filter_cons. by case_decide. Qed.

Lemma times_bound e l : 0 <= times e l <= zlen l.
Proof. split; [apply zlen_nonneg|]. unfold times, zlen. pose proof (length_filter (eq e) l). lia. Qed.

(** The counters count: after any sequence of fewer than 2^63 events the totals are the numbers of events, and
    the current connections those opened and not closed. *)
Theorem counters_exact now l :
  zlen l < 2 ^ 63 ->
  let m := fold_left count l (NewMetrics now) in
  CommandsProcessed m = times Command l /\ ConnectionsTotal m = times Open l /\
  ConnectionsCurrent m = times Open l - times Close l /\ KeyspaceHits m = times Hit l /\ KeyspaceMisses m = times Miss l /\
  StartTime m = now.
Proof.
  induction l as [|e l IH] using rev_ind; intros Hl m; [done|]. unfold m. clear m. rewrite fold_left_app. cbn [fold_left].
  rewrite zlen_app, zlen_cons, zlen_nil in Hl. pose proof (zlen_nonneg l) as H0.
  destruct (IH ltac:(lia)) as (H1 & H2 & H3 & H4 & H5 & H6). rewrite !times_snoc.
  pose proof (times_bound Command l). pose proof (times_bound Open l). pose proof (times_bound Close l).
  pose proof (times_bound Hit l). pose proof (times_bound Miss l).
  destruct e; cbn [count IncrCommands IncrConnections DecrConnections IncrHits IncrMisses CommandsProcessed ConnectionsTotal ConnectionsCurrent
    KeyspaceHits KeyspaceMisses StartTime]; rewrite ?H1, ?H2, ?H3, ?H4, ?H5, ?H6;
    repeat (case_decide; [try done|]); try done; unfold add; rewrite !wrap64_id by (unfold in_int64, int64_min, int64_max; lia);
    repeat split; lia.
Qed.
End Metrics.
