(* ===== verification/Cli.v ===== *)
(** * The command-line client (cmd/vole-cli/main.go)

    How a line of the interactive shell becomes a command, how a reply is
    printed, and how the client follows a redirection to another node.  The
    network is a function [ask]: dialing an address, sending a command and
    reading one reply. *)
From S2P Require Import Prelude GoLib GoText Resp.

Module Cli.
Import Text Resp.
Open Scope vole_scope.

(** ** Runes *)

Definition LF_ : string := String (ascii_of_nat 10) "".
Definition DQ : string := String (ascii_of_nat 34) "".

Definition within (lo hi : nat) (c : ascii) : bool := (lo <=? nat_of_ascii c)%nat && (nat_of_ascii c <=? hi)%nat.

(** The number of continuation bytes that the first byte of an encoding
    announces, and the range of the first of them. *)
Definition lead (c : ascii) : option (nat * nat * nat) :=
  let a := nat_of_ascii c in
  if (a <? 128)%nat then Some (0, 128, 191)%nat
  else if within 194 223 c then Some (1, 128, 191)%nat
  else if (a =? 224)%nat then Some (2, 160, 191)%nat
  else if (a =? 237)%nat then Some (2, 128, 159)%nat
  else if within 225 239 c then Some (2, 128, 191)%nat
  else if (a =? 240)%nat then Some (3, 144, 191)%nat
  else if within 241 243 c then Some (3, 128, 191)%nat
  else if (a =? 244)%nat then Some (3, 128, 143)%nat
  else None.

Fixpoint continues (n lo hi : nat) (s : string) : bool :=
  match n, s with
  | O, _ => true
  | S n, String c s => within lo hi c && continues n 128 191 s
  | S _, EmptyString => false
  end.

(** The length of the valid UTF-8 encoding at the start of the bytes [s], or 0. *)
Definition rune_width (s : string) : nat :=
  match s with
  | EmptyString => 0
  | String c r =>
      match lead c with
      | Some (n, lo, hi) => if continues n lo hi r then S n else 0%nat
      | None => 0
      end
  end.

Definition replacement : string := String (ascii_of_nat 239) (String (ascii_of_nat 191) (String (ascii_of_nat 189) "")).

(** [for _, r := range line]: each rune as the bytes [WriteRune] writes for
    it; a byte that starts no encoding is read as U+FFFD. *)
Fixpoint runes (skip : nat) (s : string) : list string :=
  match s with
  | EmptyString => []
  | String c r =>
      match skip with
      | S skip => runes skip r
      | O =>
          match rune_width s with
          | O => replacement :: runes 0 r
          | S w => String.substring 0 (S w) s :: runes w r
          end
      end
  end.

(** ** Lines *)

Record reading := mkReading { args : list string; b : string; quote : string; escaped : bool }.

Definition start : reading := mkReading [] "" "" false.

Definition write (r : string) (st : reading) : reading :=
  mkReading (args st) (String.append (b st) r) (quote st) false.

Definition flush (st : reading) : reading :=
  if (b st =? "")%string then st else mkReading (args st ++ [b st]) "" (quote st) (escaped st).

Definition unescape (r : string) : string :=
  if (r =? "n")%string then String (ascii_of_nat 10) ""
  else if (r =? "r")%string then String (ascii_of_nat 13) ""
  else if (r =? "t")%string then String (ascii_of_nat 9) ""
  else r.

Definition step (r : string) (st : reading) : reading :=
  if escaped st then write (unescape r) st
  else if (r =? "\")%string then mkReading (args st) (b st) (quote st) true
  else if negb (quote st =? "")%string then
    if (r =? quote st)%string then mkReading (args st) (b st) "" false else write r st
  else if (r =? "'")%string || (r =? DQ)%string then mkReading (args st) (b st) r false
  else if (r =? " ")%string || (r =? String (ascii_of_nat 9) "")%string then flush st
  else write r st.

Definition splitArgs (line : string) : result (list string) :=
  let st := fold_left (fun st r => step r st) (runes 0 line) start in
  let st := if escaped st then write "\" st else st in
  if negb (quote st =? "")%string then
    Err (String.append "unterminated " (String.append (if (quote st =? "'")%string then "'\''" else String.append "'" (String.append DQ "'")) " string"))
  else Ok (args (flush st)).

(** ** Replies *)

Section Print.
Context (quoted : string -> string).

(** [printValue]; [indent] counts the levels of nesting. *)
Fixpoint printValue (raw : bool) (indent : nat) (v : Value) : string :=
  let pad := String.concat "" (replicate indent "  "%string) in
  match v with
  | mkValue SimpleString text _ _ _ => String.append text LF_
  | mkValue ErrorString text _ _ _ => String.append "(error) " (String.append text LF_)
  | mkValue Integer _ n _ _ => String.append "(integer) " (String.append (FormatInt n) LF_)
  | mkValue BulkString text _ _ null =>
      String.append (if null then "(nil)" else if raw then text else quoted text) LF_
  | mkValue Array _ _ items null =>
      if null then String.append "(nil)" LF_
      else match items with
      | [] => String.append "(empty array)" LF_
      | _ =>
          String.concat "" (imap (fun i f => String.append pad (String.append (FormatInt (Z.of_nat i + 1)) (String.append ") " f)))
            (map (fun item : Value =>
                    match item with
                    | mkValue Array _ _ _ false => String.append LF_ (printValue raw (S indent) item)
                    | _ => printValue raw 0 item
                    end) items))
      end
  end.
End Print.

(** ** Commands *)

Definition isStreamingCommand (l : list string) : bool :=
  match l with
  | [] => false
  | name :: _ => bool_decide (ToUpper name ∈ ["SUBSCRIBE"; "PSUBSCRIBE"]%string)
  end.

Definition movedAddress (v : Value) : option string :=
  match v with
  | mkValue ErrorString text _ _ _ =>
      match Fields text with
      | [w; _; addr] => if (w =? "MOVED")%string then Some addr else None
      | _ => None
      end
  | _ => None
  end.

Section Network.
Context {Net : Type} (ask : string -> list string -> Net -> result Value * Net).

(** The loop over redirections; [n] are the attempts left. *)
Fixpoint follow (n : nat) (addr : string) (cmd : list string) (net : Net) : result (Value * string) * Net :=
  match n with
  | O => (Err "too many MOVED redirects", net)
  | S n =>
      let '(r, net) := ask addr cmd net in
      match r with
      | Err e => (Err e, net)
      | Ok v => match movedAddress v with Some next => follow n next cmd net | None => (Ok (v, addr), net) end
      end
  end.

Lemma follow_moved n addr cmd net v next net' :
  ask addr cmd net = (Ok v, net') -> movedAddress v = Some next -> follow (S n) addr cmd net = follow n next cmd net'.
Proof. intros H Hv. cbn [follow]. by rewrite H, Hv. Qed.

Lemma follow_answer n addr cmd net v net' :
  ask addr cmd net = (Ok v, net') -> movedAddress v = None -> follow (S n) addr cmd net = (Ok (v, addr), net').
Proof. intros H Hv. cbn [follow]. by rewrite H, Hv. Qed.

(** [runOne] for a command that is not a subscription. *)
Definition runOne (quoted : string -> string) (raw : bool) (addr : string) (cmd : list string) (net : Net)
    : result string * Net :=
  let '(r, net) := follow 8 addr cmd net in
  (match r with Ok (v, _) => Ok (printValue quoted raw 0 v) | Err e => Err e end, net).

(** What one line of [repl] does: the text it prints, and whether and where
    the shell goes on; [None] for a subscription, which leaves the shell. *)
Definition repl_line (quoted : string -> string) (raw : bool) (help : string) (addr : string) (text : string) (net : Net)
    : option (string * result (option string) * Net) :=
  let line := TrimSpace text in
  let lower := ToLower line in
  if (line =? "")%string then Some (""%string, Ok (Some addr), net)
  else if (lower =? "quit")%string || (lower =? "exit")%string then Some (""%string, Ok None, net)
  else if (lower =? "help")%string then Some (help, Ok (Some addr), net)
  else match splitArgs line with
  | Err e => Some (""%string, Ok (Some addr), net)
  | Ok [] => Some (""%string, Ok (Some addr), net)
  | Ok cmd =>
      if isStreamingCommand cmd then None
      else
        let '(r, net) := follow 8 addr cmd net in
        match r with
        | Ok (v, addr) => Some (printValue quoted raw 0 v, Ok (Some addr), net)
        | Err e => Some (""%string, Err e, net)
        end
  end.
End Network.

(** ** Quoting *)

Definition cat_all (l : list string) : string := foldr cat ""%string l.

(** A string that the loop over runes reads as one rune, whatever follows. *)
Definition is_rune (r : string) : Prop := r <> ""%string /\ forall t, runes 0 (r ^^ t) = r :: runes 0 t.

Lemma runes_skip x t : runes (String.length x) (x ^^ t) = runes 0 t.
Proof. induction x as [|c x IH]; [done|]. exact IH. Qed.

Lemma width_is_rune r : (forall t, rune_width (r ^^ t) = String.length r) -> r <> ""%string -> is_rune r.
Proof.
  intros H Hne. split; [done|]. intros t. destruct r as [|c r]; [done|]. specialize (H t).
  rewrite cat_cons in *. cbn [runes]. rewrite H. cbn [String.length]. rewrite runes_skip. f_equal.
  apply (substring_cat (String c r) t).
Qed.

(** The bytes that decide are those of the encoding. *)
Lemma continues_prefix n : forall lo hi s, continues n lo hi s = true ->
  exists x t, s = x ^^ t /\ String.length x = n /\ forall t', continues n lo hi (x ^^ t') = true.
Proof.
  induction n as [|n IH]; intros lo hi s H; [by exists ""%string, s|].
  destruct s as [|c s]; [done|]. cbn [continues] in H. apply andb_prop in H as [Hc H].
  destruct (IH _ _ _ H) as (x & t & -> & <- & Hx). exists (String c x), t. split; [done|]. split; [done|].
  intros t'. rewrite cat_cons. cbn [continues]. by rewrite Hc, Hx.
Qed.

Lemma width_prefix s w : rune_width s = S w -> is_rune (String.substring 0 (S w) s).
Proof.
  intros H. destruct s as [|c s]; [done|]. cbn [rune_width] in H.
  destruct (lead c) as [[[n lo] hi]|] eqn:El; [|done]. destruct (continues n lo hi s) eqn:Ec; [|done]. injection H as ->.
  destruct (continues_prefix _ _ _ _ Ec) as (x & t & -> & <- & Hx).
  change (String.substring 0 (S (String.length x)) (String c (x ^^ t))) with (String c (String.substring 0 (String.length x) (x ^^ t))).
  rewrite substring_cat. apply width_is_rune; [|done]. intros t'. rewrite cat_cons. cbn [rune_width]. by rewrite El, Hx.
Qed.

Lemma replacement_rune : is_rune replacement.
Proof. apply width_is_rune; [done|discriminate]. Qed.

Lemma ascii_rune c : (nat_of_ascii c <? 128)%nat = true -> is_rune (String c "").
Proof. intros H. apply width_is_rune; [|done]. intros t. change (String c "" ^^ t) with (String c t). unfold rune_width, lead. by rewrite H. Qed.

Lemma runes_are s : forall skip, Forall is_rune (runes skip s).
Proof.
  induction s as [|c s IH]; intros skip; [constructor|]. cbn [runes]. destruct skip as [|skip]; [|apply IH].
  destruct (rune_width (String c s)) as [|w] eqn:E; constructor; try apply IH; [apply replacement_rune|by apply width_prefix].
Qed.

Lemma runes_cat l : Forall is_rune l -> runes 0 (cat_all l) = l.
Proof. induction 1 as [|r l [_ Hr] Hl IH]; [done|]. change (cat_all (r :: l)) with (r ^^ cat_all l). by rewrite Hr, IH. Qed.

(** A text in UTF-8. *)
Definition valid (a : string) : Prop := cat_all (runes 0 a) = a.

(** A rune inside double quotes. *)
Definition esc (r : string) : list string :=
  if (r =? "\")%string || (r =? DQ)%string then ["\"%string; r]
  else if (r =? LF_)%string then ["\"; "n"]%string
  else if (r =? String (ascii_of_nat 13) "")%string then ["\"; "r"]%string
  else [r].

Definition quote_runes (a : string) : list string := [DQ] ++ concat (esc <$> runes 0 a) ++ [DQ].

(** The arguments, each in double quotes, with a space after each. *)
Definition quote_line (l : list string) : string := cat_all (concat ((fun a => quote_runes a ++ [" "%string]) <$> l)).

Lemma esc_runes r : is_rune r -> Forall is_rune (esc r).
Proof. intros H. unfold esc. repeat case_match; repeat (apply Forall_cons_2; [first [exact H|by apply ascii_rune]|]); apply Forall_nil_2. Qed.

Definition run_steps (l : list string) (st : reading) : reading := fold_left (fun st r => step r st) l st.

Lemma step_esc r l t : is_rune r -> run_steps (esc r) (mkReading l t DQ false) = mkReading l (t ^^ r) DQ false.
Proof.
  intros _. unfold esc, run_steps.
  destruct (r =? "\")%string eqn:E1; [apply String.eqb_eq in E1 as ->; reflexivity|].
  destruct (r =? DQ)%string eqn:E2; [apply String.eqb_eq in E2 as ->; reflexivity|].
  destruct (r =? LF_)%string eqn:E3; [apply String.eqb_eq in E3 as ->; reflexivity|].
  destruct (r =? String (ascii_of_nat 13) "")%string eqn:E4; [apply String.eqb_eq in E4 as ->; reflexivity|].
  cbn [orb fold_left]. unfold step. cbn [escaped quote]. rewrite E1. change (negb (DQ =? "")%string) with true. cbv iota. by rewrite E2.
Qed.

Lemma steps_inside rs l t :
  Forall is_rune rs -> run_steps (concat (esc <$> rs)) (mkReading l t DQ false) = mkReading l (t ^^ cat_all rs) DQ false.
Proof.
  intros H. revert t. induction H as [|r rs Hr Hrs IH]; intros t; [by rewrite cat_nil_r|].
  cbn [fmap list_fmap concat]. unfold run_steps. rewrite fold_left_app. fold (run_steps (esc r) (mkReading l t DQ false)).
  rewrite step_esc by done. fold (run_steps (concat (esc <$> rs)) (mkReading l (t ^^ r) DQ false)). rewrite IH.
  by rewrite cat_assoc.
Qed.

Lemma steps_quoted a l :
  a <> ""%string -> valid a -> run_steps (quote_runes a ++ [" "%string]) (mkReading l "" "" false) = mkReading (l ++ [a]) "" "" false.
Proof.
  intros Hne Hv. unfold quote_runes, run_steps. rewrite !fold_left_app.
  change (fold_left (fun st r => step r st) [DQ] (mkReading l "" "" false)) with (mkReading l "" DQ false).
  fold (run_steps (concat (esc <$> runes 0 a)) (mkReading l "" DQ false)). rewrite steps_inside by apply runes_are.
  rewrite Hv. change (""%string ^^ a) with a. cbn [fold_left].
  change (step DQ (mkReading l a DQ false)) with (mkReading l a "" false).
  change (step " " (mkReading l a "" false)) with (flush (mkReading l a "" false)).
  unfold flush. cbn [b args quote escaped]. by rewrite (proj2 (String.eqb_neq _ _) Hne).
Qed.

(** Quoting protects every argument.  Any arguments that are not empty and are UTF-8, written on a line
    in double quotes with backslashes before quotes and backslashes and with line breaks escaped, are read
    back by the shell as they are, spaces, quotes and line breaks included. *)
Theorem cli_quoting l :
  Forall (fun a => a <> ""%string /\ valid a) l -> splitArgs (quote_line l) = Ok l.
Proof.
  intros H. unfold splitArgs, quote_line. rewrite runes_cat.
  - assert (forall acc, run_steps (concat ((fun a => quote_runes a ++ [" "%string]) <$> l)) (mkReading acc "" "" false) =
              mkReading (acc ++ l) "" "" false) as Hs.
    { induction H as [|a l [Ha Hv] Hl IH]; intros acc; [by rewrite app_nil_r|]. cbn [fmap list_fmap concat].
      unfold run_steps. rewrite fold_left_app. fold (run_steps (quote_runes a ++ [" "%string]) (mkReading acc "" "" false)).
      rewrite steps_quoted by done. rewrite (cons_middle a acc l), app_assoc. apply IH. }
    unfold run_steps in Hs. unfold start. rewrite Hs. reflexivity.
  - apply Forall_concat, Forall_fmap, Forall_true. intros a. unfold compose, quote_runes. rewrite <-!app_assoc.
    repeat (apply Forall_app; split); try (apply Forall_singleton; by apply ascii_rune).
    apply Forall_concat, Forall_fmap. eapply Forall_impl; [apply runes_are|]. intros r. apply esc_runes.
Qed.

(** An empty argument cannot be given in the shell, quoted or not, and a byte that is not UTF-8 is replaced. *)
Theorem cli_loses_arguments :
  splitArgs ("SET k " ^^ DQ ^^ DQ) = Ok ["SET"; "k"]%string /\
  splitArgs ("GET " ^^ String (ascii_of_nat 255) "") = Ok ["GET"%string; replacement].
Proof. vm_compute. split; reflexivity. Qed.

Lemma cli_quoting_witness :
  splitArgs (quote_line ["SET"; "a key"; "it's \ here"]%string) = Ok ["SET"; "a key"; "it's \ here"]%string.
Proof. apply cli_quoting. repeat constructor; try discriminate; vm_compute; reflexivity. Defined.
End Cli.
