(* ===== verification/Cron.v ===== *)
(** * Scheduled commands (internal/server/cron.go)

    The parser of five-field schedules, the test whether a schedule is due,
    and the manager of jobs.  A [time.Time] is read through its calendar
    fields ([civil]).  A loop that never ends is [None]: [N-M] with the largest
    64-bit integer as [M] is one. *)
From S2P Require Import Prelude GoLib GoText Store StoreSearch.

Module Cron.
Import Text.

(** ** Schedules *)

Record civil := mkCivil { Minute : Z; Hour : Z; Day : Z; Month : Z; Weekday : Z }.

Record cronSchedule := mkSched { minute : list Z; hour : list Z; dom : list Z; month : list Z; dow : list Z }.

Definition contains (l : list Z) (v : Z) : bool := existsb (Z.eqb v) l.

Definition matchesCron (sched : cronSchedule) (t : civil) : bool :=
  contains (minute sched) (Minute t) && contains (hour sched) (Hour t) && contains (dom sched) (Day t)
  && contains (month sched) (Month t) && contains (dow sched) (Weekday t).

Inductive field_error :=
| BadStep (field : string)
| BadNumber (text : string) (e : num_error).

(** [for i := min; i <= max; i += step] and [for i := lo; i <= hi; i++], with
    the overflow of a 64-bit [int]; [None] when the fuel runs out. *)
Fixpoint count_loop (fuel : nat) (i hi step : Z) : option (list Z) :=
  if i <=? hi then
    match fuel with
    | O => None
    | S fuel => match count_loop fuel (wrap64 (i + step)) hi step with Some l => Some (i :: l) | None => None end
    end
  else Some [].

(** Enough for every loop that ends, see [count_loop_ends]. *)
Definition enough (lo hi : Z) : nat := Z.to_nat (hi - lo + 4).

Definition parse_number (text : string) : field_error + Z :=
  match Atoi text with (n, None) => inr n | (_, Some e) => inl (BadNumber text e) end.

(** One comma-separated part. *)
Definition parse_part (part : string) : option (field_error + list Z) :=
  match cut_byte "-" part with
  | Some (a, b) =>
      match parse_number a with
      | inl e => Some (inl e)
      | inr lo =>
          match parse_number b with
          | inl e => Some (inl e)
          | inr hi => inr <$> count_loop (enough lo hi) lo hi 1
          end
      end
  | None => Some (match parse_number part with inl e => inl e | inr n => inr [n] end)
  end.

Fixpoint parse_parts (parts : list string) (vals : list Z) : option (field_error + list Z) :=
  match parts with
  | [] => Some (inr vals)
  | part :: parts =>
      match parse_part part with
      | None => None
      | Some (inl e) => Some (inl e)
      | Some (inr l) => parse_parts parts (vals ++ l)
      end
  end.

Definition parseCronField (field : string) (min max : Z) : option (field_error + list Z) :=
  if (field =? "*")%string then Some (inr (tabulate (max - min + 1) (fun i => min + i)))
  else match field with
       | String "*" (String "/" rest) =>
           match Atoi rest with
           | (step, None) =>
               if step <=? 0 then Some (inl (BadStep field)) else inr <$> count_loop (enough min max) min max step
           | _ => Some (inl (BadStep field))
           end
       | _ => parse_parts (split_byte "," field) []
       end.

Inductive cron_error :=
| WrongCount (n : Z)
| InField (name : string) (e : field_error).

Definition parseCronSchedule (schedule : string) : option (cron_error + cronSchedule) :=
  match Fields schedule with
  | [f1; f2; f3; f4; f5] =>
      match parseCronField f1 0 59 with
      | None => None
      | Some (inl e) => Some (inl (InField "minute" e))
      | Some (inr v1) =>
      match parseCronField f2 0 23 with
      | None => None
      | Some (inl e) => Some (inl (InField "hour" e))
      | Some (inr v2) =>
      match parseCronField f3 1 31 with
      | None => None
      | Some (inl e) => Some (inl (InField "day of month" e))
      | Some (inr v3) =>
      match parseCronField f4 1 12 with
      | None => None
      | Some (inl e) => Some (inl (InField "month" e))
      | Some (inr v4) =>
      match parseCronField f5 0 6 with
      | None => None
      | Some (inl e) => Some (inl (InField "day of week" e))
      | Some (inr v5) => Some (inr (mkSched v1 v2 v3 v4 v5))
      end end end end end
  | parts => Some (inl (WrongCount (zlen parts)))
  end.

(** ** Jobs *)

(** [jid] is the identity of the allocated job, which a goroutine that reports
    an error holds on to. *)
Record CronJob := mkJob {
  jid : Z; Name : string; Schedule : string; Command : list string;
  CreatedAt : Z; LastRun : Z; RunCount : Z; LastError : string; parsed : cronSchedule
}.

Record CronManager := mkManager { jobs : gmap string CronJob; next_jid : Z }.

Definition NewCronManager : CronManager := mkManager ∅ 0.

Definition Add (now : Z) (name schedule : string) (command : list string) (cm : CronManager)
    : option (option cron_error * CronManager) :=
  match parseCronSchedule schedule with
  | None => None
  | Some (inl e) => Some (Some e, cm)
  | Some (inr sched) =>
      Some (None, mkManager
        (<[name := mkJob (next_jid cm) name schedule command now Store.zeroTime 0 "" sched]> (jobs cm)) (next_jid cm + 1))
  end.

Definition Del (name : string) (cm : CronManager) : bool * CronManager :=
  match jobs cm !! name with
  | None => (false, cm)
  | Some _ => (true, mkManager (delete name (jobs cm)) (next_jid cm))
  end.

Definition List_ (cm : CronManager) : list CronJob :=
  omap (fun n => jobs cm !! n) (sort_strings (map_to_list (jobs cm)).*1).

Definition Get (name : string) (cm : CronManager) : option CronJob := jobs cm !! name.

Definition ran (now : Z) (j : CronJob) : CronJob :=
  mkJob (jid j) (Name j) (Schedule j) (Command j) (CreatedAt j) now (wrap64 (RunCount j + 1)) (LastError j) (parsed j).

(** [Run] under the lock: the jobs that are due, in the order [order] in which
    Go meets the names; each is then started on a goroutine of its own. *)
Definition Run (t : civil) (now : Z) (order : list string) (cm : CronManager) : list CronJob * CronManager :=
  let due j := matchesCron (parsed j) t in
  (filter (fun j => due j = true) (omap (fun n => ran now <$> jobs cm !! n) order),
   mkManager ((fun j => if due j then ran now j else j) <$> jobs cm) (next_jid cm)).

(** The goroutine of a job that failed. *)
Definition failed (j : CronJob) (err : string) (cm : CronManager) : CronManager :=
  match jobs cm !! Name j with
  | Some j' =>
      if jid j' =? jid j
      then mkManager (<[Name j := mkJob (jid j') (Name j') (Schedule j') (Command j') (CreatedAt j') (LastRun j')
                                    (RunCount j') err (parsed j')]> (jobs cm)) (next_jid cm)
      else cm
  | None => cm
  end.

(** ** The loops *)

Lemma count_loop_ends step fuel i hi :
  0 < step -> int64_min <= i -> hi + step <= int64_max -> (Z.to_nat (hi - i + 1) <= fuel)%nat ->
  exists l, count_loop fuel i hi step = Some l /\
    forall v, v ∈ l <-> i <= v <= hi /\ (v - i) mod step = 0.
Proof.
  intros Hs. revert i. induction fuel as [|fuel IH]; intros i Hi Hhi Hf; cbn [count_loop].
  - replace (i <=? hi) with false by lia. exists []. split; [done|]. intros v. rewrite elem_of_nil. lia.
  - destruct (i <=? hi) eqn:E; [|exists []; split; [done|]; intros v; rewrite elem_of_nil; lia].
    rewrite wrap64_id by (unfold in_int64, int64_min, int64_max in *; lia).
    destruct (IH (i + step)) as (l & -> & Hl); [lia..|]. eexists. split; [done|]. intros v. rewrite elem_of_cons, Hl.
    replace (v - (i + step)) with (v - i + (-1) * step) by lia. rewrite Z_mod_plus_full.
    split; [|intros [Hv Hm]].
    + intros [->|[Hv Hm]]; [|split; [lia|done]]. rewrite Z.sub_diag, Zmod_0_l. lia.
    + destruct (decide (v = i)) as [->|Hne]; [by left|]. right. split; [|done].
      apply Z.mod_divide in Hm as [k Hk]; [|lia]. assert (0 < k) by nia. nia.
Qed.

(** Counting up to the largest integer never ends. *)
Lemma count_loop_forever fuel i : in_int64 i -> count_loop fuel i int64_max 1 = None.
Proof.
  revert i. induction fuel as [|fuel IH]; intros i Hi; cbn [count_loop];
    rewrite (proj2 (Z.leb_le i int64_max)) by apply Hi; [done|]. by rewrite IH by apply wrap64_range.
Qed.

(** ** What a schedule means *)

Definition part_denotes (part : string) (v : Z) : Prop :=
  match cut_byte "-" part with
  | Some (a, b) => exists lo hi, Atoi a = (lo, None) /\ Atoi b = (hi, None) /\ lo <= v <= hi
  | None => Atoi part = (v, None)
  end.

(** The values a field stands for: all, every [n]-th counted from the least,
    or those of its comma-separated numbers and ranges. *)
Definition denotes (field : string) (min v : Z) : Prop :=
  if (field =? "*")%string then True
  else match field with
       | String "*" (String "/" rest) => exists n, Atoi rest = (n, None) /\ 0 < n /\ (v - min) mod n = 0
       | _ => exists part, part ∈ split_byte "," field /\ part_denotes part v
       end.

Lemma parse_number_inr text n : parse_number text = inr n <-> Atoi text = (n, None).
Proof. unfold parse_number. destruct (Atoi text) as [m [e|]]; split; intros; simplify_eq; done. Qed.

Lemma Atoi_range text n : Atoi text = (n, None) -> in_int64 n.
Proof. intros H. pose proof (ParseInt_range text) as Hr. unfold Atoi in H. by rewrite H in Hr. Qed.

Lemma range_values lo hi l : in_int64 lo -> in_int64 hi -> count_loop (enough lo hi) lo hi 1 = Some l ->
  forall v, v ∈ l <-> lo <= v <= hi.
Proof.
  intros Hlo Hhi H v. destruct (decide (hi = int64_max)) as [->|Hne]; [by rewrite count_loop_forever in H|].
  destruct (count_loop_ends 1 (enough lo hi) lo hi) as (l' & Hl' & Hv);
    [lia|apply Hlo|unfold in_int64 in *; lia|unfold enough; lia|]. simplify_eq. rewrite Hv, Z.mod_1_r. intuition.
Qed.

Lemma parse_part_exact part l v : parse_part part = Some (inr l) -> v ∈ l <-> part_denotes part v.
Proof.
  unfold parse_part, part_denotes. destruct (cut_byte "-" part) as [[a b]|].
  - destruct (parse_number a) as [|lo] eqn:Ea; [done|]. destruct (parse_number b) as [|hi] eqn:Eb; [done|].
    apply parse_number_inr in Ea, Eb. destruct (count_loop _ _ _ _) as [l'|] eqn:El; [|done]. intros [= <-].
    rewrite (range_values lo hi l') by (done || by eapply Atoi_range). split; [by eauto 6|].
    intros (lo' & hi' & H1 & H2 & H3). congruence.
  - destruct (parse_number part) as [|n] eqn:En; [done|]. intros [= <-]. apply parse_number_inr in En.
    rewrite list_elem_of_singleton, En. split; [by intros ->|by intros [= ->]].
Qed.

Lemma parse_parts_exact parts vals l v : parse_parts parts vals = Some (inr l) ->
  v ∈ l <-> v ∈ vals \/ exists part, part ∈ parts /\ part_denotes part v.
Proof.
  revert vals. induction parts as [|part parts IH]; intros vals; cbn [parse_parts].
  - intros [= <-]. split; [by left|]. intros [?|(? & H & _)]; [done|]. by apply elem_of_nil in H.
  - destruct (parse_part part) as [[e|l1]|] eqn:E; [done| |done]. intros H. apply (IH (vals ++ l1)) in H.
    rewrite H, elem_of_app, (parse_part_exact part l1) by done. setoid_rewrite elem_of_cons. naive_solver.
Qed.

Lemma step_values step min max l : 0 <= min <= 1 -> min <= max <= 59 -> 0 < step <= int64_max ->
  count_loop (enough min max) min max step = Some l ->
  forall v, min <= v <= max -> v ∈ l <-> (v - min) mod step = 0.
Proof.
  intros Hmin Hmax Hs H v Hv. destruct (decide (max + step <= int64_max)) as [Hle|Hgt].
  - destruct (count_loop_ends step (enough min max) min max) as (l' & Hl' & Hl);
      [lia|unfold int64_min; lia|done|unfold enough; lia|]. simplify_eq. rewrite Hl. intuition lia.
  - rewrite Z.mod_small by (unfold int64_max in *; lia).
    assert (v ∈ l <-> v = min) as ->; [|lia]. revert H. unfold enough.
    replace (Z.to_nat (max - min + 4)) with (S (S (S (Z.to_nat (max - min + 1))))) by lia. cbn [count_loop].
    rewrite (proj2 (Z.leb_le min max)) by lia. destruct (decide (min + step <= int64_max)).
    + rewrite wrap64_id by (unfold in_int64, int64_min, int64_max in *; lia).
      rewrite (proj2 (Z.leb_gt (min + step) max)) by (unfold int64_max in *; lia). intros [= <-]. apply list_elem_of_singleton.
    + assert (min = 1) as -> by lia. assert (step = int64_max) as -> by lia.
      change (wrap64 (1 + int64_max)) with int64_min. change (wrap64 (int64_min + int64_max)) with (-1).
      change (wrap64 (-1 + int64_max)) with (int64_max - 1).
      rewrite !(proj2 (Z.leb_le _ max)) by (unfold int64_min; lia).
      replace (Z.to_nat (max - 1 + 1)) with (S (Z.to_nat (max - 1))) by lia. cbn [count_loop].
      rewrite (proj2 (Z.leb_gt (int64_max - 1) max)) by (unfold int64_max; lia). intros [= <-].
      rewrite !elem_of_cons, elem_of_nil. unfold int64_min. lia.
Qed.

Lemma parse_field_exact field min max l v :
  0 <= min <= 1 -> min <= max <= 59 -> min <= v <= max ->
  parseCronField field min max = Some (inr l) -> contains l v = true <-> denotes field min v.
Proof.
  intros Hmin Hmax Hv H. assert (contains l v = true <-> v ∈ l) as ->.
  { unfold contains. rewrite existsb_exists, list_elem_of_In. split.
    - intros (x & Hx & E). apply Z.eqb_eq in E. by subst.
    - intros Hx. exists v. split; [done|apply Z.eqb_refl]. }
  revert H. unfold parseCronField, denotes. destruct (field =? "*")%string.
  { intros [= <-]. split; [done|]. intros _. unfold tabulate. apply list_elem_of_fmap. exists (v - min).
    split; [lia|]. apply elem_of_seqZ. lia. }
  assert (parse_parts (split_byte "," field) [] = Some (inr l) ->
    v ∈ l <-> exists part, part ∈ split_byte "," field /\ part_denotes part v) as Hparts.
  { intros H. apply parse_parts_exact with (v := v) in H. rewrite H, elem_of_nil. intuition. }
  repeat case_match; try exact Hparts; try done. intros H'.
  destruct (count_loop _ _ _ _) as [l'|] eqn:El; [|done]. cbn in H'. simplify_eq.
  match goal with H : Atoi _ = (?n, None) |- _ => rename H into En; rename n into step end.
  pose proof (Atoi_range _ _ En) as [_ ?].
  rewrite (step_values step min max l) by (done || lia). split; [by eauto with lia|]. by intros (n & [= <-] & _ & ?).
Qed.

Definition valid (t : civil) : Prop :=
  0 <= Minute t <= 59 /\ 0 <= Hour t <= 23 /\ 1 <= Day t <= 31 /\ 1 <= Month t <= 12 /\ 0 <= Weekday t <= 6.

(** C37: a schedule is due exactly when it says so.  A text that is accepted as a schedule has five fields,
    and at any calendar time it is due if and only if each field stands for the minute, the hour, the day
    of the month, the month and the day of the week of that time: a star for every value, a star with a
    step for every so many counted from the least, numbers and ranges between commas for themselves. *)
Theorem cron_schedule_exact schedule sched t :
  parseCronSchedule schedule = Some (inr sched) -> valid t ->
  exists f1 f2 f3 f4 f5, Fields schedule = [f1; f2; f3; f4; f5] /\
    (matchesCron sched t = true <->
     denotes f1 0 (Minute t) /\ denotes f2 0 (Hour t) /\ denotes f3 1 (Day t) /\ denotes f4 1 (Month t)
     /\ denotes f5 0 (Weekday t)).
Proof.
  intros H (H1 & H2 & H3 & H4 & H5). revert H. unfold parseCronSchedule.
  destruct (Fields schedule) as [|f1 [|f2 [|f3 [|f4 [|f5 [|? ?]]]]]]; try done.
  destruct (parseCronField f1 0 59) as [[|v1]|] eqn:E1; try done.
  destruct (parseCronField f2 0 23) as [[|v2]|] eqn:E2; try done.
  destruct (parseCronField f3 1 31) as [[|v3]|] eqn:E3; try done.
  destruct (parseCronField f4 1 12) as [[|v4]|] eqn:E4; try done.
  destruct (parseCronField f5 0 6) as [[|v5]|] eqn:E5; try done. intros [= <-].
  exists f1, f2, f3, f4, f5. split; [done|]. unfold matchesCron. cbn [minute hour dom month dow].
  rewrite !andb_true_iff, (parse_field_exact f1 0 59 v1), (parse_field_exact f2 0 23 v2),
    (parse_field_exact f3 1 31 v3), (parse_field_exact f4 1 12 v4), (parse_field_exact f5 0 6 v5) by (done || lia).
  tauto.
Qed.

Lemma cron_schedule_exact_witness :
  exists sched, parseCronSchedule " */15  8-18 1,15 * 1-5 " = Some (inr sched) /\
    matchesCron sched (mkCivil 30 9 15 6 2) = true /\ matchesCron sched (mkCivil 31 9 15 6 2) = false /\
    exists f1 f2 f3 f4 f5, Fields " */15  8-18 1,15 * 1-5 " = [f1; f2; f3; f4; f5] /\
      (matchesCron sched (mkCivil 30 9 15 6 2) = true <->
       denotes f1 0 30 /\ denotes f2 0 9 /\ denotes f3 1 15 /\ denotes f4 1 6 /\ denotes f5 0 2).
Proof.
  destruct (parseCronSchedule " */15  8-18 1,15 * 1-5 ") as [[e|sched]|] eqn:E;
    [vm_compute in E; discriminate E| |vm_compute in E; discriminate E].
  exists sched. split; [reflexivity|]. split; [|split].
  1, 2: vm_compute in E; injection E as <-; reflexivity.
  apply (cron_schedule_exact " */15  8-18 1,15 * 1-5 " sched (mkCivil 30 9 15 6 2) E).
  unfold valid. cbn. lia.
Defined.

(** The run of a minute.  Whatever the order in which the jobs are met, [Run] starts every job that is
    due once and no other, counts the run and notes its time, and leaves every other job as it was; no
    job appears or disappears. *)
Theorem cron_run_due t now order cm :
  order ≡ₚ (map_to_list (jobs cm)).*1 ->
  let '(started, cm') := Run t now order cm in
  (forall name job, jobs cm !! name = Some job ->
     jobs cm' !! name = Some (if matchesCron (parsed job) t then ran now job else job)) /\
  base.dom (jobs cm') =@{gset string} base.dom (jobs cm) /\
  started ≡ₚ ran now <$> filter (fun j => matchesCron (parsed j) t = true) (map_to_list (jobs cm)).*2.
Proof.
  intros Ho. cbn. split; [|split].
  - intros name job Hj. by rewrite lookup_fmap, Hj.
  - apply dom_fmap_L.
  - rewrite Ho. clear Ho.
    assert (forall l : list (string * CronJob), (forall p, p ∈ l -> jobs cm !! p.1 = Some p.2) ->
      filter (fun j => matchesCron (parsed j) t = true) (omap (fun n => ran now <$> jobs cm !! n) l.*1) =
      ran now <$> filter (fun j => matchesCron (parsed j) t = true) l.*2) as H.
    { induction l as [|p l IH]; intros Hl; [done|]. cbn [fmap list_fmap omap list_omap].
      rewrite (Hl p) by (apply elem_of_cons; by left). cbn [fmap option_fmap option_map].
      rewrite !filter_cons. change (parsed (ran now p.2)) with (parsed p.2).
      destruct (decide _); cbn [fmap list_fmap]; [f_equal|]; apply IH; intros q Hq; apply Hl, elem_of_cons; by right. }
    rewrite H; [done|]. intros [n j] Hp. by apply elem_of_map_to_list in Hp.
Qed.

Definition nightly : CronManager :=
  match Add 0 "n" "0 3 * * *" ["FLUSHDB"] NewCronManager with Some (_, cm) => cm | None => NewCronManager end.

Lemma cron_run_due_witness :
  let '(started, cm') := Run (mkCivil 0 3 1 1 0) 7 ["n"] nightly in
  (forall name job, jobs nightly !! name = Some job ->
     jobs cm' !! name = Some (if matchesCron (parsed job) (mkCivil 0 3 1 1 0) then ran 7 job else job)) /\
  base.dom (jobs cm') =@{gset string} base.dom (jobs nightly) /\
  started ≡ₚ ran 7 <$> filter (fun j => matchesCron (parsed j) (mkCivil 0 3 1 1 0) = true) (map_to_list (jobs nightly)).*2.
Proof. apply (cron_run_due (mkCivil 0 3 1 1 0) 7 ["n"] nightly). vm_compute. reflexivity. Defined.

(** A range that ends in the largest integer is accepted by no fuel: CRON.ADD
    with it never answers. *)
Lemma cron_add_hangs lo fuel : in_int64 lo ->
  count_loop fuel lo int64_max 1 = None /\ parse_part "5-9223372036854775807" = inr <$> count_loop (enough 5 int64_max) 5 int64_max 1.
Proof. intros H. split; [by apply count_loop_forever|done]. Qed.
End Cron.
