(* ===== verification/SlowLog.v ===== *)
(** * The slow log (internal/server/slowlog.go)

    Commands that took at least the threshold are kept, the last [maxLen] of
    them, and read back newest first. *)
From S2P Require Import Prelude GoLib.

Module SlowLog.

Record SlowLogEntry := mkEntry {
  ID : Z; Timestamp : Z; Duration : Z; Command : list string; Client : string
}.

Record SlowLog := mkLog { entries : list SlowLogEntry; threshold : Z; maxLen : Z; nextID : Z }.

Definition NewSlowLog (threshold maxLen : Z) : SlowLog := mkLog [] threshold maxLen 0.

(** [make] with a negative length panics. *)
Definition Record_ (now duration : Z) (command : list string) (client : string) (sl : SlowLog) : outcome SlowLog :=
  if duration <? threshold sl then Ret sl
  else
    let id := wrap64 (nextID sl + 1) in
    let l := entries sl ++ [mkEntry id now duration command client] in
    if zlen l >? maxLen sl then
      if maxLen sl <? 0 then Panic
      else Ret (mkLog (keep_last (maxLen sl) l) (threshold sl) (maxLen sl) id)
    else Ret (mkLog l (threshold sl) (maxLen sl) id).

Definition Get (count : Z) (sl : SlowLog) : list SlowLogEntry :=
  let n := zlen (entries sl) in
  let count := if (count <=? 0) || (count >? n) then n else count in
  ztake count (rev (entries sl)).

Definition Len (sl : SlowLog) : Z := zlen (entries sl).

Definition Reset (sl : SlowLog) : SlowLog := mkLog [] (threshold sl) (maxLen sl) (nextID sl).

(** ** The log against the sequence of all commands *)

(** A call of [Record_]: the time, the duration, the command and the client. *)
Record call := mkCall { at_ : Z; took : Z; words : list string; from : string }.

Fixpoint record_all (calls : list call) (sl : SlowLog) : outcome SlowLog :=
  match calls with
  | [] => Ret sl
  | c :: calls =>
      match Record_ (at_ c) (took c) (words c) (from c) sl with Ret sl => record_all calls sl | Panic => Panic end
  end.

(** The slow calls, numbered from the first. *)
Definition slow (thr : Z) (calls : list call) : list call := filter (fun c => thr <= took c) calls.

Definition entry_of (first : Z) (i : nat) (c : call) : SlowLogEntry :=
  mkEntry (first + Z.of_nat i + 1) (at_ c) (took c) (words c) (from c).

Lemma record_all_entries calls sl all :
  0 <= maxLen sl -> entries sl = keep_last (maxLen sl) (imap (entry_of 0) all) -> nextID sl = zlen all ->
  zlen all + zlen calls <= int64_max ->
  record_all calls sl =
  Ret (mkLog (keep_last (maxLen sl) (imap (entry_of 0) (all ++ slow (threshold sl) calls))) (threshold sl) (maxLen sl)
         (zlen (all ++ slow (threshold sl) calls))).
Proof.
  intros Hm. revert sl all Hm. induction calls as [|c calls IH]; intros sl all Hm He Hid Hlen; cbn [record_all].
  - unfold slow. rewrite filter_nil, app_nil_r, <-He, <-Hid. by destruct sl.
  - rewrite zlen_cons in Hlen. pose proof (zlen_nonneg calls). pose proof (zlen_nonneg all).
    unfold Record_, slow. rewrite filter_cons.
    destruct (took c <? threshold sl) eqn:E.
    + rewrite decide_False by lia. apply IH; [done|done|done|lia].
    + rewrite decide_True by lia.
      assert (wrap64 (nextID sl + 1) = zlen (all ++ [c])) as ->.
      { rewrite Hid, zlen_app, wrap64_id; [done|]. unfold in_int64, int64_min, int64_max in *. cbn. lia. }
      set (e := mkEntry _ _ _ _ _).
      assert (keep_last (maxLen sl) (entries sl ++ [e]) = keep_last (maxLen sl) (imap (entry_of 0) (all ++ [c]))) as Hk.
      { rewrite He, keep_last_snoc by done. rewrite imap_app. do 2 f_equal. cbn. unfold e, entry_of. do 2 f_equal.
        rewrite zlen_app. unfold zlen. cbn. lia. }
      assert (forall l, l = keep_last (maxLen sl) (imap (entry_of 0) (all ++ [c])) ->
        record_all calls (mkLog l (threshold sl) (maxLen sl) (zlen (all ++ [c]))) =
        Ret (mkLog (keep_last (maxLen sl) (imap (entry_of 0) (all ++ c :: slow (threshold sl) calls))) (threshold sl)
               (maxLen sl) (zlen (all ++ c :: slow (threshold sl) calls)))) as Hstep.
      { intros l Hl. replace (all ++ c :: slow (threshold sl) calls) with ((all ++ [c]) ++ slow (threshold sl) calls)
          by (by rewrite <-app_assoc).
        rewrite (IH (mkLog l (threshold sl) (maxLen sl) (zlen (all ++ [c]))) (all ++ [c])); cbn [entries maxLen nextID];
          [done..|]. rewrite zlen_app, zlen_cons, zlen_nil. lia. }
      destruct (zlen (entries sl ++ [e]) >? maxLen sl) eqn:El.
      * replace (maxLen sl <? 0) with false by lia. by apply Hstep.
      * apply Hstep. by rewrite <-Hk, keep_last_all by lia.
Qed.

(** The slow log keeps the latest slow commands.  Whatever commands the server ran, the log never
    panics and holds exactly the last [maxLen] of those that took at least the threshold, numbered by
    their place among all slow commands, and SLOWLOG GET with a count within its length answers that
    many of them, the newest first. *)
Theorem slowlog_keeps_latest thr max calls :
  0 <= max -> zlen calls <= int64_max ->
  exists sl, record_all calls (NewSlowLog thr max) = Ret sl /\
    entries sl = keep_last max (imap (entry_of 0) (slow thr calls)) /\ Len sl = Z.min max (zlen (slow thr calls)) /\
    forall count, 0 < count <= Len sl -> Get count sl = ztake count (rev (entries sl)) /\ zlen (Get count sl) = count.
Proof.
  intros Hm Hlen. eexists. split.
  { apply (record_all_entries calls (NewSlowLog thr max) []); [done| |done|rewrite zlen_nil; lia].
    cbn. by rewrite keep_last_all. }
  cbn [entries threshold maxLen NewSlowLog app]. split; [done|]. split.
  - unfold Len. cbn [entries]. rewrite zlen_keep_last by done. unfold zlen. by rewrite length_imap.
  - intros count Hc. unfold Get, Len in *. cbn [entries] in *. set (l := keep_last _ _) in *.
    replace ((count <=? 0) || (count >? zlen l)) with false by lia. split; [done|].
    unfold ztake, zlen in *. rewrite length_take, length_rev. lia.
Qed.

Lemma slowlog_keeps_latest_witness :
  let calls := [mkCall 1 20 ["KEYS"; "*"] "a"; mkCall 2 5 ["GET"; "k"] "b"; mkCall 3 30 ["SORT"; "l"] "a"] in
  exists sl, record_all calls (NewSlowLog 10 1) = Ret sl /\
    entries sl = keep_last 1 (imap (entry_of 0) (slow 10 calls)) /\ Len sl = Z.min 1 (zlen (slow 10 calls)) /\
    forall count, 0 < count <= Len sl -> Get count sl = ztake count (rev (entries sl)) /\ zlen (Get count sl) = count.
Proof.
  apply (slowlog_keeps_latest 10 1 [mkCall 1 20 ["KEYS"; "*"] "a"; mkCall 2 5 ["GET"; "k"] "b"; mkCall 3 30 ["SORT"; "l"] "a"]);
    [lia|]. vm_compute. discriminate.
Defined.
End SlowLog.
