(* ===== verification/AuditLog.v ===== *)
(** * The audit log (internal/server/audit.go)

    While it is enabled, every successful write is recorded with its key, its
    arguments and its client; the last [maxSize] records are kept, all of them
    when [maxSize] is not positive. *)
From S2P Require Import Prelude GoLib Glob.

Module AuditLog.

Record AuditEntry := mkEntry {
  Timestamp : Z; Key : string; Command : string; Args : list string; Client : string
}.

Record AuditLog := mkLog { entries : list AuditEntry; enabled : bool; maxSize : Z }.

Definition NewAuditLog (maxSize : Z) : AuditLog := mkLog [] false maxSize.
Definition Enabled (al : AuditLog) : bool := enabled al.
Definition Enable (al : AuditLog) : AuditLog := mkLog (entries al) true (maxSize al).
Definition Disable (al : AuditLog) : AuditLog := mkLog (entries al) false (maxSize al).

(** The test and the append are two critical sections; nothing that can happen
    in between matters to the other. *)
Definition Record_ (now : Z) (key command client : string) (args : list string) (al : AuditLog) : AuditLog :=
  if negb (enabled al) then al
  else
    let l := entries al ++ [mkEntry now key command args client] in
    mkLog (if (maxSize al >? 0) && (zlen l >? maxSize al) then keep_last (maxSize al) l else l)
      (enabled al) (maxSize al).

(** [for i := len-1; i >= 0 && len(results) < count; i--] *)
Fixpoint search_back (f : AuditEntry -> bool) (count : Z) (newest_first : list AuditEntry) (results : list AuditEntry)
    : list AuditEntry :=
  match newest_first with
  | [] => results
  | e :: l =>
      if zlen results <? count then search_back f count l (if f e then results ++ [e] else results) else results
  end.

Definition ForKey (key : string) (count : Z) (al : AuditLog) : list AuditEntry :=
  let count := if count <=? 0 then 10 else count in
  search_back (fun e => (Key e =? key)%string) count (rev (entries al)) [].

Definition Search (pattern : string) (count : Z) (al : AuditLog) : list AuditEntry :=
  let count := if count <=? 0 then 50 else count in
  search_back (fun e => Glob.MatchGlob pattern (Key e)) count (rev (entries al)) [].

Definition Clear (al : AuditLog) : AuditLog := mkLog [] (enabled al) (maxSize al).
Definition Size (al : AuditLog) : Z := zlen (entries al).

(** ** Searching *)

Lemma search_back_spec f count l results :
  zlen results <= count ->
  search_back f count l results = results ++ ztake (count - zlen results) (filter (fun e => f e = true) l).
Proof.
  revert results. induction l as [|e l IH]; intros results Hc; cbn [search_back].
  - unfold ztake. by rewrite filter_nil, take_nil, app_nil_r.
  - destruct (zlen results <? count) eqn:E.
    + rewrite filter_cons. destruct (f e) eqn:Ef.
      * rewrite decide_True by done. rewrite IH; [|rewrite zlen_app; unfold zlen in *; cbn; lia]. rewrite <-app_assoc, zlen_app. f_equal.
        unfold ztake. replace (Z.to_nat (count - zlen results)) with (S (Z.to_nat (count - (zlen results + zlen [e]))))
          by (unfold zlen in *; cbn; lia). done.
      * rewrite decide_False by done. by apply IH.
    + replace (count - zlen results) with 0 by lia. unfold ztake. by rewrite take_0, app_nil_r.
Qed.

(** ** The log against everything that was recorded *)

Inductive event :=
| Write (now : Z) (key command client : string) (args : list string)
| On
| Off
| Erase.

Definition step (e : event) (al : AuditLog) : AuditLog :=
  match e with
  | Write now key command client args => Record_ now key command client args al
  | On => Enable al
  | Off => Disable al
  | Erase => Clear al
  end.

(** What was written since the last [Clear] while the log was on. *)
Fixpoint audited (evs : list event) (on : bool) (acc : list AuditEntry) : list AuditEntry :=
  match evs with
  | [] => acc
  | Write now key command client args :: evs =>
      audited evs on (if on then acc ++ [mkEntry now key command args client] else acc)
  | On :: evs => audited evs true acc
  | Off :: evs => audited evs false acc
  | Erase :: evs => audited evs on []
  end.

Definition kept (max : Z) (l : list AuditEntry) : list AuditEntry := if max >? 0 then keep_last max l else l.

Lemma audit_entries evs al acc :
  entries al = kept (maxSize al) acc ->
  entries (fold_left (fun al e => step e al) evs al) = kept (maxSize al) (audited evs (enabled al) acc) /\
  maxSize (fold_left (fun al e => step e al) evs al) = maxSize al.
Proof.
  revert al acc. induction evs as [|e evs IH]; intros al acc He; [done|]. cbn [fold_left].
  destruct e as [now key command client args| | |]; cbn [step audited].
  - unfold Record_. destruct (enabled al) eqn:En; cbn [negb]; [|rewrite <-En; by apply IH].
    set (al' := mkLog _ _ _). change (maxSize al) with (maxSize al'). change true with (enabled al'). apply IH.
    cbn [al' entries maxSize]. unfold kept in *. rewrite He. destruct (maxSize al >? 0) eqn:Em; cbn [andb]; [|done].
    case_match eqn:El.
    + rewrite keep_last_snoc by lia. done.
    + rewrite <-(keep_last_snoc (maxSize al) acc) by lia. symmetry. apply keep_last_all. lia.
  - apply (IH (Enable al) acc He).
  - apply (IH (Disable al) acc He).
  - apply (IH (Clear al) []). unfold kept. case_match; [|done]. symmetry. apply keep_last_all. cbn in *. unfold zlen. cbn. lia.
Qed.

(** The audit log is faithful.  After any sequence of writes, switching on and off and clearing, the log
    holds exactly the writes made while it was on since it was last cleared, the last [maxSize] of them;
    and a query answers, newest first, the most recent entries of that log with the key, or with a key
    that matches the pattern, as many as asked for. *)
Theorem audit_faithful evs max count key pattern :
  0 < count ->
  let al := fold_left (fun al e => step e al) evs (NewAuditLog max) in
  entries al = kept max (audited evs false []) /\
  ForKey key count al = ztake count (filter (fun e => (Key e =? key)%string = true) (rev (entries al))) /\
  Search pattern count al = ztake count (filter (fun e => Glob.MatchGlob pattern (Key e) = true) (rev (entries al))).
Proof.
  intros Hc al. split; [|split].
  - apply (audit_entries evs (NewAuditLog max) []). unfold kept. case_match; [|done].
    symmetry. apply keep_last_all. cbn in *. unfold zlen. cbn. lia.
  - unfold ForKey. replace (count <=? 0) with false by lia. rewrite search_back_spec by (rewrite zlen_nil; lia).
    by rewrite zlen_nil, Z.sub_0_r.
  - unfold Search. replace (count <=? 0) with false by lia. rewrite search_back_spec by (rewrite zlen_nil; lia).
    by rewrite zlen_nil, Z.sub_0_r.
Qed.

Lemma audit_faithful_witness :
  let evs := [Write 1 "a" "SET" "c" []; On; Write 2 "a" "SET" "c" []; Write 3 "b" "DEL" "d" []; Off; Write 4 "a" "DEL" "c" []] in
  let al := fold_left (fun al e => step e al) evs (NewAuditLog 10) in
  ForKey "a" 5 al = [mkEntry 2 "a" "SET" [] "c"] /\
  entries al = kept 10 (audited evs false []) /\
  ForKey "a" 5 al = ztake 5 (filter (fun e => (Key e =? "a")%string = true) (rev (entries al))) /\
  Search "?" 5 al = ztake 5 (filter (fun e => Glob.MatchGlob "?" (Key e) = true) (rev (entries al))).
Proof.
  split; [vm_compute; reflexivity|].
  apply (audit_faithful [Write 1 "a" "SET" "c" []; On; Write 2 "a" "SET" "c" []; Write 3 "b" "DEL" "d" []; Off;
    Write 4 "a" "DEL" "c" []] 10 5 "a" "?"). lia.
Defined.
End AuditLog.
