(* ===== verification/Clients.v ===== *)
(** * The client list (internal/server/clients.go)

    Connected clients by identifier; [clientIDSeq] is the process-wide counter
    identifiers come from, part of the state here.  Times are arguments. *)
From S2P Require Import Prelude GoLib GoText Store.

Module Clients.
Import Text.

Record ClientInfo := mkClient {
  ID : Z; Addr : string; Name : string; ConnectedAt : Z; LastCmd : string; LastCmdAt : Z; DB : Z; Flags : string
}.

Record ClientManager := mkManager { clients : gmap Z ClientInfo; clientIDSeq : Z }.

Definition NewClientManager : ClientManager := mkManager ∅ 0.

Definition Register (now : Z) (addr : string) (cm : ClientManager) : Z * ClientManager :=
  let id := wrapu64 (clientIDSeq cm + 1) in
  (id, mkManager (<[id := mkClient id addr "" now "" Store.zeroTime 0 "N"]> (clients cm)) id).

Definition Unregister (id : Z) (cm : ClientManager) : ClientManager :=
  mkManager (delete id (clients cm)) (clientIDSeq cm).

Definition SetName (id : Z) (name : string) (cm : ClientManager) : ClientManager :=
  mkManager (alter (fun c => mkClient (ID c) (Addr c) name (ConnectedAt c) (LastCmd c) (LastCmdAt c) (DB c) (Flags c))
               id (clients cm)) (clientIDSeq cm).

Definition GetName (id : Z) (cm : ClientManager) : string :=
  match clients cm !! id with Some c => Name c | None => "" end.

Definition RecordCommand (now id : Z) (cmd : string) (cm : ClientManager) : ClientManager :=
  mkManager (alter (fun c => mkClient (ID c) (Addr c) (Name c) (ConnectedAt c) cmd now (DB c) (Flags c))
               id (clients cm)) (clientIDSeq cm).

Definition id_le (a b : ClientInfo) : Prop := ID a <= ID b.
#[export] Instance id_le_dec : RelDecision id_le.
Proof. intros a b. unfold id_le. apply _. Defined.
#[export] Instance id_le_total : Total id_le.
Proof. intros a b. unfold id_le. lia. Qed.
#[export] Instance id_le_trans : Transitive id_le.
Proof. intros a b c. unfold id_le. lia. Qed.

Definition List_ (cm : ClientManager) : list ClientInfo := merge_sort id_le (map_to_list (clients cm)).*2.

Definition Count (cm : ClientManager) : Z := zlen (map_to_list (clients cm)).

Definition Kill (id : Z) (cm : ClientManager) : bool * ClientManager :=
  match clients cm !! id with
  | Some _ => (true, mkManager (delete id (clients cm)) (clientIDSeq cm))
  | None => (false, cm)
  end.

(** One line of CLIENT LIST. *)
Definition format_client (now : Z) (c : ClientInfo) : string :=
  let seconds t := FormatInt (Z.quot (Store.time_sub now t) (10 ^ 9)) in
  let idle := if Store.IsZero (LastCmdAt c) then "0"%string else seconds (LastCmdAt c) in
  String.concat "" ["id="; FormatInt (ID c); " addr="; Addr c; " name="; Name c; " age="; seconds (ConnectedAt c);
                    " idle="; idle; " flags="; Flags c; " cmd="; LastCmd c; String "010" ""].

Definition FormatList (now : Z) (cm : ClientManager) : string := String.concat "" (format_client now <$> List_ cm).

(** ** Reachable managers *)

Inductive event :=
| Connect (now : Z) (addr : string)
| Leave (id : Z)
| Rename_ (id : Z) (name : string)
| Ran (now id : Z) (cmd : string)
| Killed (id : Z).

Definition step (e : event) (cm : ClientManager) : ClientManager :=
  match e with
  | Connect now addr => (Register now addr cm).2
  | Leave id => Unregister id cm
  | Rename_ id name => SetName id name cm
  | Ran now id cmd => RecordCommand now id cmd cm
  | Killed id => (Kill id cm).2
  end.

Definition run (evs : list event) (cm : ClientManager) : ClientManager := fold_left (fun cm e => step e cm) evs cm.

Definition is_connect (e : event) : bool := match e with Connect _ _ => true | _ => false end.
Definition connects (evs : list event) : Z := zlen (filter (fun e => is_connect e = true) evs).

Lemma connects_one e : connects [e] = if is_connect e then 1 else 0.
Proof. by destruct e. Qed.

Lemma connects_nonneg evs : 0 <= connects evs.
Proof. apply zlen_nonneg. Qed.

Definition wf (cm : ClientManager) : Prop :=
  0 <= clientIDSeq cm /\ map_Forall (fun id c => ID c = id /\ 1 <= id <= clientIDSeq cm) (clients cm).

Lemma wf_alter f id cm : (forall c, ID (f c) = ID c) -> wf cm -> wf (mkManager (alter f id (clients cm)) (clientIDSeq cm)).
Proof.
  intros Hf [H0 H]. split; [done|]. intros k c Hk. cbn in *. apply lookup_alter_Some in Hk as [(-> & c' & Hc & ->)|[_ Hk]].
  - rewrite Hf. by apply (H k).
  - by apply (H k).
Qed.

Lemma wf_delete id cm : wf cm -> wf (mkManager (delete id (clients cm)) (clientIDSeq cm)).
Proof. intros [H0 H]. split; [done|]. by apply map_Forall_delete. Qed.

Lemma client_step_wf e cm : wf cm -> clientIDSeq cm + 1 < 2 ^ 64 ->
  wf (step e cm) /\ clientIDSeq (step e cm) = clientIDSeq cm + connects [e].
Proof.
  intros Hw Hs. rewrite connects_one. destruct e as [now addr|id|id name|now id cmd|id]; cbn [step is_connect].
  - pose proof Hw as [H0 H]. unfold Register, wrapu64. cbn [snd]. rewrite Z.mod_small by lia. split; [|done].
    split; cbn [clientIDSeq clients]; [lia|]. apply map_Forall_insert_2; [cbn; lia|].
    eapply map_Forall_impl; [exact H|]. cbn. intros k c [H1 H2]. split; [done|lia].
  - split; [by apply wf_delete|cbn; lia].
  - split; [by apply wf_alter|cbn; lia].
  - split; [by apply wf_alter|cbn; lia].
  - unfold Kill. destruct (clients cm !! id); cbn; (split; [|lia]); [by apply wf_delete|done].
Qed.

Lemma connects_cons e evs : connects (e :: evs) = connects [e] + connects evs.
Proof. rewrite connects_one. unfold connects. rewrite filter_cons. destruct e; cbn [is_connect]; case_decide; try done; rewrite ?zlen_cons; lia. Qed.

Lemma run_wf evs cm : wf cm -> clientIDSeq cm + connects evs < 2 ^ 64 ->
  wf (run evs cm) /\ clientIDSeq (run evs cm) = clientIDSeq cm + connects evs.
Proof.
  revert cm. induction evs as [|e evs IH]; intros cm Hw Hs; [split; [done|unfold connects, zlen; cbn; lia]|].
  rewrite connects_cons in *. assert (0 <= connects evs) by apply zlen_nonneg.
  assert (0 <= connects [e]) by apply zlen_nonneg. cbn [run fold_left].
  destruct (decide (connects [e] = 0)) as [E|E].
  - assert (wf (step e cm) /\ clientIDSeq (step e cm) = clientIDSeq cm) as [H1 H2].
    { rewrite connects_one in E. destruct e as [now addr|id|id name|now id cmd|id]; cbn [step is_connect] in *; [done|..].
      - split; [by apply wf_delete|done].
      - split; [by apply wf_alter|done].
      - split; [by apply wf_alter|done].
      - unfold Kill. destruct (clients cm !! id); [split; [by apply wf_delete|done]|done]. }
    destruct (IH (step e cm)) as [H3 H4]; [done|lia|]. split; [done|]. unfold run in *. rewrite H4. lia.
  - destruct (client_step_wf e cm) as [H1 H2]; [done|lia|].
    destruct (IH (step e cm)) as [H3 H4]; [done|lia|]. split; [done|]. unfold run in *. rewrite H4. lia.
Qed.

(** Identifiers of clients are never reused.  After any sequence of connections, disconnections, renames,
    commands and kills (fewer than 2 ^ 64 connections), a new client gets an identifier that no listed
    client has and that is larger than every identifier given out before; the client list shows every
    client once, in the order of the identifiers, that is of their connection. *)
Theorem client_ids_fresh evs now addr :
  connects evs + 1 < 2 ^ 64 ->
  let cm := run evs NewClientManager in
  let '(id, cm') := Register now addr cm in
  id = connects evs + 1 /\ clients cm !! id = None /\ (forall k c, clients cm !! k = Some c -> k < id) /\
  List_ cm ≡ₚ (map_to_list (clients cm)).*2 /\ StronglySorted id_le (List_ cm) /\ zlen (List_ cm) = Count cm /\
  GetName id cm' = ""%string.
Proof.
  intros Hc cm. destruct (run_wf evs NewClientManager) as [[Hw1 Hw2] Hseq]; [by split|cbn in *; lia|].
  fold cm in Hw1, Hw2, Hseq. unfold Register, wrapu64. cbn [clientIDSeq NewClientManager] in Hseq.
  rewrite Hseq, Z.mod_small by (pose proof (connects_nonneg evs); lia).
  assert (forall k c, clients cm !! k = Some c -> k < 0 + connects evs + 1) as Hlt.
  { intros k c Hk. destruct (Hw2 k c Hk) as [_ Hk2]. lia. }
  split; [lia|]. split; [|split; [done|]].
  { destruct (clients cm !! _) as [c|] eqn:E; [|done]. apply Hlt in E. lia. }
  split; [apply merge_sort_Permutation|]. split; [by apply StronglySorted_merge_sort; apply _|]. split.
  - unfold List_, Count, zlen. rewrite (Permutation_length (merge_sort_Permutation id_le _)), length_fmap. done.
  - unfold GetName. cbn [clients]. by rewrite lookup_insert_eq.
Qed.

Lemma client_ids_fresh_witness :
  let cm := run [Connect 0 "a"; Connect 1 "b"; Leave 1] NewClientManager in
  let '(id, cm') := Register 2 "c" cm in
  id = 3 /\ clients cm !! id = None /\ (forall k c, clients cm !! k = Some c -> k < id) /\
  List_ cm ≡ₚ (map_to_list (clients cm)).*2 /\ StronglySorted id_le (List_ cm) /\ zlen (List_ cm) = Count cm /\
  GetName id cm' = ""%string.
Proof. apply (client_ids_fresh [Connect 0 "a"; Connect 1 "b"; Leave 1] 2 "c"). vm_compute. reflexivity. Defined.
End Clients.
