(* ===== verification/Scripting.v ===== *)
(** * Scripts (internal/server/scripting.go)

    A script is read line by line: the calls of [redis.call] and
    [redis.pcall] are collected with the variable each is assigned to, and one
    return expression is kept; everything else is skipped.  [Execute] runs the
    calls in order through the command interpreter and reads each reply back
    from its wire form.

    The interpreter is a parameter here, over any type of state, so that the
    server can tie the knot: [exec] answers [None] when it does not return
    within its fuel.  [sha1] is the hexadecimal digest of crypto/sha1. *)
From S2P Require Import Prelude GoLib GoText Resp.

Module Scripting.
Import Text Resp.

(** ** Strings *)

Definition HasPrefix (s p : string) : bool := String.prefix p s.
Definition slen (s : string) : Z := Z.of_nat (String.length s).
Definition HasSuffix (s p : string) : bool :=
  (slen p <=? slen s) && (String.substring (String.length s - String.length p) (String.length p) s =? p)%string.

(** [s[a:b]] *)
Definition slice (s : string) (a b : Z) : outcome string :=
  if (0 <=? a) && (a <=? b) && (b <=? slen s) then Ret (String.substring (Z.to_nat a) (Z.to_nat (b - a)) s) else Panic.

(** [s[a:]] for [a] within [s] *)
Definition from (s : string) (a : nat) : string := String.substring a (String.length s - a) s.

(** [strings.TrimRight(s, ";")] *)
Fixpoint trim_semicolons (s : string) : string :=
  match s with
  | EmptyString => ""
  | String c r =>
      match trim_semicolons r with
      | EmptyString => if Ascii.eqb c ";" then "" else String c ""
      | r => String c r
      end
  end.

(** ** The cache *)

Section Cache.
Context (sha1 : string -> string).

Definition ScriptManager : Type := gmap string string.
Definition NewScriptManager : ScriptManager := ∅.
Definition Load (script : string) (sm : ScriptManager) : string * ScriptManager := (sha1 script, <[sha1 script := script]> sm).
Definition Get (sha : string) (sm : ScriptManager) : option string := sm !! sha.
Definition Exists (shas : list string) (sm : ScriptManager) : list bool := (fun sha => bool_decide (is_Some (sm !! sha))) <$> shas.
Definition Flush (sm : ScriptManager) : ScriptManager := ∅.
End Cache.

(** ** Parsing *)

(** [splitScriptArgs]: the loop over the bytes, with the field being read, the
    depth of parentheses and the quote that is open. *)
Fixpoint split_args (s : string) (current : string) (depth : Z) (inQuote : option ascii) : list string :=
  match s with
  | EmptyString => if (current =? "")%string then [] else [current]
  | String ch s =>
      let more := String.append current (String ch "") in
      match inQuote with
      | Some q => split_args s more depth (if Ascii.eqb ch q then None else Some q)
      | None =>
          if Ascii.eqb ch "'" || Ascii.eqb ch (ascii_of_nat 34) then split_args s more depth (Some ch)
          else if Ascii.eqb ch "(" then split_args s more (depth + 1) None
          else if Ascii.eqb ch ")" then split_args s more (depth - 1) None
          else if Ascii.eqb ch "," then
            if depth =? 0 then current :: split_args s "" depth None else split_args s more depth None
          else split_args s more depth None
      end
  end.

Definition splitScriptArgs (s : string) : list string := split_args s "" 0 None.

Definition quoted (part : string) : bool :=
  let dq := String (ascii_of_nat 34) "" in
  (HasPrefix part "'" && HasSuffix part "'") || (HasPrefix part dq && HasSuffix part dq).

(** One argument of a call, without its quotes. *)
Definition unquote (part : string) : outcome string :=
  let part := TrimSpace part in if quoted part then slice part 1 (slen part - 1) else Ret part.

Fixpoint unquote_all (parts : list string) : outcome (list string) :=
  match parts with
  | [] => Ret []
  | p :: parts =>
      match unquote p with
      | Panic => Panic
      | Ret a => match unquote_all parts with Panic => Panic | Ret l => Ret (a :: l) end
      end
  end.

Definition parseRedisCall (expr : string) : outcome (option (list string)) :=
  let expr := trim_semicolons (TrimSpace expr) in
  let call open := slice expr (slen open) (slen expr - 1) in
  let inner := if HasPrefix expr "redis.call(" && HasSuffix expr ")" then Some (call "redis.call("%string)
               else if HasPrefix expr "redis.pcall(" && HasSuffix expr ")" then Some (call "redis.pcall("%string)
               else None in
  match inner with
  | None => Ret None
  | Some Panic => Panic
  | Some (Ret inner) => match unquote_all (splitScriptArgs inner) with Panic => Panic | Ret l => Ret (Some l) end
  end.

Record scriptCall := mkCall { varName : string; args : list string }.

(** What a line adds: a call, a return expression, both or nothing. *)
Definition parse_line (line : string) : outcome (option scriptCall * option string) :=
  let line := TrimSpace line in
  let call_of expr k := match parseRedisCall expr with Panic => Panic | Ret r => Ret (k r) end in
  if (line =? "")%string || HasPrefix line "--" then Ret (None, None)
  else if HasPrefix line "local " then
    let rest := from line 6 in
    match String.index 0 "=" rest with
    | None => Ret (None, None)
    | Some eqIdx =>
        call_of (TrimSpace (from rest (S eqIdx)))
          (fun r => ((fun l => mkCall (TrimSpace (String.substring 0 eqIdx rest)) l) <$> r, None))
    end
  else if HasPrefix line "return " then
    let expr := from line 7 in
    call_of expr (fun r => match r with
                           | Some l => (Some (mkCall "" l), Some "__last__"%string)
                           | None => (None, Some expr)
                           end)
  else call_of line (fun r => (mkCall "" <$> r, None)).

Fixpoint parse_lines (lines : list string) (calls : list scriptCall) (returnExpr : string)
    : outcome (list scriptCall * string) :=
  match lines with
  | [] => Ret (calls, returnExpr)
  | line :: lines =>
      match parse_line line with
      | Panic => Panic
      | Ret (call, ret) => parse_lines lines (calls ++ option_list call) (default returnExpr ret)
      end
  end.

Definition parseSimpleScript (script : string) : outcome (list scriptCall * string) :=
  parse_lines (split_byte LF script) [] "".

(** ** Values *)

Definition valueToString (v : Value) : string :=
  match v_type v with
  | BulkString | SimpleString => v_text v
  | Integer => FormatInt (v_int v)
  | _ => ""
  end.

Definition integer (n : Z) : Value := mkValue Integer "" n [] false.
Definition bulk (s : string) : Value := mkValue BulkString s 0 [] false.

(** [KEYS[n]], [ARGV[n]] *)
Definition indexed (arg : string) (l : list string) : outcome string :=
  match slice arg 5 (slen arg - 1) with
  | Panic => Panic
  | Ret idx =>
      match Atoi idx with
      | (i, None) => Ret (if (1 <=? i) && (i <=? zlen l) then zget l (i - 1) else "")
      | _ => Ret ""%string
      end
  end.

Section Context_.
Context (Keys Args : list string).

(** [resolveArg]: the argument of a wrapper is shorter than the wrapper, so
    the length of the argument bounds the recursion. *)
Fixpoint resolve_arg (fuel : nat) (arg : string) (vars : gmap string Value) : outcome string :=
  let arg := TrimSpace arg in
  if HasPrefix arg "KEYS[" && HasSuffix arg "]" then indexed arg Keys
  else if HasPrefix arg "ARGV[" && HasSuffix arg "]" then indexed arg Args
  else match vars !! arg with
  | Some v => Ret (valueToString v)
  | None =>
      if HasPrefix arg "tostring(" || HasPrefix arg "tonumber(" then
        match slice arg 9 (slen arg - 1) with
        | Panic => Panic
        | Ret inner => match fuel with O => Ret ""%string | S fuel => resolve_arg fuel inner vars end
        end
      else Ret arg
  end.

Definition resolveArg (arg : string) (vars : gmap string Value) : outcome string :=
  resolve_arg (String.length arg) arg vars.

Fixpoint resolveArgs (args : list string) (vars : gmap string Value) : outcome (list string) :=
  match args with
  | [] => Ret []
  | a :: args =>
      match resolveArg a vars with
      | Panic => Panic
      | Ret x => match resolveArgs args vars with Panic => Panic | Ret l => Ret (x :: l) end
      end
  end.

(** [None] is the zero [resp.Value], which no reply is. *)
Definition resolveReturn (expr : string) (vars : gmap string Value) (lastResult : option Value) : option Value :=
  let expr := TrimSpace expr in
  if (expr =? "__last__")%string then lastResult
  else match vars !! expr with
  | Some v => Some v
  | None => match ParseInt expr with (n, None) => Some (integer n) | _ => Some (bulk expr) end
  end.

(** ** Execution *)

Section Run.
Context {St : Type} (exec : list string -> St -> option (outcome (option string * St * string))).

(** How a script ends: with a value or with an error. *)
Inductive script_error := EmptyCall | BadReply (e : read_error).

Definition execRedisCall (args : list string) (st : St) : option (outcome ((script_error + Value) * St)) :=
  match args with
  | [] => Some (Ret (inl EmptyCall, st))
  | _ =>
      match exec args st with
      | None => None
      | Some Panic => Some Panic
      | Some (Ret (Some text, st, _)) => Some (Ret (inr (mkValue ErrorString text 0 [] false), st))
      | Some (Ret (None, st, out)) =>
          match ReadValue (2 * String.length out + 1) out with
          | None => None
          | Some Panic => Some Panic
          | Some (Ret (RErr e)) => Some (Ret (inl (BadReply e), st))
          | Some (Ret (ROk v _)) => Some (Ret (inr v, st))
          end
      end
  end.

Fixpoint run_calls (calls : list scriptCall) (vars : gmap string Value) (lastResult : option Value) (st : St)
    : option (outcome ((script_error + gmap string Value * option Value) * St)) :=
  match calls with
  | [] => Some (Ret (inr (vars, lastResult), st))
  | c :: calls =>
      match resolveArgs (args c) vars with
      | Panic => Some Panic
      | Ret l =>
          match execRedisCall l st with
          | None => None
          | Some Panic => Some Panic
          | Some (Ret (inl e, st)) => Some (Ret (inl e, st))
          | Some (Ret (inr v, st)) =>
              run_calls calls (if (varName c =? "")%string then vars else <[varName c := v]> vars) (Some v) st
          end
      end
  end.

Definition Execute (script : string) (st : St) : option (outcome ((script_error + option Value) * St)) :=
  match parseSimpleScript script with
  | Panic => Some Panic
  | Ret (calls, returnExpr) =>
      match run_calls calls ∅ None st with
      | None => None
      | Some Panic => Some Panic
      | Some (Ret (inl e, st)) => Some (Ret (inl e, st))
      | Some (Ret (inr (vars, lastResult), st)) =>
          Some (Ret (inr (if (returnExpr =? "")%string then Some (mkValue SimpleString "OK" 0 [] false)
                          else resolveReturn returnExpr vars lastResult), st))
      end
  end.
End Run.
End Context_.

(** ** Trimming *)

(** A byte that ends a space nowhere. *)
Definition solid (c : ascii) : bool := (32 <? nat_of_ascii c)%nat && (nat_of_ascii c <? 128)%nat.


Definition high (c : ascii) : Prop := (128 <= nat_of_ascii c)%nat.

(** The bytes of a space: one byte, or a first byte and high bytes after it. *)
Lemma space_width_bytes a s w :
  space_width (String a s) = S w ->
  solid a = false /\ match w with
                     | O => True
                     | S O => exists b r, s = String b r /\ high b
                     | _ => w = 2%nat /\ exists b c r, s = String b (String c r) /\ high b /\ high c
                     end.
Proof.
  unfold space_width, solid, high. set (x := nat_of_ascii a).
  destruct (((9 <=? x)%nat && (x <=? 13)%nat) || (x =? 32)%nat) eqn:E1.
  { intros [= <-]. split; [|done]. rewrite andb_false_iff, !Nat.ltb_ge.
    rewrite orb_true_iff, andb_true_iff, !Nat.leb_le, Nat.eqb_eq in E1. lia. }
  destruct s as [|b s]; [done|]. set (y := nat_of_ascii b).
  destruct ((x =? 194)%nat && ((y =? 133)%nat || (y =? 160)%nat)) eqn:E2.
  { intros [= <-]. rewrite andb_true_iff, orb_true_iff, !Nat.eqb_eq in E2. split; [|exists b, s; split; [done|lia]].
    rewrite andb_false_iff, !Nat.ltb_ge. lia. }
  destruct s as [|c s]; [done|]. set (z := nat_of_ascii c).
  case_match eqn:E3; [|done]. intros [= <-].
  rewrite !orb_true_iff, !andb_true_iff, !orb_true_iff, !andb_true_iff, !Nat.leb_le, !Nat.eqb_eq in E3.
  split; [rewrite andb_false_iff, !Nat.ltb_ge; lia|]. split; [done|]. exists b, c, s. split; [done|lia].
Qed.

Lemma solid_not_high c : solid c = true -> ~ high c.
Proof. unfold solid, high. rewrite andb_true_iff, !Nat.ltb_lt. lia. Qed.

Lemma solid_all_space c s : solid c = true -> all_space 0 (s ^^ String c "") = false.
Proof.
  intros Hc. pose proof (solid_not_high c Hc) as Hh. remember (String.length s) as n eqn:Hn. revert s Hn.
  induction n as [n IH] using lt_wf_ind. intros s Hn.
  destruct s as [|a s]; [change ("" ^^ String c "") with (String c "")|change (String a s ^^ String c "") with (String a (s ^^ String c ""))];
    cbn [all_space].
  - destruct (space_width (String c "")) as [|w] eqn:E; [done|]. apply space_width_bytes in E as [E _]. congruence.
  - destruct (space_width (String a (s ^^ String c ""))) as [|w] eqn:E; [done|]. apply space_width_bytes in E as [_ E].
    cbn in Hn. destruct w as [|[|w]].
    + apply (IH (String.length s)); lia.
    + destruct E as (b & r & Es & Hb). destruct s as [|b' s]; cbn in Es; injection Es as <- _; [done|].
      cbn [cat String.append all_space]. apply (IH (String.length s)); cbn in Hn; lia.
    + destruct E as (Ew & b & d & r & Es & Hb & Hd). injection Ew as ->.
      destruct s as [|b' [|d' s]]; cbn in Es; [injection Es as <- _; done|injection Es as <- <- _; done|].
      cbn [cat String.append all_space]. apply (IH (String.length s)); cbn in Hn; lia.
Qed.

Lemma trim_right_solid c s : solid c = true -> trim_right (s ^^ String c "") = s ^^ String c "".
Proof.
  intros Hc. pose proof (fun s => solid_all_space c s Hc) as Ha. induction s as [|a s IH].
  - change ("" ^^ String c "") with (String c ""). specialize (Ha ""%string). change ("" ^^ String c "") with (String c "") in Ha.
    unfold trim_right. by rewrite Ha.
  - specialize (Ha (String a s)). change (String a s ^^ String c "") with (String a (s ^^ String c "")) in *.
    cbn [trim_right]. by rewrite Ha, IH.
Qed.

(** Text between two solid bytes is not trimmed. *)
Lemma TrimSpace_solid a s c :
  solid a = true -> solid c = true -> TrimSpace (String a (s ^^ String c "")) = String a (s ^^ String c "").
Proof.
  intros Ha Hc. unfold TrimSpace. cbn [trim_left].
  destruct (space_width _) as [|w] eqn:E.
  - apply (trim_right_solid c (String a s) Hc).
  - apply space_width_bytes in E as [E _]. congruence.
Qed.

(** ** Printing a script *)

Definition squote : ascii := "'".

(** The commands [cmds] one to a line, the last one after [return]. *)
Definition quote_word (a : string) : string := String squote (a ^^ String squote "").

Fixpoint args_text (l : list string) : string :=
  match l with
  | [] => ""
  | a :: l => match l with [] => quote_word a | _ => quote_word a ^^ String "," (args_text l) end
  end.

Definition line_of (l : list string) : string := "redis.call(" ^^ args_text l ^^ ")".

Definition script_of (cmds : list (list string)) (last : list string) : string :=
  foldr (fun l rest => line_of l ^^ String LF rest) ("return " ^^ line_of last) cmds.

(** A word that stands for itself: no quote, no line break, and neither a reference nor a wrapper. *)
Definition plain_word (a : string) : bool :=
  negb (has_byte squote a) && negb (has_byte LF a) && (TrimSpace a =? a)%string
  && negb (HasPrefix a "KEYS[") && negb (HasPrefix a "ARGV[")
  && negb (HasPrefix a "tostring(") && negb (HasPrefix a "tonumber(").

Lemma substring_mid x y z : String.substring (String.length x) (String.length y) (x ^^ y ^^ z) = y.
Proof. induction x as [|a x IH]; [exact (substring_cat y z)|exact IH]. Qed.

Lemma prefix_cat p x : HasPrefix (p ^^ x) p = true.
Proof.
  unfold HasPrefix. induction p as [|a p IH]; [by destruct x|]. change (String a p ^^ x) with (String a (p ^^ x)).
  cbn [String.prefix]. by destruct (ascii_dec a a).
Qed.

Lemma suffix_cat x y : HasSuffix (x ^^ y) y = true.
Proof.
  unfold HasSuffix, slen. rewrite length_cat. apply andb_true_iff. split; [apply Z.leb_le; lia|].
  replace (String.length x + String.length y - String.length y)%nat with (String.length x) by lia.
  pose proof (substring_mid x y "") as H. rewrite <-cat_assoc, cat_nil_r in H. rewrite H. apply String.eqb_refl.
Qed.

Lemma slice_mid x y z : slice (x ^^ y ^^ z) (slen x) (slen (x ^^ y ^^ z) - slen z) = Ret y.
Proof.
  unfold slice, slen. rewrite !length_cat. set (a := String.length x). set (b := String.length y). set (c := String.length z).
  assert ((0 <=? Z.of_nat a) && (Z.of_nat a <=? Z.of_nat (a + (b + c)) - Z.of_nat c)
    && (Z.of_nat (a + (b + c)) - Z.of_nat c <=? Z.of_nat (a + (b + c))) = true) as ->.
  { rewrite !andb_true_iff, !Z.leb_le. lia. }
  f_equal.
  replace (Z.to_nat (Z.of_nat a)) with a by lia. replace (Z.to_nat (Z.of_nat (a + (b + c)) - Z.of_nat c - Z.of_nat a)) with b by lia. apply substring_mid.
Qed.

Lemma unquote_word a : unquote (quote_word a) = Ret a.
Proof.
  unfold unquote, quote_word. rewrite TrimSpace_solid by done.
  pose proof (suffix_cat (String squote a) (String squote "")) as Hs. change (String squote a ^^ String squote "") with
    (String squote (a ^^ String squote "")) in Hs.
  unfold quoted. change "'"%string with (String squote ""). rewrite Hs.
  assert (HasPrefix (String squote (a ^^ String squote "")) (String squote "") = true) as ->.
  { unfold HasPrefix. cbn [String.prefix]. by destruct (a ^^ String squote ""). }
  cbn [andb orb].
  apply (slice_mid (String squote "") a (String squote "")).
Qed.

Lemma split_in_quote a r cur d :
  has_byte squote a = false ->
  split_args (a ^^ String squote r) cur d (Some squote) = split_args r (cur ^^ a ^^ String squote "") d None.
Proof.
  revert cur. induction a as [|c a IH]; intros cur Ha.
  - change ("" ^^ String squote r) with (String squote r). cbn [split_args]. by rewrite Ascii.eqb_refl.
  - cbn [has_byte] in Ha. apply orb_false_iff in Ha as [Hc Ha].
    change (String c a ^^ String squote r) with (String c (a ^^ String squote r)). cbn [split_args]. rewrite Hc, IH by done.
    f_equal. change (String.append cur (String c "")) with (cur ^^ String c ""). by rewrite cat_assoc.
Qed.

Lemma split_quoted a r :
  has_byte squote a = false -> split_args (quote_word a ^^ r) "" 0 None = split_args r (quote_word a) 0 None.
Proof.
  intros Ha. unfold quote_word. change (String squote (a ^^ String squote "") ^^ r) with
    (String squote ((a ^^ String squote "") ^^ r)). cbn [split_args]. rewrite Ascii.eqb_refl. cbn [orb].
  rewrite cat_assoc. change (String squote "" ^^ r) with (String squote r). by rewrite split_in_quote.
Qed.

Lemma split_args_text l :
  Forall (fun a => has_byte squote a = false) l -> splitScriptArgs (args_text l) = quote_word <$> l.
Proof.
  unfold splitScriptArgs. induction 1 as [|a l Ha Hl IH]; [done|]. cbn [args_text fmap list_fmap].
  destruct l as [|b l].
  - rewrite <-(cat_nil_r (quote_word a)), split_quoted by done. by rewrite cat_nil_r.
  - rewrite split_quoted by done. cbn [split_args]. cbn -[args_text quote_word split_args] in IH |- *. by rewrite IH.
Qed.

Lemma unquote_all_words l : unquote_all (quote_word <$> l) = Ret l.
Proof. induction l as [|a l IH]; [done|]. cbn [fmap list_fmap unquote_all]. by rewrite unquote_word, IH. Qed.

Lemma trim_semicolons_end x c : Ascii.eqb c ";" = false -> trim_semicolons (x ^^ String c "") = x ^^ String c "".
Proof.
  intros Hc. induction x as [|a x IH].
  - change ("" ^^ String c "") with (String c ""). cbn [trim_semicolons]. by rewrite Hc.
  - change (String a x ^^ String c "") with (String a (x ^^ String c "")). cbn [trim_semicolons]. rewrite IH.
    by destruct x.
Qed.

Lemma parse_line_of l : Forall (fun a => has_byte squote a = false) l -> parseRedisCall (line_of l) = Ret (Some l).
Proof.
  intros Hl. unfold parseRedisCall, line_of.
  assert (TrimSpace ("redis.call(" ^^ args_text l ^^ ")") = "redis.call(" ^^ args_text l ^^ ")") as ->.
  { rewrite <-cat_assoc. apply (TrimSpace_solid "r" ("edis.call(" ^^ args_text l) ")"); done. }
  assert (trim_semicolons ("redis.call(" ^^ args_text l ^^ ")") = "redis.call(" ^^ args_text l ^^ ")") as ->.
  { rewrite <-cat_assoc. by apply trim_semicolons_end. }
  assert (HasSuffix ("redis.call(" ^^ args_text l ^^ ")") ")" = true) as -> by (rewrite <-cat_assoc; apply suffix_cat).
  assert (HasPrefix ("redis.call(" ^^ args_text l ^^ ")") "redis.call(" = true) as -> by apply prefix_cat. cbn [andb].
  pose proof (slice_mid "redis.call(" (args_text l) ")") as Hs. change (slen ")") with 1 in Hs. rewrite Hs, split_args_text by done. by rewrite unquote_all_words.
Qed.

Lemma parse_call_line l :
  Forall (fun a => has_byte squote a = false) l -> parse_line (line_of l) = Ret (Some (mkCall "" l), None).
Proof.
  intros Hl. unfold parse_line.
  assert (TrimSpace (line_of l) = line_of l) as ->.
  { unfold line_of. rewrite <-cat_assoc. apply (TrimSpace_solid "r" ("edis.call(" ^^ args_text l) ")"); done. }
  rewrite parse_line_of by done. reflexivity.
Qed.

Lemma parse_return_line l :
  Forall (fun a => has_byte squote a = false) l ->
  parse_line ("return " ^^ line_of l) = Ret (Some (mkCall "" l), Some "__last__"%string).
Proof.
  intros Hl. unfold parse_line.
  assert (TrimSpace ("return " ^^ line_of l) = "return " ^^ line_of l) as ->.
  { unfold line_of. rewrite <-!cat_assoc. apply (TrimSpace_solid "r" ("eturn " ^^ "redis.call(" ^^ args_text l) ")"); done. }
  assert (from ("return " ^^ line_of l) 7 = line_of l) as ->.
  { unfold from. rewrite length_cat. pose proof (substring_mid "return " (line_of l) "") as H. rewrite cat_nil_r in H.
    exact H. }
  assert (HasPrefix ("return " ^^ line_of l) "return " = true) as -> by apply prefix_cat.
  rewrite parse_line_of by done. reflexivity.
Qed.

Lemma parse_lines_of cmds last calls ret :
  Forall (Forall (fun a => has_byte squote a = false)) cmds -> Forall (fun a => has_byte squote a = false) last ->
  parse_lines ((line_of <$> cmds) ++ ["return " ^^ line_of last]) calls ret =
  Ret (calls ++ (mkCall "" <$> cmds) ++ [mkCall "" last], "__last__"%string).
Proof.
  intros Hc Hl. revert calls ret. induction Hc as [|c cmds Hc Hcs IH]; intros calls ret; cbn [fmap list_fmap app parse_lines].
  - rewrite parse_return_line by done. done.
  - rewrite parse_call_line by done. cbn [option_list]. by rewrite IH, <-app_assoc.
Qed.

Lemma no_lf_line l : Forall (fun a => has_byte LF a = false) l -> has_byte LF (line_of l) = false.
Proof.
  intros Hl. unfold line_of. rewrite !has_byte_cat. replace (has_byte LF (args_text l)) with false; [done|].
  symmetry. induction Hl as [|a l Ha Hl IH]; [done|]. cbn [args_text].
  assert (has_byte LF (quote_word a) = false) as Hq.
  { unfold quote_word. cbn [has_byte]. by rewrite has_byte_cat, Ha. }
  destruct l as [|b l]; [done|]. rewrite has_byte_cat, Hq. cbn [has_byte orb]. exact IH.
Qed.

Lemma split_script cmds last :
  Forall (Forall (fun a => has_byte LF a = false)) cmds -> Forall (fun a => has_byte LF a = false) last ->
  split_byte LF (script_of cmds last) = (line_of <$> cmds) ++ ["return " ^^ line_of last].
Proof.
  intros Hc Hl. induction Hc as [|c cmds Hc Hcs IH]; cbn [script_of foldr fmap list_fmap app].
  - apply split_byte_whole. by rewrite has_byte_cat, no_lf_line.
  - fold (script_of cmds last). rewrite (split_byte_app LF (line_of c)) by (by apply no_lf_line). by rewrite IH.
Qed.

Lemma plain_word_parts a :
  plain_word a = true ->
  has_byte squote a = false /\ has_byte LF a = false /\ forall K A, resolveArg K A a ∅ = Ret a.
Proof.
  unfold plain_word. rewrite !andb_true_iff, !negb_true_iff, String.eqb_eq. intros ((((((H1 & H2) & H3) & H4) & H5) & H6) & H7).
  do 2 (split; [done|]). intros K A. unfold resolveArg.
  destruct (String.length a); cbn [resolve_arg]; rewrite H3, H4, H5, H6, H7; cbn [andb orb]; by rewrite lookup_empty.
Qed.

Lemma resolve_plain K A l : Forall (fun a => plain_word a = true) l -> resolveArgs K A l ∅ = Ret l.
Proof.
  induction 1 as [|a l Ha Hl IH]; [done|]. cbn [resolveArgs].
  destruct (plain_word_parts a Ha) as (_ & _ & ->). by rewrite IH.
Qed.

Section Sequence.
Context {St : Type} (exec : list string -> St -> option (outcome (option string * St * string))).

(** The commands one after the other; the value is the reply of the last. *)
Fixpoint run_commands (cmds : list (list string)) (last : option Value) (st : St)
    : option (outcome ((script_error + option Value) * St)) :=
  match cmds with
  | [] => Some (Ret (inr last, st))
  | c :: cmds =>
      match execRedisCall exec c st with
      | None => None
      | Some Panic => Some Panic
      | Some (Ret (inl e, st)) => Some (Ret (inl e, st))
      | Some (Ret (inr v, st)) => run_commands cmds (Some v) st
      end
  end.

Lemma run_plain_calls K A cmds last st :
  Forall (Forall (fun a => plain_word a = true)) cmds ->
  run_calls K A exec (mkCall "" <$> cmds) ∅ last st =
  match run_commands cmds last st with
  | None => None
  | Some Panic => Some Panic
  | Some (Ret (inl e, st)) => Some (Ret (inl e, st))
  | Some (Ret (inr v, st)) => Some (Ret (inr (∅, v), st))
  end.
Proof.
  intros Hc. revert last st. induction Hc as [|c cmds Hc Hcs IH]; intros last st; [done|].
  cbn [fmap list_fmap run_calls run_commands args varName]. rewrite resolve_plain by done.
  destruct (execRedisCall exec c st) as [[[[e|v] st']|]|]; [done| |done|done]. cbn [String.eqb]. apply IH.
Qed.

(** A script of plain calls runs its commands one after the other. *)
Lemma execute_plain K A cmds last st :
  Forall (Forall (fun a => plain_word a = true)) (cmds ++ [last]) ->
  Execute K A exec (script_of cmds last) st = run_commands (cmds ++ [last]) None st.
Proof.
  intros H. assert (Forall (Forall (fun a => has_byte squote a = false)) (cmds ++ [last]) /\
    Forall (Forall (fun a => has_byte LF a = false)) (cmds ++ [last])) as [Hq Hn].
  { split; (eapply Forall_impl; [exact H|]; intros l Hl; eapply Forall_impl; [exact Hl|]; intros a Ha;
      by destruct (plain_word_parts a Ha) as (? & ? & _)). }
  apply Forall_app in Hq as [Hq [Hq1 _]%Forall_cons], Hn as [Hn [Hn1 _]%Forall_cons].
  unfold Execute, parseSimpleScript. rewrite split_script, parse_lines_of by done. cbn [app].
  replace ((mkCall "" <$> cmds) ++ [mkCall "" last]) with (mkCall "" <$> (cmds ++ [last])) by (by rewrite fmap_app).
  rewrite run_plain_calls by done.
  by destruct (run_commands (cmds ++ [last]) None st) as [[[[e|v] st']|]|].
Qed.
End Sequence.

(** An interpreter that records the commands and answers OK. *)
Definition recorder (args : list string) (st : list (list string)) : option (outcome (option string * list (list string) * string)) :=
  Some (Ret (None, st ++ [args], Simple "OK")).

(** What a script says is not always what it does.  The branches of a conditional are both executed,
    whatever the condition; a quoted text that reads like a reference or like a variable is replaced;
    and a lone quote or an unclosed wrapper as an argument stops the server with a panic. *)
Theorem script_pitfalls :
  let nl := String LF "" in
  let lock := "if redis.call('GET', KEYS[1]) == ARGV[1] then" ^^ nl ^^ "return redis.call('DEL', KEYS[1])" ^^ nl ^^ "end" in
  Execute ["lock"%string] ["not mine"%string] recorder lock [] =
    Some (Ret (inr (Some (mkValue SimpleString "OK" 0 [] false)), [["DEL"; "lock"]%string])) /\
  Execute ["k"%string] [] recorder "redis.call('SET', 'a', 'KEYS[1]')" [] =
    Some (Ret (inr (Some (mkValue SimpleString "OK" 0 [] false)), [["SET"; "a"; "k"]%string])) /\
  Execute [] [] recorder ("local x = redis.call('GET', 'k')" ^^ nl ^^ "redis.call('SET', 'x', 'x')") [] =
    Some (Ret (inr (Some (mkValue SimpleString "OK" 0 [] false)), [["GET"; "k"]; ["SET"; "OK"; "OK"]]%string)) /\
  Execute [] [] recorder "redis.call(')" [] = Some Panic /\
  Execute [] [] recorder "redis.call('GET', tostring()" [] = Some Panic.
Proof. vm_compute. repeat split. Qed.
End Scripting.
