(* ===== verification/PubSub.v ===== *)
(** * Publish and subscribe (internal/server/pubsub.go)

    A subscription is a Go channel with a buffer of 128 messages: an
    identifier into a heap of buffers, closed or not.  [Publish] copies the
    subscribers under the lock, releases it, and then sends to each, dropping
    the message where the buffer is full; sending on a closed channel panics.
    [Publish] below does both in one step; [publish_begin] and [send] are the
    two steps between which other operations can come. *)
From S2P Require Import Prelude GoLib Glob.

Module PubSub.

Record PSubMessage := mkMsg { Pattern : string; Channel : string; Data : string }.

Record chan (A : Type) := mkChan { buffer : list A; closed : bool }.
Arguments mkChan {A} buffer closed.
Arguments buffer {A} _.
Arguments closed {A} _.

Definition capacity : Z := 128.

(** [subs] and [psubs] of the source, and the two heaps of channels. *)
Record PubSub := mkPubSub {
  subs : gmap string (gset Z);
  psubs : gmap string (gset Z);
  chans : gmap Z (chan string);
  pchans : gmap Z (chan PSubMessage);
  next_chan : Z
}.

Definition NewPubSub : PubSub := mkPubSub ∅ ∅ ∅ ∅ 0.

(** [m[k][ch] = struct{}{}], making the inner map when it is nil *)
Definition add_to (k : string) (ch : Z) (m : gmap string (gset Z)) : gmap string (gset Z) :=
  <[k := {[ch]} ∪ default ∅ (m !! k)]> m.

(** [delete(m[k], ch)], dropping the inner map when it is empty *)
Definition remove_from (k : string) (ch : Z) (m : gmap string (gset Z)) : gmap string (gset Z) :=
  let s := default ∅ (m !! k) ∖ {[ch]} in
  if decide (s = ∅) then delete k m else <[k := s]> m.

Definition close {A} (ch : Z) (h : gmap Z (chan A)) : outcome (gmap Z (chan A)) :=
  match h !! ch with
  | Some c => if closed c then Panic else Ret (<[ch := mkChan (buffer c) true]> h)
  | None => Panic
  end.

Definition Subscribe (channel : string) (p : PubSub) : Z * PubSub :=
  (next_chan p, mkPubSub (add_to channel (next_chan p) (subs p)) (psubs p) (<[next_chan p := mkChan [] false]> (chans p))
                  (pchans p) (next_chan p + 1)).

Definition Unsubscribe (channel : string) (ch : Z) (p : PubSub) : outcome PubSub :=
  match close ch (chans p) with
  | Panic => Panic
  | Ret h => Ret (mkPubSub (remove_from channel ch (subs p)) (psubs p) h (pchans p) (next_chan p))
  end.

Definition PSubscribe (pattern : string) (p : PubSub) : Z * PubSub :=
  (next_chan p, mkPubSub (subs p) (add_to pattern (next_chan p) (psubs p)) (chans p)
                  (<[next_chan p := mkChan [] false]> (pchans p)) (next_chan p + 1)).

Definition PUnsubscribe (pattern : string) (ch : Z) (p : PubSub) : outcome PubSub :=
  match close ch (pchans p) with
  | Panic => Panic
  | Ret h => Ret (mkPubSub (subs p) (remove_from pattern ch (psubs p)) (chans p) h (next_chan p))
  end.

(** The subscribers copied under the lock; [order] and [porder] are the orders
    in which Go meets them. *)
Definition direct_subs (channel : string) (p : PubSub) : gset Z := default ∅ (subs p !! channel).

Definition pattern_subs (channel : string) (p : PubSub) : list (Z * string) :=
  map_to_list (psubs p) ≫= fun x : string * gset Z =>
    if Glob.MatchGlob x.1 channel then (fun ch => (ch, x.1)) <$> elements x.2 else [].

(** [select { case ch <- msg: n++ default: }] *)
Definition send {A} (ch : Z) (msg : A) (h : gmap Z (chan A)) : outcome (Z * gmap Z (chan A)) :=
  match h !! ch with
  | None => Panic
  | Some c =>
      if closed c then Panic
      else if zlen (buffer c) <? capacity then Ret (1, <[ch := mkChan (buffer c ++ [msg]) false]> h) else Ret (0, h)
  end.

Fixpoint send_all {A} (sends : list (Z * A)) (n : Z) (h : gmap Z (chan A)) : outcome (Z * gmap Z (chan A)) :=
  match sends with
  | [] => Ret (n, h)
  | (ch, msg) :: sends =>
      match send ch msg h with Panic => Panic | Ret (d, h) => send_all sends (n + d) h end
  end.

Definition publish_begin (channel message : string) (order : list Z) (porder : list (Z * string))
    : list (Z * string) * list (Z * PSubMessage) :=
  ((fun ch => (ch, message)) <$> order, (fun x => (x.1, mkMsg x.2 channel message)) <$> porder).

Definition publish_finish (sends : list (Z * string)) (psends : list (Z * PSubMessage)) (p : PubSub) : outcome (Z * PubSub) :=
  match send_all sends 0 (chans p) with
  | Panic => Panic
  | Ret (n, h) =>
      match send_all psends n (pchans p) with
      | Panic => Panic
      | Ret (n, ph) => Ret (n, mkPubSub (subs p) (psubs p) h ph (next_chan p))
      end
  end.

Definition Publish (channel message : string) (order : list Z) (porder : list (Z * string)) (p : PubSub)
    : outcome (Z * PubSub) :=
  let '(sends, psends) := publish_begin channel message order porder in publish_finish sends psends p.

(** A subscriber takes the first message of its channel. *)
Definition receive {A} (ch : Z) (h : gmap Z (chan A)) : option A * gmap Z (chan A) :=
  match h !! ch with
  | Some c => match buffer c with
              | [] => (None, h)
              | m :: l => (Some m, <[ch := mkChan l (closed c)]> h)
              end
  | None => (None, h)
  end.

Definition receive_direct (ch : Z) (p : PubSub) : option string * PubSub :=
  let '(m, h) := receive ch (chans p) in (m, mkPubSub (subs p) (psubs p) h (pchans p) (next_chan p)).
Definition receive_pattern (ch : Z) (p : PubSub) : option PSubMessage * PubSub :=
  let '(m, h) := receive ch (pchans p) in (m, mkPubSub (subs p) (psubs p) (chans p) h (next_chan p)).

(** ** Well-formed subscriptions

    One map from names to channels and the heap those channels live in; the
    direct and the pattern subscriptions are two instances. *)

Section Side.
Context {A : Type}.
Implicit Types (m : gmap string (gset Z)) (h : gmap Z (chan A)).

Definition members m (k : string) : gset Z := default ∅ (m !! k).

Definition is_open h (ch : Z) : Prop := exists c, h !! ch = Some c /\ closed c = false.

Record side_wf m h (next : Z) : Prop := {
  side_open k ch : ch ∈ members m k -> is_open h ch;
  side_once k k' ch : ch ∈ members m k -> ch ∈ members m k' -> k = k';
  side_some k : m !! k <> Some ∅;
  side_heap ch c : h !! ch = Some c -> ch < next /\ zlen (buffer c) <= capacity
}.

Lemma members_add m k ch k' : members (add_to k ch m) k' = if decide (k' = k) then {[ch]} ∪ members m k else members m k'.
Proof. unfold members, add_to. case_decide; subst; [by rewrite lookup_insert_eq|by rewrite lookup_insert_ne by congruence]. Qed.

Lemma members_remove m k ch k' :
  members (remove_from k ch m) k' = if decide (k' = k) then members m k ∖ {[ch]} else members m k'.
Proof.
  unfold remove_from. fold (members m k). destruct (decide (members m k ∖ {[ch]} = ∅)) as [E|E]; unfold members at 1.
  - case_decide; subst; [by rewrite lookup_delete_eq, E|by rewrite lookup_delete_ne by congruence].
  - case_decide; subst; [by rewrite lookup_insert_eq|by rewrite lookup_insert_ne by congruence].
Qed.

Lemma side_wf_empty next : side_wf ∅ (∅ : gmap Z (chan A)) next.
Proof. split; unfold members; intros *; rewrite ?lookup_empty; cbn; set_solver. Qed.

Lemma side_wf_later m h next next' : next <= next' -> side_wf m h next -> side_wf m h next'.
Proof. intros Hn [H1 H2 H3 H4]. split; [done..|]. intros ch c Hc. destruct (H4 ch c Hc). lia. Qed.

(** A channel that does not exist yet has no subscription. *)
Lemma side_fresh m h next k ch : side_wf m h next -> next <= ch -> ch ∉ members m k.
Proof.
  intros Hw Hch Hin. destruct (side_open _ _ _ Hw k ch Hin) as (c & Hc & _). destruct (side_heap _ _ _ Hw ch c Hc). lia.
Qed.

Lemma side_wf_subscribe m h next k :
  side_wf m h next -> side_wf (add_to k next m) (<[next := mkChan [] false]> h) (next + 1).
Proof.
  intros Hw. assert (forall k, next ∉ members m k) as Hf by (intros k'; by eapply side_fresh).
  split.
  - intros k' ch. rewrite members_add. intros Hin. destruct (decide (ch = next)) as [->|Hne].
    + eexists. by rewrite lookup_insert_eq.
    + unfold is_open. rewrite lookup_insert_ne by done. apply (side_open _ _ _ Hw (if decide (k' = k) then k else k')).
      case_decide; set_solver.
  - intros k1 k2 ch. rewrite !members_add. pose proof (side_once _ _ _ Hw). repeat case_decide; set_solver.
  - intros k'. unfold add_to. destruct (decide (k' = k)) as [->|].
    + rewrite lookup_insert_eq. intros [=]. set_solver.
    + rewrite lookup_insert_ne by done. apply (side_some _ _ _ Hw).
  - intros ch c. destruct (decide (ch = next)) as [->|].
    + rewrite lookup_insert_eq. intros [= <-]. cbn. unfold capacity, zlen. cbn. lia.
    + rewrite lookup_insert_ne by done. intros Hc. destruct (side_heap _ _ _ Hw ch c Hc). lia.
Qed.

Lemma side_wf_unsubscribe m h next k ch :
  side_wf m h next -> ch ∈ members m k -> exists h', close ch h = Ret h' /\ side_wf (remove_from k ch m) h' next.
Proof.
  intros Hw Hin. destruct (side_open _ _ _ Hw k ch Hin) as (c & Hc & Hop). unfold close. rewrite Hc, Hop.
  eexists. split; [done|].
  assert (forall k' ch', ch' ∈ members (remove_from k ch m) k' -> ch' ∈ members m k' /\ ch' <> ch) as Hsub.
  { intros k' ch'. rewrite members_remove. case_decide as Hd; [subst; set_solver|]. intros Hin'. split; [done|].
    intros ->. by apply Hd, (side_once _ _ _ Hw k' k ch). }
  split.
  - intros k' ch' [Hin' Hne]%Hsub. unfold is_open. rewrite lookup_insert_ne by done. by apply (side_open _ _ _ Hw k').
  - intros k1 k2 ch' [H1 _]%Hsub [H2 _]%Hsub. by apply (side_once _ _ _ Hw _ _ ch').
  - intros k'. unfold remove_from. fold (members m k). case_decide as E.
    + destruct (decide (k' = k)) as [->|]; [by rewrite lookup_delete_eq|].
      rewrite lookup_delete_ne by done. apply (side_some _ _ _ Hw).
    + destruct (decide (k' = k)) as [->|]; [rewrite lookup_insert_eq; congruence|].
      rewrite lookup_insert_ne by done. apply (side_some _ _ _ Hw).
  - intros ch' c'. destruct (decide (ch' = ch)) as [->|].
    + rewrite lookup_insert_eq. intros [= <-]. by apply (side_heap _ _ _ Hw ch c).
    + rewrite lookup_insert_ne by done. apply (side_heap _ _ _ Hw).
Qed.

(** What one send does to a buffer. *)
Definition offered (msgs : list A) (c : chan A) : chan A :=
  mkChan (buffer c ++ if zlen (buffer c) <? capacity then msgs else []) (closed c).

(** The message sent to [ch], if any. *)
Definition sent (sends : list (Z * A)) (ch : Z) : list A := (filter (fun x => x.1 = ch) sends).*2.

Definition roomy h (ch : Z) : bool :=
  match h !! ch with Some c => zlen (buffer c) <? capacity | None => false end.

Lemma send_open ch msg h c :
  h !! ch = Some c -> closed c = false ->
  send ch msg h = Ret (Z.b2z (roomy h ch), <[ch := offered [msg] c]> h).
Proof.
  intros Hc Hop. unfold send, roomy, offered. rewrite Hc, Hop. destruct (zlen (buffer c) <? capacity); [done|].
  cbn. rewrite app_nil_r, <-Hop. do 2 f_equal. symmetry. apply insert_id. rewrite Hc. by destruct c.
Qed.

Lemma sent_none sends ch : ch ∉ sends.*1 -> sent sends ch = [].
Proof.
  intros Hn. unfold sent. rewrite filter_none; [done|]. intros x Hx <-. apply Hn, list_elem_of_fmap_2, Hx.
Qed.

Lemma offered_nil c : offered [] c = c.
Proof. unfold offered. destruct c. cbn. case_match; by rewrite app_nil_r. Qed.

Lemma send_all_exact sends n h :
  NoDup sends.*1 -> (forall ch, ch ∈ sends.*1 -> is_open h ch) ->
  exists h', send_all sends n h = Ret (n + zlen (filter (fun x => roomy h x.1 = true) sends), h') /\
    forall ch, h' !! ch = (fun c => offered (sent sends ch) c) <$> (h !! ch).
Proof.
  revert n h. induction sends as [|[ch msg] sends IH]; intros n h Hnd Hop; cbn [send_all].
  - exists h. rewrite filter_nil, zlen_nil, Z.add_0_r. split; [done|]. intros ch. unfold sent. rewrite filter_nil. cbn.
    destruct (h !! ch); cbn; by rewrite ?offered_nil.
  - cbn [fmap list_fmap fst] in Hnd. apply NoDup_cons in Hnd as [Hch Hnd].
    destruct (Hop ch) as (c & Hc & Hcl); [cbn; left|]. rewrite (send_open _ _ _ _ Hc Hcl).
    set (h1 := <[ch := _]> h).
    assert (forall ch', ch' ∈ sends.*1 -> h1 !! ch' = h !! ch') as Hsame.
    { intros ch' Hin. apply lookup_insert_ne. intros ->. done. }
    destruct (IH (n + Z.b2z (roomy h ch)) h1) as (h' & -> & Hh'); [done| |].
    { intros ch' Hin. unfold is_open. rewrite Hsame by done. apply Hop. by right. }
    exists h'. split.
    + do 2 f_equal. rewrite filter_cons. cbn [fst].
      replace (filter (fun x => roomy h1 x.1 = true) sends) with (filter (fun x => roomy h x.1 = true) sends).
      2: { apply filter_iff_in. intros x Hx. unfold roomy. by rewrite Hsame by (by apply list_elem_of_fmap_2). }
      destruct (roomy h ch); cbn [Z.b2z]; case_decide; try done; rewrite ?zlen_cons; lia.
    + intros ch'. rewrite Hh'. unfold h1. destruct (decide (ch' = ch)) as [->|Hne].
      * rewrite lookup_insert_eq, Hc. cbn [fmap option_fmap option_map].
        assert (sent ((ch, msg) :: sends) ch = [msg]) as ->.
        { unfold sent. rewrite filter_cons, decide_True by done. cbn [fmap list_fmap snd]. f_equal.
          by apply sent_none. }
        by rewrite (sent_none sends ch), offered_nil.
      * rewrite lookup_insert_ne by done. unfold sent. by rewrite filter_cons, decide_False by (cbn; congruence).
Qed.

Lemma sent_once sends ch : NoDup sends.*1 -> zlen (sent sends ch) <= 1.
Proof.
  induction sends as [|[c m] sends IH]; intros Hnd; [done|]. apply NoDup_cons in Hnd as [Hc Hnd].
  unfold sent. rewrite filter_cons. case_decide as E; [|by apply IH]. cbn in E. subst. cbn [fmap list_fmap].
  fold (sent sends ch). by rewrite zlen_cons, sent_none.
Qed.

(** The order of the sends does not matter. *)
Lemma sent_perm sends sends' ch : NoDup sends.*1 -> sends ≡ₚ sends' -> sent sends ch = sent sends' ch.
Proof.
  intros Hnd Hp. pose proof (sent_once sends ch Hnd) as Hl.
  assert (sent sends ch ≡ₚ sent sends' ch) as Hs by (unfold sent; by rewrite Hp).
  destruct (sent sends ch) as [|x [|y l]]; [by apply Permutation_nil_l in Hs|by apply Permutation_singleton_l in Hs|].
  rewrite !zlen_cons in Hl. pose proof (zlen_nonneg l). lia.
Qed.

(** Offering messages keeps the subscriptions well formed. *)
Lemma side_wf_offer m h h' next sends :
  side_wf m h next -> NoDup sends.*1 ->
  (forall ch, h' !! ch = (fun c => offered (sent sends ch) c) <$> (h !! ch)) -> side_wf m h' next.
Proof.
  intros Hw Hnd Hh'. split.
  - intros k ch Hin. destruct (side_open _ _ _ Hw k ch Hin) as (c & Hc & Hop). eexists. by rewrite Hh', Hc.
  - apply (side_once _ _ _ Hw).
  - apply (side_some _ _ _ Hw).
  - intros ch c. rewrite Hh'. destruct (h !! ch) as [c0|] eqn:Hc; [|done]. intros [= <-].
    destruct (side_heap _ _ _ Hw ch c0 Hc) as [Hl Hb]. split; [done|]. cbn [offered buffer]. rewrite zlen_app.
    pose proof (sent_once sends ch Hnd). case_match; rewrite ?zlen_nil; lia.
Qed.

Lemma side_wf_receive m h next ch :
  side_wf m h next -> side_wf m (receive ch h).2 next.
Proof.
  intros Hw. unfold receive. destruct (h !! ch) as [c|] eqn:Hc; [|done]. destruct (buffer c) as [|x l] eqn:Hb; [done|].
  cbn [snd]. split.
  - intros k ch' Hin. destruct (side_open _ _ _ Hw k ch' Hin) as (c' & Hc' & Hop). unfold is_open.
    destruct (decide (ch' = ch)) as [->|]; [rewrite lookup_insert_eq|rewrite lookup_insert_ne by done]; eexists; [|done].
    split; [done|]. by simplify_eq.
  - apply (side_once _ _ _ Hw).
  - apply (side_some _ _ _ Hw).
  - intros ch' c'. destruct (decide (ch' = ch)) as [->|].
    + rewrite lookup_insert_eq. intros [= <-]. destruct (side_heap _ _ _ Hw ch c Hc) as [Hl Hz].
      rewrite Hb, zlen_cons in Hz. cbn. lia.
    + rewrite lookup_insert_ne by done. apply (side_heap _ _ _ Hw).
Qed.
End Side.

(** ** Publishing *)

Record wf (p : PubSub) : Prop := {
  wf_direct : side_wf (subs p) (chans p) (next_chan p);
  wf_pattern : side_wf (psubs p) (pchans p) (next_chan p)
}.

Lemma elem_of_pattern_subs channel p ch pat :
  (ch, pat) ∈ pattern_subs channel p <-> ch ∈ members (psubs p) pat /\ Glob.MatchGlob pat channel = true.
Proof.
  unfold pattern_subs, members. rewrite list_elem_of_bind. split.
  - intros ([k s] & Hin & Hx%elem_of_map_to_list). cbn [fst snd] in *. destruct (Glob.MatchGlob k channel) eqn:E; [|set_solver].
    apply list_elem_of_fmap in Hin as (ch' & [= <- <-] & Hch%elem_of_elements). by rewrite Hx.
  - intros [Hin Hm]. destruct (psubs p !! pat) as [s|] eqn:Hs; [|set_solver]. exists (pat, s).
    cbn [fst snd]. rewrite Hm. split; [|by apply elem_of_map_to_list]. apply list_elem_of_fmap. exists ch.
    split; [done|]. by apply elem_of_elements.
Qed.

Lemma pattern_subs_nodup channel p : side_wf (psubs p) (pchans p) (next_chan p) -> NoDup (pattern_subs channel p).*1.
Proof.
  intros Hw. apply NoDup_fmap_fst.
  - intros ch pat1 pat2 [H1 _]%elem_of_pattern_subs [H2 _]%elem_of_pattern_subs. by apply (side_once _ _ _ Hw _ _ ch).
  - unfold pattern_subs. apply NoDup_bind; [| |apply NoDup_map_to_list].
    + intros [k1 s1] [k2 s2] [ch pat] H1 H2 Hx1 Hx2. cbn [fst snd] in *.
      repeat case_match; try set_solver. apply list_elem_of_fmap in Hx1 as (? & [= <- <-] & _), Hx2 as (? & [= <-] & _).
      apply elem_of_map_to_list in H1, H2. congruence.
    + intros [k s] _. cbn. case_match; [|constructor]. apply NoDup_fmap_2; [intros ?? [=]; done|apply NoDup_elements].
Qed.

(** The copies of one message that a publication hands out. *)
Definition copies (channel message : string) (p : PubSub) (ch : Z) : list string :=
  if decide (ch ∈ direct_subs channel p) then [message] else [].
Definition pcopies (channel message : string) (p : PubSub) (ch : Z) : list PSubMessage :=
  (fun x => mkMsg x.2 channel message) <$> filter (fun x => x.1 = ch) (pattern_subs channel p).

Lemma sent_copies channel message p order ch :
  order ≡ₚ elements (direct_subs channel p) ->
  NoDup ((fun ch => (ch, message)) <$> order).*1 /\
  sent ((fun ch => (ch, message)) <$> order) ch = copies channel message p ch.
Proof.
  intros Hp. set (d := direct_subs channel p) in *.
  assert (forall l : list Z, ((fun ch => (ch, message)) <$> l).*1 = l) as Hfst.
  { intros l. rewrite <-list_fmap_compose. apply list_fmap_id. }
  assert (NoDup order) as Hnd by (rewrite Hp; apply NoDup_elements). rewrite Hfst. split; [done|].
  unfold copies. fold d. assert (ch ∈ order <-> ch ∈ d) as Hin by (rewrite Hp; apply elem_of_elements). case_decide as E.
  - apply Hin in E. apply list_elem_of_split in E as (l1 & l2 & ->). apply NoDup_app in Hnd as (_ & Hd & Hnd2).
    apply NoDup_cons in Hnd2 as [Hn2 _]. rewrite fmap_app, fmap_cons. unfold sent. rewrite filter_app, filter_cons.
    rewrite decide_True by done. rewrite fmap_app. cbn [fmap list_fmap snd]. fold (sent ((fun ch => (ch, message)) <$> l1) ch).
    fold (sent ((fun ch => (ch, message)) <$> l2) ch).
    rewrite (sent_none ((fun ch => (ch, message)) <$> l2)) by (by rewrite Hfst).
    rewrite (sent_none ((fun ch => (ch, message)) <$> l1)) by (rewrite Hfst; intros Hx; apply (Hd ch Hx); left). done.
  - apply sent_none. rewrite Hfst. tauto.
Qed.

Lemma sent_pcopies channel message p porder ch :
  wf p -> porder ≡ₚ pattern_subs channel p ->
  NoDup ((fun x : Z * string => (x.1, mkMsg x.2 channel message)) <$> porder).*1 /\
  sent ((fun x : Z * string => (x.1, mkMsg x.2 channel message)) <$> porder) ch = pcopies channel message p ch.
Proof.
  intros [_ Hw] Hp. pose proof (pattern_subs_nodup channel p Hw) as Hnd. set (f := fun x : Z * string => _).
  assert (forall l, (f <$> l).*1 = l.*1) as Hfst by (intros l; by rewrite <-list_fmap_compose).
  assert (NoDup (f <$> porder).*1) as Hnd' by (by rewrite Hfst, Hp). split; [done|].
  rewrite (sent_perm _ (f <$> pattern_subs channel p) ch Hnd') by (by rewrite Hp). clear Hp Hnd Hnd'.
  unfold sent, pcopies. induction (pattern_subs channel p) as [|x l IH]; [done|].
  rewrite fmap_cons, !filter_cons. cbn [f fst].
  case_decide; [|apply IH]. rewrite !fmap_cons. f_equal. apply IH.
Qed.

Lemma pcopies_exact channel message p ch pat :
  wf p -> ch ∈ members (psubs p) pat ->
  pcopies channel message p ch = if Glob.MatchGlob pat channel then [mkMsg pat channel message] else [].
Proof.
  intros [_ Hw] Hin. pose proof (pattern_subs_nodup channel p Hw) as Hnd. unfold pcopies.
  destruct (Glob.MatchGlob pat channel) eqn:E.
  - assert ((ch, pat) ∈ pattern_subs channel p) as Hx by (by apply elem_of_pattern_subs).
    pose proof (sent_once (pattern_subs channel p) ch Hnd) as Hl. unfold sent in Hl. unfold zlen in Hl.
    rewrite length_fmap in Hl.
    assert ((ch, pat) ∈ filter (fun x => x.1 = ch) (pattern_subs channel p)) as Hf by (by apply list_elem_of_filter).
    destruct (filter _ (pattern_subs channel p)) as [|y [|z l]]; [by apply elem_of_nil in Hf| |cbn in Hl; lia].
    apply list_elem_of_singleton in Hf as <-. done.
  - rewrite filter_none; [done|]. intros [ch' pat'] [Hx Hm]%elem_of_pattern_subs. cbn. intros ->.
    assert (pat' = pat) as -> by (by apply (side_once _ _ _ Hw _ _ ch)). congruence.
Qed.

(** [Publish], run without interruption, reaches every subscriber of the channel and of the patterns that
    match it, and nobody else. *)
Lemma publish_exact channel message order porder p :
  wf p -> order ≡ₚ elements (direct_subs channel p) -> porder ≡ₚ pattern_subs channel p ->
  exists n p', Publish channel message order porder p = Ret (n, p') /\ wf p' /\
    subs p' = subs p /\ psubs p' = psubs p /\ next_chan p' = next_chan p /\
    (forall ch, chans p' !! ch = offered (copies channel message p ch) <$> (chans p !! ch)) /\
    (forall ch, pchans p' !! ch = offered (pcopies channel message p ch) <$> (pchans p !! ch)) /\
    n = zlen (filter (fun ch => roomy (chans p) ch = true) (elements (direct_subs channel p))) +
        zlen (filter (fun x => roomy (pchans p) x.1 = true) (pattern_subs channel p)).
Proof.
  intros Hw Ho Hpo. unfold Publish, publish_begin, publish_finish.
  pose proof (fun ch => sent_copies channel message p order ch Ho) as Hs.
  pose proof (fun ch => sent_pcopies channel message p porder ch Hw Hpo) as Hps.
  set (sends := _ <$> order) in *. set (psends := _ <$> porder) in *.
  destruct (send_all_exact sends 0 (chans p)) as (h & -> & Hh); [apply (Hs 0)| |].
  { intros ch Hin. unfold sends in Hin. rewrite <-list_fmap_compose in Hin. apply list_elem_of_fmap in Hin as (x & -> & Hx).
    rewrite Ho in Hx. apply elem_of_elements in Hx. by apply (side_open _ _ _ (wf_direct _ Hw) channel). }
  destruct (send_all_exact psends (0 + zlen (filter (fun x => roomy (chans p) x.1 = true) sends)) (pchans p))
    as (ph & -> & Hph); [apply (Hps 0)| |].
  { intros ch Hin. unfold psends in Hin. rewrite <-list_fmap_compose in Hin. apply list_elem_of_fmap in Hin as ([x y] & -> & Hx).
    rewrite Hpo in Hx. apply elem_of_pattern_subs in Hx as [Hx _]. by apply (side_open _ _ _ (wf_pattern _ Hw) y). }
  eexists _, _. split; [done|]. cbn [subs psubs next_chan chans pchans]. split.
  { split; [exact (side_wf_offer _ _ h _ sends (wf_direct _ Hw) (proj1 (Hs 0)) Hh)
           |exact (side_wf_offer _ _ ph _ psends (wf_pattern _ Hw) (proj1 (Hps 0)) Hph)]. }
  do 3 (split; [done|]). split; [|split].
  - intros ch. rewrite Hh. by rewrite (proj2 (Hs ch)).
  - intros ch. rewrite Hph. by rewrite (proj2 (Hps ch)).
  - unfold sends, psends. rewrite <-Ho, <-Hpo. f_equal; unfold zlen; f_equal.
    + by rewrite filter_map, length_fmap.
    + by rewrite filter_map, length_fmap.
Qed.

(** ** Runs

    The operations as atomic steps.  A subscriber is unsubscribed by the
    connection that subscribed it, once: the side conditions on the two
    unsubscriptions. *)

Inductive label :=
| LSub (channel : string) (ch : Z)
| LUnsub (channel : string) (ch : Z)
| LPSub (pattern : string) (ch : Z)
| LPUnsub (pattern : string) (ch : Z)
| LPub (channel message : string) (n : Z)
| LRecv (ch : Z) (m : string)
| LPRecv (ch : Z) (m : PSubMessage).

Inductive step : PubSub -> label -> PubSub -> Prop :=
| step_sub channel p ch p' : Subscribe channel p = (ch, p') -> step p (LSub channel ch) p'
| step_unsub channel ch p p' :
    ch ∈ members (subs p) channel -> Unsubscribe channel ch p = Ret p' -> step p (LUnsub channel ch) p'
| step_psub pattern p ch p' : PSubscribe pattern p = (ch, p') -> step p (LPSub pattern ch) p'
| step_punsub pattern ch p p' :
    ch ∈ members (psubs p) pattern -> PUnsubscribe pattern ch p = Ret p' -> step p (LPUnsub pattern ch) p'
| step_pub channel message order porder p n p' :
    order ≡ₚ elements (direct_subs channel p) -> porder ≡ₚ pattern_subs channel p ->
    Publish channel message order porder p = Ret (n, p') -> step p (LPub channel message n) p'
| step_recv ch p m p' : receive_direct ch p = (Some m, p') -> step p (LRecv ch m) p'
| step_precv ch p m p' : receive_pattern ch p = (Some m, p') -> step p (LPRecv ch m) p'.

Inductive steps : PubSub -> list label -> PubSub -> Prop :=
| steps_nil p : steps p [] p
| steps_cons p l p1 tr p2 : step p l p1 -> steps p1 tr p2 -> steps p (l :: tr) p2.

Lemma pubsub_step_wf p l p' : wf p -> step p l p' -> wf p'.
Proof.
  intros Hw Hs. destruct Hs as [channel p ch p' H|channel ch p p' Hin H|pattern p ch p' H|pattern ch p p' Hin H
    |channel message order porder p n p' Ho Hpo H|ch p m p' H|ch p m p' H].
  - injection H as <- <-. split; cbn; [apply side_wf_subscribe, Hw|eapply side_wf_later; [|apply Hw]; lia].
  - destruct (side_wf_unsubscribe _ _ _ _ _ (wf_direct _ Hw) Hin) as (h & Hc & Hw').
    unfold Unsubscribe in H. rewrite Hc in H. injection H as <-. split; [done|apply Hw].
  - injection H as <- <-. split; cbn; [eapply side_wf_later; [|apply Hw]; lia|apply side_wf_subscribe, Hw].
  - destruct (side_wf_unsubscribe _ _ _ _ _ (wf_pattern _ Hw) Hin) as (h & Hc & Hw').
    unfold PUnsubscribe in H. rewrite Hc in H. injection H as <-. split; [apply Hw|done].
  - destruct (publish_exact channel message order porder p Hw Ho Hpo) as (n' & p1 & H1 & Hw' & _).
    rewrite H in H1. by injection H1 as <- <-.
  - unfold receive_direct in H. pose proof (side_wf_receive _ _ _ ch (wf_direct _ Hw)) as Hw'.
    destruct (receive ch (chans p)) as [m' h]. injection H as -> <-. split; [done|apply Hw].
  - unfold receive_pattern in H. pose proof (side_wf_receive _ _ _ ch (wf_pattern _ Hw)) as Hw'.
    destruct (receive ch (pchans p)) as [m' h]. injection H as -> <-. split; [apply Hw|done].
Qed.

Lemma steps_wf p tr p' : wf p -> steps p tr p' -> wf p'.
Proof. intros Hw Hs. induction Hs as [|p l p1 tr p2 H Hs IH]; [done|]. by apply IH, (pubsub_step_wf p l). Qed.

Lemma new_pubsub_wf : wf NewPubSub.
Proof. split; apply side_wf_empty. Qed.

(** What a trace publishes on a channel, and what a subscriber takes. *)
Definition published (channel : string) (tr : list label) : list string :=
  omap (fun l => match l with LPub c m _ => if (c =? channel)%string then Some m else None | _ => None end) tr.
Definition received (ch : Z) (tr : list label) : list string :=
  omap (fun l => match l with LRecv c m => if c =? ch then Some m else None | _ => None end) tr.

Lemma received_app ch tr tr' : received ch (tr ++ tr') = received ch tr ++ received ch tr'.
Proof. apply omap_app. Qed.

Lemma steps_app p tr p1 tr' p2 : steps p tr p1 -> steps p1 tr' p2 -> steps p (tr ++ tr') p2.
Proof. induction 1 as [|p l p1 tr p3 H _ IH]; [done|]. intros H2. eapply steps_cons; [exact H|by apply IH]. Qed.

(** A step that does not unsubscribe [ch]: its buffer changes only by what is published and what is taken. *)
Lemma step_buffer p l p' channel ch c :
  wf p -> step p l p' -> ch ∈ members (subs p) channel -> l <> LUnsub channel ch -> chans p !! ch = Some c ->
  ch ∈ members (subs p') channel /\
  exists c', chans p' !! ch = Some c' /\
    received ch [l] ++ buffer c' = buffer c ++ (if zlen (buffer c) <? capacity then published channel [l] else []).
Proof.
  intros Hw Hs Hin Hl Hc. pose proof (wf_direct _ Hw) as Hd.
  assert (ch < next_chan p) as Hlt by (apply (side_heap _ _ _ Hd ch c Hc)).
  destruct Hs as [channel' p ch' p' H|channel' ch' p p' Hin' H|pattern p ch' p' H|pattern ch' p p' Hin' H
    |channel' message order porder p n p' Ho Hpo H|ch' p m p' H|ch' p m p' H]; unfold published, received; cbn [omap list_omap].
  - injection H as <- <-. cbn [subs chans]. split; [rewrite members_add; case_decide; set_solver|].
    exists c. rewrite lookup_insert_ne by lia. split; [done|]. case_match; by rewrite app_nil_r.
  - unfold Unsubscribe in H. destruct (close ch' (chans p)) as [h|] eqn:Eh; [|done]. injection H as <-. cbn [subs chans].
    assert (ch <> ch') as Hne.
    { intros <-. apply Hl. f_equal. by apply (side_once _ _ _ Hd _ _ ch). }
    split; [rewrite members_remove; case_decide; set_solver|].
    exists c. split; [|case_match; by rewrite app_nil_r]. unfold close in Eh. repeat case_match; try done. injection Eh as <-.
    by rewrite lookup_insert_ne.
  - injection H as <- <-. cbn [subs chans]. split; [done|]. exists c. split; [done|]. case_match; by rewrite app_nil_r.
  - unfold PUnsubscribe in H. case_match; [|done]. injection H as <-. cbn. split; [done|]. exists c.
    split; [done|]. case_match; by rewrite app_nil_r.
  - destruct (publish_exact channel' message order porder p Hw Ho Hpo) as (n' & p1 & H1 & _ & Hsub & _ & _ & Hch & _).
    rewrite H in H1. injection H1 as <- <-. rewrite Hsub. split; [done|]. eexists. rewrite Hch, Hc. split; [done|].
    cbn [offered buffer app]. do 2 f_equal. unfold copies, direct_subs. fold (members (subs p) channel').
    destruct (String.eqb_spec channel' channel) as [->|Hne]; [by rewrite decide_True|].
    rewrite decide_False; [done|]. intros Hx. by apply Hne, (side_once _ _ _ Hd _ _ ch).
  - unfold receive_direct, receive in H. destruct (chans p !! ch') as [c'|] eqn:Hc'; [|done].
    destruct (buffer c') as [|m' b] eqn:Hb; [done|]. injection H as <- <-. cbn [subs chans]. split; [done|].
    destruct (Z.eqb_spec ch' ch) as [->|Hne].
    + rewrite Hc in Hc'. injection Hc' as <-. eexists. rewrite lookup_insert_eq. split; [done|]. rewrite Hb.
      cbn. case_match; by rewrite app_nil_r.
    + exists c. rewrite lookup_insert_ne by done. split; [done|]. case_match; by rewrite app_nil_r.
  - unfold receive_pattern in H. destruct (receive ch' (pchans p)) as [m' h]. injection H as -> <-. cbn. split; [done|].
    exists c. split; [done|]. case_match; by rewrite app_nil_r.
Qed.

Lemma published_cons channel l tr : published channel (l :: tr) = published channel [l] ++ published channel tr.
Proof. unfold published. cbn. by case_match. Qed.
Lemma received_cons ch l tr : received ch (l :: tr) = received ch [l] ++ received ch tr.
Proof. unfold received. cbn. by case_match. Qed.

Lemma steps_buffer p tr p' channel ch c :
  wf p -> steps p tr p' -> ch ∈ members (subs p) channel -> LUnsub channel ch ∉ tr -> chans p !! ch = Some c ->
  exists c', chans p' !! ch = Some c' /\
    received ch tr ++ buffer c' `sublist_of` buffer c ++ published channel tr /\
    (zlen (buffer c) + zlen (published channel tr) <= capacity ->
     received ch tr ++ buffer c' = buffer c ++ published channel tr).
Proof.
  intros Hw Hs. revert c. induction Hs as [p|p l p1 tr p2 H Hs IH]; intros c Hin Htr Hc.
  - exists c. rewrite app_nil_r. done.
  - apply not_elem_of_cons in Htr as [Hl Htr].
    destruct (step_buffer p l p1 channel ch c Hw H Hin) as (Hin1 & c1 & Hc1 & Hb); [congruence|done|].
    destruct (IH (pubsub_step_wf _ _ _ Hw H) c1 Hin1 Htr Hc1) as (c' & Hc' & Hsub & Hall). exists c'. split; [done|].
    rewrite published_cons, received_cons, <-!app_assoc. split.
    + etrans; [apply sublist_app; [reflexivity|exact Hsub]|]. rewrite app_assoc, Hb, <-app_assoc. apply sublist_app; [done|].
      case_match; [done|cbn; by apply sublist_inserts_l].
    + rewrite zlen_app. intros Hcap. pose proof (zlen_nonneg (published channel tr)).
      assert (received ch [l] ++ buffer c1 = buffer c ++ published channel [l]) as Hb1.
      { rewrite Hb. case_match eqn:E; [done|]. f_equal. destruct (published channel [l]) as [|x m]; [done|].
        rewrite zlen_cons in Hcap. pose proof (zlen_nonneg m). lia. }
      rewrite Hall; [by rewrite app_assoc, Hb1, <-app_assoc|].
      apply (f_equal zlen) in Hb1. rewrite !zlen_app in Hb1. pose proof (zlen_nonneg (received ch [l])). lia.
Qed.

Lemma steps_member p tr p' channel ch c :
  wf p -> steps p tr p' -> ch ∈ members (subs p) channel -> LUnsub channel ch ∉ tr -> chans p !! ch = Some c ->
  ch ∈ members (subs p') channel.
Proof.
  intros Hw Hs. revert c. induction Hs as [p|p l p1 tr p2 H Hs IH]; intros c Hin Htr Hc; [done|].
  apply not_elem_of_cons in Htr as [Hl Htr].
  destruct (step_buffer _ _ _ _ _ _ Hw H Hin (not_eq_sym Hl) Hc) as [Hin' (c' & Hc' & _)].
  eapply IH; [by eapply pubsub_step_wf|done|done|exact Hc'].
Qed.

(** C25: a publication reaches exactly the subscribers.  From any state the server can reach, PUBLISH run
    without interruption never panics; whatever the order in which the subscribers are met, one copy is
    appended to the buffer of each channel subscribed to by name, one with the pattern to each channel
    subscribed by a matching pattern, except where 128 messages already wait; every other buffer is
    unchanged, and the reply is the number of copies handed out. *)
Theorem publish_delivers tr p channel message order porder :
  steps NewPubSub tr p ->
  order ≡ₚ elements (direct_subs channel p) -> porder ≡ₚ pattern_subs channel p ->
  exists n p', Publish channel message order porder p = Ret (n, p') /\
    subs p' = subs p /\ psubs p' = psubs p /\
    (forall ch, chans p' !! ch = offered (copies channel message p ch) <$> (chans p !! ch)) /\
    (forall ch, pchans p' !! ch = offered (pcopies channel message p ch) <$> (pchans p !! ch)) /\
    (forall ch pat, ch ∈ members (psubs p) pat ->
       pcopies channel message p ch = if Glob.MatchGlob pat channel then [mkMsg pat channel message] else []) /\
    n = zlen (filter (fun ch => roomy (chans p) ch = true) (elements (direct_subs channel p))) +
        zlen (filter (fun x => roomy (pchans p) x.1 = true) (pattern_subs channel p)).
Proof.
  intros Hs Ho Hpo. pose proof (steps_wf _ _ _ new_pubsub_wf Hs) as Hw.
  destruct (publish_exact channel message order porder p Hw Ho Hpo) as (n & p' & H & _ & H1 & H2 & _ & H3 & H4 & H5).
  exists n, p'. do 5 (split; [done|]). split; [|done]. intros ch pat Hin. by apply pcopies_exact.
Qed.

(** Subscribers see messages in order.  While a channel stays subscribed, what its subscriber has taken
    followed by what waits in its buffer is what waited at the start followed by messages published
    on the channel in the order of publication, none twice and none from elsewhere; and when no more
    than 128 of them are outstanding, all of them. *)
Theorem messages_in_order tr0 p tr p' channel ch c :
  steps NewPubSub tr0 p -> steps p tr p' -> ch ∈ members (subs p) channel -> LUnsub channel ch ∉ tr ->
  chans p !! ch = Some c ->
  exists c', chans p' !! ch = Some c' /\
    received ch tr ++ buffer c' `sublist_of` buffer c ++ published channel tr /\
    (zlen (buffer c) + zlen (published channel tr) <= capacity ->
     received ch tr ++ buffer c' = buffer c ++ published channel tr).
Proof. intros H0 Hs Hin Htr Hc. by eapply steps_buffer; [apply (steps_wf _ _ _ new_pubsub_wf H0)|..]. Qed.

(** A subscriber that leaves during a publication brings the server down.  PUBLISH copies the subscribers
    under the lock and sends after releasing it: when the only subscriber is unsubscribed in between, its
    channel is closed and the send panics, although the same calls one after the other are harmless. *)
Theorem publish_race channel message :
  let '(ch, p) := Subscribe channel NewPubSub in
  let '(sends, psends) := publish_begin channel message (elements (direct_subs channel p)) (pattern_subs channel p) in
  exists p', Unsubscribe channel ch p = Ret p' /\ publish_finish sends psends p' = Panic /\
    Publish channel message (elements (direct_subs channel p')) (pattern_subs channel p') p' = Ret (0, p').
Proof.
  cbn -[elements]. unfold direct_subs, add_to. cbn -[elements]. rewrite lookup_insert_eq, lookup_empty. cbn -[elements].
  replace ({[0]} ∪ ∅ : gset Z) with ({[0]} : gset Z) by set_solver. rewrite elements_singleton.
  unfold Unsubscribe, close, remove_from. cbn -[elements]. rewrite !lookup_insert_eq. cbn -[elements].
  rewrite decide_True by set_solver. eexists. split; [done|]. split.
  - unfold publish_finish. cbn [chans send_all]. unfold send. by rewrite lookup_insert_eq.
  - cbn [subs]. rewrite lookup_delete_eq. reflexivity.
Qed.

(** Two subscribers, by name and by pattern, and what they have taken. *)
Definition example_trace : list label := [LSub "news" 0; LPSub "n*" 1; LPub "news" "hello" 2].
Definition example_state : PubSub :=
  match Publish "news" "hello" [0] [(1, "n*"%string)] (PSubscribe "n*" (Subscribe "news" NewPubSub).2).2 with
  | Ret (_, p) => p
  | Panic => NewPubSub
  end.

Lemma example_steps : steps NewPubSub example_trace example_state.
Proof.
  eapply steps_cons; [by constructor|]. eapply steps_cons; [by constructor|]. eapply steps_cons; [|constructor].
  apply (step_pub "news" "hello" [0] [(1, "n*"%string)]); vm_compute; reflexivity.
Qed.

Lemma publish_delivers_witness :
  exists n p', Publish "news" "again" [0] [(1, "n*"%string)] example_state = Ret (n, p') /\ n = 2 /\
    subs p' = subs example_state /\
    (forall ch, chans p' !! ch = offered (copies "news" "again" example_state ch) <$> (chans example_state !! ch)).
Proof.
  destruct (publish_delivers example_trace example_state "news" "again" [0] [(1, "n*"%string)] example_steps)
    as (n & p' & H & H1 & _ & H2 & _ & _ & Hn); [vm_compute; reflexivity..|].
  exists n, p'. split; [done|]. split; [rewrite Hn; vm_compute; reflexivity|done].
Defined.

Lemma messages_in_order_witness :
  let tr := [LPub "news" "again" 2; LRecv 0 "hello"] in
  exists p' c', steps example_state tr p' /\ chans p' !! 0 = Some c' /\
    received 0 tr ++ buffer c' = ["hello"; "again"]%string.
Proof.
  set (tr := [LPub "news" "again" 2; LRecv 0 "hello"]). cbn zeta.
  assert (exists p', steps example_state tr p') as (p' & Hs).
  { eexists. eapply steps_cons; [apply (step_pub "news" "again" [0] [(1, "n*"%string)]); vm_compute; reflexivity|].
    eapply steps_cons; [|constructor]. apply step_recv. vm_compute. reflexivity. }
  destruct (messages_in_order example_trace example_state tr p' "news" 0 (mkChan ["hello"%string] false) example_steps Hs)
    as (c' & Hc & _ & Hall).
  - apply (bool_decide_unpack _). vm_compute. exact I.
  - unfold tr. intros [|[|[]%elem_of_nil]%elem_of_cons]%elem_of_cons; done.
  - vm_compute. reflexivity.
  - exists p', c'. split; [done|]. split; [done|]. rewrite Hall; [reflexivity|]. vm_compute. discriminate.
Defined.
End PubSub.
