(* ===== verification/Webhooks.v ===== *)
(** * Webhooks (internal/server/webhooks.go)

    URLs to call when a key changes, registered under an event and a pattern
    that are joined into one key of the map.  [Fire] meets the map in some
    order and starts a delivery for each URL, up to 64 at a time; the others
    are dropped. *)
From S2P Require Import Prelude GoLib Glob.

Module Webhooks.

(** [hooks], the map of the manager. *)
Definition WebhookManager : Type := gmap string (list string).

Definition NewWebhookManager : WebhookManager := ∅.

Definition hook_key (event pattern : string) : string := String.append event (String ":" pattern).

Definition Register_ (pattern event url : string) (wm : WebhookManager) : WebhookManager :=
  let key := hook_key event pattern in <[key := default [] (wm !! key) ++ [url]]> wm.

(** [append(urls[:i], urls[i+1:]...)] at the first [url] *)
Fixpoint remove_url (url : string) (urls : list string) : list string :=
  match urls with
  | [] => []
  | u :: urls => if (u =? url)%string then urls else u :: remove_url url urls
  end.

Definition Unregister (pattern event url : string) (wm : WebhookManager) : WebhookManager :=
  let key := hook_key event pattern in
  match remove_url url (default [] (wm !! key)) with
  | [] => delete key wm
  | l => <[key := l]> wm
  end.

Definition List_ (wm : WebhookManager) : WebhookManager := wm.

Definition splitWebhookKey (key : string) : string * string :=
  match cut_byte ":" key with Some (a, b) => (a, b) | None => (key, "*"%string) end.

Definition matches (event key hookKey : string) : bool :=
  let '(e, p) := splitWebhookKey hookKey in
  ((e =? event)%string || (e =? "*")%string) && ((p =? "*")%string || Glob.MatchGlob p key).

(** The URLs of the hooks that match, in the order the map is met. *)
Definition urls_for (event key : string) (hooks : list (string * list string)) : list string :=
  concat ((fun h => if matches event key h.1 then h.2 else []) <$> hooks).

Definition capacity : Z := 64.

(** [order] is the order in which the map is met, [busy] the deliveries under
    way: the deliveries started and those dropped. *)
Definition Fire (event key : string) (order : list (string * list string)) (busy : Z) : list string * list string :=
  let urls := urls_for event key order in (ztake (capacity - busy) urls, zdrop (capacity - busy) urls).

(** ** The registrations *)

Record registration := mkReg { event_of : string; pattern_of : string; url_of : string }.

#[export] Instance registration_eq_dec : EqDecision registration.
Proof. solve_decision. Defined.

Inductive op := Reg (r : registration) | Unreg (r : registration).

Definition run_op (o : op) (wm : WebhookManager) : WebhookManager :=
  match o with
  | Reg r => Register_ (pattern_of r) (event_of r) (url_of r) wm
  | Unreg r => Unregister (pattern_of r) (event_of r) (url_of r) wm
  end.
Definition run (ops : list op) (wm : WebhookManager) : WebhookManager := fold_left (fun wm o => run_op o wm) ops wm.

(** The contract: a list of registrations; unregistering takes the oldest equal one away. *)
Fixpoint remove_first (r : registration) (regs : list registration) : list registration :=
  match regs with [] => [] | x :: regs => if decide (x = r) then regs else x :: remove_first r regs end.
Definition spec_op (o : op) (regs : list registration) : list registration :=
  match o with Reg r => regs ++ [r] | Unreg r => remove_first r regs end.
Definition spec (ops : list op) (regs : list registration) : list registration := fold_left (fun l o => spec_op o l) ops regs.

Definition wanted (event key : string) (r : registration) : bool :=
  ((event_of r =? event)%string || (event_of r =? "*")%string)
  && ((pattern_of r =? "*")%string || Glob.MatchGlob (pattern_of r) key).

(** An event that can be told from its pattern. *)
Definition plain_event (r : registration) : Prop := has_byte ":" (event_of r) = false.
Definition plain_op (o : op) : Prop := match o with Reg r => plain_event r | Unreg r => plain_event r end.

Lemma cut_hook_key e p : has_byte ":" e = false -> cut_byte ":" (hook_key e p) = Some (e, p).
Proof.
  unfold hook_key. induction e as [|c e IH]; intros H; [reflexivity|]. cbn [has_byte] in H. apply orb_false_iff in H as [Hc He].
  change (String.append (String c e) (String ":" p)) with (String c (String.append e (String ":" p))). cbn [cut_byte].
  by rewrite Hc, IH.
Qed.

Lemma matches_wanted event key r :
  plain_event r -> matches event key (hook_key (event_of r) (pattern_of r)) = wanted event key r.
Proof. intros H. unfold matches, splitWebhookKey. by rewrite cut_hook_key. Qed.

Definition key_of (r : registration) : string := hook_key (event_of r) (pattern_of r).

Lemma key_of_inj r r' : plain_event r -> plain_event r' -> key_of r = key_of r' -> event_of r = event_of r' /\ pattern_of r = pattern_of r'.
Proof.
  intros H H' E. unfold key_of in E. apply (f_equal (cut_byte ":")) in E. rewrite !cut_hook_key in E by done. by injection E.
Qed.

(** The URLs registered under one key of the map. *)
Definition under (k : string) (regs : list registration) : list string := url_of <$> filter (fun r => key_of r = k) regs.

Definition related (regs : list registration) (wm : WebhookManager) : Prop :=
  Forall plain_event regs /\ forall k, wm !! k = match under k regs with [] => None | l => Some l end.

Lemma related_default regs wm k : related regs wm -> default [] (wm !! k) = under k regs.
Proof. intros [_ H]. rewrite H. by destruct (under k regs). Qed.

Lemma under_remove k r regs :
  plain_event r -> Forall plain_event regs ->
  under k (remove_first r regs) = if decide (k = key_of r) then remove_url (url_of r) (under k regs) else under k regs.
Proof.
  intros Hr Hregs. unfold under. induction Hregs as [|x regs Hx Hregs IH]; [by case_decide|]. cbn [remove_first].
  destruct (decide (x = r)) as [->|Hne].
  - rewrite filter_cons. case_decide as Hk; subst; [rewrite decide_True by done; cbn; by rewrite String.eqb_refl|].
    by rewrite decide_False.
  - rewrite !filter_cons. destruct (decide (key_of x = k)) as [<-|Hk]; [|done]. rewrite !fmap_cons, IH. case_decide as E; [|done].
    cbn [remove_url]. destruct (String.eqb_spec (url_of x) (url_of r)) as [Eu|]; [|done]. exfalso.
    destruct (key_of_inj x r Hx Hr E) as [Ee Ep]. apply Hne. destruct x, r. cbn in *. congruence.
Qed.

Lemma remove_first_plain r regs : Forall plain_event regs -> Forall plain_event (remove_first r regs).
Proof. induction 1 as [|x regs Hx H IH]; cbn; [constructor|]. case_decide; [done|by constructor]. Qed.

Lemma related_op o regs wm : plain_op o -> related regs wm -> related (spec_op o regs) (run_op o wm).
Proof.
  intros Ho Hrel. pose proof Hrel as [Hp Hk]. destruct o as [r|r]; cbn [spec_op run_op plain_op] in *.
  - split; [apply Forall_app; split; [done|by constructor]|]. intros k. unfold Register_, WebhookManager. cbn zeta. fold (key_of r).
    rewrite (related_default regs wm _ Hrel). unfold under. rewrite filter_app, fmap_app, filter_cons, filter_nil.
    destruct (decide (key_of r = k)) as [<-|Hne]; cbn [fmap list_fmap].
    + rewrite lookup_insert_eq. by destruct (url_of <$> filter _ regs).
    + rewrite lookup_insert_ne, app_nil_r by done. apply Hk.
  - split; [by apply remove_first_plain|]. intros k. unfold Unregister, WebhookManager. cbn zeta. fold (key_of r).
    rewrite (related_default regs wm _ Hrel), under_remove by done. case_decide as E; subst.
    + destruct (remove_url (url_of r) (under (key_of r) regs)); [by rewrite lookup_delete_eq|by rewrite lookup_insert_eq].
    + destruct (remove_url (url_of r) (under (key_of r) regs)); [rewrite lookup_delete_ne|rewrite lookup_insert_ne]; done.
Qed.

Lemma related_run ops regs wm : Forall plain_op ops -> related regs wm -> related (spec ops regs) (run ops wm).
Proof.
  intros Ho. revert regs wm. induction Ho as [|o ops Ho Hos IH]; intros regs wm H; [done|].
  unfold spec, run. cbn [fold_left]. by apply IH, related_op.
Qed.

(** ** What fires *)

Lemma urls_for_perm event key l l' : l ≡ₚ l' -> urls_for event key l ≡ₚ urls_for event key l'.
Proof. intros H. unfold urls_for. by rewrite H. Qed.

(** Taking the registrations of one key out of the list. *)
Lemma split_key k regs : regs ≡ₚ filter (fun r => key_of r = k) regs ++ filter (fun r => key_of r <> k) regs.
Proof.
  induction regs as [|r regs IH]; [done|]. rewrite !filter_cons. destruct (decide (key_of r = k)) as [E|E].
  - rewrite decide_False by tauto. cbn. by rewrite <-IH.
  - rewrite decide_True by done. rewrite <-Permutation_middle. by rewrite <-IH.
Qed.

Lemma filter_key_all event key k regs :
  Forall plain_event regs ->
  url_of <$> filter (fun r => wanted event key r = true) (filter (fun r => key_of r = k) regs) =
  if matches event key k then under k regs else [].
Proof.
  intros Hp. unfold under. induction Hp as [|r regs Hr Hp IH]; [by case_match|].
  rewrite (filter_cons (fun r => key_of r = k)). destruct (decide (key_of r = k)) as [<-|E]; [|exact IH].
  pose proof (matches_wanted event key r Hr) as Hm. fold (key_of r) in Hm. rewrite Hm in IH |- *.
  rewrite (filter_cons (fun r => wanted event key r = true)). destruct (wanted event key r); [rewrite decide_True by done|by rewrite decide_False].
  rewrite fmap_cons. by rewrite IH.
Qed.

Lemma fired_perm event key regs (wm : WebhookManager) :
  related regs wm ->
  urls_for event key (map_to_list wm) ≡ₚ url_of <$> filter (fun r => wanted event key r = true) regs.
Proof.
  revert regs. unfold related, WebhookManager in *. induction wm as [|k l wm Hk IH] using map_ind; intros regs [Hp Hrel].
  - assert (regs = []) as ->; [|done]. destruct regs as [|r regs]; [done|]. specialize (Hrel (key_of r)).
    unfold under in Hrel. rewrite filter_cons, decide_True in Hrel by done. by rewrite lookup_empty in Hrel.
  - rewrite (urls_for_perm _ _ _ _ (map_to_list_insert wm k l Hk)). unfold urls_for. rewrite fmap_cons. cbn [concat fst snd].
    assert (under k regs = l) as Hl.
    { specialize (Hrel k). rewrite lookup_insert_eq in Hrel. destruct (under k regs); congruence. }
    rewrite (split_key k regs) at 1. rewrite filter_app, fmap_app, (filter_key_all event key k regs Hp), Hl.
    apply Permutation_app; [done|]. apply IH. split; [apply Forall_forall; intros r [_ Hr]%list_elem_of_filter; by apply (proj1 (Forall_forall _ _) Hp)|]. intros k'. unfold under.
    destruct (decide (k' = k)) as [->|Hne].
    + rewrite Hk, filter_none; [done|]. intros r [H1 _]%list_elem_of_filter. done.
    + specialize (Hrel k'). rewrite lookup_insert_ne in Hrel by done. rewrite Hrel. unfold under.
      assert (filter (fun r => key_of r = k') (filter (fun r => key_of r <> k) regs) = filter (fun r => key_of r = k') regs) as ->; [|done].
      clear -Hne. induction regs as [|r regs IH]; [done|]. rewrite (filter_cons (fun r => key_of r <> k)).
      destruct (decide (key_of r = k)) as [E|E].
      * rewrite decide_False by tauto. rewrite filter_cons, decide_False by congruence. exact IH.
      * rewrite decide_True by done. rewrite !filter_cons, IH. done.
Qed.

(** Webhooks fire for the registrations that match, and only for them.  After any registrations and
    removals for events without a colon, in whatever order the map is met, an event calls every URL
    registered for that event (or for all events) under a pattern that matches the key, as often as it is
    registered, and no other; beyond the deliveries that are still under way at most 64 are started and
    the rest are dropped. *)
Theorem webhooks_fire ops event key order busy :
  Forall plain_op ops -> order ≡ₚ map_to_list (run ops NewWebhookManager) -> 0 <= busy <= capacity ->
  let '(started, dropped) := Fire event key order busy in
  started ++ dropped ≡ₚ url_of <$> filter (fun r => wanted event key r = true) (spec ops []) /\
  zlen started = Z.min (capacity - busy) (zlen (started ++ dropped)).
Proof.
  intros Ho Hord Hb. unfold Fire. unfold ztake, zdrop. rewrite take_drop. split.
  - rewrite (urls_for_perm _ _ _ _ Hord). apply fired_perm, related_run; [done|]. split; [constructor|]. intros k. apply lookup_empty.
  - unfold zlen. rewrite length_take. lia.
Qed.

Definition users : registration := mkReg "set" "user:*" "http://a".
Definition everything : registration := mkReg "*" "*" "http://b".

Lemma webhooks_fire_witness :
  let ops := [Reg users; Reg everything; Reg users; Unreg users] in
  let order := map_to_list (run ops NewWebhookManager) in
  Fire "set" "user:7" order 0 = (urls_for "set" "user:7" order, []) /\
  urls_for "set" "user:7" order ≡ₚ ["http://b"; "http://a"]%string.
Proof.
  pose proof (webhooks_fire [Reg users; Reg everything; Reg users; Unreg users] "set" "user:7"
    (map_to_list (run [Reg users; Reg everything; Reg users; Unreg users] NewWebhookManager)) 0) as H.
  split; [vm_compute; reflexivity|]. cbn zeta in H. etrans; [|etrans; [apply H|]]; [vm_compute; reflexivity| | | |vm_compute; reflexivity].
  - repeat constructor.
  - reflexivity.
  - unfold capacity. lia.
Defined.

(** An event with a colon is not the event that was registered: the colon splits it, and the hook fires
    for another event and another pattern. *)
Theorem webhook_event_with_colon :
  let wm := Register_ "k*" "my:set" "http://a" NewWebhookManager in
  urls_for "my:set" "k1" (map_to_list wm) = [] /\ urls_for "my" "set:k1" (map_to_list wm) = ["http://a"%string].
Proof. vm_compute. split; reflexivity. Qed.
End Webhooks.
