(* ===== verification/Notify.v ===== *)
(** * Key-change notifications (internal/server/server.go: NewWithOptions;
    internal/store/store.go: OnChange, StartExpiry)

    The store puts an event into a queue of 4096 places for every key it
    changes; a goroutine takes them one by one and hands each to the callback
    of the server, which publishes it on two channels and fires the webhooks.
    Here the queue, the callback and the channels together: what a command
    does to a key reaches a client subscribed to its channel. *)
From S2P Require Import Prelude GoLib Store StoreStrings StoreHashes StoreSets Keyspace PubSub Webhooks.

Module Notify.
Import Store Strings Hashes Sets Keyspace.

(** ** What the store announces *)

(** The part of the store the events depend on. *)
Definition obs (s : Store) : bool * list (string * string) * Z := (onChange s, onChangeQueue s, version s).

Definition enqueue (event key : string) (o : bool * list (string * string) * Z) : bool * list (string * string) * Z :=
  let '(on, q, v) := o in (on, if on && (zlen q <? onChangeCap) then q ++ [(event, key)] else q, v).

(** A version without an event. *)
Definition bump (o : bool * list (string * string) * Z) : bool * list (string * string) * Z := (o.1, wrapu64 (o.2 + 1)).

(** [n] events about keys in [P], most of them with a version. *)
Inductive pushes (P : string -> Prop) : nat -> bool * list (string * string) * Z -> bool * list (string * string) * Z -> Prop :=
| pushes_O o : pushes P 0 o o
| pushes_event n event key o o' : P key -> pushes P n o o' -> pushes P (S n) o (enqueue event key o')
| pushes_both n event key o o' : P key -> pushes P n o o' -> pushes P (S n) o (bump (enqueue event key o')).

#[local] Transparent touchKeyLocked touchKeyLockedNoEvent deleteKeyLocked.

Lemma obs_access now keys s : obs (record_access now keys s) = obs s.
Proof. unfold record_access. by case_match. Qed.

Lemma obs_versions keys s : obs (record_versions keys s) = bump (obs s).
Proof. reflexivity. Qed.

Lemma obs_fire event key s : obs (fire event key s) = enqueue event key (obs s).
Proof. unfold fire, enqueue, obs. by destruct (_ && _). Qed.

Lemma obs_quiet now keys s : obs (touchKeyLockedNoEvent now keys s) = bump (obs s).
Proof. unfold touchKeyLockedNoEvent. by rewrite obs_access. Qed.

Lemma obs_touch now key s : obs (touchKeyLocked now [key] s) = bump (enqueue "set" key (obs s)).
Proof. unfold touchKeyLocked. rewrite obs_access. cbn [fold_left]. by rewrite obs_fire, obs_versions. Qed.

Lemma obs_delete now key s : obs (deleteKeyLocked now key s) = bump (enqueue "del" key (obs s)).
Proof. unfold deleteKeyLocked. cbv zeta. rewrite obs_quiet, obs_fire. reflexivity. Qed.

#[local] Opaque touchKeyLocked touchKeyLockedNoEvent deleteKeyLocked.

Section Pushes.
Context (P : string -> Prop).

Lemma pushes_fire n event key o s : P key -> pushes P n o (obs s) -> pushes P (S n) o (obs (fire event key s)).
Proof. rewrite obs_fire. apply pushes_event. Qed.

Lemma pushes_touch n now key o s : P key -> pushes P n o (obs s) -> pushes P (S n) o (obs (touchKeyLocked now [key] s)).
Proof. rewrite obs_touch. apply pushes_both. Qed.

Lemma pushes_delete n now key o s : P key -> pushes P n o (obs s) -> pushes P (S n) o (obs (deleteKeyLocked now key s)).
Proof. rewrite obs_delete. apply pushes_both. Qed.

Lemma pushes_access n now keys o s : pushes P n o (obs s) -> pushes P n o (obs (record_access now keys s)).
Proof. by rewrite obs_access. Qed.

Lemma pushes_trans n m o1 o2 o3 : pushes P n o1 o2 -> pushes P m o2 o3 -> pushes P (m + n) o1 o3.
Proof. intros H1 H2. induction H2; [done|..]; cbn; constructor; try done; by apply IHpushes. Qed.

Lemma enqueued event key on q l n :
  P key -> (length l <= n)%nat -> Forall (fun x : string * string => P x.2) l -> (on = true -> zlen q + Z.of_nat n <= onChangeCap -> length l = n) ->
  exists l', (if on && (zlen (q ++ l) <? onChangeCap) then (q ++ l) ++ [(event, key)] else q ++ l) = q ++ l' /\
    (length l' <= S n)%nat /\ Forall (fun x : string * string => P x.2) l' /\
    (on = true -> zlen q + Z.of_nat (S n) <= onChangeCap -> length l' = S n).
Proof.
  intros HP Hl Hf Hr. destruct (on && _) eqn:E.
  - exists (l ++ [(event, key)]). rewrite <-app_assoc, length_app. cbn [length]. split; [done|]. split; [lia|].
    split; [apply Forall_app; by repeat constructor|]. intros Hon Hc. rewrite Hr by (done || lia). lia.
  - exists l. repeat split; [lia|done|]. intros -> Hc. cbn [andb] in E. apply Z.ltb_ge in E. rewrite zlen_app in E.
    unfold zlen at 2 in E. lia.
Qed.

(** The queue grows at its end; nothing is lost while there is room, and
    without an event there is no version either. *)
Lemma pushes_queue n on q v o' :
  pushes P n (on, q, v) o' ->
  exists l v', o' = (on, q ++ l, v') /\ (length l <= n)%nat /\ Forall (fun x : string * string => P x.2) l /\
    (on = true -> zlen q + Z.of_nat n <= onChangeCap -> length l = n) /\ (n = O -> v' = v).
Proof.
  intros H. remember (on, q, v) as o eqn:E. induction H as [o|n event key o o' HP H IH|n event key o o' HP H IH]; subst.
  - exists [], v. rewrite app_nil_r. repeat split; [done|constructor].
  - destruct (IH eq_refl) as (l & v' & -> & Hl & Hf & Hr & _). cbn [enqueue].
    destruct (enqueued event key on q l n HP Hl Hf Hr) as (l' & -> & Hl' & Hf' & Hr'). by exists l', v'.
  - destruct (IH eq_refl) as (l & v' & -> & Hl & Hf & Hr & _). cbn [enqueue].
    destruct (enqueued event key on q l n HP Hl Hf Hr) as (l' & -> & Hl' & Hf' & Hr'). by exists l', (wrapu64 (v' + 1)).
Qed.
End Pushes.

(** An operation that says nothing about other keys, and at most [b] times
    something about its own. *)
Definition talks {A} (b : nat) (key : string) (op : Store -> A * Store) : Prop :=
  forall s, exists n, pushes (eq key) n (obs s) (obs (op s).2) /\ (n <= b)%nat.

(** Follow an operation to its end: what the operations it calls announce is
    known, the branches are taken, and its own announcements are counted. *)
Ltac hear lem call :=
  let n := fresh "n" in let H := fresh "Hsay" in let Hb := fresh "Hb" in
  destruct lem as (n & H & Hb); destruct call; cbn [snd] in H; cbv beta iota.
Ltac say := repeat first
  [ apply pushes_O
  | apply pushes_access
  | apply pushes_touch; [reflexivity|]
  | apply pushes_delete; [reflexivity|]
  | eassumption
  | match goal with H : pushes _ _ _ (obs ?s) |- pushes _ _ _ (obs ?s) => eapply pushes_trans; [|exact H] end
  | match goal with |- pushes _ _ _ (obs (?f ?g ?s)) => change (obs (f g s)) with (obs s) end ].
Ltac finish_talk := cbn [fst snd]; eexists; (split; [say|lia]).

Lemma expired_talks now key : talks 1 key (expiredKeyLocked now key).
Proof. intros s. unfold expiredKeyLocked. repeat case_match; finish_talk. Qed.

Ltac hear_expired := match goal with
  |- context [expiredKeyLocked ?now ?key ?s] => hear (expired_talks now key s) (expiredKeyLocked now key s) end.

Lemma exists_string_talks now key : talks 1 key (existsStringLocked now key).
Proof. intros s. unfold existsStringLocked. hear_expired. repeat case_match; finish_talk. Qed.

Ltac hear_string := match goal with
  |- context [existsStringLocked ?now ?key ?s] => hear (exists_string_talks now key s) (existsStringLocked now key s) end.

Lemma exists_talks now key : talks 2 key (existsLocked now key).
Proof. intros s. unfold existsLocked. hear_expired. repeat first [hear_string|case_match]; finish_talk. Qed.

Ltac hear_exists := match goal with
  |- context [existsLocked ?now ?key ?s] => hear (exists_talks now key s) (existsLocked now key s) end.
Ltac talk := repeat first [hear_expired|hear_string|hear_exists|case_match]; simplify_eq; finish_talk.

Create HintDb store_ops.
#[local] Hint Unfold Set_ SetNX SetXX GetSet GetEx GetDel Append IncrBy Expire ExpireAt Persist absent Get clear_types HSet HDel HIncrBy
  HSetNX hash_conflict SAdd SRem set_conflict put_set ZAdd ZRem ZPopMin ZPopMax zset_write zset_conflict put_zset : store_ops.

Lemma exec_talks now c : talks 8 (key_of c) (exec now c).
Proof. intros s. destruct c; cbn [exec key_of]; unfold wrap; cbn [snd]; autounfold with store_ops; cbv zeta; talk. Qed.

(** A sweep speaks about the keys it deletes. *)
Lemma fold_talks {B} (f : Store -> B -> Store) (l : list B) b :
  (forall s x, exists n, pushes (fun _ => True) n (obs s) (obs (f s x)) /\ (n <= b)%nat) ->
  forall s, exists n, pushes (fun _ => True) n (obs s) (obs (fold_left f l s)) /\ (n <= b * length l)%nat.
Proof.
  intros Hf. induction l as [|x l IH]; intros s; [exists O; split; [constructor|lia]|]. cbn [fold_left length].
  destruct (Hf s x) as (n & Hn & Hb). destruct (IH (f s x)) as (m & Hm & Hb').
  exists (m + n)%nat. split; [by eapply pushes_trans|nia].
Qed.

Lemma pushes_mono (P Q : string -> Prop) n o o' : (forall k, P k -> Q k) -> pushes P n o o' -> pushes Q n o o'.
Proof. intros H Hp. induction Hp; constructor; auto. Qed.

Lemma sweep_talks now order tagOrder s :
  exists n, pushes (fun _ => True) n (obs s) (obs (sampleExpired now order tagOrder s)) /\
    (n <= 2 * (length order + length tagOrder))%nat.
Proof.
  unfold sampleExpired, sweep_tags.
  destruct (fold_talks (sample_key now) (take 100 order) 2) with (s := s) as (n & Hn & Hb).
  { intros s' key. unfold sample_key. destruct (expires s' !! key); [|exists O; split; [constructor|lia]].
    case_match; [|exists O; split; [constructor|lia]]. exists 2%nat. split; [|done]. apply pushes_delete, pushes_fire; [done..|constructor]. }
  set (s1 := fold_left _ _ s) in *. set (s2 := s1 <| rateLimiters ::= _ |> <| notBefore ::= _ |>).
  destruct (fold_talks (fun s key => let '(e, s) := existsLocked now key s in if e then s else s <| tags ::= delete key |>) tagOrder 2)
    with (s := s2) as (m & Hm & Hb').
  { intros s' key. destruct (exists_talks now key s') as (k & Hk & Hkb). apply (pushes_mono _ (fun _ => True)) in Hk; [|done].
    exists k. split; [|done]. by destruct (existsLocked now key s') as [[] s'']. }
  exists (m + n)%nat. split; [eapply pushes_trans; [exact Hn|exact Hm]|]. rewrite length_take in Hb. lia.
Qed.

(** ** Versions over sweeps *)

Lemma vstep_trans n m s t u : vstep n s t -> vstep m t u -> vstep (n + m) s u.
Proof.
  intros [Hv Hk] [Hv' Hk']. split; [lia|]. intros k. destruct (Hk' k) as [->|]; [|right; lia].
  destruct (Hk k) as [->|]; [by left|right; lia].
Qed.

Lemma fold_vstep {B} (f : Store -> B -> Store) (l : list B) b :
  0 <= b -> (forall s x, room b s -> vstep b s (f s x)) ->
  forall s, room (b * zlen l) s -> vstep (b * zlen l) s (fold_left f l s).
Proof.
  intros Hb Hf. induction l as [|x l IH]; intros s Hr.
  - rewrite zlen_nil, Z.mul_0_r. apply vstep_refl.
  - rewrite zlen_cons in *. pose proof (zlen_nonneg l) as Hl. destruct Hr as [H0 Hr].
    assert (vstep b s (f s x)) as H1 by (apply Hf; split; [done|nia]). destruct H1 as [Hv Hk].
    replace (b * (zlen l + 1)) with (b + b * zlen l) by lia. cbn [fold_left].
    apply (vstep_trans _ _ s (f s x)); [done|]. apply IH. split; [lia|nia].
Qed.

Lemma sweep_vstep now order tagOrder s :
  let b := 2 * (zlen order + zlen tagOrder) in room b s -> vstep b s (sampleExpired now order tagOrder s).
Proof.
  intros b [H0 Hr]. unfold sampleExpired, sweep_tags. pose proof (zlen_nonneg tagOrder) as Hn1.
  assert (zlen (take 100 order) <= zlen order) as Ht by (unfold zlen; rewrite length_take; lia).
  pose proof (zlen_nonneg (take 100 order)) as Hn2.
  set (s1 := fold_left _ _ s).
  assert (vstep (1 * zlen (take 100 order)) s s1) as H1.
  { apply fold_vstep; [lia| |split; [done|lia]]. intros s' key Hr'. unfold sample_key.
    destruct (expires s' !! key); [|apply (vstep_weaken 0); [lia|apply vstep_refl]].
    case_match; [|apply (vstep_weaken 0); [lia|apply vstep_refl]].
    apply (vstep_bumped 0 s' (fire "expired" key s') _ [key]); [|done|apply bumped_delete].
    destruct (versions_fire "expired" key s') as [E1 E2]. by apply (vstep_ext 0 s' s'); [..|apply vstep_refl]. }
  set (s2 := s1 <| rateLimiters ::= _ |> <| notBefore ::= _ |>).
  assert (vstep (1 * zlen (take 100 order)) s s2) as H2 by exact H1. destruct H1 as [Hv _].
  apply (vstep_weaken (1 * zlen (take 100 order) + 2 * zlen tagOrder)); [lia|].
  eapply vstep_trans; [exact H2|]. apply fold_vstep; [lia| |change (version s2) with (version s1); split; change (version s2) with (version s1); lia].
  intros s' key [Hr0 Hr']. unfold existsLocked, existsStringLocked.
  assert (vstep 1 s' (expiredKeyLocked now key s').2) as Hx by (apply vstep_expiredKey; split; [done|lia]).
  destruct (expiredKeyLocked now key s') as [b1 s3]. cbn [snd] in Hx. destruct b1; [by apply (vstep_weaken 1)|].
  destruct (isDelayed now key s3); [by apply (vstep_weaken 1)|].
  assert (vstep 1 s3 (expiredKeyLocked now key s3).2) as Hx' by (apply vstep_expiredKey; destruct Hx; split; lia).
  destruct (expiredKeyLocked now key s3) as [b2 s4]. cbn [snd] in Hx'.
  pose proof (vstep_trans _ _ _ _ _ Hx Hx') as H12. destruct b2; repeat case_match; simplify_eq; exact H12.
Qed.

(** ** The callback of the server *)

Definition keyevent (event : string) : string := String.append "__keyevent__:" event.
Definition keyspace (key : string) : string := String.append "__keyspace__:" key.

(** [st.OnChange(func(event, key, ns string) {...})]: the orders in which the
    maps are met are arguments, as are the deliveries under way. *)
Definition notify (event key : string) (order : list Z) (porder : list (Z * string)) (order' : list Z)
    (porder' : list (Z * string)) (hooks : list (string * list string)) (busy : Z)
    (p : PubSub.PubSub) : outcome (Z * Z * PubSub.PubSub * (list string * list string)) :=
  match PubSub.Publish (keyevent event) key order porder p with
  | Panic => Panic
  | Ret (n, p) =>
      match PubSub.Publish (keyspace key) event order' porder' p with
      | Panic => Panic
      | Ret (n', p) => Ret (n, n', p, Webhooks.Fire event key hooks busy)
      end
  end.

(** ** The pipeline *)

Record system := mkSystem { clock : Z; store : Store; pubsub : PubSub.PubSub }.

(** What happens: a command or a sweep, with what it announced; the goroutine
    handing over one event; anything else that uses the channels. *)
Inductive act :=
| ACommand (t : Z) (c : command) (before after : Store) (said : list (string * string))
| ASweep (t : Z) (order tagOrder : list string) (said : list (string * string))
| ANotify (event key : string) (n n' : Z)
| AOther (l : PubSub.label).

Inductive move : system -> act -> system -> Prop :=
| move_command t c x said :
    clock x <= t -> onChangeQueue (exec t c (store x)).2 = onChangeQueue (store x) ++ said ->
    move x (ACommand t c (store x) (exec t c (store x)).2 said) (mkSystem t (exec t c (store x)).2 (pubsub x))
| move_sweep t order tagOrder x said :
    clock x <= t -> onChangeQueue (sampleExpired t order tagOrder (store x)) = onChangeQueue (store x) ++ said ->
    move x (ASweep t order tagOrder said) (mkSystem t (sampleExpired t order tagOrder (store x)) (pubsub x))
| move_notify event key q order porder order' porder' hooks busy x n n' p fired p1 :
    onChangeQueue (store x) = (event, key) :: q ->
    notify event key order porder order' porder' hooks busy (pubsub x) = Ret (n, n', p, fired) ->
    order ≡ₚ elements (PubSub.direct_subs (keyevent event) (pubsub x)) ->
    porder ≡ₚ PubSub.pattern_subs (keyevent event) (pubsub x) ->
    PubSub.Publish (keyevent event) key order porder (pubsub x) = Ret (n, p1) ->
    order' ≡ₚ elements (PubSub.direct_subs (keyspace key) p1) -> porder' ≡ₚ PubSub.pattern_subs (keyspace key) p1 ->
    move x (ANotify event key n n') (mkSystem (clock x) (store x <| onChangeQueue := q |>) p)
| move_other l x p : PubSub.step (pubsub x) l p -> move x (AOther l) (mkSystem (clock x) (store x) p).

Inductive moves : system -> list act -> system -> Prop :=
| moves_nil x : moves x [] x
| moves_cons x a y tr z : move x a y -> moves y tr z -> moves x (a :: tr) z.

Definition said_by (a : act) : list (string * string) :=
  match a with ACommand _ _ _ _ l | ASweep _ _ _ l => l | _ => [] end.
Definition handed_by (a : act) : list (string * string) := match a with ANotify e k _ _ => [(e, k)] | _ => [] end.
Definition labels_of (a : act) : list PubSub.label :=
  match a with
  | ANotify e k n n' => [PubSub.LPub (keyevent e) k n; PubSub.LPub (keyspace k) e n']
  | AOther l => [l]
  | _ => []
  end.
Definition said (tr : list act) : list (string * string) := concat (said_by <$> tr).
Definition handed (tr : list act) : list (string * string) := concat (handed_by <$> tr).
Definition labels (tr : list act) : list PubSub.label := concat (labels_of <$> tr).

(** The events about one key. *)
Definition about (key : string) (l : list (string * string)) : list string := (filter (fun x => x.2 = key) l).*1.

Lemma about_app key l l' : about key (l ++ l') = about key l ++ about key l'.
Proof. unfold about. by rewrite filter_app, fmap_app. Qed.

Lemma notify_steps x tr y : moves x tr y -> PubSub.steps (pubsub x) (labels tr) (pubsub y).
Proof.
  induction 1 as [|x a y tr z H _ IH]; [constructor|]. unfold labels. cbn [fmap list_fmap concat].
  eapply PubSub.steps_app; [|exact IH]. destruct H as [| |event key q order porder order' porder' hooks busy x n n' p fired p1 Hq Hn Ho Hpo Hp Ho' Hpo'|l x p H]; cbn [labels_of pubsub].
  - constructor.
  - constructor.
  - unfold notify in Hn. rewrite Hp in Hn. destruct (PubSub.Publish (keyspace key) event order' porder' p1) as [[m p2]|] eqn:E; [|done].
    injection Hn as -> <- _. eapply PubSub.steps_cons; [by eapply PubSub.step_pub|].
    eapply PubSub.steps_cons; [by eapply PubSub.step_pub|constructor].
  - eapply PubSub.steps_cons; [exact H|constructor].
Qed.

(** Nothing is lost between the store and the callback. *)
Lemma moves_queue x tr y : moves x tr y -> handed tr ++ onChangeQueue (store y) = onChangeQueue (store x) ++ said tr.
Proof.
  induction 1 as [x|x a y tr z H _ IH]; [unfold said, handed; cbn; by rewrite app_nil_r|].
  unfold said, handed in *. cbn [fmap list_fmap concat]. rewrite <-app_assoc, IH.
  destruct H as [t c x l Ht Hq|t o o' x l Ht Hq|event key q order porder order' porder' hooks busy x n n' p fired p1 Hq|l x p H];
    cbn [handed_by said_by store app].
  - by rewrite Hq, app_assoc.
  - by rewrite Hq, app_assoc.
  - rewrite Hq. reflexivity.
  - done.
Qed.

Lemma keyspace_inj k k' : keyspace k = keyspace k' -> k = k'.
Proof. apply (inj (String.append "__keyspace__:")). Qed.

(** The channel of a key carries the events about that key. *)
Lemma published_handed key tr :
  (forall l, AOther l ∈ tr -> forall m n, l <> PubSub.LPub (keyspace key) m n) ->
  PubSub.published (keyspace key) (labels tr) = about key (handed tr).
Proof.
  intros Ho. unfold labels, handed. induction tr as [|a tr IH]; [done|]. cbn [fmap list_fmap concat].
  rewrite about_app, <-IH by (intros l Hl; apply Ho; by right). unfold PubSub.published. rewrite omap_app. f_equal.
  destruct a as [| |e k n n'|l]; cbn [labels_of handed_by]; [done|done|..].
  - cbn -[about keyspace]. destruct (String.eqb_spec (keyspace k) (keyspace key)) as [->%keyspace_inj|Hne].
    + unfold about. by rewrite filter_cons, decide_True.
    + unfold about. rewrite filter_cons, decide_False; [done|]. cbn. by intros ->.
  - cbn. destruct l as [| | | |c m n| |]; try done. destruct (String.eqb_spec c (keyspace key)) as [->|]; [|done].
    by destruct (Ho (PubSub.LPub (keyspace key) m n) ltac:(left) m n).
Qed.

(** ** The store stays in order *)

Definition cost (a : act) : Z :=
  match a with ACommand _ _ _ _ _ => 8 | ASweep _ o o' _ => 2 * (zlen o + zlen o') | _ => 0 end.
Definition total (tr : list act) : Z := foldr (fun a z => cost a + z) 0 tr.

Lemma cost_nonneg a : 0 <= cost a.
Proof. destruct a; cbn; try lia. pose proof (zlen_nonneg order). pose proof (zlen_nonneg tagOrder). lia. Qed.

Lemma total_nonneg tr : 0 <= total tr.
Proof. induction tr as [|a tr IH]; cbn; [lia|]. pose proof (cost_nonneg a). unfold total in IH. lia. Qed.

Record sound (b : Z) (x : system) : Prop := {
  so_sim : exists K, sim (clock x) (store x) K;
  so_tidy : forall k, tidy (entry (store x) k);
  so_versions : vers_ok (store x);
  so_room : room b (store x);
  so_on : onChange (store x) = true
}.

Lemma pushes_on (P : string -> Prop) n s s' : pushes P n (obs s) (obs s') -> onChange s' = onChange s.
Proof. intros H. destruct (pushes_queue P n _ _ _ _ H) as (l & v & E & _). by injection E. Qed.

Lemma room_step n b s s' : vstep n s s' -> room (n + b) s -> room b s'.
Proof. intros [Hv _] [H0 Hr]. split; lia. Qed.

Lemma exec_tidy t c s K : sim t s K -> (forall k, tidy (entry s k)) -> forall k, tidy (entry (exec t c s).2 k).
Proof.
  intros [H1 H2 H3] Ht k. destruct (exec_local t c s (H1 _)) as (_ & Hs & Hne).
  destruct (decide (k = key_of c)) as [->|Hk]; [|rewrite Hne by done; apply Ht].
  assert (ok_entry (spec t c (live t (entry s (key_of c)))).2) as Hok by (apply spec_ok; [apply H2|apply e_expired_live]).
  destruct Hs as [->|[-> _]]; [apply Hok|apply Ht].
Qed.

Lemma move_sound b x a y : 0 <= b -> sound (cost a + b) x -> move x a y ->
  sound b y /\ (length (said_by a) <= Z.to_nat (cost a))%nat.
Proof.
  intros Hb [[K Hsim] Ht Hv Hr Hon] Hm.
  destruct Hm as [t c x l Hle Hq|t o o' x l Hle Hq|event key q order porder order' porder' hooks busy x n n' p fired p1 Hq|l x p H]; cbn [cost said_by] in *.
  - apply (sim_later _ t) in Hsim; [|done]. destruct (exec_talks t c (store x)) as (n & Hp & Hn).
    assert (vstep 4 (store x) (exec t c (store x)).2) as Hvs.
    { destruct (is_srem c) eqn:Esr; [|by apply exec_marked; [|destruct Hr; split; lia|]]. destruct c; try done.
      cbn [exec]. unfold wrap. cbn [snd]. apply SRem_vstep. destruct Hr. split; lia. }
    split; [split; cbn [clock store]|].
    + eexists. apply (sim_exec t (store x) K c Hsim).
    + by eapply exec_tidy.
    + by apply (vers_ok_vstep 4 (store x)).
    + apply (room_step 4 _ (store x)); [done|]. destruct Hr. split; lia.
    + by rewrite (pushes_on _ _ _ _ Hp).
    + destruct (pushes_queue _ n _ _ _ _ Hp) as (l' & v' & E & Hl & _). injection E as _ E _. rewrite Hq in E.
      apply app_inv_head in E as ->. lia.
  - apply (sim_later _ t) in Hsim; [|done]. destruct (sweep_talks t o o' (store x)) as (n & Hp & Hn).
    assert (room (2 * (zlen o + zlen o')) (store x)) as Hr' by (destruct Hr; split; lia).
    pose proof (sweep_vstep t o o' (store x) Hr') as Hvs.
    split; [split; cbn [clock store]|].
    + eexists. by apply sim_sweep.
    + intros k. destruct (swept_sampleExpired t o o' (store x) (sim_plain _ _ _ Hsim) k) as [->|[-> _]]; [apply Ht|by repeat split].
    + exact (proj1 (vers_ok_vstep _ _ _ Hvs Hv)).
    + exact (room_step _ _ _ _ Hvs Hr).
    + by rewrite (pushes_on _ _ _ _ Hp).
    + destruct (pushes_queue _ n _ _ _ _ Hp) as (l' & v' & E & Hl & _). injection E as _ E _. rewrite Hq in E.
      apply app_inv_head in E as ->. unfold zlen. lia.
  - split; [|cbn; lia]. split; cbn [clock store]; try done. exists K. destruct Hsim as [Hs1 Hs2 Hs3]. split; [exact Hs1|exact Hs2|exact Hs3].
  - split; [|cbn; lia]. split; try done. by exists K.
Qed.

(** A command other than SREM that changes what is live under the key. *)
Definition changes (key : string) (a : act) : Prop :=
  match a with
  | ACommand t c before after _ => is_srem c = false /\ live t (entry after key) <> live t (entry before key)
  | _ => False
  end.

(** Such a command announces it, as long as the queue has room. *)
Lemma change_said key b x a y :
  0 <= b -> sound (cost a + b) x -> zlen (onChangeQueue (store x)) + 8 <= onChangeCap -> move x a y -> changes key a -> about key (said_by a) <> [].
Proof.
  intros Hb0 [[K Hsim] Ht Hv Hr Hon] Hcap Hm Hc. destruct Hm as [t c x l Hle Hq| | |]; try done. destruct Hc as [Hsr Hne]. cbn [said_by cost] in *.
  apply (sim_later _ t) in Hsim; [|done]. destruct (exec_talks t c (store x)) as (n & Hp & Hn).
  assert (room 4 (store x)) as Hr4 by (destruct Hr; split; lia).
  destruct (exec_marked t c Hsr (store x) Hr4 (Ht _)) as [Hm Hvs].
  destruct (decide (key = key_of c)) as [->|Hk].
  2: { destruct (exec_local t c (store x) (sim_plain _ _ _ Hsim _)) as (_ & _ & Hother). by rewrite Hother in Hne. }
  destruct Hm as [|Hm]; [done|]. destruct (vers_ok_vstep 4 _ _ Hvs Hv) as [Hok _]. specialize (Hok (key_of c)).
  destruct (pushes_queue _ n _ _ _ _ Hp) as (l' & v' & E & Hl & Hf & Hfull & H0). injection E as _ E Ev. rewrite Hq in E.
  apply app_inv_head in E as <-. rewrite Hon in Hfull. specialize (Hfull eq_refl ltac:(lia)).
  destruct l as [|[e k] l]; [cbn in Hfull; specialize (H0 (eq_sym Hfull)); lia|].
  apply Forall_cons in Hf as [Hf _]. cbn in Hf. subst k. unfold about. by rewrite filter_cons, decide_True.
Qed.

Lemma moves_said key b x tr y :
  0 <= b -> sound (total tr + b) x -> zlen (onChangeQueue (store x)) + zlen (said tr) + 8 <= onChangeCap -> moves x tr y ->
  forall a, a ∈ tr -> changes key a -> about key (said_by a) <> [].
Proof.
  intros Hb Hs Hcap Hm. revert Hs Hcap. induction Hm as [x|x a y tr z H _ IH]; intros Hs Hcap.
  { intros a Ha. by apply not_elem_of_nil in Ha. }
  unfold total in Hs. cbn [foldr] in Hs. fold (total tr) in Hs. pose proof (total_nonneg tr) as Htot.
  unfold said in Hcap. cbn [fmap list_fmap concat] in Hcap. fold (said tr) in Hcap. rewrite zlen_app in Hcap.
  rewrite <-Z.add_assoc in Hs. destruct (move_sound (total tr + b) x a y ltac:(lia) Hs H) as [Hs' _].
  pose proof (zlen_nonneg (said_by a)) as Hz. pose proof (zlen_nonneg (said tr)) as Hz'.
  assert (zlen (onChangeQueue (store y)) <= zlen (onChangeQueue (store x)) + zlen (said_by a)) as Hq.
  { destruct H as [t c x l Hle Hq|t o o' x l Hle Hq|event key0 q order porder order' porder' hooks busy x n n' p fired p1 Hq|l x p H];
      cbn [store said_by] in *; try (rewrite Hq, zlen_app; lia); [rewrite Hq, zlen_cons; change (zlen q <= zlen q + 1 + 0); lia|lia]. }
  intros a' [->|Ha']%elem_of_cons Hch; [|apply (IH Hs'); [lia|done|done]].
  eapply (change_said key (total tr + b)); [lia|exact Hs| |exact H|done]. lia.
Qed.

(** C29: a client hears of every change that the listed commands make.  A client is subscribed to the channel of a
    key with nothing waiting, on a server whose store holds only strings, hashes, sets and sorted sets and whose
    version counter is not about to overflow; then the 28 commands of [Keyspace.command] and sweeps run, the
    goroutine of the store hands events over and other clients use the channels (without publishing on this one or
    unsubscribing it), in any order.  What the client has taken, what waits in its channel and what waits in the
    queue of the store are together the events announced about the key, in order; and every one of the commands,
    SREM apart, that changed what is live under the key announced one.  This is as long as at most 128 events are
    announced about the key, which is what the channel holds when the client takes none, and at most 4088 events
    in all. *)
Theorem changes_are_heard key ch c0 tr0 p0 x tr y :
  PubSub.steps PubSub.NewPubSub tr0 p0 -> pubsub x = p0 ->
  sound (total tr) x -> onChangeQueue (store x) = [] ->
  zlen (about key (said tr)) <= PubSub.capacity -> zlen (said tr) + 8 <= onChangeCap ->
  ch ∈ PubSub.members (PubSub.subs p0) (keyspace key) -> PubSub.chans p0 !! ch = Some c0 -> PubSub.buffer c0 = [] ->
  moves x tr y ->
  (forall l, AOther l ∈ tr -> l <> PubSub.LUnsub (keyspace key) ch /\ forall m n, l <> PubSub.LPub (keyspace key) m n) ->
  exists c, PubSub.chans (pubsub y) !! ch = Some c /\
    PubSub.received ch (labels tr) ++ PubSub.buffer c ++ about key (onChangeQueue (store y)) = about key (said tr) /\
    forall a, a ∈ tr -> changes key a -> about key (said_by a) <> [].
Proof.
  intros H0 Hx Hs Hq Htot Hall_said Hin Hc Hb Hm Ho. pose proof (PubSub.steps_wf _ _ _ PubSub.new_pubsub_wf H0) as Hw.
  assert (sound (total tr + 0) x) as Hs' by (by rewrite Z.add_0_r).
  pose proof (moves_said key 0 x tr y ltac:(lia) Hs' ltac:(rewrite Hq, zlen_nil; lia) Hm) as Hall.
  pose proof (moves_queue x tr y Hm) as Hcons. rewrite Hq in Hcons. cbn [app] in Hcons.
  assert (zlen (about key (handed tr)) <= PubSub.capacity) as Hlen.
  { rewrite <-Hcons, about_app, zlen_app in Htot. pose proof (zlen_nonneg (about key (onChangeQueue (store y)))). lia. }
  pose proof (published_handed key tr (fun l Hl => proj2 (Ho l Hl))) as Hpub.
  pose proof (notify_steps x tr y Hm) as Hsteps. rewrite Hx in Hsteps.
  destruct (PubSub.steps_buffer _ _ _ (keyspace key) ch c0 Hw Hsteps Hin) as (c & Hc' & _ & Heq); [|done|].
  { intros Hl. unfold labels in Hl. apply list_elem_of_In, in_concat in Hl as (l & Hl & Hin').
    apply list_elem_of_In, list_elem_of_fmap in Hl as (a & -> & Ha). apply list_elem_of_In in Hin'.
    destruct a as [| |e k n n'|l]; cbn [labels_of] in Hin'; try (by apply not_elem_of_nil in Hin').
    - apply elem_of_cons in Hin' as [|Hin']; [done|]. apply list_elem_of_singleton in Hin'. done.
    - apply list_elem_of_singleton in Hin'. by destruct (proj1 (Ho l Ha)). }
  exists c. split; [done|]. split; [|done]. rewrite Hb in Heq. cbn [app] in Heq. rewrite app_assoc, Heq, Hpub, <-about_app, Hcons by (rewrite Hpub, zlen_nil; lia).
  done.
Qed.

(** ** A key that is set and taken *)

Definition subscribed : PubSub.PubSub := (PubSub.Subscribe (keyspace "k") PubSub.NewPubSub).2.
Definition listening : system := mkSystem 0 (OnChange New) subscribed.
Definition after_set : Store := (exec 1 (CSet "k" "v" 0) (OnChange New)).2.
Definition handed_over : Store := after_set <| onChangeQueue := [] |>.
Definition sample_acts : list act :=
  [ACommand 1 (CSet "k" "v" 0) (OnChange New) after_set [("set", "k")]; ANotify "set" "k" 0 1; AOther (PubSub.LRecv 0 "set");
   ACommand 2 (CGetDel "k") handed_over (exec 2 (CGetDel "k") handed_over).2 [("del", "k")]]%string.

Lemma sample_moves : exists y, moves listening sample_acts y.
Proof.
  eexists. eapply moves_cons; [apply move_command; [done|reflexivity]|].
  eapply moves_cons.
  { eapply (move_notify "set" "k" [] [] [] [0] [] [] 0); [reflexivity|vm_compute; reflexivity|vm_compute; reflexivity|
      vm_compute; reflexivity|reflexivity|vm_compute; reflexivity|vm_compute; reflexivity]. }
  eapply moves_cons; [apply move_other, PubSub.step_recv; vm_compute; reflexivity|].
  eapply moves_cons; [|apply moves_nil]. apply (move_command 2 (CGetDel "k") (mkSystem _ handed_over _)); [done|reflexivity].
Qed.

Lemma listening_sound : sound (total sample_acts) listening.
Proof.
  split; cbn [clock store listening].
  - exists (fun _ => no_entry). split; intros k; [done|apply ok_none|done].
  - intros k. repeat split; done.
  - intros k. vm_compute. discriminate.
  - split; vm_compute; [discriminate|reflexivity].
  - reflexivity.
Qed.

Lemma changes_are_heard_witness :
  exists y c, moves listening sample_acts y /\ PubSub.chans (pubsub y) !! 0 = Some c /\
    PubSub.received 0 (labels sample_acts) ++ PubSub.buffer c ++ about "k" (onChangeQueue (store y)) = ["set"; "del"]%string.
Proof.
  destruct sample_moves as [y Hm].
  destruct (changes_are_heard "k" 0 (PubSub.mkChan [] false) [PubSub.LSub (keyspace "k") 0] subscribed listening sample_acts y)
    as (c & Hc & Heq & _).
  - eapply PubSub.steps_cons; [by apply PubSub.step_sub|constructor].
  - reflexivity.
  - exact listening_sound.
  - reflexivity.
  - vm_compute. discriminate.
  - vm_compute. discriminate.
  - apply (bool_decide_unpack _). vm_compute. exact I.
  - reflexivity.
  - reflexivity.
  - exact Hm.
  - intros l Hl. unfold sample_acts in Hl. repeat (apply elem_of_cons in Hl as [Hl|Hl]; [|]); try discriminate;
      [injection Hl as ->; split; [discriminate|intros; discriminate]|by apply not_elem_of_nil in Hl].
  - exists y, c. split; [done|]. split; [done|]. rewrite Heq. reflexivity.
Defined.

(** SREM is silent: removing a member changes the set and no event is queued. *)
Theorem srem_unheard :
  let s := (exec 1 (CSAdd "k" ["a"; "b"]%string) (OnChange New)).2 in
  let s' := (exec 2 (CSRem "k" ["a"]%string) s).2 in
  live 2 (entry s' "k") <> live 2 (entry s "k") /\ onChangeQueue s' = onChangeQueue s.
Proof. split; [vm_compute; discriminate|vm_compute; reflexivity]. Qed.
End Notify.
