(* ===== verification/Cluster.v ===== *)
(** * Cluster membership and slot ownership: internal/server/cluster.go

    The 16384 hash slots are divided among the nodes a server knows.  A
    [Cluster] is that server's view: its list of nodes and a copy of its own
    descriptor.  Network calls are events: [Meet] is given the identifier the
    remote node answered (empty when it did not), the heartbeat the result of
    a ping. *)
From S2P Require Import Prelude GoLib.

Module Cluster.

Definition slotCount : Z := 16384.

Definition NodeOnline : string := "online".
Definition NodeFailing : string := "failing".
Definition NodeOffline : string := "offline".

Record Node := mkNode {
  ID : string;
  Addr : string;
  Start : Z;
  End_ : Z;
  Self : bool;
  State : string;
  LastPing : Z;
  LastPong : Z;
  JoinedAt : Z
}.

(** The view of one server: [nodes] and [self]. *)
Record Cluster := mkCluster { nodes : list Node; self : Node }.

Definition set_range (a b : Z) (n : Node) : Node :=
  mkNode (ID n) (Addr n) a b (Self n) (State n) (LastPing n) (LastPong n) (JoinedAt n).

Definition set_self (n : Node) : Node :=
  mkNode (ID n) (Addr n) (Start n) (End_ n) true (State n) (LastPing n) (LastPong n) (JoinedAt n).

Definition set_state (st : string) (n : Node) : Node :=
  mkNode (ID n) (Addr n) (Start n) (End_ n) (Self n) st (LastPing n) (LastPong n) (JoinedAt n).

(** ** Slots *)

Definition Slot (key : string) : Z :=
  let key :=
    match cut_byte "{" key with
    | Some (_, rest) =>
        match cut_byte "}" rest with
        | Some (tag, _) => if String.eqb tag "" then key else tag
        | None => key
        end
    | None => key
    end in
  ChecksumIEEE key mod slotCount.

(** The range of the [j]-th of [n] nodes in the order of their identifiers. *)
Definition range_start (n j : Z) : Z := j * (slotCount / n).
Definition range_end (n j : Z) : Z :=
  if j =? n - 1 then slotCount - 1 else (j + 1) * (slotCount / n) - 1.

Definition id_le (a b : Node) : Prop := str_le (ID a) (ID b).
#[export] Instance id_le_dec : RelDecision id_le.
Proof. intros a b. unfold id_le. apply _. Defined.

#[export] Instance id_le_total : Total id_le.
Proof. intros a b. unfold id_le. apply (total str_le). Qed.

Definition assignSlots (l : list Node) : list Node :=
  let l := merge_sort id_le l in
  imap (fun i n => set_range (range_start (zlen l) (Z.of_nat i)) (range_end (zlen l) (Z.of_nat i)) n) l.

(** [n.Self || n.State == NodeOnline || n.State == ""] *)
Definition is_active (n : Node) : bool :=
  Self n || String.eqb (State n) NodeOnline || String.eqb (State n) "".

Definition active_indices (l : list Node) : list nat :=
  filter (fun i => match l !! i with Some n => is_active n | None => false end = true) (seq 0 (length l)).

Definition index_id (l : list Node) (i : nat) : string := match l !! i with Some n => ID n | None => "" end.

(** [c.nodes[active[a]].ID < c.nodes[active[b]].ID] *)
Definition index_le (l : list Node) (i j : nat) : Prop := str_le (index_id l i) (index_id l j).
#[export] Instance index_le_dec l : RelDecision (index_le l).
Proof. intros a b. unfold index_le. apply _. Defined.

(** The loop over the sorted indices. *)
Fixpoint give_ranges (n j : Z) (order : list nat) (l : list Node) : list Node :=
  match order with
  | [] => l
  | idx :: order => give_ranges n (j + 1) order (alter (set_range (range_start n j) (range_end n j)) idx l)
  end.

(** [for _, n := range c.nodes { if n.ID == c.self.ID { c.self = n } }] *)
Definition refresh_self (l : list Node) (me : Node) : Node :=
  fold_left (fun me n => if String.eqb (ID n) (ID me) then n else me) l me.

Definition rebalanceSlots (c : Cluster) : Cluster :=
  let active := active_indices (nodes c) in
  if zlen active =? 0 then c
  else
    let order := merge_sort (index_le (nodes c)) active in
    let cleared := set_range (-1) (-1) <$> nodes c in
    let l := give_ranges (zlen active) 0 order cleared in
    mkCluster l (refresh_self l (self c)).

(** ** Operations *)

Definition zeroTime : Z := -62135596800 * 10 ^ 9.

Definition peer_node (now : Z) (peer : string) : list Node :=
  let peer := TrimSpace peer in
  if String.eqb peer "" then []
  else
    match split_byte "@" peer with
    | [id; paddr] => [mkNode id paddr 0 0 false NodeOnline zeroTime now now]
    | id :: _ => [mkNode id peer 0 0 false NodeOnline zeroTime now now]
    | [] => []
    end.

Definition mark_self (selfID : string) (n : Node) : Node := if String.eqb (ID n) selfID then set_self n else n.

Definition NewCluster (now : Z) (selfID addr peers : string) : Cluster :=
  let me := mkNode selfID addr 0 (slotCount - 1) true NodeOnline zeroTime now now in
  let l := assignSlots (me :: concat (peer_node now <$> split_byte "," peers)) in
  let l := mark_self selfID <$> l in
  mkCluster l (refresh_self l me).

Definition covers (slot : Z) (n : Node) : bool := (Start n <=? slot) && (slot <=? End_ n).

Definition Owner (key : string) (c : Cluster) : Node :=
  default (self c) (List.find (covers (Slot key)) (nodes c)).

Definition SelfOwns (key : string) (c : Cluster) : bool := String.eqb (ID (Owner key c)) (ID (self c)).

Definition start_le (a b : Node) : Prop := Start a <= Start b.
#[export] Instance start_le_dec : RelDecision start_le.
Proof. intros a b. unfold start_le. apply _. Defined.

Definition Nodes (c : Cluster) : list Node := merge_sort start_le (nodes c).

(** [id] is what [fetchNodeID] returned. *)
Definition Meet (now : Z) (addr id : string) (c : Cluster) : result unit * Cluster :=
  if existsb (fun n => String.eqb (Addr n) addr) (nodes c) then (Ok tt, c)
  else if String.eqb id "" then (Err (String.append "cannot reach node at " addr), c)
  else
    let n := mkNode id addr 0 0 false NodeOnline zeroTime now now in
    (Ok tt, rebalanceSlots (mkCluster (nodes c ++ [n]) (self c))).

Definition Forget (nodeID : string) (c : Cluster) : result unit * Cluster :=
  if String.eqb nodeID (ID (self c)) then (Err "cannot forget self", c)
  else if negb (existsb (fun n => String.eqb (ID n) nodeID) (nodes c))
  then (Err (String.append "unknown node " nodeID), c)
  else
    let kept := filter (fun n => String.eqb (ID n) nodeID = false) (nodes c) in
    (Ok tt, rebalanceSlots (mkCluster kept (self c))).

Definition Reset (c : Cluster) : Cluster :=
  let me := set_state NodeOnline (set_range 0 (slotCount - 1) (self c)) in mkCluster [me] me.

(** What a ping of the peer with identifier [id] changes: the first node with
    that identifier, as in the loop with its [break]. *)
Definition pinged (now : Z) (ok : bool) (n : Node) : Node :=
  let pong := if ok then now else LastPong n in
  let st := if ok then NodeOnline
            else if now - LastPong n >? 30 * 10 ^ 9 then NodeOffline else NodeFailing in
  mkNode (ID n) (Addr n) (Start n) (End_ n) (Self n) st now pong (JoinedAt n).

Fixpoint ping_first (now : Z) (id : string) (ok : bool) (l : list Node) : list Node :=
  match l with
  | [] => []
  | n :: l => if String.eqb (ID n) id then pinged now ok n :: l else n :: ping_first now id ok l
  end.

Definition ping_result (now : Z) (id : string) (ok : bool) (c : Cluster) : Cluster :=
  mkCluster (ping_first now id ok (nodes c)) (self c).

Inductive cluster_event :=
| EMeet (now : Z) (addr id : string)
| EForget (id : string)
| EReset
| EPing (now : Z) (id : string) (ok : bool).

Definition cluster_step (c : Cluster) (e : cluster_event) : Cluster :=
  match e with
  | EMeet now addr id => (Meet now addr id c).2
  | EForget id => (Forget id c).2
  | EReset => Reset c
  | EPing now id ok => ping_result now id ok c
  end.

(** ** Each slot has one owner *)

Lemma Slot_range key : 0 <= Slot key < slotCount.
Proof. unfold Slot. apply Z.mod_pos_bound. done. Qed.

(** The position of the node that owns a slot among [n] nodes. *)
Definition owner_index (n slot : Z) : Z :=
  let w := slotCount / n in if w =? 0 then n - 1 else Z.min (slot / w) (n - 1).

Lemma owner_index_range n slot : 0 < n -> 0 <= slot -> 0 <= owner_index n slot < n.
Proof.
  intros Hn Hs. unfold owner_index. destruct (Z.eqb_spec (slotCount / n) 0); [lia|].
  assert (0 < slotCount / n) by (pose proof (Z.div_pos slotCount n ltac:(done) Hn); lia).
  pose proof (Z.div_pos slot (slotCount / n) Hs). lia.
Qed.

Lemma range_owner n slot j :
  0 < n -> 0 <= slot < slotCount -> 0 <= j < n ->
  range_start n j <= slot <= range_end n j <-> j = owner_index n slot.
Proof.
  intros Hn Hs Hj. unfold range_start, range_end, owner_index.
  pose proof (Z.div_pos slotCount n ltac:(done) Hn) as Hw. set (w := slotCount / n) in *.
  destruct (Z.eqb_spec w 0) as [E|E]; destruct (Z.eqb_spec j (n - 1)) as [Ej|Ej].
  - rewrite E. lia.
  - rewrite E. lia.
  - pose proof (Z.div_mod slot w E). pose proof (Z.mod_pos_bound slot w ltac:(lia)). nia.
  - pose proof (Z.div_mod slot w E). pose proof (Z.mod_pos_bound slot w ltac:(lia)). nia.
Qed.

(** Exactly one node of the list holds the slot. *)
Definition single_owner (slot : Z) (l : list Node) : Prop :=
  exists i n, l !! i = Some n /\ covers slot n = true /\
    forall j m, l !! j = Some m -> covers slot m = true -> j = i.

Definition partition (l : list Node) : Prop := forall slot, 0 <= slot < slotCount -> single_owner slot l.

Lemma covers_spec slot n : covers slot n = true <-> Start n <= slot <= End_ n.
Proof. unfold covers. rewrite andb_true_iff, !Z.leb_le. done. Qed.

Lemma find_owner slot l i n :
  l !! i = Some n -> covers slot n = true -> (forall j m, l !! j = Some m -> covers slot m = true -> j = i) ->
  List.find (covers slot) l = Some n.
Proof.
  revert i. induction l as [|x l IH]; intros i Hi Hc Hu; [done|]. cbn. destruct (covers slot x) eqn:Ex.
  - specialize (Hu 0%nat x eq_refl Ex). subst i. by injection Hi as ->.
  - destruct i as [|i]; [injection Hi as ->; congruence|]. apply (IH i); [done|done|].
    intros j m Hj Hm. specialize (Hu (S j) m Hj Hm). lia.
Qed.

Lemma assignSlots_lookup l i n :
  assignSlots l !! i = Some n -> Start n = range_start (zlen l) (Z.of_nat i) /\
    End_ n = range_end (zlen l) (Z.of_nat i).
Proof.
  unfold assignSlots. rewrite list_lookup_imap. intros H. apply fmap_Some in H as (m & _ & ->). cbn.
  assert (zlen (merge_sort id_le l) = zlen l) as -> by (unfold zlen; by rewrite merge_sort_Permutation). done.
Qed.

Lemma assignSlots_length l : length (assignSlots l) = length l.
Proof. unfold assignSlots. by rewrite length_imap, merge_sort_Permutation. Qed.

Lemma assignSlots_owner l slot :
  l <> [] -> 0 <= slot < slotCount ->
  exists n, assignSlots l !! Z.to_nat (owner_index (zlen l) slot) = Some n /\ covers slot n = true /\
    forall j m, assignSlots l !! j = Some m -> covers slot m = true -> j = Z.to_nat (owner_index (zlen l) slot).
Proof.
  intros Hl Hs. assert (0 < zlen l) as Hn by (destruct l; [done|]; rewrite zlen_cons; pose proof (zlen_nonneg l); lia).
  pose proof (owner_index_range (zlen l) slot Hn ltac:(lia)) as Ho. set (k := owner_index (zlen l) slot) in *.
  destruct (lookup_lt_is_Some_2 (assignSlots l) (Z.to_nat k)) as [n Hk].
  { rewrite assignSlots_length. unfold zlen in Ho. lia. }
  exists n. split; [done|]. split.
  - apply assignSlots_lookup in Hk as [Ha Hb]. rewrite covers_spec, Ha, Hb, Z2Nat.id by lia.
    by apply range_owner.
  - intros j m Hj Hm. pose proof (lookup_lt_Some _ _ _ Hj) as Hlt. rewrite assignSlots_length in Hlt.
    apply assignSlots_lookup in Hj as [Ha Hb]. rewrite covers_spec, Ha, Hb in Hm.
    assert (Z.of_nat j = k) as <-; [|lia]. apply range_owner; [done|done|unfold zlen; lia|done].
Qed.

(** *** Rebalancing *)

Lemma give_ranges_other n order : forall j l i, i ∉ order -> give_ranges n j order l !! i = l !! i.
Proof.
  induction order as [|idx order IH]; intros j l i Hi; [done|]. cbn.
  rewrite not_elem_of_cons in Hi. destruct Hi as [Hne Hi]. rewrite IH by done.
  by rewrite list_lookup_alter_ne.
Qed.

Lemma give_ranges_nth n order : forall j l i k,
  NoDup order -> order !! k = Some i ->
  give_ranges n j order l !! i =
    set_range (range_start n (j + Z.of_nat k)) (range_end n (j + Z.of_nat k)) <$> l !! i.
Proof.
  induction order as [|idx order IH]; intros j l i k Hnd Hk; [done|]. cbn. apply NoDup_cons in Hnd as [Hni Hnd].
  destruct k as [|k].
  - injection Hk as ->. rewrite give_ranges_other by done. rewrite list_lookup_alter_eq, Z.add_0_r. done.
  - cbn in Hk. rewrite (IH (j + 1) _ i k Hnd Hk). rewrite list_lookup_alter_ne.
    + by replace (j + 1 + Z.of_nat k) with (j + Z.of_nat (S k)) by lia.
    + intros ->. apply Hni. by eapply list_elem_of_lookup_2.
Qed.

Lemma active_in l i : i ∈ active_indices l <-> exists n, l !! i = Some n /\ is_active n = true.
Proof.
  unfold active_indices. rewrite list_elem_of_filter, elem_of_seq. split.
  - intros [H _]. destruct (l !! i) as [n|]; [by exists n|done].
  - intros (n & Hn & Ha). rewrite Hn. split; [done|]. apply lookup_lt_Some in Hn. lia.
Qed.

Lemma active_nodup l : NoDup (active_indices l).
Proof. apply NoDup_filter, NoDup_seq. Qed.

(** The node at the owner's place of [order] gets the slot, and no other. *)
Lemma give_ranges_owner l order slot :
  order <> [] -> NoDup order -> (forall i, i ∈ order -> is_Some (l !! i)) -> 0 <= slot < slotCount ->
  let l' := give_ranges (zlen order) 0 order (set_range (-1) (-1) <$> l) in
  exists i x n, order !! Z.to_nat (owner_index (zlen order) slot) = Some i /\ l !! i = Some x /\
    l' !! i = Some n /\ ID n = ID x /\ covers slot n = true /\
    forall j m, l' !! j = Some m -> covers slot m = true -> j = i.
Proof.
  intros Hne Hnd Hin Hs l'. unfold l'.
  assert (0 < zlen order) as Hn.
  { destruct order; [done|]. rewrite zlen_cons. pose proof (zlen_nonneg order). lia. }
  pose proof (owner_index_range (zlen order) slot Hn ltac:(lia)) as Ho.
  destruct (lookup_lt_is_Some_2 order (Z.to_nat (owner_index (zlen order) slot))) as [i Hi].
  { unfold zlen in *. lia. }
  destruct (Hin i (list_elem_of_lookup_2 _ _ _ Hi)) as [x Hx].
  eexists i, x, _. split; [done|]. split; [done|]. split; [|split; [|split]].
  - rewrite (give_ranges_nth _ _ 0 _ _ _ Hnd Hi), list_lookup_fmap, Hx. reflexivity.
  - reflexivity.
  - apply covers_spec. cbn. rewrite Z2Nat.id by lia. by apply range_owner.
  - intros j m Hj Hm. destruct (decide (j ∈ order)) as [Hjo|Hjo].
    + apply list_elem_of_lookup in Hjo as [k Hk]. rewrite (give_ranges_nth _ _ 0 _ _ _ Hnd Hk) in Hj.
      rewrite list_lookup_fmap in Hj. destruct (l !! j) as [y|]; [|done]. injection Hj as <-.
      rewrite covers_spec in Hm. cbn in Hm. apply lookup_lt_Some in Hk as Hlt.
      apply range_owner in Hm; [|done|done|unfold zlen; lia].
      assert (k = Z.to_nat (owner_index (zlen order) slot)) as -> by lia. congruence.
    + rewrite give_ranges_other, list_lookup_fmap in Hj by done. destruct (l !! j) as [y|]; [|done].
      injection Hj as <-. rewrite covers_spec in Hm. cbn in Hm. lia.
Qed.

Lemma give_ranges_partition l order :
  order <> [] -> NoDup order -> (forall i, i ∈ order -> is_Some (l !! i)) ->
  partition (give_ranges (zlen order) 0 order (set_range (-1) (-1) <$> l)).
Proof.
  intros Hne Hnd Hin slot Hs. destruct (give_ranges_owner l order slot Hne Hnd Hin Hs) as (i & x & n & _ & _ & Hn & _ & Hc & Hu).
  by exists i, n.
Qed.

Lemma rebalance_partition c :
  (exists n, n ∈ nodes c /\ is_active n = true) -> partition (nodes (rebalanceSlots c)).
Proof.
  intros (n & [i Hi]%list_elem_of_lookup & Ha). unfold rebalanceSlots.
  assert (i ∈ active_indices (nodes c)) as Hin by (apply active_in; eauto).
  destruct (Z.eqb_spec (zlen (active_indices (nodes c))) 0) as [E|_].
  { destruct (active_indices (nodes c)) as [|a t]; [by apply not_elem_of_nil in Hin|].
    rewrite zlen_cons in E. pose proof (zlen_nonneg t). lia. }
  cbn [nodes]. set (order := merge_sort _ _).
  assert (order ≡ₚ active_indices (nodes c)) as Hp by apply merge_sort_Permutation.
  replace (zlen (active_indices (nodes c))) with (zlen order) by (unfold zlen; by rewrite Hp).
  apply give_ranges_partition.
  - intros E. rewrite <-Hp, E in Hin. by apply not_elem_of_nil in Hin.
  - rewrite Hp. apply active_nodup.
  - intros k Hk. rewrite Hp in Hk. apply active_in in Hk as (x & Hx & _). by exists x.
Qed.

(** *** The invariant of a view *)

Definition tag (n : Node) : string * bool := (ID n, Self n).

Record cinv (selfID : string) (c : Cluster) : Prop := {
  ci_self : tag (self c) = (selfID, true);
  ci_present : (selfID, true) ∈ (tag <$> nodes c);
  ci_own : (selfID, false) ∉ (tag <$> nodes c);
  ci_partition : partition (nodes c)
}.

(** Ranges are all that [rebalanceSlots] changes. *)
Lemma give_ranges_keeps {B} (f : Node -> B) n order :
  (forall a b m, f (set_range a b m) = f m) -> forall j l, f <$> give_ranges n j order l = f <$> l.
Proof.
  intros Hf. induction order as [|idx order IH]; intros j l; [done|]. cbn. rewrite IH.
  apply list_eq. intros i. rewrite !list_lookup_fmap. destruct (decide (idx = i)) as [->|Hne].
  - rewrite list_lookup_alter_eq. destruct (l !! i); cbn; [by rewrite Hf|done].
  - by rewrite list_lookup_alter_ne.
Qed.

Lemma rebalance_keeps {B} (f : Node -> B) c :
  (forall a b m, f (set_range a b m) = f m) -> f <$> nodes (rebalanceSlots c) = f <$> nodes c.
Proof.
  intros Hf. unfold rebalanceSlots. case_match; [done|]. cbn [nodes]. rewrite give_ranges_keeps by done.
  rewrite <-list_fmap_compose. apply list_fmap_ext. intros i n _. apply Hf.
Qed.

Lemma refresh_self_cases l me : refresh_self l me = me \/ (refresh_self l me ∈ l /\ ID (refresh_self l me) = ID me).
Proof.
  unfold refresh_self. revert me. induction l as [|n l IH]; intros me; cbn; [by left|].
  destruct (String.eqb_spec (ID n) (ID me)) as [E|E].
  - destruct (IH n) as [->|[H1 H2]]; right; [split; [left|done]|]. split; [by right|congruence].
  - destruct (IH me) as [->|[H1 H2]]; [by left|]. right. split; [by right|done].
Qed.

Lemma refresh_self_tag selfID l me :
  tag me = (selfID, true) -> (selfID, false) ∉ (tag <$> l) -> tag (refresh_self l me) = (selfID, true).
Proof.
  intros Hme Hl. destruct (refresh_self_cases l me) as [->|[H1 H2]]; [done|].
  injection Hme as Hid _. unfold tag. rewrite H2, Hid. f_equal.
  destruct (Self (refresh_self l me)) eqn:E; [done|]. exfalso. apply Hl.
  apply list_elem_of_fmap. exists (refresh_self l me). split; [|done]. unfold tag. by rewrite H2, Hid, E.
Qed.

Lemma rebalance_inv selfID l me :
  tag me = (selfID, true) -> (selfID, true) ∈ (tag <$> l) -> (selfID, false) ∉ (tag <$> l) ->
  cinv selfID (rebalanceSlots (mkCluster l me)).
Proof.
  intros Hme Hp Ho.
  assert (partition (nodes (rebalanceSlots (mkCluster l me)))) as Hpart.
  { apply rebalance_partition. apply list_elem_of_fmap in Hp as (n & E & Hn). exists n. split; [done|].
    injection E as _ E. unfold is_active. by rewrite <-E. }
  assert (tag <$> nodes (rebalanceSlots (mkCluster l me)) = tag <$> l) as Ht.
  { by apply rebalance_keeps. }
  split; [|by rewrite Ht|by rewrite Ht|done].
  unfold rebalanceSlots in *. case_match; [done|]. cbn in *. apply refresh_self_tag; [done|]. by rewrite Ht.
Qed.

Lemma ping_keeps now id ok l :
  tag <$> ping_first now id ok l = tag <$> l /\
  (fun n => (Start n, End_ n)) <$> ping_first now id ok l = (fun n => (Start n, End_ n)) <$> l.
Proof.
  induction l as [|n l [IH1 IH2]]; [done|]. cbn. case_match; [done|]. cbn. by rewrite IH1, IH2.
Qed.

Lemma partition_ranges (l l' : list Node) :
  (fun n => (Start n, End_ n)) <$> l' = (fun n => (Start n, End_ n)) <$> l -> partition l -> partition l'.
Proof.
  intros E H slot Hs. destruct (H slot Hs) as (i & n & Hi & Hc & Hu).
  assert (forall i, (fun n => (Start n, End_ n)) <$> l' !! i = (fun n => (Start n, End_ n)) <$> l !! i) as Hl.
  { intros k. rewrite <-!list_lookup_fmap. by rewrite E. }
  pose proof (Hl i) as Hli. rewrite Hi in Hli. apply fmap_Some in Hli as (n' & Hi' & [= Ea Eb]).
  exists i, n'. split; [done|]. unfold covers in *. split; [by rewrite <-Ea, <-Eb|].
  intros j m Hj Hm. pose proof (Hl j) as Hlj. rewrite Hj in Hlj. symmetry in Hlj.
  apply fmap_Some in Hlj as (m' & Hj' & [= Ea' Eb']). apply (Hu j m'); [done|]. by rewrite <-Ea', <-Eb'.
Qed.

Lemma step_inv selfID c e :
  cinv selfID c -> match e with EMeet _ _ id => id <> selfID | _ => True end -> cinv selfID (cluster_step c e).
Proof.
  intros H He. destruct c as [l me]. destruct e as [now addr id|id| |now id ok]; cbn [cluster_step].
  - unfold Meet. case_match; [done|]. case_match; [done|]. cbn [snd nodes self].
    apply rebalance_inv; [apply H| |]; rewrite fmap_app, elem_of_app.
    + left. apply H.
    + intros [Hin|Hin]; [by apply (ci_own _ _ H)|].
      cbn in Hin. apply list_elem_of_singleton in Hin. injection Hin as ->. done.
  - unfold Forget. case_match eqn:E1; [done|]. case_match; [done|]. cbn [snd nodes self] in *.
    pose proof (ci_self _ _ H) as Hs. cbn in Hs. injection Hs as Hid Hself.
    apply String.eqb_neq in E1. apply rebalance_inv; [apply H| |].
    + pose proof (ci_present _ _ H) as Hp. cbn in Hp. apply list_elem_of_fmap in Hp as (n & En & Hn).
      apply list_elem_of_fmap. exists n. split; [done|]. apply list_elem_of_filter. split; [|done].
      injection En as En _. apply String.eqb_neq. congruence.
    + intros Hin. apply (ci_own _ _ H). cbn. apply list_elem_of_fmap in Hin as (n & En & Hn).
      apply list_elem_of_filter in Hn as [_ Hn]. apply list_elem_of_fmap. by exists n.
  - unfold Reset. cbn [self]. pose proof (ci_self _ _ H) as Hs. cbn in Hs. injection Hs as Hid Hself.
    split; cbn.
    + unfold tag. cbn. by rewrite Hid, Hself.
    + unfold tag. cbn. rewrite Hid, Hself. left.
    + unfold tag. cbn. rewrite Hid, Hself. intros Hin. by apply list_elem_of_singleton in Hin.
    + intros slot Hslot. eexists 0%nat, _. split; [reflexivity|]. split.
      * apply covers_spec. cbn. lia.
      * intros [|j] m Hj; [done|]. by destruct j.
  - unfold ping_result. cbn [nodes self]. destruct (ping_keeps now id ok l) as [H1 H2].
    split; cbn; rewrite ?H1; try apply H. apply (partition_ranges l); [done|]. apply H.
Qed.

Lemma mark_self_ranges selfID (l : list Node) :
  (fun n => (Start n, End_ n)) <$> (mark_self selfID <$> l) = (fun n => (Start n, End_ n)) <$> l.
Proof. rewrite <-list_fmap_compose. apply list_fmap_ext. intros i n _. cbn. unfold mark_self. by case_match. Qed.

(** The identifiers a server starts with. *)
Definition peer_ids (peers : string) : list string := ID <$> concat (peer_node 0 <$> split_byte "," peers).

Lemma peer_node_now now peer : ID <$> peer_node now peer = ID <$> peer_node 0 peer.
Proof. unfold peer_node. case_match; [done|]. repeat case_match; done. Qed.

Lemma peer_nodes_ids now peers : ID <$> concat (peer_node now <$> split_byte "," peers) = peer_ids peers.
Proof.
  unfold peer_ids. induction (split_byte "," peers) as [|p l IH]; [done|]. cbn.
  by rewrite !fmap_app, IH, peer_node_now.
Qed.

Lemma assignSlots_ids l : ID <$> assignSlots l = sort_strings (ID <$> l).
Proof.
  unfold assignSlots. rewrite fmap_imap.
  assert (ID <$> merge_sort id_le l = sort_strings (ID <$> l)) as <-.
  { apply (Sorted_unique str_le); [|apply sort_strings_sorted|].
    - pose proof (Sorted_merge_sort id_le l) as Hs. induction Hs as [|a k Hs IH Hh]; [constructor|].
      cbn. constructor; [done|]. destruct Hh; constructor. done.
    - rewrite sort_strings_perm. by rewrite merge_sort_Permutation. }
  apply list_eq. intros i. rewrite list_lookup_imap, list_lookup_fmap. by destruct (_ !! i).
Qed.

Lemma NewCluster_ids now selfID addr peers :
  ID <$> nodes (NewCluster now selfID addr peers) = sort_strings (selfID :: peer_ids peers).
Proof.
  unfold NewCluster. cbn [nodes]. rewrite <-list_fmap_compose.
  transitivity (ID <$> assignSlots (mkNode selfID addr 0 (slotCount - 1) true NodeOnline zeroTime now now
                  :: concat (peer_node now <$> split_byte "," peers))).
  { apply list_fmap_ext. intros i n _. cbn. unfold mark_self. by case_match. }
  rewrite assignSlots_ids. cbn [fmap list_fmap ID]. by rewrite peer_nodes_ids.
Qed.

Lemma NewCluster_tag now selfID addr peers :
  tag (self (NewCluster now selfID addr peers)) = (selfID, true) /\
  (selfID, true) ∈ (tag <$> nodes (NewCluster now selfID addr peers)) /\
  (selfID, false) ∉ (tag <$> nodes (NewCluster now selfID addr peers)).
Proof.
  set (c := NewCluster now selfID addr peers).
  assert (forall n, n ∈ nodes c -> ID n = selfID -> Self n = true) as Hown.
  { intros n Hn Hid. unfold c, NewCluster in Hn. cbn [nodes] in Hn. apply list_elem_of_fmap in Hn as (m & -> & _).
    unfold mark_self in *. destruct (String.eqb_spec (ID m) selfID); done. }
  assert ((selfID, false) ∉ (tag <$> nodes c)) as Hno.
  { intros (n & E & Hn)%list_elem_of_fmap. injection E as E1 E2. rewrite Hown in E2; done. }
  split; [|split; [|done]].
  - unfold c, NewCluster. cbn [self]. apply refresh_self_tag; [done|exact Hno].
  - assert (selfID ∈ (ID <$> nodes c)) as Hin.
    { unfold c. rewrite NewCluster_ids, sort_strings_perm. left. }
    apply list_elem_of_fmap in Hin as (n & Hid & Hn). apply list_elem_of_fmap. exists n. split; [|done].
    unfold tag. by rewrite <-Hid, Hown.
Qed.

Lemma NewCluster_owner now selfID addr peers slot :
  0 <= slot < slotCount ->
  let c := NewCluster now selfID addr peers in
  let k := Z.to_nat (owner_index (zlen (selfID :: peer_ids peers)) slot) in
  exists n, nodes c !! k = Some n /\ covers slot n = true /\
    forall j m, nodes c !! j = Some m -> covers slot m = true -> j = k.
Proof.
  intros Hs c k. unfold c, NewCluster. cbn [nodes].
  set (l := mkNode selfID addr 0 (slotCount - 1) true NodeOnline zeroTime now now
              :: concat (peer_node now <$> split_byte "," peers)).
  assert (zlen (selfID :: peer_ids peers) = zlen l) as Hlen.
  { unfold l. rewrite !zlen_cons. unfold zlen. by rewrite <-(peer_nodes_ids now peers), length_fmap. }
  destruct (assignSlots_owner l slot ltac:(done) Hs) as (n & Hn & Hc & Hu).
  unfold k. rewrite Hlen. exists (mark_self selfID n). rewrite list_lookup_fmap, Hn. split; [done|].
  assert (forall x, covers slot (mark_self selfID x) = covers slot x) as Hm
    by (intros x; unfold mark_self; by case_match).
  split; [by rewrite Hm|]. intros j m Hj Hcm. rewrite list_lookup_fmap in Hj.
  apply fmap_Some in Hj as (m' & Hj & ->). rewrite Hm in Hcm. by apply (Hu j m').
Qed.

Lemma NewCluster_inv now selfID addr peers : cinv selfID (NewCluster now selfID addr peers).
Proof.
  destruct (NewCluster_tag now selfID addr peers) as (H1 & H2 & H3). split; [done|done|done|].
  intros slot Hs. destruct (NewCluster_owner now selfID addr peers slot Hs) as (n & Hn & Hc & Hu).
  by eexists _, n.
Qed.

(** C22: the slots stay partitioned.  Start a server with any configuration and let any sequence of
    CLUSTER MEET, FORGET, RESET and heartbeat results happen (no met node carrying the server's own
    identifier): in the resulting view every key has exactly one node whose range holds its slot, and
    that node is the one [Owner] returns. *)
Theorem cluster_slots_partition now selfID addr peers evs :
  Forall (fun e => match e with EMeet _ _ id => id <> selfID | _ => True end) evs ->
  let c := fold_left cluster_step evs (NewCluster now selfID addr peers) in
  forall key, exists i, nodes c !! i = Some (Owner key c) /\ covers (Slot key) (Owner key c) = true /\
    forall j m, nodes c !! j = Some m -> covers (Slot key) m = true -> j = i.
Proof.
  intros Hev c key.
  assert (forall evs c0, Forall (fun e => match e with EMeet _ _ id => id <> selfID | _ => True end) evs ->
            cinv selfID c0 -> cinv selfID (fold_left cluster_step evs c0)) as Hrun.
  { clear. induction evs as [|e evs IH]; intros c0 He Hc; [done|]. apply Forall_cons in He as [He Hevs].
    cbn. apply IH; [done|]. by apply step_inv. }
  specialize (Hrun evs _ Hev (NewCluster_inv now selfID addr peers)). fold c in Hrun.
  destruct (ci_partition _ _ Hrun (Slot key) (Slot_range key)) as (i & n & Hi & Hc & Hu).
  exists i. unfold Owner. rewrite (find_owner _ _ _ _ Hi Hc Hu). done.
Qed.

Lemma cluster_slots_partition_witness :
  let c := fold_left cluster_step [EMeet 5 "h3:1" "n3"; EPing 9 "n2" false; EForget "n2"]
             (NewCluster 0 "n1" ":1" "n2@h2:1") in
  exists i, nodes c !! i = Some (Owner "user:{42}:name" c) /\
    covers (Slot "user:{42}:name") (Owner "user:{42}:name" c) = true.
Proof.
  assert (Forall (fun e => match e with EMeet _ _ id => id <> "n1" | _ => True end)
            [EMeet 5 "h3:1" "n3"; EPing 9 "n2" false; EForget "n2"]) as H.
  { constructor; [discriminate|]. repeat constructor. }
  destruct (cluster_slots_partition 0 "n1" ":1" "n2@h2:1" _ H "user:{42}:name") as (i & H1 & H2 & _).
  exists i. exact (conj H1 H2).
Defined.

(** ** The servers agree *)

(** The owner a freshly configured server computes depends only on the set of
    identifiers. *)
Lemma Owner_id now selfID addr peers key :
  Some (ID (Owner key (NewCluster now selfID addr peers))) =
    sort_strings (selfID :: peer_ids peers)
      !! Z.to_nat (owner_index (zlen (selfID :: peer_ids peers)) (Slot key)).
Proof.
  rewrite <-(NewCluster_ids now selfID addr peers), list_lookup_fmap.
  destruct (NewCluster_owner now selfID addr peers (Slot key) (Slot_range key)) as (n & Hn & Hc & Hu).
  unfold Owner. rewrite (find_owner _ _ _ _ Hn Hc Hu), Hn. done.
Qed.

Lemma Owner_member now selfID addr peers key :
  let c := NewCluster now selfID addr peers in Owner key c ∈ nodes c.
Proof.
  intros c. destruct (NewCluster_owner now selfID addr peers (Slot key) (Slot_range key)) as (n & Hn & Hc & Hu).
  unfold Owner. fold c in Hn, Hu. rewrite (find_owner _ _ _ _ Hn Hc Hu). by eapply list_elem_of_lookup_2.
Qed.

(** Servers configured with one set of identifiers compute one owner. *)
Lemma shared_owner (ids : list string) (now : string -> Z) (addr peers : string -> string) key :
  ids <> [] -> (forall x, x ∈ ids -> x :: peer_ids (peers x) ≡ₚ ids) ->
  exists owner, owner ∈ ids /\ forall x, x ∈ ids ->
    let c := NewCluster (now x) x (addr x) (peers x) in ID (Owner key c) = owner /\ ID (self c) = x.
Proof.
  intros Hne Hp.
  assert (0 < zlen ids) as Hlen.
  { destruct ids; [done|]. rewrite zlen_cons. pose proof (zlen_nonneg ids). lia. }
  pose proof (owner_index_range (zlen ids) (Slot key) Hlen (proj1 (Slot_range key))) as Ho.
  destruct (lookup_lt_is_Some_2 (sort_strings ids) (Z.to_nat (owner_index (zlen ids) (Slot key)))) as [owner Howner].
  { rewrite sort_strings_perm. unfold zlen in *. lia. }
  exists owner. split; [rewrite <-sort_strings_perm; by eapply list_elem_of_lookup_2|].
  intros x Hx c. specialize (Hp x Hx).
  pose proof (Owner_id (now x) x (addr x) (peers x) key) as E.
  rewrite (sort_strings_unique _ _ Hp) in E.
  assert (zlen (x :: peer_ids (peers x)) = zlen ids) as Hl by (unfold zlen; by rewrite Hp).
  rewrite Hl, Howner in E. injection E as E. split; [done|].
  destruct (NewCluster_tag (now x) x (addr x) (peers x)) as [Ht _]. by apply (f_equal fst) in Ht.
Qed.

(** A statically configured cluster has one owner per key.  If every server is started with its own
    identifier and the others as peers, in any order and with any addresses, then for every key exactly
    one of the servers believes it owns it, so a key is served by exactly one of them. *)
Theorem cluster_single_owner (ids : list string) (now : string -> Z) (addr peers : string -> string) key :
  ids <> [] -> NoDup ids -> (forall x, x ∈ ids -> x :: peer_ids (peers x) ≡ₚ ids) ->
  exists owner, owner ∈ ids /\
    forall x, x ∈ ids -> SelfOwns key (NewCluster (now x) x (addr x) (peers x)) = true <-> x = owner.
Proof.
  intros Hne _ Hp. destruct (shared_owner ids now addr peers key Hne Hp) as (owner & Hin & H).
  exists owner. split; [done|]. intros x Hx. destruct (H x Hx) as [H1 H2]. unfold SelfOwns.
  rewrite H1, H2, String.eqb_eq. split; congruence.
Qed.

Definition three_peers (x : string) : string :=
  if String.eqb x "n1" then "n2@h2:1, n3@h3:1" else if String.eqb x "n2" then "n3@h3:1,n1@h1:1" else "n1@h1:1,n2@h2:1".

Lemma cluster_single_owner_witness :
  exists owner, owner ∈ ["n1"; "n2"; "n3"] /\
    forall x, x ∈ ["n1"; "n2"; "n3"] ->
      SelfOwns "key" (NewCluster 0 x ":1" (three_peers x)) = true <-> x = owner.
Proof.
  apply (cluster_single_owner ["n1"; "n2"; "n3"] (fun _ => 0) (fun _ => ":1") three_peers "key").
  - discriminate.
  - apply (bool_decide_unpack _). vm_compute. exact I.
  - intros x Hx. apply (bool_decide_unpack _).
    repeat (apply elem_of_cons in Hx as [->|Hx]; [vm_compute; exact I|]). by apply not_elem_of_nil in Hx.
Defined.

(** ** Views that were joined *)

(** A view in which every node takes part and the owners follow from the
    identifiers alone. *)
Definition balanced (c : Cluster) : Prop :=
  Forall (fun n => is_active n = true) (nodes c) /\
  forall key, Some (ID (Owner key c)) =
    sort_strings (ID <$> nodes c) !! Z.to_nat (owner_index (zlen (nodes c)) (Slot key)).

Lemma NewCluster_active now selfID addr peers : Forall (fun n => is_active n = true) (nodes (NewCluster now selfID addr peers)).
Proof.
  apply Forall_forall. intros n Hn. unfold NewCluster in Hn. cbn [nodes] in Hn. apply list_elem_of_fmap in Hn as (m & -> & Hm).
  assert (is_active m = true) as Ha; [|unfold mark_self; case_match; [done|exact Ha]].
  unfold assignSlots in Hm. apply elem_of_lookup_imap in Hm as (i & x & -> & Hx%list_elem_of_lookup_2).
  rewrite merge_sort_Permutation in Hx. change (is_active x = true). apply elem_of_cons in Hx as [->|Hx]; [done|].
  apply list_elem_of_In, in_concat in Hx as (l & Hl & Hx). apply list_elem_of_In, list_elem_of_fmap in Hl as (p & -> & _).
  apply list_elem_of_In in Hx. unfold peer_node in Hx. repeat case_match; try (by apply not_elem_of_nil in Hx);
    apply list_elem_of_singleton in Hx; by subst.
Qed.

Lemma NewCluster_balanced now selfID addr peers : balanced (NewCluster now selfID addr peers).
Proof.
  split; [apply NewCluster_active|]. intros key. rewrite Owner_id, NewCluster_ids.
  assert (zlen (nodes (NewCluster now selfID addr peers)) = zlen (selfID :: peer_ids peers)) as ->.
  { unfold zlen. f_equal. rewrite <-(length_fmap ID), NewCluster_ids. by rewrite sort_strings_perm. }
  by rewrite (sort_strings_unique (sort_strings (selfID :: peer_ids peers)) (selfID :: peer_ids peers)) by apply sort_strings_perm.
Qed.

Lemma all_active l : Forall (fun n => is_active n = true) l -> active_indices l = seq 0 (length l).
Proof.
  intros Ha. unfold active_indices. apply filter_all. intros i Hi. apply elem_of_seq in Hi.
  destruct (lookup_lt_is_Some_2 l i) as [n Hn]; [lia|]. rewrite Hn. exact (Forall_lookup_1 _ _ _ _ Ha Hn).
Qed.

Lemma index_ids l : index_id l <$> seq 0 (length l) = ID <$> l.
Proof.
  apply list_eq. intros i. rewrite !list_lookup_fmap. destruct (decide (i < length l)%nat) as [Hi|Hi].
  - rewrite lookup_seq_lt by done. cbn. unfold index_id. destruct (lookup_lt_is_Some_2 l i Hi) as [n ->]. done.
  - rewrite lookup_seq_ge, lookup_ge_None_2 by lia. done.
Qed.

#[export] Instance index_le_total l : Total (index_le l).
Proof. intros a b. unfold index_le. apply (total str_le). Qed.

(** Sorting the indices by identifier sorts the identifiers. *)
Lemma index_sort l : index_id l <$> merge_sort (index_le l) (seq 0 (length l)) = sort_strings (ID <$> l).
Proof.
  apply (Sorted_unique str_le); [|apply sort_strings_sorted|].
  - pose proof (Sorted_merge_sort (index_le l) (seq 0 (length l))) as Hs. induction Hs as [|a k Hs IH Hh]; [constructor|].
    cbn. constructor; [done|]. destruct Hh; constructor. done.
  - by rewrite sort_strings_perm, merge_sort_Permutation, index_ids.
Qed.

Lemma rebalance_balanced l me :
  l <> [] -> Forall (fun n => is_active n = true) l -> balanced (rebalanceSlots (mkCluster l me)).
Proof.
  intros Hne Ha. set (c := rebalanceSlots (mkCluster l me)). assert (zlen (nodes c) = zlen l) as Hlen.
  { unfold zlen. f_equal. rewrite <-(length_fmap ID (nodes c)). unfold c. rewrite rebalance_keeps by done. apply length_fmap. }
  assert (length l <> 0%nat) as Hl by (by destruct l).
  set (order := merge_sort (index_le l) (seq 0 (length l))).
  assert (order ≡ₚ seq 0 (length l)) as Hp by apply merge_sort_Permutation.
  assert (zlen order = zlen l) as Hz by (unfold zlen; by rewrite Hp, length_seq).
  assert (nodes c = give_ranges (zlen order) 0 order (set_range (-1) (-1) <$> l)) as Hc.
  { unfold c, rebalanceSlots. cbn [nodes]. rewrite all_active by done. fold order.
    replace (zlen (seq 0 (length l))) with (zlen order) by (unfold zlen; by rewrite Hp).
    rewrite Hz. destruct (Z.eqb_spec (zlen l) 0) as [E|_]; [unfold zlen in E; lia|done]. }
  split.
  - apply (Forall_fmap is_active (fun x => x = true)). unfold c. rewrite rebalance_keeps by done. by apply Forall_fmap.
  - intros key. destruct (give_ranges_owner l order (Slot key)) as (i & x & n & Hi & Hx & Hn & Hid & Hcv & Hu).
    { intros E. rewrite E in Hp. apply Permutation_nil_l in Hp. destruct (length l); done. }
    { rewrite Hp. apply NoDup_seq. }
    { intros i Hi. rewrite Hp in Hi. apply elem_of_seq in Hi. apply lookup_lt_is_Some. lia. }
    { apply Slot_range. }
    rewrite <-Hc in Hn, Hu. unfold Owner. rewrite (find_owner _ _ _ _ Hn Hcv Hu). cbn [default].
    unfold c at 2. rewrite rebalance_keeps by done. cbn [nodes]. rewrite <-index_sort. fold order.
    rewrite Hlen, <-Hz, list_lookup_fmap, Hi. cbn. unfold index_id. by rewrite Hx, Hid.
Qed.

(** MEET of an unknown address keeps a balanced view and adds its node. *)
Lemma Meet_balanced now addr id c :
  balanced c -> id <> "" -> addr ∉ (Addr <$> nodes c) ->
  let '(r, c') := Meet now addr id c in
  r = Ok tt /\ balanced c' /\ ID <$> nodes c' = (ID <$> nodes c) ++ [id] /\ Addr <$> nodes c' = (Addr <$> nodes c) ++ [addr] /\
  ID (self c') = ID (self c).
Proof.
  intros [Ha _] Hid Haddr. unfold Meet. destruct (existsb _ (nodes c)) eqn:E.
  { apply existsb_exists in E as (n & Hn & E%String.eqb_eq). destruct Haddr. apply list_elem_of_fmap. exists n.
    split; [done|by apply list_elem_of_In]. }
  apply String.eqb_neq in Hid. rewrite Hid. cbv zeta. set (n := mkNode id addr _ _ _ _ _ _ _).
  assert (Forall (fun n => is_active n = true) (nodes c ++ [n])) as Ha' by (apply Forall_app; by repeat constructor).
  split; [done|]. split; [apply rebalance_balanced; [by destruct (nodes c)|done]|].
  split; [by rewrite rebalance_keeps by done; cbn [nodes]; rewrite fmap_app|].
  split; [by rewrite rebalance_keeps by done; cbn [nodes]; rewrite fmap_app|].
  unfold rebalanceSlots. case_match; [done|]. cbn [self]. set (l := give_ranges _ _ _ _).
  by destruct (refresh_self_cases l (self c)) as [->|[_ ->]].
Qed.

(** ** Hash tags *)

Lemma cut_byte_sub c x a b : cut_byte c a = Some (x, b) -> forall d, cut_byte d a = None -> cut_byte d b = None.
Proof.
  revert x. induction a as [|y a IH]; intros x; [done|]. cbn. destruct (Ascii.eqb y c).
  - intros [= <- <-] d. destruct (Ascii.eqb y d); [done|]. by destruct (cut_byte d a) as [[? ?]|].
  - destruct (cut_byte c a) as [[u v]|] eqn:E; [|done]. intros [= <- ->] d.
    destruct (Ascii.eqb y d); [done|]. destruct (cut_byte d a) as [[? ?]|] eqn:Ed; [done|].
    intros _. by apply (IH u).
Qed.

(** Keys with the same hash tag share a slot.  The text between the first opening brace and the
    next closing one, when it is not empty, decides the slot alone: the slot is that of the tag itself,
    and it is always below 16384. *)
Theorem slot_hashtag prefix tag rest :
  cut_byte "{" prefix = None -> cut_byte "}" tag = None -> tag <> "" ->
  Slot (String.append prefix (String "{" (String.append tag (String "}" rest)))) = Slot tag /\
  0 <= Slot tag < slotCount.
Proof.
  intros Hp Ht Hne. split; [|apply Slot_range].
  unfold Slot. rewrite (cut_byte_app "{") by done. rewrite (cut_byte_app "}") by done.
  rewrite (proj2 (String.eqb_neq _ _) Hne).
  destruct (cut_byte "{" tag) as [[u v]|] eqn:E; [|done].
  by rewrite (cut_byte_sub _ _ _ _ E _ Ht).
Qed.

Lemma slot_hashtag_witness : Slot "user:{42}:name" = Slot "42" /\ 0 <= Slot "42" < slotCount.
Proof.
  exact (slot_hashtag "user:" "42" ":name" eq_refl eq_refl ltac:(discriminate)).
Defined.

End Cluster.
