(* ===== verification/Aof.v ===== *)
(** * The append-only log: internal/server/aof.go

    Every write command is appended to a file as one line: its arguments
    escaped and separated by tabs, then a CRC-32 of that text.  At start the
    lines are read back, checked and applied.  Here: the line format, the
    line scanner ([bufio.Scanner], which gives up on lines of 64 KiB), and
    which commands of a log reach the replay; what each command does to the
    store is in the Store files. *)
From S2P Require Import Prelude GoLib.

Module Aof.

Definition TAB : ascii := ascii_of_nat 9.
Definition LF : ascii := ascii_of_nat 10.
Definition BS : ascii := ascii_of_nat 92.

(** ** Writing *)

(** [strings.ReplaceAll(s, c, r)] for a one-byte [c] *)
Fixpoint replace1 (c : ascii) (r : string) (s : string) : string :=
  match s with
  | EmptyString => ""
  | String x s => if Ascii.eqb x c then String.append r (replace1 c r s) else String x (replace1 c r s)
  end.

Definition escape (s : string) : string :=
  let s := replace1 BS (String BS (String BS "")) s in
  let s := replace1 TAB (String BS "t") s in
  replace1 LF (String BS "n") s.

(** The arguments, escaped and separated by tabs. *)
Fixpoint content (args : list string) : string :=
  match args with
  | [] => ""
  | [arg] => escape arg
  | arg :: args => String.append (escape arg) (String TAB (content args))
  end.

Definition hex_digit (d : Z) : ascii :=
  ascii_of_N (Z.to_N (if d <? 10 then 48 + d else 87 + d)).

(** The [n] low hexadecimal digits, as [%0nx] prints a value of that size. *)
Fixpoint hex (n : nat) (x : Z) : string :=
  match n with
  | O => ""
  | S n => String (hex_digit ((x / 16 ^ Z.of_nat n) mod 16)) (hex n x)
  end.

Definition checksum_field (text : string) : string := String "#" (hex 8 (ChecksumIEEE text)).

(** The line [Append] writes, without its line feed. *)
Definition line_of (args : list string) : string :=
  String.append (content args) (String TAB (checksum_field (content args))).

(** [Append]: the bytes added to the file. *)
Definition Append (args : list string) (file : string) : string :=
  String.append file (String.append (line_of args) (String LF "")).

(** ** Reading *)

(** [strings.ReplaceAll(s, ab, r)] for a two-byte pattern *)
Fixpoint replace2 (a b r : ascii) (s : string) : string :=
  match s with
  | EmptyString => ""
  | String x rest =>
      match rest with
      | String y t => if Ascii.eqb x a && Ascii.eqb y b then String r (replace2 a b r t)
                      else String x (replace2 a b r rest)
      | EmptyString => s
      end
  end.

Definition unescape (part : string) : string :=
  replace2 BS BS BS (replace2 BS "t" TAB (replace2 BS "n" LF part)).

Definition unescapeLine (line : string) : list string := unescape <$> split_byte TAB line.

Definition hex_val (c : ascii) : option Z :=
  let n := Z.of_N (N_of_ascii c) in
  if (48 <=? n) && (n <=? 57) then Some (n - 48)
  else if (97 <=? n) && (n <=? 102) then Some (n - 87)
  else if (65 <=? n) && (n <=? 70) then Some (n - 55)
  else None.

(** [strconv.ParseUint(s, 16, 32)] on at most eight digits *)
Fixpoint parse_hex (acc : Z) (s : string) : option Z :=
  match s with
  | EmptyString => Some acc
  | String c s => match hex_val c with Some d => parse_hex (acc * 16 + d) s | None => None end
  end.

(** The text before the last tab, when there is one. *)
Fixpoint before_last_tab (s : string) : option string :=
  match s with
  | EmptyString => None
  | String c r =>
      match before_last_tab r with
      | Some a => Some (String c a)
      | None => if Ascii.eqb c TAB then Some "" else None
      end
  end.

(** [None] for a corrupted line; [args] is empty only for the empty list. *)
Definition verifyAndParseLine (line : string) : option (list string) :=
  let args := unescapeLine line in
  match last args with
  | None => Some []
  | Some (String h digits) =>
      if (String.length digits =? 8)%nat && Ascii.eqb h "#" then
        match before_last_tab line with
        | None => None
        | Some text =>
            match parse_hex 0 digits with
            | None => None
            | Some expected => if expected =? ChecksumIEEE text then Some (removelast args) else None
            end
        end
      else Some args
  | Some EmptyString => Some args
  end.

(** [bufio.MaxScanTokenSize]: the scanner's buffer. *)
Definition maxToken : Z := 65536.

(** The bytes up to the first line feed, and those after it. *)
Fixpoint take_line (s : string) : string * option string :=
  match s with
  | EmptyString => ("", None)
  | String c s =>
      if Ascii.eqb c LF then ("", Some s) else let '(l, r) := take_line s in (String c l, r)
  end.

(** [dropCR]: the scanner removes one carriage return before the line feed. *)
Definition drop_cr (s : string) : string := trim_suffix (ascii_of_nat 13) s.

(** [for scanner.Scan()]: the lines delivered, and whether the scanner stopped
    on a line that does not fit its buffer.  Each round takes at least one
    byte, so the length of the file bounds the rounds. *)
Fixpoint scan_lines (fuel : nat) (file : string) : list string * bool :=
  match fuel with
  | O => ([], false)
  | S fuel =>
      match file with
      | EmptyString => ([], false)
      | _ =>
          let '(l, rest) := take_line file in
          if maxToken <=? Z.of_nat (String.length l) then ([], true)
          else match rest with
               | None => ([drop_cr l], false)
               | Some rest => let '(ls, e) := scan_lines fuel rest in (drop_cr l :: ls, e)
               end
      end
  end.

(** The commands [ReplayAOF] applies, in order, and whether it returns the
    scanner's error: corrupted and empty lines are skipped. *)
Definition replay_commands (file : string) : list (list string) * bool :=
  let '(ls, e) := scan_lines (S (String.length file)) file in
  (concat ((fun l => match verifyAndParseLine l with
                     | Some [] => []
                     | Some args => [args]
                     | None => []
                     end) <$> ls), e).

(** ** Escaping *)

Lemma append_cons c a b : String.append (String c a) b = String c (String.append a b).
Proof. done. Qed.

Lemma append_assoc a b c : String.append (String.append a b) c = String.append a (String.append b c).
Proof. induction a as [|x a IH]; [done|]. rewrite !append_cons. by rewrite IH. Qed.

Lemma length_append a b : String.length (String.append a b) = (String.length a + String.length b)%nat.
Proof. induction a as [|x a IH]; [done|]. rewrite append_cons. cbn. by rewrite IH. Qed.

(** Encode each byte on its own; the passes of [escape] and [unescape] are
    such encodings. *)
Fixpoint enc (f : ascii -> string) (s : string) : string :=
  match s with EmptyString => "" | String c s => String.append (f c) (enc f s) end.

Definition esc3 (c : ascii) : string :=
  if Ascii.eqb c BS then String BS (String BS "")
  else if Ascii.eqb c TAB then String BS "t" else if Ascii.eqb c LF then String BS "n" else String c "".
Definition esc2 (c : ascii) : string :=
  if Ascii.eqb c BS then String BS (String BS "") else if Ascii.eqb c TAB then String BS "t" else String c "".
Definition esc1 (c : ascii) : string :=
  if Ascii.eqb c BS then String BS (String BS "") else String c "".

Lemma replace1_enc c r s : replace1 c r s = enc (fun x => if Ascii.eqb x c then r else String x "") s.
Proof. induction s as [|x s IH]; [done|]. cbn. rewrite IH. by case_match. Qed.

Lemma replace1_append c r a b : replace1 c r (String.append a b) = String.append (replace1 c r a) (replace1 c r b).
Proof.
  induction a as [|x a IH]; [done|]. rewrite append_cons. cbn [replace1]. rewrite IH.
  case_match; [by rewrite append_assoc|done].
Qed.

Lemma replace1_compose c r f s : replace1 c r (enc f s) = enc (fun x => replace1 c r (f x)) s.
Proof. induction s as [|x s IH]; [done|]. cbn. by rewrite replace1_append, IH. Qed.

Lemma enc_ext f g s : (forall c, f c = g c) -> enc f s = enc g s.
Proof. intros H. induction s as [|x s IH]; [done|]. cbn. by rewrite H, IH. Qed.

Lemma escape_enc s : escape s = enc esc3 s.
Proof.
  unfold escape. rewrite (replace1_enc BS), !replace1_compose. apply enc_ext. intros c.
  unfold esc3. destruct (Ascii.eqb_spec c BS) as [->|]; [done|].
  cbn [replace1]. destruct (Ascii.eqb_spec c TAB) as [->|]; [done|]. cbn [replace1]. by case_match.
Qed.

(** No backslash is followed by an n or a t. *)
Fixpoint clean (s : string) : bool :=
  match s with
  | EmptyString => true
  | String c s =>
      (negb (Ascii.eqb c BS)
       || match s with String d _ => negb (Ascii.eqb d "n" || Ascii.eqb d "t") | EmptyString => true end)
      && clean s
  end.

Lemma replace2_skip a b r x s :
  Ascii.eqb x a = false \/ match s with String y _ => Ascii.eqb y b = false | EmptyString => True end ->
  replace2 a b r (String x s) = String x (replace2 a b r s).
Proof.
  intros H. cbn. destruct s as [|y t]; [done|].
  replace (Ascii.eqb x a && Ascii.eqb y b) with false; [done|]. destruct H as [->| ->]; [done|].
  by rewrite andb_false_r.
Qed.

Lemma replace2_hit a b r t : replace2 a b r (String a (String b t)) = String r (replace2 a b r t).
Proof. cbn. by rewrite !Ascii.eqb_refl. Qed.

Lemma enc_head f c s :
  (forall d, match f d with String x _ => x = d \/ x = BS | EmptyString => False end) -> c <> BS ->
  match s with String d _ => Ascii.eqb d c = false | EmptyString => True end ->
  match enc f s with String y _ => Ascii.eqb y c = false | EmptyString => True end.
Proof.
  intros Hf Hc Hs. destruct s as [|d s]; [done|]. cbn. specialize (Hf d). destruct (f d) as [|x w]; [done|].
  rewrite append_cons. destruct Hf as [->| ->]; [done|]. apply Ascii.eqb_neq. congruence.
Qed.

Ltac byte_case c b := destruct (Ascii.eqb_spec c b) as [->|?].

Lemma unescape_n s : clean s = true -> replace2 BS "n" LF (enc esc3 s) = enc esc2 s.
Proof.
  induction s as [|c s IH]; intros H; [done|]. cbn [clean] in H. apply andb_true_iff in H as [Hh Hs].
  specialize (IH Hs). cbn [enc]. unfold esc3 at 1, esc2 at 1.
  destruct (Ascii.eqb_spec c BS) as [->|Hc]; [|destruct (Ascii.eqb_spec c TAB) as [->|Ht];
    [|destruct (Ascii.eqb_spec c LF) as [->|Hl]]]; rewrite !append_cons; change (String.append "" ?x) with x.
  - rewrite replace2_skip by (right; done). rewrite replace2_skip, IH; [done|]. right.
    apply enc_head; [|done|].
    + intros d. unfold esc3. destruct (Ascii.eqb d BS), (Ascii.eqb d TAB), (Ascii.eqb d LF); auto.
    + destruct s as [|d s]; [done|]. cbn in Hh. by apply negb_true_iff, orb_false_iff in Hh as [? _].
  - rewrite replace2_skip by (right; done). rewrite replace2_skip by (left; done). by rewrite IH.
  - rewrite replace2_hit. by rewrite IH.
  - rewrite replace2_skip by (left; by apply Ascii.eqb_neq). by rewrite IH.
Qed.

Lemma unescape_t s : clean s = true -> replace2 BS "t" TAB (enc esc2 s) = enc esc1 s.
Proof.
  induction s as [|c s IH]; intros H; [done|]. cbn [clean] in H. apply andb_true_iff in H as [Hh Hs].
  specialize (IH Hs). cbn [enc]. unfold esc2 at 1, esc1 at 1.
  destruct (Ascii.eqb_spec c BS) as [->|Hc]; [|destruct (Ascii.eqb_spec c TAB) as [->|Ht]];
    rewrite !append_cons; change (String.append "" ?x) with x.
  - rewrite replace2_skip by (right; done). rewrite replace2_skip, IH; [done|]. right.
    apply enc_head; [|done|].
    + intros d. unfold esc2. destruct (Ascii.eqb d BS), (Ascii.eqb d TAB); auto.
    + destruct s as [|d s]; [done|]. cbn in Hh. by apply negb_true_iff, orb_false_iff in Hh as [_ ?].
  - rewrite replace2_hit. by rewrite IH.
  - rewrite replace2_skip by (left; by apply Ascii.eqb_neq). by rewrite IH.
Qed.

Lemma unescape_bs s : replace2 BS BS BS (enc esc1 s) = s.
Proof.
  induction s as [|c s IH]; [done|]. cbn [enc]. unfold esc1 at 1.
  destruct (Ascii.eqb_spec c BS) as [->|Hc]; rewrite !append_cons; change (String.append "" ?x) with x.
  - rewrite replace2_hit. by rewrite IH.
  - rewrite replace2_skip by (left; by apply Ascii.eqb_neq). by rewrite IH.
Qed.

Lemma unescape_escape s : clean s = true -> unescape (escape s) = s.
Proof. intros H. unfold unescape. by rewrite escape_enc, unescape_n, unescape_t, unescape_bs. Qed.

Lemma replace2_absent a b r s : has_byte a s = false -> replace2 a b r s = s.
Proof.
  induction s as [|c s IH]; intros H; [done|]. cbn [has_byte] in H. apply orb_false_iff in H as [Hc Hs].
  rewrite replace2_skip by by left. by rewrite IH.
Qed.

Lemma unescape_absent s : has_byte BS s = false -> unescape s = s.
Proof.
  intros H. unfold unescape. rewrite (replace2_absent BS "n") by done.
  rewrite (replace2_absent BS "t") by done. by apply replace2_absent.
Qed.

(** Escaped text holds no separator. *)
Lemma escape_no_byte b s : b = TAB \/ b = LF -> has_byte b (escape s) = false.
Proof.
  intros Hb. rewrite escape_enc. induction s as [|c s IH]; [done|]. cbn [enc]. rewrite has_byte_app, IH, orb_false_r.
  unfold esc3. destruct (Ascii.eqb c BS) eqn:?, (Ascii.eqb c TAB) eqn:?, (Ascii.eqb c LF) eqn:?;
    destruct Hb as [->| ->]; try done; cbn [has_byte]; rewrite orb_false_r; done.
Qed.

(** ** The checksum field *)

Lemma hex_val_digit d : 0 <= d < 16 -> hex_val (hex_digit d) = Some d.
Proof.
  intros H. assert (Forall (fun d => hex_val (hex_digit d) = Some d) (seqZ 0 16)) as HF by repeat constructor.
  rewrite Forall_forall in HF. apply HF, elem_of_seqZ. lia.
Qed.

Lemma hex_no_byte b n x : hex_val b = None -> has_byte b (hex n x) = false.
Proof.
  intros Hb. induction n as [|n IH]; [done|]. cbn [hex has_byte]. rewrite IH, orb_false_r.
  apply Ascii.eqb_neq. intros E. rewrite <-E, hex_val_digit in Hb; [done|]. apply Z.mod_pos_bound. lia.
Qed.

Lemma length_hex n x : String.length (hex n x) = n.
Proof. induction n as [|n IH]; [done|]. cbn. by rewrite IH. Qed.

Lemma parse_hex_hex n x acc :
  0 <= x -> parse_hex acc (hex n x) = Some (acc * 16 ^ Z.of_nat n + x mod 16 ^ Z.of_nat n).
Proof.
  intros Hx. revert acc. induction n as [|n IH]; intros acc.
  - cbn [hex parse_hex]. change (16 ^ Z.of_nat 0) with 1. rewrite Z.mod_1_r. f_equal. lia.
  - cbn [hex parse_hex]. rewrite hex_val_digit by (apply Z.mod_pos_bound; lia). rewrite IH. f_equal.
    rewrite Nat2Z.inj_succ, Z.pow_succ_r by lia. set (p := 16 ^ Z.of_nat n).
    assert (0 < p) by (apply Z.pow_pos_nonneg; lia).
    rewrite (Z.mul_comm 16 p), Z.rem_mul_r by lia. lia.
Qed.

Lemma crc32_bit_range x : 0 <= x < 2 ^ 32 -> 0 <= crc32_bit x < 2 ^ 32.
Proof.
  intros H. unfold crc32_bit.
  assert (0 <= Z.shiftr x 1 < 2 ^ 32) as Hs.
  { rewrite Z.shiftr_div_pow2 by lia. split; [apply Z.div_pos; lia|]. apply Z.div_lt_upper_bound; lia. }
  case_match; [|done]. split; [apply Z.lxor_nonneg; lia|].
  destruct (decide (Z.lxor (Z.shiftr x 1) 3988292384 = 0)) as [->|]; [done|].
  apply Z.log2_lt_pow2; [assert (0 <= Z.lxor (Z.shiftr x 1) 3988292384) by (apply Z.lxor_nonneg; lia); lia|].
  eapply Z.le_lt_trans; [apply Z.log2_lxor; lia|].
  destruct (decide (Z.shiftr x 1 = 0)) as [->|]; [done|].
  assert (Z.log2 (Z.shiftr x 1) < 32) by (apply Z.log2_lt_pow2; lia).
  change (Z.log2 3988292384) with 31. lia.
Qed.

Lemma lxor_range32 x y : 0 <= x < 2 ^ 32 -> 0 <= y < 2 ^ 32 -> 0 <= Z.lxor x y < 2 ^ 32.
Proof.
  intros Hx Hy. assert (0 <= Z.lxor x y) by (apply Z.lxor_nonneg; lia). split; [done|].
  destruct (decide (Z.lxor x y = 0)) as [->|]; [done|]. apply Z.log2_lt_pow2; [lia|].
  eapply Z.le_lt_trans; [apply Z.log2_lxor; lia|].
  assert (forall z, 0 <= z < 2 ^ 32 -> Z.log2 z < 32) as Hl.
  { intros z Hz. destruct (decide (z = 0)) as [->|]; [done|]. apply Z.log2_lt_pow2; lia. }
  pose proof (Hl x Hx). pose proof (Hl y Hy). lia.
Qed.

Lemma crc32_bytes_range s : forall x, 0 <= x < 2 ^ 32 -> 0 <= crc32_bytes x s < 2 ^ 32.
Proof.
  induction s as [|c s IH]; intros x Hx; [done|]. cbn [crc32_bytes]. apply IH.
  assert (0 <= Z.of_N (N_of_ascii c) < 2 ^ 32) by (pose proof (N_ascii_bounded c); lia).
  assert (forall n y, 0 <= y < 2 ^ 32 -> 0 <= Nat.iter n crc32_bit y < 2 ^ 32) as Hi.
  { induction n as [|n IHn]; intros y Hy; [done|]. cbn. apply crc32_bit_range. by apply IHn. }
  apply Hi. by apply lxor_range32.
Qed.

Lemma ChecksumIEEE_range s : 0 <= ChecksumIEEE s < 2 ^ 32.
Proof. unfold ChecksumIEEE. apply lxor_range32; [|lia]. apply crc32_bytes_range. lia. Qed.

Lemma parse_checksum s : parse_hex 0 (hex 8 (ChecksumIEEE s)) = Some (ChecksumIEEE s).
Proof.
  pose proof (ChecksumIEEE_range s). rewrite parse_hex_hex by lia. f_equal.
  change (16 ^ Z.of_nat 8) with (2 ^ 32). rewrite Z.mod_small by lia. lia.
Qed.

Lemma checksum_field_no_byte b s : hex_val b = None -> b <> "#"%char -> has_byte b (checksum_field s) = false.
Proof.
  intros Hb Hne. unfold checksum_field. cbn [has_byte]. rewrite hex_no_byte, orb_false_r by done.
  apply Ascii.eqb_neq. congruence.
Qed.

(** ** Lines *)

Lemma content_cons a b args : content (a :: b :: args) = String.append (escape a) (String TAB (content (b :: args))).
Proof. done. Qed.

Lemma split_content args y :
  args <> [] -> split_byte TAB (String.append (content args) (String TAB y)) = (escape <$> args) ++ split_byte TAB y.
Proof.
  intros Hne. induction args as [|a args IH]; [done|]. destruct args as [|b args].
  - cbn [content fmap list_fmap app]. by rewrite split_byte_app by (apply escape_no_byte; auto).
  - rewrite content_cons, append_assoc, append_cons, split_byte_app by (apply escape_no_byte; auto).
    by rewrite IH.
Qed.

Lemma before_last_tab_app x y : has_byte TAB y = false -> before_last_tab (String.append x (String TAB y)) = Some x.
Proof.
  intros Hy. assert (before_last_tab y = None) as Hn.
  { clear -Hy. induction y as [|c y IH]; [done|]. cbn [has_byte] in Hy. apply orb_false_iff in Hy as [Hc Hy].
    cbn [before_last_tab]. by rewrite (IH Hy), Hc. }
  induction x as [|c x IH].
  - change (before_last_tab (String TAB y) = Some ""). cbn [before_last_tab]. by rewrite Hn.
  - rewrite append_cons. cbn [before_last_tab]. by rewrite IH.
Qed.

Lemma line_fields args :
  args <> [] -> Forall (fun a => clean a = true) args ->
  unescapeLine (line_of args) = args ++ [checksum_field (content args)].
Proof.
  intros Hne Hc. unfold unescapeLine, line_of. rewrite split_content by done.
  rewrite split_byte_whole by by apply checksum_field_no_byte.
  rewrite fmap_app. cbn [fmap list_fmap]. rewrite unescape_absent by by apply checksum_field_no_byte.
  f_equal. rewrite <-list_fmap_compose. clear Hne. induction Hc as [|a args Ha _ IH]; [done|]. cbn.
  by rewrite unescape_escape, IH.
Qed.

Lemma verify_line args :
  args <> [] -> Forall (fun a => clean a = true) args -> verifyAndParseLine (line_of args) = Some args.
Proof.
  intros Hne Hc. unfold verifyAndParseLine. rewrite line_fields by done. rewrite last_snoc.
  unfold checksum_field at 1. rewrite length_hex, Ascii.eqb_refl. cbn [Nat.eqb andb].
  unfold line_of. rewrite before_last_tab_app by by apply checksum_field_no_byte.
  by rewrite parse_checksum, Z.eqb_refl, removelast_last.
Qed.

(** ** The file *)

Definition file_of (cmds : list (list string)) : string :=
  foldr (fun c out => String.append (line_of c) (String LF out)) "" cmds.

Lemma file_of_app c1 c2 : file_of (c1 ++ c2) = String.append (file_of c1) (file_of c2).
Proof.
  induction c1 as [|c c1 IH]; [done|]. cbn [file_of foldr app]. fold (file_of (c1 ++ c2)) (file_of c1).
  by rewrite IH, append_assoc, append_cons.
Qed.

Lemma append_nil_r a : String.append a "" = a.
Proof. induction a as [|c a IH]; [done|]. by rewrite append_cons, IH. Qed.

Lemma append_log cmds : fold_left (fun file c => Append c file) cmds "" = file_of cmds.
Proof.
  assert (forall f, fold_left (fun file c => Append c file) cmds f = String.append f (file_of cmds)) as H; [|apply H].
  induction cmds as [|c cmds IH]; intros f; cbn [fold_left]; [by rewrite append_nil_r|].
  rewrite IH. unfold Append. cbn [file_of foldr]. fold (file_of cmds). by rewrite !append_assoc, append_cons.
Qed.

Lemma content_no_lf args : has_byte LF (content args) = false.
Proof.
  induction args as [|a args IH]; [done|]. destruct args as [|b args]; [apply escape_no_byte; auto|].
  rewrite content_cons, has_byte_app, escape_no_byte by auto. cbn [has_byte]. by rewrite IH.
Qed.

Lemma line_no_lf args : has_byte LF (line_of args) = false.
Proof.
  unfold line_of. rewrite has_byte_app, content_no_lf. cbn [has_byte].
  by rewrite checksum_field_no_byte by done.
Qed.

Lemma take_line_app l r : has_byte LF l = false -> take_line (String.append l (String LF r)) = (l, Some r).
Proof.
  induction l as [|c l IH]; intros H.
  - change (take_line (String LF r) = ("", Some r)). done.
  - cbn [has_byte] in H. apply orb_false_iff in H as [Hc Hl]. rewrite append_cons. cbn [take_line].
    by rewrite Hc, IH.
Qed.

Lemma trim_absent b s : has_byte b s = false -> trim_suffix b s = s.
Proof.
  induction s as [|c s IH]; intros H; [done|]. cbn [has_byte] in H. apply orb_false_iff in H as [Hc Hs].
  cbn [trim_suffix]. rewrite Hc, (IH Hs). by destruct s.
Qed.

Lemma trim_append b x y : y <> "" -> trim_suffix b (String.append x y) = String.append x (trim_suffix b y).
Proof.
  intros Hy. induction x as [|c x IH]; [done|]. rewrite append_cons. cbn [trim_suffix]. rewrite IH.
  destruct (String.append x y) as [|d w] eqn:E; [|done]. by destruct x, y.
Qed.

Lemma drop_cr_line args : drop_cr (line_of args) = line_of args.
Proof.
  unfold drop_cr, line_of. rewrite trim_append by done. f_equal. apply trim_absent. cbn [has_byte].
  by rewrite checksum_field_no_byte.
Qed.

Definition fits (args : list string) : Prop := Z.of_nat (String.length (line_of args)) < maxToken.

Lemma scan_step fuel args rest :
  scan_lines (S fuel) (String.append (line_of args) (String LF rest)) =
  if maxToken <=? Z.of_nat (String.length (line_of args)) then ([], true)
  else let '(ls, e) := scan_lines fuel rest in (line_of args :: ls, e).
Proof.
  cbn [scan_lines]. rewrite take_line_app by apply line_no_lf. rewrite drop_cr_line.
  destruct (String.append (line_of args) (String LF rest)) eqn:E; [|done].
  by destruct (line_of args).
Qed.

Lemma scan_app cmds : forall rest fuel,
  Forall fits cmds -> (String.length (String.append (file_of cmds) rest) < fuel)%nat ->
  exists fuel', (String.length rest < fuel')%nat /\
    scan_lines fuel (String.append (file_of cmds) rest) =
    let '(ls, e) := scan_lines fuel' rest in ((line_of <$> cmds) ++ ls, e).
Proof.
  induction cmds as [|c cmds IH]; intros rest fuel Hf Hl.
  - exists fuel. split; [done|]. change (String.append (file_of []) rest) with rest.
    by destruct (scan_lines fuel rest).
  - apply Forall_cons in Hf as [Hc Hf]. destruct fuel as [|fuel]; [lia|].
    cbn [file_of foldr] in *. fold (file_of cmds) in *. rewrite append_assoc, append_cons in *.
    rewrite scan_step. rewrite (proj2 (Z.leb_gt _ _)) by done.
    rewrite length_append in Hl. cbn [String.length] in Hl.
    destruct (IH rest fuel Hf ltac:(lia)) as (fuel' & Hl' & ->). exists fuel'. split; [done|].
    by destruct (scan_lines fuel' rest).
Qed.

Definition ok_command (args : list string) : Prop :=
  args <> [] /\ Forall (fun a => clean a = true) args /\ fits args.

Lemma parsed_commands cmds :
  Forall ok_command cmds ->
  concat ((fun l => match verifyAndParseLine l with Some [] => [] | Some args => [args] | None => [] end)
            <$> (line_of <$> cmds)) = cmds.
Proof.
  induction 1 as [|c cmds (Hne & Hc & _) _ IH]; [done|]. cbn. rewrite verify_line by done.
  destruct c; [done|]. cbn. by rewrite IH.
Qed.

Lemma log_roundtrip cmds : Forall ok_command cmds -> replay_commands (file_of cmds) = (cmds, false).
Proof.
  intros H. unfold replay_commands.
  assert (Forall fits cmds) as Hf by (eapply Forall_impl; [exact H|]; by intros x (_ & _ & ?)).
  destruct (scan_app cmds "" (S (String.length (file_of cmds))) Hf) as (fuel' & _ & E).
  { rewrite append_nil_r. lia. }
  rewrite append_nil_r in E. rewrite E. destruct fuel'; cbn [scan_lines]; rewrite app_nil_r, parsed_commands by done; done.
Qed.

(** C34: the log is read back as it was written.  Whatever non-empty commands are appended, as long as no
    argument has a backslash directly before an n or a t and each line fits the scanner's buffer of 64
    KiB, replaying the file yields exactly these commands in order, every checksum being accepted, and
    no error; the arguments may hold tabs, line feeds, other backslashes and any other bytes. *)
Theorem aof_log_roundtrip cmds :
  Forall ok_command cmds ->
  replay_commands (fold_left (fun file c => Append c file) cmds "") = (cmds, false).
Proof.
  intros H. rewrite append_log. by apply log_roundtrip.
Qed.

Definition sample_log : list (list string) :=
  [["SET"; "k"; String TAB (String LF "v\x")]; ["DEL"; ""]].

Lemma aof_log_roundtrip_witness :
  Forall ok_command sample_log /\
  replay_commands (fold_left (fun file c => Append c file) sample_log "") = (sample_log, false).
Proof.
  assert (Forall ok_command sample_log) as H.
  { repeat constructor; discriminate. }
  split; [exact H|]. exact (aof_log_roundtrip sample_log H).
Defined.

(** A backslash before an n or a t is not read back.  The value of two bytes, backslash and n, is
    written with a valid checksum and replayed as backslash and line feed: the data changes silently. *)
Theorem aof_escape_not_injective :
  replay_commands (Append ["SET"; "k"; "\n"] "") = ([["SET"; "k"; String BS (String LF "")]], false) /\
  replay_commands (Append ["SET"; "k"; "C:\temp"] "")
    = ([["SET"; "k"; String.append "C:" (String BS (String TAB "emp"))]], false) /\
  escape "\n" <> escape (String BS (String LF "")).
Proof. split; [vm_compute; reflexivity|]. split; [vm_compute; reflexivity|]. vm_compute. discriminate. Qed.

(** One long line makes the log unreadable.  If a command's line has 64 KiB or more, which the server
    writes without a check, the replay applies the commands before it, drops that command and every
    command after it, and reports an error, on which the server does not start. *)
Theorem aof_long_line_stops before long after :
  Forall ok_command before -> maxToken <= Z.of_nat (String.length (line_of long)) ->
  replay_commands (fold_left (fun file c => Append c file) (before ++ long :: after) "") = (before, true).
Proof.
  intros H Hl. rewrite append_log, file_of_app. unfold replay_commands.
  assert (Forall fits before) as Hf by (eapply Forall_impl; [exact H|]; by intros x (_ & _ & ?)).
  destruct (scan_app before (file_of (long :: after))
    (S (String.length (String.append (file_of before) (file_of (long :: after))))) Hf ltac:(lia)) as (fuel' & Hlt & ->).
  destruct fuel' as [|fuel']; [lia|]. cbn [file_of foldr]. rewrite scan_step, (proj2 (Z.leb_le _ _)) by done.
  by rewrite app_nil_r, parsed_commands.
Qed.

(** A string of [n] bytes. *)
Fixpoint repeat_byte (n : nat) (c : ascii) (acc : string) : string :=
  match n with O => acc | S n => String c (repeat_byte n c acc) end.

Definition big_value : string := repeat_byte (Z.to_nat 65536) "x" "".

Lemma aof_long_line_stops_witness :
  maxToken <= Z.of_nat (String.length (line_of ["SET"; "k"; big_value])) /\
  replay_commands (fold_left (fun file c => Append c file)
    ([["SET"; "a"; "1"]] ++ ["SET"; "k"; big_value] :: [["SET"; "b"; "2"]]) "") = ([["SET"; "a"; "1"]], true).
Proof.
  assert (Forall ok_command [["SET"; "a"; "1"]]) as H by (repeat constructor; discriminate).
  assert (maxToken <= Z.of_nat (String.length (line_of ["SET"; "k"; big_value]))) as Hl.
  { unfold line_of. rewrite length_append. cbn [String.length].
    assert (65536 <= Z.of_nat (String.length (content ["SET"; "k"; big_value]))) as Hc; [|unfold maxToken; lia].
    vm_compute. discriminate. }
  split; [exact Hl|]. exact (aof_long_line_stops [["SET"; "a"; "1"]] ["SET"; "k"; big_value] [["SET"; "b"; "2"]] H Hl).
Defined.

End Aof.
