(* ===== verification/AofSync.v ===== *)
(** * The file of the log and its crashes: internal/server/aof.go

    [Append] writes a line and, depending on the policy, asks the system to
    put the file on the disk.  What was synced survives a crash; of the bytes
    after it any number may. *)
From S2P Require Import Prelude GoLib Store Aof.

Module AofSync.
Import Store Aof.

Definition FsyncAlways : string := "always".
Definition FsyncEverySec : string := "everysec".
Definition FsyncNo : string := "no".

(** [synced] is the number of bytes known to be on the disk. *)
Record AOF := mkAOF { bytes : string; synced : nat; fsync : string; lastSync : Z }.

(** What the system answers: an error of the write with the number of bytes
    written before it, an error of the sync. *)
Record io := mkIO { write_err : option (nat * string); sync_err : option string }.
Definition fine : io := mkIO None None.

(** [file] is what the path holds; [failed] an error of [os.OpenFile]. *)
Definition OpenAOF (path policy : string) (file : string) (failed : option string) : result (option AOF) :=
  if (path =? "")%string then Ok None
  else
    let policy := if (policy =? "")%string then FsyncEverySec else policy in
    match failed with
    | Some e => Err e
    | None => Ok (Some (mkAOF file (String.length file) policy zeroTime))
    end.

(** [a.lastSync = time.Now(); return a.file.Sync()] *)
Definition sync (now : Z) (x : io) (a : AOF) : result unit * AOF :=
  match sync_err x with
  | Some e => (Err e, mkAOF (bytes a) (synced a) (fsync a) now)
  | None => (Ok tt, mkAOF (bytes a) (String.length (bytes a)) (fsync a) now)
  end.

Definition Append (now : Z) (x : io) (args : list string) (a : option AOF) : result unit * option AOF :=
  match a with
  | None => (Ok tt, None)
  | Some a =>
      let line := String.append (line_of args) (String LF "") in
      match write_err x with
      | Some (n, e) => (Err e, Some (mkAOF (String.append (bytes a) (String.substring 0 n line)) (synced a) (fsync a) (lastSync a)))
      | None =>
          let a := mkAOF (String.append (bytes a) line) (synced a) (fsync a) (lastSync a) in
          let '(r, a) :=
            if (fsync a =? FsyncAlways)%string then sync now x a
            else if (fsync a =? FsyncEverySec)%string then
              if 10 ^ 9 <=? time_sub now (lastSync a) then sync now x a else (Ok tt, a)
            else (Ok tt, a) in
          (r, Some a)
      end
  end.

(** [failed] is an error of [Truncate] or [Seek], with whether it came after
    the truncation. *)
Definition Reset (now : Z) (x : io) (failed : option (string * bool)) (a : option AOF) : result unit * option AOF :=
  match a with
  | None => (Ok tt, None)
  | Some a =>
      let empty := mkAOF "" 0 (fsync a) (lastSync a) in
      match failed with
      | Some (e, truncated) => (Err e, Some (if truncated then empty else a))
      | None => let '(r, a) := sync now x empty in (r, Some a)
      end
  end.

(** A crash leaves the synced bytes and some of the following ones. *)
Definition crash (n : nat) (a : AOF) : string := String.substring 0 (synced a + n) (bytes a).

(** ** What a crash leaves *)

Lemma substring_append_l n x y : (n <= String.length x)%nat -> String.substring 0 n (String.append x y) = String.substring 0 n x.
Proof.
  revert n. induction x as [|c x IH]; intros [|n] H; cbn [String.length] in H; [by destruct y|lia|by rewrite append_cons|].
  rewrite append_cons. cbn [String.substring]. by rewrite IH by lia.
Qed.

Lemma substring_append_r n x y :
  (String.length x <= n)%nat -> String.substring 0 n (String.append x y) = String.append x (String.substring 0 (n - String.length x) y).
Proof.
  revert n. induction x as [|c x IH]; intros n H; cbn [String.length] in *; [by rewrite Nat.sub_0_r|].
  destruct n as [|n]; [lia|]. rewrite !append_cons. cbn [String.substring Nat.sub]. by rewrite IH by lia.
Qed.

Lemma substring_has_byte b n : forall x, has_byte b x = false -> has_byte b (String.substring 0 n x) = false.
Proof.
  induction n as [|n IH]; intros [|c x] H; try done. cbn [has_byte] in H. apply orb_false_iff in H as [Hc Hx].
  cbn [String.substring has_byte]. by rewrite Hc, IH.
Qed.

(** [p] is nothing, or the beginning of the line of the record [k]. *)
Definition piece_of (cmds : list (list string)) (k : nat) (p : string) : Prop :=
  p = ""%string \/ exists next j, cmds !! k = Some next /\ p = String.substring 0 j (line_of next).

(** Whole records, then a piece of the next one. *)
Lemma cut_file m : forall cmds k,
  (String.length (file_of (take k cmds)) <= m)%nat ->
  exists k' p, String.substring 0 m (file_of cmds) = String.append (file_of (take k' cmds)) p /\
    piece_of cmds k' p /\ (k <= k' \/ length cmds <= k')%nat.
Proof.
  induction m as [m IHm] using lt_wf_ind. intros [|c cmds] k Hk.
  - exists k, ""%string. split; [|split; [by left|by left]]. destruct k; by destruct m.
  - cbn [file_of foldr]. fold (file_of cmds).
    replace (String.append (line_of c) (String LF (file_of cmds))) with
      (String.append (String.append (line_of c) (String LF "")) (file_of cmds)) by (by rewrite append_assoc).
    set (line := String.append (line_of c) (String LF "")). assert (String.length line = S (String.length (line_of c))) as Hlen.
    { unfold line. rewrite length_append. cbn. lia. }
    destruct (decide (String.length line <= m)%nat) as [Hm|Hm].
    + rewrite substring_append_r by done.
      assert (String.length (file_of (take (pred k) cmds)) <= m - String.length line)%nat as Hk'.
      { destruct k as [|k]; [apply Nat.le_0_l|]. cbn [take file_of foldr] in Hk. fold (file_of (take k cmds)) in Hk.
        rewrite length_append in Hk. cbn [String.length pred] in *. lia. }
      destruct (IHm (m - String.length line)%nat ltac:(lia) cmds (pred k) Hk') as (k' & p & E & Hp & Hor).
      exists (S k'), p. rewrite E. split; [|split; [done|cbn; lia]]. cbn [take file_of foldr]. fold (file_of (take k' cmds)).
      unfold line. by rewrite !append_assoc.
    + exists O, (String.substring 0 m line). rewrite substring_append_l by lia. split; [done|]. split.
      * right. exists c, m. split; [done|]. unfold line. by rewrite substring_append_l by lia.
      * destruct k as [|k]; [by left|]. cbn [take file_of foldr] in Hk. rewrite length_append in Hk. cbn [String.length] in Hk. lia.
Qed.

Lemma take_line_none p : has_byte LF p = false -> take_line p = (p, None).
Proof.
  induction p as [|c p IH]; intros H; [done|]. cbn [has_byte] in H. apply orb_false_iff in H as [Hc Hp].
  cbn [take_line]. by rewrite Hc, IH.
Qed.

Lemma substring_length n : forall x, (String.length (String.substring 0 n x) <= String.length x)%nat.
Proof. induction n as [|n IH]; intros [|c x]; cbn; try lia. specialize (IH x). lia. Qed.

Lemma piece_no_lf cmds k p : piece_of cmds k p -> has_byte LF p = false.
Proof. intros [->|(next & j & _ & ->)]; [done|]. apply substring_has_byte, line_no_lf. Qed.

Lemma piece_fits cmds k p : Forall ok_command cmds -> piece_of cmds k p -> Z.of_nat (String.length p) < maxToken.
Proof.
  intros H [->|(next & j & Hn & ->)]; [done|]. destruct (Forall_lookup_1 _ _ _ _ H Hn) as (_ & _ & Hf).
  pose proof (substring_length j (line_of next)). unfold fits in Hf. lia.
Qed.

(** What the replay makes of a piece. *)
Definition torn_command (p : string) : list (list string) :=
  if (p =? "")%string then [] else match verifyAndParseLine (drop_cr p) with Some [] => [] | Some args => [args] | None => [] end.

(** The replay of whole records and a piece: the records, and what it makes of
    the piece. *)
Lemma replay_cut cmds p :
  Forall ok_command cmds -> has_byte LF p = false -> Z.of_nat (String.length p) < maxToken ->
  replay_commands (String.append (file_of cmds) p) = (cmds ++ torn_command p, false).
Proof.
  intros H Hp Hlen. unfold replay_commands.
  assert (Forall fits cmds) as Hf by (eapply Forall_impl; [exact H|]; by intros x (_ & _ & ?)).
  destruct (scan_app cmds p (S (String.length (String.append (file_of cmds) p))) Hf ltac:(lia)) as (fuel' & Hlt & ->).
  destruct fuel' as [|fuel']; [lia|]. cbn [scan_lines]. destruct p as [|c p].
  { by rewrite !app_nil_r, parsed_commands. }
  rewrite (take_line_none _ Hp), (proj2 (Z.leb_gt _ _)) by done.
  rewrite fmap_app, concat_app, parsed_commands by done. cbn. by rewrite app_nil_r.
Qed.

(** ** The policies *)

Definition log (policy : string) (h : list (Z * list string)) : option AOF :=
  fold_left (fun a x => (Append x.1 fine x.2 a).2) h (Some (mkAOF "" 0 policy zeroTime)).

(** The records come at non-decreasing times. *)
Definition timed (h : list (Z * list string)) : Prop :=
  (forall x, x ∈ h -> 0 <= x.1) /\ (forall i x y, h !! i = Some x -> h !! S i = Some y -> x.1 <= y.1).

Lemma timed_snoc h x : timed (h ++ [x]) -> timed h /\ 0 <= x.1 /\ forall y, last h = Some y -> y.1 <= x.1.
Proof.
  intros [H0 Hs]. split; [split|split].
  - intros y Hy. apply H0, elem_of_app. by left.
  - intros i y z Hy Hz. apply (Hs i); by rewrite lookup_app_l by (by eapply lookup_lt_Some).
  - apply H0, elem_of_app. right. left.
  - intros y Hy. rewrite last_lookup in Hy. pose proof (lookup_lt_Some _ _ _ Hy) as Hl. apply (Hs (pred (length h)) y x).
    + by rewrite lookup_app_l.
    + rewrite lookup_app_r by lia. by replace (S (pred (length h)) - length h)%nat with O by lia.
Qed.

(** The state of the file after some appends: all the records, and a sync no
    older than a second before the last one. *)
Record kept (policy : string) (h : list (Z * list string)) (a : AOF) : Prop := {
  kp_bytes : bytes a = file_of h.*2;
  kp_policy : fsync a = policy;
  kp_always : policy = FsyncAlways -> synced a = String.length (bytes a);
  kp_recent : policy = FsyncEverySec -> forall y, last h = Some y -> y.1 - 10 ^ 9 < lastSync a <= y.1;
  kp_old : policy = FsyncEverySec -> forall k, (forall x, x ∈ take k h -> x.1 < lastSync a) ->
    (String.length (file_of (take k h.*2)) <= synced a)%nat
}.

Lemma file_of_take k cmds : (String.length (file_of (take k cmds)) <= String.length (file_of cmds))%nat.
Proof. rewrite <-(take_drop k cmds) at 2. rewrite file_of_app, length_append. lia. Qed.

Lemma synced_kept policy h t a x :
  bytes a = file_of h.*2 -> fsync a = policy -> last h = Some x -> x.1 = t ->
  kept policy h (mkAOF (bytes a) (String.length (bytes a)) (fsync a) t).
Proof.
  intros Hb Hp Hl Ht. split; cbn [bytes fsync synced lastSync]; try done.
  - intros _ y Hy. rewrite Hl in Hy. injection Hy as <-. lia.
  - intros _ k _. rewrite Hb. apply file_of_take.
Qed.

Lemma append_kept policy h t args a :
  timed (h ++ [(t, args)]) -> (h = [] -> lastSync a = zeroTime) -> kept policy h a ->
  exists a', (Append t fine args (Some a)) = (Ok tt, Some a') /\ kept policy (h ++ [(t, args)]) a'.
Proof.
  intros (Hth & H0 & Hlt)%timed_snoc Hz [Hb Hp Ha Hr Ho]. unfold Append, fine, sync. cbn [write_err sync_err bytes synced fsync lastSync].
  set (line := String.append (line_of args) (String LF "")).
  assert (String.append (bytes a) line = file_of (h ++ [(t, args)]).*2) as Hb'.
  { rewrite Hb, fmap_app, file_of_app. cbn [fmap list_fmap file_of foldr snd]. done. }
  set (a1 := mkAOF (String.append (bytes a) line) (synced a) (fsync a) (lastSync a)).
  assert (kept policy (h ++ [(t, args)]) (mkAOF (bytes a1) (String.length (bytes a1)) (fsync a1) t)) as Hsync.
  { apply (synced_kept _ _ _ _ (t, args)); [done|done|by rewrite last_snoc|done]. }
  destruct (String.eqb_spec (fsync a) FsyncAlways) as [Ea|Ea]; [by eexists|].
  destruct (String.eqb_spec (fsync a) FsyncEverySec) as [Ee|Ee].
  2: { eexists. split; [reflexivity|]. split; cbn [bytes fsync synced lastSync]; try done; intros E; congruence. }
  destruct (Z.leb_spec (10 ^ 9) (time_sub t (lastSync a))) as [Hs|Hs]; [by eexists|].
  assert (t - 10 ^ 9 < lastSync a) as Hrec by (unfold time_sub, int64_min, int64_max in Hs; lia).
  assert (lastSync a <= t) as Hle.
  { destruct (last h) as [y|] eqn:El; [specialize (Hr ltac:(congruence) y eq_refl); specialize (Hlt y eq_refl); cbn in Hlt; lia|].
    apply last_None in El. rewrite (Hz El). unfold zeroTime. cbn in H0. lia. }
  eexists. split; [reflexivity|]. split; cbn [bytes fsync synced lastSync]; try done; try congruence.
  - intros _ y Hy. rewrite last_snoc in Hy. injection Hy as <-. cbn. lia.
  - intros E k Hk. destruct (decide (k <= length h)%nat) as [Hkl|Hkl].
    + rewrite fmap_app, take_app_le by (by rewrite length_fmap). apply (Ho E). intros x Hx. apply Hk. by rewrite take_app_le.
    + exfalso. assert (t < lastSync a) as Hbad; [|lia]. apply (Hk (t, args)). rewrite take_ge by (rewrite length_app; cbn; lia).
      apply elem_of_app. right. left.
Qed.

Lemma log_kept policy h : timed h -> exists a, log policy h = Some a /\ kept policy h a /\ (h = [] -> lastSync a = zeroTime).
Proof.
  unfold log. induction h as [|[t args] h IH] using rev_ind; intros Ht.
  - eexists. split; [reflexivity|]. split; [|done]. split; try done. intros _ k _. cbn. destruct k; cbn; lia.
  - destruct (timed_snoc _ _ Ht) as [Hh _]. destruct (IH Hh) as (a & E & Hk & Hz). rewrite fold_left_app, E. cbn [fold_left fst snd].
    destruct (append_kept policy h t args a Ht Hz Hk) as (a' & -> & Hk'). exists a'. split; [done|]. split; [done|]. by intros []%app_nil.
Qed.

(** The first [k] records are on the disk: every record is synced, or they are
    a second older than the last one. *)
Definition settled (policy : string) (h : list (Z * list string)) (k : nat) : Prop :=
  policy = FsyncAlways \/
  (policy = FsyncEverySec /\ forall x y, x ∈ take k h -> last h = Some y -> x.1 <= y.1 - 10 ^ 9).

(** C10: what a crash can lose.  Records that the file format keeps (at least one word, no backslash directly
    before an n or a t, an escaped line shorter than the 64 KiB of the scanner) are appended at
    non-decreasing times without a failing system call, and the machine crashes, leaving what was synced and
    any number of further bytes.  The replay reads the file without an error and finds the first k' records
    in order, followed by what it makes of the piece of line that is left, which is nothing or the beginning
    of the line of the record after them.  With the policy always no record is missing; with
    everysec none that was a second older than the last one. *)
Theorem crash_loses_little policy h a n k :
  timed h -> Forall ok_command h.*2 -> log policy h = Some a -> settled policy h k ->
  exists k' piece, replay_commands (crash n a) = (take k' h.*2 ++ torn_command piece, false) /\
    piece_of h.*2 k' piece /\ (Nat.min k (length h) <= k')%nat.
Proof.
  intros Ht Hok Hl Hk. destruct (log_kept policy h Ht) as (a' & E & [Hb _ Ha Hr Ho] & _). rewrite Hl in E. injection E as <-.
  assert (String.length (file_of (take k h.*2)) <= synced a)%nat as Hs.
  { destruct Hk as [->|[-> Hk]]; [rewrite Ha, Hb by done; apply file_of_take|]. apply (Ho eq_refl). intros x Hx.
    destruct (last h) as [y|] eqn:El; [specialize (Hk x y Hx eq_refl); specialize (Hr eq_refl y eq_refl); lia|].
    apply last_None in El as ->. rewrite take_nil in Hx. by apply not_elem_of_nil in Hx. }
  unfold crash. rewrite Hb. destruct (cut_file (synced a + n) h.*2 k) as (k' & p & -> & Hp & Hor); [lia|].
  exists k', p. split; [|split; [done|rewrite length_fmap in Hor; lia]].
  apply replay_cut; [by apply Forall_take|by eapply piece_no_lf|by eapply piece_fits].
Qed.

Definition sample_history : list (Z * list string) :=
  [(5 * 10 ^ 9, ["SET"; "a"; "1"]%string); (5 * 10 ^ 9 + 1, ["SET"; "b"; "2"]%string); (7 * 10 ^ 9, ["SET"; "c"; "value"]%string)].

Lemma crash_loses_little_witness :
  match log FsyncEverySec sample_history with
  | Some a => exists k' piece, replay_commands (crash 3 a) = (take k' sample_history.*2 ++ torn_command piece, false) /\
      piece_of sample_history.*2 k' piece /\ (2 <= k')%nat
  | None => False
  end.
Proof.
  destruct (log FsyncEverySec sample_history) as [a|] eqn:E; [|by vm_compute in E].
  apply (crash_loses_little FsyncEverySec sample_history a 3 2).
  - split.
    + intros x Hx. unfold sample_history in Hx. repeat (apply elem_of_cons in Hx as [->|Hx]; [vm_compute; discriminate|]).
      by apply not_elem_of_nil in Hx.
    + intros [|[|[|i]]] x y Hx Hy; try done; injection Hx as <-; injection Hy as <-; vm_compute; discriminate.
  - repeat constructor; discriminate.
  - exact E.
  - right. split; [reflexivity|]. intros x y Hx Hy. injection Hy as <-. cbn in Hx.
    repeat (apply elem_of_cons in Hx as [->|Hx]; [vm_compute; discriminate|]). by apply not_elem_of_nil in Hx.
Defined.

(** A torn record is a record.  The line of a record that reached the disk in part has no checksum, which the
    replay takes for the old format: the key gets a part of its value.  And the file is opened for appending
    behind the torn line, so that the next record is joined to it: its checksum does not match and it is
    skipped by every later replay. *)
Theorem torn_record_applied :
  match log FsyncNo [(0, ["SET"; "account"; "1000"]%string)] with
  | Some a =>
      replay_commands (crash 13 a) = ([["SET"; "account"; "1"]%string], false) /\
      match OpenAOF "vole.aof" FsyncAlways (crash 13 a) None with
      | Ok b => match (Append 1 fine ["SET"; "b"; "2"]%string b).2 with
                | Some b => replay_commands (bytes b) = ([], false) /\ synced b = String.length (bytes b)
                | None => False
                end
      | Err _ => False
      end
  | None => False
  end.
Proof. vm_compute. repeat split. Qed.

(** Nothing syncs later.  With everysec a record that follows a sync within a second stays unsynced until the
    next record, however long that takes. *)
Theorem everysec_waits_for_a_write :
  match log FsyncEverySec [(0, ["SET"; "a"; "1"]%string); (1, ["SET"; "b"; "2"]%string)] with
  | Some a => replay_commands (crash 0 a) = ([["SET"; "a"; "1"]%string], false)
  | None => False
  end.
Proof. vm_compute. reflexivity. Qed.
End AofSync.
