(* ===== verification/Config.v ===== *)
(** * Configuration: internal/config/config.go, cmd/vole/main.go

    A file of directives, the flags of the command line that win over it, and
    the checks [main] makes before it starts the server.  The package [flag]
    has parsed the command line: its result is the values and the set of the
    names that were given.  [time.ParseDuration] is a parameter. *)
From S2P Require Import Prelude GoLib GoText Resp Scripting Aof AofSync.

Module Config.
Import Text Resp.
Open Scope vole_scope.

(** ** The file *)

(** [strings.IndexAny(line, " \t")]: the bytes before and after it. *)
Fixpoint cut_blank (s : string) : option (string * string) :=
  match s with
  | EmptyString => None
  | String c s =>
      if Ascii.eqb c " " || Ascii.eqb c Aof.TAB then Some (""%string, s)
      else match cut_blank s with Some (a, b) => Some (String c a, b) | None => None end
  end.

Definition splitDirective (line : string) : string * string :=
  match cut_blank line with
  | None => (line, ""%string)
  | Some (key, rest) => (key, TrimSpace rest)
  end.

Definition is_comment (line : string) : bool := match line with String c _ => Ascii.eqb c "#" | EmptyString => false end.

Definition read_line (cfg : gmap string string) (text : string) : gmap string string :=
  let line := TrimSpace text in
  if (line =? "")%string || is_comment line then cfg
  else let '(key, value) := splitDirective line in if (key =? "")%string then cfg else <[key := value]> cfg.

(** The directives, and whether the scanner stopped at a line of 64 KiB. *)
Definition Load (file : string) : gmap string string * bool :=
  let '(lines, err) := Aof.scan_lines (S (String.length file)) file in (fold_left read_line lines ∅, err).

(** ** The flags *)

Record flags := mkFlags {
  addr : string; data : string; appendOnly : bool; appendFilename : string; appendFsync : string; snapshot : string;
  snapshotInterval : Z; nodeID : string; peers : string; maxMemory : Z; maxMemoryPolicy : string; httpAddr : string;
  password : string; tlsCert : string; tlsKey : string; replicaOf : string; multimaster : bool
}.

(** The defaults of the flag definitions. *)
Definition default_flags : flags :=
  mkFlags "127.0.0.1:7379" "" true "vole.aof" AofSync.FsyncEverySec "vole.rdb.json" 0 "" "" 0 "noeviction" "" "" "" "" "" false.

Section Main.
Context (ParseDuration : string -> option Z).

(** [str]: the value of the file, unless the flag was given. *)
Definition str (cfg : gmap string string) (set : gset string) (name dst : string) : string :=
  match cfg !! name with Some v => if bool_decide (name ∈ set) then dst else v | None => dst end.

Definition truth (v : string) : bool :=
  let lower := ToLower v in (lower =? "true")%string || (lower =? "yes")%string || (lower =? "1")%string.

Definition flag_or (cfg : gmap string string) (set : gset string) (name : string) {A} (read : string -> option A) (dst : A) : A :=
  match cfg !! name with
  | Some v => if bool_decide (name ∈ set) then dst else default dst (read v)
  | None => dst
  end.

Definition read_int (v : string) : option Z := match ParseInt v with (n, None) => Some n | _ => None end.
Definition read_interval (v : string) : option Z :=
  if (v =? "0")%string || (v =? "")%string then Some 0 else ParseDuration v.

Definition applyDefaults (cfg : gmap string string) (set : gset string) (f : flags) : flags :=
  let str := str cfg set in
  mkFlags (str "addr" (addr f)) (str "data" (data f)) (flag_or cfg set "appendonly" (fun v => Some (truth v)) (appendOnly f))
    (str "appendfilename" (appendFilename f)) (str "appendfsync" (appendFsync f)) (str "snapshot" (snapshot f))
    (flag_or cfg set "snapshot-interval" read_interval (snapshotInterval f)) (str "node-id" (nodeID f)) (str "peers" (peers f))
    (flag_or cfg set "maxmemory" read_int (maxMemory f)) (str "maxmemory-policy" (maxMemoryPolicy f)) (str "http-addr" (httpAddr f))
    (str "requirepass" (password f)) (str "tls-cert" (tlsCert f)) (str "tls-key" (tlsKey f)) (str "replicaof" (replicaOf f))
    (flag_or cfg set "multimaster" (fun v => Some (truth v)) (multimaster f)).

(** ** The start *)

Record Options := mkOptions {
  Addr : string; AOFPath : string; AppendOnly : bool; AppendFsync : string; SnapshotPath : string; SnapshotInterval : Z;
  NodeID : string; Peers : string; MaxMemory : Z; MaxMemoryPolicy : string; HTTPAddr : string; Password : string;
  TLSCert : string; TLSKey : string
}.

(** [main] up to [NewWithOptions]: the message of [log.Fatal], or the options
    and the flags that are used after it. *)
Definition prepare (file : option (result string)) (set : gset string) (f : flags) : result (Options * flags) :=
  let loaded :=
    match file with
    | None => Ok f
    | Some (Err e) => Err e
    | Some (Ok text) =>
        let '(cfg, long) := Load text in
        if long then Err "bufio.Scanner: token too long"%string else Ok (applyDefaults cfg set f)
    end in
  match loaded with
  | Err e => Err e
  | Ok f =>
      let path := if (data f =? "")%string then appendFilename f else data f in
      if snapshotInterval f <? 0 then Err "snapshot-interval must be >= 0"%string
      else if negb (appendFsync f =? AofSync.FsyncAlways)%string && negb (appendFsync f =? AofSync.FsyncEverySec)%string
              && negb (appendFsync f =? AofSync.FsyncNo)%string
      then Err "appendfsync must be always, everysec, or no"%string
      else Ok (mkOptions (addr f) path (appendOnly f) (appendFsync f) (snapshot f) (snapshotInterval f) (nodeID f) (peers f)
                 (maxMemory f) (maxMemoryPolicy f) (httpAddr f) (password f) (tlsCert f) (tlsKey f), f)
  end.

(** [strings.SplitN(addr, ":", 2)] has two parts: the address of a leader, or
    the end of the process. *)
Definition leader_of (f : flags) : result (option string) :=
  if (replicaOf f =? "")%string then Ok None
  else if has_byte ":" (replicaOf f) then Ok (Some (replicaOf f)) else Err "replicaof must be host:port"%string.
End Main.

(** ** A file that is written and read *)

(** Text that begins and ends with a solid byte. *)
Definition framed (s : string) : Prop :=
  exists a x y c, s = String a x /\ s = y ^^ String c "" /\ Scripting.solid a = true /\ Scripting.solid c = true.

Lemma TrimSpace_framed s : framed s -> TrimSpace s = s.
Proof.
  intros (a & x & y & c & Ea & Ec & Ha & Hc). unfold TrimSpace. rewrite Ea. cbn [trim_left].
  destruct (space_width (String a x)) as [|w] eqn:E; [rewrite <-Ea, Ec; by apply Scripting.trim_right_solid|].
  apply Scripting.space_width_bytes in E as [E _]. congruence.
Qed.

(** A name without blanks, and a value that survives trimming. *)
Definition ok_directive (d : string * string) : Prop :=
  framed d.1 /\ is_comment d.1 = false /\ cut_blank d.1 = None /\ (d.2 = ""%string \/ framed d.2).

Definition directive (d : string * string) : string := if (d.2 =? "")%string then d.1 else d.1 ^^ " " ^^ d.2.
Definition ok_line (d : string * string) : Prop :=
  has_byte Aof.LF (directive d) = false /\ has_byte (ascii_of_nat 13) (directive d) = false /\
  Z.of_nat (String.length (directive d)) < Aof.maxToken.
Definition print (l : list (string * string)) : string := foldr (fun d out => directive d ^^ String Aof.LF out) ""%string l.

Lemma framed_cat x y : framed x -> framed y -> framed (x ^^ " " ^^ y).
Proof.
  intros (a & x1 & _ & _ & -> & _ & Ha & _) (_ & _ & y1 & c & _ & -> & _ & Hc).
  exists a, (x1 ^^ " " ^^ y1 ^^ String c ""), (String a x1 ^^ " " ^^ y1), c. split; [done|]. by rewrite !cat_assoc.
Qed.

Lemma cut_blank_cat k v : cut_blank k = None -> cut_blank (k ^^ " " ^^ v) = Some (k, v).
Proof.
  induction k as [|c k IH]; intros H; [done|]. cbn [cut_blank] in H. change (String c k ^^ ?x) with (String c (k ^^ x)).
  cbn [cut_blank]. destruct (_ || _); [done|]. destruct (cut_blank k) as [[]|]; [done|]. by rewrite IH.
Qed.

Lemma read_directive cfg d : ok_directive d -> read_line cfg (directive d) = <[d.1 := d.2]> cfg.
Proof.
  destruct d as [k v]. intros (Hk & Hc & Hb & Hv). cbn [fst snd] in *. unfold read_line, directive. cbn [fst snd].
  assert (exists c k', k = String c k') as (c & k' & Ek) by (destruct Hk as (a & x & _ & _ & -> & _); by exists a, x).
  destruct (String.eqb_spec v "") as [->|Hne].
  - rewrite TrimSpace_framed by done. unfold splitDirective. rewrite Hb, Hc, Ek. reflexivity.
  - destruct Hv as [|Hv]; [done|]. rewrite TrimSpace_framed by (by apply framed_cat). unfold splitDirective.
    rewrite cut_blank_cat by done. rewrite Ek in *. change (is_comment (String c k' ^^ " " ^^ v)) with (is_comment (String c k')).
    rewrite Hc. cbn [String.eqb orb]. rewrite TrimSpace_framed by done. reflexivity.
Qed.

Lemma scan_print l : forall fuel, Forall ok_line l -> (String.length (print l) < fuel)%nat -> Aof.scan_lines fuel (print l) = (directive <$> l, false).
Proof.
  induction l as [|d l IH]; intros fuel Hl Hf; [by destruct fuel|]. apply Forall_cons in Hl as [(Hlf & Hcr & Hlen) Hl].
  destruct fuel as [|fuel]; [lia|]. cbn [print foldr] in *. fold (print l) in *. rewrite length_cat in Hf. cbn [String.length] in Hf.
  cbn [Aof.scan_lines]. change (directive d ^^ String Aof.LF (print l)) with (String.append (directive d) (String Aof.LF (print l))).
  rewrite Aof.take_line_app by done. destruct (String.append _ _) eqn:E; [by destruct (directive d)|].
  rewrite (proj2 (Z.leb_gt _ _)) by done. rewrite IH by (done || lia). unfold Aof.drop_cr. by rewrite Aof.trim_absent.
Qed.

(** A file of directives is read as it was written: whatever the names and values, the last value of each name
    wins and nothing is lost or added. *)
Theorem config_roundtrip (l : list (string * string)) :
  Forall ok_directive l -> Forall ok_line l ->
  Load (print l) = (fold_left (fun cfg d => <[d.1 := d.2]> cfg) l ∅, false).
Proof.
  intros Hd Hl. unfold Load. rewrite scan_print by (done || lia). f_equal. generalize (∅ : gmap string string).
  induction Hd as [|d l Hd _ IH]; intros cfg; [done|]. apply Forall_cons in Hl as [_ Hl]. cbn [fmap list_fmap fold_left].
  rewrite read_directive by done. by apply IH.
Qed.

(** ** Who wins *)

Definition text_flags : list (string * (flags -> string)) :=
  [("addr", addr); ("data", data); ("appendfilename", appendFilename); ("appendfsync", appendFsync); ("snapshot", snapshot);
   ("node-id", nodeID); ("peers", peers); ("maxmemory-policy", maxMemoryPolicy); ("http-addr", httpAddr);
   ("requirepass", password); ("tls-cert", tlsCert); ("tls-key", tlsKey); ("replicaof", replicaOf)]%string.

(** The command line wins over the file, and the file over the defaults; nothing else is looked at. *)
Theorem config_precedence parse cfg set f name get :
  (name, get) ∈ text_flags ->
  get (applyDefaults parse cfg set f) = if bool_decide (name ∈ set) then get f else default (get f) (cfg !! name).
Proof.
  intros H. unfold text_flags in H.
  repeat (apply elem_of_cons in H as [H|H]; [injection H as -> ->; cbn; unfold str; destruct (cfg !! _); by case_bool_decide|]).
  by apply not_elem_of_nil in H.
Qed.

(** Mistakes pass unnoticed: a memory limit with a unit is ignored, so that there is none, and a log that is
    switched on with the word [on] is switched off. *)
Theorem config_pitfalls parse :
  let '(cfg, _) := Load (print [("maxmemory", "100mb"); ("appendonly", "on"); ("requirepas", "secret")]%string) in
  let f := applyDefaults parse cfg ∅ default_flags in
  maxMemory f = 0 /\ appendOnly f = false /\ password f = ""%string.
Proof. vm_compute. repeat split. Qed.

(** Only the three policies reach the log. *)
Theorem prepared_policy parse file set f o f' :
  prepare parse file set f = Ok (o, f') ->
  AppendFsync o ∈ [AofSync.FsyncAlways; AofSync.FsyncEverySec; AofSync.FsyncNo] /\ 0 <= SnapshotInterval o.
Proof.
  unfold prepare. destruct (match file with None => _ | Some _ => _ end) as [g|e]; [|done].
  destruct (Z.ltb_spec (snapshotInterval g) 0); [done|].
  destruct (negb _ && negb _ && negb _) eqn:E; [done|]. intros [= <- _]. cbn. split; [|done].
  rewrite !andb_false_iff, !negb_false_iff, !String.eqb_eq in E. set_solver.
Qed.
End Config.
