(* ===== verification/Replay.v ===== *)
(** * Applying logged and replicated commands (internal/server/aof.go,
    internal/server/replication.go)

    [ReplayAOF] applies every command of the log file to the store when the
    server starts; [applyReplicatedCommand] applies the commands a leader
    streams to its followers.  Both are a [switch] on the command name; here
    a table of cases, one table per stretch of the source.  The results of
    the store operations are dropped, as in the source. *)
From S2P Require Import Prelude GoLib GoText Deque SortedSet Json Store StoreStrings StoreHashes StoreSets.
From S2P Require Import StoreLists StoreQueue StoreStreams StoreDocs StoreSearch Aof.

Module Replay.
Import Store Strings Hashes Sets Lists Queues Streams Docs Search Text.

Definition command := list string.
Definition case := command -> Store -> Store.

(** [args[i]]; every use is guarded by a length check. *)
Definition arg (i : nat) (args : command) : string := nth i args "".
Definition argc (args : command) : Z := zlen args.

Definition select {A} (cmd : string) (cases : list (string * A)) : option A :=
  snd <$> List.find (fun c => (c.1 =? cmd)%string) cases.

Definition Second : Z := 10 ^ 9.
Definition Millisecond : Z := 10 ^ 6.

(** [time.Duration(n) * unit] *)
Definition duration (n unit_ : Z) : Z := wrap64 (n * unit_).

(** The deadline SETABS and MSETABS log: not positive for no deadline. *)
Definition deadline_of (ns : Z) : Z := if ns >? 0 then ns else zeroTime.

Fixpoint pairs_of (l : list string) : list (string * string) :=
  match l with f :: v :: l => (f, v) :: pairs_of l | _ => [] end.

Fixpoint members_of (l : list string) : list SortedSet.ZMember :=
  match l with
  | score :: member :: l => SortedSet.mkZ member (Sscan_float score) :: members_of l
  | _ => []
  end.

Fixpoint triples_of (l : list string) : list (string * string * string) :=
  match l with key :: value :: ns :: l => (key, value, ns) :: triples_of l | _ => [] end.

(** The loop of MSETABS over its triples of key, value and deadline. *)
Definition set_absolute_all (now : Z) (l : list string) (s : Store) : Store :=
  fold_left (fun s t => SetAbsolute now t.1.1 t.1.2 (deadline_of (Sscan_int t.2)) s) (triples_of l) s.

(** The [name=value] arguments of TAG and TS.ADD; a later one wins. *)
Definition labels_of (l : list string) : gmap string string :=
  fold_left (fun m a => match cut_equals a with Some (k, v) => <[k := v]> m | None => m end) l ∅.

Definition ttl_of (parse : string -> Z) (args : command) : Z :=
  if argc args >=? 5 then
    let opt := ToUpper (arg 3 args) in
    if (opt =? "PX")%string then duration (parse (arg 4 args)) Millisecond
    else if (opt =? "EX")%string then duration (parse (arg 4 args)) Second
    else 0
  else 0.

Definition when (b : bool) (f : Store -> Store) (s : Store) : Store := if b then f s else s.

Section Cases.
Context (unmarshal : string -> result Json.json) (marshal : Json.json -> result string).

Definition set_cases (now : Z) : list (string * case) :=
  [("SETABS", fun a => when (argc a =? 4)
      (SetAbsolute now (arg 1 a) (arg 2 a) (deadline_of (Sscan_int (arg 3 a)))));
   ("MSETABS", fun a => when ((argc a >=? 4) && ((argc a - 1) mod 3 =? 0)) (set_absolute_all now (drop 1 a)));
   ("SET", fun a => when (argc a >=? 3) (Set_ now (arg 1 a) (arg 2 a) (ttl_of Sscan_int a)));
   ("DEL", fun a => when (argc a >? 1) (fun s => (Del now (drop 1 a) 0 s).2))].

Definition container_cases (now : Z) : list (string * case) :=
  [("HSET", fun a => when ((argc a >=? 4) && (argc a mod 2 =? 0))
      (fun s => (HSet now (arg 1 a) (pairs_of (drop 2 a)) s).2));
   ("HDEL", fun a => when (argc a >? 2) (fun s => (HDel now (arg 1 a) (drop 2 a) s).2));
   ("LPUSH", fun a => when (argc a >? 2) (fun s => (LPush now (arg 1 a) (drop 2 a) s).2));
   ("RPUSH", fun a => when (argc a >? 2) (fun s => (RPush now (arg 1 a) (drop 2 a) s).2));
   ("LPOP", fun a => when (argc a =? 2) (fun s => (LPop now (arg 1 a) s).2));
   ("RPOP", fun a => when (argc a =? 2) (fun s => (RPop now (arg 1 a) s).2));
   ("LSET", fun a => when (argc a =? 4) (fun s => (LSet now (arg 1 a) (Atoi (arg 2 a)).1 (arg 3 a) s).2));
   ("LINSERT", fun a => when (argc a =? 5)
      (fun s => (LInsert now (arg 1 a) (EqualFold (arg 2 a) "BEFORE") (arg 3 a) (arg 4 a) s).2));
   ("SADD", fun a => when (argc a >? 2) (fun s => (Sets.SAdd now (arg 1 a) (drop 2 a) s).2));
   ("SREM", fun a => when (argc a >? 2) (fun s => (SRem now (arg 1 a) (drop 2 a) s).2))].

(** The two cases only the log replay has. *)
Definition aof_only_cases (now : Z) : list (string * case) :=
  [("SMOVE", fun a => when (argc a =? 4) (fun s => (SMove now (arg 1 a) (arg 2 a) (arg 3 a) s).2));
   ("LREM", fun a => when (argc a =? 4) (fun s => (LRem now (arg 1 a) (Atoi (arg 2 a)).1 (arg 3 a) s).2))].

Definition counter_cases (now : Z) : list (string * case) :=
  [("ZADD", fun a => when ((argc a >=? 4) && (argc a mod 2 =? 0))
      (fun s => (ZAdd now (arg 1 a) (members_of (drop 2 a)) s).2));
   ("ZREM", fun a => when (argc a >? 2) (fun s => (ZRem now (arg 1 a) (drop 2 a) s).2));
   ("INCR", fun a => when (argc a =? 2) (fun s => (Incr now (arg 1 a) s).2));
   ("INCRBY", fun a => when (argc a =? 3) (fun s => (IncrBy now (arg 1 a) (Sscan_int (arg 2 a)) s).2));
   ("DECRBY", fun a => when (argc a =? 3) (fun s => (DecrBy now (arg 1 a) (Sscan_int (arg 2 a)) s).2));
   ("DECR", fun a => when (argc a =? 2) (fun s => (IncrBy now (arg 1 a) (-1) s).2));
   ("INCRBYFLOAT", fun a => when (argc a =? 3)
      (fun s => (IncrByFloat now (arg 1 a) (Sscan_float (arg 2 a)) s).2));
   ("HINCRBY", fun a => when (argc a =? 4)
      (fun s => (HIncrBy now (arg 1 a) (arg 2 a) (Sscan_int (arg 3 a)) s).2));
   ("APPEND", fun a => when (argc a =? 3) (fun s => (Strings.Append now (arg 1 a) (arg 2 a) s).2));
   ("EXPIRE", fun a => when (argc a =? 3)
      (fun s => (Expire now (arg 1 a) (duration (Sscan_int (arg 2 a)) Second) s).2));
   ("EXPIREATABS", fun a => when (argc a =? 3)
      (fun s => let ns := Sscan_int (arg 2 a) in
                (ExpireAt now (arg 1 a) (if ns =? 0 then zeroTime else ns) s).2));
   ("RENAME", fun a => when (argc a =? 3) (fun s => (Rename now (arg 1 a) (arg 2 a) s).2))].

Definition stream_cases (now : Z) : list (string * case) :=
  [("XADD", fun a => when (argc a >=? 5) (fun s => (XAdd now (arg 1 a) (arg 2 a) (drop 3 a) s).2));
   ("XGROUP", fun a => when ((argc a >=? 5) && EqualFold (arg 1 a) "CREATE")
      (fun s => (XGroupCreate now (arg 2 a) (arg 3 a) (arg 4 a)
                   ((argc a =? 6) && EqualFold (arg 5 a) "MKSTREAM") s).2));
   ("XGROUPDELIVER", fun a => when (argc a >=? 6)
      (fun s => (XGroupDeliver now (arg 1 a) (arg 2 a) (arg 3 a) (drop 5 a) (Sscan_int (arg 4 a)) s).2));
   ("XACK", fun a => when (argc a >=? 4) (fun s => (XAck now (arg 1 a) (arg 2 a) (drop 3 a) s).2));
   ("PFADD", fun a => when (argc a >=? 2) (fun s => (PFAdd now (arg 1 a) (drop 2 a) s).2));
   ("PFMERGE", fun a => when (argc a >=? 2) (PFMerge now (arg 1 a) (drop 2 a)));
   ("COPY", fun a => when (argc a >=? 3)
      (fun s => (Copy now (arg 1 a) (arg 2 a) (existsb (fun x => EqualFold x "REPLACE") (drop 3 a)) s).2));
   ("SETDELAYED", fun a => when (argc a >=? 4)
      (SetDelayed now (arg 1 a) (arg 2 a) (duration (Sscan_int (arg 3 a)) Second)
         (if (argc a >=? 6) && EqualFold (arg 4 a) "EX" then duration (Sscan_int (arg 5 a)) Second else 0)))].

Definition document_cases (now : Z) : list (string * case) :=
  [("ENQUEUE", fun a => when (argc a >=? 3)
      (fun s => (Enqueue now (arg 1 a) (arg 2 a)
                   (if (argc a >=? 5) && EqualFold (arg 3 a) "DELAY"
                    then duration (Sscan_int (arg 4 a)) Second else 0) s).2));
   ("QACK", fun a => when (argc a =? 3) (fun s => (QAck now (arg 1 a) (arg 2 a) s).2));
   ("QNACK", fun a => when (argc a =? 3) (fun s => (QNack now (arg 1 a) (arg 2 a) s).2));
   ("JSON.SET", fun a => when (argc a =? 4)
      (fun s => (JSONSet unmarshal now (arg 1 a) (arg 2 a) (arg 3 a) s).2));
   ("JSON.DEL", fun a => when (argc a >=? 2)
      (fun s => (JSONDel now (arg 1 a) (if argc a =? 3 then arg 2 a else "$") s).2));
   ("JSON.NUMINCRBY", fun a => when (argc a =? 4)
      (fun s => (JSONNumIncrBy now (arg 1 a) (arg 2 a) (ParseFloat (arg 3 a)).1 s).2));
   ("JSON.ARRAPPEND", fun a => when (argc a >=? 4)
      (fun s => (JSONArrAppend unmarshal now (arg 1 a) (arg 2 a) (drop 3 a) s).2));
   ("TAG", fun a => when (argc a >=? 3) (fun s => (TagSet now (arg 1 a) (labels_of (drop 2 a)) s).2));
   ("TAGDEL", fun a => when (argc a >=? 3) (fun s => (TagDel (arg 1 a) (drop 2 a) s).2));
   ("TS.ADD", fun a => when (argc a >=? 4)
      (fun s => (TSAdd now (arg 1 a) (if (arg 2 a =? "*")%string then 0 else Sscan_int (arg 2 a))
                   (Sscan_float (arg 3 a))
                   (labels_of (drop (if (argc a >? 4) && EqualFold (arg 4 a) "LABELS" then 5 else 4) a)) s).2))].

(** The [switch] of [ReplayAOF]; a command without a case is dropped. *)
Definition replay_one (now : Z) (args : command) (s : Store) : Store :=
  match select (ToUpper (arg 0 args))
          (set_cases now ++ container_cases now ++ aof_only_cases now ++ counter_cases now ++ stream_cases now
           ++ document_cases now) with
  | Some f => f args s
  | None => s
  end.

Definition replay_all (now : Z) (cmds : list command) (s : Store) : Store :=
  fold_left (fun s c => replay_one now c s) cmds s.

(** [ReplayAOF] over the bytes of the log; the flag is the scanner error it
    returns after the commands before it were applied. *)
Definition ReplayAOF (now : Z) (file : string) (s : Store) : Store * bool :=
  let '(cmds, err) := Aof.replay_commands file in (replay_all now cmds s, err).

(** [applyReplicatedCommand]: SET reads its lifetime with [ParseInt], and the
    two cases above are missing. *)
Definition replicated_set (now : Z) : case := fun a =>
  when (argc a >=? 3) (Set_ now (arg 1 a) (arg 2 a) (ttl_of (fun t => (ParseInt t).1) a)).

(** The second half of its [switch]: the streams and the documents. *)
Definition replicated_documents (now : Z) : list (string * case) := stream_cases now ++ document_cases now.

Definition applyReplicatedCommand (now : Z) (args : command) (s : Store) : Store :=
  match args with
  | [] => s
  | name :: _ =>
      match select (ToUpper name)
              (("SET", replicated_set now) :: set_cases now ++ container_cases now ++ counter_cases now
               ++ replicated_documents now) with
      | Some f => f args s
      | None => s
      end
  end.

(** The loop of a follower: PING and PONG are skipped. *)
Definition follow_one (now : Z) (args : command) (s : Store) : Store :=
  match args with
  | [] => s
  | name :: _ =>
      let cmd := ToUpper name in
      if (cmd =? "PING")%string || (cmd =? "PONG")%string then s else applyReplicatedCommand now args s
  end.
End Cases.

End Replay.
