(* ===== verification/Replication.v ===== *)
(** * Roles and followers (internal/server/replication.go)

    The role of a node, the followers a leader streams its writes to, and the
    leader a follower reads from.  A follower connection is the commands that
    were written to it, in order; a broken connection takes no more of them.
    The goroutine that follows a leader is the address in [following]. *)
From S2P Require Import Prelude GoLib Store Replay.

Module Replication.

Inductive ReplicationRole := RoleMaster | RoleReplica.

Record Replica := mkReplica { Addr : string; ConnectedAt : Z; sent : list Replay.command; broken : bool }.

Record ReplicationState := mkState {
  role : ReplicationRole;
  leaderAddr : string;
  replicas : gmap string Replica;
  following : option string
}.

Definition NewReplicationState : ReplicationState := mkState RoleMaster "" ∅ None.
Definition Role (rs : ReplicationState) : ReplicationRole := role rs.
Definition IsReplica (rs : ReplicationState) : bool := match role rs with RoleReplica => true | RoleMaster => false end.
Definition LeaderAddr (rs : ReplicationState) : string := leaderAddr rs.
Definition ReplicaCount (rs : ReplicationState) : Z := zlen (map_to_list (replicas rs)).

(** [r.Writer.Command(args)] and [Flush]; a failure is logged. *)
Definition write_to (args : Replay.command) (r : Replica) : Replica :=
  if broken r then r else mkReplica (Addr r) (ConnectedAt r) (sent r ++ [args]) false.

Definition PropagateToReplicas (args : Replay.command) (rs : ReplicationState) : ReplicationState :=
  mkState (role rs) (leaderAddr rs) (write_to args <$> replicas rs) (following rs).

Definition AddReplica (now : Z) (addr : string) (rs : ReplicationState) : ReplicationState :=
  mkState (role rs) (leaderAddr rs) (<[addr := mkReplica addr now [] false]> (replicas rs)) (following rs).

Definition RemoveReplica (addr : string) (rs : ReplicationState) : ReplicationState :=
  mkState (role rs) (leaderAddr rs) (delete addr (replicas rs)) (following rs).

Definition StartFollowing (addr : string) (rs : ReplicationState) : ReplicationState :=
  mkState RoleReplica addr (replicas rs) (Some addr).

Definition StopFollowing (rs : ReplicationState) : ReplicationState := mkState RoleMaster "" (replicas rs) None.

(** ** Histories *)

Inductive event :=
| Propagate (args : Replay.command)
| Join (now : Z) (addr : string)
| Leave (addr : string)
| Break (addr : string)
| Follow (addr : string)
| Promote.

Definition step (e : event) (rs : ReplicationState) : ReplicationState :=
  match e with
  | Propagate args => PropagateToReplicas args rs
  | Join now addr => AddReplica now addr rs
  | Leave addr => RemoveReplica addr rs
  | Break addr => mkState (role rs) (leaderAddr rs)
                    (alter (fun r => mkReplica (Addr r) (ConnectedAt r) (sent r) true) addr (replicas rs)) (following rs)
  | Follow addr => StartFollowing addr rs
  | Promote => StopFollowing rs
  end.

Definition history (evs : list event) (rs : ReplicationState) : ReplicationState := fold_left (fun rs e => step e rs) evs rs.

(** The state is consistent: a follower, and only a follower, knows its leader and reads from it. *)
Definition wf (rs : ReplicationState) : Prop :=
  match role rs with
  | RoleMaster => leaderAddr rs = ""%string /\ following rs = None
  | RoleReplica => following rs = Some (leaderAddr rs)
  end.

Lemma role_step_wf e rs : wf rs -> wf (step e rs).
Proof. destruct e; unfold wf; cbn; done. Qed.

Lemma history_wf evs rs : wf rs -> wf (history evs rs).
Proof. revert rs. induction evs as [|e evs IH]; intros rs H; [done|]. by apply IH, role_step_wf. Qed.

(** What the follower at [addr] holds, by an independent account of the history: [None] when it is not connected. *)
Fixpoint stream (addr : string) (evs : list event) (acc : option (list Replay.command * bool))
    : option (list Replay.command * bool) :=
  match evs with
  | [] => acc
  | Propagate args :: evs =>
      stream addr evs (match acc with Some (l, false) => Some (l ++ [args], false) | r => r end)
  | Join _ a :: evs => stream addr evs (if (a =? addr)%string then Some ([], false) else acc)
  | Leave a :: evs => stream addr evs (if (a =? addr)%string then None else acc)
  | Break a :: evs => stream addr evs (if (a =? addr)%string then (fun x => (x.1, true)) <$> acc else acc)
  | _ :: evs => stream addr evs acc
  end.

Definition seen (addr : string) (rs : ReplicationState) : option (list Replay.command * bool) :=
  (fun r => (sent r, broken r)) <$> replicas rs !! addr.

Lemma history_stream addr evs rs : seen addr (history evs rs) = stream addr evs (seen addr rs).
Proof.
  revert rs. induction evs as [|e evs IH]; intros rs; [done|]. unfold history in *. cbn [fold_left]. rewrite IH.
  destruct e as [args|now a|a|a|a|]; cbn [step stream]; try done; f_equal; unfold seen; cbn [replicas PropagateToReplicas AddReplica RemoveReplica].
  - rewrite lookup_fmap. destruct (replicas rs !! addr) as [r|]; [|done]. cbn. unfold write_to. destruct (broken r) eqn:E; cbn; by rewrite ?E.
  - destruct (String.eqb_spec a addr) as [->|Hne]; [by rewrite lookup_insert_eq|by rewrite lookup_insert_ne].
  - destruct (String.eqb_spec a addr) as [->|Hne]; [by rewrite lookup_delete_eq|by rewrite lookup_delete_ne].
  - destruct (String.eqb_spec a addr) as [->|Hne]; [rewrite lookup_alter_eq|by rewrite lookup_alter_ne].
    by destruct (replicas rs !! addr).
Qed.

(** Every follower is sent every write once and in order.  After any history of writes, connections and
    disconnections of followers and changes of role, a connected follower has been sent exactly the
    commands propagated since it connected (up to where its connection broke), in their order and
    whatever the other followers do; and a node knows a leader and reads from it exactly when it is a
    follower. *)
Theorem followers_see_all evs addr :
  seen addr (history evs NewReplicationState) = stream addr evs None /\
  wf (history evs NewReplicationState) /\
  forall args, seen addr (history (evs ++ [Propagate args]) NewReplicationState) =
    match seen addr (history evs NewReplicationState) with
    | Some (l, false) => Some (l ++ [args], false)
    | r => r
    end.
Proof.
  split; [apply history_stream|]. split; [by apply history_wf|]. intros args. unfold history. rewrite fold_left_app.
  change (seen addr (history [Propagate args] (history evs NewReplicationState)) =
    match seen addr (history evs NewReplicationState) with Some (l, false) => Some (l ++ [args], false) | r => r end).
  rewrite (history_stream addr [Propagate args]). cbn [stream]. by destruct (seen addr _) as [[l []]|].
Qed.
End Replication.
