(* ===== verification/MultiMaster.v ===== *)
(** * Multi-master replication (internal/server/multimaster.go)

    A node keeps a table of peers and one goroutine, [peerLoop], per
    [ConnectToPeer]; the goroutines are the list [loops] here, each dialing,
    streaming the peer's writes or waiting to retry.  The network is the order
    of the steps: a dial that fails, a synchronisation that ends, a command
    that arrives.  [snap] is the decoded snapshot a peer sent. *)
From S2P Require Import Prelude GoLib Json Store StoreStrings StoreSnapshot Cluster Replay.

Module MultiMaster.
Import Store.

Record PeerState := mkPeer { ID : string; Addr : string; Active : bool }.

Inductive phase := Dialing | Streaming | Waiting.
Record loop := mkLoop { nodeID : string; addr : string; at_ : phase }.

#[export] Instance phase_eq_dec : EqDecision phase.
Proof. solve_decision. Defined.

Record MultiMaster := mkMM {
  peers : gmap string PeerState;
  store : Store;
  selfID : string;
  selfAddr : string;
  clock : Z;
  enabled : bool;
  loops : list loop
}.

Definition NewMultiMaster (selfID selfAddr : string) (st : Store) : MultiMaster := mkMM ∅ st selfID selfAddr 0 false [].

Definition with_peers (p : gmap string PeerState) (l : list loop) (mm : MultiMaster) : MultiMaster :=
  mkMM p (store mm) (selfID mm) (selfAddr mm) (clock mm) (enabled mm) l.
Definition with_enabled (b : bool) (mm : MultiMaster) : MultiMaster :=
  mkMM (peers mm) (store mm) (selfID mm) (selfAddr mm) (clock mm) b (loops mm).
Definition with_clock (c : Z) (mm : MultiMaster) : MultiMaster :=
  mkMM (peers mm) (store mm) (selfID mm) (selfAddr mm) c (enabled mm) (loops mm).
Definition with_store (st : Store) (mm : MultiMaster) : MultiMaster :=
  mkMM (peers mm) st (selfID mm) (selfAddr mm) (clock mm) (enabled mm) (loops mm).

Definition Enable (mm : MultiMaster) : MultiMaster := with_enabled true mm.
Definition IsEnabled (mm : MultiMaster) : bool := enabled mm.

(** The connections are closed, the goroutines awaited and the table cleared. *)
Definition Stop (mm : MultiMaster) : MultiMaster := with_peers ∅ [] mm.
Definition Disable (mm : MultiMaster) : MultiMaster := Stop (with_enabled false mm).

(** ** The Lamport clock *)

Definition Tick (mm : MultiMaster) : Z * MultiMaster :=
  let c := wrap64 (clock mm + 1) in (c, with_clock c mm).
Definition Merge (remote : Z) (mm : MultiMaster) : MultiMaster :=
  if remote <=? clock mm then mm else with_clock remote mm.
Definition Clock (mm : MultiMaster) : Z := clock mm.

(** ** Peers *)

Definition ConnectToPeer (id addr : string) (mm : MultiMaster) : MultiMaster :=
  match peers mm !! id with
  | Some _ => mm
  | None => with_peers (<[id := mkPeer id addr false]> (peers mm)) (loops mm ++ [mkLoop id addr Dialing]) mm
  end.

Definition ConnectToClusterPeers (c : Cluster.Cluster) (mm : MultiMaster) : MultiMaster :=
  let self := Cluster.self c in
  fold_left (fun mm n => if (Cluster.ID n =? Cluster.ID self)%string || Cluster.Self n then mm
                         else ConnectToPeer (Cluster.ID n) (Cluster.Addr n) mm) (Cluster.Nodes c) mm.

Definition PeerCount (mm : MultiMaster) : Z := zlen (filter (fun p => Active p.2 = true) (map_to_list (peers mm))).
Definition PeerInfo (mm : MultiMaster) : list PeerState := (map_to_list (peers mm)).*2.

(** The peers a write is sent to. *)
Definition PropagateToAllPeers (args : Replay.command) (mm : MultiMaster) : list (string * Replay.command) :=
  if negb (enabled mm) then []
  else (fun p : string * PeerState => (ID p.2, args)) <$> filter (fun p => Active p.2 = true) (map_to_list (peers mm)).

(** ** The goroutine of a peer *)

Definition set_phase (i : nat) (l : loop) (at_ : phase) (mm : MultiMaster) : list loop :=
  <[i := mkLoop (nodeID l) (addr l) at_]> (loops mm).

(** [net.DialTimeout] fails: the table keeps its entry. *)
Definition dial_failed (i : nat) (l : loop) (mm : MultiMaster) : MultiMaster :=
  with_peers (peers mm) (set_phase i l Waiting mm) mm.

(** The connection ends after the dial: the deferred function drops the entry. *)
Definition sync_failed (i : nat) (l : loop) (mm : MultiMaster) : MultiMaster :=
  with_peers (delete (nodeID l) (peers mm)) (set_phase i l Waiting mm) mm.

Section Codecs.
Context (unmarshal_doc : string -> option Json.json)
  (unmarshal : string -> result Json.json).

(** The snapshot is loaded into an empty store only. *)
Definition sync_begins (now : Z) (order : list string) (snap : Snapshots.Snapshot) (i : nat) (l : loop) (mm : MultiMaster)
    : MultiMaster :=
  let mm := if Strings.DBSize now (store mm) =? 0
            then with_store (Snapshots.Load unmarshal_doc now order snap (store mm)) mm else mm in
  with_peers (<[nodeID l := mkPeer (nodeID l) (addr l) true]> (peers mm)) (set_phase i l Streaming mm) mm.

Definition retry (i : nat) (l : loop) (mm : MultiMaster) : MultiMaster :=
  with_peers (peers mm) (set_phase i l Dialing mm) mm.

(** A command of the peer arrives. *)
Definition receive (now : Z) (args : Replay.command) (mm : MultiMaster) : MultiMaster :=
  with_store (Replay.follow_one unmarshal now args (store mm)) mm.

(** ** Runs *)

Inductive step : MultiMaster -> MultiMaster -> Prop :=
| step_connect id a mm : step mm (ConnectToPeer id a mm)
| step_dial_failed i l mm : loops mm !! i = Some l -> at_ l = Dialing -> step mm (dial_failed i l mm)
| step_begins now order snap i l mm :
    loops mm !! i = Some l -> at_ l = Dialing -> step mm (sync_begins now order snap i l mm)
| step_retry i l mm : loops mm !! i = Some l -> at_ l = Waiting -> step mm (retry i l mm)
| step_receive now args i l mm :
    loops mm !! i = Some l -> at_ l = Streaming -> step mm (receive now args mm)
| step_tick mm : step mm (Tick mm).2
| step_merge c mm : step mm (Merge c mm)
| step_enable mm : step mm (Enable mm)
| step_disable mm : step mm (Disable mm).

(** The step that ends a connection. *)
Inductive ends : MultiMaster -> MultiMaster -> Prop :=
| ends_sync i l mm : loops mm !! i = Some l -> at_ l <> Waiting -> ends mm (sync_failed i l mm).

Definition any_step (mm mm' : MultiMaster) : Prop := step mm mm' \/ ends mm mm'.

(** One goroutine per peer, and every one has its entry in the table. *)
Definition one_each (mm : MultiMaster) : Prop :=
  NoDup (nodeID <$> loops mm) /\ (forall id, id ∈ (nodeID <$> loops mm) <-> is_Some (peers mm !! id)).

Lemma set_phase_ids i l at_ mm : loops mm !! i = Some l -> nodeID <$> set_phase i l at_ mm = nodeID <$> loops mm.
Proof.
  intros Hl. unfold set_phase. rewrite list_fmap_insert. cbn. apply list_insert_id. by rewrite list_lookup_fmap, Hl.
Qed.

Lemma step_one_each mm mm' : one_each mm -> step mm mm' -> one_each mm'.
Proof.
  intros [Hn Hp] Hs. destruct Hs as [id a mm|i l mm Hl _|now order snap i l mm Hl _|i l mm Hl _|now args i l mm Hl _|mm|c mm|mm|mm].
  - unfold ConnectToPeer. destruct (peers mm !! id) as [p|] eqn:E; [done|]. split; cbn [loops peers with_peers].
    + rewrite fmap_app. apply NoDup_app. split; [done|]. split; [|apply NoDup_singleton].
      intros x Hx ->%list_elem_of_singleton. cbn in Hx. apply Hp in Hx as [? Hx]. congruence.
    + intros x. rewrite fmap_app, elem_of_app, Hp. cbn. rewrite list_elem_of_singleton. destruct (decide (x = id)) as [->|Hne].
      * rewrite lookup_insert_eq. split; [done|]. by right.
      * rewrite lookup_insert_ne by done. split; [intros [|]; [done|congruence]|by left].
  - split; cbn; rewrite set_phase_ids by done; done.
  - assert (forall m, loops m = loops mm -> peers m = peers mm ->
      one_each (with_peers (<[nodeID l := mkPeer (nodeID l) (addr l) true]> (peers m)) (set_phase i l Streaming m) m)) as H.
    { intros m H1 H2. split; cbn; rewrite set_phase_ids, H1 by (by rewrite H1); [done|]. intros x. rewrite Hp, H2.
      destruct (decide (x = nodeID l)) as [->|Hne]; [rewrite lookup_insert_eq|by rewrite lookup_insert_ne].
      split; [done|]. intros _. apply Hp. apply list_elem_of_fmap. exists l. split; [done|]. by eapply list_elem_of_lookup_2. }
    unfold sync_begins. case_match; by apply H.
  - split; cbn; rewrite set_phase_ids by done; done.
  - done.
  - done.
  - unfold Merge. by case_match.
  - done.
  - split; [constructor|]. intros x. cbn. rewrite lookup_empty. split; [by intros []%elem_of_nil|by intros []].
Qed.
End Codecs.

(** A peer is followed once while its connection holds.  From a new node, whatever peers are connected to,
    dials fail, snapshots and commands arrive, the clock moves and the mode is switched on and off, there
    is never more than one goroutine for a peer, and the table lists exactly the peers that have one, so
    no write of a peer is applied twice. *)
Theorem one_goroutine_per_peer unmarshal_doc unmarshal id a st mm :
  rtc (step unmarshal_doc unmarshal) (NewMultiMaster id a st) mm -> one_each mm.
Proof.
  intros H. assert (one_each (NewMultiMaster id a st)) as H0.
  { split; [constructor|]. intros x. cbn. rewrite lookup_empty. split; [by intros []%elem_of_nil|by intros []]. }
  induction H as [mm|mm mm1 mm2 Hs H IH]; [done|]. by apply IH, (step_one_each unmarshal_doc unmarshal mm).
Qed.

(** ** What goes wrong *)

Definition no_doc (s : string) : option Json.json := None.
Definition no_json (s : string) : result Json.json := Err "no JSON"%string.
Definition empty_snapshot : Snapshots.Snapshot := (Snapshots.Dump (fun _ => "") 0 [] New).1.

Abbreviation step0 := (step no_doc no_json).
Abbreviation any0 := (any_step no_doc no_json).

(** A node that connects to b, loses the connection, is asked to connect to b
    again before it retries, and then connects twice. *)
Definition lost : MultiMaster :=
  let begins i mm := sync_begins no_doc 0 [] empty_snapshot i (mkLoop "b" "hb" Dialing) mm in
  let mm := ConnectToPeer "b" "hb" (NewMultiMaster "a" "ha" New) in
  let mm := sync_failed 0 (mkLoop "b" "hb" Streaming) (begins 0%nat mm) in
  let mm := ConnectToPeer "b" "hb" mm in
  let mm := retry 0 (mkLoop "b" "hb" Waiting) mm in
  begins 1%nat (begins 0%nat mm).

Lemma any_of_step mm mm' : step0 mm mm' -> any0 mm mm'.
Proof. by left. Qed.

Lemma one_goroutine_per_peer_witness :
  let mm := ConnectToPeer "c" "hc" (ConnectToPeer "b" "hb" (NewMultiMaster "a" "ha" New)) in
  one_each mm /\ nodeID <$> loops mm = ["b"; "c"]%string.
Proof.
  split; [|vm_compute; reflexivity]. apply (one_goroutine_per_peer no_doc no_json "a" "ha" New).
  eapply rtc_l; [apply step_connect|]. eapply rtc_l; [apply step_connect|]. apply rtc_refl.
Defined.

(** A lost connection can be followed twice.  When a connection ends, its entry is dropped while its
    goroutine waits to retry; a second ConnectToPeer in that time starts a second goroutine, both connect,
    the peer streams every write to both, and one INCR of the peer counts twice here. *)
Theorem peer_followed_twice :
  rtc any0 (NewMultiMaster "a" "ha" New) lost /\
  loops lost = [mkLoop "b" "hb" Streaming; mkLoop "b" "hb" Streaming] /\
  let apply := receive no_json 1 ["INCR"; "n"]%string in
  (Strings.Get 2 "n" (store (apply (apply lost)))).1 = ("2"%string, true).
Proof.
  split; [|split; vm_compute; reflexivity].
  eapply rtc_l; [apply any_of_step, (step_connect _ _ "b" "hb")|].
  eapply rtc_l; [apply any_of_step, (step_begins _ _ 0 [] empty_snapshot 0 (mkLoop "b" "hb" Dialing)); reflexivity|].
  eapply rtc_l; [right; apply (ends_sync 0 (mkLoop "b" "hb" Streaming)); [vm_compute; reflexivity|done]|].
  eapply rtc_l; [apply any_of_step, (step_connect _ _ "b" "hb")|].
  eapply rtc_l; [apply any_of_step, (step_retry _ _ 0 (mkLoop "b" "hb" Waiting)); [vm_compute; reflexivity|reflexivity]|].
  eapply rtc_l; [apply any_of_step, (step_begins _ _ 0 [] empty_snapshot 0 (mkLoop "b" "hb" Dialing)); vm_compute; reflexivity|].
  eapply rtc_l; [apply any_of_step, (step_begins _ _ 0 [] empty_snapshot 1 (mkLoop "b" "hb" Dialing)); vm_compute; reflexivity|].
  apply rtc_refl.
Qed.

(** ** The clock *)

(** Ticks and merges, as one run. *)
Definition clock_step (remote : option Z) (mm : MultiMaster) : MultiMaster :=
  match remote with None => (Tick mm).2 | Some c => Merge c mm end.

Lemma clock_step_mono remote mm :
  0 <= clock mm < int64_max -> match remote with Some c => c < int64_max | None => True end ->
  clock mm <= clock (clock_step remote mm) /\
  match remote with None => clock mm < clock (clock_step remote mm) | Some c => c <= clock (clock_step remote mm) end.
Proof.
  intros H Hr. destruct remote as [c|]; cbn [clock_step].
  - unfold Merge. destruct (c <=? clock mm) eqn:E; cbn; lia.
  - cbn. rewrite wrap64_id; [lia|]. unfold in_int64, int64_min. lia.
Qed.

(** Concurrent writes to one key leave two masters apart for good.  Each node applies its own SET first
    and then the one it receives, so each ends with the value of the other; the Lamport clocks, whatever they
    are, decide nothing, and an exchange of later writes to other keys changes nothing. *)
Theorem masters_diverge :
  let a := with_store (Strings.Set_ 1 "k" "from a" 0 New) (NewMultiMaster "a" "ha" New) in
  let b := with_store (Strings.Set_ 1 "k" "from b" 0 New) (NewMultiMaster "b" "hb" New) in
  forall ca cb,
  let a' := receive no_json 2 ["SET"; "k"; "from b"]%string (with_clock ca a) in
  let b' := receive no_json 2 ["SET"; "k"; "from a"]%string (with_clock cb b) in
  (Strings.Get 3 "k" (store a')).1 = ("from b"%string, true) /\
  (Strings.Get 3 "k" (store b')).1 = ("from a"%string, true) /\
  (Strings.Get 3 "k" (store (receive no_json 3 ["SET"; "other"; "x"]%string a'))).1 = ("from b"%string, true).
Proof. intros a b ca cb. cbn zeta. repeat split; vm_compute; reflexivity. Qed.
End MultiMaster.
