(* ===== verification/ServerCore.v ===== *)
(** * The command interpreter: its state, effects and replies
    (internal/server/server.go)

    A command handler of the server reads and writes the store, appends to
    the log, writes replies, and may return early with or without an error.
    Handlers are written in the monad [M] below.  Writes to the client cannot
    fail here: the error of a closed connection ends the connection and
    nothing else.  One clock reading [now] serves a whole command. *)
From S2P Require Import Prelude GoLib GoText Store StoreStrings StoreStreams StoreQueue Json StoreDocs Resp Cluster Schema Replay.

Module Core.
Import Text.

(** ** State *)

(** [aof] holds the records of the log file, [None] when the server runs
    without one. *)
Record Server := mkServer {
  store : Store.Store;
  cluster : Cluster.Cluster;
  aof : option (list Replay.command);
  schemas : Schema.SchemaManager;
  hits : Z;
  misses : Z
}.

Definition with_store (st : Store.Store) (s : Server) : Server :=
  mkServer st (cluster s) (aof s) (schemas s) (hits s) (misses s).
Definition with_aof (l : option (list Replay.command)) (s : Server) : Server :=
  mkServer (store s) (cluster s) l (schemas s) (hits s) (misses s).
Definition with_schemas (sm : Schema.SchemaManager) (s : Server) : Server :=
  mkServer (store s) (cluster s) (aof s) sm (hits s) (misses s).

(** What a command meets outside the server state: the clock, the result of
    writing to the log file (the error, and whether the record still reached
    the file, as when only the flush fails), the order in which a map is
    iterated and the random numbers drawn. *)
Record env := mkEnv {
  now : Z;
  fault : option (string * bool);
  iter : list string;
  rnd : nat -> Z
}.

(** ** Errors and replies *)

(** [ENum f text e] is the [NumError] of a strconv function; [EQuoted] is a
    message of [fmt.Errorf] with [%q] verbs, as alternating plain text and
    quoted arguments; [EDoc] is an error of a JSON document operation; [ERead]
    is an error of the reply reader, which a script meets. *)
Inductive error :=
| EMsg (msg : string)
| ENum (f : string) (text : string) (e : num_error)
| EQuoted (parts : list (string * string)) (last : string)
| EDoc (e : Docs.doc_error)
| ERead (e : Resp.read_error).

Inductive wire :=
| WSimple (s : string)
| WErr (prefix : string) (e : error)
| WInt (n : Z)
| WBulk (s : string)
| WNull
| WArray (n : Z)
| WNullArray.

#[export] Instance num_error_eq_dec : EqDecision num_error.
Proof. solve_decision. Defined.
#[export] Instance json_error_eq_dec : EqDecision Json.json_error.
Proof. solve_decision. Defined.
#[export] Instance doc_error_eq_dec : EqDecision Docs.doc_error.
Proof. solve_decision. Defined.
#[export] Instance read_error_eq_dec : EqDecision Resp.read_error.
Proof. solve_decision. Defined.
#[export] Instance error_eq_dec : EqDecision error.
Proof. solve_decision. Defined.
#[export] Instance wire_eq_dec : EqDecision wire.
Proof. solve_decision. Defined.

(** [quote] is [strconv.Quote], which the text of a [NumError] uses;
    [doc_text] and [read_text] are the texts of a document error and of an
    error of the reply reader. *)
Section Render.
Context (quote : string -> string) (doc_text : Docs.doc_error -> string)
  (read_text : Resp.read_error -> string).

Definition error_text (e : error) : string :=
  match e with
  | EMsg m => m
  | ENum f text e =>
      String.append "strconv." (String.append f (String.append ": parsing " (String.append (quote text)
        (String.append ": " (match e with ErrSyntax => "invalid syntax" | ErrRange => "value out of range" end)))))
  | EQuoted parts last =>
      foldr (fun p rest => String.append p.1 (String.append (quote p.2) rest)) last parts
  | EDoc e => doc_text e
  | ERead e => read_text e
  end.

Definition render (w : wire) : string :=
  match w with
  | WSimple s => Resp.Simple s
  | WErr p e => Resp.Error (String.append p (error_text e))
  | WInt n => Resp.Int n
  | WBulk s => Resp.Bulk s
  | WNull => Resp.Null
  | WArray n => Resp.ArrayLen n
  | WNullArray => Resp.NullArray
  end.
End Render.

(** ** The monad of handlers *)

(** [Stop] is a [return] before the end of the handler. *)
Inductive flow (A : Type) :=
| Next (a : A)
| Stop (e : option error).
Arguments Next {A} a.
Arguments Stop {A} e.

Definition M (A : Type) : Type := env -> Server -> outcome (flow A * Server * list wire).

Definition ret {A} (a : A) : M A := fun _ s => Ret (Next a, s, []).

Definition bind {A B} (m : M A) (f : A -> M B) : M B := fun v s =>
  match m v s with
  | Panic => Panic
  | Ret (Stop e, s, o) => Ret (Stop e, s, o)
  | Ret (Next a, s, o) =>
      match f a v s with
      | Panic => Panic
      | Ret (r, s, o') => Ret (r, s, o ++ o')
      end
  end.

Declare Scope server_scope.
Delimit Scope server_scope with server.
Notation "'let!' x ':=' m 'in' k" := (bind m (fun x => k))
  (at level 10, x name, m at level 100, k at level 200) : server_scope.
Notation "m ;;; k" := (bind m (fun _ => k)) (at level 65, right associativity) : server_scope.
Open Scope server_scope.

Definition reply (w : wire) : M unit := fun _ s => Ret (Next tt, s, [w]).
Definition replies (l : list wire) : M unit := fun _ s => Ret (Next tt, s, l).
Definition stop {A} : M A := fun _ s => Ret (Stop None, s, []).
Definition fail {A} (e : error) : M A := fun _ s => Ret (Stop (Some e), s, []).
Definition crash {A} : M A := fun _ _ => Panic.
Definition clock : M Z := fun v s => Ret (Next (now v), s, []).
Definition iteration : M (list string) := fun v s => Ret (Next (iter v), s, []).
Definition random : M (nat -> Z) := fun v s => Ret (Next (rnd v), s, []).

(** A store operation that writes, and one that only reads. *)
Definition run {A} (op : Z -> Store.Store -> A * Store.Store) : M A := fun v s =>
  let '(a, st) := op (now v) (store s) in Ret (Next a, with_store st s, []).
Definition query {A} (f : Z -> Store.Store -> A) : M A := fun v s => Ret (Next (f (now v) (store s)), s, []).

(** [aof.Append] *)
Definition append (args : Replay.command) : M (option error) := fun v s =>
  match aof s with
  | None => Ret (Next None, s, [])
  | Some l =>
      match fault v with
      | None => Ret (Next None, with_aof (Some (l ++ [args])) s, [])
      | Some (e, reached) =>
          Ret (Next (Some (EMsg e)), if reached then with_aof (Some (l ++ [args])) s else s, [])
      end
  end.

(** [if err := s.aof.Append(args); err != nil { return err }] *)
Definition persist (args : Replay.command) : M unit :=
  let! e := append args in match e with Some e => fail e | None => ret tt end.

(** [_ = s.aof.Append(args)] *)
Definition persist_quiet (args : Replay.command) : M unit := let! _ := append args in ret tt.

(** [v, err := f(); if err != nil { return err }] *)
Definition check {A} (m : M (result A)) : M A :=
  let! r := m in match r with Ok a => ret a | Err msg => fail (EMsg msg) end.

Definition check_doc {A} (m : M (Docs.doc_error + A)) : M A :=
  let! r := m in match r with inr a => ret a | inl e => fail (EDoc e) end.

Definition unpanic {A} (m : M (outcome A)) : M A :=
  let! r := m in match r with Ret a => ret a | Panic => crash end.

Definition parse_int (text : string) : M Z :=
  match ParseInt text with (n, None) => ret n | (_, Some e) => fail (ENum "ParseInt" text e) end.
Definition atoi (text : string) : M Z :=
  match Atoi text with (n, None) => ret n | (_, Some e) => fail (ENum "Atoi" text e) end.
Definition parse_float (text : string) : M float64 :=
  match ParseFloat text with (x, None) => ret x | (_, Some e) => fail (ENum "ParseFloat" text e) end.

(** ** Shared pieces of the handlers *)

Definition handler := Replay.command -> M unit.
Abbreviation arg := Replay.arg.
Abbreviation argc := Replay.argc.

Definition wrongArgs {A} (cmd : string) : M A :=
  fail (EMsg (String.append "wrong number of arguments for " cmd)).

(** [if bad { return wrongArgs(cmd) }] *)
Definition unless (bad : bool) (m : M unit) : M unit := if bad then m else ret tt.

Definition error_reply (text : string) : M unit := reply (WErr text (EMsg "")).

Definition moved (node : Cluster.Node) (key : string) : M unit :=
  error_reply (String.append "MOVED " (String.append (FormatInt (Cluster.Slot key))
                 (String.append " " (Cluster.Addr node)))).

Definition NodeCount (c : Cluster.Cluster) : Z := zlen (Cluster.nodes c).

(** Whether the keys hash to one slot, as a request for several keys must in a
    cluster of more than one node. *)
Definition cross_slot (keys : list string) (c : Cluster.Cluster) : bool :=
  (zlen keys >? 1) && (NodeCount c >? 1)
  && negb (forallb (fun key => Cluster.Slot key =? Cluster.Slot (hd "" keys)) (tail keys)).

(** [if ok, err := s.ensureOwns(w, keys...); !ok { return err }] *)
Definition ensureOwns (keys : list string) : M unit := fun v s =>
  if cross_slot keys (cluster s) then
    (error_reply "CROSSSLOT Keys in request don't hash to the same slot" ;;; stop) v s
  else
    match List.find (fun key => negb (Cluster.SelfOwns key (cluster s))) keys with
    | Some key => (moved (Cluster.Owner key (cluster s)) key ;;; stop) v s
    | None => ret tt v s
    end.

Definition writeBulkStrings (values : list string) : M unit :=
  replies (WArray (zlen values) :: (WBulk <$> values)).

Definition writeHashPairs (pairs : list (string * string)) : M unit :=
  replies (WArray (2 * zlen pairs) :: concat ((fun p => [WBulk p.1; WBulk p.2]) <$> pairs)).

Definition entry_wires (e : Store.StreamEntry) : list wire :=
  WArray 2 :: WBulk (Store.ID e) :: WArray (zlen (Store.Fields e)) :: (WBulk <$> Store.Fields e).

Definition writeEntries (entries : list Store.StreamEntry) : M unit :=
  replies (WArray (zlen entries) :: concat (entry_wires <$> entries)).

Definition formatScore (score : float64) : string := FormatFloat score.

Definition bulk_or_null (r : option string) : M unit :=
  match r with Some v => reply (WBulk v) | None => reply WNull end.

(** [(value, found)] of a store read *)
Definition found (r : string * bool) : M unit := bulk_or_null (if r.2 then Some r.1 else None).

Definition bool_int (b : bool) : M unit := reply (WInt (if b then 1 else 0)).

Definition violation_error (e : Schema.violation) : error :=
  match e with
  | Schema.Required f => EQuoted [("schema violation: field ", f)] " is required"
  | Schema.MustBe f typ v =>
      EQuoted [("schema violation: ", f); (String.append " must be " (String.append typ ", got "), v)] ""
  end.

(** [if err := s.schemas.Validate(key, fields); err != nil { return err }] *)
Definition validate (key : string) (pairs : list (string * string)) : M unit := fun v s =>
  let fields := fold_left (fun m p => <[p.1 := p.2]> m) pairs (∅ : gmap string string) in
  match Schema.Validate (iter v) key fields (schemas s) with
  | Some e => fail (violation_error e) v s
  | None => ret tt v s
  end.

(** [if typ := s.store.Type(key); typ != "none" && typ != want { return errors.New("wrong type") }] *)
Definition expect_type (key want : string) : M unit :=
  let! typ := query (fun now => Strings.Type_ now key) in
  if negb (typ =? "none")%string && negb (typ =? want)%string then fail (EMsg "wrong type") else ret tt.

(** The same for commands that answer [absent] when the key does not exist. *)
Definition require_type (key want : string) (absent : wire) : M unit :=
  let! typ := query (fun now => Strings.Type_ now key) in
  if (typ =? "none")%string then reply absent ;;; stop
  else if negb (typ =? want)%string then fail (EMsg "wrong type") else ret tt.

Definition isWriteCommand (cmd : string) : bool :=
  bool_decide (cmd ∈
    ["SET"; "SETNX"; "SETEX"; "PSETEX"; "MSET"; "MSETNX"; "APPEND";
     "INCR"; "INCRBY"; "INCRBYFLOAT"; "DECR"; "DECRBY";
     "DEL"; "RENAME"; "COPY"; "EXPIRE"; "EXPIREAT"; "PEXPIRE"; "PEXPIREAT"; "PERSIST";
     "HSET"; "HSETNX"; "HMSET"; "HINCRBY"; "HINCRBYFLOAT"; "HDEL";
     "LPUSH"; "RPUSH"; "LPUSHX"; "RPUSHX"; "LPOP"; "RPOP"; "LSET"; "LINSERT"; "LREM";
     "SADD"; "SREM"; "SMOVE"; "SPOP"; "SUNIONSTORE"; "SINTERSTORE"; "SDIFFSTORE";
     "ZADD"; "ZREM"; "ZINCRBY"; "ZPOPMIN"; "ZPOPMAX"; "ZUNIONSTORE"; "ZINTERSTORE";
     "XADD"; "XGROUP"; "XACK";
     "PFADD"; "PFMERGE";
     "SETBIT"; "SETRANGE";
     "GETSET"; "GETDEL";
     "RATELIMIT"; "RATELIMIT.RESET"; "SETDELAYED";
     "ENQUEUE"; "QACK"; "QNACK";
     "JSON.SET"; "JSON.DEL"; "JSON.NUMINCRBY"; "JSON.ARRAPPEND";
     "TAG"; "TAGDEL";
     "TS.ADD"; "TS.DOWNSAMPLE"]).


(** ** Reasoning about handlers *)

(** [K] holds of the way [m] ends and of the state it leaves, whenever [m]
    does not panic. *)
Definition runs {A} (m : M A) (v : env) (s : Server) (K : flow A -> Server -> Prop) : Prop :=
  match m v s with Panic => True | Ret (f, s', _) => K f s' end.

Section Rules.
Context {A B : Type} (v : env) (s : Server).

Lemma runs_bind (m : M A) (k : A -> M B) K :
  runs m v s (fun f s' => match f with Next a => runs (k a) v s' K | Stop e => K (Stop e) s' end) ->
  runs (bind m k) v s K.
Proof.
  unfold runs, bind. destruct (m v s) as [[[[a|e] s'] o]|]; [|done|done].
  intros H. by destruct (k a v s') as [[[f s''] o']|].
Qed.

Lemma runs_ret (a : A) K : K (Next a) s -> runs (ret a) v s K.
Proof. done. Qed.
Lemma runs_stop K : K (Stop None) s -> runs (@stop A) v s K.
Proof. done. Qed.
Lemma runs_fail e K : K (Stop (Some e)) s -> runs (@fail A e) v s K.
Proof. done. Qed.
Lemma runs_crash K : runs (@crash A) v s K.
Proof. done. Qed.
Lemma runs_reply w K : K (Next tt) s -> runs (reply w) v s K.
Proof. done. Qed.
Lemma runs_replies l K : K (Next tt) s -> runs (replies l) v s K.
Proof. done. Qed.
Lemma runs_clock K : K (Next (now v)) s -> runs clock v s K.
Proof. done. Qed.
Lemma runs_iteration K : K (Next (iter v)) s -> runs iteration v s K.
Proof. done. Qed.
Lemma runs_random K : K (Next (rnd v)) s -> runs random v s K.
Proof. done. Qed.
Lemma runs_query (f : Z -> Store.Store -> A) K : K (Next (f (now v) (store s))) s -> runs (query f) v s K.
Proof. done. Qed.
Lemma runs_run (op : Z -> Store.Store -> A * Store.Store) K :
  K (Next (op (now v) (store s)).1) (with_store (op (now v) (store s)).2 s) -> runs (run op) v s K.
Proof. unfold runs, run. by destruct (op (now v) (store s)). Qed.
Lemma runs_unless (bad : bool) m K :
  (bad = true -> runs m v s K) -> (bad = false -> K (Next tt) s) -> runs (unless bad m) v s K.
Proof. destruct bad; cbn; auto. Qed.
Lemma runs_wrongArgs cmd K : (forall e, K (Stop (Some e)) s) -> runs (@wrongArgs A cmd) v s K.
Proof. intros H. apply H. Qed.
Lemma runs_parse_int text K :
  (forall n, ParseInt text = (n, None) -> K (Next n) s) -> (forall e, K (Stop (Some e)) s) ->
  runs (parse_int text) v s K.
Proof. unfold parse_int, runs. destruct (ParseInt text) as [n [e|]]; cbn; auto. Qed.
Lemma runs_atoi text K :
  (forall n, Atoi text = (n, None) -> K (Next n) s) -> (forall e, K (Stop (Some e)) s) -> runs (atoi text) v s K.
Proof. unfold atoi, runs. destruct (Atoi text) as [n [e|]]; cbn; auto. Qed.
Lemma runs_parse_float text K :
  (forall x, ParseFloat text = (x, None) -> K (Next x) s) -> (forall e, K (Stop (Some e)) s) ->
  runs (parse_float text) v s K.
Proof. unfold parse_float, runs. destruct (ParseFloat text) as [n [e|]]; cbn; auto. Qed.
Lemma runs_owns keys K : K (Next tt) s -> K (Stop None) s -> runs (ensureOwns keys) v s K.
Proof. intros H1 H2. unfold runs, ensureOwns.
  destruct (cross_slot keys (cluster s)); [exact H2|]. by destruct (List.find _ keys). Qed.
Lemma runs_persist args log K :
  aof s = Some log -> fault v = None -> K (Next tt) (with_aof (Some (log ++ [args])) s) -> runs (persist args) v s K.
Proof. intros Ha Hf H. unfold runs, persist, bind, append. by rewrite Ha, Hf. Qed.
Lemma runs_persist_quiet args log K :
  aof s = Some log -> fault v = None -> K (Next tt) (with_aof (Some (log ++ [args])) s) ->
  runs (persist_quiet args) v s K.
Proof. intros Ha Hf H. unfold runs, persist_quiet, bind, append. by rewrite Ha, Hf. Qed.
Lemma runs_mono (m : M A) (K K' : flow A -> Server -> Prop) :
  runs m v s K -> (forall f s', K f s' -> K' f s') -> runs m v s K'.
Proof. unfold runs. destruct (m v s) as [[[f s'] o]|]; auto. Qed.
End Rules.

Lemma runs_check {A} v s (m : M (result A)) K :
  runs m v s (fun f s' => match f with
                          | Next (Ok a) => K (Next a) s'
                          | Next (Err e) => K (Stop (Some (EMsg e))) s'
                          | Stop e => K (Stop e) s'
                          end) ->
  runs (check m) v s K.
Proof. unfold check. intros H. apply runs_bind. eapply runs_mono; [exact H|]. by intros [[]|]. Qed.

Lemma runs_check_doc {A} v s (m : M (Docs.doc_error + A)) K :
  runs m v s (fun f s' => match f with
                          | Next (inr a) => K (Next a) s'
                          | Next (inl e) => K (Stop (Some (EDoc e))) s'
                          | Stop e => K (Stop e) s'
                          end) ->
  runs (check_doc m) v s K.
Proof. unfold check_doc. intros H. apply runs_bind. eapply runs_mono; [exact H|]. by intros [[]|]. Qed.

Lemma runs_unpanic {A} v s (m : M (outcome A)) K :
  runs m v s (fun f s' => match f with
                          | Next (Ret a) => K (Next a) s'
                          | Next Panic => True
                          | Stop e => K (Stop e) s'
                          end) ->
  runs (unpanic m) v s K.
Proof. unfold unpanic. intros H. apply runs_bind. eapply runs_mono; [exact H|]. by intros [[]|]. Qed.

End Core.
