(* ===== verification/Subscriber.v ===== *)
(** * A subscribed connection (internal/server/server.go: subscribe,
    psubscribe)

    SUBSCRIBE leaves the command loop.  One goroutine per channel takes the
    messages of its Go channel and puts them into a merged channel of 128
    places; the connection writes what it finds there.  The goroutines, the
    writer and the rest of the server interleave: [moves].  What the client
    sends meanwhile is read and dropped; the subscription ends when the
    connection does.  The loop that subscribes is one step of the model; what
    is published between two of its turns is counted as earlier. *)
From S2P Require Import Prelude GoLib GoText Glob PubSub ServerCore.

Module Subscriber.
Import PubSub.

(** A goroutine holds a message between taking it and putting it down. *)
Record sub (A : Type) := mkSub { name : string; ch : Z; held : option A }.
Arguments mkSub {A}. Arguments name {A}. Arguments ch {A}. Arguments held {A}.

Record session (A : Type) := mkSession { subscribed : list (sub A); merged : list (string * A); written : list (string * A) }.
Arguments mkSession {A}. Arguments subscribed {A}. Arguments merged {A}. Arguments written {A}.

Section Session.
Context {A : Type}.
Implicit Types (s : session A).

(** [case m, ok := <-ch] *)
Definition take_message (i : nat) (h : gmap Z (chan A)) s : option (Z * A * gmap Z (chan A) * session A) :=
  match subscribed s !! i with
  | Some (mkSub nm c None) =>
      match receive c h with
      | (Some m, h) => Some (c, m, h, mkSession (<[i := mkSub nm c (Some m)]> (subscribed s)) (merged s) (written s))
      | (None, _) => None
      end
  | _ => None
  end.

(** [case merged <- subMsg{channel: name, data: m}] *)
Definition put_message (i : nat) s : option (session A) :=
  match subscribed s !! i with
  | Some (mkSub nm c (Some m)) =>
      if zlen (merged s) <? capacity
      then Some (mkSession (<[i := mkSub nm c None]> (subscribed s)) (merged s ++ [(nm, m)]) (written s))
      else None
  | _ => None
  end.

(** [case m := <-merged], and the reply *)
Definition write_message s : option (session A) :=
  match merged s with
  | [] => None
  | x :: l => Some (mkSession (subscribed s) l (written s ++ [x]))
  end.

(** The subscriptions in order; [f] is [Subscribe] or [PSubscribe]. *)
Fixpoint subscribe_all (f : string -> PubSub -> Z * PubSub) (names : list string) (p : PubSub) : list (sub A) * PubSub :=
  match names with
  | [] => ([], p)
  | nm :: names =>
      let '(c, p) := f nm p in
      let '(l, p) := subscribe_all f names p in (mkSub nm c None :: l, p)
  end.

(** The deferred function. *)
Fixpoint unsubscribe_all (f : string -> Z -> PubSub -> outcome PubSub) (l : list (sub A)) (p : PubSub) : outcome PubSub :=
  match l with
  | [] => Ret p
  | x :: l => match f (name x) (ch x) p with Panic => Panic | Ret p => unsubscribe_all f l p end
  end.
End Session.

Definition confirmations (word : string) (names : list string) : list Core.wire :=
  concat (imap (fun i nm => [Core.WArray 3; Core.WBulk word; Core.WBulk nm; Core.WInt (Z.of_nat i + 1)]) names).

Definition refusal (cmd : string) : list Core.wire :=
  [Core.WErr (String.append "ERR wrong number of arguments for " cmd) (Core.EMsg "")].

Definition subscribe (channels : list string) (p : PubSub) : option (session string) * list Core.wire * PubSub :=
  match channels with
  | [] => (None, refusal "SUBSCRIBE", p)
  | _ => let '(l, p) := subscribe_all Subscribe channels p in
         (Some (mkSession l [] []), confirmations "subscribe" channels, p)
  end.

Definition psubscribe (patterns : list string) (p : PubSub) : option (session PSubMessage) * list Core.wire * PubSub :=
  match patterns with
  | [] => (None, refusal "PSUBSCRIBE", p)
  | _ => let '(l, p) := subscribe_all PSubscribe patterns p in
         (Some (mkSession l [] []), confirmations "psubscribe" patterns, p)
  end.

Definition message_wires (x : string * string) : list Core.wire :=
  [Core.WArray 3; Core.WBulk "message"; Core.WBulk x.1; Core.WBulk x.2].

Definition pmessage_wires (x : string * PSubMessage) : list Core.wire :=
  [Core.WArray 4; Core.WBulk "pmessage"; Core.WBulk (Pattern x.2); Core.WBulk (Channel x.2); Core.WBulk (Data x.2)].

Definition hang_up (s : session string) (p : PubSub) : outcome PubSub := unsubscribe_all Unsubscribe (subscribed s) p.
Definition phang_up (s : session PSubMessage) (p : PubSub) : outcome PubSub := unsubscribe_all PUnsubscribe (subscribed s) p.

(** UNSUBSCRIBE and PUNSUBSCRIBE outside a subscription *)
Definition unsubscribe_reply (word : string) (args : list string) : list Core.wire :=
  [Core.WArray 3; Core.WBulk word; Core.WBulk (nth 1 args ""%string); Core.WInt 0].

(** ** Interleavings *)

Definition with_chans (h : gmap Z (chan string)) (p : PubSub) : PubSub := mkPubSub (subs p) (psubs p) h (pchans p) (next_chan p).

(** A step of the rest of the server: it takes no message of this connection
    and does not unsubscribe it. *)
Definition foreign (l : label) (s : session string) : Prop :=
  match l with LRecv c _ | LUnsub _ c => c ∉ ch <$> subscribed s | _ => True end.

Inductive move : PubSub * session string -> list label -> PubSub * session string -> Prop :=
| move_outside p l p' s : step p l p' -> foreign l s -> move (p, s) [l] (p', s)
| move_take i p c m h s s' : take_message i (chans p) s = Some (c, m, h, s') -> move (p, s) [LRecv c m] (with_chans h p, s')
| move_put i p s s' : put_message i s = Some s' -> move (p, s) [] (p, s')
| move_write p s s' : write_message s = Some s' -> move (p, s) [] (p, s').

Inductive moves : PubSub * session string -> list label -> PubSub * session string -> Prop :=
| moves_nil x : moves x [] x
| moves_cons x l y tr z : move x l y -> moves y tr z -> moves x (l ++ tr) z.

(** ** What reaches the client *)

(** The messages of one subscription that are past its Go channel. *)
Definition past (nm : string) (s : session string) : list string := (filter (fun y => y.1 = nm) (written s ++ merged s)).*2.
Definition through (x : sub string) (s : session string) : list string := past (name x) s ++ from_option (fun m => [m]) [] (held x).

Lemma take_steps p l p' : step p l p' -> steps p [l] p'.
Proof. intros H. eapply steps_cons; [exact H|constructor]. Qed.

Lemma move_steps x l y : move x l y -> steps x.1 l y.1.
Proof.
  intros [p l0 p' s H _|i p c m h s s' H|i p s s' H|p s s' H]; cbn [fst]; [by apply take_steps| |constructor|constructor].
  apply take_steps, step_recv. unfold take_message in H. destruct (subscribed s !! i) as [[nm c' [|]]|]; try done.
  unfold receive_direct. destruct (receive c' (chans p)) as [[m'|] h'] eqn:E; [|done]. injection H as <- <- <- _. by rewrite E.
Qed.

Lemma moves_steps x tr y : moves x tr y -> steps x.1 tr y.1.
Proof.
  induction 1 as [|x l y tr z H _ IH]; [constructor|]. eapply steps_app; [by apply move_steps|done].
Qed.

Lemma insert_fmap {B} (f : sub string -> B) (i : nat) x x' (l : list (sub string)) : l !! i = Some x -> f x' = f x -> f <$> <[i := x']> l = f <$> l.
Proof. intros H Hf. rewrite list_fmap_insert, Hf. apply list_insert_id. by rewrite list_lookup_fmap, H. Qed.

Lemma move_subs x l y :
  move x l y -> name <$> subscribed y.2 = name <$> subscribed x.2 /\ ch <$> subscribed y.2 = ch <$> subscribed x.2.
Proof.
  intros [p l0 p' s _ _|i p c m h s s' H|i p s s' H|p s s' H]; cbn [snd]; [done|..].
  - unfold take_message in H. destruct (subscribed s !! i) as [[nm c' [|]]|] eqn:E; try done.
    destruct (receive c' (chans p)) as [[m'|] h']; [|done]. injection H as _ _ _ <-. cbn [subscribed]. split; by eapply insert_fmap.
  - unfold put_message in H. destruct (subscribed s !! i) as [[nm c' [m|]]|] eqn:E; try done.
    destruct (_ <? _); [|done]. injection H as <-. cbn [subscribed]. split; by eapply insert_fmap.
  - unfold write_message in H. destruct (merged s); [done|]. by injection H as <-.
Qed.

Lemma moves_subs x tr y :
  moves x tr y -> name <$> subscribed y.2 = name <$> subscribed x.2 /\ ch <$> subscribed y.2 = ch <$> subscribed x.2.
Proof.
  induction 1 as [|x l y tr z H _ [IH1 IH2]]; [done|]. destruct (move_subs _ _ _ H) as [H1 H2]. by rewrite IH1, IH2.
Qed.

Lemma received_one c m c' : received c' [LRecv c m] = if c =? c' then [m] else [].
Proof. unfold received. cbn. by destruct (c =? c'). Qed.

(** A message moves along without overtaking. *)
Lemma move_through x l y i a :
  move x l y -> NoDup (name <$> subscribed x.2) -> NoDup (ch <$> subscribed x.2) -> subscribed x.2 !! i = Some a ->
  exists b, subscribed y.2 !! i = Some b /\ name b = name a /\ ch b = ch a /\
    through b y.2 = through a x.2 ++ received (ch a) l.
Proof.
  intros Hm Hnd Hcd Ha. destruct Hm as [p l0 p' s Hs Hf|j p c m h s s' H|j p s s' H|p s s' H]; cbn [snd] in *.
  - exists a. repeat split; try done. assert (received (ch a) [l0] = []) as ->; [|by rewrite app_nil_r].
    destruct l0; try done. rewrite received_one. destruct (Z.eqb_spec ch0 (ch a)) as [->|]; [|done].
    destruct Hf. apply list_elem_of_fmap. exists a. split; [done|]. by eapply list_elem_of_lookup_2.
  - unfold take_message in H. destruct (subscribed s !! j) as [[nm c' [|]]|] eqn:E; try done.
    destruct (receive c' (chans p)) as [[m'|] h']; [|done]. injection H as <- <- _ <-. cbn [subscribed].
    destruct (decide (j = i)) as [->|Hne].
    + rewrite E in Ha. injection Ha as <-. exists (mkSub nm c' (Some m')). rewrite list_lookup_insert_eq by (by eapply lookup_lt_Some).
      repeat split. unfold through. cbn [held name ch]. rewrite received_one, Z.eqb_refl, app_nil_r. done.
    + exists a. rewrite list_lookup_insert_ne by done. repeat split; try done. rewrite received_one.
      destruct (Z.eqb_spec c' (ch a)) as [->|]; [|by rewrite app_nil_r]. destruct Hne.
      eapply (NoDup_lookup (ch <$> subscribed s)); [done|by rewrite list_lookup_fmap, E|by rewrite list_lookup_fmap, Ha].
  - unfold put_message in H. destruct (subscribed s !! j) as [[nm c' [m|]]|] eqn:E; try done.
    destruct (_ <? _); [|done]. injection H as <-. cbn [subscribed]. rewrite app_nil_r. destruct (decide (j = i)) as [->|Hne].
    + rewrite E in Ha. injection Ha as <-. exists (mkSub nm c' None). rewrite list_lookup_insert_eq by (by eapply lookup_lt_Some).
      repeat split. unfold through, past. cbn [held name written merged]. rewrite app_assoc, filter_app, fmap_app, app_nil_r.
      cbn [from_option]. f_equal. by rewrite filter_cons, decide_True.
    + exists a. rewrite list_lookup_insert_ne by done. repeat split; try done. unfold through, past. cbn [written merged].
      rewrite app_assoc, (filter_app _ (_ ++ _)), fmap_app. rewrite (filter_cons _ (nm, m)), decide_False; [by rewrite app_nil_r|].
      cbn. intros ->. destruct Hne.
      eapply (NoDup_lookup (name <$> subscribed s)); [done|by rewrite list_lookup_fmap, E|by rewrite list_lookup_fmap, Ha].
  - unfold write_message in H. destruct (merged s) as [|y l] eqn:E; [done|]. injection H as <-. exists a. repeat split; try done.
    unfold through, past. cbn [written merged held]. by rewrite E, <-app_assoc, app_nil_r.
Qed.

Lemma moves_through x tr y i a :
  moves x tr y -> NoDup (name <$> subscribed x.2) -> NoDup (ch <$> subscribed x.2) -> subscribed x.2 !! i = Some a ->
  exists b, subscribed y.2 !! i = Some b /\ name b = name a /\ ch b = ch a /\
    through b y.2 = through a x.2 ++ received (ch a) tr.
Proof.
  intros Hm. revert a. induction Hm as [x|x l y tr z H _ IH]; intros a Hn Hc Ha.
  - exists a. by rewrite app_nil_r.
  - destruct (move_through _ _ _ _ _ H Hn Hc Ha) as (b & Hb & Hbn & Hbc & Ht).
    destruct (move_subs _ _ _ H) as [En Ec]. destruct (IH b) as (d & Hd & Hdn & Hdc & Ht'); [by rewrite En|by rewrite Ec|done|].
    exists d. rewrite Hdn, Hdc, Hbn, Hbc, Ht', Ht, Hbc. repeat split; try done. by rewrite received_app, app_assoc.
Qed.

Lemma moves_keep x tr y nm c : moves x tr y -> c ∈ ch <$> subscribed x.2 -> LUnsub nm c ∉ tr.
Proof.
  intros Hm Hc. induction Hm as [x|x l y tr z H _ IH]; [apply not_elem_of_nil|].
  destruct (move_subs _ _ _ H) as [_ Ec]. rewrite elem_of_app. intros [Hl|Hl]; [|by apply IH; [rewrite Ec|]].
  destruct H as [p l0 p' s _ Hf|i p c0 m h s s' _|i p s s' _|p s s' _]; cbn [snd] in *;
    try (by apply not_elem_of_nil in Hl); apply list_elem_of_singleton in Hl; subst; done.
Qed.

(** Subscribing makes steps of its own, and each subscription starts empty. *)
Lemma subscribe_all_spec names : forall p (l : list (sub string)) p', wf p -> subscribe_all Subscribe names p = (l, p') ->
  exists tr, steps p tr p' /\ (forall nm, published nm tr = []) /\ (forall c, received c tr = []) /\ (forall nm c, LUnsub nm c ∉ tr) /\
    name <$> l = names /\ NoDup (ch <$> l) /\
    forall x, x ∈ l -> held x = None /\ next_chan p <= ch x /\ ch x ∈ members (subs p') (name x) /\
      exists c, chans p' !! ch x = Some c /\ buffer c = [].
Proof.
  induction names as [|nm names IH]; intros p l p' Hw H; cbn [subscribe_all] in H.
  - injection H as <- <-. exists []. split; [constructor|]. split; [done|]. split; [done|].
    split; [intros; apply not_elem_of_nil|]. split; [done|]. split; [constructor|]. intros x Hx. by apply not_elem_of_nil in Hx.
  - destruct (Subscribe nm p) as [c p1] eqn:E1. destruct (subscribe_all Subscribe names p1) as [l1 p2] eqn:E2. injection H as <- <-.
    assert (step p (LSub nm c) p1) as Hs by by constructor. pose proof (pubsub_step_wf _ _ _ Hw Hs) as Hw1.
    destruct (IH _ _ _ Hw1 E2) as (tr & Htr & Hp & Hr & Hu & Hn & Hd & Hx). injection E1 as Ec Ep.
    assert (next_chan p1 = c + 1 /\ c = next_chan p) as [Hnext ->] by (subst; done).
    exists (LSub nm (next_chan p) :: tr). split; [by econstructor|]. split; [intros nm'; apply Hp|]. split; [intros c'; apply Hr|].
    split; [intros nm' c'; rewrite elem_of_cons; intros [?|?]; [done|by eapply Hu]|].
    split; [cbn; by rewrite Hn|]. split.
    + cbn. constructor; [|done]. intros Hin. apply list_elem_of_fmap in Hin as (x & E & Hin). destruct (Hx x Hin) as (_ & Hle & _). lia.
    + intros x Hin. apply elem_of_cons in Hin as [->|Hin].
      * cbn [held ch name]. split; [done|]. split; [lia|].
        assert (next_chan p ∈ members (subs p1) nm) as Hm by (subst p1; cbn [subs]; rewrite members_add; case_decide; set_solver).
        assert (chans p1 !! next_chan p = Some (mkChan [] false)) as Hc by (subst p1; cbn [chans]; apply lookup_insert_eq).
        split; [by eapply steps_member|].
        destruct (steps_buffer _ _ _ _ _ _ Hw1 Htr Hm (Hu _ _) Hc) as (c' & Hc' & Hsub & _). exists c'. split; [done|].
        rewrite Hr, Hp in Hsub. cbn in Hsub. by apply sublist_nil_r in Hsub.
      * destruct (Hx x Hin) as (H1 & H2 & H3 & H4). split; [done|]. split; [lia|]. done.
Qed.

(** ** Hanging up *)

(** Unsubscribing channels that are subscribed: no panic, and they are gone. *)
Lemma unsubscribe_all_spec (l : list (sub string)) : forall p,
  wf p -> NoDup (ch <$> l) -> (forall x, x ∈ l -> ch x ∈ members (subs p) (name x)) ->
  exists p', unsubscribe_all Unsubscribe l p = Ret p' /\ wf p' /\ psubs p' = psubs p /\
    forall nm c, c ∈ members (subs p') nm <-> c ∈ members (subs p) nm /\ c ∉ ch <$> l.
Proof.
  induction l as [|x l IH]; intros p Hw Hnd Hin; cbn [unsubscribe_all].
  - exists p. split; [done|]. split; [done|]. split; [done|]. intros nm c. cbn. set_solver.
  - cbn [fmap list_fmap] in Hnd. apply NoDup_cons in Hnd as [Hx Hnd].
    assert (ch x ∈ members (subs p) (name x)) as Hmx by (apply Hin; left).
    destruct (side_wf_unsubscribe _ _ _ _ _ (wf_direct _ Hw) Hmx) as (h & Hc & Hw').
    set (p1 := mkPubSub (remove_from (name x) (ch x) (subs p)) (psubs p) h (pchans p) (next_chan p)).
    assert (Unsubscribe (name x) (ch x) p = Ret p1) as -> by (unfold Unsubscribe; by rewrite Hc).
    assert (wf p1) as Hw1 by (split; [done|apply Hw]).
    assert (forall nm c, c ∈ members (subs p1) nm <-> c ∈ members (subs p) nm /\ c <> ch x) as Hm1.
    { intros nm c. unfold p1. cbn [subs]. rewrite members_remove. case_decide as E; [subst; set_solver|]. split; [|tauto].
      intros H. split; [done|]. intros ->. by apply E, (side_once _ _ _ (wf_direct _ Hw) nm (name x) (ch x)). }
    destruct (IH p1 Hw1 Hnd) as (p' & -> & Hw2 & Hps & Hm).
    { intros y Hy. apply Hm1. split; [apply Hin; by right|]. intros E. apply Hx. rewrite <-E. by apply list_elem_of_fmap_2. }
    exists p'. split; [done|]. split; [done|]. split; [done|]. intros nm c. rewrite Hm, Hm1. cbn. rewrite not_elem_of_cons. tauto.
Qed.

(** C27: a connection leaves nothing behind.  From any state the server can reach, a client subscribes to channels,
    the same one twice if it likes, and hangs up at any later moment, whatever the goroutines and the other
    clients did meanwhile (nobody else unsubscribing its channels): hanging up does not panic, so no channel
    is closed twice; none of the channels the client was given has a subscription left; and the subscribers
    of every channel and of every pattern are otherwise as they were. *)
Theorem hang_up_clean tr0 p channels s w p1 tr p2 s2 :
  steps NewPubSub tr0 p -> subscribe channels p = (Some s, w, p1) -> moves (p1, s) tr (p2, s2) ->
  exists p3, hang_up s2 p2 = Ret p3 /\ wf p3 /\ psubs p3 = psubs p2 /\
    forall nm c, c ∈ members (subs p3) nm <-> c ∈ members (subs p2) nm /\ c ∉ ch <$> subscribed s2.
Proof.
  intros H0 Hsub Hm. pose proof (steps_wf _ _ _ new_pubsub_wf H0) as Hw.
  unfold subscribe in Hsub. destruct channels as [|nm0 names0] eqn:Ech; [done|]. rewrite <-Ech in *. clear Ech nm0 names0.
  destruct (subscribe_all Subscribe channels p) as [l p'] eqn:E. injection Hsub as <- _ <-.
  destruct (subscribe_all_spec _ _ _ _ Hw E) as (tr1 & Htr1 & _ & _ & _ & Hn & Hd & Hx).
  pose proof (steps_wf _ _ _ Hw Htr1) as Hw'. pose proof (moves_steps _ _ _ Hm) as Hsteps. cbn [fst] in Hsteps.
  pose proof (moves_subs _ _ _ Hm) as [Hns Hcs]. cbn [snd subscribed] in *.
  unfold hang_up. apply unsubscribe_all_spec; [by eapply steps_wf|by rewrite Hcs|].
  intros x [i Hi]%list_elem_of_lookup.
  assert (exists y, l !! i = Some y /\ name y = name x /\ ch y = ch x) as (y & Hy & Hyn & Hyc).
  { assert ((ch <$> l) !! i = Some (ch x)) as H1 by (rewrite <-Hcs, list_lookup_fmap, Hi; done).
    assert ((name <$> l) !! i = Some (name x)) as H2 by (rewrite <-Hns, list_lookup_fmap, Hi; done).
    rewrite list_lookup_fmap in H1. rewrite list_lookup_fmap in H2. destruct (l !! i) as [y|]; [|done]. exists y. naive_solver. }
  destruct (Hx y) as (_ & _ & Hmem & c & Hc & _); [by eapply list_elem_of_lookup_2|]. rewrite <-Hyn, <-Hyc.
  eapply steps_member; [exact Hw'|exact Hsteps|exact Hmem| |exact Hc].
  eapply moves_keep; [exact Hm|]. apply list_elem_of_fmap. exists y. split; [done|by eapply list_elem_of_lookup_2].
Qed.

(** C26: a subscriber reads what is published, channel by channel, in order.  A client subscribes to distinct
    channels; whatever the rest of the server does and however the goroutines interleave, for each channel
    the messages written to the client, followed by those on their way to it, are messages published on
    that channel since, in the order of publication, none twice and none from elsewhere; and all of them as
    long as no more than 128 have been published. *)
Theorem subscriber_reads tr0 p channels s w p1 tr p2 s2 i a :
  steps NewPubSub tr0 p -> NoDup channels -> subscribe channels p = (Some s, w, p1) -> moves (p1, s) tr (p2, s2) ->
  subscribed s2 !! i = Some a ->
  exists c, chans p2 !! ch a = Some c /\ channels !! i = Some (name a) /\
    through a s2 ++ buffer c `sublist_of` published (name a) tr /\
    (zlen (published (name a) tr) <= capacity -> through a s2 ++ buffer c = published (name a) tr).
Proof.
  intros H0 Hnd Hsub Hm Ha. pose proof (steps_wf _ _ _ new_pubsub_wf H0) as Hw.
  unfold subscribe in Hsub. destruct channels as [|nm0 names0] eqn:Ech; [done|]. rewrite <-Ech in *. clear Ech nm0 names0.
  destruct (subscribe_all Subscribe channels p) as [l p'] eqn:E. injection Hsub as <- _ <-.
  destruct (subscribe_all_spec _ _ _ _ Hw E) as (tr1 & Htr1 & _ & _ & _ & Hn & Hd & Hx).
  pose proof (moves_subs _ _ _ Hm) as [Hns Hcs]. cbn [snd subscribed] in *.
  assert (exists b, l !! i = Some b /\ name b = name a /\ ch b = ch a) as (b & Hb & Hbn & Hbc).
  { assert ((ch <$> l) !! i = Some (ch a)) as Hi by (rewrite <-Hcs, list_lookup_fmap, Ha; done).
    assert ((name <$> l) !! i = Some (name a)) as Hj by (rewrite <-Hns, list_lookup_fmap, Ha; done).
    rewrite list_lookup_fmap in Hi. rewrite list_lookup_fmap in Hj. destruct (l !! i) as [b|]; [|done]. exists b. naive_solver. }
  destruct (moves_through (p', mkSession l [] []) tr (p2, s2) i b Hm) as (a' & Ha' & _ & _ & Ht); cbn [snd subscribed] in *;
    [by rewrite Hn|done|done|]. rewrite Ha in Ha'. injection Ha' as <-.
  destruct (Hx b) as (Hh & _ & Hmem & c0 & Hc0 & Hb0); [by eapply list_elem_of_lookup_2|].
  destruct (steps_buffer p' tr p2 (name b) (ch b) c0) as (c & Hc & Hsl & Heq); [by apply (steps_wf _ _ _ Hw Htr1)|..|done|].
  { exact (moves_steps _ _ _ Hm). }
  { done. }
  { eapply moves_keep; [exact Hm|]. apply list_elem_of_fmap. exists b. split; [done|]. by eapply list_elem_of_lookup_2. }
  exists c. rewrite <-Hbc, <-Hbn. split; [done|]. split; [by rewrite <-Hn, list_lookup_fmap, Hb|].
  assert (through a s2 = received (ch b) tr) as -> by (rewrite Ht; unfold through, past; cbn; by rewrite Hh).
  rewrite Hb0 in *. cbn [app] in *. split; [done|]. intros Hcap. apply Heq. rewrite zlen_nil. lia.
Qed.

Lemma subscriber_reads_witness :
  exists s w p1 p2 s2, subscribe ["news"]%string NewPubSub = (Some s, w, p1) /\
    moves (p1, s) ([LPub "news" "hello" 1] ++ [LRecv 0 "hello"] ++ [LPub "news" "again" 1] ++ [] ++ [] ++ []) (p2, s2) /\
    written s2 = [("news", "hello")]%string /\
    exists a c, subscribed s2 !! 0%nat = Some a /\ chans p2 !! ch a = Some c /\
      through a s2 ++ buffer c = ["hello"; "again"]%string.
Proof.
  set (tr := [LPub "news" "hello" 1] ++ [LRecv 0 "hello"] ++ [LPub "news" "again" 1] ++ [] ++ [] ++ []).
  destruct (subscribe ["news"]%string NewPubSub) as [[o w] p1] eqn:E. destruct o as [s|]; [|by vm_compute in E].
  assert (exists p2 s2 a, moves (p1, s) tr (p2, s2) /\ subscribed s2 !! 0%nat = Some a /\
    written s2 = [("news", "hello")]%string /\ published (name a) tr = ["hello"; "again"]%string) as (p2 & s2 & a & Hm & Ha & Hw & Hp).
  { injection E as <- _ <-. do 3 eexists. split; [|].
    - eapply moves_cons; [apply move_outside; [apply (step_pub "news" "hello" [0] []); vm_compute; reflexivity|exact I]|].
      eapply moves_cons; [apply (move_take 0%nat); vm_compute; reflexivity|].
      eapply moves_cons; [apply move_outside; [apply (step_pub "news" "again" [0] []); vm_compute; reflexivity|exact I]|].
      eapply moves_cons; [apply (move_put 0%nat); vm_compute; reflexivity|].
      eapply moves_cons; [apply move_write; vm_compute; reflexivity|]. apply moves_nil.
    - vm_compute. repeat split. }
  exists s, w, p1, p2, s2. split; [done|]. split; [exact Hm|]. split; [done|].
  destruct (subscriber_reads [] NewPubSub ["news"]%string s w p1 tr p2 s2 0%nat a) as (c & Hc & _ & _ & Hall);
    [constructor|apply NoDup_singleton|exact E|exact Hm|exact Ha|].
  exists a, c. split; [done|]. split; [done|]. rewrite <-Hp. apply Hall. rewrite Hp. vm_compute. discriminate.
Defined.

Lemma hang_up_clean_witness :
  let p := (subscribe ["a"; "a"]%string NewPubSub).2 in
  exists p3, hang_up (mkSession [mkSub "a" 0 None; mkSub "a" 1 None]%string [] []) p = Ret p3 /\
    forall nm c, c ∈ members (subs p3) nm <-> c ∈ members (subs p) nm /\ c ∉ [0; 1].
Proof.
  destruct (subscribe ["a"; "a"]%string NewPubSub) as [[o w] p1] eqn:E. destruct o as [s|]; [|by vm_compute in E].
  destruct (hang_up_clean [] NewPubSub ["a"; "a"]%string s w p1 [] p1 s) as (p3 & H & _ & _ & Hm); [constructor|exact E|constructor|].
  injection E as <- _ <-. exists p3. split; [exact H|exact Hm].
Defined.
End Subscriber.
