(* ===== verification/Http.v ===== *)
(** * The HTTP gateway (internal/server/http.go)

    Each handler of the REST interface as a function of the request: the
    method, the path, the query and the body.  A handler reads and writes the
    store and the log directly.  The decoders of the request bodies are those
    of encoding/json and are parameters; [readJSON] and the treatment of an
    empty body are the source's.  [route] is the router of net/http with the
    registered patterns and its redirections.  A panic ends the request.  The event stream
    is in HttpEvents.v. *)
From S2P Require Import Prelude GoLib GoText SortedSet Store StoreStrings StoreHashes StoreSets StoreLists StoreLimits.
From S2P Require Import StoreSearch Cluster PubSub Webhooks Replay Scripting ServerCore.

Module Http.
Import Text Store Core.

(** ** Requests and responses *)

Inductive method := GET | PUT | POST | DELETE | OtherMethod.
#[export] Instance method_eq_dec : EqDecision method.
Proof. solve_decision. Defined.

(** [path] is [r.URL.Path], [escaped] is [r.URL.EscapedPath()]. *)
Record request := mkRequest { method_ : method; path : string; escaped : string; query : string -> string; body : string }.

(** The JSON values of the responses. *)
Inductive payload :=
| PStr (s : string)
| PInt (n : Z)
| PFloat (x : float64)
| PBool (b : bool)
| PTime (t : Z)
| PList (l : list payload)
| PObj (l : list (string * payload)).

(** [Fail] is [jsonError]; [Bare] a status with no body; [Limited] the answer
    of the rate limiter with its headers; [Redirect] the answer of the router
    that sends the client to another path. *)
Inductive response :=
| Ok_ (p : payload)
| Fail (msg : string) (code : Z)
| Bare (code : Z)
| Limited (code : Z) (headers : list (string * string)) (p : payload)
| Redirect (target : string).

Definition StatusBadRequest : Z := 400.
Definition StatusNotFound : Z := 404.
Definition StatusMethodNotAllowed : Z := 405.
Definition StatusConflict : Z := 409.
Definition StatusTooManyRequests : Z := 429.
Definition StatusInternalServerError : Z := 500.

Record backend := mkBackend { server : Server; hooks : Webhooks.WebhookManager; pubsub : PubSub.PubSub }.

Definition with_server (s : Server) (b : backend) : backend := mkBackend s (hooks b) (pubsub b).

(** ** The monad of the handlers *)

(** [inl]: the response has been written. *)
Definition H (A : Type) : Type := env -> backend -> outcome ((response + A) * backend).

Definition hret {A} (a : A) : H A := fun _ b => Ret (inr a, b).
Definition finish {A} (r : response) : H A := fun _ b => Ret (inl r, b).
Definition hbind {A B} (m : H A) (f : A -> H B) : H B := fun v b =>
  match m v b with
  | Panic => Panic
  | Ret (inl r, b) => Ret (inl r, b)
  | Ret (inr a, b) => f a v b
  end.

Declare Scope http_scope.
Delimit Scope http_scope with http.
Notation "'do!' x ':=' m 'in' k" := (hbind m (fun x => k))
  (at level 10, x name, m at level 100, k at level 200) : http_scope.
Notation "m >>> k" := (hbind m (fun _ => k)) (at level 65, right associativity) : http_scope.
Open Scope http_scope.

Definition store_run {A} (op : Z -> Store -> A * Store) : H A := fun v b =>
  let '(a, st) := op (now v) (store (server b)) in Ret (inr a, with_server (with_store st (server b)) b).
Definition store_query {A} (f : Z -> Store -> A) : H A := fun v b => Ret (inr (f (now v) (store (server b))), b).

(** [v, err := f(); if err != nil { jsonError(w, err.Error(), code); return }] *)
Definition try_ {A} (code : Z) (m : H (result A)) : H A :=
  do! r := m in match r with Ok a => hret a | Err e => finish (Fail e code) end.

Definition not_allowed {A} : H A := finish (Bare StatusMethodNotAllowed).
Definition ok_status : H response := hret (Ok_ (PObj [("status", PStr "OK")])).
Definition answer (l : list (string * payload)) : H response := hret (Ok_ (PObj l)).

(** [persistWrite], with the error answered at once. *)
Definition persistWrite (args : Replay.command) : H unit := fun v b =>
  match aof (server b) with
  | None => Ret (inr tt, b)
  | Some l =>
      let b' := with_server (with_aof (Some (l ++ [args])) (server b)) b in
      match fault v with
      | None => Ret (inr tt, b')
      | Some (e, reached) => Ret (inl (Fail e StatusInternalServerError), if reached then b' else b)
      end
  end.

(** ** Bodies *)

Definition body_limit : Z := 2 ^ 20.

(** The body is cut at 1 MiB; an empty body leaves the zero value. *)
Definition readJSON {A} (decode : string -> result A) (zero : A) (r : request) : H A :=
  let b := if Scripting.slen (body r) <=? body_limit then body r else String.substring 0 (Z.to_nat body_limit) (body r) in
  if (b =? "")%string then hret zero
  else match decode b with Ok a => hret a | Err e => finish (Fail e StatusBadRequest) end.

(** [json.NewDecoder(r.Body).Decode(&body)], for which an empty body is an error. *)
Definition decodeJSON {A} (decode : string -> result A) (r : request) : H A :=
  if (body r =? "")%string then finish (Fail "EOF" StatusBadRequest)
  else match decode (body r) with Ok a => hret a | Err e => finish (Fail e StatusBadRequest) end.

Record PutBody := mkPut { Value : string; EX : Z; PX : Z; NX : bool; XX : bool }.
Record PushBody := mkPush { Values : list string; Side : string }.
Record HookBody := mkHook { hPattern : string; hEvent : string; hURL : string }.
Record LimitBody := mkLimit { Max : Z; Window : Z }.

Record decoders := mkDecoders {
  d_put : string -> result PutBody;
  d_incr : string -> result (option Z);
  d_fields : string -> result (gmap string string);
  d_push : string -> result PushBody;
  d_side : string -> result string;
  d_members : string -> result (list string);
  d_scored : string -> result (list SortedSet.ZMember);
  d_message : string -> result string;
  d_hook : string -> result HookBody;
  d_addr : string -> result string;
  d_limit : string -> result LimitBody
}.

(** ** Paths and queries *)

Definition TrimPrefix (s p : string) : string := if Scripting.HasPrefix s p then Scripting.from s (String.length p) else s.
Definition TrimSuffix (s p : string) : string :=
  if Scripting.HasSuffix s p then String.substring 0 (String.length s - String.length p) s else s.

(** [strings.SplitN(path, "/", 2)], the second part empty when there is none *)
Definition split2 (s : string) : string * string := match cut_byte "/" s with Some (a, b) => (a, b) | None => (s, ""%string) end.

Definition atoi0 (s : string) : Z := (Atoi s).1.

Definition require (p : string) (what : string) : H unit :=
  if (p =? "")%string then finish (Fail (String.append what " required") StatusBadRequest) else hret tt.

Section Handlers.
Context (D : decoders).

(** ** Keys *)

Definition put_ttl (b : PutBody) : Z :=
  let ttl := if EX b >? 0 then Replay.duration (EX b) Replay.Second else 0 in
  if PX b >? 0 then Replay.duration (PX b) Replay.Millisecond else ttl.

Definition put_args (key : string) (b : PutBody) : Replay.command :=
  ["SET"; key; Value b]%string
  ++ (if EX b >? 0 then ["EX"%string; FormatInt (EX b)] else if PX b >? 0 then ["PX"%string; FormatInt (PX b)] else [])
  ++ (if NX b then ["NX"%string] else []) ++ (if XX b then ["XX"%string] else []).

Definition handlePut (key : string) (r : request) : H response :=
  do! b := readJSON (d_put D) (mkPut "" 0 0 false false) r in
  persistWrite (put_args key b) >>>
  (if NX b then
     do! done := store_run (fun now => Strings.SetNX now key (Value b) (put_ttl b)) in
     if done then ok_status else finish (Fail "key already exists" StatusConflict)
   else if XX b then
     do! done := store_run (fun now => Strings.SetXX now key (Value b) (put_ttl b)) in
     if done then ok_status else finish (Fail "key does not exist" StatusNotFound)
   else store_run (fun now st => (tt, Strings.Set_ now key (Value b) (put_ttl b) st)) >>> ok_status).

Definition handleIncr (key : string) (r : request) : H response :=
  if negb (bool_decide (method_ r = POST)) then not_allowed
  else
    require key "key" >>>
    do! d := readJSON (d_incr D) None r in
    let delta := default 1 d in
    (if delta =? 1 then persistWrite ["INCR"%string; key] else persistWrite ["INCRBY"%string; key; FormatInt delta]) >>>
    do! n := try_ StatusBadRequest (store_run (fun now => if delta =? 1 then Strings.Incr now key else Strings.IncrBy now key delta)) in
    answer [("value", PInt n)].

Definition handleKeys (r : request) : H response :=
  let p := TrimPrefix (path r) "/api/v1/keys/" in
  require p "key" >>>
  if Scripting.HasSuffix p "/incr" then handleIncr (TrimSuffix p "/incr") r
  else
    match method_ r with
    | GET =>
        do! v := store_run (fun now => Strings.Get now p) in
        if negb v.2 then finish (Fail "key not found" StatusNotFound)
        else
          do! ttl := store_query (fun now => Strings.TTL now p) in
          answer [("key", PStr p); ("value", PStr v.1); ("type", PStr "string"); ("ttl", PInt ttl)]
    | PUT => handlePut p r
    | DELETE =>
        persistWrite ["DEL"%string; p] >>>
        do! n := store_run (fun now => Strings.Del now [p] 0) in answer [("deleted", PInt n)]
    | _ => not_allowed
    end.

Definition handleKeysScan (r : request) : H response :=
  if negb (bool_decide (method_ r = GET)) then not_allowed
  else
    let pattern := if (query r "pattern" =? "")%string then "*"%string else query r "pattern" in
    let count := if atoi0 (query r "count") <=? 0 then 10 else atoi0 (query r "count") in
    do! x := store_query (fun now => Strings.Scan now (atoi0 (query r "cursor")) count pattern) in
    fun _ b => match x with
               | Panic => Panic
               | Ret (next, keys) => Ret (inr (Ok_ (PObj [("cursor", PInt next); ("keys", PList (PStr <$> keys))])), b)
               end.

(** ** Hashes *)

(** [iter v] is the order in which the fields of the body are met. *)
Definition handleHash (r : request) : H response :=
  let p := TrimPrefix (path r) "/api/v1/hash/" in
  require p "key" >>>
  let '(key, field) := split2 p in
  match method_ r with
  | GET =>
      if negb (field =? "")%string then
        do! v := try_ StatusBadRequest (store_query (fun now => Hashes.HGet now key field)) in
        if negb v.2 then finish (Fail "field not found" StatusNotFound)
        else answer [("key", PStr key); ("field", PStr field); ("value", PStr v.1)]
      else
        do! pairs := try_ StatusBadRequest (store_query (fun now => Hashes.HGetAll now key)) in
        answer [("key", PStr key); ("data", PObj ((fun p => (p.1, PStr p.2)) <$> pairs))]
  | PUT =>
      do! m := readJSON (d_fields D) ∅ r in
      if bool_decide (m = ∅) then finish (Fail "no fields provided" StatusBadRequest)
      else
        do! pairs := (fun v b => Ret (inr (omap (fun f => (fun x => (f, x)) <$> m !! f) (iter v)), b)) in
        persistWrite (["HSET"%string; key] ++ concat ((fun p => [p.1; p.2]) <$> pairs)) >>>
        do! n := try_ StatusBadRequest (store_run (fun now => Hashes.HSet now key pairs)) in answer [("created", PInt n)]
  | DELETE =>
      (if (field =? "")%string then finish (Fail "field required for DELETE" StatusBadRequest) else hret tt) >>>
      persistWrite ["HDEL"%string; key; field] >>>
      do! n := try_ StatusBadRequest (store_run (fun now => Hashes.HDel now key [field])) in answer [("deleted", PInt n)]
  | _ => not_allowed
  end.

(** ** Lists *)

Definition handlePush (key : string) (r : request) : H response :=
  do! b := readJSON (d_push D) (mkPush [] "") r in
  (if zlen (Values b) =? 0 then finish (Fail "values required" StatusBadRequest) else hret tt) >>>
  let left := EqualFold (Side b) "left" in
  persistWrite ((if left then "LPUSH"%string else "RPUSH"%string) :: key :: Values b) >>>
  do! n := try_ StatusBadRequest (store_run (fun now => if left then Lists.LPush now key (Values b)
                                                       else Lists.RPush now key (Values b))) in
  answer [("length", PInt n)].

Definition handlePop (key : string) (r : request) : H response :=
  do! side := readJSON (d_side D) ""%string r in
  let left := EqualFold side "left" in
  persistWrite [if left then "LPOP"%string else "RPOP"%string; key] >>>
  do! v := try_ StatusBadRequest (store_run (fun now => if left then Lists.LPop now key else Lists.RPop now key)) in
  if negb v.2 then finish (Fail "list empty or not found" StatusNotFound) else answer [("value", PStr v.1)].

Definition stop_of (r : request) : Z := if (query r "stop" =? "")%string then -1 else atoi0 (query r "stop").

Definition handleList (r : request) : H response :=
  let p := TrimPrefix (path r) "/api/v1/list/" in
  require p "key" >>>
  let '(key, sub) := split2 p in
  if (sub =? "push")%string then if bool_decide (method_ r = POST) then handlePush key r else not_allowed
  else if (sub =? "pop")%string then if bool_decide (method_ r = POST) then handlePop key r else not_allowed
  else if negb (bool_decide (method_ r = GET)) then not_allowed
  else
    do! vals := try_ StatusBadRequest (store_query (fun now => Lists.LRange now key (atoi0 (query r "start")) (stop_of r))) in
    answer [("key", PStr key); ("values", PList (PStr <$> vals))].

(** ** Sets and sorted sets *)

Definition handleSet (r : request) : H response :=
  let p := TrimPrefix (path r) "/api/v1/set/" in
  require p "key" >>>
  let '(key, member) := split2 p in
  match method_ r with
  | GET =>
      do! l := try_ StatusBadRequest (store_query (fun now => Sets.SMembers now key)) in
      answer [("key", PStr key); ("members", PList (PStr <$> l))]
  | POST =>
      do! l := readJSON (d_members D) [] r in
      (if zlen l =? 0 then finish (Fail "members required" StatusBadRequest) else hret tt) >>>
      persistWrite ("SADD"%string :: key :: l) >>>
      do! n := try_ StatusBadRequest (store_run (fun now => Sets.SAdd now key l)) in answer [("added", PInt n)]
  | DELETE =>
      (if (member =? "")%string then finish (Fail "member required for DELETE" StatusBadRequest) else hret tt) >>>
      persistWrite ["SREM"%string; key; member] >>>
      do! n := try_ StatusBadRequest (store_run (fun now => Sets.SRem now key [member])) in answer [("removed", PInt n)]
  | _ => not_allowed
  end.

Definition handleZSet (r : request) : H response :=
  let key := TrimPrefix (path r) "/api/v1/zset/" in
  require key "key" >>>
  match method_ r with
  | GET =>
      do! l := try_ StatusBadRequest (store_query (fun now => Sets.ZRange now key (atoi0 (query r "start")) (stop_of r))) in
      answer [("key", PStr key);
              ("members", PList (if (query r "withscores" =? "true")%string
                 then (fun m => PObj [("member", PStr (SortedSet.Member m)); ("score", PFloat (SortedSet.Score m))]) <$> l
                 else (fun m => PStr (SortedSet.Member m)) <$> l))]
  | POST =>
      do! l := readJSON (d_scored D) [] r in
      (if zlen l =? 0 then finish (Fail "members required" StatusBadRequest) else hret tt) >>>
      persistWrite (["ZADD"%string; key]
                    ++ concat ((fun m => [FormatFloat (SortedSet.Score m); SortedSet.Member m]) <$> l)) >>>
      do! n := try_ StatusBadRequest (store_run (fun now => Sets.ZAdd now key l)) in answer [("added", PInt n)]
  | _ => not_allowed
  end.

(** ** Messages, searches and administration *)

(** [order] and [porder] are the orders in which the subscribers are met. *)
Definition handlePublish (order : list Z) (porder : list (Z * string)) (r : request) : H response :=
  if negb (bool_decide (method_ r = POST)) then not_allowed
  else
    let channel := TrimPrefix (path r) "/api/v1/publish/" in
    require channel "channel" >>>
    do! msg := readJSON (d_message D) ""%string r in
    fun _ b =>
      match PubSub.Publish channel msg order porder (pubsub b) with
      | Panic => Panic
      | Ret (n, ps) => Ret (inr (Ok_ (PObj [("receivers", PInt n)])), mkBackend (server b) (hooks b) ps)
      end.

Definition handleInfo (snapshotPath : string) (r : request) : H response :=
  if negb (bool_decide (method_ r = GET)) then not_allowed
  else
    do! stats := (fun v => store_run (fun now => Search.Stats now (iter v)) v) in
    fun _ b =>
      let self := Cluster.self (cluster (server b)) in
      Ret (inr (Ok_ (PObj [("vole_version", PStr "0.1.0"); ("node_id", PStr (Cluster.ID self)); ("addr", PStr (Cluster.Addr self));
        ("append_only", PBool (bool_decide (is_Some (aof (server b))))); ("snapshot_path", PStr snapshotPath);
        ("keys", PInt stats.1); ("streams", PInt stats.2)])), b).

Definition handleFlush (r : request) : H response :=
  if negb (bool_decide (method_ r = POST)) then not_allowed
  else persistWrite ["FLUSHDB"%string] >>> store_run (fun _ st => (tt, Lists.FlushDB st)) >>> ok_status.

Definition handleDBSize (r : request) : H response :=
  if negb (bool_decide (method_ r = GET)) then not_allowed
  else do! n := store_query Strings.DBSize in answer [("dbsize", PInt n)].

(** [strings.Index(cond, op)] with [idx > 0] *)
Definition condition_with (cond op : string) : option Search.SearchCondition :=
  match String.index 0 op cond with
  | Some (S i) =>
      Some (Search.mkCond (TrimSpace (String.substring 0 (S i) cond)) (TrimSpace op)
              (TrimSpace (Scripting.from cond (S i + String.length op))))
  | _ => None
  end.

Definition operators : list string := [">="; "<="; "!="; "CONTAINS "; "STARTSWITH "; ">"; "<"; "="]%string.

Definition parse_condition (cond : string) : option Search.SearchCondition :=
  head (omap (condition_with cond) operators).

Fixpoint parse_conditions (l : list string) : string + list Search.SearchCondition :=
  match l with
  | [] => inr []
  | cond :: l =>
      let cond := TrimSpace cond in
      match parse_condition cond with
      | None => inl cond
      | Some c => match parse_conditions l with inl e => inl e | inr cs => inr (c :: cs) end
      end
  end.

Definition handleHashSearch (r : request) : H response :=
  if negb (bool_decide (method_ r = GET)) then not_allowed
  else
    let pattern := if (query r "pattern" =? "")%string then "*"%string else query r "pattern" in
    let conditions := if (query r "where" =? "")%string then inr [] else parse_conditions (split_byte "," (query r "where")) in
    match conditions with
    | inl cond => finish (Fail (String.append "invalid condition: " cond) StatusBadRequest)
    | inr cs =>
        let offset := if (query r "offset" =? "")%string then 0 else atoi0 (query r "offset") in
        let count := if (query r "limit" =? "")%string then 100 else atoi0 (query r "limit") in
        do! results := store_query (fun now => Search.HSearch now pattern cs offset count) in
        answer [("results", PList ((fun res => PObj [("key", PStr (Search.Key res));
                   ("fields", PObj ((fun p => (p.1, PStr p.2)) <$> map_to_list (Search.Fields res)))]) <$> results));
                ("count", PInt (zlen results))]
    end.

(** Registering and unregistering share their checks. *)
Definition change_hook (change : string -> string -> string -> Webhooks.WebhookManager -> Webhooks.WebhookManager) (r : request)
    : H response :=
  do! q := readJSON (d_hook D) (mkHook "" "" "") r in
  if (hPattern q =? "")%string || (hEvent q =? "")%string || (hURL q =? "")%string
  then finish (Fail "pattern, event, and url are required" StatusBadRequest)
  else (fun _ b => Ret (inr tt, mkBackend (server b) (change (hPattern q) (hEvent q) (hURL q) (hooks b)) (pubsub b))) >>> ok_status.

Definition handleWebhooks (r : request) : H response :=
  match method_ r with
  | GET => fun _ b =>
      Ret (inr (Ok_ (PObj ((fun h => (h.1, PList (PStr <$> h.2))) <$> map_to_list (Webhooks.List_ (hooks b))))), b)
  | POST => change_hook Webhooks.Register_ r
  | DELETE => change_hook Webhooks.Unregister r
  | _ => not_allowed
  end.

(** ** The cluster *)

Definition node_state (n : Cluster.Node) : string :=
  let state := if Cluster.Self n then "self"%string else Cluster.State n in
  if (state =? "")%string then "online"%string else state.

Definition handleClusterInfo (r : request) : H response :=
  if negb (bool_decide (method_ r = GET)) then not_allowed
  else fun _ b =>
    let c := cluster (server b) in
    let nodes := Cluster.Nodes c in
    Ret (inr (Ok_ (PObj [("nodes", PList ((fun n => PObj [("id", PStr (Cluster.ID n)); ("addr", PStr (Cluster.Addr n));
            ("slots", PList [PInt (Cluster.Start n); PInt (Cluster.End_ n)]); ("self", PBool (Cluster.Self n));
            ("state", PStr (node_state n)); ("last_pong", PTime (Cluster.LastPong n))]) <$> nodes));
          ("node_count", PInt (zlen nodes)); ("self_id", PStr (Cluster.ID (Cluster.self c)))])), b).

Definition change_cluster (code : Z) (op : Z -> Cluster.Cluster -> result unit * Cluster.Cluster) : H response := fun v b =>
  let s := server b in
  let '(r, c) := op (now v) (cluster s) in
  Ret (match r with Ok _ => inr (Ok_ (PObj [("status", PStr "OK")])) | Err e => inl (Fail e code) end,
       with_server (mkServer (store s) c (aof s) (schemas s) (hits s) (misses s)) b).

(** [id] is what the node at the address answers to. *)
Definition handleClusterMeet (id : string) (r : request) : H response :=
  if negb (bool_decide (method_ r = POST)) then not_allowed
  else
    do! addr := decodeJSON (d_addr D) r in
    if (addr =? "")%string then finish (Fail "addr is required" StatusBadRequest)
    else change_cluster StatusInternalServerError (fun now => Cluster.Meet now addr id).

Definition handleClusterForget (r : request) : H response :=
  if negb (bool_decide (method_ r = DELETE)) then not_allowed
  else
    let nodeID := TrimPrefix (path r) "/api/v1/cluster/nodes/" in
    if (nodeID =? "")%string then finish (Fail "node ID required" StatusBadRequest)
    else change_cluster StatusBadRequest (fun _ => Cluster.Forget nodeID).

(** ** Rate limits *)

Definition handleRateLimit (r : request) : H response :=
  let key := TrimPrefix (path r) "/api/v1/ratelimit/" in
  require key "key" >>>
  match method_ r with
  | POST =>
      do! b := decodeJSON (d_limit D) r in
      do! x := store_run (fun now => Limits.RateLimit now key (Max b) (Replay.duration (Window b) Replay.Second)) in
      fun _ b =>
        match x with
        | Panic => Panic
        | Ret v =>
            let retry := Limits.v_retryAfterMs v in
            Ret (inr (Limited (if Limits.v_allowed v then 200 else StatusTooManyRequests)
                  ([("X-RateLimit-Remaining"%string, FormatInt (Limits.v_remaining v));
                    ("X-RateLimit-Reset"%string, FormatInt (Limits.v_resetAtMs v))]
                   ++ if retry >? 0 then [("Retry-After"%string, FormatInt (Z.quot retry 1000 + 1))] else [])
                  (PObj [("allowed", PBool (Limits.v_allowed v)); ("remaining", PInt (Limits.v_remaining v));
                         ("retry_after_ms", PInt retry); ("reset_at_ms", PInt (Limits.v_resetAtMs v))])), b)
        end
  | GET =>
      do! p := store_query (fun now => Limits.RateLimitPeek now key) in
      answer [("remaining", PInt p.1); ("reset_at_ms", PInt p.2)]
  | DELETE => store_run (fun _ => Limits.RateLimitReset key) >>> ok_status
  | _ => finish (Fail "method not allowed" StatusMethodNotAllowed)
  end.

(** ** Routing *)

(** What a request meets besides the server: the orders of the subscribers,
    the snapshot path and the identifier a contacted node answers. *)
Record context := mkContext {
  c_order : list Z; c_porder : list (Z * string); c_snapshot : string; c_peer : string
}.

(** [http.ServeMux] *)

(** [path.Clean] on the parts of a rooted path: empty parts and [.] are
    dropped, [..] drops the part before it. *)
Fixpoint clean_parts (l acc : list string) : list string :=
  match l with
  | [] => rev acc
  | x :: l =>
      if (x =? "")%string || (x =? ".")%string then clean_parts l acc
      else if (x =? "..")%string then clean_parts l (tail acc)
      else clean_parts l (x :: acc)
  end.

(** [cleanPath]: a final slash is kept. *)
Definition cleanPath (p : string) : string :=
  if (p =? "")%string then "/"
  else
    let np := String.append "/" (String.concat "/" (clean_parts (split_byte "/" p) [])) in
    if Scripting.HasSuffix p "/" && negb (np =? "/")%string then String.append np "/" else np.

Example cleanPath_sample : cleanPath "/api//v1/./keys/x/../y/" = "/api/v1/keys/y/"%string.
Proof. reflexivity. Qed.

(** [url.PathUnescape] on one part; a part it refuses is taken as it is. *)
Fixpoint unescape_loop (s : string) : option string :=
  match s with
  | EmptyString => Some ""%string
  | String "%" s =>
      match s with
      | String a (String b s) =>
          match hex_digit_val a, hex_digit_val b, unescape_loop s with
          | Some x, Some y, Some t => Some (String (ascii_of_nat (Z.to_nat (16 * x + y))) t)
          | _, _, _ => None
          end
      | _ => None
      end
  | String c s => String c <$> unescape_loop s
  end.

Definition parts (p : string) : list string :=
  (fun s => default s (unescape_loop s)) <$> tail (split_byte "/" p).

(** The subtrees of which only the name with the final slash is registered. *)
Definition trees : list (list string) :=
  [["api"; "v1"; "hash"]; ["api"; "v1"; "list"]; ["api"; "v1"; "set"]; ["api"; "v1"; "zset"]; ["api"; "v1"; "publish"];
   ["api"; "v1"; "cluster"; "nodes"]; ["api"; "v1"; "ratelimit"]].

(** The router compares the parts of the path: an exact pattern, or the
    subtree of a pattern that ends in a slash.  A path that is not clean, and
    the name of a subtree without its slash, are answered with a redirection
    (CONNECT apart).  [None] for the event stream and the metrics. *)
Definition route (c : context) (r : request) : option (H response) :=
  let p := cleanPath (escaped r) in
  let l := parts p in
  let at_ q := bool_decide (l = q) in
  let under q := bool_decide (take (length q) l = q) && (length q <? length l)%nat in
  if bool_decide (l ∈ trees) then Some (finish (Redirect (String.append (cleanPath (path r)) "/")))
  else if negb (p =? escaped r)%string then Some (finish (Redirect p))
  else if under ["api"; "v1"; "keys"] then Some (handleKeys r)
  else if at_ ["api"; "v1"; "keys"] then Some (handleKeysScan r)
  else if under ["api"; "v1"; "hash"] then Some (handleHash r)
  else if under ["api"; "v1"; "list"] then Some (handleList r)
  else if under ["api"; "v1"; "set"] then Some (handleSet r)
  else if under ["api"; "v1"; "zset"] then Some (handleZSet r)
  else if under ["api"; "v1"; "publish"] then Some (handlePublish (c_order c) (c_porder c) r)
  else if at_ ["api"; "v1"; "info"] then Some (handleInfo (c_snapshot c) r)
  else if at_ ["api"; "v1"; "flush"] then Some (handleFlush r)
  else if at_ ["api"; "v1"; "dbsize"] then Some (handleDBSize r)
  else if at_ ["api"; "v1"; "webhooks"] then Some (handleWebhooks r)
  else if at_ ["api"; "v1"; "search"; "hash"] then Some (handleHashSearch r)
  else if at_ ["api"; "v1"; "cluster"; "info"] then Some (handleClusterInfo r)
  else if at_ ["api"; "v1"; "cluster"; "meet"] then Some (handleClusterMeet (c_peer c) r)
  else if under ["api"; "v1"; "cluster"; "nodes"] then Some (handleClusterForget r)
  else if under ["api"; "v1"; "ratelimit"] then Some (handleRateLimit r)
  else if at_ ["health"] then Some (answer [("status", PStr "ok")])
  else if at_ ["api"; "v1"; "events"] || at_ ["metrics"] then None
  else Some (finish (Bare StatusNotFound)).

Definition serve (c : context) (v : env) (r : request) (b : backend) : option (outcome (response * backend)) :=
  match route c r with
  | None => None
  | Some m => Some (match m v b with
                    | Panic => Panic
                    | Ret (inl x, b) => Ret (x, b)
                    | Ret (inr x, b) => Ret (x, b)
                    end)
  end.
End Handlers.
End Http.
