(* ===== verification/HttpEvents.v ===== *)
(** * The event stream of the HTTP gateway (internal/server/http.go:
    handleEvents)

    A request names channels and patterns; one goroutine per subscription
    passes messages on to a merged channel of 128 places, and the handler
    writes what it finds there until the client is gone. *)
From S2P Require Import Prelude GoLib GoText Glob PubSub ServerCore Subscriber Http Resp.

Module HttpEvents.
Import PubSub Subscriber.

Record sseEvent := mkEvent { eChannel : string; ePattern : string; eData : string }.

Record stream := mkStream {
  direct : list (sub string); pattern : list (sub PSubMessage); queue : list sseEvent; sent_events : list sseEvent
}.

(** The names of a query parameter, the empty ones skipped. *)
Definition requested (q : string) : list string := filter (fun s => s <> ""%string) (split_byte "," q).

(** [handleEvents] up to the goroutines. *)
Definition open_stream (r : Http.request) (p : PubSub) : stream * PubSub :=
  let '(l, p) := subscribe_all Subscribe (requested (Http.query r "channels")) p in
  let '(pl, p) := subscribe_all PSubscribe (requested (Http.query r "patterns")) p in
  (mkStream l pl [] [], p).

Definition take_direct (i : nat) (h : gmap Z (chan string)) (s : stream) : option (Z * string * gmap Z (chan string) * stream) :=
  match direct s !! i with
  | Some (mkSub nm c None) =>
      match receive c h with
      | (Some m, h) => Some (c, m, h, mkStream (<[i := mkSub nm c (Some m)]> (direct s)) (pattern s) (queue s) (sent_events s))
      | (None, _) => None
      end
  | _ => None
  end.

Definition take_pattern (i : nat) (h : gmap Z (chan PSubMessage)) (s : stream)
    : option (Z * PSubMessage * gmap Z (chan PSubMessage) * stream) :=
  match pattern s !! i with
  | Some (mkSub nm c None) =>
      match receive c h with
      | (Some m, h) => Some (c, m, h, mkStream (direct s) (<[i := mkSub nm c (Some m)]> (pattern s)) (queue s) (sent_events s))
      | (None, _) => None
      end
  | _ => None
  end.

Definition put_direct (i : nat) (s : stream) : option stream :=
  match direct s !! i with
  | Some (mkSub nm c (Some m)) =>
      if zlen (queue s) <? capacity
      then Some (mkStream (<[i := mkSub nm c None]> (direct s)) (pattern s) (queue s ++ [mkEvent nm "" m]) (sent_events s)) else None
  | _ => None
  end.

Definition put_pattern (i : nat) (s : stream) : option stream :=
  match pattern s !! i with
  | Some (mkSub nm c (Some m)) =>
      if zlen (queue s) <? capacity
      then Some (mkStream (direct s) (<[i := mkSub nm c None]> (pattern s)) (queue s ++ [mkEvent (Channel m) (Pattern m) (Data m)])
                   (sent_events s)) else None
  | _ => None
  end.

Definition write_event (s : stream) : option stream :=
  match queue s with [] => None | e :: l => Some (mkStream (direct s) (pattern s) l (sent_events s ++ [e])) end.

(** [fmt.Fprintf(w, "data: %s\n\n", data)], with the text of encoding/json *)
Definition frame (encode : sseEvent -> string) (e : sseEvent) : string :=
  String.concat "" ["data: "; encode e; String Resp.LF (String Resp.LF "")]%string.

(** The deferred function. *)
Definition close_stream (s : stream) (p : PubSub) : outcome PubSub :=
  match unsubscribe_all Unsubscribe (direct s) p with Panic => Panic | Ret p => unsubscribe_all PUnsubscribe (pattern s) p end.

Definition with_pchans (h : gmap Z (chan PSubMessage)) (p : PubSub) : PubSub := mkPubSub (subs p) (psubs p) (chans p) h (next_chan p).

(** ** Interleavings *)

(** One move, and what it adds to the history of the broker.  Whoever else uses
    the broker does not unsubscribe the stream's own channels. *)
Inductive turn : PubSub * stream -> list label -> PubSub * stream -> Prop :=
| turn_outside p l p' s : step p l p' -> (forall nm c, l = LUnsub nm c -> c ∉ ch <$> direct s) ->
    (forall pat c, l = LPUnsub pat c -> c ∉ ch <$> pattern s) -> turn (p, s) [l] (p', s)
| turn_take i p c m h s s' : take_direct i (chans p) s = Some (c, m, h, s') -> turn (p, s) [LRecv c m] (with_chans h p, s')
| turn_ptake i p c m h s s' : take_pattern i (pchans p) s = Some (c, m, h, s') -> turn (p, s) [LPRecv c m] (with_pchans h p, s')
| turn_put i p s s' : put_direct i s = Some s' -> turn (p, s) [] (p, s')
| turn_pput i p s s' : put_pattern i s = Some s' -> turn (p, s) [] (p, s')
| turn_write p s s' : write_event s = Some s' -> turn (p, s) [] (p, s').

Inductive turns : PubSub * stream -> list label -> PubSub * stream -> Prop :=
| turns_nil x : turns x [] x
| turns_cons x l y tr z : turn x l y -> turns y tr z -> turns x (l ++ tr) z.

(** ** A stream carries what was asked for *)

(** A message of a pattern. *)
Definition of_pattern (pat : string) (m : PSubMessage) : Prop := Pattern m = pat /\ Glob.MatchGlob pat (Channel m) = true.

(** The buffers of the subscriptions made from channel [n] on hold messages
    published, in the sense of [P], on their channel or on one of their pattern. *)
Record labelled (n : Z) (P : string -> string -> Prop) (p : PubSub) : Prop := {
  lb_next : n <= next_chan p;
  lb_direct nm c x m : n <= c -> c ∈ members (subs p) nm -> chans p !! c = Some x -> m ∈ buffer x -> P nm m;
  lb_pattern pat c x m : n <= c -> c ∈ members (psubs p) pat -> pchans p !! c = Some x -> m ∈ buffer x ->
    of_pattern pat m /\ P (Channel m) (Data m)
}.

Lemma offered_elem {A} (m : A) l c : m ∈ buffer (offered l c) -> m ∈ buffer c \/ m ∈ l.
Proof. unfold offered. cbn [buffer]. rewrite elem_of_app. intros [?|Hm]; [by left|]. case_match; [by right|by apply not_elem_of_nil in Hm]. Qed.

(** What subscribing, unsubscribing and receiving do to one side of the broker. *)
Section Side.
Context {A : Type} (n : Z) (Q : string -> A -> Prop).
Implicit Types (m : gmap string (gset Z)) (h : gmap Z (chan A)).

Definition side_labelled m h : Prop := forall k c x a, n <= c -> c ∈ members m k -> h !! c = Some x -> a ∈ buffer x -> Q k a.

Lemma side_labelled_add m h k c : side_labelled m h -> side_labelled (add_to k c m) (<[c := mkChan [] false]> h).
Proof.
  intros Hl k' d x a Hn. rewrite members_add. destruct (decide (d = c)) as [->|Hne].
  - rewrite lookup_insert_eq. intros _ [= <-] Ha. by apply not_elem_of_nil in Ha.
  - rewrite lookup_insert_ne by done. intros Hd. apply Hl; [done|]. case_decide; [subst; set_solver|done].
Qed.

Lemma side_labelled_remove m h h' k c : close c h = Ret h' -> side_labelled m h -> side_labelled (remove_from k c m) h'.
Proof.
  unfold close. intros Hc Hl. destruct (h !! c) as [x|] eqn:Ex; [|done]. destruct (closed x); [done|]. injection Hc as <-.
  intros k' d y a Hn. rewrite members_remove. intros Hd. assert (d ∈ members m k') as Hd' by (case_decide; [subst; set_solver|done]).
  destruct (decide (d = c)) as [->|Hne]; [|rewrite lookup_insert_ne by done; by apply Hl].
  rewrite lookup_insert_eq. intros [= <-]. by apply (Hl _ c x).
Qed.

Lemma side_labelled_receive m h h' c a : receive c h = (Some a, h') -> side_labelled m h -> side_labelled m h'.
Proof.
  unfold receive. intros Hr Hl. destruct (h !! c) as [x|] eqn:Ex; [|done]. destruct (buffer x) as [|a0 b] eqn:Eb; [done|].
  injection Hr as _ <-. intros k d y a' Hn Hd. destruct (decide (d = c)) as [->|Hne]; [|rewrite lookup_insert_ne by done; by apply (Hl k d)].
  rewrite lookup_insert_eq. intros [= <-] Ha'. cbn [buffer] in Ha'. apply (Hl k c x); [done..|]. rewrite Eb. by right.
Qed.
End Side.

Lemma labelled_sides n P p : labelled n P p <->
  n <= next_chan p /\ side_labelled n P (subs p) (chans p) /\
  side_labelled n (fun pat m => of_pattern pat m /\ P (Channel m) (Data m)) (psubs p) (pchans p).
Proof. split; [intros [H1 H2 H3]; done|intros (H1 & H2 & H3); done]. Qed.

Lemma labelled_mono n (P P' : string -> string -> Prop) p : (forall nm m, P nm m -> P' nm m) -> labelled n P p -> labelled n P' p.
Proof. intros H [H1 H2 H3]. split; [done|by eauto|]. intros pat c x m Hn Hc Hx Hm. destruct (H3 pat c x m Hn Hc Hx Hm). auto. Qed.

(** A step keeps the labels; only PUBLISH adds messages, its own. *)
Lemma step_labelled n (P : string -> string -> Prop) p l p' :
  wf p -> labelled n P p -> step p l p' -> (forall nm m k, l = LPub nm m k -> P nm m) -> labelled n P p'.
Proof.
  intros Hw Hl Hs HP. apply labelled_sides in Hl as (Hn & Hd & Hp). apply labelled_sides.
  destruct Hs as [channel p c p' H|channel c p p' Hin H|pt p c p' H|pt c p p' Hin H
    |channel message order porder p k p' Ho Hpo H|c p m p' H|c p m p' H].
  - injection H as _ <-. split; [cbn; lia|]. split; [by apply side_labelled_add|done].
  - unfold Unsubscribe in H. destruct (close c (chans p)) eqn:E; [|done]. injection H as <-. split; [done|]. split; [|done].
    by eapply side_labelled_remove.
  - injection H as _ <-. split; [cbn; lia|]. split; [done|by apply side_labelled_add].
  - unfold PUnsubscribe in H. destruct (close c (pchans p)) eqn:E; [|done]. injection H as <-. split; [done|]. split; [done|].
    by eapply side_labelled_remove.
  - destruct (publish_exact channel message order porder p Hw Ho Hpo) as (k' & p1 & H1 & _ & Hsu & Hps & Hnx & Hc & Hpc & _).
    rewrite H in H1. injection H1 as _ <-. rewrite Hnx, Hsu, Hps. split; [done|]. split.
    + intros nm c x m Hle Hin Hx Hm. rewrite Hc in Hx. apply fmap_Some in Hx as (y & Hy & ->).
      apply offered_elem in Hm as [Hm|Hm]; [by apply (Hd nm c y)|]. unfold copies in Hm. case_decide as Hdec; [|by apply not_elem_of_nil in Hm].
      apply list_elem_of_singleton in Hm as ->. rewrite (side_once _ _ _ (wf_direct _ Hw) nm channel c Hin Hdec). by eapply HP.
    + intros pat c x m Hle Hin Hx Hm. rewrite Hpc in Hx. apply fmap_Some in Hx as (y & Hy & ->).
      apply offered_elem in Hm as [Hm|Hm]; [by apply (Hp pat c y)|].
      rewrite (pcopies_exact _ _ _ _ pat Hw Hin) in Hm. destruct (Glob.MatchGlob pat channel) eqn:E; [|by apply not_elem_of_nil in Hm].
      apply list_elem_of_singleton in Hm as ->. split; [done|]. by eapply HP.
  - unfold receive_direct in H. destruct (receive c (chans p)) as [o h] eqn:E. injection H as -> <-. split; [done|]. split; [|done].
    by eapply side_labelled_receive.
  - unfold receive_pattern in H. destruct (receive c (pchans p)) as [o h] eqn:E. injection H as -> <-. split; [done|]. split; [done|].
    by eapply side_labelled_receive.
Qed.

(** What the request names, and what was published since. *)
Definition wanted (names patterns : list string) (tr : list label) (e : sseEvent) : Prop :=
  ((ePattern e = ""%string /\ eChannel e ∈ names) \/ (ePattern e ∈ patterns /\ Glob.MatchGlob (ePattern e) (eChannel e) = true)) /\
  eData e ∈ published (eChannel e) tr.

Record filtered (n : Z) (names patterns : list string) (tr : list label) (x : PubSub * stream) : Prop := {
  fi_wf : wf x.1;
  fi_labelled : labelled n (fun nm m => m ∈ published nm tr) x.1;
  fi_direct a : a ∈ direct x.2 -> name a ∈ names /\ n <= ch a /\ ch a ∈ members (subs x.1) (name a) /\
    (forall m, held a = Some m -> m ∈ published (name a) tr);
  fi_pattern a : a ∈ pattern x.2 -> name a ∈ patterns /\ n <= ch a /\ ch a ∈ members (psubs x.1) (name a) /\
    (forall m, held a = Some m -> of_pattern (name a) m /\ Data m ∈ published (Channel m) tr);
  fi_events e : e ∈ queue x.2 \/ e ∈ sent_events x.2 -> wanted names patterns tr e
}.

Lemma elem_of_insert {A} (i : nat) (x y : A) (l : list A) : y ∈ <[i := x]> l -> y = x \/ y ∈ l.
Proof.
  intros [j Hj]%list_elem_of_lookup. destruct (decide (i = j)) as [->|Hne].
  - apply list_lookup_insert_Some in Hj as [(_ & -> & _)|[? _]]; [by left|done].
  - rewrite list_lookup_insert_ne in Hj by done. right. by eapply list_elem_of_lookup_2.
Qed.

(** A channel stays subscribed unless it is unsubscribed. *)
Lemma step_member p l p' nm c :
  wf p -> step p l p' -> c ∈ members (subs p) nm -> l <> LUnsub nm c -> c ∈ members (subs p') nm.
Proof.
  intros Hw Hs Hc Hl. destruct (side_open _ _ _ (wf_direct _ Hw) _ _ Hc) as (x & Hx & _).
  by apply (step_buffer p l p' nm c x).
Qed.

(** So does a pattern. *)
Lemma step_pmember p l p' pat c :
  wf p -> step p l p' -> c ∈ members (psubs p) pat -> l <> LPUnsub pat c -> c ∈ members (psubs p') pat.
Proof.
  intros Hw Hs Hc Hl. destruct Hs as [channel p d p' H|channel d p p' Hin H|pt p d p' H|pt d p p' Hin H
    |channel message order porder p n p' Ho Hpo H|d p m p' H|d p m p' H].
  - injection H as _ <-. done.
  - unfold Unsubscribe in H. destruct (close d (chans p)); [injection H as <-; done|done].
  - injection H as _ <-. cbn [psubs]. rewrite members_add. case_decide; [subst; set_solver|done].
  - unfold PUnsubscribe in H. destruct (close d (pchans p)); [|done]. injection H as <-. cbn [psubs]. rewrite members_remove.
    case_decide; [subst|done]. apply elem_of_difference. split; [done|]. intros ->%elem_of_singleton. done.
  - destruct (publish_exact channel message order porder p Hw Ho Hpo) as (n' & p1 & H1 & _ & _ & Hps & _).
    rewrite H in H1. injection H1 as _ <-. by rewrite Hps.
  - unfold receive_direct in H. destruct (receive d (chans p)) as [o h]. injection H as _ <-. done.
  - unfold receive_pattern in H. destruct (receive d (pchans p)) as [o h]. injection H as _ <-. done.
Qed.

Lemma receive_elem {A} c (m : A) h h' : receive c h = (Some m, h') -> exists x, h !! c = Some x /\ m ∈ buffer x.
Proof.
  unfold receive. destruct (h !! c) as [x|]; [|done]. destruct (buffer x) as [|a b] eqn:E; [done|]. intros [= -> _].
  exists x. split; [done|]. rewrite E. by left.
Qed.

Lemma receive_step p c m h : receive c (chans p) = (Some m, h) -> step p (LRecv c m) (with_chans h p).
Proof. intros H. constructor. unfold receive_direct. by rewrite H. Qed.

Lemma preceive_step p c m h : receive c (pchans p) = (Some m, h) -> step p (LPRecv c m) (with_pchans h p).
Proof. intros H. constructor. unfold receive_pattern. by rewrite H. Qed.

Lemma published_snoc nm m tr l : m ∈ published nm tr -> m ∈ published nm (tr ++ l).
Proof. unfold published. rewrite omap_app, elem_of_app. by left. Qed.

Lemma wanted_snoc names patterns tr l e : wanted names patterns tr e -> wanted names patterns (tr ++ l) e.
Proof. intros [H1 H2]. split; [done|by apply published_snoc]. Qed.

(** What a step of the broker leaves of the invariant. *)
Lemma filtered_step n names patterns tr p l p' s :
  filtered n names patterns tr (p, s) -> step p l p' -> (forall nm c, l = LUnsub nm c -> c ∉ ch <$> direct s) ->
  (forall pat c, l = LPUnsub pat c -> c ∉ ch <$> pattern s) -> filtered n names patterns (tr ++ [l]) (p', s).
Proof.
  intros [Hw Hl Hd Hp He] Hs Hf Hf'. split; cbn in *; [by eapply pubsub_step_wf| | | |intros e He'; by apply wanted_snoc, He].
  - eapply step_labelled; [exact Hw| |exact Hs|].
    + eapply labelled_mono; [|exact Hl]. intros. by apply published_snoc.
    + intros nm m k ->. unfold published. rewrite omap_app, elem_of_app. right. cbn. rewrite String.eqb_refl. by left.
  - intros a Ha. destruct (Hd a Ha) as (H1 & H2 & H3 & H4). do 2 (split; [done|]). split; [|intros; by apply published_snoc, H4].
    eapply step_member; [done..|]. intros ->. apply (Hf _ _ eq_refl). by apply list_elem_of_fmap_2.
  - intros a Ha. destruct (Hp a Ha) as (H1 & H2 & H3 & H4). do 2 (split; [done|]).
    split; [|intros m Hm; destruct (H4 m Hm); split; [done|by apply published_snoc]].
    eapply step_pmember; [done..|]. intros ->. apply (Hf' _ _ eq_refl). by apply list_elem_of_fmap_2.
Qed.

Lemma turn_filtered n names patterns tr x l y :
  filtered n names patterns tr x -> turn x l y -> filtered n names patterns (tr ++ l) y.
Proof.
  intros Hx Ht. destruct Ht as [p l p' s Hs Hf Hf'|i p c m h s s' H|i p c m h s s' H|i p s s' H|i p s s' H|p s s' H]; rewrite ?app_nil_r.
  - by eapply filtered_step.
  - unfold take_direct in H. destruct (direct s !! i) as [[nm c' [?|]]|] eqn:Ei; try done.
    destruct (receive c' (chans p)) as [[m'|] h'] eqn:Er; [|done]. injection H as <- <- <- <-. apply list_elem_of_lookup_2 in Ei.
    destruct (receive_elem _ _ _ _ Er) as (x & Hx1 & Hm). destruct (fi_direct _ _ _ _ _ Hx _ Ei) as (_ & Hn & Hin & _).
    pose proof (lb_direct _ _ _ (fi_labelled _ _ _ _ _ Hx) nm c' x m' Hn Hin Hx1 Hm) as Hpub.
    destruct (filtered_step _ _ _ _ _ _ _ _ Hx (receive_step _ _ _ _ Er)) as [Hw Hl Hd Hp He]; [done..|]. split; cbn in *; try done.
    intros a [->|Ha]%elem_of_insert; [|by apply Hd]. destruct (Hd _ Ei) as (H1 & H2 & H3 & _). do 3 (split; [done|]).
    intros ? [= <-]. by apply published_snoc.
  - unfold take_pattern in H. destruct (pattern s !! i) as [[nm c' [?|]]|] eqn:Ei; try done.
    destruct (receive c' (pchans p)) as [[m'|] h'] eqn:Er; [|done]. injection H as <- <- <- <-. apply list_elem_of_lookup_2 in Ei.
    destruct (receive_elem _ _ _ _ Er) as (x & Hx1 & Hm). destruct (fi_pattern _ _ _ _ _ Hx _ Ei) as (_ & Hn & Hin & _).
    destruct (lb_pattern _ _ _ (fi_labelled _ _ _ _ _ Hx) nm c' x m' Hn Hin Hx1 Hm) as [Hof Hpub].
    destruct (filtered_step _ _ _ _ _ _ _ _ Hx (preceive_step _ _ _ _ Er)) as [Hw Hl Hd Hp He]; [done..|]. split; cbn in *; try done.
    intros a [->|Ha]%elem_of_insert; [|by apply Hp]. destruct (Hp _ Ei) as (H1 & H2 & H3 & _). do 3 (split; [done|]).
    intros ? [= <-]. split; [done|by apply published_snoc].
  - unfold put_direct in H. destruct (direct s !! i) as [[nm c' [m|]]|] eqn:Ei; try done. case_match; [|done]. injection H as <-.
    destruct Hx as [Hw Hl Hd Hp He]. apply list_elem_of_lookup_2 in Ei. destruct (Hd _ Ei) as (H1 & H2 & H3 & H4). split; cbn in *; try done.
    + intros a [->|Ha]%elem_of_insert; [|by apply Hd]. done.
    + intros e. rewrite elem_of_app, list_elem_of_singleton. intros [[Hq| ->]|Hq]; [apply He; by left| |apply He; by right].
      split; [by left|]. by apply H4.
  - unfold put_pattern in H. destruct (pattern s !! i) as [[nm c' [m|]]|] eqn:Ei; try done. case_match; [|done]. injection H as <-.
    destruct Hx as [Hw Hl Hd Hp He]. apply list_elem_of_lookup_2 in Ei. destruct (Hp _ Ei) as (H1 & H2 & H3 & H4). split; cbn in *; try done.
    + intros a [->|Ha]%elem_of_insert; [|by apply Hp]. done.
    + intros e. rewrite elem_of_app, list_elem_of_singleton. intros [[Hq| ->]|Hq]; [apply He; by left| |apply He; by right].
      destruct (H4 m eq_refl) as [[<- ?] ?]. split; [by right|done].
  - unfold write_event in H. destruct (queue s) as [|e l] eqn:Eq; [done|]. injection H as <-.
    destruct Hx as [Hw Hl Hd Hp He]. split; cbn in *; try done. rewrite Eq in He.
    intros e'. rewrite elem_of_app, list_elem_of_singleton. intros [?|[?| ->]]; apply He; [left; by right|by right|left; by left].
Qed.

Lemma turns_filtered n names patterns x tr y : turns x tr y -> forall tr0,
  filtered n names patterns tr0 x -> filtered n names patterns (tr0 ++ tr) y.
Proof.
  induction 1 as [x|x l y tr z H _ IH]; intros tr0 Hf; [by rewrite app_nil_r|]. rewrite app_assoc. apply IH. by eapply turn_filtered.
Qed.

(** ** Opening a stream *)

Lemma filtered_new names patterns p : wf p -> filtered (next_chan p) names patterns [] (p, mkStream [] [] [] []).
Proof.
  intros Hw. split; cbn; [done| |set_solver..]. split; [lia|..]; intros nm c x m Hn Hc.
  - by destruct (side_fresh _ _ _ nm c (wf_direct _ Hw) Hn).
  - by destruct (side_fresh _ _ _ nm c (wf_pattern _ Hw) Hn).
Qed.

(** Subscribing one more channel, or one more pattern. *)
Lemma filtered_subscribe n names patterns p l pl nm c p' : nm ∈ names ->
  filtered n names patterns [] (p, mkStream l pl [] []) -> Subscribe nm p = (c, p') ->
  filtered n names patterns [] (p', mkStream (l ++ [mkSub nm c None]) pl [] []).
Proof.
  intros Hnm Hf H. destruct (filtered_step _ _ _ _ _ _ _ _ Hf (step_sub _ _ _ _ H)) as [Hw Hl Hd Hp He]; [done..|].
  pose proof (lb_next _ _ _ (fi_labelled _ _ _ _ _ Hf)) as Hn. split; cbn in *; try done.
  intros a. rewrite elem_of_app, list_elem_of_singleton. intros [Ha| ->]; [by apply Hd|]. injection H as <- <-. cbn.
  split; [done|]. split; [done|]. split; [|done]. rewrite members_add, decide_True by done. set_solver.
Qed.

Lemma filtered_psubscribe n names patterns p l pl pat c p' : pat ∈ patterns ->
  filtered n names patterns [] (p, mkStream l pl [] []) -> PSubscribe pat p = (c, p') ->
  filtered n names patterns [] (p', mkStream l (pl ++ [mkSub pat c None]) [] []).
Proof.
  intros Hnm Hf H. destruct (filtered_step _ _ _ _ _ _ _ _ Hf (step_psub _ _ _ _ H)) as [Hw Hl Hd Hp He]; [done..|].
  pose proof (lb_next _ _ _ (fi_labelled _ _ _ _ _ Hf)) as Hn. split; cbn in *; try done.
  intros a. rewrite elem_of_app, list_elem_of_singleton. intros [Ha| ->]; [by apply Hp|]. injection H as <- <-. cbn.
  split; [done|]. split; [done|]. split; [|done]. rewrite members_add, decide_True by done. set_solver.
Qed.

Lemma subscribe_all_filtered n names patterns todo : forall p l pl l' p',
  (forall nm, nm ∈ todo -> nm ∈ names) -> filtered n names patterns [] (p, mkStream l pl [] []) ->
  subscribe_all Subscribe todo p = (l', p') -> filtered n names patterns [] (p', mkStream (l ++ l') pl [] []).
Proof.
  induction todo as [|nm todo IH]; intros p l pl l' p' Hin Hf H; cbn [subscribe_all] in H.
  { injection H as <- <-. by rewrite app_nil_r. }
  destruct (Subscribe nm p) as [c p1] eqn:E1. destruct (subscribe_all Subscribe todo p1) as [l1 p2] eqn:E2. injection H as <- <-.
  rewrite cons_middle, app_assoc. eapply IH; [set_solver| |exact E2]. eapply filtered_subscribe; [set_solver|done..].
Qed.

Lemma psubscribe_all_filtered n names patterns todo : forall p l pl l' p',
  (forall nm, nm ∈ todo -> nm ∈ patterns) -> filtered n names patterns [] (p, mkStream l pl [] []) ->
  subscribe_all PSubscribe todo p = (l', p') -> filtered n names patterns [] (p', mkStream l (pl ++ l') [] []).
Proof.
  induction todo as [|nm todo IH]; intros p l pl l' p' Hin Hf H; cbn [subscribe_all] in H.
  { injection H as <- <-. by rewrite app_nil_r. }
  destruct (PSubscribe nm p) as [c p1] eqn:E1. destruct (subscribe_all PSubscribe todo p1) as [l1 p2] eqn:E2. injection H as <- <-.
  rewrite cons_middle, app_assoc. eapply IH; [set_solver| |exact E2]. eapply filtered_psubscribe; [set_solver|done..].
Qed.

(** C28: an event stream opened on a server in any state its clients can bring about sends only what its request names and what is
    published after it is opened.  Whatever the publishers, the other subscribers, the relays and the writer do in whatever order
    (nobody else unsubscribing the stream's own channels), an event that reached the stream's queue or its client carries no pattern
    and a channel of [channels], or a pattern of [patterns] and a channel that pattern matches; and its data was published on
    just that channel since the stream was opened. *)
Theorem stream_only_requested tr0 p r s p1 tr p2 s2 e :
  steps NewPubSub tr0 p -> open_stream r p = (s, p1) -> turns (p1, s) tr (p2, s2) -> e ∈ queue s2 \/ e ∈ sent_events s2 ->
  wanted (requested (Http.query r "channels")) (requested (Http.query r "patterns")) tr e.
Proof.
  intros H0 Ho Ht He. unfold open_stream in Ho.
  destruct (subscribe_all Subscribe _ p) as [l p'] eqn:E1. destruct (subscribe_all PSubscribe _ p') as [pl p''] eqn:E2.
  injection Ho as <- <-. assert (wf p) as Hw by (eapply steps_wf; [apply new_pubsub_wf|done]).
  set (names := requested (Http.query r "channels")) in *. set (patterns := requested (Http.query r "patterns")) in *.
  pose proof (subscribe_all_filtered _ names patterns _ _ _ _ _ _ (fun _ H => H) (filtered_new names patterns p Hw) E1) as Hf1.
  pose proof (psubscribe_all_filtered _ names patterns _ _ _ _ _ _ (fun _ H => H) Hf1 E2) as Hf2. cbn [app] in Hf2.
  exact (fi_events _ _ _ _ _ (turns_filtered _ _ _ _ _ _ Ht [] Hf2) e He).
Qed.

Definition example_request : Http.request :=
  Http.mkRequest Http.GET "/api/v1/events" "/api/v1/events" (fun k => if String.eqb k "patterns" then "user:*,,order:*" else "news,"%string) "".

Lemma stream_only_requested_witness :
  exists s p1 p2 s2, open_stream example_request NewPubSub = (s, p1) /\
    let tr := [LPub "user:7" "set" 1; LPub "other" "x" 0; LPRecv 1 (mkMsg "user:*" "user:7" "set")]%string in
    turns (p1, s) tr (p2, s2) /\ sent_events s2 = [mkEvent "user:7" "user:*" "set"]%string /\
    Forall (wanted ["news"]%string ["user:*"; "order:*"]%string tr) (sent_events s2).
Proof.
  destruct (open_stream example_request NewPubSub) as [s p1] eqn:E. exists s, p1. cbn zeta. set (tr := [LPub _ _ _; _; _]).
  assert (exists p2 s2, turns (p1, s) tr (p2, s2) /\ sent_events s2 = [mkEvent "user:7" "user:*" "set"]%string) as (p2 & s2 & Ht & Hs).
  { vm_compute in E. injection E as <- <-. do 2 eexists. split; [|].
    - change tr with ([LPub "user:7" "set" 1] ++ [LPub "other" "x" 0] ++ [LPRecv 1 (mkMsg "user:*" "user:7" "set")] ++ [] ++ [] ++ []).
      eapply turns_cons; [eapply turn_outside; [apply (step_pub "user:7" "set" [] [(1, "user:*"%string)]); vm_compute; reflexivity|done..]|].
      eapply turns_cons; [eapply turn_outside; [apply (step_pub "other" "x" [] []); vm_compute; reflexivity|done..]|].
      eapply turns_cons; [eapply (turn_ptake 0%nat); vm_compute; reflexivity|].
      eapply turns_cons; [apply (turn_pput 0%nat); vm_compute; reflexivity|].
      eapply turns_cons; [apply turn_write; vm_compute; reflexivity|]. apply turns_nil.
    - vm_compute. reflexivity. }
  exists p2, s2. split; [done|]. split; [exact Ht|]. split; [exact Hs|]. apply Forall_forall. intros e He.
  exact (stream_only_requested [] NewPubSub example_request s p1 tr p2 s2 e (steps_nil _) E Ht (or_intror He)).
Defined.

End HttpEvents.
