(* ===== verification/ServerKeys.v ===== *)
(** * String and key commands of the server (internal/server/server.go)

    One handler per [case] of [exec], from PING to PTTL and the key commands
    further down, with [set], [mset] and [scan].  The persistence mutex
    [persistMu] makes a write command atomic with respect to other write
    commands; a handler runs alone here. *)
From S2P Require Import Prelude GoLib GoText Store StoreStrings StoreSets StoreLists StoreDocs StoreSearch Replay ServerCore.

Module Keys.
Import Core Text.
Open Scope server_scope.

(** Argument checks: [if len(args) != n { return wrongArgs(cmd) }] and
    [if len(args) < n]. *)
Definition exactly (n : Z) (cmd : string) (args : Replay.command) : M unit :=
  unless (negb (argc args =? n)) (wrongArgs cmd).
Definition at_least (n : Z) (cmd : string) (args : Replay.command) : M unit :=
  unless (argc args <? n) (wrongArgs cmd).

Definition ok : M unit := reply (WSimple "OK").

(** ** Strings *)

Definition exec_PING : handler := fun args =>
  if argc args >? 1 then reply (WBulk (arg 1 args)) else reply (WSimple "PONG").

Definition exec_ECHO : handler := fun args => exactly 2 "ECHO" args ;;; reply (WBulk (arg 1 args)).

Definition count_hit (hit : bool) : M unit := fun _ s =>
  Ret (Next tt, mkServer (store s) (cluster s) (aof s) (schemas s)
                  (if hit then hits s + 1 else hits s) (if hit then misses s else misses s + 1), []).

Definition exec_GET : handler := fun args =>
  exactly 2 "GET" args ;;; ensureOwns [arg 1 args] ;;;
  let! r := run (fun now => Strings.Get now (arg 1 args)) in
  count_hit r.2 ;;; found r.

Definition exec_MGET : handler := fun args =>
  at_least 2 "MGET" args ;;; ensureOwns (drop 1 args) ;;;
  let! results := query (fun now => Strings.MGet now (drop 1 args)) in
  replies (WArray (zlen results) :: ((fun r : string * bool => if r.2 then WBulk r.1 else WNull) <$> results)).

(** The options of SET: lifetime, delay, NX, XX. *)
Record set_options := mkSetOptions { opt_ttl : Z; opt_delay : Z; opt_nx : bool; opt_xx : bool }.

Fixpoint set_parse (l : list string) (o : set_options) : M set_options :=
  match l with
  | [] => ret o
  | a :: l =>
      let number (k : Z -> set_options) :=
        match l with
        | [] => wrongArgs "SET"
        | n :: l => let! n := parse_int n in set_parse l (k n)
        end in
      let name := ToUpper a in
      if (name =? "NX")%string then set_parse l (mkSetOptions (opt_ttl o) (opt_delay o) true (opt_xx o))
      else if (name =? "XX")%string then set_parse l (mkSetOptions (opt_ttl o) (opt_delay o) (opt_nx o) true)
      else if (name =? "EX")%string then
        number (fun n => mkSetOptions (Replay.duration n Replay.Second) (opt_delay o) (opt_nx o) (opt_xx o))
      else if (name =? "PX")%string then
        number (fun n => mkSetOptions (Replay.duration n Replay.Millisecond) (opt_delay o) (opt_nx o) (opt_xx o))
      else if (name =? "AFTER")%string then
        number (fun n => mkSetOptions (opt_ttl o) (Replay.duration n Replay.Second) (opt_nx o) (opt_xx o))
      else fail (EMsg "unsupported SET option")
  end.

(** The record SET, SET NX and SET XX log for a lifetime that starts now. *)
Definition setabs (now : Z) (key value : string) (ttl : Z) : Replay.command :=
  ["SETABS"; key; value; if ttl >? 0 then FormatInt (Store.UnixNano (now + ttl)) else "0"].

(** [SetNX] or [SetXX], then the log. *)
Definition conditional_set (op : Z -> Store.Store -> bool * Store.Store) (key value : string) (ttl : Z) : M unit :=
  let! done := run op in
  if negb done then reply WNull
  else let! now := clock in persist (setabs now key value ttl) ;;; ok.

Definition delayed_record (key value : string) (o : set_options) : Replay.command :=
  ["SETDELAYED"; key; value; FormatInt (Z.quot (opt_delay o) Replay.Second)]
  ++ (if opt_ttl o >? 0 then ["EX"; FormatInt (Z.quot (opt_ttl o) Replay.Second)] else []).

Definition set : handler := fun args =>
  at_least 3 "SET" args ;;;
  let key := arg 1 args in
  let value := arg 2 args in
  let! o := set_parse (drop 3 args) (mkSetOptions 0 0 false false) in
  if opt_nx o && opt_xx o then fail (EMsg "NX and XX options are mutually exclusive")
  else
    ensureOwns [key] ;;;
    if opt_delay o >? 0 then
      persist (delayed_record key value o) ;;;
      run (fun now st => (tt, Docs.SetDelayed now key value (opt_delay o) (opt_ttl o) st)) ;;; ok
    else if opt_nx o then conditional_set (fun now => Strings.SetNX now key value (opt_ttl o)) key value (opt_ttl o)
    else if opt_xx o then conditional_set (fun now => Strings.SetXX now key value (opt_ttl o)) key value (opt_ttl o)
    else
      let! now := clock in
      persist (setabs now key value (opt_ttl o)) ;;;
      run (fun now st =>
        (tt, Strings.SetAbsolute now key value (if opt_ttl o >? 0 then now + opt_ttl o else Store.zeroTime) st)) ;;;
      ok.

Definition exec_SETNX : handler := fun args =>
  exactly 3 "SETNX" args ;;; ensureOwns [arg 1 args] ;;;
  let! done := run (fun now => Strings.SetNX now (arg 1 args) (arg 2 args) 0) in
  if done then persist_quiet ["SETABS"; arg 1 args; arg 2 args; "0"] ;;; reply (WInt 1) else reply (WInt 0).

(** SETEX and PSETEX *)
Definition set_expiring (cmd : string) (unit_ : Z) : handler := fun args =>
  exactly 4 cmd args ;;; ensureOwns [arg 1 args] ;;;
  let! n := parse_int (arg 2 args) in
  if n <=? 0 then fail (EMsg (String.append "invalid expire time in " cmd))
  else
    let ttl := Replay.duration n unit_ in
    let! now := clock in
    let expireAt := now + ttl in
    persist ["SETABS"; arg 1 args; arg 3 args; FormatInt (Store.UnixNano expireAt)] ;;;
    run (fun now st => (tt, Strings.SetAbsolute now (arg 1 args) (arg 3 args) expireAt st)) ;;; ok.

Definition exec_SETEX : handler := set_expiring "SETEX" Replay.Second.
Definition exec_PSETEX : handler := set_expiring "PSETEX" Replay.Millisecond.

(** [k1 v1 k2 v2 ...] with the marker for no deadline, as MSETABS logs it. *)
Definition msetabs (pairs : list (string * string)) : Replay.command :=
  "MSETABS" :: concat ((fun p => [p.1; p.2; "0"]) <$> pairs).

Definition mset : handler := fun args =>
  unless ((argc args <? 3) || negb (argc args mod 2 =? 1)) (wrongArgs "MSET") ;;;
  let pairs := Replay.pairs_of (drop 1 args) in
  ensureOwns pairs.*1 ;;;
  persist (msetabs pairs) ;;;
  run (fun now st =>
    (tt, fold_left (fun st p => Strings.SetAbsolute now p.1 p.2 Store.zeroTime st) pairs st)) ;;; ok.

Definition exec_MSETNX : handler := fun args =>
  unless ((argc args <? 3) || negb (argc args mod 2 =? 1)) (wrongArgs "MSETNX") ;;;
  let pairs := Replay.pairs_of (drop 1 args) in
  ensureOwns pairs.*1 ;;;
  let! done := run (fun now => Strings.MSetNX now pairs.*1 pairs.*2) in
  if negb done then reply (WInt 0) else persist (msetabs pairs) ;;; reply (WInt 1).

Definition exec_STRLEN : handler := fun args =>
  exactly 2 "STRLEN" args ;;; ensureOwns [arg 1 args] ;;;
  let! n := check (query (fun now => Strings.Strlen now (arg 1 args))) in reply (WInt n).

Definition exec_APPEND : handler := fun args =>
  exactly 3 "APPEND" args ;;; ensureOwns [arg 1 args] ;;;
  let! n := check (run (fun now => Strings.Append now (arg 1 args) (arg 2 args))) in
  persist ["APPEND"; arg 1 args; arg 2 args] ;;; reply (WInt n).

Definition exec_GETDEL : handler := fun args =>
  exactly 2 "GETDEL" args ;;; ensureOwns [arg 1 args] ;;;
  let! r := run (fun now => Strings.GetDel now (arg 1 args)) in
  if negb r.2 then reply WNull else persist ["DEL"; arg 1 args] ;;; reply (WBulk r.1).

Definition exec_GETSET : handler := fun args =>
  exactly 3 "GETSET" args ;;; ensureOwns [arg 1 args] ;;;
  let! r := check (run (fun now => Strings.GetSet now (arg 1 args) (arg 2 args))) in
  persist ["SETABS"; arg 1 args; arg 2 args; "0"] ;;; found r.

Fixpoint getex_parse (l : list string) (ttl : Z) (persist : bool) : M (Z * bool) :=
  match l with
  | [] => ret (ttl, persist)
  | a :: l =>
      let number (unit_ : Z) :=
        match l with
        | [] => wrongArgs "GETEX"
        | n :: l => let! n := parse_int n in getex_parse l (Replay.duration n unit_) persist
        end in
      let name := ToUpper a in
      if (name =? "EX")%string then number Replay.Second
      else if (name =? "PX")%string then number Replay.Millisecond
      else if (name =? "PERSIST")%string then getex_parse l ttl true
      else wrongArgs "GETEX"
  end.

Definition exec_GETEX : handler := fun args =>
  at_least 2 "GETEX" args ;;; ensureOwns [arg 1 args] ;;;
  let! o := getex_parse (drop 2 args) 0 false in
  let ttl := o.1 in
  let! r := run (fun now => Strings.GetEx now (arg 1 args) ttl o.2) in
  if negb r.2 then reply WNull
  else
    (if o.2 then persist_quiet ["EXPIREATABS"; arg 1 args; "0"]
     else if ttl >? 0 then
       let! now := clock in persist_quiet ["EXPIREATABS"; arg 1 args; FormatInt (Store.UnixNano (now + ttl))]
     else ret tt) ;;;
    reply (WBulk r.1).

Definition exec_SETRANGE : handler := fun args =>
  exactly 4 "SETRANGE" args ;;; ensureOwns [arg 1 args] ;;;
  let! offset := atoi (arg 2 args) in
  let! r := (fun v s => match Strings.SetRange (now v) (arg 1 args) offset (arg 3 args) (store s) with
                        | Panic => Panic
                        | Ret (r, st) => Ret (Next r, with_store st s, [])
                        end) in
  let! n := check (ret r) in
  let! v := run (fun now => Strings.Get now (arg 1 args)) in
  let! pttl := query (fun now => Strings.PTTL now (arg 1 args)) in
  let! now := clock in
  let deadline := if pttl >? 0
                  then FormatInt (Store.UnixNano (now + Replay.duration pttl Replay.Millisecond)) else "0"%string in
  persist ["SETABS"; arg 1 args; v.1; deadline] ;;; reply (WInt n).

(** GETRANGE and its alias SUBSTR *)
Definition get_range (cmd : string) : handler := fun args =>
  exactly 4 cmd args ;;; ensureOwns [arg 1 args] ;;;
  let! start := atoi (arg 2 args) in
  let! end_ := atoi (arg 3 args) in
  let! v := check (query (fun now => Strings.GetRange now (arg 1 args) start end_)) in reply (WBulk v).
Definition exec_GETRANGE : handler := get_range "GETRANGE".
Definition exec_SUBSTR : handler := get_range "SUBSTR".

(** ** Counters *)

Definition exec_INCR : handler := fun args =>
  exactly 2 "INCR" args ;;; ensureOwns [arg 1 args] ;;;
  let! r := run (fun now => Strings.Get now (arg 1 args)) in
  (if r.2 then match ParseInt r.1 with
               | (_, Some _) => fail (EMsg "value is not an integer")
               | (_, None) => ret tt
               end else ret tt) ;;;
  persist args ;;;
  let! n := check (run (fun now => Strings.Incr now (arg 1 args))) in reply (WInt n).

(** INCRBY and DECRBY *)
Definition change_by (cmd : string) (op : Z -> string -> Z -> Store.Store -> result Z * Store.Store) : handler :=
  fun args =>
  exactly 3 cmd args ;;; ensureOwns [arg 1 args] ;;;
  let! delta := parse_int (arg 2 args) in
  persist args ;;;
  let! n := check (run (fun now => op now (arg 1 args) delta)) in reply (WInt n).
Definition exec_INCRBY : handler := change_by "INCRBY" Strings.IncrBy.
Definition exec_DECRBY : handler := change_by "DECRBY" Strings.DecrBy.

Definition exec_DECR : handler := fun args =>
  exactly 2 "DECR" args ;;; ensureOwns [arg 1 args] ;;;
  persist args ;;;
  let! n := check (run (fun now => Strings.IncrBy now (arg 1 args) (-1))) in reply (WInt n).

Definition exec_INCRBYFLOAT : handler := fun args =>
  exactly 3 "INCRBYFLOAT" args ;;; ensureOwns [arg 1 args] ;;;
  let! delta := parse_float (arg 2 args) in
  persist args ;;;
  let! x := check (run (fun now => Search.IncrByFloat now (arg 1 args) delta)) in
  reply (WBulk (FormatFloat x)).

(** ** Keys *)

Definition exec_EXISTS : handler := fun args =>
  at_least 2 "EXISTS" args ;;; ensureOwns (drop 1 args) ;;;
  let! n := query (fun now => Strings.Exists now (drop 1 args)) in reply (WInt n).

Definition exec_TOUCH : handler := fun args =>
  at_least 2 "TOUCH" args ;;; ensureOwns (drop 1 args) ;;;
  let! n := query (fun now => Strings.Exists now (drop 1 args)) in reply (WInt n).

Definition exec_TYPE : handler := fun args =>
  exactly 2 "TYPE" args ;;; ensureOwns [arg 1 args] ;;;
  let! t := query (fun now => Strings.Type_ now (arg 1 args)) in reply (WSimple t).

Definition exec_KEYS : handler := fun args =>
  exactly 2 "KEYS" args ;;;
  let! l := query (fun now => Strings.Keys now (arg 1 args)) in writeBulkStrings l.

Fixpoint scan_parse (l : list string) (pattern : string) (count : Z) : M (string * Z) :=
  match l with
  | [] => ret (pattern, count)
  | [_] => wrongArgs "SCAN"
  | a :: b :: l =>
      let name := ToUpper a in
      if (name =? "MATCH")%string then scan_parse l b count
      else if (name =? "COUNT")%string then let! n := atoi b in scan_parse l pattern n
      else fail (EQuoted [("unsupported SCAN option ", a)] "")
  end.

Definition scan : handler := fun args =>
  at_least 2 "SCAN" args ;;;
  let! cursor := atoi (arg 1 args) in
  let! o := scan_parse (drop 2 args) "*" 10 in
  let! r := unpanic (query (fun now => Strings.Scan now cursor o.2 o.1)) in
  replies [WArray 2; WBulk (FormatInt r.1)] ;;; writeBulkStrings r.2.

(** DEL and UNLINK, which logs a DEL *)
Definition exec_DEL : handler := fun args =>
  at_least 2 "DEL" args ;;; ensureOwns (drop 1 args) ;;;
  persist args ;;;
  let! n := run (fun now => Strings.Del now (drop 1 args) 0) in reply (WInt n).

Definition exec_UNLINK : handler := fun args =>
  at_least 2 "UNLINK" args ;;; ensureOwns (drop 1 args) ;;;
  persist ("DEL"%string :: drop 1 args) ;;;
  let! n := run (fun now => Strings.Del now (drop 1 args) 0) in reply (WInt n).

(** EXPIRE and PEXPIRE *)
Definition expire_in (cmd : string) (unit_ : Z) : handler := fun args =>
  exactly 3 cmd args ;;; ensureOwns [arg 1 args] ;;;
  let! n := parse_int (arg 2 args) in
  let! ttl := query (fun now => Strings.TTL now (arg 1 args)) in
  if ttl =? -2 then reply (WInt 0)
  else
    let! now := clock in
    let expireAt := now + Replay.duration n unit_ in
    persist ["EXPIREATABS"; arg 1 args; FormatInt (Store.UnixNano expireAt)] ;;;
    let! done := run (fun now => Strings.ExpireAt now (arg 1 args) expireAt) in bool_int done.
Definition exec_EXPIRE : handler := expire_in "EXPIRE" Replay.Second.
Definition exec_PEXPIRE : handler := expire_in "PEXPIRE" Replay.Millisecond.

Definition exec_PEXPIREAT : handler := fun args =>
  exactly 3 "PEXPIREAT" args ;;; ensureOwns [arg 1 args] ;;;
  let! ms := parse_int (arg 2 args) in
  let expireAt := wrap64 (ms * Replay.Millisecond) in
  persist ["EXPIREATABS"; arg 1 args; FormatInt (Store.UnixNano expireAt)] ;;;
  let! done := run (fun now => Strings.ExpireAt now (arg 1 args) expireAt) in bool_int done.

Definition exec_PERSIST : handler := fun args =>
  exactly 2 "PERSIST" args ;;; ensureOwns [arg 1 args] ;;;
  let! done := run (fun now => Strings.Persist now (arg 1 args)) in
  if negb done then reply (WInt 0) else persist ["EXPIREATABS"; arg 1 args; "0"] ;;; reply (WInt 1).

(** TTL, PTTL, EXPIRETIME, PEXPIRETIME *)
Definition key_number (cmd : string) (f : Z -> string -> Store.Store -> Z) : handler := fun args =>
  exactly 2 cmd args ;;; ensureOwns [arg 1 args] ;;;
  let! n := query (fun now => f now (arg 1 args)) in reply (WInt n).
Definition exec_TTL : handler := key_number "TTL" Strings.TTL.
Definition exec_PTTL : handler := key_number "PTTL" Strings.PTTL.
Definition exec_EXPIRETIME : handler := key_number "EXPIRETIME" Strings.ExpireTime.
Definition exec_PEXPIRETIME : handler := key_number "PEXPIRETIME" Strings.PExpireTime.

Definition exec_DBSIZE : handler := fun args =>
  exactly 1 "DBSIZE" args ;;; let! n := query Strings.DBSize in reply (WInt n).

Definition exec_RENAME : handler := fun args =>
  exactly 3 "RENAME" args ;;; ensureOwns [arg 1 args; arg 2 args] ;;;
  persist args ;;;
  check (run (fun now => Strings.Rename now (arg 1 args) (arg 2 args))) ;;; ok.

Definition exec_COPY : handler := fun args =>
  unless ((argc args <? 3) || (argc args >? 5)) (wrongArgs "COPY") ;;;
  ensureOwns [arg 1 args; arg 2 args] ;;;
  let replace := existsb (fun a => EqualFold a "REPLACE") (drop 3 args) in
  let! done := run (fun now => Sets.Copy now (arg 1 args) (arg 2 args) replace) in
  if negb done then reply (WInt 0) else persist args ;;; reply (WInt 1).

(** [aof.Reset] *)
Definition reset_aof : M unit := fun v s =>
  match aof s with
  | None => Ret (Next tt, s, [])
  | Some _ =>
      match fault v with
      | None => Ret (Next tt, with_aof (Some []) s, [])
      | Some (e, reached) => Ret (Stop (Some (EMsg e)), if reached then with_aof (Some []) s else s, [])
      end
  end.

Definition exec_FLUSHDB : handler := fun _ =>
  run (fun _ st => (tt, Lists.FlushDB st)) ;;; reset_aof ;;; ok.

Definition exec_RANDOMKEY : handler := fun args =>
  exactly 1 "RANDOMKEY" args ;;;
  let! order := iteration in
  let! r := query (fun now => Search.RandomKey now [order]) in bulk_or_null r.

Record sort_options := mkSortOptions
  { opt_alpha : bool; opt_desc : bool; opt_offset : Z; opt_count : Z; opt_store : string }.

Fixpoint sort_parse (fuel : nat) (l : list string) (o : sort_options) : M sort_options :=
  match fuel with
  | O => ret o
  | S fuel =>
      match l with
      | [] => ret o
      | a :: l =>
          let name := ToUpper a in
          let '(mkSortOptions al de off cnt dst) := o in
          if (name =? "ALPHA")%string then sort_parse fuel l (mkSortOptions true de off cnt dst)
          else if (name =? "ASC")%string then sort_parse fuel l (mkSortOptions al false off cnt dst)
          else if (name =? "DESC")%string then sort_parse fuel l (mkSortOptions al true off cnt dst)
          else if (name =? "LIMIT")%string then
            match l with
            | x :: y :: l =>
                let! off := atoi x in let! cnt := atoi y in
                sort_parse fuel l (mkSortOptions al de off cnt dst)
            | _ => wrongArgs "SORT"
            end
          else if (name =? "STORE")%string then
            match l with
            | x :: l => sort_parse fuel l (mkSortOptions al de off cnt x)
            | _ => wrongArgs "SORT"
            end
          else fail (EQuoted [("unsupported SORT option ", a)] "")
      end
  end.

(** The fuel is the number of words, of which every step takes at least one. *)
Definition exec_SORT : handler := fun args =>
  at_least 2 "SORT" args ;;; ensureOwns [arg 1 args] ;;;
  let! o := sort_parse (length args) (drop 2 args) (mkSortOptions false false 0 0 "") in
  let dst := opt_store o in
  let to_store := negb (dst =? "")%string in
  (if to_store then ensureOwns [dst] else ret tt) ;;;
  let! order := iteration in
  let! r := check (unpanic (run (fun now =>
              Search.Sort now order (arg 1 args) (opt_alpha o) (opt_desc o) (opt_offset o) (opt_count o) dst))) in
  if to_store then
    (if zlen r >? 0 then persist_quiet ["DEL"; dst] ;;; persist_quiet ("RPUSH"%string :: dst :: r) else ret tt) ;;;
    reply (WInt (zlen r))
  else writeBulkStrings r.

Definition exec_DUMP : handler := fun args =>
  exactly 2 "DUMP" args ;;; ensureOwns [arg 1 args] ;;;
  let! order := iteration in
  let! r := query (fun now => Search.DumpKey now order (arg 1 args)) in bulk_or_null r.

Definition exec_SETDELAYED : handler := fun args =>
  at_least 4 "SETDELAYED" args ;;; ensureOwns [arg 1 args] ;;;
  let! delaySec := parse_int (arg 3 args) in
  let! ttl := (if (argc args >=? 6) && EqualFold (arg 4 args) "EX"
               then let! n := parse_int (arg 5 args) in ret (Replay.duration n Replay.Second) else ret 0) in
  persist args ;;;
  run (fun now st =>
    (tt, Docs.SetDelayed now (arg 1 args) (arg 2 args) (Replay.duration delaySec Replay.Second) ttl st)) ;;; ok.

Definition key_cases : list (string * handler) :=
  [("PING", exec_PING); ("ECHO", exec_ECHO); ("GET", exec_GET); ("MGET", exec_MGET); ("SET", set);
   ("SETNX", exec_SETNX); ("SETEX", exec_SETEX); ("PSETEX", exec_PSETEX); ("MSET", mset);
   ("EXISTS", exec_EXISTS); ("TYPE", exec_TYPE); ("KEYS", exec_KEYS); ("SCAN", scan); ("DEL", exec_DEL);
   ("INCR", exec_INCR); ("INCRBY", exec_INCRBY); ("DECRBY", exec_DECRBY); ("DECR", exec_DECR);
   ("INCRBYFLOAT", exec_INCRBYFLOAT); ("EXPIRE", exec_EXPIRE); ("PEXPIRE", exec_PEXPIRE);
   ("TTL", exec_TTL); ("PTTL", exec_PTTL); ("DUMP", exec_DUMP); ("PERSIST", exec_PERSIST);
   ("PEXPIREAT", exec_PEXPIREAT); ("DBSIZE", exec_DBSIZE); ("RENAME", exec_RENAME);
   ("FLUSHDB", exec_FLUSHDB); ("FLUSHALL", exec_FLUSHDB); ("RANDOMKEY", exec_RANDOMKEY);
   ("STRLEN", exec_STRLEN); ("APPEND", exec_APPEND); ("GETDEL", exec_GETDEL); ("COPY", exec_COPY);
   ("GETSET", exec_GETSET); ("GETEX", exec_GETEX); ("SETRANGE", exec_SETRANGE);
   ("GETRANGE", exec_GETRANGE); ("SUBSTR", exec_SUBSTR); ("MSETNX", exec_MSETNX); ("SORT", exec_SORT);
   ("TOUCH", exec_TOUCH); ("UNLINK", exec_UNLINK); ("EXPIRETIME", exec_EXPIRETIME);
   ("PEXPIRETIME", exec_PEXPIRETIME); ("SETDELAYED", exec_SETDELAYED)].

End Keys.
