(* ===== verification/ServerContainers.v ===== *)
(** * Hash, list, set and sorted-set commands of the server
    (internal/server/server.go)

    The handlers of [exec] for the container types, with [hset], [hdel],
    [hsearch], [listPush], [listPop], [lrange], [sadd], [srem], [zadd],
    [zrange], [zrem] and [blpop].  A blocking pop is its two halves: the part
    before the client sleeps and the part after it was woken. *)
From S2P Require Import Prelude GoLib GoText Deque SortedSet Store StoreStrings StoreHashes StoreSets StoreLists.
From S2P Require Import StoreSearch Replay ServerCore ServerKeys.
From Stdlib Require Import SpecFloat.

Module Containers.
Import Core Text Keys.
Open Scope server_scope.

(** A read command on one key whose store operation may fail. *)
Definition read_key {A} (f : Z -> string -> Store.Store -> result A) (key : string) : M A :=
  check (query (fun now => f now key)).

(** ** Hashes *)

Definition hset : handler := fun args =>
  unless ((argc args <? 4) || negb (argc args mod 2 =? 0)) (wrongArgs "HSET") ;;;
  ensureOwns [arg 1 args] ;;;
  let pairs := Replay.pairs_of (drop 2 args) in
  validate (arg 1 args) pairs ;;;
  expect_type (arg 1 args) "hash" ;;;
  persist ("HSET"%string :: drop 1 args) ;;;
  let! added := check (run (fun now => Hashes.HSet now (arg 1 args) pairs)) in reply (WInt added).

Definition exec_HGET : handler := fun args =>
  exactly 3 "HGET" args ;;; ensureOwns [arg 1 args] ;;;
  let! r := check (query (fun now => Hashes.HGet now (arg 1 args) (arg 2 args))) in found r.

Definition exec_HGETALL : handler := fun args =>
  exactly 2 "HGETALL" args ;;; ensureOwns [arg 1 args] ;;;
  let! pairs := read_key Hashes.HGetAll (arg 1 args) in writeHashPairs pairs.

(** The WHERE and LIMIT clauses of HSEARCH; every step takes at least one word. *)
Fixpoint hsearch_parse (fuel : nat) (l : list string) (conds : list Search.SearchCondition) (offset count : Z)
    : M (list Search.SearchCondition * Z * Z) :=
  match fuel with
  | O => ret (conds, offset, count)
  | S fuel =>
      match l with
      | [] => ret (conds, offset, count)
      | a :: rest =>
          if EqualFold a "LIMIT" then
            match rest with
            | x :: y :: rest =>
                let! offset := atoi x in let! count := atoi y in hsearch_parse fuel rest conds offset count
            | _ => wrongArgs "HSEARCH"
            end
          else if EqualFold a "AND" then hsearch_parse fuel rest conds offset count
          else
            match rest with
            | op :: value :: rest => hsearch_parse fuel rest (conds ++ [Search.mkCond a op value]) offset count
            | _ => wrongArgs "HSEARCH"
            end
      end
  end.

Definition result_wires (r : Search.SearchResult) : list wire :=
  let names := sort_strings (map_to_list (Search.Fields r)).*1 in
  WArray 2 :: WBulk (Search.Key r) :: WArray (2 * zlen names)
  :: concat ((fun f => [WBulk f; WBulk (default "" (Search.Fields r !! f))]) <$> names).

Definition hsearch : handler := fun args =>
  at_least 5 "HSEARCH" args ;;;
  unless (negb (EqualFold (arg 2 args) "WHERE")) (wrongArgs "HSEARCH") ;;;
  let! o := hsearch_parse (length args) (drop 3 args) [] 0 0 in
  let '(conds, offset, count) := o in
  unless (zlen conds =? 0) (wrongArgs "HSEARCH") ;;;
  let! results := query (fun now => Search.HSearch now (arg 1 args) conds offset count) in
  replies (WArray (zlen results) :: concat (result_wires <$> results)).

Definition hdel : handler := fun args =>
  at_least 3 "HDEL" args ;;; ensureOwns [arg 1 args] ;;;
  require_type (arg 1 args) "hash" (WInt 0) ;;;
  persist args ;;;
  let! n := check (run (fun now => Hashes.HDel now (arg 1 args) (drop 2 args))) in reply (WInt n).

Definition exec_HINCRBY : handler := fun args =>
  exactly 4 "HINCRBY" args ;;; ensureOwns [arg 1 args] ;;;
  let! delta := parse_int (arg 3 args) in
  validate (arg 1 args) [(arg 2 args, arg 3 args)] ;;;
  persist args ;;;
  let! n := check (run (fun now => Hashes.HIncrBy now (arg 1 args) (arg 2 args) delta)) in reply (WInt n).

Definition exec_HSETNX : handler := fun args =>
  exactly 4 "HSETNX" args ;;; ensureOwns [arg 1 args] ;;;
  validate (arg 1 args) [(arg 2 args, arg 3 args)] ;;;
  let! done := check (run (fun now => Hashes.HSetNX now (arg 1 args) (arg 2 args) (arg 3 args))) in
  if (done : bool) then persist ["HSET"; arg 1 args; arg 2 args; arg 3 args] ;;; reply (WInt 1) else reply (WInt 0).

Definition exec_HLEN : handler := fun args =>
  exactly 2 "HLEN" args ;;; ensureOwns [arg 1 args] ;;;
  let! n := read_key Hashes.HLen (arg 1 args) in reply (WInt n).

Definition exec_HEXISTS : handler := fun args =>
  exactly 3 "HEXISTS" args ;;; ensureOwns [arg 1 args] ;;;
  let! b := check (query (fun now => Hashes.HExists now (arg 1 args) (arg 2 args))) in bool_int b.

Definition exec_HVALS : handler := fun args =>
  exactly 2 "HVALS" args ;;; ensureOwns [arg 1 args] ;;;
  let! l := read_key Hashes.HVals (arg 1 args) in writeBulkStrings l.

Definition exec_HKEYS : handler := fun args =>
  exactly 2 "HKEYS" args ;;; ensureOwns [arg 1 args] ;;;
  let! l := read_key Hashes.HKeys (arg 1 args) in writeBulkStrings l.

(** The count argument of SRANDMEMBER, HRANDFIELD and SPOP, and their reply:
    one member without a count, an array with one. *)
Definition optional_count (args : Replay.command) : M Z :=
  if argc args =? 3 then atoi (arg 2 args) else ret 1.

Definition one_or_array (args : Replay.command) (l : list string) : M unit :=
  if argc args =? 3 then writeBulkStrings l
  else match l with [] => reply WNull | x :: _ => reply (WBulk x) end.

Definition exec_HRANDFIELD : handler := fun args =>
  unless ((argc args <? 2) || (argc args >? 3)) (wrongArgs "HRANDFIELD") ;;; ensureOwns [arg 1 args] ;;;
  let! count := optional_count args in
  let! order := iteration in let! draws := random in
  let! l := check (unpanic (query (fun now => Search.HRandField now draws order (arg 1 args) count))) in
  one_or_array args l.

(** ** Lists *)

Definition listPush (left : bool) : handler := fun args =>
  unless (argc args <? 3) (wrongArgs (arg 0 args)) ;;; ensureOwns [arg 1 args] ;;;
  expect_type (arg 1 args) "list" ;;;
  persist args ;;;
  let! n := check (run (fun now => (if left then Lists.LPush else Lists.RPush) now (arg 1 args) (drop 2 args))) in
  reply (WInt n).

Definition listPop (left : bool) : handler := fun args =>
  unless (negb (argc args =? 2)) (wrongArgs (arg 0 args)) ;;; ensureOwns [arg 1 args] ;;;
  require_type (arg 1 args) "list" WNull ;;;
  persist args ;;;
  let! r := check (run (fun now => (if left then Lists.LPop else Lists.RPop) now (arg 1 args))) in found r.

(** The keys of BLPOP are all words but the first and the last. *)
Definition blpop_keys (args : Replay.command) : list string := take (length args - 2) (drop 1 args).

(** After the pop: the log, then the reply. *)
Definition blpop_finish (left : bool) (popped : string * string) : M unit :=
  persist_quiet [if left then "LPOP" else "RPOP"; popped.1]%string ;;;
  replies [WArray 2; WBulk popped.1; WBulk popped.2].

(** Up to the point where the client blocks; [Some w] is the waiter it sleeps on. *)
Definition blpop_begin (left : bool) (args : Replay.command) : M (option nat) :=
  unless (argc args <? 3) (wrongArgs (arg 0 args)) ;;;
  let! _ := parse_float (arg (length args - 1) args) in
  ensureOwns (blpop_keys args) ;;;
  let! r := run (fun now => Lists.BPop_start now (blpop_keys args) left) in
  match r with
  | inl popped => blpop_finish left popped ;;; ret None
  | inr w => ret (Some w)
  end.

(** The client was woken by a push. *)
Definition blpop_resume (left : bool) (args : Replay.command) (w : nat) : M unit := fun v s =>
  match Lists.BPop_wake (blpop_keys args) w (store s) with
  | Some (popped, st) => blpop_finish left popped v (with_store st s)
  | None => ret tt v s
  end.

Definition blpop_timeout (args : Replay.command) (w : nat) : M unit :=
  run (fun _ st => (tt, Lists.BPop_timeout (blpop_keys args) w st)) ;;; reply WNullArray.

Definition lrange : handler := fun args =>
  exactly 4 "LRANGE" args ;;; ensureOwns [arg 1 args] ;;;
  let! start := atoi (arg 2 args) in
  let! stop_ := atoi (arg 3 args) in
  let! l := check (query (fun now => Lists.LRange now (arg 1 args) start stop_)) in writeBulkStrings l.

Definition exec_LINDEX : handler := fun args =>
  exactly 3 "LINDEX" args ;;; ensureOwns [arg 1 args] ;;;
  let! index := atoi (arg 2 args) in
  let! r := check (query (fun now => Lists.LIndex now (arg 1 args) index)) in found r.

Definition exec_LSET : handler := fun args =>
  exactly 4 "LSET" args ;;; ensureOwns [arg 1 args] ;;;
  let! index := atoi (arg 2 args) in
  persist args ;;;
  check (run (fun now => Lists.LSet now (arg 1 args) index (arg 3 args))) ;;; ok.

Definition exec_LINSERT : handler := fun args =>
  exactly 5 "LINSERT" args ;;; ensureOwns [arg 1 args] ;;;
  let before := EqualFold (arg 2 args) "BEFORE" in
  unless (negb before && negb (EqualFold (arg 2 args) "AFTER")) (wrongArgs "LINSERT") ;;;
  persist args ;;;
  let! n := check (run (fun now => Lists.LInsert now (arg 1 args) before (arg 3 args) (arg 4 args))) in
  reply (WInt n).

Definition exec_LPOS : handler := fun args =>
  exactly 3 "LPOS" args ;;; ensureOwns [arg 1 args] ;;;
  let! r := check (query (fun now => Lists.LPos now (arg 1 args) (arg 2 args))) in
  if r.2 then reply (WInt r.1) else reply WNull.

Definition exec_LREM : handler := fun args =>
  exactly 4 "LREM" args ;;; ensureOwns [arg 1 args] ;;;
  let! count := atoi (arg 2 args) in
  persist args ;;;
  let! n := check (run (fun now => Lists.LRem now (arg 1 args) count (arg 3 args))) in reply (WInt n).

Definition exec_LLEN : handler := fun args =>
  exactly 2 "LLEN" args ;;; ensureOwns [arg 1 args] ;;;
  let! n := read_key Lists.LLen (arg 1 args) in reply (WInt n).

(** The pop and the push RPOPLPUSH and LMOVE log. *)
Definition move_list (srcLeft dstLeft : bool) (args : Replay.command) : M unit :=
  let! r := check (run (fun now => Lists.LMove now (arg 1 args) (arg 2 args) srcLeft dstLeft)) in
  if negb r.2 then reply WNull
  else
    persist_quiet [if srcLeft then "LPOP" else "RPOP"; arg 1 args]%string ;;;
    persist_quiet [if dstLeft then "LPUSH" else "RPUSH"; arg 2 args; r.1]%string ;;;
    reply (WBulk r.1).

Definition exec_RPOPLPUSH : handler := fun args =>
  exactly 3 "RPOPLPUSH" args ;;; ensureOwns [arg 1 args; arg 2 args] ;;; move_list false true args.

Definition exec_LMOVE : handler := fun args =>
  exactly 5 "LMOVE" args ;;; ensureOwns [arg 1 args; arg 2 args] ;;;
  let srcLeft := EqualFold (arg 3 args) "LEFT" in
  let dstLeft := EqualFold (arg 4 args) "LEFT" in
  unless (negb srcLeft && negb (EqualFold (arg 3 args) "RIGHT")) (wrongArgs "LMOVE") ;;;
  unless (negb dstLeft && negb (EqualFold (arg 4 args) "RIGHT")) (wrongArgs "LMOVE") ;;;
  move_list srcLeft dstLeft args.

(** ** Sets *)

Definition sadd : handler := fun args =>
  at_least 3 "SADD" args ;;; ensureOwns [arg 1 args] ;;;
  expect_type (arg 1 args) "set" ;;;
  persist args ;;;
  let! n := check (run (fun now => Sets.SAdd now (arg 1 args) (drop 2 args))) in reply (WInt n).

Definition srem : handler := fun args =>
  at_least 3 "SREM" args ;;; ensureOwns [arg 1 args] ;;;
  require_type (arg 1 args) "set" (WInt 0) ;;;
  persist args ;;;
  let! n := check (run (fun now => Sets.SRem now (arg 1 args) (drop 2 args))) in reply (WInt n).

Definition exec_SMEMBERS : handler := fun args =>
  exactly 2 "SMEMBERS" args ;;; ensureOwns [arg 1 args] ;;;
  let! l := read_key Sets.SMembers (arg 1 args) in writeBulkStrings l.

Definition exec_SISMEMBER : handler := fun args =>
  exactly 3 "SISMEMBER" args ;;; ensureOwns [arg 1 args] ;;;
  let! b := check (query (fun now => Sets.SIsMember now (arg 1 args) (arg 2 args))) in bool_int b.

Definition exec_SCARD : handler := fun args =>
  exactly 2 "SCARD" args ;;; ensureOwns [arg 1 args] ;;;
  let! n := read_key Sets.SCard (arg 1 args) in reply (WInt n).

Definition exec_SRANDMEMBER : handler := fun args =>
  unless ((argc args <? 2) || (argc args >? 3)) (wrongArgs "SRANDMEMBER") ;;; ensureOwns [arg 1 args] ;;;
  let! count := optional_count args in
  let! order := iteration in let! draws := random in
  let! l := check (unpanic (query (fun now => Search.SRandMember now draws order (arg 1 args) count))) in
  one_or_array args l.

Definition exec_SMOVE : handler := fun args =>
  exactly 4 "SMOVE" args ;;; ensureOwns [arg 1 args] ;;; ensureOwns [arg 2 args] ;;;
  persist args ;;;
  let! b := check (run (fun now => Sets.SMove now (arg 1 args) (arg 2 args) (arg 3 args))) in bool_int b.

Definition exec_SPOP : handler := fun args =>
  unless ((argc args <? 2) || (argc args >? 3)) (wrongArgs "SPOP") ;;; ensureOwns [arg 1 args] ;;;
  let! count := optional_count args in
  let! order := iteration in
  let! l := check (run (fun now => Sets.SPop now (arg 1 args) count order)) in
  (if zlen l >? 0 then persist_quiet ("SREM"%string :: arg 1 args :: l) else ret tt) ;;;
  one_or_array args l.

Definition exec_SINTER : handler := fun args =>
  at_least 2 "SINTER" args ;;; ensureOwns (drop 1 args) ;;;
  let! l := check (query (fun now => Sets.SInter now (drop 1 args))) in writeBulkStrings l.

Definition exec_SUNION : handler := fun args =>
  at_least 2 "SUNION" args ;;; ensureOwns (drop 1 args) ;;;
  let! l := check (query (fun now => Sets.SUnion now (drop 1 args))) in writeBulkStrings l.

Definition exec_SDIFF : handler := fun args =>
  at_least 2 "SDIFF" args ;;; ensureOwns (drop 1 args) ;;;
  let! l := check (unpanic (query (fun now => Sets.SDiff now (drop 1 args)))) in writeBulkStrings l.

(** [2+numkeys] wraps around; the slice expression then panics. *)
Definition exec_SINTERCARD : handler := fun args =>
  at_least 3 "SINTERCARD" args ;;;
  let! numkeys := atoi (arg 1 args) in
  let upto := wrap64 (2 + numkeys) in
  unless ((numkeys <? 1) || (argc args <? upto)) (wrongArgs "SINTERCARD") ;;;
  if upto <? 2 then crash
  else
    let keys := take (Z.to_nat (upto - 2)) (drop 2 args) in
    let limit := if (argc args >? upto) && (ToUpper (arg (Z.to_nat upto) args) =? "LIMIT")%string
                    && (argc args >? upto + 1)
                 then (Atoi (arg (Z.to_nat (upto + 1)) args)).1 else 0 in
    ensureOwns keys ;;;
    let! l := check (query (fun now => Sets.SInter now keys)) in
    reply (WInt (if (limit >? 0) && (zlen l >? limit) then limit else zlen l)).

(** The common tail of SINTERSTORE, SUNIONSTORE and SDIFFSTORE: two store
    operations, each atomic, then two log records. *)
Definition store_set (dest : string) (members : list string) : M unit :=
  run (fun now => Strings.Del now [dest] 0) ;;;
  (if zlen members >? 0 then run (fun now => Sets.SAdd now dest members) ;;; ret tt else ret tt) ;;;
  persist_quiet ["DEL"; dest] ;;;
  (if zlen members >? 0 then persist_quiet ("SADD"%string :: dest :: members) else ret tt) ;;;
  reply (WInt (zlen members)).

Definition exec_SINTERSTORE : handler := fun args =>
  at_least 3 "SINTERSTORE" args ;;; ensureOwns (drop 1 args) ;;;
  let! l := check (query (fun now => Sets.SInter now (drop 2 args))) in store_set (arg 1 args) l.

Definition exec_SUNIONSTORE : handler := fun args =>
  at_least 3 "SUNIONSTORE" args ;;; ensureOwns (drop 1 args) ;;;
  let! l := check (query (fun now => Sets.SUnion now (drop 2 args))) in store_set (arg 1 args) l.

Definition exec_SDIFFSTORE : handler := fun args =>
  at_least 3 "SDIFFSTORE" args ;;; ensureOwns (drop 1 args) ;;;
  let! l := check (unpanic (query (fun now => Sets.SDiff now (drop 2 args)))) in store_set (arg 1 args) l.

(** ** Sorted sets *)

Fixpoint zadd_parse (l : list string) : M (list SortedSet.ZMember) :=
  match l with
  | score :: member :: l =>
      let! x := parse_float score in
      let! rest := zadd_parse l in ret (SortedSet.mkZ member x :: rest)
  | _ => ret []
  end.

Definition zadd : handler := fun args =>
  unless ((argc args <? 4) || negb (argc args mod 2 =? 0)) (wrongArgs "ZADD") ;;;
  ensureOwns [arg 1 args] ;;;
  let! members := zadd_parse (drop 2 args) in
  expect_type (arg 1 args) "zset" ;;;
  persist args ;;;
  let! n := check (run (fun now => Sets.ZAdd now (arg 1 args) members)) in reply (WInt n).

Definition writeMembers (withScores : bool) (items : list SortedSet.ZMember) : M unit :=
  if withScores then
    replies (WArray (2 * zlen items)
             :: concat ((fun m => [WBulk (SortedSet.Member m); WBulk (formatScore (SortedSet.Score m))]) <$> items))
  else writeBulkStrings (SortedSet.Member <$> items).

(** ZRANGE and ZREVRANGE *)
Definition zrange_with (cmd : string)
    (f : Z -> string -> Z -> Z -> Store.Store -> result (list SortedSet.ZMember)) : handler := fun args =>
  unless (negb (argc args =? 4) && negb (argc args =? 5)) (wrongArgs cmd) ;;; ensureOwns [arg 1 args] ;;;
  let! start := atoi (arg 2 args) in
  let! stop_ := atoi (arg 3 args) in
  unless ((argc args =? 5) && negb (EqualFold (arg 4 args) "WITHSCORES")) (wrongArgs cmd) ;;;
  let! items := check (query (fun now => f now (arg 1 args) start stop_)) in
  writeMembers (argc args =? 5) items.
Definition zrange : handler := zrange_with "ZRANGE" Sets.ZRange.
Definition exec_ZREVRANGE : handler := zrange_with "ZREVRANGE" Sets.ZRevRange.

Definition zrem : handler := fun args =>
  at_least 3 "ZREM" args ;;; ensureOwns [arg 1 args] ;;;
  require_type (arg 1 args) "zset" (WInt 0) ;;;
  persist args ;;;
  let! n := check (run (fun now => Sets.ZRem now (arg 1 args) (drop 2 args))) in reply (WInt n).

Definition exec_ZSCORE : handler := fun args =>
  exactly 3 "ZSCORE" args ;;; ensureOwns [arg 1 args] ;;;
  let! r := check (query (fun now => Sets.ZScore now (arg 1 args) (arg 2 args))) in
  bulk_or_null (formatScore <$> r).

Definition exec_ZCARD : handler := fun args =>
  exactly 2 "ZCARD" args ;;; ensureOwns [arg 1 args] ;;;
  let! n := read_key Sets.ZCard (arg 1 args) in reply (WInt n).

(** ZRANK and ZREVRANK *)
Definition rank_with (cmd : string) (f : Z -> string -> string -> Store.Store -> result (option Z)) : handler :=
  fun args =>
  exactly 3 cmd args ;;; ensureOwns [arg 1 args] ;;;
  let! r := check (query (fun now => f now (arg 1 args) (arg 2 args))) in
  match r with Some n => reply (WInt n) | None => reply WNull end.
Definition exec_ZRANK : handler := rank_with "ZRANK" Sets.ZRank.
Definition exec_ZREVRANK : handler := rank_with "ZREVRANK" Sets.ZRevRank.

(** [math.Nextafter] towards an infinity *)
Definition next_up (x : float64) : float64 := SFsucc 53 1024 x.
Definition next_down (x : float64) : float64 := SFpred 53 1024 x.

(** One end of a score range: the word for infinity, or a number that an open
    parenthesis excludes. *)
Definition score_bound (text infinite : string) (dflt : float64) (next : float64 -> float64) : M float64 :=
  if (text =? infinite)%string then ret dflt
  else
    let '(exclusive, text) := match text with String "(" t => (true, t) | _ => (false, text) end in
    let! v := parse_float text in ret (if exclusive : bool then next v else v).

Definition parseScoreRange (minStr maxStr : string) : M (float64 * float64) :=
  let! min := score_bound minStr "-inf" (finf true) next_up in
  let! max := score_bound maxStr "+inf" (finf false) next_down in
  ret (min, max).

(** WITHSCORES and LIMIT of ZRANGEBYSCORE (and LIMIT of ZRANGEBYLEX); other
    words are skipped. *)
Fixpoint range_options (fuel : nat) (cmd : string) (l : list string) (withScores : bool) (offset count : Z)
    : M (bool * Z * Z) :=
  match fuel with
  | O => ret (withScores, offset, count)
  | S fuel =>
      match l with
      | [] => ret (withScores, offset, count)
      | a :: l =>
          let name := ToUpper a in
          if (name =? "WITHSCORES")%string then range_options fuel cmd l true offset count
          else if (name =? "LIMIT")%string then
            match l with
            | x :: y :: l =>
                let! offset := atoi x in let! count := atoi y in range_options fuel cmd l withScores offset count
            | _ => wrongArgs cmd
            end
          else range_options fuel cmd l withScores offset count
      end
  end.

Definition exec_ZRANGEBYSCORE : handler := fun args =>
  at_least 4 "ZRANGEBYSCORE" args ;;; ensureOwns [arg 1 args] ;;;
  let! r := parseScoreRange (arg 2 args) (arg 3 args) in
  let! o := range_options (length args) "ZRANGEBYSCORE" (drop 4 args) false 0 0 in
  let '(withScores, offset, count) := o in
  let! items := check (query (fun now => Sets.ZRangeByScore now (arg 1 args) r.1 r.2 offset count)) in
  writeMembers withScores items.

Definition exec_ZRANGEBYLEX : handler := fun args =>
  at_least 4 "ZRANGEBYLEX" args ;;; ensureOwns [arg 1 args] ;;;
  let! o := range_options (length args) "ZRANGEBYLEX" (drop 4 args) false 0 0 in
  let '(_, offset, count) := o in
  let! items := check (query (fun now => Sets.ZRangeByLex now (arg 1 args) (arg 2 args) (arg 3 args) offset count)) in
  writeMembers false items.

Definition exec_ZCOUNT : handler := fun args =>
  exactly 4 "ZCOUNT" args ;;; ensureOwns [arg 1 args] ;;;
  let! r := parseScoreRange (arg 2 args) (arg 3 args) in
  let! n := check (query (fun now => Sets.ZCount now (arg 1 args) r.1 r.2)) in reply (WInt n).

(** ZPOPMIN and ZPOPMAX *)
Definition zpop_with (cmd : string)
    (f : Z -> string -> Z -> Store.Store -> result (list SortedSet.ZMember) * Store.Store) : handler := fun args =>
  unless ((argc args <? 2) || (argc args >? 3)) (wrongArgs cmd) ;;; ensureOwns [arg 1 args] ;;;
  let! count := optional_count args in
  let! items := check (run (fun now => f now (arg 1 args) count)) in
  (if zlen items >? 0 then persist_quiet ("ZREM"%string :: arg 1 args :: (SortedSet.Member <$> items)) else ret tt) ;;;
  writeMembers true items.
Definition exec_ZPOPMIN : handler := zpop_with "ZPOPMIN" Sets.ZPopMin.
Definition exec_ZPOPMAX : handler := zpop_with "ZPOPMAX" Sets.ZPopMax.

Definition exec_ZINCRBY : handler := fun args =>
  exactly 4 "ZINCRBY" args ;;; ensureOwns [arg 1 args] ;;;
  let! incr := parse_float (arg 2 args) in
  let! x := check (run (fun now => Sets.ZIncrBy now (arg 1 args) incr (arg 3 args))) in
  persist_quiet ["ZADD"; arg 1 args; formatScore x; arg 3 args] ;;;
  reply (WBulk (formatScore x)).

Definition container_cases : list (string * handler) :=
  [("HSET", hset); ("HGET", exec_HGET); ("HGETALL", exec_HGETALL); ("HSEARCH", hsearch); ("HDEL", hdel);
   ("HINCRBY", exec_HINCRBY); ("HSETNX", exec_HSETNX); ("LPUSH", listPush true);
   ("RPUSH", listPush false); ("LPOP", listPop true); ("RPOP", listPop false);
   ("LRANGE", lrange); ("LINDEX", exec_LINDEX); ("LSET", exec_LSET); ("LINSERT", exec_LINSERT);
   ("LPOS", exec_LPOS); ("LREM", exec_LREM); ("SADD", sadd); ("SREM", srem); ("SMEMBERS", exec_SMEMBERS);
   ("SISMEMBER", exec_SISMEMBER); ("SCARD", exec_SCARD); ("SRANDMEMBER", exec_SRANDMEMBER);
   ("SMOVE", exec_SMOVE); ("SPOP", exec_SPOP); ("ZADD", zadd); ("ZRANGE", zrange); ("ZREM", zrem);
   ("ZSCORE", exec_ZSCORE); ("ZCARD", exec_ZCARD); ("LLEN", exec_LLEN); ("HLEN", exec_HLEN);
   ("HEXISTS", exec_HEXISTS); ("SINTER", exec_SINTER); ("SUNION", exec_SUNION); ("SDIFF", exec_SDIFF);
   ("ZRANGEBYSCORE", exec_ZRANGEBYSCORE); ("ZREVRANGE", exec_ZREVRANGE); ("ZRANK", exec_ZRANK);
   ("ZREVRANK", exec_ZREVRANK); ("ZCOUNT", exec_ZCOUNT); ("ZPOPMIN", exec_ZPOPMIN);
   ("ZPOPMAX", exec_ZPOPMAX); ("ZINCRBY", exec_ZINCRBY); ("ZRANGEBYLEX", exec_ZRANGEBYLEX);
   ("SINTERCARD", exec_SINTERCARD); ("SINTERSTORE", exec_SINTERSTORE); ("SUNIONSTORE", exec_SUNIONSTORE);
   ("SDIFFSTORE", exec_SDIFFSTORE); ("HVALS", exec_HVALS); ("HKEYS", exec_HKEYS);
   ("HRANDFIELD", exec_HRANDFIELD); ("RPOPLPUSH", exec_RPOPLPUSH); ("LMOVE", exec_LMOVE)].

End Containers.
