(* ===== verification/ServerRules.v ===== *)
(** * Symbolic execution of handlers

    The rules of [runs] ([ServerCore]) for the operations handlers are built
    from, collected in the tactic [step]. *)
From S2P Require Import Prelude GoLib GoText Schema Replay ServerCore ServerKeys ServerContainers.

Module Rules.
Import Core Keys Containers Text.
Open Scope server_scope.

Lemma runs_validate key pairs v s K :
  K (Next tt) s -> (forall e, K (Stop (Some e)) s) -> runs (validate key pairs) v s K.
Proof. intros H1 H2. unfold runs, validate. destruct (Schema.Schema.Validate _ _ _ _); [apply H2|apply H1]. Qed.

Lemma runs_count_hit hit v s K :
  (forall h m, K (Next tt) (mkServer (store s) (cluster s) (aof s) (schemas s) h m)) -> runs (count_hit hit) v s K.
Proof. intros H. apply H. Qed.

(** Symbolic execution of a handler: one rule per step, and the two ways it
    can end. *)
Ltac step :=
  match goal with
  | |- runs (bind _ _) _ _ _ => apply runs_bind
  | |- runs (check _) _ _ _ => apply runs_check
  | |- runs (check_doc _) _ _ _ => apply runs_check_doc
  | |- runs (unpanic _) _ _ _ => apply runs_unpanic
  | |- runs (ensureOwns _) _ _ _ => apply runs_owns
  | |- runs (unless _ _) _ _ _ => apply runs_unless; intros
  | |- runs (exactly _ _ _) _ _ _ => unfold exactly
  | |- runs (at_least _ _ _) _ _ _ => unfold at_least
  | |- runs (wrongArgs _) _ _ _ => apply runs_wrongArgs; intros
  | |- runs (reply _) _ _ _ => apply runs_reply
  | |- runs (replies _) _ _ _ => apply runs_replies
  | |- runs ok _ _ _ => unfold ok
  | |- runs (found _) _ _ _ => unfold found, bulk_or_null
  | |- runs (bulk_or_null _) _ _ _ => unfold bulk_or_null
  | |- runs (bool_int _) _ _ _ => unfold bool_int
  | |- runs (fail _) _ _ _ => apply runs_fail
  | |- runs stop _ _ _ => apply runs_stop
  | |- runs (ret _) _ _ _ => apply runs_ret
  | |- runs clock _ _ _ => apply runs_clock
  | |- runs iteration _ _ _ => apply runs_iteration
  | |- runs random _ _ _ => apply runs_random
  | |- runs (parse_int _) _ _ _ => apply runs_parse_int; intros
  | |- runs (atoi _) _ _ _ => apply runs_atoi; intros
  | |- runs (parse_float _) _ _ _ => apply runs_parse_float; intros
  | |- runs (query _) _ _ _ => apply runs_query
  | |- runs (run _) _ _ _ => apply runs_run
  | |- runs (persist _) _ _ _ => eapply runs_persist; [eassumption|eassumption|]
  | |- runs (persist_quiet _) _ _ _ => eapply runs_persist_quiet; [eassumption|eassumption|]
  | |- runs (writeBulkStrings _) _ _ _ => unfold writeBulkStrings
  | |- runs (writeHashPairs _) _ _ _ => unfold writeHashPairs
  | |- runs (expect_type _ _) _ _ _ => unfold expect_type
  | |- runs (require_type _ _ _) _ _ _ => unfold require_type
  | |- runs (count_hit _) _ _ _ => apply runs_count_hit; intros
  | |- runs (validate _ _) _ _ _ => apply runs_validate; intros
  | |- runs (if ?b then _ else _) _ _ _ => destruct b eqn:?
  | |- runs (match ?x with _ => _ end) _ _ _ => destruct x eqn:?
  | |- match ?x with Ok _ => _ | Err _ => _ end => destruct x eqn:?
  end.

Ltac steps := repeat (step; cbv beta iota).

Lemma runs_set_parse l o v s K :
  (forall o', opt_delay o' = opt_delay o \/ In "AFTER" (ToUpper <$> l) -> K (Next o') s) ->
  (forall e, K (Stop e) s) -> runs (set_parse l o) v s K.
Proof.
  revert l o K. fix IH 1. intros [|a l] o K H1 H2; cbn [set_parse].
  { step. apply H1. by left. }
  assert (forall k, (forall n, opt_delay (k n) = opt_delay o) \/ ToUpper a = "AFTER" ->
    runs match l with [] => wrongArgs "SET" | n :: l => let! n := parse_int n in set_parse l (k n) end v s K) as Hnum.
  { intros k Hk. destruct l as [|n l]; [step; auto|]. step. step; [|auto]. apply IH; [|done].
    intros o' Ho. apply H1. cbn. destruct Ho as [Ho|Ho]; [|by right; right; right].
    destruct Hk as [Hk|Hk]; [left; by rewrite Ho|right; by left]. }
  assert (forall o1, opt_delay o1 = opt_delay o -> runs (set_parse l o1) v s K) as Hflag.
  { intros o1 Ho1. apply IH; [|done]. intros o' Ho. apply H1. cbn. rewrite <-Ho1. tauto. }
  cbv zeta beta.
  do 5 (step; [first [by apply Hflag|apply Hnum; first [by left|right; by apply String.eqb_eq]]|]).
  step. apply H2.
Qed.

End Rules.
