(* ===== verification/ServerData.v ===== *)
(** * Bit, stream, queue, rate-limit, document, tag and time-series commands
    of the server (internal/server/server.go)

    The remaining data commands of [exec], with [xadd], [xrange], [xread],
    [xgroup], [xreadgroup] and [xack].  Commands that can block (XREAD,
    XREADGROUP, DEQUEUE) are modelled up to the point where the client
    sleeps.  PFCOUNT and the GEO commands, which compute with package math, are
    in ServerAdmin.v, and TS.DOWNSAMPLE, whose loop need not end, in
    ServerScript.v. *)
From S2P Require Import Prelude GoLib GoText Json TimeSeries Store StoreStrings StoreStreams StoreQueue StoreLimits.
From S2P Require Import StoreBits StoreDocs Schema Replay ServerCore ServerKeys.
From Stdlib Require Import SpecFloat.

Module Data.
Import Core Text Keys.
Open Scope server_scope.

(** ** Sketches and bits *)

Definition exec_PFADD : handler := fun args =>
  at_least 2 "PFADD" args ;;; ensureOwns [arg 1 args] ;;;
  let! changed := check (run (fun now => Docs.PFAdd now (arg 1 args) (drop 2 args))) in
  persist args ;;; bool_int changed.

Definition exec_PFMERGE : handler := fun args =>
  at_least 2 "PFMERGE" args ;;; ensureOwns (drop 1 args) ;;;
  persist args ;;;
  run (fun now st => (tt, Docs.PFMerge now (arg 1 args) (drop 2 args) st)) ;;; ok.

(** The value under the key, with its remaining lifetime when [keep] asks for it. *)
Definition persist_value (keep : bool) (key : string) : M unit :=
  let! v := run (fun now => Strings.Get now key) in
  let! pttl := query (fun now => Strings.PTTL now key) in
  let! now := clock in
  let deadline := if keep && (pttl >? 0)
                  then FormatInt (Store.UnixNano (now + Replay.duration pttl Replay.Millisecond)) else "0"%string in
  persist ["SETABS"; key; v.1; deadline].

Definition exec_SETBIT : handler := fun args =>
  exactly 4 "SETBIT" args ;;; ensureOwns [arg 1 args] ;;;
  let! offset := parse_int (arg 2 args) in
  let! val := atoi (arg 3 args) in
  let! old := check (run (fun now => Bits.SetBit now (arg 1 args) offset val)) in
  persist_value true (arg 1 args) ;;; reply (WInt old).

Definition exec_GETBIT : handler := fun args =>
  exactly 3 "GETBIT" args ;;; ensureOwns [arg 1 args] ;;;
  let! offset := parse_int (arg 2 args) in
  let! b := check (query (fun now => Bits.GetBit now (arg 1 args) offset)) in reply (WInt b).

Definition exec_BITCOUNT : handler := fun args =>
  unless (negb (argc args =? 2) && negb (argc args =? 4)) (wrongArgs "BITCOUNT") ;;; ensureOwns [arg 1 args] ;;;
  let hasBounds := argc args =? 4 in
  let! start := (if hasBounds then atoi (arg 2 args) else ret 0) in
  let! end_ := (if hasBounds then atoi (arg 3 args) else ret 0) in
  let! n := check (query (fun now => Bits.BitCount now (arg 1 args) start end_ hasBounds)) in reply (WInt n).

Definition exec_BITOP : handler := fun args =>
  at_least 4 "BITOP" args ;;; ensureOwns (drop 2 args) ;;;
  let! n := check (run (fun now => Bits.BitOp now (arg 1 args) (arg 2 args) (drop 3 args))) in
  persist_value false (arg 2 args) ;;; reply (WInt n).

Definition exec_BITPOS : handler := fun args =>
  unless ((argc args <? 3) || (argc args >? 5)) (wrongArgs "BITPOS") ;;; ensureOwns [arg 1 args] ;;;
  let! bit := atoi (arg 2 args) in
  let hasBounds := argc args >=? 4 in
  let! start := (if hasBounds then atoi (arg 3 args) else ret 0) in
  let! end_ := (if argc args =? 5 then atoi (arg 4 args) else ret (if hasBounds then -1 else 0)) in
  let! n := check (query (fun now => Bits.BitPos now (arg 1 args) bit start end_ hasBounds)) in reply (WInt n).

(** ** Streams *)

Definition xadd : handler := fun args =>
  at_least 5 "XADD" args ;;; ensureOwns [arg 1 args] ;;;
  let! id := check (run (fun now => Streams.NextStreamID now (arg 1 args) (arg 2 args))) in
  persist ("XADD"%string :: arg 1 args :: id :: drop 3 args) ;;;
  check (run (fun now => Streams.XAddPrepared now (arg 1 args) id (drop 3 args))) ;;; reply (WBulk id).

Definition xrange : handler := fun args =>
  unless (negb (argc args =? 4) && negb (argc args =? 6)) (wrongArgs "XRANGE") ;;; ensureOwns [arg 1 args] ;;;
  let! count := (if argc args =? 6 then
                   unless (negb (ToUpper (arg 4 args) =? "COUNT")%string) (wrongArgs "XRANGE") ;;; atoi (arg 5 args)
                 else ret 0) in
  let! l := query (fun now => Streams.XRange now (arg 1 args) (arg 2 args) (arg 3 args) count) in writeEntries l.

Definition exec_XLEN : handler := fun args =>
  exactly 2 "XLEN" args ;;; ensureOwns [arg 1 args] ;;;
  let! n := check (query (fun now => Streams.XLen now (arg 1 args))) in reply (WInt n).

(** [store.SortStreamNames], [writeStreamReadResults] *)
Definition stream_names (results : gmap string (list Store.StreamEntry)) : list string :=
  sort_strings (map_to_list results).*1.

Definition writeStreamReadResults (results : gmap string (list Store.StreamEntry)) : M unit :=
  let names := stream_names results in
  replies (WArray (zlen names) :: concat ((fun name =>
    let l := default [] (results !! name) in
    [WArray 2; WBulk name; WArray (zlen l)] ++ concat (entry_wires <$> l)) <$> names)).

(** The words after STREAMS: stream names, then as many identifiers. *)
Definition split_streams (cmd : string) (parts : list string) : M (list string * list string) :=
  unless ((zlen parts =? 0) || negb (zlen parts mod 2 =? 0)) (wrongArgs cmd) ;;;
  let half := Nat.div (length parts) 2 in ret (take half parts, drop half parts).

(** XREAD without waiting: [None] when it would block for the given time. *)
Definition xread_now (streams ids : list string) (block : Z) : M (option (list string * list string * Z)) :=
  let! results := query (fun now => Streams.XRead now (zip streams ids)) in
  if bool_decide (results = ∅) then
    if block >=? 0 then ret (Some (streams, ids, block)) else reply WNullArray ;;; ret None
  else writeStreamReadResults results ;;; ret None.

Definition xread (args : Replay.command) : M (option (list string * list string * Z)) :=
  let! r := (if (ToUpper (arg 1 args) =? "BLOCK")%string then
               unless (argc args <=? 2) (wrongArgs "XREAD") ;;;
               let! ms := parse_int (arg 2 args) in ret (Replay.duration ms Replay.Millisecond, drop 3 args)
             else ret (-1, drop 1 args)) in
  let '(block, rest) := r in
  match rest with
  | [] => wrongArgs "XREAD"
  | word :: parts =>
      unless (negb (ToUpper word =? "STREAMS")%string) (wrongArgs "XREAD") ;;;
      let! p := split_streams "XREAD" parts in
      let streams := p.1 in
      ensureOwns streams ;;;
      let! ids := query (fun now st =>
        zip_with (fun stream id => if (id =? "$")%string then Streams.LastID now stream st else id) streams p.2) in
      xread_now streams ids block
  end.

Definition xgroup : handler := fun args =>
  unless (negb (argc args =? 5) && negb (argc args =? 6)) (wrongArgs "XGROUP") ;;;
  unless (negb (EqualFold (arg 1 args) "CREATE")) (fail (EQuoted [("unsupported XGROUP subcommand ", arg 1 args)] "")) ;;;
  unless ((argc args =? 6) && negb (EqualFold (arg 5 args) "MKSTREAM")) (wrongArgs "XGROUP") ;;;
  let mkstream := argc args =? 6 in
  ensureOwns [arg 2 args] ;;;
  let! typ := query (fun now => Strings.Type_ now (arg 2 args)) in
  unless (negb (typ =? "none")%string && negb (typ =? "stream")%string) (fail (EMsg "wrong type")) ;;;
  unless ((typ =? "none")%string && negb mkstream) (fail (EMsg "stream does not exist")) ;;;
  let! exists_ := query (fun now => Streams.XGroupExists now (arg 2 args) (arg 3 args)) in
  unless exists_ (fail (EMsg "consumer group already exists")) ;;;
  persist args ;;;
  check (run (fun now => Streams.XGroupCreate now (arg 2 args) (arg 3 args) (arg 4 args) mkstream)) ;;; ok.

(** COUNT and BLOCK before STREAMS; the rest are the words after it. *)
Fixpoint readgroup_options (l : list string) (count block : Z) : M (Z * Z * list string) :=
  match l with
  | [] => wrongArgs "XREADGROUP"
  | a :: rest =>
      if EqualFold a "STREAMS" then ret (count, block, rest)
      else
        match rest with
        | [] => wrongArgs "XREADGROUP"
        | n :: rest =>
            if (ToUpper a =? "COUNT")%string then let! n := atoi n in readgroup_options rest n block
            else if (ToUpper a =? "BLOCK")%string then
              let! ms := parse_int n in readgroup_options rest count (Replay.duration ms Replay.Millisecond)
            else fail (EQuoted [("unsupported XREADGROUP option ", a)] "")
        end
  end.

(** One delivery record and one delivery per stream, in the order of the names. *)
Fixpoint deliver_all (group consumer : string) (results : gmap string (list Store.StreamEntry))
    (names : list string) : M unit :=
  match names with
  | [] => ret tt
  | stream :: names =>
      let ids := Store.ID <$> default [] (results !! stream) in
      let! now := clock in
      persist (["XGROUPDELIVER"; stream; group; consumer; FormatInt (Store.UnixNano now)] ++ ids) ;;;
      check (run (fun now => Streams.XGroupDeliver now stream group consumer ids now)) ;;;
      deliver_all group consumer results names
  end.

(** XREADGROUP up to a wait; [Some block] when it would wait. *)
Definition xreadgroup (args : Replay.command) : M (option Z) :=
  unless ((argc args <? 7) || negb (EqualFold (arg 1 args) "GROUP")) (wrongArgs "XREADGROUP") ;;;
  let! o := readgroup_options (drop 4 args) 10 (-1) in
  let '(count, block, parts) := o in
  let! p := split_streams "XREADGROUP" parts in
  ensureOwns p.1 ;;;
  let! results := check (query (fun now =>
                    Streams.XReadGroupPlan now (arg 2 args) (arg 3 args) (zip p.1 p.2) count)) in
  if bool_decide (results = ∅) then
    if block >=? 0 then ret (Some block) else reply WNullArray ;;; ret None
  else
    deliver_all (arg 2 args) (arg 3 args) results (stream_names results) ;;;
    writeStreamReadResults results ;;; ret None.

Definition xack : handler := fun args =>
  at_least 4 "XACK" args ;;; ensureOwns [arg 1 args] ;;;
  let! exists_ := query (fun now => Streams.XGroupExists now (arg 1 args) (arg 2 args)) in
  unless (negb exists_) (fail (EMsg "consumer group does not exist")) ;;;
  persist args ;;;
  let! n := check (run (fun now => Streams.XAck now (arg 1 args) (arg 2 args) (drop 3 args))) in reply (WInt n).

Definition info_groups (l : list (string * Z * Z * string)) : list wire :=
  WArray (zlen l) :: concat ((fun g => let '(name, consumers, pending, last) := g in
    [WArray 8; WBulk "name"; WBulk name; WBulk "consumers"; WInt consumers; WBulk "pending"; WInt pending;
     WBulk "last-delivered-id"; WBulk last]) <$> l).

Definition exec_XINFO : handler := fun args =>
  at_least 3 "XINFO" args ;;; ensureOwns [arg 2 args] ;;;
  let sub := ToUpper (arg 1 args) in
  if (sub =? "STREAM")%string then
    let! r := query (fun _ => Streams.XInfoStream (arg 2 args)) in
    let '(length_, firstID, lastID, groups, exists_) := r in
    unless (negb exists_ && (length_ =? 0)) (fail (EMsg "ERR no such key")) ;;;
    replies [WArray 14; WBulk "length"; WInt length_; WBulk "radix-tree-keys"; WInt 0;
             WBulk "radix-tree-nodes"; WInt 0; WBulk "last-generated-id"; WBulk lastID;
             WBulk "groups"; WInt groups; WBulk "first-entry";
             if length_ >? 0 then WBulk firstID else WNull; WBulk "last-entry";
             if length_ >? 0 then WBulk lastID else WNull]
  else if (sub =? "GROUPS")%string then
    let! order := iteration in
    let! l := query (fun _ => Streams.XInfoGroups order (arg 2 args)) in replies (info_groups l)
  else fail (EQuoted [("unsupported XINFO subcommand ", arg 1 args)] "").

Definition exec_XCLAIM : handler := fun args =>
  at_least 6 "XCLAIM" args ;;; ensureOwns [arg 1 args] ;;;
  let! minIdle := parse_int (arg 4 args) in
  let! l := check (run (fun now =>
              Streams.XClaim now (arg 1 args) (arg 2 args) (arg 3 args) minIdle (drop 5 args))) in
  writeEntries l.

(** Every word COUNT with a word after it sets the count. *)
Fixpoint autoclaim_count (l : list string) (count : Z) : M Z :=
  match l with
  | a :: (n :: _) as rest =>
      if EqualFold a "COUNT" then let! n := atoi n in autoclaim_count rest n else autoclaim_count rest count
  | _ => ret count
  end.

Definition exec_XAUTOCLAIM : handler := fun args =>
  at_least 6 "XAUTOCLAIM" args ;;; ensureOwns [arg 1 args] ;;;
  let! minIdle := parse_int (arg 4 args) in
  let! count := autoclaim_count (drop 6 args) 100 in
  let! order := iteration in
  let! r := run (fun now st =>
    let '(next, res, st) := Streams.XAutoClaim now order (arg 1 args) (arg 2 args) (arg 3 args) minIdle
                              (arg 5 args) count st in ((next, res), st)) in
  let! l := check (ret r.2) in
  replies [WArray 3; WBulk r.1] ;;; writeEntries l ;;; reply (WArray 0).

Definition exec_XPENDING : handler := fun args =>
  at_least 3 "XPENDING" args ;;; ensureOwns [arg 1 args] ;;;
  let! order := iteration in
  let! r := query (fun _ => Streams.XPendingSummary order (arg 1 args) (arg 2 args)) in
  let '(total, minID, maxID, consumers) := r in
  if total =? 0 then replies [WArray 4; WInt 0; WNull; WNull; WArray 0]
  else
    replies [WArray 4; WInt total; WBulk minID; WBulk maxID; WArray (Z.of_nat (size consumers))] ;;;
    replies (concat ((fun c : string * Z => [WArray 2; WBulk c.1; WBulk (FormatInt c.2)]) <$> map_to_list consumers)).

(** The threshold of XTRIM: an optional [~] before and after MAXLEN. *)
Definition xtrim_threshold (args : Replay.command) : M string :=
  let l := drop 2 args in
  let l := match l with a :: l' => if (a =? "~")%string then l' else l | [] => l end in
  match l with
  | a :: l =>
      unless (negb (EqualFold a "MAXLEN")) (wrongArgs "XTRIM") ;;;
      match l with
      | [] => wrongArgs "XTRIM"
      | a :: l => if (a =? "~")%string then match l with b :: _ => ret b | [] => wrongArgs "XTRIM" end else ret a
      end
  | [] => wrongArgs "XTRIM"
  end.

Definition exec_XTRIM : handler := fun args =>
  at_least 4 "XTRIM" args ;;; ensureOwns [arg 1 args] ;;;
  let! text := xtrim_threshold args in
  let! maxLen := atoi text in
  let! n := check (unpanic (run (fun now => Streams.XTrim now (arg 1 args) maxLen))) in reply (WInt n).

(** ** Rate limits and queues *)

Definition exec_RATELIMIT : handler := fun args =>
  exactly 4 "RATELIMIT" args ;;; ensureOwns [arg 1 args] ;;;
  let! max := parse_int (arg 2 args) in
  let! windowSec := parse_int (arg 3 args) in
  let! v := unpanic (run (fun now => Limits.RateLimit now (arg 1 args) max (Replay.duration windowSec Replay.Second))) in
  replies [WArray 4; WInt (if Limits.v_allowed v then 1 else 0); WInt (Limits.v_remaining v);
           WInt (Limits.v_retryAfterMs v); WInt (Limits.v_resetAtMs v)].

Definition exec_RATELIMIT_PEEK : handler := fun args =>
  exactly 2 "RATELIMIT.PEEK" args ;;; ensureOwns [arg 1 args] ;;;
  let! r := query (fun now => Limits.RateLimitPeek now (arg 1 args)) in
  replies [WArray 2; WInt r.1; WInt r.2].

Definition exec_RATELIMIT_RESET : handler := fun args =>
  exactly 2 "RATELIMIT.RESET" args ;;; ensureOwns [arg 1 args] ;;;
  let! b := run (fun _ => Limits.RateLimitReset (arg 1 args)) in bool_int b.

Definition exec_ENQUEUE : handler := fun args =>
  at_least 3 "ENQUEUE" args ;;; ensureOwns [arg 1 args] ;;;
  let! delay := (if (argc args >=? 5) && EqualFold (arg 3 args) "DELAY"
                 then let! n := parse_int (arg 4 args) in ret (Replay.duration n Replay.Second) else ret 0) in
  let! id := run (fun now => Queues.Enqueue now (arg 1 args) (arg 2 args) delay) in
  persist args ;;; reply (WBulk id).

(** [time.Duration(n * float64(time.Second))]: truncation towards zero, and
    the least [int64] outside its range. *)
Definition f_to_int64 (x : float64) : Z :=
  match x with
  | S754_finite neg m e =>
      let z := if 0 <=? e then Z.pos m * 2 ^ e else Z.pos m / 2 ^ (- e) in
      let z := if neg then - z else z in
      if (int64_min <=? z) && (z <=? int64_max) then z else int64_min
  | S754_zero _ => 0
  | _ => int64_min
  end.
Definition seconds (n : float64) : Z := f_to_int64 (fmul n (f_of_Z Replay.Second)).

Definition message_wires (m : Store.QueueMessage) : list wire :=
  [WArray 3; WBulk (Store.MsgID m); WBulk (Store.Body m); WInt (Store.Retries m)].

(** DEQUEUE up to a wait; the answer is the waiter when it blocks. *)
Definition dequeue (args : Replay.command) : M (option nat) :=
  at_least 2 "DEQUEUE" args ;;; ensureOwns [arg 1 args] ;;;
  let! timeout := (if (argc args >=? 4) && EqualFold (arg 2 args) "TIMEOUT"
                   then let! n := parse_float (arg 3 args) in ret (seconds n) else ret 0) in
  let! order := iteration in
  let! r := run (fun now => Queues.Dequeue_start now order (arg 1 args) timeout) in
  match r with
  | Queues.DMessage m => replies (message_wires m) ;;; ret None
  | Queues.DNone => reply WNullArray ;;; ret None
  | Queues.DBlocked w => ret (Some w)
  end.

(** QACK and QNACK *)
Definition settle (cmd : string) (op : Z -> string -> string -> Store.Store -> bool * Store.Store) : handler :=
  fun args =>
  exactly 3 cmd args ;;; ensureOwns [arg 1 args] ;;;
  persist args ;;;
  let! b := run (fun now => op now (arg 1 args) (arg 2 args)) in bool_int b.
Definition exec_QACK : handler := settle "QACK" Queues.QAck.
Definition exec_QNACK : handler := settle "QNACK" Queues.QNack.

Definition exec_QLEN : handler := fun args =>
  exactly 2 "QLEN" args ;;; ensureOwns [arg 1 args] ;;;
  let! n := query (fun _ => Queues.QLen (arg 1 args)) in reply (WInt n).

Definition exec_QINFO : handler := fun args =>
  exactly 2 "QINFO" args ;;; ensureOwns [arg 1 args] ;;;
  let! r := query (fun _ => Queues.QInfo (arg 1 args)) in
  let '(pending, processing, dead) := r in
  replies [WArray 6; WBulk "pending"; WInt pending; WBulk "processing"; WInt processing;
           WBulk "dead_letter"; WInt dead].

(** [rfc3339] is [Time.Format(time.RFC3339)]. *)
Section Listing.
Context (rfc3339 : Z -> string).

Definition writeQueueMessages (msgs : list Store.QueueMessage) : M unit :=
  replies (WArray (zlen msgs) :: concat ((fun m =>
    [WArray 4; WBulk (Store.MsgID m); WBulk (Store.Body m); WInt (Store.Retries m);
     WBulk (rfc3339 (Store.CreatedAt m))]) <$> msgs)).

Definition list_queue (cmd : string) (dflt : Z) (f : string -> Z -> Store.Store -> list Store.QueueMessage)
    : handler := fun args =>
  at_least 2 cmd args ;;; ensureOwns [arg 1 args] ;;;
  let count := if (argc args >=? 4) && EqualFold (arg 2 args) "COUNT" then (Atoi (arg 3 args)).1 else dflt in
  let! l := query (fun _ => f (arg 1 args) count) in writeQueueMessages l.
Definition exec_QPEEK : handler := list_queue "QPEEK" 1 Queues.QPeek.
Definition exec_QDEAD : handler := list_queue "QDEAD" 10 Queues.QDead.
End Listing.

(** ** Documents *)

Definition path_of (args : Replay.command) : string := if argc args =? 3 then arg 2 args else "$"%string.

Definition two_or_three (cmd : string) (args : Replay.command) : M unit :=
  unless ((argc args <? 2) || (argc args >? 3)) (wrongArgs cmd) ;;; ensureOwns [arg 1 args].

Section Codec.
Context (unmarshal : string -> result Json.json) (marshal : Json.json -> result string).

Definition exec_JSON_SET : handler := fun args =>
  exactly 4 "JSON.SET" args ;;; ensureOwns [arg 1 args] ;;;
  persist args ;;;
  check_doc (run (fun now => Docs.JSONSet unmarshal now (arg 1 args) (arg 2 args) (arg 3 args))) ;;; ok.

Definition exec_JSON_GET : handler := fun args =>
  two_or_three "JSON.GET" args ;;;
  let! r := check_doc (query (fun now => Docs.JSONGet marshal now (arg 1 args) (path_of args))) in bulk_or_null r.

Definition exec_JSON_ARRAPPEND : handler := fun args =>
  at_least 4 "JSON.ARRAPPEND" args ;;; ensureOwns [arg 1 args] ;;;
  persist args ;;;
  let! n := check_doc (run (fun now => Docs.JSONArrAppend unmarshal now (arg 1 args) (arg 2 args) (drop 3 args))) in
  reply (WInt n).
End Codec.

Definition exec_JSON_DEL : handler := fun args =>
  two_or_three "JSON.DEL" args ;;;
  persist args ;;;
  let! b := check_doc (run (fun now => Docs.JSONDel now (arg 1 args) (path_of args))) in bool_int b.

Definition exec_JSON_TYPE : handler := fun args =>
  two_or_three "JSON.TYPE" args ;;;
  let! t := query (fun now => Docs.JSONType now (arg 1 args) (path_of args)) in reply (WBulk t).

Definition exec_JSON_NUMINCRBY : handler := fun args =>
  exactly 4 "JSON.NUMINCRBY" args ;;; ensureOwns [arg 1 args] ;;;
  let! delta := parse_float (arg 3 args) in
  persist args ;;;
  let! x := check_doc (run (fun now => Docs.JSONNumIncrBy now (arg 1 args) (arg 2 args) delta)) in
  reply (WBulk (FormatFloat x)).

Definition exec_JSON_ARRLEN : handler := fun args =>
  two_or_three "JSON.ARRLEN" args ;;;
  let! n := check_doc (query (fun now => Docs.JSONArrLen now (arg 1 args) (path_of args))) in reply (WInt n).

Definition exec_JSON_KEYS : handler := fun args =>
  two_or_three "JSON.KEYS" args ;;;
  let! l := check_doc (query (fun now => Docs.JSONKeys now (arg 1 args) (path_of args))) in writeBulkStrings l.

(** ** Tags *)

(** The first argument of TAG that is not [name=value]. *)
Definition bad_tag (l : list string) : option string := List.find (fun a => Schema.is_none (cut_equals a)) l.

Definition exec_TAG : handler := fun args =>
  at_least 3 "TAG" args ;;; ensureOwns [arg 1 args] ;;;
  match bad_tag (drop 2 args) with
  | Some a => fail (EQuoted [("invalid tag format: ", a)] " (use key=value)")
  | None =>
      persist args ;;;
      check (run (fun now => Docs.TagSet now (arg 1 args) (Replay.labels_of (drop 2 args)))) ;;; ok
  end.

Definition exec_TAGGET : handler := fun args =>
  exactly 2 "TAGGET" args ;;; ensureOwns [arg 1 args] ;;;
  let! r := query (fun now => Docs.TagGet now (arg 1 args)) in
  match r with
  | None => reply WNullArray
  | Some tags => writeHashPairs ((fun k => (k, default ""%string (tags !! k))) <$> sort_strings (map_to_list tags).*1)
  end.

Definition exec_TAGDEL : handler := fun args =>
  at_least 3 "TAGDEL" args ;;; ensureOwns [arg 1 args] ;;;
  persist args ;;;
  let! n := run (fun _ => Docs.TagDel (arg 1 args) (drop 2 args)) in reply (WInt n).

(** The criteria and the limit of TAGQUERY. *)
Fixpoint tagquery_parse (l : list string) (criteria : gmap string string) (limit : Z) : gmap string string * Z :=
  match l with
  | [] => (criteria, limit)
  | a :: l =>
      if EqualFold a "AND" then tagquery_parse l criteria limit
      else if EqualFold a "LIMIT" then
        match l with
        | n :: l => tagquery_parse l criteria (Atoi n).1
        | [] => (criteria, limit)
        end
      else match cut_equals a with
           | Some (k, v) => tagquery_parse l (<[k := v]> criteria) limit
           | None => tagquery_parse l criteria limit
           end
  end.

Definition exec_TAGQUERY : handler := fun args =>
  at_least 2 "TAGQUERY" args ;;;
  let q := tagquery_parse (drop 1 args) ∅ 100 in
  let! order := iteration in
  let! l := query (fun now => Docs.TagQuery now order q.1 q.2) in writeBulkStrings l.

(** ** Time series *)

Definition sample_wires (x : TimeSeries.TSSample) : list wire :=
  [WArray 2; WInt (TimeSeries.Timestamp x); WBulk (FormatFloat (TimeSeries.Value x))].

Definition exec_TS_ADD : handler := fun args =>
  at_least 4 "TS.ADD" args ;;; ensureOwns [arg 1 args] ;;;
  let! timestamp := (if (arg 2 args =? "*")%string then ret 0 else parse_int (arg 2 args)) in
  let! value := parse_float (arg 3 args) in
  let labels := Replay.labels_of (drop (if (argc args >? 4) && EqualFold (arg 4 args) "LABELS" then 5 else 4) args) in
  persist args ;;;
  check (run (fun now => Docs.TSAdd now (arg 1 args) timestamp value labels)) ;;; ok.

Definition exec_TS_RANGE : handler := fun args =>
  at_least 4 "TS.RANGE" args ;;; ensureOwns [arg 1 args] ;;;
  let from := if (arg 2 args =? "-")%string then 0 else (ParseInt (arg 2 args)).1 in
  let to := if (arg 3 args =? "+")%string then 2 ^ 62 else (ParseInt (arg 3 args)).1 in
  let count := if (argc args >=? 6) && EqualFold (arg 4 args) "COUNT" then (Atoi (arg 5 args)).1 else 0 in
  let! l := query (fun now => Docs.TSRange now (arg 1 args) from to count) in
  replies (WArray (zlen l) :: concat (sample_wires <$> l)).

Definition exec_TS_GET : handler := fun args =>
  exactly 2 "TS.GET" args ;;; ensureOwns [arg 1 args] ;;;
  let! r := query (fun now => Docs.TSGet now (arg 1 args)) in
  match r with None => reply WNullArray | Some x => replies (sample_wires x) end.

(** [order] is the iteration order of the labels. *)
Definition exec_TS_INFO : handler := fun args =>
  exactly 2 "TS.INFO" args ;;; ensureOwns [arg 1 args] ;;;
  let! r := check (query (fun now => Docs.TSInfo now (arg 1 args))) in
  let '(count, labels, firstTS, lastTS) := r in
  let! order := iteration in
  replies [WArray 10; WBulk "total_samples"; WInt count; WBulk "first_timestamp"; WInt firstTS;
           WBulk "last_timestamp"; WInt lastTS; WBulk "labels"] ;;;
  writeHashPairs ((fun k => (k, default ""%string (labels !! k))) <$> order) ;;;
  replies [WBulk "retention"; WInt 0].

Section Table.
Context (rfc3339 : Z -> string) (unmarshal : string -> result Json.json) (marshal : Json.json -> result string).

Definition data_cases : list (string * handler) :=
  [("PFADD", exec_PFADD); ("PFMERGE", exec_PFMERGE); ("SETBIT", exec_SETBIT); ("GETBIT", exec_GETBIT);
   ("BITCOUNT", exec_BITCOUNT); ("BITOP", exec_BITOP); ("BITPOS", exec_BITPOS); ("XADD", xadd);
   ("XRANGE", xrange); ("XLEN", exec_XLEN); ("XGROUP", xgroup); ("XACK", xack); ("XINFO", exec_XINFO);
   ("XCLAIM", exec_XCLAIM); ("XAUTOCLAIM", exec_XAUTOCLAIM); ("XPENDING", exec_XPENDING);
   ("XTRIM", exec_XTRIM); ("RATELIMIT", exec_RATELIMIT); ("RATELIMIT.PEEK", exec_RATELIMIT_PEEK);
   ("RATELIMIT.RESET", exec_RATELIMIT_RESET); ("ENQUEUE", exec_ENQUEUE); ("QACK", exec_QACK);
   ("QNACK", exec_QNACK); ("QLEN", exec_QLEN); ("QINFO", exec_QINFO); ("QPEEK", exec_QPEEK rfc3339);
   ("QDEAD", exec_QDEAD rfc3339); ("JSON.SET", exec_JSON_SET unmarshal); ("JSON.GET", exec_JSON_GET marshal);
   ("JSON.DEL", exec_JSON_DEL); ("JSON.TYPE", exec_JSON_TYPE); ("JSON.NUMINCRBY", exec_JSON_NUMINCRBY);
   ("JSON.ARRAPPEND", exec_JSON_ARRAPPEND unmarshal); ("JSON.ARRLEN", exec_JSON_ARRLEN);
   ("JSON.KEYS", exec_JSON_KEYS); ("TAG", exec_TAG); ("TAGGET", exec_TAGGET); ("TAGDEL", exec_TAGDEL);
   ("TAGQUERY", exec_TAGQUERY); ("TS.ADD", exec_TS_ADD); ("TS.RANGE", exec_TS_RANGE); ("TS.GET", exec_TS_GET);
   ("TS.INFO", exec_TS_INFO)].
End Table.

End Data.
