(* ===== verification/ServerConn.v ===== *)
(** * Connections: the command table, authentication, namespaces and
    transactions (internal/server/server.go, internal/server/schema.go)

    [exec] dispatches a command to its handler.  [handle] is one turn of the
    loop of [handleConn]: the authentication gate, the commands handled by
    the loop itself (AUTH, NAMESPACE, MULTI, EXEC, DISCARD, WATCH, UNWATCH,
    UNSUBSCRIBE, PUNSUBSCRIBE, QUIT), and for every other command the queue of
    an open transaction or, outside one, the read-only check, eviction,
    execution and propagation.  EXEC holds no lock: a turn carries what other
    connections do between its parts.  Commands that take over the connection
    or use the managers of the whole server (subscriptions, replication,
    blocking reads, administration, scripts, geo queries) are modelled in other
    files: [exec] and [handle] answer [None] for them. *)
From S2P Require Import Prelude GoLib GoText Json Store StoreStrings StoreLimits Cluster Schema Namespace.
From S2P Require Import Replay ServerCore Subscriber ServerKeys ServerContainers ServerData.

Module Conn.
Import Core Text Keys Containers Data.
Open Scope server_scope.

(** ** Schema commands *)

Definition set_error_of (e : Schema.set_error) : error :=
  match e with
  | Schema.InvalidField a => EQuoted [("invalid field schema ", a)] " (use field:type)"
  | Schema.UnknownType t =>
      EQuoted [("unknown schema type ", t)] " (valid: string, int, float, bool, email, required)"
  end.

Definition handleSchemaSet : handler := fun args =>
  at_least 3 "SCHEMA.SET" args ;;;
  match Schema.parse_fields (drop 2 args) ∅ with
  | inl e => fail (set_error_of e)
  | inr fields => (fun _ s => Ret (Next tt, with_schemas (Schema.Set_ (arg 1 args) fields (schemas s)) s, [])) ;;; ok
  end.

Definition sorted_fields (m : gmap string string) : list (string * string) :=
  (fun f => (f, default ""%string (m !! f))) <$> sort_strings (map_to_list m).*1.

Definition handleSchemaGet : handler := fun args =>
  exactly 2 "SCHEMA.GET" args ;;;
  let! sm := (fun _ s => Ret (Next (schemas s), s, [])) in
  match Schema.Get (arg 1 args) sm with
  | None => reply WNullArray
  | Some rule => writeHashPairs (sorted_fields (Schema.Fields rule))
  end.

Definition handleSchemaDel : handler := fun args =>
  exactly 2 "SCHEMA.DEL" args ;;;
  let! b := (fun _ s => let '(b, sm) := Schema.Del (arg 1 args) (schemas s) in Ret (Next b, with_schemas sm s, [])) in
  bool_int b.

Definition handleSchemaList : handler := fun args =>
  let! sm := (fun _ s => Ret (Next (schemas s), s, [])) in
  replies (WArray (zlen (Schema.List_ sm)) :: concat ((fun rule =>
    let l := sorted_fields (Schema.Fields rule) in
    [WArray 2; WBulk (Schema.Pattern rule); WArray (zlen l)]
    ++ ((fun p => WBulk (String.append p.1 (String.append ":" p.2))) <$> l)) <$> Schema.List_ sm)).

Definition schema_cases : list (string * handler) :=
  [("SCHEMA.SET", handleSchemaSet); ("SCHEMA.GET", handleSchemaGet); ("SCHEMA.DEL", handleSchemaDel);
   ("SCHEMA.LIST", handleSchemaList)].

(** ** HELLO *)

Definition exec_HELLO : handler := fun _ =>
  replies (WArray 14 :: (WBulk <$> ["server"; "vole"; "version"; "0.1.0"; "proto"; "2"; "id"; "1"; "mode"; "standalone";
                                     "role"; "master"; "modules"]%string) ++ [WArray 0]).

(** ** The command table *)

(** The cases of [exec] outside the model. *)
Definition outside : list string :=
  ["XREAD"; "XREADGROUP"; "BLPOP"; "BRPOP"; "DEQUEUE"; "PUBLISH"; "PFCOUNT"; "CLUSTER"; "INFO"; "REPLICAOF"; "SLAVEOF";
   "MULTIMASTER"; "SAVE"; "BGSAVE"; "LASTSAVE"; "RESTORE"; "SWAPDB"; "OBJECT"; "COMMAND"; "CONFIG"; "WAIT"; "TIME";
   "GEOADD"; "GEOPOS"; "GEODIST"; "GEOSEARCH"; "MEMORY"; "DEBUG"; "WEBHOOK"; "TS.DOWNSAMPLE";
   "CRON.ADD"; "CRON.DEL"; "CRON.LIST"; "CRON.INFO"; "AUDIT"; "AUDIT.SEARCH"; "AUDIT.ENABLE"; "AUDIT.DISABLE";
   "AUDIT.CLEAR"; "AUDIT.SIZE"; "EVAL"; "EVALSHA"; "SCRIPT"; "SLOWLOG"; "LATENCY"; "ACL"; "SELECT"; "RESET"; "MODULE"].

Section Server.
Context (rfc3339 : Z -> string) (unmarshal : string -> result Json.json) (marshal : Json.json -> result string).

Definition cases : list (string * handler) :=
  key_cases ++ container_cases ++ data_cases rfc3339 unmarshal marshal ++ schema_cases ++ [("HELLO", exec_HELLO)].

Definition exec (args : Replay.command) : option (M unit) :=
  let cmd := ToUpper (arg 0 args) in
  match Replay.select cmd cases with
  | Some h => Some (h args)
  | None =>
      if bool_decide (cmd ∈ outside) then None else Some (fail (EQuoted [("unknown command ", cmd)] ""))
  end.

(** [if err := s.exec(w, args); err != nil { w.Error("ERR " + err.Error()) }];
    the flag tells whether there was no error. *)
Definition exec_reply (v : env) (args : Replay.command) (s : Server) : option (outcome (bool * Server * list wire)) :=
  match exec args with
  | None => None
  | Some m =>
      Some (match m v s with
            | Panic => Panic
            | Ret (Stop (Some e), s, o) => Ret (false, s, o ++ [WErr "ERR " e])
            | Ret (_, s, o) => Ret (true, s, o)
            end)
  end.

(** ** One connection *)

(** The state of the server the connection loop uses besides [Server].
    [replicated] are the commands handed to the replication layer, newest
    last. *)
Record Node := mkNode {
  server : Server;
  password : string;
  namespaces : Namespace.NamespaceManager;
  is_replica : bool;
  multi_master : bool;
  replicated : list Replay.command
}.

Definition with_server (s : Server) (n : Node) : Node :=
  mkNode s (password n) (namespaces n) (is_replica n) (multi_master n) (replicated n).
Definition with_namespaces (nm : Namespace.NamespaceManager) (n : Node) : Node :=
  mkNode (server n) (password n) nm (is_replica n) (multi_master n) (replicated n).

(** [connTx] and the local variables of [handleConn]. *)
Record Connection := mkConn {
  authenticated : bool;
  currentNS : string;
  nsPrefix : string;
  active : bool;
  queue : list Replay.command;
  watched : option (gmap string Z)
}.

Definition new_conn (n : Node) : Connection := mkConn (password n =? "")%string "default" "" false [] None.

Definition with_tx (a : bool) (q : list Replay.command) (w : option (gmap string Z)) (c : Connection) : Connection :=
  mkConn (authenticated c) (currentNS c) (nsPrefix c) a q w.

(** What a turn of the loop sees: the environments of the commands of a
    transaction ([vs 0] for a single command), the order in which eviction
    meets the keys, and what other connections do while EXEC runs:
    [gaps i] comes before the queued command [i], and [gaps 0] after the check
    of the watched keys, since EXEC holds no lock from one to the next. *)
Record turn := mkTurn { vs : nat -> env; perm : nat -> list string -> list string; gaps : nat -> Node -> Node }.

(** The queued commands, one after the other. *)
Fixpoint exec_queue (vs : nat -> env) (gaps : nat -> Node -> Node) (queue : list Replay.command) (n : Node)
    : option (outcome (Node * list wire)) :=
  match queue with
  | [] => Some (Ret (n, []))
  | args :: queue =>
      let n := gaps O n in
      match exec_reply (vs O) args (server n) with
      | None => None
      | Some Panic => Some Panic
      | Some (Ret (_, s, o)) =>
          match exec_queue (fun i => vs (S i)) (fun i => gaps (S i)) queue (with_server s n) with
          | None => None
          | Some Panic => Some Panic
          | Some (Ret (n, o')) => Some (Ret (n, o ++ o'))
          end
      end
  end.

Definition execTransaction (t : turn) (queue : list Replay.command) (n : Node) : option (outcome (Node * list wire)) :=
  match exec_queue (vs t) (gaps t) queue n with
  | Some (Ret (n, o)) => Some (Ret (n, WArray (zlen queue) :: o))
  | r => r
  end.

Definition answer : Type := option (outcome (Node * Connection * list wire * bool)).

(** The flag is false when the connection is closed. *)
Definition go (n : Node) (c : Connection) (o : list wire) : answer := Some (Ret (n, c, o, true)).
Definition say (n : Node) (c : Connection) (w : wire) : answer := go n c [w].
Definition err (text : string) : wire := WErr text (EMsg "").

Definition handle_auth (args : Replay.command) (n : Node) (c : Connection) : answer :=
  if (password n =? "")%string then say n c (err "ERR Client sent AUTH, but no password is set")
  else
    let check_password pw :=
      if (pw =? password n)%string
      then say n (mkConn true (currentNS c) (nsPrefix c) (active c) (queue c) (watched c)) (WSimple "OK")
      else say n c (err "WRONGPASS invalid password") in
    if argc args =? 2 then check_password (arg 1 args)
    else if argc args =? 3 then check_password (arg 2 args)
    else say n c (err "ERR wrong number of arguments for 'auth' command").

Definition use_namespace (name prefix : string) (c : Connection) : Connection :=
  mkConn (authenticated c) name prefix (active c) (queue c) (watched c).

Definition result_wire (r : result unit) : wire :=
  match r with Ok _ => WSimple "OK" | Err m => WErr "ERR " (EMsg m) end.

Definition handle_namespace (now : Z) (args : Replay.command) (n : Node) (c : Connection) : answer :=
  if argc args <? 2 then say n c (err "ERR wrong number of arguments for NAMESPACE")
  else
    let sub := ToUpper (arg 1 args) in
    let name := arg 2 args in
    if (sub =? "CREATE")%string then
      if negb (argc args =? 3) then say n c (err "ERR wrong number of arguments for NAMESPACE CREATE")
      else let '(r, nm) := Namespace.Create now name (namespaces n) in say (with_namespaces nm n) c (result_wire r)
    else if (sub =? "USE")%string then
      if negb (argc args =? 3) then say n c (err "ERR wrong number of arguments for NAMESPACE USE")
      else if (name =? "default")%string then say n (use_namespace "default" "" c) (WSimple "OK")
      else match Namespace.Get name (namespaces n) with
           | Some _ => say n (use_namespace name (Namespace.ns_prefix name) c) (WSimple "OK")
           | None => say n c (err "ERR namespace does not exist")
           end
    else if (sub =? "LIST")%string then
      let l := Namespace.List_ (namespaces n) in go n c (WArray (zlen l) :: (WBulk <$> l))
    else if (sub =? "DROP")%string then
      if negb (argc args =? 3) then say n c (err "ERR wrong number of arguments for NAMESPACE DROP")
      else if (name =? currentNS c)%string then say n c (err "ERR cannot drop the currently active namespace")
      else let '(r, nm) := Namespace.Drop name (namespaces n) in say (with_namespaces nm n) c (result_wire r)
    else if (sub =? "CURRENT")%string then say n c (WBulk (currentNS c))
    else say n c (err (String.append "ERR unknown NAMESPACE subcommand '" (String.append (arg 1 args) "'"))).

(** EXEC: a change of a watched key abandons the queue. *)
Definition handle_exec (t : turn) (n : Node) (c : Connection) : answer :=
  if negb (active c) then say n c (err "ERR EXEC without MULTI")
  else
    let c' := with_tx false [] None c in
    let modified := match watched c with
                    | Some w => Store.KeysModifiedSince w (store (server n))
                    | None => false
                    end in
    if modified then say n c' WNullArray
    else match execTransaction t (queue c) n with
         | None => None
         | Some Panic => Some Panic
         | Some (Ret (n, o)) => go n c' o
         end.

(** WATCH adds the versions of its keys to those already watched. *)
Definition handle_watch (args : Replay.command) (n : Node) (c : Connection) : answer :=
  if active c then say n c (err "ERR WATCH inside MULTI is not allowed")
  else if argc args <? 2 then say n c (err "ERR wrong number of arguments for WATCH")
  else
    let versions := Store.KeyVersions (drop 1 args) (store (server n)) in
    say n (with_tx (active c) (queue c) (Some (versions ∪ default ∅ (watched c))) c) (WSimple "OK").

(** [EvictIfNeeded] with the fuel that suffices (see [Limits.evict_terminates]). *)
Definition evict (t : turn) (s : Server) : result unit * Server :=
  let st := store s in
  match Limits.EvictIfNeeded (S (Limits.mu st)) (now (vs t O)) (perm t) st with
  | Some (r, st) => (r, with_store st s)
  | None => (Ok tt, s)
  end.

(** A command outside a transaction. *)
Definition handle_command (t : turn) (args : Replay.command) (n : Node) (c : Connection) : answer :=
  let cmd := ToUpper (arg 0 args) in
  let writes := isWriteCommand cmd in
  if writes && is_replica n && negb (multi_master n) then
    say n c (err "READONLY You can't write against a read only replica")
  else
    let '(r, s) := if writes then evict t (server n) else (Ok tt, server n) in
    match r with
    | Err m => say (with_server s n) c (WErr "OOM " (EMsg m))
    | Ok _ =>
        match exec_reply (vs t O) args s with
        | None => None
        | Some Panic => Some Panic
        | Some (Ret (done, s, o)) =>
            let n := with_server s n in
            let n := if done && writes && (negb (is_replica n) || multi_master n)
                     then mkNode (server n) (password n) (namespaces n) (is_replica n) (multi_master n)
                            (replicated n ++ [args])
                     else n in
            go n c o
        end
    end.

(** KEYS, SCAN and RANDOMKEY in a namespace: the prefix is stripped from the
    keys they answer. *)
Definition strip_all (prefix : string) (l : list string) : list string :=
  (fun k => Namespace.stripKeyPrefix k prefix) <$> l.

(** The options of SCAN; a word that is neither MATCH nor COUNT is skipped
    with its argument. *)
Fixpoint ns_scan_options (l : list string) (pattern : string) (count : Z) : wire + string * Z :=
  match l with
  | [] => inr (pattern, count)
  | [_] => inl (err "ERR syntax error")
  | a :: b :: l =>
      let name := ToUpper a in
      if (name =? "MATCH")%string then ns_scan_options l b count
      else if (name =? "COUNT")%string then
        match Atoi b with
        | (_, Some _) => inl (err "ERR value is not an integer or out of range")
        | (n, None) => ns_scan_options l pattern n
        end
      else ns_scan_options l pattern count
  end.

Definition handle_ns_keys (now : Z) (cmd : string) (args : Replay.command) (n : Node) (c : Connection) : answer :=
  let st := store (server n) in
  if (cmd =? "KEYS")%string then
    if negb (argc args =? 2) then say n c (err "ERR wrong number of arguments for 'keys' command")
    else let l := strip_all (nsPrefix c) (Strings.Keys now (arg 1 args) st) in
         go n c (WArray (zlen l) :: (WBulk <$> l))
  else if (cmd =? "RANDOMKEY")%string then
    if negb (argc args =? 1) then say n c (err "ERR wrong number of arguments for 'randomkey' command")
    else match Strings.Keys now (String.append (nsPrefix c) "*") st with
         | [] => say n c WNull
         | k :: _ => say n c (WBulk (Namespace.stripKeyPrefix k (nsPrefix c)))
         end
  else if argc args <? 2 then say n c (err "ERR wrong number of arguments for 'scan' command")
  else
    match Atoi (arg 1 args) with
    | (_, Some _) => say n c (err "ERR invalid cursor")
    | (cursor, None) =>
        match ns_scan_options (drop 2 args) "*" 10 with
        | inl w => say n c w
        | inr (pattern, count) =>
            match Strings.Scan now cursor count pattern st with
            | Panic => Some Panic
            | Ret (next, keys) =>
                let l := strip_all (nsPrefix c) keys in
                go n c (WArray 2 :: WBulk (FormatInt next) :: WArray (zlen l) :: (WBulk <$> l))
            end
        end
    end.

(** The commands that leave the command loop, and CLIENT, are outside. *)
Definition loop_outside : list string := ["SUBSCRIBE"; "PSUBSCRIBE"; "REPLSYNC"; "CLIENT"].

Definition handle (t : turn) (args : Replay.command) (n : Node) (c : Connection) : answer :=
  match args with
  | [] => go n c []
  | name :: _ =>
      let cmd := ToUpper name in
      if negb (authenticated c) && negb (cmd =? "AUTH")%string && negb (cmd =? "PING")%string
         && negb (cmd =? "HELLO")%string
      then say n c (err "NOAUTH Authentication required.")
      else if (cmd =? "AUTH")%string then handle_auth args n c
      else if bool_decide (cmd ∈ loop_outside) || (cmd =? "REPLPEER")%string && (argc args =? 3) then None
      else if (cmd =? "UNSUBSCRIBE")%string then go n c (Subscriber.unsubscribe_reply "unsubscribe" args)
      else if (cmd =? "PUNSUBSCRIBE")%string then go n c (Subscriber.unsubscribe_reply "punsubscribe" args)
      else if (cmd =? "QUIT")%string then Some (Ret (n, c, [WSimple "OK"], false))
      else if (cmd =? "NAMESPACE")%string then handle_namespace (now (vs t O)) args n c
      else
        let args := if negb (nsPrefix c =? "")%string then Namespace.prefixKeyArgs args (nsPrefix c) else args in
        if negb (nsPrefix c =? "")%string
           && ((cmd =? "KEYS")%string || (cmd =? "RANDOMKEY")%string || (cmd =? "SCAN")%string)
        then handle_ns_keys (now (vs t O)) cmd args n c
        else if (cmd =? "MULTI")%string then
          if active c then say n c (err "ERR MULTI calls can not be nested")
          else say n (with_tx true [] (watched c) c) (WSimple "OK")
        else if (cmd =? "EXEC")%string then handle_exec t n c
        else if (cmd =? "DISCARD")%string then
          if negb (active c) then say n c (err "ERR DISCARD without MULTI")
          else say n (with_tx false [] None c) (WSimple "OK")
        else if (cmd =? "WATCH")%string then handle_watch args n c
        else if (cmd =? "UNWATCH")%string then say n (with_tx (active c) (queue c) None c) (WSimple "OK")
        else if active c then say n (with_tx true (queue c ++ [args]) (watched c) c) (WSimple "QUEUED")
        else handle_command t args n c
  end.
End Server.

(** ** A concrete server, for examples *)

(** The codecs of a server that meets no dates and no JSON. *)
Definition no_date (t : Z) : string := "".
Definition no_json (text : string) : result Json.json := Err "no JSON"%string.
Definition no_text (j : Json.json) : result string := Err "no JSON"%string.

(** A server without peers. *)
Definition alone (st : Store.Store) (log : option (list Replay.command)) : Server :=
  mkServer st (Cluster.NewCluster 0 "n1" "127.0.0.1:6379" "") log Schema.NewSchemaManager 0 0.

Definition node (s : Server) (pass : string) : Node :=
  mkNode s pass (Namespace.Create 0 "b" (Namespace.Create 0 "a" (Namespace.NewNamespaceManager 0 (store s))).2).2
    false false [].

(** A turn at [t] nanoseconds. *)
Definition tick (t : Z) : turn := mkTurn (fun _ => mkEnv t None [] (fun _ => 0)) (fun _ l => l) (fun _ n => n).

End Conn.
