(* ===== verification/ServerHttp.v ===== *)
(** * The HTTP gateway against the command interpreter

    The writes of the REST interface compared with the commands they stand
    for: the same effect on the store and the log where the command succeeds,
    and the checks of the command interpreter the gateway does not make. *)
From S2P Require Import Prelude GoLib GoText SortedSet Json Store StoreStrings StoreHashes StoreSets StoreLists StoreLimits.
From S2P Require Import Cluster Schema PubSub Webhooks Replay Scripting ServerCore Http ServerKeys ServerContainers ServerData.
From S2P Require Import ServerConn.

Module HttpApi.
Import Core Text Http.

(** ** Requests and the commands they stand for *)

Definition one_word (key : string) : Prop := key <> ""%string /\ has_byte "/" key = false.

(** The path is [base] and then [x], and the router does not redirect it. *)
Definition addressed (r : request) (base x : string) : Prop :=
  path r = String.append base x /\ cleanPath (escaped r) = escaped r /\ exists e, escaped r = String.append base e.

Definition plain_body (r : request) : Prop := body r <> ""%string /\ Scripting.slen (body r) <= body_limit.

Inductive stands_for (D : decoders) (v : env) : request -> Replay.command -> Prop :=
| for_del r key :
    method_ r = DELETE -> addressed r "/api/v1/keys/" key -> key <> ""%string ->
    Scripting.HasSuffix key "/incr" = false -> stands_for D v r ["DEL"; key]%string
| for_sadd r key l :
    method_ r = POST -> addressed r "/api/v1/set/" key -> one_word key -> plain_body r ->
    d_members D (body r) = Ok l -> l <> [] -> stands_for D v r ("SADD" :: key :: l)%string
| for_push r key b :
    method_ r = POST -> addressed r "/api/v1/list/" (String.append key "/push") -> one_word key -> plain_body r ->
    d_push D (body r) = Ok b -> Values b <> [] ->
    stands_for D v r ((if EqualFold (Side b) "left" then "LPUSH" else "RPUSH") :: key :: Values b)%string
| for_hset r key m :
    method_ r = PUT -> addressed r "/api/v1/hash/" key -> one_word key -> plain_body r ->
    d_fields D (body r) = Ok m -> m <> ∅ -> (iter v) ≡ₚ (map_to_list m).*1 ->
    stands_for D v r ("HSET" :: key :: concat ((fun f => [f; default "" (m !! f)]) <$> iter v))%string.

Lemma trim_prefix p x : TrimPrefix (String.append p x) p = x.
Proof.
  unfold TrimPrefix. change (String.append p x) with (Resp.Resp.cat p x). rewrite Scripting.prefix_cat. unfold Scripting.from.
  pose proof (Scripting.substring_mid p x "") as Hs. rewrite Resp.Resp.cat_nil_r in Hs. rewrite Resp.Resp.length_cat.
  replace (String.length p + String.length x - String.length p)%nat with (String.length x) by lia. exact Hs.
Qed.

Lemma require_ok p what : p <> ""%string -> require p what = hret tt.
Proof. intros H. unfold require. by destruct (String.eqb_spec p ""). Qed.

Lemma prefix_app p x : Scripting.HasPrefix (String.append p x) p = true.
Proof. exact (Scripting.prefix_cat p x). Qed.

(** The router on a clean path under [/api/v1/]. *)
Lemma parts_under tree e :
  has_byte "/" tree = false -> unescape_loop tree = Some tree ->
  exists y l, parts (String.append "/api/v1/" (String.append tree (String "/" e))) = "api" :: "v1" :: tree :: y :: l.
Proof.
  intros Ht Hu. unfold parts. change (String.append "/api/v1/" ?z) with (String "/" (String.append "api" (String "/" (String.append "v1" (String "/" z))))).
  change (split_byte "/" (String "/" ?z)) with (""%string :: split_byte "/" z). cbn [tail].
  rewrite !split_byte_app by done. cbn [fmap list_fmap]. rewrite Hu.
  destruct (split_byte "/" e) as [|y l] eqn:E; [by destruct (split_byte_nonempty "/" e)|]. cbn [fmap list_fmap]. by do 2 eexists.
Qed.

Ltac by_parts tree H :=
  destruct H as (_ & Hc & e & He); unfold route; rewrite Hc, String.eqb_refl; cbn [negb]; rewrite He;
  destruct (parts_under tree e eq_refl eq_refl) as (y & l & Hl);
  change (String.append _ e) with (String.append "/api/v1/" (String.append tree (String "/" e))); rewrite Hl; reflexivity.

Lemma route_keys D c r x : addressed r "/api/v1/keys/" x -> route D c r = Some (handleKeys D r).
Proof. intros H. by_parts "keys"%string H. Qed.
Lemma route_hash D c r x : addressed r "/api/v1/hash/" x -> route D c r = Some (handleHash D r).
Proof. intros H. by_parts "hash"%string H. Qed.
Lemma route_list D c r x : addressed r "/api/v1/list/" x -> route D c r = Some (handleList D r).
Proof. intros H. by_parts "list"%string H. Qed.
Lemma route_set D c r x : addressed r "/api/v1/set/" x -> route D c r = Some (handleSet D r).
Proof. intros H. by_parts "set"%string H. Qed.

Lemma split2_word key : has_byte "/" key = false -> split2 key = (key, ""%string).
Proof.
  intros H. unfold split2. assert (cut_byte "/" key = None) as ->; [|done].
  induction key as [|a key IH]; [done|]. cbn [has_byte] in H. apply orb_false_iff in H as [Ha H]. cbn [cut_byte].
  by rewrite Ha, IH.
Qed.

Lemma split2_sub key sub : has_byte "/" key = false -> split2 (String.append key (String "/" sub)) = (key, sub).
Proof.
  intros H. unfold split2. assert (cut_byte "/" (String.append key (String "/" sub)) = Some (key, sub)) as ->; [|done].
  induction key as [|a key IH]; [done|]. cbn [has_byte] in H. apply orb_false_iff in H as [Ha H].
  change (String.append (String a key) (String "/" sub)) with (String a (String.append key (String "/" sub))). cbn [cut_byte].
  by rewrite Ha, IH.
Qed.

Lemma readJSON_ok {A} (decode : string -> result A) zero r a :
  plain_body r -> decode (body r) = Ok a -> readJSON decode zero r = hret a.
Proof.
  intros [Hb Hl] Hd. unfold readJSON. replace (Scripting.slen (body r) <=? body_limit) with true by (symmetry; by apply Z.leb_le).
  destruct (String.eqb_spec (body r) ""); [done|]. by rewrite Hd.
Qed.

(** ** Commands that succeed *)

Definition owns (key : string) (s : Server) : Prop := Cluster.SelfOwns key (cluster s) = true.

Lemma ensureOwns_one key v s : owns key s -> ensureOwns [key] v s = Ret (Next tt, s, []).
Proof. intros H. unfold ensureOwns, cross_slot. cbn. unfold owns in H. by rewrite H. Qed.

(** The command [m] ended without an error, in [s']. *)
Definition succeeds (m : M unit) (v : env) (s s' : Server) : Prop :=
  exists f o, m v s = Ret (f, s', o) /\ match f with Stop (Some _) => False | _ => True end.

Lemma succeeds_bind {A} (m : M A) (k : A -> M unit) v s s' :
  succeeds (bind m k) v s s' ->
  (exists a s1, (exists o, m v s = Ret (Next a, s1, o)) /\ succeeds (k a) v s1 s') \/
  (exists o, m v s = Ret (Stop None, s', o)).
Proof.
  intros (f & o & H & Hf). unfold bind in H. destruct (m v s) as [[[[a|e] s1] o1]|] eqn:E; [|injection H as <- <- <-|done].
  - destruct (k a v s1) as [[[f2 s2] o2]|] eqn:E2; [|done]. injection H as <- <- <-. left. exists a, s1. split; [by exists o1|].
    by exists f2, o2.
  - destruct e; [done|]. right. by exists o1.
Qed.

(** What [persist] does to the server when nothing goes wrong. *)
Definition logged (args : Replay.command) (s : Server) : Server :=
  match aof s with None => s | Some l => with_aof (Some (l ++ [args])) s end.

Lemma api_persist_logged args v s : fault v = None -> persist args v s = Ret (Next tt, logged args s, []).
Proof. intros H. unfold persist, bind, append, logged. destruct (aof s); by rewrite ?H. Qed.

Lemma persistWrite_logged args v b : fault v = None -> persistWrite args v b = Ret (inr tt, with_server (logged args (server b)) b).
Proof. intros H. unfold persistWrite, logged. rewrite H. destruct (aof (server b)); by destruct b. Qed.

(** The common shape: the log, then one operation of the store. *)
Lemma succeeds_write args (op : Z -> Store.Store -> result Z * Store.Store) v s s' :
  fault v = None ->
  succeeds (persist args ;;; let! n := check (run op) in reply (WInt n))%server v s s' ->
  exists n st, op (now v) (store (logged args s)) = (Ok n, st) /\ s' = with_store st (logged args s).
Proof.
  intros Hf (f & o & H & He). unfold bind in H. rewrite api_persist_logged in H by done.
  unfold check, bind, run in H. destruct (op (now v) (store (logged args s))) as [[n|e] st]; cbn in H.
  - injection H as <- <- <-. by exists n, st.
  - injection H as <- <- <-. done.
Qed.

Lemma expect_type_passes key want v s s1 o : expect_type key want v s = Ret (Next tt, s1, o) -> s1 = s.
Proof. unfold expect_type, bind, Core.query. cbv beta iota. destruct (negb _ && negb _); [done|]. by intros [= <- _]. Qed.

Lemma expect_type_stops key want v s s1 o : expect_type key want v s = Ret (Stop None, s1, o) -> False.
Proof. unfold expect_type, bind, Core.query. cbv beta iota. by destruct (negb _ && negb _). Qed.

Lemma succeeds_expect key want k v s s' : succeeds (expect_type key want ;;; k)%server v s s' -> succeeds k v s s'.
Proof.
  intros [([] & s1 & [o H] & Hk)|[o H]]%succeeds_bind; [|by apply expect_type_stops in H].
  by apply expect_type_passes in H as ->.
Qed.

Lemma succeeds_skip (m : M unit) k v s s' : m v s = Ret (Next tt, s, []) -> succeeds (m ;;; k)%server v s s' -> succeeds k v s s'.
Proof. intros Hm [([] & s1 & [o H] & Hk)|[o H]]%succeeds_bind; rewrite Hm in H; [by injection H as <-|done]. Qed.

(** The same write through the gateway. *)
Lemma http_write args (op : Z -> Store.Store -> result Z * Store.Store) code name v b n st :
  fault v = None -> op (now v) (store (logged args (server b))) = (Ok n, st) ->
  (persistWrite args >>> do! n := try_ code (store_run op) in answer [(name, PInt n)])%http v b =
  Ret (inr (Ok_ (PObj [(name, PInt n)])), with_server (with_store st (logged args (server b))) b).
Proof.
  intros Hf Hop. unfold hbind at 1. rewrite persistWrite_logged by done. unfold hbind, try_, hbind, store_run. cbn.
  rewrite Hop. done.
Qed.

Lemma validate_passes key pairs v s k s' : succeeds (validate key pairs ;;; k)%server v s s' -> succeeds k v s s'.
Proof.
  intros [([] & s1 & [o H] & Hk)|[o H]]%succeeds_bind; unfold validate in H; destruct (Schema.Validate _ _ _ _); try done.
  by injection H as <-.
Qed.

Lemma fields_pairs (m : gmap string string) (order : list string) :
  (forall f, f ∈ order -> is_Some (m !! f)) ->
  omap (fun f => (fun x => (f, x)) <$> m !! f) order = (fun f => (f, default ""%string (m !! f))) <$> order.
Proof.
  induction order as [|f order IH]; intros H; [done|]. cbn [omap list_omap fmap list_fmap].
  destruct (H f) as [x Hx]; [left|]. rewrite Hx. cbn [fmap option_fmap option_map default]. f_equal. apply IH.
  intros f' Hf. apply H. by right.
Qed.

Lemma pairs_of_fields (m : gmap string string) (order : list string) :
  Replay.pairs_of (concat ((fun f => [f; default ""%string (m !! f)]) <$> order)) =
  (fun f => (f, default ""%string (m !! f))) <$> order.
Proof. induction order as [|f order IH]; [done|]. cbn [fmap list_fmap concat app Replay.pairs_of]. by rewrite IH. Qed.

Lemma concat_pairs (m : gmap string string) (order : list string) :
  concat ((fun p : string * string => [p.1; p.2]) <$> ((fun f => (f, default ""%string (m !! f))) <$> order)) =
  concat ((fun f => [f; default ""%string (m !! f)]) <$> order).
Proof. induction order as [|f order IH]; [done|]. cbn [fmap list_fmap concat app]. by rewrite IH. Qed.

Lemma argc_even (m : gmap string string) (order : list string) :
  zlen (concat ((fun f => [f; default ""%string (m !! f)]) <$> order)) = 2 * zlen order.
Proof. induction order as [|f order IH]; [done|]. cbn [fmap list_fmap concat app]. rewrite !zlen_cons, IH. lia. Qed.

Section Api.
Context (D : decoders) (rfc3339 : Z -> string) (unmarshal : string -> result Json.Json.json)
  (marshal : Json.Json.json -> result string).

Lemma reply_succeeds v args s s' o m :
  Conn.exec rfc3339 unmarshal marshal args = Some m ->
  Conn.exec_reply rfc3339 unmarshal marshal v args s = Some (Ret (true, s', o)) -> succeeds m v s s'.
Proof.
  intros Hm H. unfold Conn.exec_reply in H. rewrite Hm in H. injection H as H.
  destruct (m v s) as [[[[a|[e|]] s1] o1]|] eqn:E; [|done| |done]; injection H as <- _.
  - by exists (Next a), o1.
  - by exists (Stop None), o1.
Qed.

Definition done_with (c : context) (v : env) (r : request) (b : backend) (s' : Server) : Prop :=
  exists p, serve D c v r b = Some (Ret (Ok_ p, with_server s' b)).

Lemma api_del c v r b s' key :
  fault v = None -> owns key (server b) ->
  method_ r = DELETE -> addressed r "/api/v1/keys/" key -> key <> ""%string ->
  Scripting.HasSuffix key "/incr" = false ->
  succeeds (Keys.exec_DEL ["DEL"; key]%string) v (server b) s' -> done_with c v r b s'.
Proof.
  intros Hf Ho Hm Hp Hk Hs H. unfold Keys.exec_DEL, Keys.at_least in H. cbn [drop] in H.
  apply succeeds_skip in H; [|done]. apply succeeds_skip in H; [|by apply ensureOwns_one].
  destruct H as (f & o & H & _). unfold bind, run in H. rewrite api_persist_logged in H by done.
  unfold done_with, serve. rewrite (route_keys D c r key Hp). unfold handleKeys. rewrite (proj1 Hp), trim_prefix, require_ok by done.
  unfold hbind at 1, hret at 1. rewrite Hs, Hm. unfold hbind. rewrite persistWrite_logged by done. unfold store_run. cbn [server].
  cbn [server with_server]. destruct (Strings.Del (now v) [key] 0 (store (logged ["DEL"%string; key] (server b)))) as [n st].
  injection H as _ <- _. eexists. reflexivity.
Qed.

Lemma api_sadd c v r b s' key l :
  fault v = None -> owns key (server b) ->
  method_ r = POST -> addressed r "/api/v1/set/" key -> one_word key -> plain_body r ->
  d_members D (body r) = Ok l -> l <> [] ->
  succeeds (Containers.sadd ("SADD" :: key :: l)%string) v (server b) s' -> done_with c v r b s'.
Proof.
  intros Hf Ho Hm Hp [Hk Hw] Hb Hd Hl H. unfold Containers.sadd, Keys.at_least in H. cbn [drop Replay.arg nth] in H.
  assert ((argc ("SADD" :: key :: l)%string <? 3) = false) as Hn.
  { unfold argc. rewrite !zlen_cons. destruct l; [done|]. rewrite zlen_cons. pose proof (zlen_nonneg l). lia. }
  apply succeeds_skip in H; [|unfold unless; by rewrite Hn]. apply succeeds_skip in H; [|by apply ensureOwns_one].
  apply succeeds_expect, succeeds_write in H as (n & st & Hop & ->); [|done].
  unfold done_with, serve. rewrite (route_set D c r key Hp). unfold handleSet. rewrite (proj1 Hp), trim_prefix, require_ok by done.
  rewrite split2_word by done. rewrite Hm, (readJSON_ok (d_members D) [] r l) by done.
  unfold hbind at 1, hret at 1. unfold hbind at 1, hret at 1.
  replace (zlen l =? 0) with false by (destruct l; [done|]; rewrite zlen_cons; pose proof (zlen_nonneg l); lia).
  unfold hbind at 1, hret at 1. rewrite (http_write _ (fun now => Sets.SAdd now key l) _ _ v b n st) by done. by eexists.
Qed.

Lemma zlen_not_nil {A} (l : list A) : l <> [] -> 0 < zlen l.
Proof. destruct l as [|x l]; [done|]. rewrite zlen_cons. pose proof (zlen_nonneg l). lia. Qed.

Lemma api_push c v r b s' key p :
  fault v = None -> owns key (server b) ->
  method_ r = POST -> addressed r "/api/v1/list/" (String.append key "/push") -> one_word key -> plain_body r ->
  d_push D (body r) = Ok p -> Values p <> [] ->
  let left := EqualFold (Side p) "left" in
  succeeds (Containers.listPush left ((if left then "LPUSH" else "RPUSH") :: key :: Values p)%string) v (server b) s' ->
  done_with c v r b s'.
Proof.
  intros Hf Ho Hm Hp [Hk Hw] Hb Hd Hl left H. unfold Containers.listPush in H. cbn [drop Replay.arg nth] in H.
  pose proof (zlen_not_nil _ Hl) as Hz. apply succeeds_skip in H.
  2: { unfold unless, argc. rewrite !zlen_cons. by replace (zlen (Values p) + 1 + 1 <? 3) with false by lia. }
  apply succeeds_skip in H; [|by apply ensureOwns_one].
  apply succeeds_expect, succeeds_write in H as (n & st & Hop & ->); [|done].
  unfold done_with, serve. rewrite (route_list D c r _ Hp). unfold handleList. rewrite (proj1 Hp), trim_prefix.
  rewrite require_ok by (by destruct key). change "/push"%string with (String "/" "push"). rewrite split2_sub by done.
  unfold hbind at 1, hret at 1. cbn [String.eqb Ascii.eqb Bool.eqb]. rewrite bool_decide_true by done. unfold handlePush.
  rewrite (readJSON_ok (d_push D) (mkPush [] "") r p) by done. unfold hbind at 1, hret at 1.
  replace (zlen (Values p) =? 0) with false by lia. unfold hbind at 1, hret at 1. fold left.
  rewrite (http_write _ (fun now => if left then Lists.LPush now key (Values p) else Lists.RPush now key (Values p)) _ _ v b n st);
    [by eexists|done|]. by destruct left.
Qed.

Lemma api_hset c v r b s' key m :
  fault v = None -> owns key (server b) ->
  method_ r = PUT -> addressed r "/api/v1/hash/" key -> one_word key -> plain_body r ->
  d_fields D (body r) = Ok m -> m <> ∅ -> iter v ≡ₚ (map_to_list m).*1 ->
  succeeds (Containers.hset ("HSET" :: key :: concat ((fun f => [f; default "" (m !! f)]) <$> iter v))%string) v (server b) s' ->
  done_with c v r b s'.
Proof.
  intros Hf Ho Hm Hp [Hk Hw] Hb Hd Hne Hit H. unfold Containers.hset in H. cbn [drop Replay.arg nth] in H.
  assert (forall f, f ∈ iter v -> is_Some (m !! f)) as Hin.
  { intros f Hx. rewrite Hit in Hx. apply list_elem_of_fmap in Hx as ([f' x] & -> & Hx). apply elem_of_map_to_list in Hx. by eexists. }
  assert (0 < zlen (iter v)) as Hz.
  { apply zlen_not_nil. intros E. rewrite E in Hit. symmetry in Hit. apply Permutation_nil_r, fmap_nil_inv in Hit.
    by apply Hne, map_to_list_empty_iff. }
  apply succeeds_skip in H.
  2: { unfold unless, argc. rewrite !zlen_cons, argc_even.
       replace (2 * zlen (iter v) + 1 + 1) with ((zlen (iter v) + 1) * 2) by lia. rewrite Z.mod_mul by done.
       by replace ((zlen (iter v) + 1) * 2 <? 4) with false by lia. }
  apply succeeds_skip in H; [|by apply ensureOwns_one]. cbv zeta in H.
  change (Replay.pairs_of _) with (Replay.pairs_of (concat ((fun f => [f; default ""%string (m !! f)]) <$> iter v))) in H.
  rewrite pairs_of_fields in H.
  apply validate_passes, succeeds_expect, succeeds_write in H as (n & st & Hop & ->); [|done].
  unfold done_with, serve. rewrite (route_hash D c r key Hp). unfold handleHash. rewrite (proj1 Hp), trim_prefix, require_ok by done.
  rewrite split2_word, Hm by done. unfold hbind at 1, hret at 1. rewrite (readJSON_ok (d_fields D) ∅ r m) by done.
  unfold hbind at 1, hret at 1. rewrite bool_decide_false by done. unfold hbind at 1. rewrite fields_pairs by done.
  rewrite concat_pairs. change (["HSET"%string; key] ++ ?l) with ("HSET"%string :: key :: l).
  rewrite (http_write _ (fun now => Hashes.HSet now key ((fun f => (f, default ""%string (m !! f))) <$> iter v)) _ _ v b n st) by done.
  by eexists.
Qed.

(** C13: a write through the gateway is the command it stands for.  A DELETE of a key, a POST of set members, a
    push to either end of a list and a PUT of hash fields have, whenever the command DEL, SADD, LPUSH or
    RPUSH, or HSET succeeds on a node that owns the key, exactly the effect of that command: the same
    store and the same record in the log; and they answer success.  The path is one the router does not
    redirect. *)
Theorem http_is_command c v r args key b s' o :
  stands_for D v r args -> nth_error args 1 = Some key -> fault v = None -> owns key (server b) ->
  Conn.exec_reply rfc3339 unmarshal marshal v args (server b) = Some (Ret (true, s', o)) ->
  exists p, serve D c v r b = Some (Ret (Ok_ p, with_server s' b)).
Proof.
  intros Hs Hkey Hf Ho H. destruct Hs as [r k|r k l|r k p|r k m]; injection Hkey as ->.
  - apply (reply_succeeds _ _ _ _ _ (Keys.exec_DEL ["DEL"; key]%string)) in H; [|reflexivity]. by eapply api_del.
  - apply (reply_succeeds _ _ _ _ _ (Containers.sadd ("SADD" :: key :: l)%string)) in H; [|reflexivity]. by eapply api_sadd.
  - apply (reply_succeeds _ _ _ _ _ (Containers.listPush (EqualFold (Side p) "left")
      ((if EqualFold (Side p) "left" then "LPUSH" else "RPUSH") :: key :: Values p)%string)) in H; [by eapply api_push|].
    by destruct (EqualFold (Side p) "left").
  - apply (reply_succeeds _ _ _ _ _ (Containers.hset ("HSET" :: key :: concat ((fun f => [f; default "" (m !! f)]) <$> iter v))%string))
      in H; [by eapply api_hset|reflexivity].
Qed.
End Api.

(** ** Concrete requests *)

(** Decoders for the bodies of the examples. *)
Definition samples : decoders :=
  mkDecoders (fun b => Ok (mkPut b 0 0 true false)) (fun _ => Ok None) (fun b => Ok {["age"%string := b]})
    (fun b => Ok (mkPush [b] "")) (fun b => Ok b) (fun b => Ok [b]) (fun _ => Ok []) (fun b => Ok b)
    (fun _ => Err "no hook"%string) (fun b => Ok b) (fun _ => Err "no limit"%string).

Definition no_query (name : string) : string := "".
Definition ask (m : method) (p b : string) : request := mkRequest m p p no_query b.
Definition quiet (t : Z) : env := mkEnv t None ["age"%string] (fun _ => 0).
Definition nobody : context := mkContext [] [] "" "".
Definition behind (s : Server) : backend := mkBackend s ∅ PubSub.NewPubSub.
Definition fresh : Server := Conn.alone Store.New (Some []).

(** The server after a request. *)
Definition after (v : env) (r : request) (b : backend) : option (response * Server) :=
  match serve samples nobody v r b with Some (Ret (x, b)) => Some (x, server b) | _ => None end.

Lemma http_is_command_witness :
  exists p s', serve samples nobody (quiet 1) (ask POST "/api/v1/set/s" "x") (behind fresh) = Some (Ret (Ok_ p, with_server s' (behind fresh))) /\
    aof s' = Some [["SADD"; "s"; "x"]%string] /\ Sets.SMembers 2 "s" (store s') = Ok ["x"%string].
Proof.
  destruct (Conn.exec_reply Conn.no_date Conn.no_json Conn.no_text (quiet 1) ["SADD"; "s"; "x"]%string fresh) as [[[[[|] s'] o]|]|] eqn:E;
    try (exfalso; revert E; vm_compute; discriminate).
  destruct (http_is_command samples Conn.no_date Conn.no_json Conn.no_text nobody (quiet 1) (ask POST "/api/v1/set/s" "x")
    ["SADD"; "s"; "x"]%string "s" (behind fresh) s' o) as [p Hp].
  - apply (for_sadd samples (quiet 1) (ask POST "/api/v1/set/s" "x") "s" ["x"%string]); try reflexivity; try discriminate.
    + split; [reflexivity|]. split; [vm_compute; reflexivity|]. by exists "s"%string.
    + by split.
    + split; [discriminate|]. vm_compute. discriminate.
  - reflexivity.
  - reflexivity.
  - reflexivity.
  - exact E.
  - exists p, s'. split; [exact Hp|]. vm_compute in E. injection E as <- _. split; reflexivity.
Defined.

(** A cluster of two nodes where the key [a] belongs to the other one, and a
    node with a rule for the hashes of users. *)
Definition half : Server :=
  mkServer Store.New (Cluster.NewCluster 0 "n1" "127.0.0.1:6379" "n2@127.0.0.1:6380") (Some []) Schema.NewSchemaManager 0 0.
Definition ruled : Server :=
  with_schemas (Schema.Set_ "user*" {["age"%string := "int"%string]} Schema.NewSchemaManager) fresh.

(** The gateway makes none of the checks of the command interpreter.  A set whose key belongs to another
    node is stored here, where SADD answers MOVED and changes nothing; fields that violate the schema of
    their key are stored, where HSET refuses them. *)
Theorem http_skips_checks :
  match Conn.exec_reply Conn.no_date Conn.no_json Conn.no_text (quiet 1) ["SADD"; "a"; "x"]%string half with
  | Some (Ret (true, s', [WErr m _])) => s' = half /\ String.prefix "MOVED" m = true
  | _ => False
  end /\
  match after (quiet 1) (ask POST "/api/v1/set/a" "x") (behind half) with
  | Some (Ok_ _, s') => Sets.SMembers 2 "a" (store s') = Ok ["x"%string]
  | _ => False
  end /\
  match Conn.exec_reply Conn.no_date Conn.no_json Conn.no_text (quiet 1) ["HSET"; "user1"; "age"; "old"]%string ruled with
  | Some (Ret (false, s', _)) => s' = ruled
  | _ => False
  end /\
  match after (quiet 1) (ask PUT "/api/v1/hash/user1" "old") (behind ruled) with
  | Some (Ok_ _, s') => Hashes.HGet 2 "user1" "age" (store s') = Ok ("old"%string, true)
  | _ => False
  end.
Proof. vm_compute. repeat split. Qed.

(** What the gateway logs is not what it does.  A PUT with NX on a key that exists answers 409 and keeps
    the value, but its record is already in the log and replay, which ignores NX, overwrites the value;
    and after POST /flush the store is empty, while replay ignores the FLUSHDB record and brings every key
    back. *)
Theorem http_log_pitfalls :
  let kept := with_aof (Some [["SET"; "k"; "old"]%string]) (Conn.alone (Strings.Set_ 0 "k" "old" 0 Store.New) (Some [])) in
  let recover s := Replay.replay_all Conn.no_json 9 (default [] (aof s)) Store.New in
  match after (quiet 1) (ask PUT "/api/v1/keys/k" "new") (behind kept) with
  | Some (Fail m code, s') =>
      (m, code) = ("key already exists"%string, StatusConflict) /\
      (Strings.Get 2 "k" (store s')).1 = ("old"%string, true) /\ (Strings.Get 10 "k" (recover s')).1 = ("new"%string, true)
  | _ => False
  end /\
  match after (quiet 1) (ask POST "/api/v1/flush" "") (behind kept) with
  | Some (Ok_ _, s') => Strings.DBSize 2 (store s') = 0 /\ (Strings.Get 10 "k" (recover s')).1 = ("old"%string, true)
  | _ => False
  end.
Proof. vm_compute. repeat split. Qed.
End HttpApi.
