(* ===== verification/ServerAdmin.v ===== *)
(** * Administrative, geographic and scripting commands of the server
    (internal/server/server.go, internal/server/webhooks.go)

    The cases of [exec] beyond those of the data commands, over the whole
    [Machine]: the core server and the managers beside it.  The scripts and
    the dispatcher of all commands are in ServerScript.v. *)
From Stdlib Require Import SpecFloat.
From S2P Require Import Prelude GoLib GoText SortedSet Glob Json Store StoreStrings StoreSets StoreLists StoreLimits StoreSearch.
From S2P Require Import StoreDocs Geo StoreSketch StoreSnapshot Cluster Resp Schema Cron SlowLog AuditLog Clients Scripting PubSub Webhooks.
From S2P Require Import Replay Replication MultiMaster ServerCore ServerKeys ServerData ServerConn.

Module Admin.
Import Text Core Keys Data.
Open Scope server_scope.

Definition quoted (text arg : string) : error := EQuoted [(text, arg)] "".
Definition unsupported {A} (cmd sub : string) : M A :=
  fail (quoted (String.append "unsupported " (String.append cmd " subcommand ")) sub).

(** ** Geographic commands *)

(** [strconv.FormatFloat(x, 'f', prec, 64)]: the exact value rounded to [prec]
    decimals, ties to even. *)
Definition FormatFixed (prec : Z) (x : float64) : string :=
  let sign (neg : bool) := if neg then "-"%string else ""%string in
  match x with
  | S754_nan => "NaN"
  | S754_infinity neg => if neg then "-Inf" else "+Inf"
  | S754_zero neg => String.append (sign neg) (fixed 0 (- prec))
  | S754_finite neg m e =>
      let '(n, d) := fraction (Zpos m) e in
      let a := n * 10 ^ prec in
      let q := a / d in
      let r := 2 * (a mod d) in
      let c := if (r >? d) || ((r =? d) && Z.odd q) then q + 1 else q in
      String.append (sign neg) (fixed c (- prec))
  end.

Definition convertGeoUnit (meters : float64) (unit_ : string) : float64 :=
  if (unit_ =? "km")%string then fdiv meters (f_of_Z 1000)
  else if (unit_ =? "mi")%string then fdiv meters (decimal_float false 1609344 (-3))
  else if (unit_ =? "ft")%string then fdiv meters (decimal_float false 3048 (-4))
  else meters.

Definition geoUnitToMeters (val : float64) (unit_ : string) : float64 :=
  if (unit_ =? "km")%string then fmul val (f_of_Z 1000)
  else if (unit_ =? "mi")%string then fmul val (decimal_float false 1609344 (-3))
  else if (unit_ =? "ft")%string then fmul val (decimal_float false 3048 (-4))
  else val.

Fixpoint geo_members (l : list string) : M (list Geo.GeoMember) :=
  match l with
  | lon :: lat :: name :: l =>
      let! x := parse_float lon in
      let! y := parse_float lat in
      let! rest := geo_members l in ret (Geo.mkMember x y name :: rest)
  | _ => ret []
  end.

Definition exec_GEOADD : handler := fun args =>
  at_least 5 "GEOADD" args ;;; ensureOwns [arg 1 args] ;;;
  unless (negb ((argc args - 2) mod 3 =? 0)) (wrongArgs "GEOADD") ;;;
  let! members := geo_members (drop 2 args) in
  persist (["ZADD"%string; arg 1 args]
           ++ concat ((fun m => [FormatFloat (Geo.GeoEncode (Geo.lon m) (Geo.lat m)); Geo.Name m]) <$> members)) ;;;
  let! n := check (run (fun now => Geo.GeoAdd now (arg 1 args) members)) in reply (WInt n).

Definition exec_GEOPOS : handler := fun args =>
  at_least 3 "GEOPOS" args ;;; ensureOwns [arg 1 args] ;;;
  let! points := query (fun now => Geo.GeoPos now (arg 1 args) (drop 2 args)) in
  replies (WArray (zlen points) :: concat ((fun p => match p with
    | None => [WNullArray]
    | Some p => [WArray 2; WBulk (FormatFloat (Geo.Longitude p)); WBulk (FormatFloat (Geo.Latitude p))]
    end) <$> points)).

Section Geography.
Context (math : Geo.math) (sort_by_dist : list Geo.GeoResult -> list Geo.GeoResult).

Definition exec_GEODIST : handler := fun args =>
  unless ((argc args <? 4) || (argc args >? 5)) (wrongArgs "GEODIST") ;;; ensureOwns [arg 1 args] ;;;
  let! d := query (fun now => Geo.GeoDist math now (arg 1 args) (arg 2 args) (arg 3 args)) in
  match d with
  | None => reply WNull
  | Some dist =>
      let unit_ := if argc args =? 5 then ToLower (arg 4 args) else "m"%string in
      reply (WBulk (FormatFixed 4 (convertGeoUnit dist unit_)))
  end.

Record geo_options := mkGeo {
  fromMember : string; centerLon : float64; centerLat : float64; radius : float64;
  asc : bool; count : Z; withCoord : bool; withDist : bool
}.

(** The loop over the options; a word it does not know is skipped. *)
Fixpoint geo_parse (fuel : nat) (l : list string) (o : geo_options) : M geo_options :=
  match fuel, l with
  | S fuel, w :: l =>
      let w := ToUpper w in
      if (w =? "FROMMEMBER")%string then
        match l with
        | m :: l => geo_parse fuel l (mkGeo m (centerLon o) (centerLat o) (radius o) (asc o) (count o) (withCoord o) (withDist o))
        | _ => wrongArgs "GEOSEARCH"
        end
      else if (w =? "FROMLONLAT")%string then
        match l with
        | lon :: lat :: l =>
            let! x := parse_float lon in
            let! y := parse_float lat in
            geo_parse fuel l (mkGeo (fromMember o) x y (radius o) (asc o) (count o) (withCoord o) (withDist o))
        | _ => wrongArgs "GEOSEARCH"
        end
      else if (w =? "BYRADIUS")%string then
        match l with
        | r :: u :: l =>
            let! x := parse_float r in
            geo_parse fuel l (mkGeo (fromMember o) (centerLon o) (centerLat o) (geoUnitToMeters x (ToLower u)) (asc o) (count o)
              (withCoord o) (withDist o))
        | _ => wrongArgs "GEOSEARCH"
        end
      else if (w =? "ASC")%string || (w =? "DESC")%string then
        geo_parse fuel l (mkGeo (fromMember o) (centerLon o) (centerLat o) (radius o) (w =? "ASC")%string (count o)
          (withCoord o) (withDist o))
      else if (w =? "COUNT")%string then
        match l with
        | c :: l =>
            let! n := atoi c in
            geo_parse fuel l (mkGeo (fromMember o) (centerLon o) (centerLat o) (radius o) (asc o) n (withCoord o) (withDist o))
        | _ => wrongArgs "GEOSEARCH"
        end
      else if (w =? "WITHCOORD")%string then
        geo_parse fuel l (mkGeo (fromMember o) (centerLon o) (centerLat o) (radius o) (asc o) (count o) true (withDist o))
      else if (w =? "WITHDIST")%string then
        geo_parse fuel l (mkGeo (fromMember o) (centerLon o) (centerLat o) (radius o) (asc o) (count o) (withCoord o) true)
      else geo_parse fuel l o
  | _, _ => ret o
  end.

Definition geo_wires (o : geo_options) (r : Geo.GeoResult) : list wire :=
  let extras := (if withDist o then 1 else 0) + (if withCoord o then 1 else 0) in
  if extras =? 0 then [WBulk (Geo.Member r)]
  else [WArray (1 + extras); WBulk (Geo.Member r)]
       ++ (if withDist o then [WBulk (FormatFixed 4 (Geo.Dist r))] else [])
       ++ (if withCoord o then [WArray 2; WBulk (FormatFloat (Geo.rlon r)); WBulk (FormatFloat (Geo.rlat r))] else []).

Definition geoSearch : handler := fun args =>
  at_least 6 "GEOSEARCH" args ;;; ensureOwns [arg 1 args] ;;;
  let! o := geo_parse (length args) (drop 2 args) (mkGeo "" fzero fzero fzero true 0 false false) in
  let! results :=
    (if negb (fromMember o =? "")%string
     then check (query (fun now => Geo.GeoSearchByMember math sort_by_dist now (arg 1 args) (fromMember o) (radius o) (count o) (asc o)))
     else query (fun now => Geo.GeoSearchByRadius math sort_by_dist now (arg 1 args) (centerLon o) (centerLat o) (radius o)
                              (count o) (asc o))) in
  replies (WArray (zlen results) :: concat (geo_wires o <$> results)).
End Geography.

(** ** Commands that answer about the server *)

Definition sub_of (args : Replay.command) : string := ToUpper (arg 1 args).

Definition object_encoding (typ : string) : option string :=
  if (typ =? "string")%string then Some "embstr"%string
  else if (typ =? "hash")%string then Some "hashtable"%string
  else if (typ =? "list")%string then Some "listpack"%string
  else if (typ =? "set")%string then Some "hashtable"%string
  else if (typ =? "zset")%string then Some "skiplist"%string
  else if (typ =? "stream")%string then Some "stream"%string
  else if (typ =? "json")%string then Some "json"%string
  else None.

(** [if typ == "none" { return w.Null() }; return w.Int(n)] *)
Definition int_if_present (n : Z) (cmd : string) (args : Replay.command) : M unit :=
  exactly 3 cmd args ;;;
  let! typ := query (fun now => Strings.Type_ now (arg 2 args)) in
  if (typ =? "none")%string then reply WNull else reply (WInt n).

Definition exec_OBJECT : handler := fun args =>
  at_least 2 "OBJECT" args ;;;
  let sub := sub_of args in
  if (sub =? "ENCODING")%string then
    exactly 3 "OBJECT" args ;;;
    let! typ := query (fun now => Strings.Type_ now (arg 2 args)) in bulk_or_null (object_encoding typ)
  else if (sub =? "REFCOUNT")%string then int_if_present 1 "OBJECT" args
  else if (sub =? "IDLETIME")%string || (sub =? "FREQ")%string then int_if_present 0 "OBJECT" args
  else if (sub =? "HELP")%string then
    writeBulkStrings ["OBJECT ENCODING <key> - Return the encoding of a key.";
                      "OBJECT REFCOUNT <key> - Return the reference count of a key.";
                      "OBJECT IDLETIME <key> - Return the idle time of a key.";
                      "OBJECT FREQ <key> - Return the access frequency of a key.";
                      "OBJECT HELP - Return this help text."]%string
  else unsupported "OBJECT" (arg 1 args).

Definition exec_COMMAND : handler := fun args =>
  if argc args =? 1 then reply (WArray 0)
  else if (sub_of args =? "COUNT")%string then reply (WInt 60)
  else if (sub_of args =? "DOCS")%string then reply (WArray 0)
  else unsupported "COMMAND" (arg 1 args).

(** CONFIG SET: the pairs in order; what precedes a bad value is in effect. *)
Fixpoint config_set (l : list string) : M unit :=
  match l with
  | param :: val :: l =>
      let param := ToLower param in
      (if (param =? "maxmemory")%string then
         match ParseInt val with
         | (n, None) => run (fun _ st => (tt, Limits.SetMaxMemory n st))
         | (_, Some _) => fail (EMsg (String.append "invalid maxmemory value: " val))
         end
       else if (param =? "maxmemory-policy")%string then
         if bool_decide (val ∈ ["noeviction"; "allkeys-random"; "volatile-random"; "allkeys-lru"]%string)
         then run (fun _ st => (tt, Limits.SetEvictPolicy val st))
         else fail (EMsg (String.append "unsupported maxmemory-policy: " val))
       else ret tt) ;;; config_set l
  | _ => ok
  end.

Definition exec_CONFIG : handler := fun args =>
  at_least 2 "CONFIG" args ;;;
  if (sub_of args =? "GET")%string then
    exactly 3 "CONFIG" args ;;;
    let pattern := ToLower (arg 2 args) in
    let! memory := query (fun _ st => (Store.maxMemory st, Store.evictPolicy st)) in
    writeBulkStrings ((if (pattern =? "maxmemory")%string || (pattern =? "*")%string
                       then ["maxmemory"%string; FormatInt memory.1] else [])
                      ++ (if (pattern =? "maxmemory-policy")%string || (pattern =? "*")%string
                          then ["maxmemory-policy"%string; memory.2] else []))
  else if (sub_of args =? "SET")%string then
    unless ((argc args <? 4) || negb (argc args mod 2 =? 0)) (wrongArgs "CONFIG") ;;; config_set (drop 2 args)
  else unsupported "CONFIG" (arg 1 args).

Definition exec_WAIT : handler := fun args => exactly 3 "WAIT" args ;;; reply (WInt 0).

Definition exec_TIME : handler := fun args =>
  exactly 1 "TIME" args ;;;
  let! now := clock in
  replies [WArray 2; WBulk (FormatInt (Store.Unix now)); WBulk (FormatInt (now mod 10 ^ 9 / 1000))].

Definition exec_MEMORY : handler := fun args =>
  at_least 2 "MEMORY" args ;;;
  if (sub_of args =? "USAGE")%string then int_if_present 64 "MEMORY" args
  else if (sub_of args =? "DOCTOR")%string then reply (WBulk "Sam, I have no memory problems")
  else if (sub_of args =? "HELP")%string then writeBulkStrings ["MEMORY USAGE <key>"; "MEMORY DOCTOR"; "MEMORY HELP"]%string
  else unsupported "MEMORY" (arg 1 args).

Definition exec_DEBUG : handler := fun args =>
  at_least 2 "DEBUG" args ;;;
  if (sub_of args =? "SLEEP")%string then exactly 3 "DEBUG" args ;;; let! _ := parse_float (arg 2 args) in ok
  else if (sub_of args =? "SET-ACTIVE-EXPIRE")%string then ok
  else unsupported "DEBUG" (arg 1 args).

Definition exec_LATENCY : handler := fun args =>
  at_least 2 "LATENCY" args ;;;
  if (sub_of args =? "LATEST")%string || (sub_of args =? "HISTORY")%string then reply (WArray 0)
  else if (sub_of args =? "RESET")%string then ok
  else unsupported "LATENCY" (arg 1 args).

Definition exec_ACL : handler := fun args =>
  at_least 2 "ACL" args ;;;
  if (sub_of args =? "WHOAMI")%string then reply (WBulk "default")
  else if (sub_of args =? "LIST")%string then writeBulkStrings ["user default on ~* +@all"%string]
  else if (sub_of args =? "GETUSER")%string then
    exactly 3 "ACL" args ;;;
    if (arg 2 args =? "default")%string then replies [WArray 2; WBulk "flags"] ;;; writeBulkStrings ["on"%string] else reply WNull
  else if (sub_of args =? "CAT")%string then
    writeBulkStrings ["read"; "write"; "set"; "sortedset"; "list"; "hash"; "string"; "stream"; "pubsub"; "admin"; "fast"; "slow";
                      "generic"; "server"; "connection"]%string
  else unsupported "ACL" (arg 1 args).

Definition exec_SELECT : handler := fun args =>
  exactly 2 "SELECT" args ;;;
  let! db := atoi (arg 1 args) in
  if negb (db =? 0) then fail (EMsg "ERR SELECT is not supported, use NAMESPACE instead") else ok.

Definition exec_RESET : handler := fun _ => reply (WSimple "RESET").

Definition exec_MODULE : handler := fun args =>
  at_least 2 "MODULE" args ;;;
  if (sub_of args =? "LIST")%string then reply (WArray 0)
  else if (sub_of args =? "LOAD")%string || (sub_of args =? "UNLOAD")%string then fail (EMsg "ERR modules are not supported")
  else unsupported "MODULE" (arg 1 args).

Definition exec_RESTORE : handler := fun args =>
  at_least 4 "RESTORE" args ;;; error_reply "ERR RESTORE is not supported in Vole".

Definition exec_SWAPDB : handler := fun args =>
  exactly 3 "SWAPDB" args ;;;
  error_reply "ERR SWAPDB is not supported (Vole uses namespaces instead of numbered databases)".

Definition exec_PFCOUNT (math : Geo.math) : handler := fun args =>
  at_least 2 "PFCOUNT" args ;;; ensureOwns (drop 1 args) ;;;
  let! n := query (fun now => Sketch.PFCount (Geo.Log math) now (drop 1 args)) in reply (WInt n).

Definition plain_cases (math : Geo.math) (sort_by_dist : list Geo.GeoResult -> list Geo.GeoResult) : list (string * handler) :=
  [("GEOADD", exec_GEOADD); ("GEOPOS", exec_GEOPOS); ("GEODIST", exec_GEODIST math); ("GEOSEARCH", geoSearch math sort_by_dist);
   ("OBJECT", exec_OBJECT); ("COMMAND", exec_COMMAND); ("CONFIG", exec_CONFIG); ("WAIT", exec_WAIT); ("TIME", exec_TIME);
   ("MEMORY", exec_MEMORY); ("DEBUG", exec_DEBUG); ("LATENCY", exec_LATENCY); ("ACL", exec_ACL);
   ("SELECT", exec_SELECT); ("RESET", exec_RESET); ("MODULE", exec_MODULE); ("RESTORE", exec_RESTORE); ("SWAPDB", exec_SWAPDB);
   ("PFCOUNT", exec_PFCOUNT math)].

(** ** The whole server *)

(** The store of [mm] is the store of the server and is not used here; [saves]
    counts the background saves that have been started and not yet run. *)
Record Machine := mkMachine {
  core : Server;
  pubsub : PubSub.PubSub;
  webhooks : Webhooks.WebhookManager;
  cron : Cron.CronManager;
  audit : AuditLog.AuditLog;
  scripts : Scripting.ScriptManager;
  slowlog : SlowLog.SlowLog;
  clients : Clients.ClientManager;
  repl : Replication.ReplicationState;
  mm : MultiMaster.MultiMaster;
  snapshotPath : string;
  disk : Snapshots.fs;
  lastSave : Z;
  saves : nat
}.

Definition with_core (s : Server) (m : Machine) : Machine :=
  mkMachine s (pubsub m) (webhooks m) (cron m) (audit m) (scripts m) (slowlog m) (clients m) (repl m) (mm m) (snapshotPath m)
    (disk m) (lastSave m) (saves m).
Definition with_pubsub (p : PubSub.PubSub) (m : Machine) : Machine :=
  mkMachine (core m) p (webhooks m) (cron m) (audit m) (scripts m) (slowlog m) (clients m) (repl m) (mm m) (snapshotPath m)
    (disk m) (lastSave m) (saves m).
Definition with_webhooks (w : Webhooks.WebhookManager) (m : Machine) : Machine :=
  mkMachine (core m) (pubsub m) w (cron m) (audit m) (scripts m) (slowlog m) (clients m) (repl m) (mm m) (snapshotPath m)
    (disk m) (lastSave m) (saves m).
Definition with_cron (c : Cron.CronManager) (m : Machine) : Machine :=
  mkMachine (core m) (pubsub m) (webhooks m) c (audit m) (scripts m) (slowlog m) (clients m) (repl m) (mm m) (snapshotPath m)
    (disk m) (lastSave m) (saves m).
Definition with_audit (a : AuditLog.AuditLog) (m : Machine) : Machine :=
  mkMachine (core m) (pubsub m) (webhooks m) (cron m) a (scripts m) (slowlog m) (clients m) (repl m) (mm m) (snapshotPath m)
    (disk m) (lastSave m) (saves m).
Definition with_scripts (sc : Scripting.ScriptManager) (m : Machine) : Machine :=
  mkMachine (core m) (pubsub m) (webhooks m) (cron m) (audit m) sc (slowlog m) (clients m) (repl m) (mm m) (snapshotPath m)
    (disk m) (lastSave m) (saves m).
Definition with_slowlog (sl : SlowLog.SlowLog) (m : Machine) : Machine :=
  mkMachine (core m) (pubsub m) (webhooks m) (cron m) (audit m) (scripts m) sl (clients m) (repl m) (mm m) (snapshotPath m)
    (disk m) (lastSave m) (saves m).
Definition with_clients (c : Clients.ClientManager) (m : Machine) : Machine :=
  mkMachine (core m) (pubsub m) (webhooks m) (cron m) (audit m) (scripts m) (slowlog m) c (repl m) (mm m) (snapshotPath m)
    (disk m) (lastSave m) (saves m).
Definition with_repl (r : Replication.ReplicationState) (m : Machine) : Machine :=
  mkMachine (core m) (pubsub m) (webhooks m) (cron m) (audit m) (scripts m) (slowlog m) (clients m) r (mm m) (snapshotPath m)
    (disk m) (lastSave m) (saves m).
Definition with_mm (x : MultiMaster.MultiMaster) (m : Machine) : Machine :=
  mkMachine (core m) (pubsub m) (webhooks m) (cron m) (audit m) (scripts m) (slowlog m) (clients m) (repl m) x (snapshotPath m)
    (disk m) (lastSave m) (saves m).
Definition with_saved (f : Snapshots.fs) (t : Z) (n : nat) (m : Machine) : Machine :=
  mkMachine (core m) (pubsub m) (webhooks m) (cron m) (audit m) (scripts m) (slowlog m) (clients m) (repl m) (mm m) (snapshotPath m)
    f t n.
Definition with_cluster (c : Cluster.Cluster) (m : Machine) : Machine :=
  let s := core m in with_core (mkServer (store s) c (aof s) (schemas s) (hits s) (misses s)) m.

Lemma with_core_same m : with_core (core m) m = m.
Proof. by destruct m. Qed.

(** What a command meets besides [env]: the orders in which subscribers are
    met, the answers of the file system and the identifier of a contacted
    node. *)
Record world := mkWorld {
  w_env : env; w_order : list Z; w_porder : list (Z * string); w_io : Snapshots.io; w_peer : string
}.

(** What a command and the commands of its script meet: [v []] is the world of
    the command itself, [v (i :: p)] belongs to the [i]-th call of its script. *)
Definition worlds : Type := list nat -> world.
Definition call_world (i : nat) (v : worlds) : worlds := fun p => v (i :: p).

(** The handlers of the machine; [None] when they do not return. *)
Definition AM (A : Type) : Type := worlds -> Machine -> option (outcome (flow A * Machine * list wire)).

Definition aret {A} (a : A) : AM A := fun _ m => Some (Ret (Next a, m, [])).
Definition abind {A B} (x : AM A) (f : A -> AM B) : AM B := fun v m =>
  match x v m with
  | None => None
  | Some Panic => Some Panic
  | Some (Ret (Stop e, m, o)) => Some (Ret (Stop e, m, o))
  | Some (Ret (Next a, m, o)) =>
      match f a v m with
      | None => None
      | Some Panic => Some Panic
      | Some (Ret (r, m, o')) => Some (Ret (r, m, o ++ o'))
      end
  end.

Notation "'with!' x ':=' m 'in' k" := (abind m (fun x => k))
  (at level 10, x name, m at level 100, k at level 200) : server_scope.
Notation "m ;;& k" := (abind m (fun _ => k)) (at level 65, right associativity) : server_scope.

(** A handler of the core server. *)
Definition lift {A} (x : M A) : AM A := fun v m =>
  Some (match x (w_env (v [])) (core m) with Panic => Panic | Ret (f, s, o) => Ret (f, with_core s m, o) end).

Definition see {A} (f : world -> Machine -> A) : AM A := fun v m => Some (Ret (Next (f (v []) m), m, [])).
Definition change {A} (f : world -> Machine -> A * Machine) : AM A := fun v m =>
  let '(a, m) := f (v []) m in Some (Ret (Next a, m, [])).
Definition modify (f : world -> Machine -> Machine) : AM unit := fun v m => Some (Ret (Next tt, f (v []) m, [])).

Definition ahandler := Replay.command -> AM unit.

(** ** Messages, webhooks and replication *)

Definition exec_PUBLISH : ahandler := fun args =>
  lift (exactly 3 "PUBLISH" args) ;;& fun v m =>
    match PubSub.Publish (arg 1 args) (arg 2 args) (w_order (v [])) (w_porder (v [])) (pubsub m) with
    | Panic => Some Panic
    | Ret (n, p) => Some (Ret (Next tt, with_pubsub p m, [WInt n]))
    end.

Definition webhookCmd : ahandler := fun args =>
  lift (at_least 2 "WEBHOOK" args) ;;&
  let sub := sub_of args in
  if (sub =? "REGISTER")%string then
    lift (exactly 5 "WEBHOOK REGISTER" args) ;;&
    modify (fun _ m => with_webhooks (Webhooks.Register_ (arg 2 args) (arg 3 args) (arg 4 args) (webhooks m)) m) ;;& lift ok
  else if (sub =? "UNREGISTER")%string then
    lift (exactly 5 "WEBHOOK UNREGISTER" args) ;;&
    modify (fun _ m => with_webhooks (Webhooks.Unregister (arg 2 args) (arg 3 args) (arg 4 args) (webhooks m)) m) ;;& lift ok
  else if (sub =? "LIST")%string then
    with! l := see (fun _ m => map_to_list (Webhooks.List_ (webhooks m))) in
    lift (replies (WArray (zlen l) :: concat ((fun h => WArray 2 :: WBulk h.1 :: WArray (zlen h.2) :: (WBulk <$> h.2)) <$> l)))
  else lift (unsupported "WEBHOOK" sub).

Definition JoinHostPort (host port : string) : string :=
  if has_byte ":" host then String.append "[" (String.append host (String.append "]:" port))
  else String.append host (String ":" port).

Definition exec_REPLICAOF (cmd : string) : ahandler := fun args =>
  if (argc args =? 3) && EqualFold (arg 1 args) "NO" && EqualFold (arg 2 args) "ONE" then
    modify (fun _ m => with_repl (Replication.StopFollowing (repl m)) m) ;;& lift ok
  else
    lift (exactly 3 cmd args) ;;&
    modify (fun _ m => with_repl (Replication.StartFollowing (JoinHostPort (arg 1 args) (arg 2 args)) (repl m)) m) ;;& lift ok.

Definition exec_MULTIMASTER : ahandler := fun args =>
  lift (at_least 2 "MULTIMASTER" args) ;;&
  let sub := sub_of args in
  if (sub =? "ENABLE")%string then
    modify (fun _ m => with_mm (MultiMaster.ConnectToClusterPeers (cluster (core m)) (MultiMaster.Enable (mm m))) m) ;;& lift ok
  else if (sub =? "DISABLE")%string then modify (fun _ m => with_mm (MultiMaster.Disable (mm m)) m) ;;& lift ok
  else if (sub =? "STATUS")%string then
    with! x := see (fun _ m => (MultiMaster.IsEnabled (mm m), MultiMaster.PeerCount (mm m))) in
    lift (replies [WArray 4; WBulk "enabled"; WBulk (if x.1 then "true" else "false"); WBulk "peers"; WInt x.2])
  else if (sub =? "PEERS")%string then
    with! l := see (fun _ m => MultiMaster.PeerInfo (mm m)) in
    lift (replies (WArray (zlen l) :: concat ((fun p => [WArray 4; WBulk "id"; WBulk (MultiMaster.ID p); WBulk "addr";
                                                           WBulk (MultiMaster.Addr p)]) <$> l)))
  else lift (unsupported "MULTIMASTER" (arg 1 args)).

(** ** The cluster *)

Definition cluster_info (c : Cluster.Cluster) : string :=
  let online := zlen (filter (fun n => ((Cluster.State n =? Cluster.NodeOnline)%string || Cluster.Self n) = true) (Cluster.nodes c)) in
  let n := FormatInt (zlen (Cluster.nodes c)) in
  String.concat "" ["cluster_enabled:1"; Resp.crlf; "cluster_state:ok"; Resp.crlf; "cluster_known_nodes:"; n; Resp.crlf;
    "cluster_online_nodes:"; FormatInt online; Resp.crlf; "cluster_size:"; n; Resp.crlf; "cluster_slots_assigned:";
    FormatInt Cluster.slotCount; Resp.crlf; "cluster_self_id:"; Cluster.ID (Cluster.self c); Resp.crlf]%string.

Definition node_line (n : Cluster.Node) : string :=
  String.concat "" [Cluster.ID n; " "; Cluster.Addr n; "@0 "; if Cluster.Self n then "myself,master" else "master"; " ";
    if (Cluster.State n =? "")%string then "online" else Cluster.State n; " - 0 0 connected "; FormatInt (Cluster.Start n); "-";
    FormatInt (Cluster.End_ n); String (ascii_of_nat 10) ""]%string.

(** The bytes before and after the last [c]. *)
Fixpoint cut_last (c : ascii) (s : string) : option (string * string) :=
  match s with
  | EmptyString => None
  | String x s =>
      match cut_last c s with
      | Some (a, b) => Some (String x a, b)
      | None => if Ascii.eqb x c then Some (""%string, s) else None
      end
  end.

(** [net.SplitHostPort] *)
Definition SplitHostPort (s : string) : option (string * string) :=
  match cut_last ":" s with
  | None => None
  | Some (before, port) =>
      match s with
      | String "[" r =>
          match cut_byte "]" r with
          | Some (host, after) =>
              if (after =? String ":" port)%string && negb (has_byte "[" r) && negb (has_byte "]" after)
              then Some (host, port) else None
          | None => None
          end
      | _ => if has_byte ":" before || has_byte "[" s || has_byte "]" s then None else Some (before, port)
      end
  end.

Definition slot_wires (n : Cluster.Node) : list wire :=
  let '(host, port) := default (Cluster.Addr n, "0"%string) (SplitHostPort (Cluster.Addr n)) in
  [WArray 3; WInt (Cluster.Start n); WInt (Cluster.End_ n); WArray 3; WBulk host; WInt (Atoi port).1; WBulk (Cluster.ID n)].

(** [break] as soon as [maxKeys] keys are there, tested after each append. *)
Fixpoint take_matching (slot maxKeys : Z) (keys : list string) (matching : list string) : list string :=
  match keys with
  | [] => matching
  | key :: keys =>
      if Cluster.Slot key =? slot then
        let matching := matching ++ [key] in
        if zlen matching >=? maxKeys then matching else take_matching slot maxKeys keys matching
      else take_matching slot maxKeys keys matching
  end.

Definition change_cluster (f : world -> Cluster.Cluster -> result unit * Cluster.Cluster) : AM unit :=
  with! r := change (fun v m => let '(r, c) := f v (cluster (core m)) in (r, with_cluster c m)) in
  match r with Ok _ => aret tt | Err e => lift (fail (EMsg (String.append "ERR " e))) end.

(** The peer met last, when multi-master is on. *)
Definition connect_met (addr : string) (m : Machine) : Machine :=
  if MultiMaster.IsEnabled (mm m) then
    match List.find (fun n => (Cluster.Addr n =? addr)%string && negb (Cluster.Self n)) (Cluster.Nodes (cluster (core m))) with
    | Some n => with_mm (MultiMaster.ConnectToPeer (Cluster.ID n) (Cluster.Addr n) (mm m)) m
    | None => m
    end
  else m.

Definition clusterCommand : ahandler := fun args =>
  lift (at_least 2 "CLUSTER" args) ;;&
  let sub := sub_of args in
  let sub_is name := (sub =? name)%string in
  if sub_is "NODES"%string then
    with! c := see (fun _ m => cluster (core m)) in lift (reply (WBulk (String.concat "" (node_line <$> Cluster.Nodes c))))
  else if sub_is "SLOTS"%string then
    with! c := see (fun _ m => cluster (core m)) in
    lift (replies (WArray (zlen (Cluster.Nodes c)) :: concat (slot_wires <$> Cluster.Nodes c)))
  else if sub_is "MEET"%string then
    lift (exactly 3 "CLUSTER" args) ;;&
    change_cluster (fun v => Cluster.Meet (now (w_env v)) (arg 2 args) (w_peer v)) ;;&
    modify (fun _ => connect_met (arg 2 args)) ;;& lift ok
  else if sub_is "FORGET"%string then
    lift (exactly 3 "CLUSTER" args) ;;& change_cluster (fun _ => Cluster.Forget (arg 2 args)) ;;& lift ok
  else if sub_is "INFO"%string then
    with! c := see (fun _ m => cluster (core m)) in lift (reply (WBulk (cluster_info c)))
  else if sub_is "MYID"%string then
    with! c := see (fun _ m => cluster (core m)) in lift (reply (WBulk (Cluster.ID (Cluster.self c))))
  else if sub_is "RESET"%string then
    modify (fun _ m => with_cluster (Cluster.Reset (cluster (core m))) m) ;;& lift ok
  else if sub_is "REPLICATE"%string || sub_is "FAILOVER"%string || sub_is "SAVECONFIG"%string then lift ok
  else if sub_is "KEYSLOT"%string then lift (exactly 3 "CLUSTER" args ;;; reply (WInt (Cluster.Slot (arg 2 args))))
  else if sub_is "COUNTKEYSINSLOT"%string then
    lift (exactly 3 "CLUSTER" args ;;;
          let! slot := atoi (arg 2 args) in
          let! keys := query (fun now => Strings.Keys now "*") in
          reply (WInt (zlen (filter (fun key => Cluster.Slot key = slot) keys))))
  else if sub_is "GETKEYSINSLOT"%string then
    lift (exactly 4 "CLUSTER" args ;;;
          let! slot := atoi (arg 2 args) in
          let! maxKeys := atoi (arg 3 args) in
          let! keys := query (fun now => Strings.Keys now "*") in
          writeBulkStrings (take_matching slot maxKeys keys []))
  else lift (unsupported "CLUSTER" (arg 1 args)).

(** ** Information and persistence *)

Definition role_name (r : Replication.ReplicationRole) : string :=
  match r with Replication.RoleMaster => "master" | Replication.RoleReplica => "replica" end.

Definition info : AM unit :=
  with! stats := change (fun v m => let '(n, st) := Search.Stats (now (w_env v)) (iter (w_env v)) (store (core m)) in
                                    (n, with_core (with_store st (core m)) m)) in
  with! m := see (fun _ m => m) in
  let self := Cluster.self (cluster (core m)) in
  let nl := Resp.crlf in
  lift (reply (WBulk (String.concat "" (
    ["# Server"; nl; "vole_version:0.1.0"; nl; "node_id:"; Cluster.ID self; nl; "addr:"; Cluster.Addr self; nl; nl;
     "# Persistence"; nl; "appendonly:"; match aof (core m) with Some _ => "1" | None => "0" end; nl;
     "snapshot_path:"; snapshotPath m; nl; nl;
     "# Keyspace"; nl; "keys:"; FormatInt stats.1; nl; "streams:"; FormatInt stats.2; nl;
     nl; "# Replication"; nl; "role:"; role_name (Replication.Role (repl m)); nl;
     "connected_slaves:"; FormatInt (Replication.ReplicaCount (repl m)); nl]%string
    ++ (if Replication.IsReplica (repl m) then ["master_host:"; Replication.LeaderAddr (repl m); nl]%string else [])
    ++ ["multimaster_enabled:"; if MultiMaster.IsEnabled (mm m) then "true" else "false"; nl;
        "multimaster_peers:"; FormatInt (MultiMaster.PeerCount (mm m)); nl]%string)))).

(** [aof.Reset]; on an error [reached] tells whether the log was truncated. *)
Definition reset_aof (v : env) (s : Server) : result unit * Server :=
  match aof s with
  | None => (Ok tt, s)
  | Some _ =>
      match fault v with
      | None => (Ok tt, with_aof (Some []) s)
      | Some (e, reached) => (Err e, if reached then with_aof (Some []) s else s)
      end
  end.

Section Saving.
Context (marshal_doc : Json.json -> string) (encode : Snapshots.Snapshot -> result string).

(** [saveSnapshot(true)]: the last state of the file system is what it leaves. *)
Definition saveSnapshot (w : world) (m : Machine) : result unit * Machine :=
  let v := w_env w in
  let '(r, states, st) :=
    Snapshots.SaveSnapshot marshal_doc encode (snapshotPath m) (w_io w) (now v) (iter v) (disk m) (store (core m)) in
  let m := with_saved (default (disk m) (last states)) (lastSave m) (saves m) (with_core (with_store st (core m)) m) in
  match r with
  | Err e => (Err e, m)
  | Ok _ => let '(r, s) := reset_aof v (core m) in (r, with_core s (with_saved (disk m) (now v) (saves m) m))
  end.

Definition snapshot_configured : AM unit :=
  with! path := see (fun _ m => snapshotPath m) in
  if (path =? "")%string then lift (fail (EMsg "snapshot path is not configured")) else aret tt.

Definition exec_SAVE : ahandler := fun args =>
  lift (exactly 1 "SAVE" args) ;;& snapshot_configured ;;&
  with! r := change saveSnapshot in match r with Err e => lift (fail (EMsg e)) | Ok _ => lift ok end.

Definition exec_BGSAVE : ahandler := fun args =>
  lift (exactly 1 "BGSAVE" args) ;;& snapshot_configured ;;&
  modify (fun _ m => with_saved (disk m) (lastSave m) (S (saves m)) m) ;;& lift (reply (WSimple "Background saving started")).

(** The goroutine of BGSAVE; its error only goes to the log. *)
Definition background_save (w : world) (m : Machine) : Machine :=
  match saves m with O => m | S n => (saveSnapshot w (with_saved (disk m) (lastSave m) n m)).2 end.

Definition exec_LASTSAVE : ahandler := fun args =>
  lift (exactly 1 "LASTSAVE" args) ;;&
  with! t := see (fun _ m => lastSave m) in lift (reply (WInt (Store.Unix t))).
End Saving.

(** ** Scheduled jobs *)

Definition field_error_of (name : string) (e : Cron.field_error) : error :=
  match e with
  | Cron.BadStep field => EQuoted [(String.append name ": invalid step ", field)] ""
  | Cron.BadNumber text e =>
      EQuoted [(String.append name ": strconv.Atoi: parsing ", text)]
        (match e with ErrSyntax => ": invalid syntax" | ErrRange => ": value out of range" end)
  end.

Definition cron_error_of (e : Cron.cron_error) : error :=
  match e with
  | Cron.WrongCount n => EMsg (String.append "cron schedule must have 5 fields, got " (FormatInt n))
  | Cron.InField name e => field_error_of name e
  end.

Definition exec_CRON_ADD : ahandler := fun args =>
  lift (at_least 4 "CRON.ADD" args) ;;&
  let command := drop (if EqualFold (arg 3 args) "COMMAND" then 4%nat else 3%nat) args in
  match command with
  | [] => lift (wrongArgs "CRON.ADD")
  | _ => fun v m =>
      match Cron.Add (now (w_env (v []))) (arg 1 args) (arg 2 args) command (cron m) with
      | None => None
      | Some (Some e, c) => lift (fail (cron_error_of e)) v (with_cron c m)
      | Some (None, c) => lift ok v (with_cron c m)
      end
  end.

Definition exec_CRON_DEL : ahandler := fun args =>
  lift (exactly 2 "CRON.DEL" args) ;;&
  with! there := change (fun _ m => let '(b, c) := Cron.Del (arg 1 args) (cron m) in (b, with_cron c m)) in lift (bool_int there).

Section Dates.
Context (rfc3339 rfc3339nano : Z -> string).

Definition job_wires (j : Cron.CronJob) : list wire :=
  [WArray 6; WBulk (Cron.Name j); WBulk (Cron.Schedule j); WBulk (String.concat " " (Cron.Command j)); WInt (Cron.RunCount j);
   WBulk (rfc3339 (Cron.LastRun j)); WBulk (Cron.LastError j)].

Definition exec_CRON_LIST : ahandler := fun _ =>
  with! jobs := see (fun _ m => Cron.List_ (cron m)) in lift (replies (WArray (zlen jobs) :: concat (job_wires <$> jobs))).

Definition exec_CRON_INFO : ahandler := fun args =>
  lift (exactly 2 "CRON.INFO" args) ;;&
  with! j := see (fun _ m => Cron.Get (arg 1 args) (cron m)) in
  match j with
  | None => lift (reply WNull)
  | Some j =>
      lift (replies [WArray 12; WBulk "name"; WBulk (Cron.Name j); WBulk "schedule"; WBulk (Cron.Schedule j); WBulk "command";
        WBulk (String.concat " " (Cron.Command j)); WBulk "run_count"; WInt (Cron.RunCount j); WBulk "last_run";
        WBulk (rfc3339 (Cron.LastRun j)); WBulk "last_error"; WBulk (Cron.LastError j)])
  end.

(** ** Audit and slow logs *)

Definition writeAuditEntries (l : list AuditLog.AuditEntry) : M unit :=
  replies (WArray (zlen l) :: concat ((fun e => [WArray 8; WBulk "timestamp"; WBulk (rfc3339nano (AuditLog.Timestamp e));
    WBulk "key"; WBulk (AuditLog.Key e); WBulk "command"; WBulk (AuditLog.Command e); WBulk "client"; WBulk (AuditLog.Client e)])
    <$> l)).

(** [COUNT n]; a text that is no number counts as what [Atoi] returns with its
    error. *)
Definition audit_count (default_ : Z) (args : Replay.command) : Z :=
  if (argc args >=? 4) && EqualFold (arg 2 args) "COUNT" then (Atoi (arg 3 args)).1 else default_.

Definition exec_AUDIT : ahandler := fun args =>
  lift (at_least 2 "AUDIT" args) ;;&
  with! l := see (fun _ m => AuditLog.ForKey (arg 1 args) (audit_count 10 args) (audit m)) in lift (writeAuditEntries l).

Definition exec_AUDIT_SEARCH : ahandler := fun args =>
  lift (at_least 2 "AUDIT.SEARCH" args) ;;&
  with! l := see (fun _ m => AuditLog.Search (arg 1 args) (audit_count 50 args) (audit m)) in lift (writeAuditEntries l).
End Dates.

Definition exec_AUDIT_ENABLE : ahandler := fun _ => modify (fun _ m => with_audit (AuditLog.Enable (audit m)) m) ;;& lift ok.
Definition exec_AUDIT_DISABLE : ahandler := fun _ => modify (fun _ m => with_audit (AuditLog.Disable (audit m)) m) ;;& lift ok.
Definition exec_AUDIT_CLEAR : ahandler := fun _ => modify (fun _ m => with_audit (AuditLog.Clear (audit m)) m) ;;& lift ok.
Definition exec_AUDIT_SIZE : ahandler := fun _ =>
  with! n := see (fun _ m => AuditLog.Size (audit m)) in lift (reply (WInt n)).

Definition slow_wires (e : SlowLog.SlowLogEntry) : list wire :=
  [WArray 6; WInt (SlowLog.ID e); WInt (Store.Unix (SlowLog.Timestamp e)); WInt (Z.quot (SlowLog.Duration e) 1000)]
  ++ (WArray (zlen (SlowLog.Command e)) :: (WBulk <$> SlowLog.Command e)) ++ [WBulk (SlowLog.Client e); WBulk ""].

Definition exec_SLOWLOG : ahandler := fun args =>
  lift (at_least 2 "SLOWLOG" args) ;;&
  let sub := sub_of args in
  if (sub =? "GET")%string then
    let count := if argc args >=? 3 then (Atoi (arg 2 args)).1 else 10 in
    with! l := see (fun _ m => SlowLog.Get count (slowlog m)) in lift (replies (WArray (zlen l) :: concat (slow_wires <$> l)))
  else if (sub =? "LEN")%string then with! n := see (fun _ m => SlowLog.Len (slowlog m)) in lift (reply (WInt n))
  else if (sub =? "RESET")%string then modify (fun _ m => with_slowlog (SlowLog.Reset (slowlog m)) m) ;;& lift ok
  else lift (unsupported "SLOWLOG" (arg 1 args)).

(** ** Clients *)

(** CLIENT, of the command loop; [id] is the number of the connection. *)
Definition handle_client (now id : Z) (args : Replay.command) (cm : Clients.ClientManager) : wire * Clients.ClientManager :=
  if argc args <? 2 then (WErr "ERR wrong number of arguments for CLIENT" (EMsg ""), cm)
  else
    let sub := sub_of args in
    if (sub =? "LIST")%string then (WBulk (Clients.FormatList now cm), cm)
    else if (sub =? "SETNAME")%string then
      if negb (argc args =? 3) then (WErr "ERR wrong number of arguments for CLIENT SETNAME" (EMsg ""), cm)
      else (WSimple "OK", Clients.SetName id (arg 2 args) cm)
    else if (sub =? "GETNAME")%string then
      let name := Clients.GetName id cm in ((if (name =? "")%string then WNull else WBulk name), cm)
    else if (sub =? "ID")%string then (WInt id, cm)
    else if (sub =? "KILL")%string then
      if (argc args >=? 4) && EqualFold (arg 2 args) "ID" then
        match ParseUint (arg 3 args) with
        | (_, Some e) => (WErr "ERR " (ENum "ParseUint" (arg 3 args) e), cm)
        | (n, None) => let '(b, cm) := Clients.Kill n cm in (WInt (if b then 1 else 0), cm)
        end
      else (WInt 0, cm)
    else if (sub =? "INFO")%string then (WBulk (String.append "id=" (FormatInt id)), cm)
    else (WErr "ERR " (EQuoted [("unsupported CLIENT subcommand ", arg 1 args)] ""), cm).

Definition exec_CLIENT (id : Z) (args : Replay.command) (w : world) (m : Machine) : wire * Machine :=
  let t := now (w_env w) in
  let '(r, cm) := handle_client t id args (clients m) in (r, with_clients (Clients.RecordCommand t id "CLIENT" cm) m).
End Admin.
