(* ===== verification/ServerScript.v ===== *)
(** * Scripts, the command table and the command loop of the whole server
    (internal/server/server.go, internal/server/scripting.go)

    [exec] is the dispatcher of all modelled commands.  It takes fuel, because
    a script can call EVAL again and the loop of TS.DOWNSAMPLE need not end, and
    answers [None] when the fuel does not suffice or the command is outside the
    model (XREAD, XREADGROUP, BLPOP, BRPOP and DEQUEUE, which can block).  [handle_command] is what the loop of a
    connection does with a command outside a transaction: the checks, the
    command, and the records it leaves in the replication, audit, slow log and
    client managers. *)
From S2P Require Import Prelude GoLib GoText SortedSet Glob Json Store StoreStrings StoreSets StoreLists StoreLimits StoreSearch.
From S2P Require Import StoreDocs Geo StoreSnapshot Cluster Resp Schema Cron SlowLog AuditLog Clients Scripting PubSub Webhooks.
From S2P Require Import Replay Replication MultiMaster ServerCore ServerKeys ServerData ServerConn ServerAdmin.

Module Engine.
Import Text Core Keys Data Admin.
Open Scope server_scope.

(** ** Scripts *)

Fixpoint writeValue (v : Resp.Value) : list wire :=
  match v with
  | Resp.mkValue Resp.SimpleString text _ _ _ => [WSimple text]
  | Resp.mkValue Resp.ErrorString text _ _ _ => [WErr text (EMsg "")]
  | Resp.mkValue Resp.Integer _ n _ _ => [WInt n]
  | Resp.mkValue Resp.BulkString text _ _ null => [if null then WNull else WBulk text]
  | Resp.mkValue Resp.Array _ _ items null =>
      if null then [WNullArray] else WArray (zlen items) :: flat_map writeValue items
  end.

Definition script_error_of (e : Scripting.script_error) : error :=
  match e with Scripting.EmptyCall => EMsg "empty redis.call" | Scripting.BadReply e => ERead e end.

(** The keys and the other arguments.  [3+numKeys] can wrap, and a slice whose
    end precedes its start panics. *)
Definition script_args (cmd : string) (args : Replay.command) : AM (list string * list string) :=
  match Atoi (arg 2 args) with
  | (_, Some _) => lift (fail (EMsg "ERR value is not an integer or out of range"))
  | (n, None) =>
      let k := wrap64 (3 + n) in
      if argc args <? k then lift (wrongArgs cmd)
      else if k <? 3 then fun _ _ => Some Panic
      else aret (take (Z.to_nat n) (drop 3 args), drop (Z.to_nat k) args)
  end.

Section Engine.
Context (rfc3339 rfc3339nano : Z -> string) (unmarshal : string -> result Json.json) (marshal : Json.json -> result string).
Context (marshal_doc : Json.json -> string) (encode : Snapshots.Snapshot -> result string).
Context (math : Geo.math) (sort_by_dist : list Geo.GeoResult -> list Geo.GeoResult) (sha1 : string -> string).
Context (quote : string -> string) (doc_text : Docs.doc_error -> string) (read_text : Resp.read_error -> string).

Definition render_all (o : list wire) : string := String.concat "" (render quote doc_text read_text <$> o).

(** [if execErr != nil { return execErr }; return writeValue(w, result)] *)
Definition script_answer (r : option (outcome ((Scripting.script_error + option Resp.Value) * (Machine * nat))))
    : option (outcome (flow unit * Machine * list wire)) :=
  match r with
  | None => None
  | Some Panic => Some Panic
  | Some (Ret (inl e, (m, _))) => Some (Ret (Stop (Some (script_error_of e)), m, []))
  | Some (Ret (inr r, (m, _))) => Some (Ret (Next tt, m, match r with Some x => writeValue x | None => [WNull] end))
  end.

Section Script.
Context (rec : ahandler).

(** The [i]-th command of a script. *)
Definition script_exec (v : worlds) (args : Replay.command) (st : Machine * nat)
    : option (outcome (option string * (Machine * nat) * string)) :=
  let '(m, i) := st in
  match rec args (call_world i v) m with
  | None => None
  | Some Panic => Some Panic
  | Some (Ret (Stop (Some e), m, o)) => Some (Ret (Some (error_text quote doc_text read_text e), (m, S i), render_all o))
  | Some (Ret (_, m, o)) => Some (Ret (None, (m, S i), render_all o))
  end.

Definition run_script (keys argv : list string) (script : string) : AM unit := fun v m =>
  script_answer (Scripting.Execute keys argv (script_exec v) script (m, O)).

Definition exec_EVAL : ahandler := fun args =>
  lift (at_least 3 "EVAL" args) ;;&
  with! ka := script_args "EVAL" args in
  modify (fun _ m => with_scripts (Scripting.Load sha1 (arg 1 args) (scripts m)).2 m) ;;&
  run_script ka.1 ka.2 (arg 1 args).

Definition exec_EVALSHA : ahandler := fun args =>
  lift (at_least 3 "EVALSHA" args) ;;&
  with! script := see (fun _ m => Scripting.Get (arg 1 args) (scripts m)) in
  match script with
  | None => lift (fail (EMsg "NOSCRIPT No matching script. Use EVAL."))
  | Some script => with! ka := script_args "EVALSHA" args in run_script ka.1 ka.2 script
  end.
End Script.

Definition exec_SCRIPT : ahandler := fun args =>
  lift (at_least 2 "SCRIPT" args) ;;&
  let sub := sub_of args in
  if (sub =? "LOAD")%string then
    lift (exactly 3 "SCRIPT" args) ;;&
    with! sha := change (fun _ m => let '(sha, sm) := Scripting.Load sha1 (arg 2 args) (scripts m) in (sha, with_scripts sm m)) in
    lift (reply (WBulk sha))
  else if (sub =? "EXISTS")%string then
    lift (at_least 3 "SCRIPT" args) ;;&
    with! l := see (fun _ m => Scripting.Exists (drop 2 args) (scripts m)) in
    lift (replies (WArray (zlen l) :: ((fun b : bool => WInt (if b then 1 else 0)) <$> l)))
  else if (sub =? "FLUSH")%string then modify (fun _ m => with_scripts (Scripting.Flush (scripts m)) m) ;;& lift ok
  else lift (unsupported "SCRIPT" (arg 1 args)).

(** The loop of the downsampling need not end: it has the fuel of the
    dispatcher. *)
Definition exec_TS_DOWNSAMPLE (fuel : nat) : ahandler := fun args =>
  lift (exactly 7 "TS.DOWNSAMPLE" args ;;; ensureOwns [arg 1 args; arg 2 args]) ;;& fun v m =>
  match Docs.TSDownsample fuel (now (w_env (v []))) (arg 1 args) (arg 2 args) (ToLower (arg 3 args))
          (ParseInt (arg 4 args)).1 (ParseInt (arg 5 args)).1 (ParseInt (arg 6 args)).1 (store (core m)) with
  | None => None
  | Some (r, st) => lift (let! n := check (ret r) in reply (WInt n)) v (with_core (with_store st (core m)) m)
  end.

(** ** The command table *)

Definition machine_cases (fuel : nat) (rec : ahandler) : list (string * ahandler) :=
  [("PUBLISH", exec_PUBLISH); ("WEBHOOK", webhookCmd); ("CLUSTER", clusterCommand); ("INFO", fun _ => info);
   ("REPLICAOF", exec_REPLICAOF "REPLICAOF"); ("SLAVEOF", exec_REPLICAOF "SLAVEOF"); ("MULTIMASTER", exec_MULTIMASTER);
   ("SAVE", exec_SAVE marshal_doc encode); ("BGSAVE", exec_BGSAVE); ("LASTSAVE", exec_LASTSAVE);
   ("CRON.ADD", exec_CRON_ADD); ("CRON.DEL", exec_CRON_DEL); ("CRON.LIST", exec_CRON_LIST rfc3339);
   ("CRON.INFO", exec_CRON_INFO rfc3339); ("AUDIT", exec_AUDIT rfc3339nano); ("AUDIT.SEARCH", exec_AUDIT_SEARCH rfc3339nano);
   ("AUDIT.ENABLE", exec_AUDIT_ENABLE); ("AUDIT.DISABLE", exec_AUDIT_DISABLE); ("AUDIT.CLEAR", exec_AUDIT_CLEAR);
   ("AUDIT.SIZE", exec_AUDIT_SIZE); ("EVAL", exec_EVAL rec); ("EVALSHA", exec_EVALSHA rec); ("SCRIPT", exec_SCRIPT);
   ("SLOWLOG", exec_SLOWLOG); ("TS.DOWNSAMPLE", exec_TS_DOWNSAMPLE fuel)].

Fixpoint exec (fuel : nat) (args : Replay.command) : AM unit :=
  match fuel with
  | O => fun _ _ => None
  | S fuel =>
      match Conn.exec rfc3339 unmarshal marshal args with
      | Some x => lift x
      | None =>
          let cmd := ToUpper (arg 0 args) in
          match Replay.select cmd (plain_cases math sort_by_dist), Replay.select cmd (machine_cases fuel (exec fuel)) with
          | Some h, _ => lift (h args)
          | None, Some h => h args
          | None, None => fun _ _ => None
          end
      end
  end.

(** ** The command loop *)

Definition no_limit (v : worlds) (perm : nat -> list string -> list string) : Conn.turn :=
  Conn.mkTurn (fun _ => w_env (v [])) perm (fun _ n => n).

(** [audit.Record] and the two calls of [Propagate], after a command without
    error; the messages to the peers are the second component. *)
Definition after_write (client : string) (w : world) (args : Replay.command) (m : Machine)
    : Machine * list (string * Replay.command) :=
  let m := match Replication.Role (repl m) with
           | Replication.RoleMaster => with_repl (Replication.PropagateToReplicas args (repl m)) m
           | Replication.RoleReplica => m
           end in
  let sent := MultiMaster.PropagateToAllPeers args (mm m) in
  (with_audit (AuditLog.Record_ (now (w_env w)) (arg 1 args) (ToUpper (arg 0 args)) client args (audit m)) m, sent).

(** [slowlog.Record] and [clients.RecordCommand] *)
Definition record_command (id : Z) (client : string) (took t : Z) (args : Replay.command) (m : Machine) : outcome Machine :=
  match SlowLog.Record_ t took args client (slowlog m) with
  | Panic => Panic
  | Ret sl => Ret (with_clients (Clients.RecordCommand t id (ToUpper (arg 0 args)) (clients m)) (with_slowlog sl m))
  end.

(** A command of the connection [id] from [client], which took [took]
    nanoseconds. *)
Definition handle_command (fuel : nat) (id : Z) (client : string) (took : Z) (perm : nat -> list string -> list string)
    (v : worlds) (args : Replay.command) (m : Machine)
    : option (outcome (Machine * list (string * Replay.command) * list wire)) :=
  let cmd := ToUpper (arg 0 args) in
  let writes := isWriteCommand cmd in
  let t := now (w_env (v [])) in
  if writes && Replication.IsReplica (repl m) && negb (MultiMaster.IsEnabled (mm m)) then
    Some (Ret (m, [], [Conn.err "READONLY You can't write against a read only replica"]))
  else
    let '(r, s) := if writes then Conn.evict (no_limit v perm) (core m) else (Ok tt, core m) in
    let m := with_core s m in
    match r with
    | Err e => Some (Ret (m, [], [WErr "OOM " (EMsg e)]))
    | Ok _ =>
        match exec fuel args v m with
        | None => None
        | Some Panic => Some Panic
        | Some (Ret (f, m, o)) =>
            let '(m, sent, o) :=
              match f with
              | Stop (Some e) => (m, [], o ++ [WErr "ERR " e])
              | _ => if writes then let '(m, sent) := after_write client (v []) args m in (m, sent, o) else (m, [], o)
              end in
            match record_command id client took t args m with Panic => Some Panic | Ret m => Some (Ret (m, sent, o)) end
        end
    end.

(** ** What EVAL does *)

Lemma exec_eval fuel args :
  ToUpper (arg 0 args) = "EVAL"%string -> exec (S fuel) args = exec_EVAL (exec fuel) args.
Proof. intros H. cbn [exec]. unfold Conn.exec. rewrite H. reflexivity. Qed.

(** With the keys and arguments cut, EVAL keeps the script and runs it. *)
Lemma eval_runs rec script n rest keys argv v m :
  let args := "EVAL"%string :: script :: n :: rest in
  script_args "EVAL" args = aret (keys, argv) ->
  exec_EVAL rec args v m =
  run_script rec keys argv script v (with_scripts (Scripting.Load sha1 script (scripts m)).2 m).
Proof.
  intros args Hka. unfold exec_EVAL, abind. rewrite Hka. unfold lift, at_least, unless, argc.
  replace (zlen args <? 3) with false by (symmetry; apply Z.ltb_ge; unfold args; rewrite !zlen_cons; pose proof (zlen_nonneg rest); lia).
  cbn -[run_script Scripting.Load]. rewrite with_core_same. change (arg 1 args) with script.
  destruct (run_script _ _ _ _ _ _) as [[[[f m'] o]|]|]; [|done|done]. by destruct f.
Qed.

(** A script that evaluates its first argument with itself as argument. *)
Definition self_call : string := "redis.call('EVAL', ARGV[1], '0', ARGV[1])".

Lemma self_call_parses :
  Scripting.parseSimpleScript self_call = Ret ([Scripting.mkCall "" ["EVAL"; "ARGV[1]"; "0"; "ARGV[1]"]%string], ""%string).
Proof. vm_compute. reflexivity. Qed.

Lemma self_call_resolves :
  Scripting.resolveArgs [] [self_call] ["EVAL"; "ARGV[1]"; "0"; "ARGV[1]"]%string ∅ =
  Ret ["EVAL"; self_call; "0"; self_call]%string.
Proof. vm_compute. reflexivity. Qed.

(** A script can call itself and nothing bounds the depth.  EVAL of the
    script that evaluates its argument, given itself as the argument, answers
    at no depth of the interpreter, whatever the state: the process runs until
    the stack is exhausted. *)
Theorem eval_never_returns fuel v m : exec fuel ["EVAL"; self_call; "0"; self_call]%string v m = None.
Proof.
  revert v m. induction fuel as [|fuel IH]; intros v m; [done|].
  rewrite exec_eval by reflexivity. rewrite (eval_runs _ _ _ _ [] [self_call]) by reflexivity.
  unfold run_script, Scripting.Execute. rewrite self_call_parses. cbn [Scripting.run_calls Scripting.args].
  rewrite self_call_resolves. unfold Scripting.execRedisCall, script_exec. by rewrite IH.
Qed.

(** C14: EVAL of plain calls is its commands.  For commands whose words contain
    no single quote and no line break, neither begin nor end with blanks
    (which a call drops, quoted or not) and do not begin like a reference to
    KEYS or ARGV or a call of tostring or tonumber, EVAL of the script that calls them
    one to a line and returns the last does what the dispatcher does with them
    one after the other, on the server that keeps the script: same final
    state, the reply of the last, the same panic, and it runs out of fuel
    exactly when they do. *)
Theorem eval_is_its_commands fuel cmds last v m :
  Forall (Forall (fun a => Scripting.plain_word a = true)) (cmds ++ [last]) ->
  let script := Scripting.script_of cmds last in
  exec (S fuel) ["EVAL"; script; "0"]%string v m =
  script_answer (Scripting.run_commands (script_exec (exec fuel) v) (cmds ++ [last]) None
                   (with_scripts (<[sha1 script := script]> (scripts m)) m, O)).
Proof.
  intros H script. rewrite exec_eval by reflexivity. rewrite (eval_runs _ _ _ _ [] []) by reflexivity.
  unfold run_script, script. by rewrite Scripting.execute_plain.
Qed.

(** ** The command loop over the whole server *)

(** The node of ServerConn.v that a machine is. *)
Definition views (m : Machine) (n : Conn.Node) : Prop :=
  Conn.server n = core m /\ Conn.is_replica n = Replication.IsReplica (repl m) /\ Conn.multi_master n = MultiMaster.IsEnabled (mm m).

(** What a command of the loop leaves in the other managers: nothing, or the
    traces of a write. *)
Definition traces (client : string) (w : world) (args : Replay.command) (n n' : Conn.Node) (m m' : Machine)
    (sent : list (string * Replay.command)) : Prop :=
  (Conn.replicated n' = Conn.replicated n /\ repl m' = repl m /\ audit m' = audit m /\ sent = []) \/
  (Conn.replicated n' = Conn.replicated n ++ [args] /\
   repl m' = (if Replication.IsReplica (repl m) then repl m else Replication.PropagateToReplicas args (repl m)) /\
   audit m' = AuditLog.Record_ (now (w_env w)) (arg 1 args) (ToUpper (arg 0 args)) client args (audit m) /\
   sent = MultiMaster.PropagateToAllPeers args (mm m)).

(** The machines that differ at most in the slow log and the clients. *)
Definition same_but_records (m m' : Machine) : Prop :=
  core m' = core m /\ repl m' = repl m /\ mm m' = mm m /\ audit m' = audit m.

Lemma record_returns id client took t args m :
  0 <= SlowLog.maxLen (slowlog m) ->
  exists m', record_command id client took t args m = Ret m' /\ same_but_records m m'.
Proof.
  intros H. unfold record_command, SlowLog.Record_.
  assert ((SlowLog.maxLen (slowlog m) <? 0) = false) as -> by by apply Z.ltb_ge.
  destruct (took <? _); [|destruct (zlen _ >? _)]; eexists; (split; [reflexivity|done]).
Qed.

Lemma record_finishes id client took w args n n' m m1 sent (o : list wire) (c : Conn.Connection) :
  views m1 n' -> traces client w args n n' m m1 sent -> 0 <= SlowLog.maxLen (slowlog m1) ->
  exists m' sent',
    match record_command id client took (now (w_env w)) args m1 with Panic => Some Panic | Ret m => Some (Ret (m, sent, o)) end =
      Some (Ret (m', sent', o)) /\
    views m' n' /\ traces client w args n n' m m' sent' /\ c = c /\ true = true.
Proof.
  intros Hv Ht H. destruct (record_returns id client took (now (w_env w)) args m1 H) as (m' & -> & Hc & Hr & Hm & Ha).
  exists m', sent. split; [done|]. unfold views, traces in *. rewrite Hc, Hr, Hm, Ha. done.
Qed.

Lemma exec_core fuel args x v m :
  Conn.exec rfc3339 unmarshal marshal args = Some x -> exec (S fuel) args v m = lift x v m.
Proof. intros H. cbn [exec]. by rewrite H. Qed.

Lemma after_write_traces client w args m n s' :
  views m n -> (negb (Conn.is_replica n) || Conn.multi_master n) = true ->
  let m1 := with_core s' m in
  let n' := Conn.mkNode s' (Conn.password n) (Conn.namespaces n) (Conn.is_replica n) (Conn.multi_master n) (Conn.replicated n ++ [args]) in
  let r := after_write client w args m1 in
  views r.1 n' /\ traces client w args n n' m r.1 r.2 /\ slowlog r.1 = slowlog m.
Proof.
  intros (Hs & Hr & Hm) Hp. destruct m as [? ? ? ? ? ? ? ? [[] ? ? ?] ? ? ? ? ?]; cbn in *; subst;
    (split; [done|split; [by right|done]]).
Qed.

(** The machine does what the node of ServerConn.v does with a command outside a transaction.  Same reply and same
    panic, and the two stay related; a command the node hands to the replication layer is written to every
    replica (on a master) and every peer and entered in the audit log. *)
Theorem machine_refines_node fuel id client took perm v args m n c :
  views m n -> 0 <= SlowLog.maxLen (slowlog m) ->
  match Conn.handle_command rfc3339 unmarshal marshal (no_limit v perm) args n c with
  | None => True
  | Some Panic => handle_command (S fuel) id client took perm v args m = Some Panic
  | Some (Ret (n', c', o, again)) =>
      exists m' sent, handle_command (S fuel) id client took perm v args m = Some (Ret (m', sent, o)) /\
        views m' n' /\ traces client (v []) args n n' m m' sent /\ c' = c /\ again = true
  end.
Proof.
  intros (Hs & Hr & Hm) Hsl. unfold Conn.handle_command, handle_command. rewrite Hr, Hm, Hs.
  set (writes := isWriteCommand (ToUpper (arg 0 args))).
  destruct (writes && _ && _) eqn:Hro.
  { eexists m, []. repeat split; try done. left. done. }
  destruct (if writes then _ else _) as [[[]|e] s]; last first.
  { eexists _, []. repeat split; try done. left. done. }
  unfold Conn.exec_reply. destruct (Conn.exec rfc3339 unmarshal marshal args) as [x|] eqn:Hx; [|done].
  rewrite (exec_core _ _ x) by done. unfold lift. cbn [core with_core]. change (Conn.vs (no_limit v perm) 0%nat) with (w_env (v [])).
  destruct (x (w_env (v [])) s) as [[[f s'] o]|]; [|done].
  assert (views (with_core s' (with_core s m)) (Conn.with_server s' n)) as Hviews by done.
  assert (traces client (v []) args n (Conn.with_server s' n) m (with_core s' (with_core s m)) []) as Hquiet by (left; done).
  assert (writes = true -> negb (Conn.is_replica n) || Conn.multi_master n = true) as Hp.
  { intros Hw. rewrite Hw, <-Hr, <-Hm in Hro. by destruct (Conn.is_replica n), (Conn.multi_master n). }
  destruct f as [[]|[e|]]; cbn [andb]; [|by apply record_finishes|];
    (destruct writes; cbn [andb] in *; [|by apply record_finishes]);
    destruct (after_write_traces client (v []) args (with_core s m) (Conn.with_server s n) s') as (H1 & H2 & H3);
    [done|by apply Hp| |done|by apply Hp| ];
    (destruct (after_write _ _ _ _) as [m1 sent]; cbn [Conn.is_replica Conn.multi_master Conn.with_server]; rewrite (Hp eq_refl);
     apply record_finishes; [exact H1|exact H2|cbn [fst] in H3; by rewrite H3]).
Qed.

End Engine.

(** ** Instances *)

(** A server with the given store, log and replication state, and empty
    managers beside it. *)
Definition bare (st : Store.Store) (log : option (list Replay.command)) (rs : Replication.ReplicationState) : Machine :=
  mkMachine (Conn.alone st log) PubSub.NewPubSub Webhooks.NewWebhookManager Cron.NewCronManager (AuditLog.NewAuditLog 100)
    Scripting.NewScriptManager (SlowLog.NewSlowLog 10000000 128) Clients.NewClientManager rs
    (MultiMaster.NewMultiMaster "n" "n:1" Store.New) "" ∅ Store.zeroTime O.

Definition still : worlds := fun _ =>
  mkWorld (mkEnv 0 None [] (fun _ => 0)) [] [] (Snapshots.mkIO None None [] None None None None) "".

Definition run_bare : nat -> Replay.command -> Machine -> option (outcome (Machine * list (string * Replay.command) * list wire)) :=
  fun fuel args m =>
  handle_command Conn.no_date Conn.no_date Conn.no_json Conn.no_text (fun _ => ""%string) (fun _ => Ok ""%string)
    Geo.flat (fun l => l) (fun s => s) (fun s => s) (fun _ => ""%string) (fun _ => ""%string)
    fuel 1 "10.0.0.9:5000" 0 (fun _ l => l) still args m.

Lemma eval_is_its_commands_witness :
  let cmds := [["SET"; "a"; "41"]; ["INCR"; "a"]]%string in
  let run := exec Conn.no_date Conn.no_date Conn.no_json Conn.no_text (fun _ => ""%string) (fun _ => Ok ""%string)
    Geo.flat (fun l => l) (fun s => s) (fun s => s) (fun _ => ""%string) (fun _ => ""%string) 2 in
  match run ["EVAL"; Scripting.script_of cmds ["GET"; "a"]; "0"]%string still (bare Store.New None Replication.NewReplicationState) with
  | Some (Ret (_, m, o)) => o = [WBulk "42"] /\ Store.kv (store (core m)) !! "a"%string = Some "42"%string
  | _ => False
  end.
Proof.
  cbn zeta. rewrite (eval_is_its_commands Conn.no_date Conn.no_date Conn.no_json Conn.no_text (fun _ => ""%string)
    (fun _ => Ok ""%string) Geo.flat (fun l => l) (fun s => s) (fun s => s) (fun _ => ""%string) (fun _ => ""%string) 1
    [["SET"; "a"; "41"]; ["INCR"; "a"]]%string ["GET"; "a"]%string).
  - vm_compute. split; reflexivity.
  - apply (bool_decide_unpack _). vm_compute. exact I.
Defined.

(** What a script writes escapes the checks of the loop.  A read-only replica refuses SET and runs EVAL of
    a script that does the same, so its data departs from its leader's; on a leader the write of the script
    is in the log and in the store and reaches no replica. *)
Theorem script_writes_escape :
  let set := ["SET"; "k"; "v"]%string in
  let eval := ["EVAL"; "redis.call('SET', 'k', 'v')"; "0"]%string in
  let follower := Replication.StartFollowing "leader:1" Replication.NewReplicationState in
  let leader := Replication.AddReplica 0 "r:1" Replication.NewReplicationState in
  let fed m := Replication.sent <$> Replication.replicas (repl m) !! "r:1"%string in
  match run_bare 2 set (bare Store.New None follower), run_bare 2 eval (bare Store.New None follower) with
  | Some (Ret (m1, _, o1)), Some (Ret (m2, _, o2)) =>
      o1 = [Conn.err "READONLY You can't write against a read only replica"] /\ Store.kv (store (core m1)) !! "k"%string = None /\
      o2 = [WSimple "OK"] /\ Store.kv (store (core m2)) !! "k"%string = Some "v"%string
  | _, _ => False
  end /\
  match run_bare 2 set (bare Store.New (Some []) leader), run_bare 2 eval (bare Store.New (Some []) leader) with
  | Some (Ret (m1, _, _)), Some (Ret (m2, _, _)) =>
      fed m1 = Some [set] /\ fed m2 = Some [] /\ aof (core m2) = aof (core m1) /\
      Store.kv (store (core m2)) !! "k"%string = Some "v"%string
  | _, _ => False
  end.
Proof. vm_compute. repeat split. Qed.
End Engine.
