(* ===== verification/ServerSaving.v ===== *)
(** * SAVE and restart (internal/server/server.go: New, saveSnapshot)

    What a server finds when it starts again after its data was saved: the
    snapshot file and the log, on the machine of ServerAdmin.v. *)
From S2P Require Import Prelude GoLib GoText Store StoreStrings StoreSnapshot Json Aof Replay ServerCore ServerConn ServerAdmin.
From S2P Require Import PubSub Webhooks Cron AuditLog Scripting SlowLog Clients Replication MultiMaster.

Module Saving.
Import Core Admin Snapshots.

Section Restart.
Context (marshal_doc : Json.json -> string) (unmarshal_doc : string -> option Json.json) (unmarshal : string -> result Json.json).
Context (encode : Snapshot -> result string) (decode : string -> result Snapshot).

(** The bytes of the log file. *)
Definition log_file (log : list Replay.command) : string := fold_left (fun file c => Aof.Append c file) log ""%string.

(** [New]: the snapshot, then the log on top of it. *)
Definition startup (path : string) (t : Z) (order : list string) (f : fs) (log : option (list Replay.command))
    : result Store.Store :=
  match LoadSnapshot unmarshal_doc decode path None t order f Store.New with
  | (Err e, _) => Err e
  | (Ok _, s) =>
      match log with
      | None => Ok s
      | Some log =>
          let '(s, bad) := Replay.ReplayAOF unmarshal t (log_file log) s in
          if bad then Err "bufio.Scanner: token too long"%string else Ok s
      end
  end.

(** A start at any later time finds the data [s] held at [t0]: every key that
    has not expired by then, with the same values and the same deadline, and
    no other. *)
Definition restores (t0 : Z) (order0 : list string) (s : Store.Store) (path : string) (f : fs)
    (log : option (list Replay.command)) : Prop :=
  forall t order, t0 <= t -> visits (Expires (Dump marshal_doc t0 order0 s).1) order ->
  exists s', startup path t order f log = Ok s' /\
    forall k, same_data (Store.entry s' k) (Store.live t (Store.entry s k)) /\
      aside s' k = if Store.e_expired t (Store.entry s k) then (None, None) else aside s k.

Definition empty_log (log : option (list Replay.command)) : Prop := log = None \/ log = Some [].

(** A complete snapshot and an empty log restore the store. *)
Lemma snapshot_starts t0 order0 s path f text log :
  path <> ""%string -> visits (Store.expires s) order0 ->
  (forall k, wf_values (Store.entry s k)) -> (forall k, doc_ok marshal_doc unmarshal_doc (Store.entry s k)) ->
  f !! path = Some text -> decode text = Ok (Dump marshal_doc t0 order0 s).1 -> empty_log log ->
  restores t0 order0 s path f log.
Proof.
  intros Hp Ho Hwf Hd Hf Htext Hlog t order Ht Hv. unfold startup, LoadSnapshot.
  apply String.eqb_neq in Hp. rewrite Hp, Hf, Htext. destruct Hlog as [->| ->]; eexists; (split; [reflexivity|]); intros k; by apply Load_Dump_entry.
Qed.

Lemma reset_log v s :
  let '(r, s') := reset_aof v s in
  store s' = store s /\ (r = Ok tt \/ aof s' <> aof s -> empty_log (aof s')).
Proof.
  unfold reset_aof, empty_log. destruct (aof s) as [l|] eqn:E; [|split; [done|by left]].
  destruct (fault v) as [[e []]|]; cbn; split; try done; try (by right). rewrite E. intros [?|?]; congruence.
Qed.

(** A save that succeeds, or fails after the log was truncated, has written
    the snapshot and emptied the log. *)
Lemma save_done w m :
  let v := w_env w in
  let d := (Dump marshal_doc (now v) (iter v) (store (core m))).1 in
  snapshotPath m <> ""%string ->
  let '(r, m') := saveSnapshot marshal_doc encode w m in
  untorn (snapshotPath m) (encode d) (disk m) (disk m') /\
  (r = Ok tt \/ aof (core m') <> aof (core m) ->
   exists text, encode d = Ok text /\ disk m' !! snapshotPath m = Some text /\ empty_log (aof (core m'))).
Proof.
  intros v d Hp. unfold saveSnapshot.
  pose proof (save_states marshal_doc encode (snapshotPath m) (w_io w) (now v) (iter v) (disk m) (store (core m))) as Hst.
  pose proof (save_ok marshal_doc encode (snapshotPath m) (w_io w) (now v) (iter v) (disk m) (store (core m)) Hp) as Hok.
  fold v. destruct (SaveSnapshot _ _ _ _ _ _ _ _) as [[r states] st]. cbn [fst snd] in *.
  assert (untorn (snapshotPath m) (encode d) (disk m) (default (disk m) (last states))) as Hun.
  { destruct (last states) as [f|] eqn:E; [|apply untorn_refl]. apply Hst. by apply last_Some_elem_of. }
  destruct r as [[]|e]; [|split; [exact Hun|by intros [?|?]]].
  destruct (Hok eq_refl) as (text & f & Htext & Hlast & Hf). rewrite Hlast in *. cbn [default] in *.
  pose proof (reset_log v (with_store st (core m))) as Hreset. cbn [core with_saved with_core].
  destruct (reset_aof _ _) as [r s']. destruct Hreset as [_ Hlog].
  split; [exact Hun|]. intros H. exists text. split; [done|]. split; [done|]. by apply Hlog.
Qed.

(** C8: SAVE loses nothing.  Whatever call fails, the snapshot file is the previous one or the complete new
    one; and when SAVE succeeds, or when it failed after the log was already truncated, a server started
    from the files has every key that has not expired by then, with the same values, deadline, queue and
    tags, and no other key.  Of encoding/json it uses that the encoding of this snapshot reads back as it
    was written, and so does each stored document. *)
Theorem save_then_restart w m :
  let v := w_env w in
  let s := store (core m) in
  let d := (Dump marshal_doc (now v) (iter v) s).1 in
  snapshotPath m <> ""%string -> visits (Store.expires s) (iter v) ->
  (forall k, wf_values (Store.entry s k)) -> (forall k, doc_ok marshal_doc unmarshal_doc (Store.entry s k)) ->
  (forall text, encode d = Ok text -> decode text = Ok d) ->
  let '(r, m') := saveSnapshot marshal_doc encode w m in
  untorn (snapshotPath m) (encode d) (disk m) (disk m') /\
  (r = Ok tt \/ aof (core m') <> aof (core m) -> restores (now v) (iter v) s (snapshotPath m) (disk m') (aof (core m'))).
Proof.
  intros v s d Hp Ho Hwf Hd Henc. pose proof (save_done w m Hp) as H. destruct (saveSnapshot marshal_doc encode w m) as [r m'].
  destruct H as [Hun H]. split; [exact Hun|]. intros (text & Htext & Hf & Hlog)%H. eapply snapshot_starts; try done. by apply Henc.
Qed.
End Restart.

(** A server with the store [small_store] and a log, saved at time 1. *)
Definition saved_once : world :=
  mkWorld (mkEnv 1 None ["s"%string] (fun _ => 0)) [] [] (mkIO None None [] None None None None) "".
Definition to_save : Machine :=
  mkMachine (Conn.alone small_store (Some [["SET"; "s"; "v"]%string])) PubSub.NewPubSub Webhooks.NewWebhookManager
    Cron.NewCronManager (AuditLog.NewAuditLog 100) Scripting.NewScriptManager (SlowLog.NewSlowLog 0 128)
    Clients.NewClientManager Replication.NewReplicationState (MultiMaster.NewMultiMaster "n" "n:1" Store.New) "dump" ∅ 0 O.

Lemma save_then_restart_witness :
  let d := (Dump (fun _ => "null"%string) 1 ["s"%string] small_store).1 in
  let m' := (saveSnapshot (fun _ => "null"%string) (fun _ => Ok "text"%string) saved_once to_save).2 in
  aof (core m') = Some [] /\
  restores (fun _ => "null"%string) (fun _ => Some Json.JNull) Conn.no_json (fun _ => Ok d) 1 ["s"%string] small_store "dump"
    (disk m') (aof (core m')).
Proof.
  split; [vm_compute; reflexivity|].
  pose proof (save_then_restart (fun _ => "null"%string) (fun _ => Some Json.JNull) Conn.no_json (fun _ => Ok "text"%string)
    (fun _ => Ok (Dump (fun _ => "null"%string) 1 ["s"%string] small_store).1) saved_once to_save
    ltac:(discriminate) small_store_visits small_store_wf small_store_docs ltac:(done)) as H.
  destruct (saveSnapshot _ _ _ _) as [r m'] eqn:E. apply H. left. vm_compute in E. by injection E.
Defined.

(** A crash between the two steps of SAVE.  The snapshot is renamed into place before the log is emptied;
    when the second step fails, a start applies the log to data that already contains it, and a
    counter that was incremented once reads 2. *)
Theorem save_then_crash :
  let incr := ["INCR"; "k"]%string in
  let m0 := Conn.alone Store.New (Some []) in
  match Conn.exec Conn.no_date Conn.no_json Conn.no_text incr with
  | Some x =>
      match x (mkEnv 0 None [] (fun _ => 0)) m0 with
      | Ret (_, s, _) =>
          let d := (Dump (fun _ => ""%string) 0 [] (store s)).1 in
          let restarted := startup (fun _ => None) Conn.no_json (fun _ => Ok d) "dump" 1 [] {["dump"%string := "text"%string]} in
          (Strings.Get 1 "k" (store s)).1 = ("1"%string, true) /\
          match restarted (Some []), restarted (aof s) with
          | Ok a, Ok b => (Strings.Get 1 "k" a).1 = ("1"%string, true) /\ (Strings.Get 1 "k" b).1 = ("2"%string, true)
          | _, _ => False
          end
      | Panic => False
      end
  | None => False
  end.
Proof. vm_compute. repeat split. Qed.
End Saving.
