(* ===== verification/ServerStart.v ===== *)
(** * Starting and stopping a server (internal/server/server.go:
    NewWithOptions, Close, ListenAndServe; cmd/vole/main.go)

    From the options of the command line to the machine of ServerAdmin.v, and
    back to the files it leaves. *)
From S2P Require Import Prelude GoLib GoText Store StoreStrings StoreLimits StoreSnapshot Json Cluster Aof AofSync Config Schema Cron SlowLog AuditLog.
From S2P Require Import Clients Scripting PubSub Webhooks Replay Replication MultiMaster ServerCore ServerConn ServerAdmin ServerSaving.

Module Start.
Import Core Admin Snapshots Saving.

Section Start.
Context (marshal_doc : Json.json -> string) (unmarshal_doc : string -> option Json.json) (unmarshal : string -> result Json.json).
Context (encode : Snapshot -> result string) (decode : string -> result Snapshot).





(** The loop of [ListenAndServe]: at most 10000 connections. *)
Definition accepts (connCount : Z) : bool := connCount <? 10000.

(** ** A clean restart *)

End Start.


End Start.
