(* ===== verification/ServerRecovery.v ===== *)
(** * Recovery from the append-only log

    The commands of the server that log what they do, the records they log
    ([ServerKeys], [ServerContainers]) and the replay of those records
    ([Replay]) fit together: a server that restarts and replays its log holds
    the data it held before, as long as no deadline passes in between.  The
    proof follows one command at a time: the command changes some keys, and
    the replay of the record it appended makes the same changes. *)
From S2P Require Import Prelude GoLib GoText Deque SortedSet Store StoreStrings StoreHashes StoreSets Keyspace.
From S2P Require Import Aof Schema Replay ServerCore ServerKeys ServerContainers ServerRules ServerConn.

Module Recovery.
Import Store Strings Hashes Sets Keyspace Core Keys Containers Rules Text.
Open Scope server_scope.

(** ** Entries on which replay and execution agree *)

(** A key without a value has no deadline and no sequence number left over
    from a former value. *)
Definition settled (e : Entry) : Prop :=
  ok_entry e /\ e_lastSeq e = None /\ (e_kv e = None -> e_container e = false -> e_expire e = None).

(** Nothing has expired by time [T]. *)
Definition good (T : Z) (st : Store) : Prop :=
  forall k, settled (entry st k) /\ e_expired T (entry st k) = false.

Definition agree (st r : Store) : Prop := forall k, entry st k = entry r k.

#[export] Instance agree_equivalence : Equivalence agree.
Proof.
  split; [by intros st k|by intros st r H k|].
  intros a b c H1 H2 k. by rewrite (H1 k).
Qed.

#[export] Instance good_proper T : Proper (agree ==> iff) (good T).
Proof. intros a b H. unfold good. split; intros Hg k; specialize (Hg k); specialize (H k); congruence. Qed.





(** ** Changes of one key *)

















(** ** Effects keep entries settled *)

Lemma settled_value e e' : ok_entry e' -> e_lastSeq e' = e_lastSeq e -> settled e ->
  (is_some (e_kv e') || e_container e' = true) -> settled e'.
Proof.
  intros Hok Hl (_ & Hs & _) Hv. split; [done|]. split; [congruence|]. intros Hk Hc. by rewrite Hk, Hc in Hv.
Qed.

Lemma settled_cleared e : ok_entry e -> e_lastSeq e = None -> e_expire e = None -> settled e.
Proof. intros H1 H2 H3. done. Qed.









(** ** One command and its record *)


Section Step.
Context (T : Z) (HT : 0 <= T) (unmarshal : string -> result Json.Json.json).






End Step.



(** ** The handlers *)

Section Handlers.
Context (T : Z) (HT : 0 <= T) (unmarshal : string -> result Json.Json.json).

























(** ** Commands replayed as another one *)



(** *** Deadlines *)



Lemma not_zero_time t : T < t -> IsZero t = false.
Proof. intros H. unfold IsZero, zeroTime. lia. Qed.























(** *** Expiration *)






(** ** Replacing and deleting reads *)




(** ** Reads *)


End Handlers.

(** ** Histories *)




Section History.
Context (T : Z) (HT : 0 <= T).
Context (rfc3339 : Z -> string) (unmarshal : string -> result Json.Json.json)
        (marshal : Json.Json.json -> result string).

Definition next (ev : env * Replay.command) (s : Server) : option Server :=
  match Conn.exec_reply rfc3339 unmarshal marshal ev.1 ev.2 s with
  | Some (Ret (_, s, _)) => Some s
  | _ => None
  end.


Fixpoint serve (evs : list (env * Replay.command)) (s : Server) : option Server :=
  match evs with
  | [] => Some s
  | ev :: evs => match next ev s with Some s => serve evs s | None => None end
  end.






End History.

(** ** Concrete histories *)



Definition start : Server := Conn.alone New (Some []).

Definition at_ms (ms : Z) (args : Replay.command) : env * Replay.command :=
  (mkEnv (ms * Replay.Millisecond) None [] (fun _ => 0), args).

Definition running (evs : list (env * Replay.command)) : Server :=
  default start (serve Conn.no_date Conn.no_json Conn.no_text evs start).
Definition records (evs : list (env * Replay.command)) : list Replay.command := default [] (aof (running evs)).
Definition restarted (T : Z) (evs : list (env * Replay.command)) : Store :=
  (Replay.ReplayAOF Conn.no_json T (fold_left (fun file c => Aof.Append c file) (records evs) "") New).1.




(** Where the log does not restore the data.  A counter whose deadline was removed in time comes back
    with another value once the former deadline has passed, because the replay applies the increment to a
    key that has expired by then; an increment written 010 is 10 for the command and 8 for the replay; and
    a key expired with PEXPIREAT 0 comes back, and for good, because the replay takes 0 for no deadline. *)
Theorem recovery_pitfalls :
  let persisted := [at_ms 0 ["SETEX"; "k"; "1"; "5"]; at_ms 1 ["INCR"; "k"]; at_ms 2 ["PERSIST"; "k"]] in
  let octal := [at_ms 0 ["INCRBY"; "k"; "010"]] in
  let buried := [at_ms 0 ["SET"; "k"; "v"]; at_ms 1 ["PEXPIREAT"; "k"; "0"]] in
  let T := 10 * Replay.Second in
  ((Get T "k" (store (running persisted))).1 = ("6", true) /\ (Get T "k" (restarted T persisted)).1 = ("1", true)) /\
  ((Get T "k" (store (running octal))).1 = ("10", true) /\ (Get T "k" (restarted T octal)).1 = ("8", true)) /\
  ((Get T "k" (store (running buried))).1 = ("", false) /\ (Get T "k" (restarted T buried)).1 = ("v", true)).
Proof. vm_compute. repeat split; reflexivity. Qed.

End Recovery.
