(* ===== verification/ServerReplica.v ===== *)
(** * Replicas follow their leader (internal/server/server.go,
    internal/server/replication.go)

    A leader hands every write command that did not fail to its replicas as it
    was received, and a replica applies it with [applyReplicatedCommand] at a
    time of its own.  For commands that do the same thing at any time this
    keeps replicas equal to the leader; commands whose outcome depends on the
    clock, on a condition or on a draw, and commands [applyReplicatedCommand]
    has no case for, make them differ. *)
From S2P Require Import Prelude GoLib GoText Deque SortedSet Json Store StoreStrings StoreHashes StoreSets Keyspace.
From S2P Require Import StoreLimits Cluster Schema Replay ServerCore ServerKeys ServerContainers ServerRules ServerConn.
From S2P Require Import ServerRecovery.

Module Replica.
Import Store Strings Hashes Sets Keyspace Core Keys Containers Rules Recovery Text.
Open Scope server_scope.

Section Replica.
Context (T : Z) (unmarshal : string -> result Json.json).















(** ** The handlers *)





















(** ** Histories of a leader *)




Context (rfc3339 : Z -> string) (marshal : Json.json -> result string).





(** One command outside a transaction, and the states of the leader. *)
Definition leader_step (ev : Conn.turn * Replay.command) (n : Conn.Node) (c : Conn.Connection) : option Conn.Node :=
  match Conn.handle_command rfc3339 unmarshal marshal ev.1 ev.2 n c with
  | Some (Ret (n, _, _, _)) => Some n
  | _ => None
  end.

Fixpoint lead (evs : list (Conn.turn * Replay.command)) (n : Conn.Node) (c : Conn.Connection) : option Conn.Node :=
  match evs with
  | [] => Some n
  | ev :: evs => match leader_step ev n c with Some n => lead evs n c | None => None end
  end.


(** What the replica makes of the commands it receives, each at its time. *)
Definition follow (sent : list (Z * Replay.command)) (r : Store) : Store :=
  fold_left (fun r p => Replay.follow_one unmarshal p.1 p.2 r) sent r.







End Replica.

(** ** Concrete histories *)

Definition chief : Conn.Node := Conn.node (Conn.alone New None) "".


Definition leads (evs : list (Conn.turn * Replay.command)) : Conn.Node :=
  default chief (lead Conn.no_json Conn.no_date Conn.no_text evs chief (Conn.new_conn chief)).
Definition replica_of (times : list Z) (evs : list (Conn.turn * Replay.command)) : Store :=
  follow Conn.no_json (zip times (Conn.replicated (leads evs))) New.






(** Where replicas diverge.  A SET with NX that the leader rejects because the key exists is sent all the
    same, and the replica, which ignores NX, overwrites the key; a key set with SETEX or with MSET never
    reaches the replica, which has no case for these commands; nor does a member moved with SMOVE. *)
Theorem replica_diverges :
  let rejected := [(Conn.tick 1, ["SET"; "k"; "a"]); (Conn.tick 2, ["SET"; "k"; "b"; "NX"])] in
  let setex := [(Conn.tick 1, ["SETEX"; "k"; "100"; "a"])] in
  let mset := [(Conn.tick 1, ["MSET"; "k"; "a"])] in
  let smove := [(Conn.tick 1, ["SADD"; "k"; "m"]); (Conn.tick 2, ["SMOVE"; "k"; "d"; "m"])] in
  let value evs := (Get 5 "k" (store (Conn.server (leads evs)))).1 in
  let copy evs := (Get 5 "k" (replica_of [3; 4] evs)).1 in
  (value rejected = ("a", true) /\ copy rejected = ("b", true)) /\
  (value setex = ("a", true) /\ copy setex = ("", false)) /\
  (value mset = ("a", true) /\ copy mset = ("", false)) /\
  (SMembers 5 "k" (store (Conn.server (leads smove))) = Ok [] /\ SMembers 5 "k" (replica_of [3; 4] smove) = Ok ["m"]).
Proof. vm_compute. repeat split; reflexivity. Qed.

End Replica.
