(* ===== verification/ServerSync.v ===== *)
(** * The handshake of replication (internal/server/replication.go:
    handleReplSync, handleReplPeer, syncFromLeader)

    A follower asks for REPLSYNC, reads one value, the snapshot, loads it and
    then applies the commands it is sent.  The leader takes the snapshot under
    the lock of the store and registers the follower afterwards, which are two
    steps here. *)
From S2P Require Import Prelude GoLib GoText Json Store StoreStrings Keyspace StoreSnapshot StoreDocs Cluster Resp Cli Schema Replay Replication MultiMaster.
From S2P Require Import ServerCore ServerConn ServerAdmin ServerScript ServerRecovery ServerReplica.

Module Sync.
Import Text Core Admin Snapshots.

Section Handshake.
Context (marshal_doc : Json.json -> string) (unmarshal_doc : string -> option Json.json).
Context (encode : Snapshot -> result string) (decode : string -> result Snapshot).

(** ** The leader *)


Definition sync_register (t : Z) (addr : string) (m : Machine) : Machine :=
  with_repl (Replication.AddReplica t addr (repl m)) m.

Definition sync_leave (addr : string) (m : Machine) : Machine := with_repl (Replication.RemoveReplica addr (repl m)) m.

(** [handleReplPeer] after the reply: it also connects back. *)
Definition peer_register (t : Z) (addr peerID peerAddr : string) (m : Machine) : Machine :=
  let m := sync_register t addr m in
  if MultiMaster.IsEnabled (mm m) then with_mm (MultiMaster.ConnectToPeer peerID peerAddr (mm m)) m else m.

(** The rest of both: only PING is answered. *)
Definition answer_ping (args : Replay.command) : list wire :=
  match args with [] => [] | name :: _ => if EqualFold name "PING" then [WSimple "PONG"] else [] end.

(** ** The follower *)

Inductive sync_error := LeaderError (text : string) | UnexpectedType | ParseSnapshot (e : string).

(** The second step of [syncFromLeader], with the value it read. *)
Definition load_snapshot (t : Z) (order : list string) (v : Resp.Value) (st : Store.Store) : sync_error + Store.Store :=
  match Resp.v_type v with
  | Resp.ErrorString => inl (LeaderError (Resp.v_text v))
  | Resp.BulkString =>
      match decode (Resp.v_text v) with
      | Err e => inl (ParseSnapshot e)
      | Ok d => inr (Load unmarshal_doc t order d st)
      end
  | _ => inl UnexpectedType
  end.

(** [rd.ReadValue()] on the bytes of one reply *)
Definition read_reply (quote : string -> string) (doc_text : Docs.doc_error -> string) (read_text : Resp.read_error -> string)
    (w : wire) : option Resp.Value :=
  let text := render quote doc_text read_text w in
  match Resp.ReadValue (2 * String.length text + 1) text with Some (Ret (Resp.ROk v _)) => Some v | _ => None end.

(** ** A new follower catches up *)





End Handshake.


(** ** A leader with one key *)






(** A write during the handshake is lost to the follower.  The leader takes the snapshot, another client
    sets a key, and only then the follower is registered: the key is in neither the snapshot nor the
    commands the follower is sent, and no later write of another key brings it. *)
Theorem sync_gap :
  let m0 := Engine.bare Store.New None Replication.NewReplicationState in
  let d := (Dump (fun _ => "null"%string) 0 [] (store (core m0))).1 in
  match Engine.run_bare 1 ["SET"; "k"; "v"]%string m0 with
  | Some (Ret (m1, _, _)) =>
      match Engine.run_bare 1 ["SET"; "other"; "w"]%string (sync_register 0 "r:1" m1) with
      | Some (Ret (m2, _, _)) =>
          let sent := from_option Replication.sent [] (Replication.replicas (repl m2) !! "r:1"%string) in
          let r := fold_left (fun st a => Replay.follow_one Conn.no_json 0 a st) sent (Load (fun _ => None) 0 [] d Store.New) in
          (Strings.Get 0 "k" (store (core m2))).1 = ("v"%string, true) /\ (Strings.Get 0 "k" r).1 = (""%string, false) /\
          (Strings.Get 0 "other" r).1 = ("w"%string, true)
      | _ => False
      end
  | _ => False
  end.
Proof. vm_compute. repeat split. Qed.

(** A leader with a password cannot be followed.  A follower sends REPLSYNC without AUTH; the leader
    refuses it, and the follower ends its attempt with that error without touching its data. *)
Theorem locked_leader_refuses rfc3339 unmarshal marshal quote doc_text read_text unmarshal_doc decode t n t1 o1 r0 :
  Conn.password n <> ""%string ->
  exists w v, Conn.handle rfc3339 unmarshal marshal t ["REPLSYNC"%string] n (Conn.new_conn n) = Some (Ret (n, Conn.new_conn n, [w], true)) /\
    read_reply quote doc_text read_text w = Some v /\
    load_snapshot unmarshal_doc decode t1 o1 v r0 = inl (LeaderError "NOAUTH Authentication required.").
Proof.
  intros Hp%String.eqb_neq. exists (Conn.err "NOAUTH Authentication required."), (Resp.mkValue Resp.ErrorString "NOAUTH Authentication required." 0 [] false).
  split; [|split; reflexivity]. unfold Conn.handle. unfold Conn.new_conn at 1. cbn [Conn.authenticated]. rewrite Hp. reflexivity.
Qed.

Lemma locked_leader_refuses_witness :
  exists w v, Conn.handle Conn.no_date Conn.no_json Conn.no_text (Conn.tick 0) ["REPLSYNC"%string] (Conn.node (Conn.alone Store.New None) "pw")
      (Conn.new_conn (Conn.node (Conn.alone Store.New None) "pw")) =
      Some (Ret (Conn.node (Conn.alone Store.New None) "pw", Conn.new_conn (Conn.node (Conn.alone Store.New None) "pw"), [w], true)) /\
    read_reply (fun s => s) (fun _ => ""%string) (fun _ => ""%string) w = Some v /\
    load_snapshot (fun _ => None) (fun _ => Err "no"%string) 0 [] v Store.New = inl (LeaderError "NOAUTH Authentication required.").
Proof.
  exact (locked_leader_refuses Conn.no_date Conn.no_json Conn.no_text (fun s => s) (fun _ => ""%string) (fun _ => ""%string) (fun _ => None)
    (fun _ => Err "no"%string) (Conn.tick 0) (Conn.node (Conn.alone Store.New None) "pw") 0 [] Store.New ltac:(discriminate)).
Defined.
End Sync.
