(* ===== verification/ServerSessions.v ===== *)
(** * What a connection can and cannot do (internal/server/server.go)

    The guarantees of the connection loop ([ServerConn]): a client that has
    not given the password changes nothing; the commands of a transaction
    take effect at EXEC and not before, unless a watched key has changed by
    then, while other clients may still work between them; a command that
    checks the owner of its keys changes nothing when another node owns one. *)
From S2P Require Import Prelude GoLib GoText SortedSet Json Store StoreStrings StoreHashes StoreSets Keyspace.
From S2P Require Import Cluster Schema Namespace Replay ServerCore ServerKeys ServerContainers ServerRules ServerData ServerConn.

Module Sessions.
Import Core Text Keys Containers Rules Data Conn.
Open Scope server_scope.

Section Sessions.
Context (rfc3339 : Z -> string) (unmarshal : string -> result Json.json) (marshal : Json.json -> result string).

Abbreviation handle := (Conn.handle rfc3339 unmarshal marshal).

(** A sequence of commands on one connection; the replies one command after
    the other. *)
Fixpoint session (cmds : list (turn * Replay.command)) (n : Node) (c : Connection)
    : option (Node * Connection * list (list wire)) :=
  match cmds with
  | [] => Some (n, c, [])
  | (t, args) :: cmds =>
      match handle t args n c with
      | Some (Ret (n, c, o, true)) =>
          match session cmds n c with Some (n, c, os) => Some (n, c, o :: os) | None => None end
      | Some (Ret (n, c, o, false)) => Some (n, c, [o])
      | _ => None
      end
  end.

(** ** The password *)

Lemma with_server_same n : with_server (server n) n = n.
Proof. by destruct n. Qed.

(** A reply that does not depend on the server, of a turn that leaves the
    server and the connection as they were. *)
Definition ignored (pw : string) (t : turn) (args : Replay.command) (o : list wire) : Prop :=
  forall n, password n = pw -> handle t args n (new_conn n) = go n (new_conn n) o.

Definition gives_password (pw : string) (args : Replay.command) : bool :=
  (ToUpper (arg 0 args) =? "AUTH")%string
  && (((argc args =? 2) && (arg 1 args =? pw)%string) || ((argc args =? 3) && (arg 2 args =? pw)%string)).

(** The authentication flag of a new connection to a server with a password. *)
Lemma new_conn_stranger n pw : password n = pw -> pw <> ""%string -> authenticated (new_conn n) = false.
Proof. intros <- Hp. cbn. by apply String.eqb_neq. Qed.

Lemma auth_ignored pw args :
  pw <> ""%string -> gives_password pw args = false -> ToUpper (arg 0 args) = "AUTH"%string ->
  exists o, forall n, password n = pw -> handle_auth args n (new_conn n) = go n (new_conn n) o.
Proof.
  intros Hp Hg Hn. unfold gives_password in Hg. rewrite Hn in Hg. cbn [String.eqb] in Hg. apply orb_false_iff in Hg as [H1 H2].
  assert (forall n, password n = pw -> (password n =? "")%string = false) as Hset by (intros n ->; by apply String.eqb_neq).
  unfold handle_auth, say. destruct (argc args =? 2); [|destruct (argc args =? 3)].
  - eexists. intros n Hpw. rewrite (Hset n Hpw), Hpw. cbn in H1. by rewrite H1.
  - eexists. intros n Hpw. rewrite (Hset n Hpw), Hpw. cbn in H2. by rewrite H2.
  - eexists. intros n Hpw. by rewrite (Hset n Hpw).
Qed.

(** PING and HELLO answer without looking at the server. *)
Lemma command_ignored t args :
  ToUpper (arg 0 args) ∈ ["PING"; "HELLO"]%string ->
  exists o, forall n c, handle_command rfc3339 unmarshal marshal t args n c = go n c o.
Proof.
  intros Hn. unfold handle_command, exec_reply, exec.
  apply elem_of_cons in Hn as [->|Hn]; [|apply list_elem_of_singleton in Hn as ->].
  - change (isWriteCommand "PING") with false. cbn [andb].
    change (Replay.select "PING" (cases rfc3339 unmarshal marshal)) with (Some exec_PING). cbn match.
    unfold exec_PING. destruct (argc args >? 1); eexists; intros n c; cbn; by rewrite with_server_same.
  - change (isWriteCommand "HELLO") with false. cbn [andb].
    change (Replay.select "HELLO" (cases rfc3339 unmarshal marshal)) with (Some exec_HELLO). cbn match.
    eexists. intros n c. cbn. by rewrite with_server_same.
Qed.

(** A command of a client that has not given the password. *)
Lemma stranger_turn pw t args : pw <> ""%string -> gives_password pw args = false -> exists o, ignored pw t args o.
Proof.
  intros Hp Hno. unfold ignored, Conn.handle. destruct args as [|name args]; [by eexists|].
  destruct (String.eqb_spec (ToUpper name) "AUTH") as [E|E].
  { destruct (auth_ignored pw (name :: args) Hp Hno E) as [o Ho]. exists o. intros n Hn.
    by rewrite (new_conn_stranger n pw Hn Hp), (Ho n Hn). }
  destruct (decide (ToUpper name ∈ ["PING"; "HELLO"]%string)) as [Hc|Hc].
  - destruct (command_ignored t (name :: args) Hc) as [o Ho]. exists o. intros n Hn.
    rewrite (new_conn_stranger n pw Hn Hp). cbn [new_conn nsPrefix active negb String.eqb].
    apply elem_of_cons in Hc as [E1|[E1|[]%elem_of_nil]%elem_of_cons]; rewrite E1; exact (Ho n _).
  - apply not_elem_of_cons in Hc as [H1 [H2 _]%not_elem_of_cons]. eexists. intros n Hn.
    rewrite (new_conn_stranger n pw Hn Hp), (proj2 (String.eqb_neq _ _) H1), (proj2 (String.eqb_neq _ _) H2). reflexivity.
Qed.

(** C12: the password gate.  Whatever a client sends on a connection to a server with a password, as long as it does
    not give that password with AUTH (PING and HELLO, the other commands that pass the gate, included), the
    server processes all of it and stays as it is: the data, the log, the namespaces and what the replicas
    are sent; the connection stays open, unauthenticated, outside any transaction and in the default
    namespace.  The replies reveal nothing of the server: any other server with this password, whatever
    its data, answers the same. *)
Theorem password_gate pw cmds :
  pw <> ""%string -> Forall (fun cmd => gives_password pw cmd.2 = false) cmds ->
  exists os, length os = length cmds /\
    forall n, password n = pw -> session cmds n (new_conn n) = Some (n, new_conn n, os).
Proof.
  intros Hp Hcmds. induction Hcmds as [|[t args] cmds Hno _ (os & Hl & IH)]; [by exists []|].
  destruct (stranger_turn pw t args Hp Hno) as [o Ho]. exists (o :: os). split; [cbn; by rewrite Hl|].
  intros n Hn. cbn [session]. rewrite (Ho n Hn). unfold go. by rewrite (IH n Hn).
Qed.

(** ** Transactions *)

(** What one connection observes while others work: its own commands, and
    other connections bringing the node to another state in between. *)
Inductive event :=
| Mine (t : turn) (args : Replay.command)
| Others (n : Node).

Fixpoint shared (evs : list event) (n : Node) (c : Connection) : option (Node * Connection * list wire) :=
  match evs with
  | [] => Some (n, c, [])
  | Others n :: evs => shared evs n c
  | Mine t args :: evs =>
      match handle t args n c with
      | Some (Ret (n, c, o, true)) =>
          match shared evs n c with Some (n, c, os) => Some (n, c, o ++ os) | None => None end
      | Some (Ret (n, c, o, false)) => Some (n, c, o)
      | _ => None
      end
  end.

(** The commands the loop handles itself; every other one can be queued. *)
Definition loop_commands : list string :=
  ["AUTH"; "QUIT"; "NAMESPACE"; "MULTI"; "EXEC"; "DISCARD"; "WATCH"; "UNWATCH"; "UNSUBSCRIBE"; "PUNSUBSCRIBE"; "REPLPEER"]
  ++ loop_outside.

Definition queueable (ev : event) : Prop :=
  match ev with
  | Mine _ args => args <> [] /\ ToUpper (arg 0 args) ∉ loop_commands
  | Others _ => True
  end.

Definition others_only (ev : event) : Prop := match ev with Mine _ _ => False | Others _ => True end.

Definition mine (evs : list event) : list Replay.command :=
  concat ((fun ev => match ev with Mine _ args => [args] | Others _ => [] end) <$> evs).

(** The node as the other connections leave it. *)
Definition left_by_others (evs : list event) (n : Node) : Node :=
  fold_left (fun n ev => match ev with Mine _ _ => n | Others n => n end) evs n.

Definition ready (c : Connection) : Prop := authenticated c = true /\ nsPrefix c = ""%string.

Lemma queued t args n c :
  ready c -> active c = true -> queueable (Mine t args) ->
  handle t args n c = say n (with_tx true (queue c ++ [args]) (watched c) c) (WSimple "QUEUED").
Proof.
  intros (Ha & Hns) Hact [Hne Hq]. destruct args as [|name args]; [done|]. unfold Conn.handle.
  change (ToUpper (arg 0 (name :: args))) with (ToUpper name) in Hq.
  rewrite Ha, Hns, Hact. cbn [negb andb String.eqb].
  assert (forall w, In w loop_commands -> (ToUpper name =? w)%string = false) as Hw.
  { intros w Hw. apply String.eqb_neq. intros E. apply Hq. rewrite E. by apply list_elem_of_In. }
  rewrite !Hw by (cbn; tauto).
  rewrite bool_decide_eq_false_2; [done|]. intros H. apply Hq. unfold loop_commands. apply elem_of_app. by right.
Qed.

(** Queueing commands: nothing happens but what others do. *)
Lemma shared_queue evs rest n c :
  Forall queueable evs -> ready c -> active c = true ->
  shared (evs ++ rest) n c =
  match shared rest (left_by_others evs n) (with_tx true (queue c ++ mine evs) (watched c) c) with
  | Some (n, c, os) => Some (n, c, repeat (WSimple "QUEUED") (length (mine evs)) ++ os)
  | None => None
  end.
Proof.
  intros Hq. revert n c. induction Hq as [|[t args|n'] evs H _ IH]; intros n c Hr Hact; cbn [shared app].
  - change (left_by_others [] n) with n. cbn [mine fmap list_fmap concat length repeat app]. rewrite app_nil_r.
    replace (with_tx true (queue c) (watched c) c) with c by (destruct c; cbn in *; by subst).
    by destruct (shared rest n c) as [[[? ?] ?]|].
  - rewrite queued by done. unfold say, go. rewrite (IH n (with_tx true (queue c ++ [args]) (watched c) c) Hr eq_refl).
    change (left_by_others (Mine t args :: evs) n) with (left_by_others evs n).
    change (mine (Mine t args :: evs)) with (args :: mine evs). cbn [with_tx queue watched authenticated currentNS nsPrefix].
    rewrite <-app_assoc. cbn [app length repeat].
    by destruct (shared rest _ _) as [[[? ?] ?]|].
  - rewrite IH by done. done.
Qed.

Lemma shared_others evs rest n c :
  Forall others_only evs -> shared (evs ++ rest) n c = shared rest (left_by_others evs n) c.
Proof. intros H. revert n. induction H as [|[t args|n'] evs H _ IH]; intros n; [done|done|]. apply IH. Qed.

(** C5: transactions.  A client that is authenticated, in the default namespace, watching nothing and outside a
    transaction watches some keys, other clients work, the client opens a transaction and queues
    commands (none that the loop handles itself) while other clients work on, and sends EXEC.  Until
    EXEC its commands change nothing: the node is what the other clients make of it.  At EXEC, if the
    version of a watched key is not the one at the time of WATCH, the answer is a null array and nothing
    is executed.  Otherwise the queued commands are executed in their order, each on the node as the other
    clients have left it by then: what they do after the check of the versions, before each command, is
    not kept out.  Either way the transaction is over and nothing is watched any more.  A panic or a queued
    command outside the model ends the session. *)
Theorem optimistic_transaction tw keys before tm body te n c :
  ready c -> active c = false -> watched c = None -> keys <> [] ->
  Forall others_only before -> Forall queueable body ->
  let n1 := left_by_others (before ++ body) n in
  let done_ := with_tx false [] None c in
  let acks := WSimple "OK" :: WSimple "OK" :: repeat (WSimple "QUEUED") (length (mine body)) in
  shared (Mine tw ("WATCH"%string :: keys) :: before ++ Mine tm ["MULTI"%string] :: body ++ [Mine te ["EXEC"%string]]) n c =
  if Store.KeysModifiedSince (Store.KeyVersions keys (store (server n))) (store (server n1))
  then Some (n1, done_, acks ++ [WNullArray])
  else match execTransaction rfc3339 unmarshal marshal te (mine body) n1 with
       | Some (Ret (n2, o)) => Some (n2, done_, acks ++ o)
       | _ => None
       end.
Proof.
  intros Hr Hact Hw Hk Hb Hq. pose proof Hr as [Ha Hns]. cbn zeta.
  assert (forall args, handle tw ("WATCH"%string :: args) n c = handle_watch ("WATCH"%string :: args) n c) as Hwatch.
  { intros args. unfold Conn.handle. rewrite Ha, Hns, Hact. reflexivity. }
  cbn [shared]. rewrite Hwatch. unfold handle_watch. rewrite Hact, Hw. unfold say, go. cbn [default].
  rewrite (right_id_L ∅ union).
  assert ((argc ("WATCH"%string :: keys) <? 2) = false) as Hargc.
  { unfold Replay.argc. rewrite zlen_cons. destruct keys; [done|]. rewrite zlen_cons. pose proof (zlen_nonneg keys). lia. }
  rewrite Hargc, shared_others by done. change (drop 1 ("WATCH"%string :: keys)) with keys.
  set (w := Store.KeyVersions keys (store (server n))). cbn [shared].
  set (c1 := with_tx false (queue c) (Some w) c).
  assert (handle tm ["MULTI"%string] (left_by_others before n) c1
          = say (left_by_others before n) (with_tx true [] (Some w) c) (WSimple "OK")) as Hmulti.
  { unfold Conn.handle. cbn [c1 with_tx authenticated nsPrefix]. rewrite Ha, Hns. reflexivity. }
  rewrite Hmulti. unfold say, go. rewrite shared_queue by done.
  unfold left_by_others. rewrite fold_left_app. fold (left_by_others before n).
  fold (left_by_others body (left_by_others before n)).
  set (n1 := left_by_others body (left_by_others before n)). cbn [shared with_tx queue watched app].
  assert (forall m d, ready d -> handle te ["EXEC"%string] m d = handle_exec rfc3339 unmarshal marshal te m d) as Hexec.
  { intros m d [Hd1 Hd2]. unfold Conn.handle. rewrite Hd1, Hd2. reflexivity. }
  rewrite Hexec by done. unfold handle_exec.
  cbn [active watched queue negb with_tx authenticated currentNS nsPrefix].
  destruct (Store.KeysModifiedSince w (store (server n1))); unfold say, go; [done|].
  destruct (execTransaction _ _ _ _ _ _) as [[[n2 o]|]|]; [|done|done]. by rewrite app_nil_r.
Qed.

(** ** Keys of other nodes *)








End Sessions.

(** ** Concrete sessions *)

Definition guarded : Node := node (alone Store.New None) "secret".

Definition knocking : list (turn * Replay.command) :=
  [(tick 0, ["SET"; "k"; "v"]); (tick 1, ["AUTH"; "wrong"]); (tick 2, ["ping"]); (tick 3, ["HELLO"; "3"]); (tick 4, ["MULTI"]);
   (tick 5, ["QUIT"])].

Lemma password_gate_witness : exists os,
  length os = 6%nat /\ session no_date no_json no_text knocking guarded (new_conn guarded) = Some (guarded, new_conn guarded, os).
Proof.
  destruct (password_gate no_date no_json no_text "secret" knocking) as (os & Hl & H); [discriminate|repeat constructor|].
  exists os. split; [exact Hl|]. apply H. reflexivity.
Defined.

Definition open_node : Node := node (alone Store.New None) "".

(** Another client sets the watched key between WATCH and EXEC. *)
Definition meanwhile : Node := node (alone (Strings.SetAbsolute 1 "k" "theirs" Store.zeroTime Store.New) None) "".

Lemma optimistic_transaction_witness :
  shared no_date no_json no_text
    (Mine (tick 0) ["WATCH"; "k"] :: [Others meanwhile] ++ Mine (tick 2) ["MULTI"] ::
     [Mine (tick 3) ["SET"; "k"; "mine"]] ++ [Mine (tick 4) ["EXEC"]]) open_node (new_conn open_node) =
  Some (meanwhile, new_conn open_node, [WSimple "OK"; WSimple "OK"; WSimple "QUEUED"; WNullArray]).
Proof.
  rewrite (optimistic_transaction no_date no_json no_text (tick 0) ["k"%string] [Others meanwhile] (tick 2)
    [Mine (tick 3) ["SET"; "k"; "mine"]%string] (tick 4) open_node (new_conn open_node)).
  - vm_compute. reflexivity.
  - split; reflexivity.
  - reflexivity.
  - reflexivity.
  - discriminate.
  - repeat constructor.
  - constructor; [|constructor]. split; [discriminate|]. apply (bool_decide_unpack _). vm_compute. exact I.
Defined.

(** EXEC is not atomic.  The other client sets the watched key after the versions have been compared and
    before the first queued command: the transaction runs and overwrites what it did not know of. *)
Definition late : turn := mkTurn (vs (tick 4)) (perm (tick 4)) (fun i n => match i with O => meanwhile | S _ => n end).

Theorem transaction_gap :
  match shared no_date no_json no_text
    [Mine (tick 0) ["WATCH"; "k"]; Mine (tick 2) ["MULTI"]; Mine (tick 3) ["SET"; "k"; "mine"]; Mine late ["EXEC"]]%string
    open_node (new_conn open_node) with
  | Some (n, _, o) =>
      o = [WSimple "OK"; WSimple "OK"; WSimple "QUEUED"; WArray 1; WSimple "OK"] /\
      (Strings.Get 2 "k" (store (server meanwhile))).1 = ("theirs"%string, true) /\
      (Strings.Get 5 "k" (store (server n))).1 = ("mine"%string, true)
  | None => False
  end.
Proof. vm_compute. repeat split. Qed.

(** A cluster of two nodes; the key [a] belongs to the other one. *)
Definition pair : Cluster.Cluster := Cluster.NewCluster 0 "n1" "127.0.0.1:6379" "n2@127.0.0.1:6380".
Definition half : Server := mkServer Store.New pair (Some []) Schema.NewSchemaManager 0 0.


(** A refused write still reaches the replicas.  A leader that answers MOVED for a key of another node
    hands the command to its replicas as if it had been executed: the leader has no such key, and a
    replica that applies what it is sent has. *)
Theorem refused_write_replicated :
  exists n' c' o, handle no_date no_json no_text (tick 0) ["SET"; "a"; "v"]%string (node half "") (new_conn (node half ""))
    = Some (Ret (n', c', o, true)) /\
  o = [err (String.append "MOVED " (String.append (FormatInt (Cluster.Slot "a")) " 127.0.0.1:6380"))] /\
  server n' = half /\ replicated n' = [["SET"; "a"; "v"]%string] /\
  (Strings.Get 0 "a" (fold_left (fun st a => Replay.follow_one no_json 0 a st) (replicated n') Store.New)).1
    = ("v"%string, true).
Proof.
  do 3 eexists. split; [vm_compute; reflexivity|]. split; [vm_compute; reflexivity|].
  split; [vm_compute; reflexivity|]. split; vm_compute; reflexivity.
Qed.
End Sessions.
