(* ===== verification/ServerClient.v ===== *)
(** * A client of the cluster (cmd/vole-cli/main.go, internal/server)

    The client and the servers together: the client sends a command to some
    node, reads the bytes of its reply, and follows a redirection. *)
From S2P Require Import Prelude GoLib GoText Json Store StoreStrings StoreDocs Cluster Resp Cli Schema Replay ServerCore ServerKeys ServerConn.

Module Client.
Import Text Resp Conn Cli.
Open Scope vole_scope.

Section Client.
Context (rfc3339 : Z -> string) (unmarshal : string -> result Json.json) (marshal : Json.json -> result string).
Context (quote : string -> string) (doc_text : Docs.doc_error -> string) (read_text : Resp.read_error -> string).
Context (t : turn).

(** The nodes by their addresses. *)
Definition network : Type := gmap string Node.

Definition bytes (o : list Core.wire) : string := cat_all (Core.render quote doc_text read_text <$> o).

(** One command on a connection of its own: dial, send, read one reply. *)
Definition ask (addr : string) (cmd : list string) (net : network) : result Value * network :=
  match net !! addr with
  | None => (Err "connect: connection refused"%string, net)
  | Some n =>
      match handle rfc3339 unmarshal marshal t cmd n (new_conn n) with
      | Some (Ret (n', _, o, _)) =>
          let net := <[addr := n']> net in
          match ReadValue (2 * String.length (bytes o) + 1) (bytes o) with
          | Some (Ret (ROk v _)) => (Ok v, net)
          | _ => (Err "EOF"%string, net)
          end
      | _ => (Err "EOF"%string, net)
      end
  end.

(** ** Redirections *)

(** An address that survives the reply: no space and no line feed in it. *)
Definition plain_addr (a : string) : Prop := Fields a = [a] /\ has_byte LF a = false.

Definition visible (c : ascii) : bool := (32 <? nat_of_ascii c)%nat && (nat_of_ascii c <? 128)%nat.

Fixpoint all_visible (s : string) : bool :=
  match s with EmptyString => true | String c s => visible c && all_visible s end.

Lemma visible_width c s : visible c = true -> space_width (String c s) = O.
Proof.
  unfold visible. intros [H1 H2]%andb_prop. apply Nat.ltb_lt in H1, H2. cbn [space_width].
  replace ((9 <=? nat_of_ascii c)%nat && (nat_of_ascii c <=? 13)%nat) with false
    by (symmetry; apply andb_false_intro2, Nat.leb_gt; lia).
  rewrite (proj2 (Nat.eqb_neq (nat_of_ascii c) 32)) by lia. cbn [orb].
  destruct s as [|b s]; [done|]. rewrite (proj2 (Nat.eqb_neq (nat_of_ascii c) 194)) by lia. cbn [andb].
  destruct s as [|d s]; [done|]. rewrite (proj2 (Nat.eqb_neq (nat_of_ascii c) 225)), (proj2 (Nat.eqb_neq (nat_of_ascii c) 226)),
    (proj2 (Nat.eqb_neq (nat_of_ascii c) 227)) by lia. done.
Qed.

Lemma fields_word w a s :
  all_visible a = true -> fields_loop 0 w (a ^^ String " " s) = (if (w ^^ a =? "")%string then [] else [w ^^ a]) ++ fields_loop 0 "" s.
Proof.
  revert w. induction a as [|c a IH]; intros w H.
  - rewrite cat_nil_r. reflexivity.
  - cbn [all_visible] in H. apply andb_prop in H as [Hc Ha]. rewrite cat_cons. cbn [fields_loop].
    rewrite visible_width by done. change (String.append w (String c "")) with (w ^^ String c ""). rewrite IH by done.
    by rewrite cat_assoc.
Qed.

Lemma format_visible f : forall n acc, 0 <= n -> all_visible acc = true -> all_visible (format_loop f n acc) = true.
Proof.
  induction f as [|f IH]; intros n acc Hn Ha; [done|]. cbn [format_loop].
  assert (visible (digit_char (n mod 10)) = true) as Hd.
  { pose proof (Z.mod_pos_bound n 10 ltac:(lia)) as Hb.
    assert (n mod 10 = 0 \/ n mod 10 = 1 \/ n mod 10 = 2 \/ n mod 10 = 3 \/ n mod 10 = 4 \/ n mod 10 = 5 \/ n mod 10 = 6
            \/ n mod 10 = 7 \/ n mod 10 = 8 \/ n mod 10 = 9) as Hx by lia.
    repeat (destruct Hx as [->|Hx]; [reflexivity|]). by rewrite Hx. }
  case_match; [cbn; by rewrite Hd|]. apply IH; [apply Z.div_pos; lia|]. cbn [all_visible]. by rewrite Hd.
Qed.

Lemma format_nonempty f : forall n acc, (f <> O \/ acc <> ""%string) -> format_loop f n acc <> ""%string.
Proof.
  induction f as [|f IH]; intros n acc H; [by destruct H|]. cbn [format_loop]. case_match; [done|]. apply IH. by right.
Qed.

(** The client reads the address out of the reply of [moved]. *)
Lemma moved_reply_read n a :
  0 <= n -> plain_addr a ->
  let text := "MOVED " ^^ FormatInt n ^^ " " ^^ a in
  movedAddress (mkValue ErrorString text 0 [] false) = Some a.
Proof.
  intros Hn [Ha _] text. unfold movedAddress, text, Fields.
  change ("MOVED " ^^ FormatInt n ^^ " " ^^ a) with ("MOVED" ^^ String " " (FormatInt n ^^ String " " a)).
  rewrite (fields_word "" "MOVED" (FormatInt n ^^ String " " a)) by reflexivity.
  change (("" ^^ "MOVED" =? "")%string) with false. cbn [app].
  unfold FormatInt. rewrite (proj2 (Z.ltb_ge n 0)) by done. unfold format_uint.
  rewrite fields_word by (by apply format_visible). change ("" ^^ ?x) with x.
  rewrite (proj2 (String.eqb_neq _ _)) by (apply format_nonempty; by left). unfold Fields in Ha. by rewrite Ha.
Qed.

(** ** A read from anywhere in the cluster *)

Definition get (key : string) : list string := ["GET"; key]%string.

Lemma handle_get key n :
  password n = ""%string ->
  handle rfc3339 unmarshal marshal t (get key) n (new_conn n) =
  match Keys.exec_GET (get key) (vs t 0) (server n) with
  | Panic => Some Panic
  | Ret (Core.Stop (Some e), s, o) => Some (Ret (with_server s n, new_conn n, o ++ [Core.WErr "ERR " e], true))
  | Ret (_, s, o) => Some (Ret (with_server s n, new_conn n, o, true))
  end.
Proof.
  intros Hp. destruct n as [s pw nss rep mm sent]. cbn [password] in Hp. subst pw.
  change (handle rfc3339 unmarshal marshal t (get key) ?n ?c) with (handle_command rfc3339 unmarshal marshal t (get key) n c).
  unfold handle_command. change (Core.isWriteCommand (ToUpper (Replay.arg 0 (get key)))) with false. cbn [andb server].
  unfold exec_reply. change (exec rfc3339 unmarshal marshal (get key)) with (Some (Keys.exec_GET (get key))).
  cbv beta iota zeta.
  destruct (Keys.exec_GET (get key) (vs t 0) s) as [[[[[]|[e|]] s'] o]|]; reflexivity.
Qed.

(** GET begins with the check of the owner. *)
Lemma get_checks key s :
  Keys.exec_GET (get key) (vs t 0) s =
  if Cluster.SelfOwns key (Core.cluster s) then
    let '((text, hit), st) := Strings.Get (Core.now (vs t 0)) key (Core.store s) in
    Core.bind (Keys.count_hit hit) (fun _ => Core.found (text, hit)) (vs t 0) (Core.with_store st s)
  else Ret (Core.Stop None, s, [err ("MOVED " ^^ FormatInt (Cluster.Slot key) ^^ " " ^^ Cluster.Addr (Cluster.Owner key (Core.cluster s)))]).
Proof.
  unfold Keys.exec_GET, Core.bind at 1. change (Keys.exactly 2 "GET" (get key) (vs t 0) s) with
    (Ret (Core.Next tt, s, @nil Core.wire)). cbv beta iota. unfold Core.bind at 1, Core.ensureOwns, Core.cross_slot.
  change (zlen [Replay.arg 1 (get key)] >? 1) with false. cbn [andb List.find]. change (Replay.arg 1 (get key)) with key.
  destruct (Cluster.SelfOwns key (Core.cluster s)); cbn [negb]; [|reflexivity].
  unfold Core.ret, Core.bind at 1, Core.run. destruct (Strings.Get _ _ _) as [[text []] st]; reflexivity.
Qed.

(** A node that does not own the key names the owner and does nothing else. *)
Lemma get_moved key n :
  Cluster.SelfOwns key (Core.cluster (server n)) = false ->
  Keys.exec_GET (get key) (vs t 0) (server n) =
  Ret (Core.Stop None, server n,
       [err ("MOVED " ^^ FormatInt (Cluster.Slot key) ^^ " " ^^ Cluster.Addr (Cluster.Owner key (Core.cluster (server n))))]).
Proof.
  intros H. by rewrite get_checks, H.
Qed.

(** The owner reads its store. *)
Lemma get_owned key n :
  Cluster.SelfOwns key (Core.cluster (server n)) = true ->
  let '(text, hit) := (Strings.Get (Core.now (vs t 0)) key (Core.store (server n))).1 in
  exists s', Keys.exec_GET (get key) (vs t 0) (server n) =
    Ret (Core.Next tt, s', [if hit then Core.WBulk text else Core.WNull]).
Proof.
  intros H. rewrite get_checks, H. destruct (Strings.Get _ _ _) as [[text []] st]; eexists; reflexivity.
Qed.

Lemma read_one v x : Resp.wf v -> v_type v <> Array -> bytes [x] = encode v -> ReadValue (2 * String.length (bytes [x]) + 1) (bytes [x]) = Some (Ret (ROk v "")).
Proof.
  intros Hw Ht ->. rewrite Nat.add_1_r. pose proof (read_scalar_back v "" (2 * String.length (encode v)) Hw Ht) as H.
  by rewrite cat_nil_r in H.
Qed.

Definition found_value (r : string * bool) : Value := if r.2 then mkValue BulkString r.1 0 [] false else mkValue BulkString "" 0 [] true.

Lemma ask_moved addr key n net :
  net !! addr = Some n -> password n = ""%string -> Cluster.SelfOwns key (Core.cluster (server n)) = false ->
  plain_addr (Cluster.Addr (Cluster.Owner key (Core.cluster (server n)))) ->
  exists v, ask addr (get key) net = (Ok v, net) /\ movedAddress v = Some (Cluster.Addr (Cluster.Owner key (Core.cluster (server n)))).
Proof.
  intros Hn Hp Ho [Hf Hlf]. unfold ask. rewrite Hn, handle_get, get_moved by done.
  set (a := Cluster.Addr _) in *. set (text := "MOVED " ^^ FormatInt (Cluster.Slot key) ^^ " " ^^ a).
  exists (mkValue ErrorString text 0 [] false). split; [|apply moved_reply_read; [apply Cluster.Slot_range|done]].
  rewrite (read_one (mkValue ErrorString text 0 [] false)); [| |done|].
  - f_equal. replace (with_server (server n) n) with n by (by destruct n). by apply insert_id.
  - cbn [Resp.wf]. split; [|done]. unfold text. rewrite !has_byte_cat, FormatInt_no_lf. exact Hlf.
  - unfold bytes, err. cbn [fmap list_fmap cat_all foldr Core.render Core.error_text]. rewrite cat_nil_r.
    change (String.append text "") with (text ^^ ""). by rewrite cat_nil_r.
Qed.

Lemma ask_owned addr key n net :
  net !! addr = Some n -> password n = ""%string -> Cluster.SelfOwns key (Core.cluster (server n)) = true ->
  let r := (Strings.Get (Core.now (vs t 0)) key (Core.store (server n))).1 in
  small r.1 -> exists n', ask addr (get key) net = (Ok (found_value r), <[addr := n']> net).
Proof.
  intros Hn Hp Ho r Hs. unfold ask. rewrite Hn, handle_get by done. pose proof (get_owned key n Ho) as H. fold r in H.
  destruct r as [text hit]. destruct H as [s' ->]. exists (with_server s' n).
  rewrite (read_one (found_value (text, hit))); [done| | |].
  - destruct hit; cbn; [|done]. by repeat split.
  - by destruct hit.
  - unfold bytes. cbn [fmap list_fmap cat_all foldr]. rewrite cat_nil_r. by destruct hit.
Qed.

(** The network with a record of the addresses that are asked. *)
Definition ask_logged (addr : string) (cmd : list string) (x : network * list string) : result Value * (network * list string) :=
  let '(r, net) := ask addr cmd x.1 in (r, (net, x.2 ++ [addr])).

Lemma ask_logged_eq addr cmd net l r net' : ask addr cmd net = (r, net') -> ask_logged addr cmd (net, l) = (r, (net', l ++ [addr])).
Proof. intros H. unfold ask_logged. cbn [fst]. by rewrite H. Qed.

(** C18: a client reads a key from any node.  A cluster is started with every server naming the others, with
    the same addresses everywhere (without blanks and line feeds) and no server asking for a password, which
    the client cannot send; whichever server the client is pointed at, GET prints what the owner of the key
    has stored (a value shorter than the largest slice Go can make), and the client asks the owner alone, or the server it is pointed
    at and then the owner: the answer of another server names the owner, the client understands it and
    there is no second redirection. *)
Theorem client_reaches_owner (ids : list string) (since : string -> Z) (addr peers : string -> string) (quoted : string -> string)
    raw key (nodes_of : string -> Node) (net : network) :
  ids <> [] -> (forall x, x ∈ ids -> x :: Cluster.peer_ids (peers x) ≡ₚ ids) ->
  (forall x n, x ∈ ids -> n ∈ Cluster.nodes (Cluster.NewCluster (since x) x (addr x) (peers x)) ->
     Cluster.Addr n = addr (Cluster.ID n) /\ plain_addr (Cluster.Addr n)) ->
  (forall x, x ∈ ids -> net !! addr x = Some (nodes_of x) /\ password (nodes_of x) = ""%string /\
     Core.cluster (server (nodes_of x)) = Cluster.NewCluster (since x) x (addr x) (peers x)) ->
  (forall x, x ∈ ids -> small (Strings.Get (Core.now (vs t 0)) key (Core.store (server (nodes_of x)))).1.1) ->
  exists owner, owner ∈ ids /\ Cluster.SelfOwns key (Core.cluster (server (nodes_of owner))) = true /\
    forall x, x ∈ ids ->
      exists net', runOne ask_logged quoted raw (addr x) (get key) (net, []) =
        (Ok (printValue quoted raw 0 (found_value (Strings.Get (Core.now (vs t 0)) key (Core.store (server (nodes_of owner)))).1)),
         (net', if decide (x = owner) then [addr owner] else [addr x; addr owner])).
Proof.
  intros Hne Hp Ha Hnet Hs. destruct (Cluster.shared_owner ids since addr peers key Hne Hp) as (owner & Hin & Hown).
  exists owner. split; [done|].
  assert (Cluster.SelfOwns key (Core.cluster (server (nodes_of owner))) = true) as Ho.
  { destruct (Hnet owner Hin) as (_ & _ & ->). unfold Cluster.SelfOwns. destruct (Hown owner Hin) as [-> ->]. apply String.eqb_refl. }
  split; [done|].
  assert (forall k l, exists net', follow ask_logged (S k) (addr owner) (get key) (net, l) =
    (Ok (found_value (Strings.Get (Core.now (vs t 0)) key (Core.store (server (nodes_of owner)))).1, addr owner),
     (net', l ++ [addr owner]))) as Hlast.
  { intros k l. destruct (Hnet owner Hin) as (Hn & Hpw & _).
    destruct (ask_owned (addr owner) key _ net Hn Hpw Ho (Hs owner Hin)) as [n' Hask]. eexists.
    apply (follow_answer ask_logged _ _ _ _ _ _ (ask_logged_eq _ _ _ l _ _ Hask)). unfold found_value. by destruct (_.2). }
  intros x Hx. destruct (decide (x = owner)) as [->|Hxo].
  { unfold runOne. destruct (Hlast 7%nat []) as [net' ->]. by exists net'. }
  destruct (Hnet x Hx) as (Hn & Hpw & Hc). destruct (Hown x Hx) as [Ho1 Ho2].
  assert (Cluster.Owner key (Core.cluster (server (nodes_of x))) ∈ Cluster.nodes (Core.cluster (server (nodes_of x)))) as Hmem.
  { rewrite Hc. apply Cluster.Owner_member. }
  destruct (ask_moved (addr x) key _ net Hn Hpw) as (v & Hask & Hv).
  { rewrite Hc. unfold Cluster.SelfOwns. rewrite Ho1, Ho2. apply String.eqb_neq. congruence. }
  { rewrite Hc in Hmem |- *. by apply (Ha x). }
  unfold runOne. rewrite (follow_moved ask_logged 7 _ _ _ _ _ _ (ask_logged_eq _ _ _ [] _ _ Hask) Hv). rewrite Hc in Hmem |- *.
  rewrite (proj1 (Ha x _ Hx Hmem)), Ho1. change ([] ++ [addr x]) with [addr x].
  destruct (Hlast 6%nat [addr x]) as [net' ->]. by exists net'.
Qed.
End Client.

(** ** Two nodes *)

Definition addr_of (x : string) : string := if String.eqb x "n1" then "h1:1" else "h2:1".
Definition other (x : string) : string := if String.eqb x "n1" then "n2@h2:1" else "n1@h1:1".
Definition node_of (x : string) : Node :=
  node (Core.mkServer (Strings.SetAbsolute 0 "a" x Store.zeroTime Store.New) (Cluster.NewCluster 0 x (addr_of x) (other x)) None
          Schema.NewSchemaManager 0 0) "".
Definition two_nodes : network := {["h1:1"%string := node_of "n1"; "h2:1"%string := node_of "n2"]}.

Ltac each_node Hx := repeat (apply elem_of_cons in Hx as [->|Hx]; [vm_compute; exact I|]); destruct (not_elem_of_nil _ Hx).

Lemma client_reaches_owner_witness :
  exists owner, owner ∈ ["n1"; "n2"]%string /\ Cluster.SelfOwns "a" (Core.cluster (server (node_of owner))) = true /\
    forall x, x ∈ ["n1"; "n2"]%string ->
      exists net', runOne (ask_logged no_date no_json no_text (fun s => s) (fun _ => ""%string) (fun _ => ""%string) (tick 0)) (fun s => s) true
        (addr_of x) (get "a") (two_nodes, []) =
      (Ok (printValue (fun s => s) true 0 (found_value (Strings.Get 0 "a" (Core.store (server (node_of owner)))).1)),
       (net', if decide (x = owner) then [addr_of owner] else [addr_of x; addr_of owner])).
Proof.
  refine (client_reaches_owner no_date no_json no_text (fun s => s) (fun _ => ""%string) (fun _ => ""%string) (tick 0)
    ["n1"; "n2"]%string (fun _ => 0) addr_of other (fun s => s) true "a" node_of two_nodes _ _ _ _ _).
  - discriminate.
  - intros x Hx. apply (bool_decide_unpack _). each_node Hx.
  - intros x n Hx. revert n. apply (proj1 (Forall_forall _ _)).
    apply (Forall_impl (fun n => bool_decide (Cluster.Addr n = addr_of (Cluster.ID n) /\ Fields (Cluster.Addr n) = [Cluster.Addr n]
             /\ has_byte LF (Cluster.Addr n) = false))); [|intros n Hn%bool_decide_unpack; unfold plain_addr; tauto].
    apply (bool_decide_unpack _). each_node Hx.
  - intros x Hx. repeat (apply elem_of_cons in Hx as [->|Hx]; [repeat split; vm_compute; reflexivity|]). destruct (not_elem_of_nil _ Hx).
  - intros x Hx. repeat (apply elem_of_cons in Hx as [->|Hx]; [vm_compute; discriminate|]). destruct (not_elem_of_nil _ Hx).
Defined.
End Client.
