(* ===== verification/ServerJoin.v ===== *)
(** * How servers learn of each other (internal/server/cluster.go: pingNode,
    fetchNodeID, Meet; internal/server/server.go)

    A heartbeat and CLUSTER MEET open a connection of their own to another
    server, write one command and look at the bytes of one [Read].  Here these
    bytes are what the model of that server writes. *)
From S2P Require Import Prelude GoLib GoText Json Store StoreSearch StoreSnapshot StoreDocs Geo Cluster Resp Cli SlowLog Replay Replication.
From S2P Require Import ServerCore ServerKeys ServerConn ServerAdmin ServerScript ServerClient.

Module Join.
Import Text Core Admin.
Open Scope vole_scope.

(** ** The two requests *)

Definition ping_request : string := String.concat Resp.crlf ["*1"; "$4"; "PING"; ""]%string.
Definition myid_request : string := String.concat Resp.crlf ["*2"; "$7"; "CLUSTER"; "$4"; "MYID"; ""]%string.

(** One [conn.Read] into a buffer of [size] bytes; [None] is an error of the
    connection. *)
Definition read_once (size : nat) (r : option string) : option string := String.substring 0 size <$> r.

(** The bytes around the first CR LF. *)
Fixpoint cut_crlf (s : string) : option (string * string) :=
  match s with
  | EmptyString => None
  | String c r =>
      match r with
      | String d t =>
          if Ascii.eqb c Resp.CR && Ascii.eqb d Resp.LF then Some (""%string, t)
          else match cut_crlf r with Some (a, b) => Some (String c a, b) | None => None end
      | EmptyString => None
      end
  end.

Definition pingNode (r : option string) : bool :=
  match read_once 64 r with Some s => Search.Contains s "PONG" | None => false end.

Definition fetchNodeID (r : option string) : string :=
  match read_once 256 r with
  | Some (String "$" _ as s) =>
      match cut_crlf s with
      | Some (_, rest) => match cut_crlf rest with Some (id, _) => id | None => rest end
      | None => ""%string
      end
  | _ => ""%string
  end.

Section Serve.
Context (rfc3339 rfc3339nano : Z -> string) (unmarshal : string -> result Json.json) (marshal : Json.json -> result string).
Context (marshal_doc : Json.json -> string) (encode : Snapshots.Snapshot -> result string).
Context (math : Geo.math) (sort_by_dist : list Geo.GeoResult -> list Geo.GeoResult) (sha1 : string -> string).
Context (quote : string -> string) (doc_text : Docs.doc_error -> string) (read_text : Resp.read_error -> string).
Context (id : Z) (client : string) (took : Z) (perm : nat -> list string -> list string) (v : worlds).

(** What a server writes to a fresh connection that sends one command: the
    gate of the password, then the command. *)
Definition serve (pw request : string) (m : Machine) : option string :=
  match Resp.ReadCommand request with
  | Ret (Resp.ROk args _) =>
      let cmd := ToUpper (arg 0 args) in
      if negb (pw =? "")%string && negb (cmd =? "AUTH")%string && negb (cmd =? "PING")%string && negb (cmd =? "HELLO")%string
      then Some (Engine.render_all quote doc_text read_text [Conn.err "NOAUTH Authentication required."])
      else match Engine.handle_command rfc3339 rfc3339nano unmarshal marshal marshal_doc encode math sort_by_dist sha1 quote doc_text
                   read_text 1 id client took perm v args m with
           | Some (Ret (_, _, o)) => Some (Engine.render_all quote doc_text read_text o)
           | _ => None
           end
  | _ => None
  end.

(** A command that only replies. *)
Lemma serve_replies args o m :
  isWriteCommand (ToUpper (arg 0 args)) = false -> 0 <= SlowLog.maxLen (slowlog m) ->
  (forall m, Engine.exec rfc3339 rfc3339nano unmarshal marshal marshal_doc encode math sort_by_dist sha1 quote doc_text read_text 1 args v m =
     Some (Ret (Next tt, m, o m))) ->
  exists m' sent, Engine.handle_command rfc3339 rfc3339nano unmarshal marshal marshal_doc encode math sort_by_dist sha1 quote doc_text
    read_text 1 id client took perm v args m = Some (Ret (m', sent, o m)).
Proof.
  intros Hw Hs He. unfold Engine.handle_command. rewrite Hw. cbn [andb]. cbv zeta.
  replace (with_core (core m) m) with m by (by destruct m). rewrite He.
  destruct (Engine.record_returns id client took (now (w_env (v []))) args m Hs) as (m' & -> & _). by exists m', [].
Qed.

Lemma serve_ping pw m :
  0 <= SlowLog.maxLen (slowlog m) -> serve pw ping_request m = Some (Resp.Simple "PONG").
Proof.
  intros H. unfold serve. change (Resp.ReadCommand ping_request) with (Ret (Resp.ROk ["PING"%string] "")). cbv iota beta zeta.
  replace (negb (pw =? "")%string && _ && _ && _) with false by (by destruct (pw =? "")%string).
  destruct (serve_replies ["PING"%string] (fun _ => [WSimple "PONG"]) m eq_refl H) as (m' & sent & ->); [|done].
  intros m1. erewrite Engine.exec_core by reflexivity. unfold lift. cbn. by destruct m1.
Qed.

Lemma serve_myid m :
  0 <= SlowLog.maxLen (slowlog m) ->
  serve "" myid_request m = Some (Resp.Bulk (Cluster.ID (Cluster.self (cluster (core m))))).
Proof.
  intros H. unfold serve. change (Resp.ReadCommand myid_request) with (Ret (Resp.ROk ["CLUSTER"; "MYID"]%string "")).
  cbv iota beta zeta. change (negb ("" =? "")%string) with false. cbn [andb].
  destruct (serve_replies ["CLUSTER"; "MYID"]%string (fun m => [WBulk (Cluster.ID (Cluster.self (cluster (core m))))]) m eq_refl H)
    as (m' & sent & ->); [|done].
  intros m1. transitivity (clusterCommand ["CLUSTER"; "MYID"]%string v m1); [reflexivity|].
  unfold clusterCommand. cbn -[Cluster.ID]. by destruct m1 as [[]].
Qed.

Lemma serve_locked pw m :
  pw <> ""%string -> serve pw myid_request m = Some (Resp.Error "NOAUTH Authentication required.").
Proof.
  intros H. unfold serve. change (Resp.ReadCommand myid_request) with (Ret (Resp.ROk ["CLUSTER"; "MYID"]%string "")).
  cbv iota beta zeta. by rewrite (proj2 (String.eqb_neq _ _) H).
Qed.

(** ** The identifier arrives *)

Lemma cut_crlf_cat a b : has_byte Resp.CR a = false -> cut_crlf (Resp.cat a (Resp.cat Resp.crlf b)) = Some (a, b).
Proof.
  induction a as [|c a IH]; intros H; [done|]. cbn [has_byte] in H. apply orb_false_iff in H as [Hc Ha].
  change (Resp.cat (String c a) ?x) with (String c (Resp.cat a x)). cbn [cut_crlf]. rewrite IH by done.
  rewrite Hc. by destruct a.
Qed.

Lemma substring_all n s : (String.length s <= n)%nat -> String.substring 0 n s = s.
Proof.
  revert n. induction s as [|c s IH]; intros [|n] H; cbn in *; [done|done|lia|]. by rewrite IH by lia.
Qed.

(** An identifier that survives the reply. *)
Definition joinable (x : string) : Prop := x <> ""%string /\ has_byte Resp.CR x = false /\ (String.length x <= 240)%nat.

Lemma visible_no_cr s : Client.all_visible s = true -> has_byte Resp.CR s = false.
Proof.
  induction s as [|c s IH]; intros H; [done|]. cbn [Client.all_visible] in H. apply andb_prop in H as [Hc Hs].
  cbn [has_byte]. rewrite IH by done. destruct (Ascii.eqb_spec c Resp.CR) as [->|]; [by vm_compute in Hc|done].
Qed.

Lemma format_length f : forall n acc, (String.length (format_loop f n acc) <= f + String.length acc)%nat.
Proof.
  induction f as [|f IH]; intros n acc; [done|]. cbn [format_loop]. case_match; [cbn; lia|].
  etransitivity; [apply IH|]. cbn. lia.
Qed.

Lemma fetch_bulk x : joinable x -> fetchNodeID (Some (Resp.Bulk x)) = x.
Proof.
  intros (_ & Hcr & Hl). unfold fetchNodeID, read_once, Resp.Bulk. cbn [fmap option_fmap option_map].
  set (n := Z.of_nat (String.length x)).
  assert (Client.all_visible (FormatInt n) = true /\ (String.length (FormatInt n) <= 8)%nat) as [Hv Hf].
  { unfold FormatInt. rewrite (proj2 (Z.ltb_ge n 0)) by lia. split; [apply Client.format_visible; [lia|done]|].
    unfold format_uint. etransitivity; [apply format_length|]. assert (Z.log2 n <= Z.log2 240) as H by (apply Z.log2_le_mono; lia).
    change (Z.log2 240) with 7 in H. cbn. lia. }
  rewrite substring_all by (rewrite !Resp.length_cat; change (String.length "$") with 1%nat;
    change (String.length Resp.crlf) with 2%nat; lia).
  change (Resp.cat "$" ?r) with (String "$" r). cbv iota beta.
  change (String "$" (Resp.cat (FormatInt n) ?r)) with (Resp.cat (String "$" (FormatInt n)) r).
  rewrite cut_crlf_cat by (cbn [has_byte]; by rewrite visible_no_cr).
  rewrite <-(Resp.cat_nil_r Resp.crlf). by rewrite cut_crlf_cat.
Qed.

(** ** Servers meeting each other *)

Definition views : Type := string -> Cluster.Cluster.

(** [x] is told to meet the address of [y]. *)
Definition meet (addr : string -> string) (base : string -> Machine) (e : Z * string * string) (vw : views) : views :=
  let '(t, x, y) := e in
  fun z =>
    if decide (z = x)
    then (Cluster.Meet t (addr y) (fetchNodeID (serve "" myid_request (with_cluster (vw y) (base y)))) (vw x)).2
    else vw z.

(** What a server knows in the middle of it. *)
Record knows (ids : list string) (addr : string -> string) (x : string) (c : Cluster.Cluster) : Prop := {
  k_balanced : Cluster.balanced c;
  k_self : Cluster.ID (Cluster.self c) = x;
  k_in : x ∈ Cluster.ID <$> Cluster.nodes c;
  k_nodup : NoDup (Cluster.ID <$> Cluster.nodes c);
  k_known : forall n, n ∈ Cluster.nodes c -> Cluster.ID n ∈ ids /\ Cluster.Addr n = addr (Cluster.ID n)
}.

Lemma knows_alone ids addr t x : x ∈ ids -> knows ids addr x (Cluster.NewCluster t x (addr x) "").
Proof.
  intros Hx. split; [apply Cluster.NewCluster_balanced| | |..].
  - destruct (Cluster.NewCluster_tag t x (addr x) "") as [H _]. by injection H.
  - rewrite Cluster.NewCluster_ids, sort_strings_perm. left.
  - rewrite Cluster.NewCluster_ids, sort_strings_perm. change (Cluster.peer_ids "") with (@nil string). apply NoDup_singleton.
  - intros n Hn. unfold Cluster.NewCluster in Hn. cbn in Hn. apply list_elem_of_singleton in Hn as ->.
    unfold Cluster.mark_self. cbn. by rewrite String.eqb_refl.
Qed.

(** One more acquaintance. *)
Lemma knows_meet ids addr x y t c :
  (forall a b, a ∈ ids -> b ∈ ids -> addr a = addr b -> a = b) -> y ∈ ids -> y <> ""%string -> knows ids addr x c ->
  let c' := (Cluster.Meet t (addr y) y c).2 in
  knows ids addr x c' /\ y ∈ Cluster.ID <$> Cluster.nodes c' /\
  (forall z, z ∈ Cluster.ID <$> Cluster.nodes c -> z ∈ Cluster.ID <$> Cluster.nodes c').
Proof.
  intros Hinj Hy Hne [Hb Hs Hi Hn Hk] c'. destruct (decide (addr y ∈ Cluster.Addr <$> Cluster.nodes c)) as [Hin|Hin].
  - apply list_elem_of_fmap in Hin as (n & Ha & Hnn). destruct (Hk n Hnn) as [Hid Had].
    assert (Cluster.ID n = y) as Hny by (apply Hinj; [done|done|congruence]).
    assert (c' = c) as ->.
    { unfold c', Cluster.Meet. assert (existsb (fun n => (Cluster.Addr n =? addr y)%string) (Cluster.nodes c) = true) as ->; [|done].
      apply existsb_exists. exists n. split; [by apply list_elem_of_In|]. by apply String.eqb_eq. }
    split; [by split|]. split; [|done]. apply list_elem_of_fmap. by exists n.
  - pose proof (Cluster.Meet_balanced t (addr y) y c Hb Hne Hin) as H. unfold c'. destruct (Cluster.Meet t (addr y) y c) as [r c1].
    cbn [snd]. destruct H as (_ & Hb1 & Hids & Haddrs & Hself).
    assert (forall z, z ∈ Cluster.ID <$> Cluster.nodes c1 <-> z ∈ Cluster.ID <$> Cluster.nodes c \/ z = y) as Hz.
    { intros z. rewrite Hids, elem_of_app, list_elem_of_singleton. done. }
    split; [|split; [rewrite Hz; by right|intros z; rewrite Hz; by left]]. split; [done|congruence|rewrite Hz; by left|..].
    + rewrite Hids. apply NoDup_app. split; [done|]. split; [|apply NoDup_singleton].
      intros z Hzc ->%list_elem_of_singleton. destruct Hin. apply list_elem_of_fmap in Hzc as (n & -> & Hnn).
      apply list_elem_of_fmap. exists n. split; [|done]. symmetry. by apply Hk.
    + intros n Hnn. apply list_elem_of_lookup in Hnn as [i Hnn].
      assert ((Cluster.ID <$> Cluster.nodes c1) !! i = Some (Cluster.ID n)) as H1 by (by rewrite list_lookup_fmap, Hnn).
      assert ((Cluster.Addr <$> Cluster.nodes c1) !! i = Some (Cluster.Addr n)) as H2 by (by rewrite list_lookup_fmap, Hnn).
      rewrite Hids in H1. rewrite Haddrs in H2.
      destruct (decide (i < length (Cluster.nodes c))%nat) as [Hlt|Hge].
      * rewrite lookup_app_l in H1 by (by rewrite length_fmap). rewrite lookup_app_l in H2 by (by rewrite length_fmap).
        rewrite list_lookup_fmap in H1, H2. destruct (Cluster.nodes c !! i) as [n0|] eqn:E0; [|done].
        injection H1 as <-. injection H2 as <-. apply Hk. by eapply list_elem_of_lookup_2.
      * rewrite lookup_app_r, length_fmap in H1 by (rewrite length_fmap; lia). rewrite lookup_app_r, length_fmap in H2 by (rewrite length_fmap; lia).
        destruct (i - length (Cluster.nodes c))%nat as [|k]; [|by destruct k]. injection H1 as <-. injection H2 as <-. done.
Qed.

Section Mesh.
Context (ids : list string) (addr : string -> string) (base : string -> Machine).
Context (addr_inj : forall x y, x ∈ ids -> y ∈ ids -> addr x = addr y -> x = y).
Context (ids_joinable : forall x, x ∈ ids -> joinable x).
Context (base_ok : forall x, x ∈ ids -> 0 <= SlowLog.maxLen (slowlog (base x))).

Lemma meet_learns (vw : views) t x y :
  y ∈ ids -> knows ids addr y (vw y) -> meet addr base (t, x, y) vw x = (Cluster.Meet t (addr y) y (vw x)).2.
Proof.
  intros Hy Hk. cbn [meet]. rewrite decide_True by done. rewrite serve_myid by (by apply base_ok).
  change (cluster (core (with_cluster (vw y) (base y)))) with (vw y). by rewrite (k_self _ _ _ _ Hk), fetch_bulk by (by apply ids_joinable).
Qed.

Lemma meets_know evs : forall vw,
  (forall e, e ∈ evs -> e.1.2 ∈ ids /\ e.2 ∈ ids) -> (forall x, x ∈ ids -> knows ids addr x (vw x)) ->
  forall x, x ∈ ids -> let c := fold_left (fun vw e => meet addr base e vw) evs vw x in
    knows ids addr x c /\ (forall z, z ∈ Cluster.ID <$> Cluster.nodes (vw x) -> z ∈ Cluster.ID <$> Cluster.nodes c) /\
    (forall t y, (t, x, y) ∈ evs -> y ∈ Cluster.ID <$> Cluster.nodes c).
Proof.
  induction evs as [|[[t a] b] evs IH]; intros vw Hev Hk x Hx; cbn [fold_left].
  - split; [by apply Hk|]. split; [done|]. intros t y H. by apply not_elem_of_nil in H.
  - destruct (Hev (t, a, b)) as [Ha Hb]; [left|]. cbn in Ha, Hb.
    destruct (knows_meet ids addr a b t (vw a) addr_inj Hb (proj1 (ids_joinable b Hb)) (Hk a Ha)) as (Hka & Hba & Hmon).
    rewrite <-(meet_learns vw t a b Hb (Hk b Hb)) in Hka, Hba, Hmon.
    assert (forall z, z <> a -> meet addr base (t, a, b) vw z = vw z) as Hother by (intros z Hz; cbn [meet]; by rewrite decide_False).
    destruct (IH (meet addr base (t, a, b) vw)) with (x := x) as (H1 & H2 & H3); [|..|done|].
    + intros e He. apply Hev. by right.
    + intros z Hz. destruct (decide (z = a)) as [->|Hne]; [done|]. rewrite Hother by done. by apply Hk.
    + split; [done|]. destruct (decide (x = a)) as [->|Hne].
      * split; [intros z Hz; by apply H2, Hmon|]. intros t' y [E|E]%elem_of_cons; [|by eapply H3]. injection E as _ <-. by apply H2.
      * rewrite Hother in H2 by done. split; [done|]. intros t' y [E|E]%elem_of_cons; [|by eapply H3]. by injection E as _ -> _.
Qed.
End Mesh.

(** C19: servers that have all met each other agree.  Servers start alone, with identifiers and addresses of
    their own and no password, and are told to meet each other in any order and any number of times, each
    learning the other's identifier from the bytes of its reply to CLUSTER MYID; once every server has met every
    other one, each key has exactly one server that believes it owns it. *)
Theorem cluster_forms (ids : list string) (addr : string -> string) (base : string -> Machine) (since : string -> Z)
    (evs : list (Z * string * string)) key :
  ids <> [] -> NoDup ids -> (forall x y, x ∈ ids -> y ∈ ids -> addr x = addr y -> x = y) ->
  (forall x, x ∈ ids -> joinable x) -> (forall x, x ∈ ids -> 0 <= SlowLog.maxLen (slowlog (base x))) ->
  (forall e, e ∈ evs -> e.1.2 ∈ ids /\ e.2 ∈ ids) ->
  (forall x y, x ∈ ids -> y ∈ ids -> x <> y -> exists t, (t, x, y) ∈ evs) ->
  let vw := fold_left (fun vw e => meet addr base e vw) evs (fun x => Cluster.NewCluster (since x) x (addr x) "") in
  exists owner, owner ∈ ids /\ forall x, x ∈ ids -> Cluster.SelfOwns key (vw x) = true <-> x = owner.
Proof.
  intros Hne Hnd Hinj Hj Hb Hev Hall vw.
  assert (0 < zlen ids) as Hlen by (destruct ids as [|i l]; [done|]; rewrite zlen_cons; pose proof (zlen_nonneg l); lia).
  pose proof (Cluster.owner_index_range (zlen ids) (Cluster.Slot key) Hlen (proj1 (Cluster.Slot_range key))) as Ho.
  destruct (lookup_lt_is_Some_2 (sort_strings ids) (Z.to_nat (Cluster.owner_index (zlen ids) (Cluster.Slot key)))) as [owner Howner].
  { rewrite sort_strings_perm. unfold zlen in *. lia. }
  exists owner. split; [rewrite <-sort_strings_perm; by eapply list_elem_of_lookup_2|]. intros x Hx.
  destruct (meets_know ids addr base Hinj Hj Hb evs (fun x => Cluster.NewCluster (since x) x (addr x) "") Hev
    (fun x Hx => knows_alone ids addr (since x) x Hx) x Hx) as ([[_ Hown] Hself Hin Hndc Hkn] & _ & Hmet).
  fold (vw x) in *. change (fold_left _ evs _ x) with (vw x) in *.
  assert (Cluster.ID <$> Cluster.nodes (vw x) ≡ₚ ids) as Hp.
  { apply NoDup_Permutation; [done|done|]. intros z. split.
    - intros (n & -> & Hn)%list_elem_of_fmap. by apply Hkn.
    - intros Hz. destruct (decide (x = z)) as [->|Hxz]; [done|]. destruct (Hall x z Hx Hz Hxz) as [t Ht]. by eapply Hmet. }
  specialize (Hown key). rewrite (sort_strings_unique _ _ Hp) in Hown.
  replace (zlen (Cluster.nodes (vw x))) with (zlen ids) in Hown by (unfold zlen; by rewrite <-Hp, length_fmap).
  rewrite Howner in Hown. injection Hown as Hown. unfold Cluster.SelfOwns. rewrite Hown, Hself, String.eqb_eq. done.
Qed.

(** A server with a password cannot be met, although the heartbeats find it alive. *)
Theorem locked_server_unmet pw t addr m c :
  pw <> ""%string -> 0 <= SlowLog.maxLen (slowlog m) -> addr ∉ (Cluster.Addr <$> Cluster.nodes c) ->
  Cluster.Meet t addr (fetchNodeID (serve pw myid_request m)) c = (Err (String.append "cannot reach node at " addr), c) /\
  pingNode (serve pw ping_request m) = true.
Proof.
  intros Hp Hs Ha. rewrite serve_locked, serve_ping by done. split; [|reflexivity].
  change (fetchNodeID (Some (Resp.Error "NOAUTH Authentication required."))) with ""%string.
  unfold Cluster.Meet. destruct (existsb _ _) eqn:E; [|done]. apply existsb_exists in E as (n & Hn & E%String.eqb_eq).
  destruct Ha. apply list_elem_of_fmap. exists n. split; [done|by apply list_elem_of_In].
Qed.
End Serve.

(** ** Two servers *)

Definition idle : Machine := Engine.bare Store.New None Replication.NewReplicationState.

Definition meet_idle : Z * string * string -> views -> views :=
  meet Conn.no_date Conn.no_date Conn.no_json Conn.no_text (fun _ => ""%string) (fun _ => Ok ""%string) Geo.flat (fun l => l)
    (fun s => s) (fun s => s) (fun _ => ""%string) (fun _ => ""%string) 1 "10.0.0.9:5000" 0 (fun _ l => l) Engine.still
    Client.addr_of (fun _ => idle).

Definition alone_views : views := fun x => Cluster.NewCluster 0 x (Client.addr_of x) "".

Definition both_ways : list (Z * string * string) := [(5, "n1", "n2"); (6, "n2", "n1"); (7, "n1", "n2")]%string.

Ltac each_id Hx := repeat (apply elem_of_cons in Hx as [->|Hx]; [|]); try (by destruct (not_elem_of_nil _ Hx)).

Lemma cluster_forms_witness :
  let vw := fold_left (fun vw e => meet_idle e vw) both_ways alone_views in
  exists owner, owner ∈ ["n1"; "n2"]%string /\
    forall x, x ∈ ["n1"; "n2"]%string -> Cluster.SelfOwns "a" (vw x) = true <-> x = owner.
Proof.
  apply (cluster_forms Conn.no_date Conn.no_date Conn.no_json Conn.no_text (fun _ => ""%string) (fun _ => Ok ""%string) Geo.flat
    (fun l => l) (fun s => s) (fun s => s) (fun _ => ""%string) (fun _ => ""%string) 1 "10.0.0.9:5000" 0 (fun _ l => l) Engine.still
    ["n1"; "n2"]%string Client.addr_of (fun _ => idle) (fun _ => 0) both_ways "a").
  - discriminate.
  - apply (bool_decide_unpack _). vm_compute. exact I.
  - intros x y Hx Hy. each_id Hx; each_id Hy; done.
  - intros x Hx. each_id Hx; (split; [discriminate|]; split; [reflexivity|apply Nat.leb_le; reflexivity]).
  - intros x _. vm_compute. discriminate.
  - intros e He. each_id He; split; apply (bool_decide_unpack _); vm_compute; exact I.
  - intros x y Hx Hy Hxy. each_id Hx; each_id Hy; try done; [exists 5|exists 6]; apply (bool_decide_unpack _); vm_compute; exact I.
Defined.

(** MEET tells only one side.  After [n1] has met [n2], and [n2] has not met [n1], both believe they own
    some keys: the same key can be written on both. *)
Theorem meet_is_one_sided :
  let vw := meet_idle (5, "n1", "n2")%string alone_views in
  exists key, Cluster.SelfOwns key (vw "n1"%string) = true /\ Cluster.SelfOwns key (vw "n2"%string) = true /\
    length (Cluster.nodes (vw "n1"%string)) = 2%nat /\ length (Cluster.nodes (vw "n2"%string)) = 1%nat.
Proof. exists "c"%string. vm_compute. repeat split. Qed.
End Join.
