(* ===== verification/ServerIsolation.v ===== *)
(** * Namespaces of connections (internal/server/server.go,
    internal/server/namespace.go)

    A command that works on one key changes no other key; with the prefix of
    its namespace before that key, a connection changes nothing in another
    namespace, in a transaction or outside one.  Some commands are not prefixed,
    and the default namespace has no prefix at all: there the isolation ends. *)
From S2P Require Import Prelude GoLib GoText SortedSet Json Store StoreStrings StoreHashes StoreSets StoreDocs Keyspace.
From S2P Require Import StoreLimits Cluster Schema Namespace Replay ServerCore ServerKeys ServerContainers ServerRules.
From S2P Require Import ServerConn.

Module Isolation.
Import Store Strings Hashes Sets Core Text Keys Containers Rules Conn Keyspace.
Open Scope server_scope.

(** ** One command, one key *)

Definition framed (h : handler) : Prop := forall args v s,
  runs (h args) v s (fun _ s' => forall k, k <> arg 1 args -> entry (store s') k = entry (store s) k).

Lemma set_ne now key value t st k : k <> key -> entry (SetAbsolute now key value t st) k = entry st k.
Proof.
  intros Hk. unfold SetAbsolute, clear_types. autorewrite with entry. unfold entry.
  destruct (IsZero t); store_cbn; by rewrite ?lookup_insert_ne, ?lookup_delete_ne by done.
Qed.

Lemma delayed_ne now key value delay ttl st k :
  k <> key -> entry (Docs.SetDelayed now key value delay ttl st) k = entry st k.
Proof.
  intros Hk. unfold Docs.SetDelayed, clear_types. autorewrite with entry. unfold entry.
  repeat case_match; store_cbn; by rewrite ?lookup_insert_ne, ?lookup_delete_ne by done.
Qed.

(** Appending to the log, whether or not that works. *)
Lemma with_aof_same s : with_aof (aof s) s = s.
Proof. by destruct s. Qed.

Lemma runs_append args v s K : (forall l e, K (Next e) (with_aof l s)) -> runs (append args) v s K.
Proof.
  intros H. unfold runs, append. destruct (aof s) eqn:E; [|by rewrite <-(with_aof_same s)].
  destruct (fault v) as [[e [|]]|]; [|rewrite <-(with_aof_same s)|]; apply H.
Qed.

Lemma runs_persist_any args v s K :
  (forall l, K (Next tt) (with_aof l s)) -> (forall l e, K (Stop e) (with_aof l s)) -> runs (persist args) v s K.
Proof.
  intros H1 H2. unfold persist. step. apply runs_append. intros l [e|]; [step; apply H2|step; apply H1].
Qed.

Lemma runs_persist_quiet_any args v s K :
  (forall l, K (Next tt) (with_aof l s)) -> runs (persist_quiet args) v s K.
Proof. intros H1. unfold persist_quiet. step. apply runs_append. intros l e. step. apply H1. Qed.

(** Parsing options does nothing but parse. *)
Lemma runs_zadd_parse_any l v s K :
  (forall m, K (Next m) s) -> (forall e, K (Stop e) s) -> runs (zadd_parse l) v s K.
Proof.
  revert l K. fix IH 1. intros [|a [|b l]] K H1 H2; cbn [zadd_parse]; [step; auto..|].
  step. step; [|auto]. step. apply IH; [intros; step|]; auto.
Qed.

Lemma runs_getex_parse_any l ttl p v s K :
  (forall o, K (Next o) s) -> (forall e, K (Stop e) s) -> runs (getex_parse l ttl p) v s K.
Proof.
  revert l ttl p K. fix IH 1. intros [|a l] ttl p K H1 H2; cbn [getex_parse]; [step; auto|].
  cbv zeta beta. repeat step; auto. 
Qed.

(** Closes the end of a handler: the last store operation left [k] alone. *)
Ltac frame :=
  intros; cbn [store with_store with_aof snd]; try reflexivity;
  repeat match goal with
  | |- entry (SetAbsolute _ _ _ _ _) _ = _ => rewrite set_ne by assumption
  | |- entry (SetNX ?t ?key ?v ?l ?st).2 _ = _ => etransitivity; [apply (exec_ne t (CSetNX key v l) st)|]
  | |- entry (SetXX ?t ?key ?v ?l ?st).2 _ = _ => etransitivity; [apply (exec_ne t (CSetXX key v l) st)|]
  | |- entry (GetSet ?t ?key ?v ?st).2 _ = _ => etransitivity; [apply (exec_ne t (CGetSet key v) st)|]
  | |- entry (GetEx ?t ?key ?l ?p ?st).2 _ = _ => etransitivity; [apply (exec_ne t (CGetEx key l p) st)|]
  | |- entry (GetDel ?t ?key ?st).2 _ = _ => etransitivity; [apply (exec_ne t (CGetDel key) st)|]
  | |- entry (Strings.Append ?t ?key ?v ?st).2 _ = _ => etransitivity; [apply (exec_ne t (CAppend key v) st)|]
  | |- entry (ExpireAt ?t ?key ?a ?st).2 _ = _ => etransitivity; [apply (exec_ne t (CExpireAt key a) st)|]
  | |- entry (Persist ?t ?key ?st).2 _ = _ => etransitivity; [apply (exec_ne t (CPersist key) st)|]
  | |- entry (HSet ?t ?key ?p ?st).2 _ = _ => etransitivity; [apply (exec_ne t (CHSet key p) st)|]
  | |- entry (HDel ?t ?key ?p ?st).2 _ = _ => etransitivity; [apply (exec_ne t (CHDel key p) st)|]
  | |- entry (HIncrBy ?t ?key ?f ?d ?st).2 _ = _ => etransitivity; [apply (exec_ne t (CHIncrBy key f d) st)|]
  | |- entry (HSetNX ?t ?key ?f ?d ?st).2 _ = _ => etransitivity; [apply (exec_ne t (CHSetNX key f d) st)|]
  | |- entry (IncrBy ?t ?key ?d ?st).2 _ = _ => etransitivity; [apply (exec_ne t (CIncrBy key d) st)|]
  | |- entry (DecrBy ?t ?key ?d ?st).2 _ = _ => etransitivity; [apply (exec_ne t (CIncrBy key (wrap64 (- d))) st)|]
  | |- entry (Incr ?t ?key ?st).2 _ = _ => etransitivity; [apply (exec_ne t (CIncrBy key 1) st)|]
  | |- entry (Get _ _ _).2 _ = _ => rewrite entry_Get
  | |- entry (Docs.SetDelayed _ _ _ _ _ _) _ = _ => rewrite delayed_ne by assumption
  | |- entry (SAdd ?t ?key ?m ?st).2 _ = _ => etransitivity; [apply (exec_ne t (CSAdd key m) st)|]
  | |- entry (SRem ?t ?key ?m ?st).2 _ = _ => etransitivity; [apply (exec_ne t (CSRem key m) st)|]
  | |- entry (ZAdd ?t ?key ?m ?st).2 _ = _ => etransitivity; [apply (exec_ne t (CZAdd key m) st)|]
  | |- entry (ZRem ?t ?key ?m ?st).2 _ = _ => etransitivity; [apply (exec_ne t (CZRem key m) st)|]
  | |- entry ?st _ = entry ?st _ => reflexivity
  end; try assumption.

(** The commands shown to be framed. *)
Definition single_key : list string :=
  ["SET"; "SETNX"; "SETEX"; "PSETEX"; "GETSET"; "GETDEL"; "GETEX"; "APPEND"; "INCR"; "INCRBY"; "DECRBY"; "DECR";
   "EXPIRE"; "PEXPIRE"; "PEXPIREAT"; "PERSIST"; "HSET"; "HSETNX"; "HDEL"; "HINCRBY"; "SADD"; "SREM"; "ZADD"; "ZREM";
   "GET"; "TYPE"; "STRLEN"; "TTL"; "PTTL"; "HGET"; "HGETALL"; "SMEMBERS"; "SISMEMBER"; "SCARD"; "ZSCORE"; "ZRANGE"].

Ltac head t := lazymatch t with ?f _ => head f | _ => t end.
Ltac unfold_handler := match goal with |- runs ?m _ _ _ => let f := head m in unfold f end.
Ltac frames :=
  repeat (first [apply runs_persist_any; [intro|do 2 intro]|apply runs_persist_quiet_any; intro
                |apply runs_zadd_parse_any; intro|apply runs_set_parse; [do 2 intro|intro]|apply runs_getex_parse_any; intro|step|unfold_handler]; cbv beta iota);
  frame.

Section Table.
Context (rfc3339 : Z -> string) (unmarshal : string -> result Json.json) (marshal : Json.json -> result string).

Lemma table_framed : Forall (fun name => exists h,
  Replay.select name (cases rfc3339 unmarshal marshal) = Some h /\ framed h) single_key.
Proof.
  repeat (apply Forall_cons_2; [eexists; split; [reflexivity|intros args v s; solve [frames]]|]). apply Forall_nil_2.
Qed.

(** ** Namespaces *)

(** The commands the loop of the connection treats itself. *)
Definition control : list string :=
  ["AUTH"; "QUIT"; "NAMESPACE"; "MULTI"; "EXEC"; "DISCARD"; "WATCH"; "UNWATCH"; "KEYS"; "RANDOMKEY"; "SCAN";
   "REPLPEER"; "UNSUBSCRIBE"; "PUNSUBSCRIBE"] ++ loop_outside.

Lemma single_key_plain : Forall (fun name => name ∈ Namespace.first_key /\ name ∉ control) single_key.
Proof. apply (bool_decide_unpack _). vm_compute. exact I. Qed.

Lemma nth_imap {A} (f : nat -> A -> A) i (l : list A) d : f i d = d -> nth i (imap f l) d = f i (nth i l d).
Proof.
  revert f i. induction l as [|x l IH]; intros f i Hd; [by destruct i|].
  destruct i; cbn; [done|]. apply (IH (f ∘ S)). exact Hd.
Qed.

Lemma prefix_name args p : ToUpper (arg 0 args) ∈ Namespace.first_key ->
  arg 0 (Namespace.prefixKeyArgs args p) = arg 0 args.
Proof.
  intros H. unfold Namespace.prefixKeyArgs, Replay.arg. destruct (p =? "")%string; [done|].
  destruct args as [|a args]; [done|]. cbn [imap nth]. unfold Namespace.is_key.
  change (nth 0 (a :: args) "") with (arg 0 (a :: args)). by rewrite bool_decide_eq_true_2.
Qed.

Lemma prefix_key args p : ToUpper (arg 0 args) ∈ Namespace.first_key -> p <> ""%string ->
  arg 1 (Namespace.prefixKeyArgs args p) = String.append p (arg 1 args) \/
  arg 1 (Namespace.prefixKeyArgs args p) = ""%string.
Proof.
  intros H Hp. unfold Namespace.prefixKeyArgs, Replay.arg. rewrite (proj2 (String.eqb_neq _ _) Hp).
  destruct args as [|a [|b args]]; [by right|by right|]. left. cbn [imap nth]. unfold Namespace.is_key.
  change (nth 0 (a :: b :: args) "") with (arg 0 (a :: b :: args)). by rewrite bool_decide_eq_true_2.
Qed.

Lemma ns_prefix_nonempty name key : String.append (Namespace.ns_prefix name) key <> ""%string.
Proof. by destruct name. Qed.

(** A command of [single_key] at the dispatcher and at the end of the loop. *)
Lemma framed_exec v args s d s' o :
  ToUpper (arg 0 args) ∈ single_key -> exec_reply rfc3339 unmarshal marshal v args s = Some (Ret (d, s', o)) ->
  forall k, k <> arg 1 args -> entry (store s') k = entry (store s) k.
Proof.
  intros Hin. destruct (proj1 (Forall_forall _ _) table_framed _ Hin) as (h & Hh & Hf).
  specialize (Hf args v s). unfold exec_reply, Conn.exec. rewrite Hh. unfold runs in Hf.
  destruct (h args v s) as [[[f s1] o1]|]; [|done]. destruct f as [|[e|]]; intros [= <- <- <-]; exact Hf.
Qed.

Lemma framed_command t args n c n' c' o b :
  ToUpper (arg 0 args) ∈ single_key -> maxMemory (store (server n)) <= 0 ->
  handle_command rfc3339 unmarshal marshal t args n c = Some (Ret (n', c', o, b)) ->
  c' = c /\ forall k, k <> arg 1 args -> entry (store (server n')) k = entry (store (server n)) k.
Proof.
  intros Hin Hm. unfold handle_command. set (w := isWriteCommand _).
  destruct (w && is_replica n && negb (multi_master n)); [by intros [= <- <-]|].
  assert ((if w then evict t (server n) else (Ok tt, server n)) = (Ok tt, server n)) as ->.
  { destruct w; [|done]. unfold evict, Limits.EvictIfNeeded. rewrite (proj2 (Z.leb_le _ _) Hm).
    by destruct (server n). }
  destruct (exec_reply _ _ _ _ _ _) as [[[[d s1] o1]|]|] eqn:E; [|done|done].
  pose proof (framed_exec _ _ _ _ _ _ Hin E) as Hf. unfold go. intros [= <- <- <- <-].
  split; [done|]. case_match; exact Hf.
Qed.

(** ** A connection in a namespace *)

(** The commands of transactions. *)
Definition transactional : list string := ["MULTI"; "EXEC"; "DISCARD"; "WATCH"; "UNWATCH"].

(** A command as the loop passes it on in the namespace [name]. *)
Definition prefixed (name : string) (args : Replay.command) : Prop :=
  ToUpper (arg 0 args) ∈ single_key /\
  (arg 1 args = ""%string \/ exists key, arg 1 args = String.append (Namespace.ns_prefix name) key).

Definition confined (name : string) (c : Connection) : Prop :=
  nsPrefix c = Namespace.ns_prefix name /\ Forall (prefixed name) (queue c).

Lemma prefixed_ne name other args key :
  Namespace.no_colon name -> Namespace.no_colon other -> other <> name -> prefixed name args ->
  String.append (Namespace.ns_prefix other) key <> arg 1 args.
Proof.
  intros Hn Ho Hne [_ [-> | [key' ->]]]; [apply ns_prefix_nonempty|].
  intros E. by destruct (Namespace.prefix_disjoint _ _ _ _ Ho Hn E).
Qed.

Lemma prefix_prefixed name args :
  ToUpper (arg 0 args) ∈ single_key -> prefixed name (Namespace.prefixKeyArgs args (Namespace.ns_prefix name)).
Proof.
  intros Hin. destruct (proj1 (Forall_forall _ _) single_key_plain _ Hin) as [Hfk _].
  split; [by rewrite prefix_name|].
  destruct (prefix_key args (Namespace.ns_prefix name)) as [-> | ->]; [done|by destruct name|right; by eexists|by left].
Qed.

(** The queue of a transaction, when what happens between its commands leaves [k] alone. *)
Lemma exec_queue_frame k q vs gaps n n' o :
  Forall (fun args => ToUpper (arg 0 args) ∈ single_key /\ k <> arg 1 args) q ->
  (forall i m, entry (store (server (gaps i m))) k = entry (store (server m)) k) ->
  exec_queue rfc3339 unmarshal marshal vs gaps q n = Some (Ret (n', o)) ->
  entry (store (server n')) k = entry (store (server n)) k.
Proof.
  intros Hq. revert vs gaps n n' o. induction Hq as [|args q [Hin Hk] _ IH]; intros vs gaps n n' o Hg; cbn [exec_queue].
  - by intros [= <- <-].
  - destruct (exec_reply _ _ _ _ _ _) as [[[[d s1] o1]|]|] eqn:E; [|done|done].
    destruct (exec_queue _ _ _ _ _ q _) as [[[n2 o2]|]|] eqn:E'; [|done|done]. intros [= <- <-].
    rewrite (IH _ _ _ _ _ (fun i => Hg (S i)) E'). cbn [server with_server].
    rewrite (framed_exec _ _ _ _ _ _ Hin E k Hk). apply Hg.
Qed.

(** One turn of a command of [single_key]. *)
Lemma turn_single t args n c n' c' o b name :
  confined name c -> ToUpper (arg 0 args) ∈ single_key -> maxMemory (store (server n)) <= 0 ->
  handle rfc3339 unmarshal marshal t args n c = Some (Ret (n', c', o, b)) ->
  confined name c' /\ forall k, (forall args, prefixed name args -> k <> arg 1 args) ->
  entry (store (server n')) k = entry (store (server n)) k.
Proof.
  intros [Hns Hq] Hin Hm. destruct (proj1 (Forall_forall _ _) single_key_plain _ Hin) as [Hfk Hc].
  assert (Namespace.ns_prefix name <> ""%string) as Hpre by by destruct name.
  unfold handle. destruct args as [|a args]; [by intros [= <- <-]|].
  change (ToUpper (arg 0 (a :: args))) with (ToUpper a) in *.
  assert (forall w, w ∈ control -> (ToUpper a =? w)%string = false) as Hw.
  { intros w Hw. apply String.eqb_neq. intros E. by rewrite E in Hc. }
  case_match; [by intros [= <- <-]|].
  rewrite !Hw by (apply (bool_decide_unpack _); vm_compute; exact I).
  rewrite (bool_decide_eq_false_2 (ToUpper a ∈ loop_outside)) by (intros H'; apply Hc, elem_of_app; by right).
  rewrite Hns, (proj2 (String.eqb_neq _ _) Hpre). cbn [negb andb orb].
  pose proof (prefix_prefixed name (a :: args) Hin) as Hp.
  destruct (active c).
  - intros [= <- <-]. split; [|done]. split; [done|]. apply Forall_app. by split; [|constructor].
  - intros Hh. destruct (framed_command _ _ _ _ _ _ _ _ (proj1 Hp) Hm Hh) as [-> Hf].
    split; [by split|]. intros k Hk. apply Hf, Hk, Hp.
Qed.

Lemma transactional_stays x : x ∈ transactional -> x ∈ loop_outside -> False.
Proof.
  intros Hx. revert x Hx. refine (proj1 (Forall_forall (.∉ loop_outside) _) _).
  apply (bool_decide_unpack _). vm_compute. exact I.
Qed.

Lemma confined_tx name a q w c : confined name c -> Forall (prefixed name) q -> confined name (with_tx a q w c).
Proof. intros [Hns _] Hq. by split. Qed.

Lemma confined_queue name c : confined name c -> Forall (prefixed name) (queue c).
Proof. by intros []. Qed.

Ltac kept := first [assumption|apply confined_tx; [assumption|first [apply Forall_nil_2|apply confined_queue; assumption]]].

(** One turn of a command of transactions. *)
Lemma turn_tx t args n c n' c' o b name k :
  confined name c -> ToUpper (arg 0 args) ∈ transactional ->
  (forall args, prefixed name args -> k <> arg 1 args) ->
  (forall i m, entry (store (server (gaps t i m))) k = entry (store (server m)) k) ->
  handle rfc3339 unmarshal marshal t args n c = Some (Ret (n', c', o, b)) ->
  confined name c' /\ entry (store (server n')) k = entry (store (server n)) k.
Proof.
  intros Hc Hin Hk Hg. unfold handle. destruct args as [|a args]; [by intros [= <- <-]|].
  change (ToUpper (arg 0 (a :: args))) with (ToUpper a) in *.
  case_match; [by intros [= <- <-]|].
  rewrite (bool_decide_eq_false_2 (ToUpper a ∈ loop_outside)) by (intros H'; exact (transactional_stays _ Hin H')).
  unfold transactional in Hin.
  repeat (apply elem_of_cons in Hin as [-> |Hin]); [..|by apply not_elem_of_nil in Hin]; cbn -[Namespace.prefixKeyArgs]; rewrite andb_false_r.
  - destruct (active c); intros [= <- <-]; (split; [kept|done]).
  - unfold handle_exec. destruct (active c); [|intros [= <- <-]; (split; [kept|done])]. cbn [negb].
    destruct (match watched c with Some _ => _ | None => _ end);
      [intros [= <- <-]; (split; [kept|done])|]. unfold execTransaction.
    destruct (exec_queue _ _ _ _ _ _ _) as [[[n2 o2]|]|] eqn:E; [|done|done]. intros [= <- <-].
    split; [kept|]. eapply exec_queue_frame; [|exact Hg|exact E].
    eapply Forall_impl; [apply Hc|]. intros q Hp. split; [apply Hp|by apply Hk].
  - destruct (active c); intros [= <- <-]; (split; [kept|done]).
  - unfold handle_watch. repeat case_match; intros [= <- <-]; (split; [kept|done]).
  - intros [= <- <-]; (split; [kept|done]).
Qed.

(** What happens to a node while a connection sends commands of [single_key] and of transactions, with no
    memory limit, and the other clients, between its commands and in the middle of its EXEC, leave the key
    [k] alone. *)
Inductive works (k : string) : Node * Connection -> Node * Connection -> Prop :=
| works_nothing x : works k x x
| works_mine t args n c n' c' o b x :
    ToUpper (arg 0 args) ∈ single_key ++ transactional -> maxMemory (store (server n)) <= 0 ->
    (forall i m, entry (store (server (gaps t i m))) k = entry (store (server m)) k) ->
    handle rfc3339 unmarshal marshal t args n c = Some (Ret (n', c', o, b)) ->
    works k (n', c') x -> works k (n, c) x
| works_others n n' c x :
    entry (store (server n')) k = entry (store (server n)) k -> works k (n', c) x -> works k (n, c) x.

(** C7: namespaces keep their keys apart.  A connection enters a namespace (a name without a colon, as CREATE
    demands) with nothing queued and sends any
    sequence of the 36 commands of [single_key] (reads and writes of strings, hashes, sets, sorted sets and
    deadlines that work on one key; not ZPOPMIN, LREM and others that are not prefixed) and of MULTI, EXEC,
    DISCARD, WATCH and UNWATCH, so also transactions of such commands.  Whatever the store holds and
    whatever the outcome of each command, it never changes a key of another namespace: a key that the other
    clients leave alone, between its turns and in the middle of its EXEC, keeps its value, type and deadline.
    No memory limit is set, so that nothing is evicted. *)
Theorem namespace_isolation n c n' c' name other key :
  nsPrefix c = Namespace.ns_prefix name -> queue c = [] ->
  Namespace.no_colon name -> Namespace.no_colon other -> other <> name ->
  let k := String.append (Namespace.ns_prefix other) key in
  works k (n, c) (n', c') -> entry (store (server n')) k = entry (store (server n)) k.
Proof.
  intros Hns Hq Hn Ho Hne k Hw.
  assert (forall args, prefixed name args -> k <> arg 1 args) as Hk
    by (intros args Hp; exact (prefixed_ne name other args key Hn Ho Hne Hp)).
  assert (confined name c) as Hc by (split; [done|rewrite Hq; apply Forall_nil_2]). clear Hns Hq.
  remember (n, c) as x eqn:Ex. remember (n', c') as y eqn:Ey. revert n c Hc Ex.
  induction Hw as [x|t args n0 c0 n1 c1 o b x Hin Hm Hg Hh _ IH|n0 n1 c0 x He _ IH]; intros n c Hc Ex;
    [rewrite Ey in Ex|..]; injection Ex as <- <-; [done|..].
  - assert (confined name c1 /\ entry (store (server n1)) k = entry (store (server n0)) k) as [Hc1 <-];
      [|by eapply IH].
    apply elem_of_app in Hin as [Hin|Hin]; [|by eapply turn_tx].
    destruct (turn_single _ _ _ _ _ _ _ _ _ Hc Hin Hm Hh) as [H1 H2]. auto.
  - transitivity (entry (store (server n1)) k); [by eapply IH|exact He].
Qed.
End Table.

(** ** Concrete nodes *)

(** A server without peers with one key in the namespace [b]. *)
Definition shop : Store := SetAbsolute 0 "b:k" "v" zeroTime New.
Definition shop_node : Node := node (alone shop None) "".
Definition in_namespace (name : string) : Connection := mkConn true name (Namespace.ns_prefix name) false [] None.

(** A client of the namespace [a] that sets its own [k], alone and in a transaction; while EXEC runs,
    another client writes [b:other]. *)
Definition busy (t : Z) : turn :=
  mkTurn (vs (tick t)) (perm (tick t))
    (fun _ m => with_server (with_store (SetAbsolute t "b:other" "x" zeroTime (store (server m))) (server m)) m).

Definition errands : list (turn * Replay.command) :=
  [(tick 1, ["SET"; "k"; "w"]); (tick 2, ["WATCH"; "k"]); (tick 3, ["MULTI"]); (tick 4, ["SET"; "k"; "w2"]);
   (busy 5, ["EXEC"])]%string.

(** The errands one after the other, as long as they are what [works] is about. *)
Fixpoint run_errands (l : list (turn * Replay.command)) (n : Node) (c : Connection) : Node * Connection :=
  match l with
  | [] => (n, c)
  | (t, args) :: l =>
      if bool_decide (ToUpper (arg 0 args) ∈ single_key ++ transactional) && (maxMemory (store (server n)) <=? 0) then
        match handle no_date no_json no_text t args n c with
        | Some (Ret (n, c, _, _)) => run_errands l n c
        | _ => (n, c)
        end
      else (n, c)
  end.

Lemma errands_work k l n c :
  Forall (fun x => forall i m, entry (store (server (gaps x.1 i m))) k = entry (store (server m)) k) l ->
  works no_date no_json no_text k (n, c) (run_errands l n c).
Proof.
  intros Hl. revert n c. induction Hl as [|[t args] l Hg _ IH]; intros n c; cbn [run_errands]; [apply works_nothing|].
  case_bool_decide; [|apply works_nothing]. destruct (_ <=? 0) eqn:Hm; [|apply works_nothing]. apply Z.leb_le in Hm. cbn [andb].
  destruct (handle _ _ _ t args n c) as [[[[[n' c'] o] b]|]|] eqn:E; [|apply works_nothing..].
  by eapply works_mine.
Qed.

Lemma namespace_isolation_witness :
  let '(n', c') := run_errands errands shop_node (in_namespace "a") in
  e_kv (entry (store (server n')) "a:k") = Some "w2"%string /\
  e_kv (entry (store (server n')) "b:other") = Some "x"%string /\
  entry (store (server n')) "b:k" = entry (store (server shop_node)) "b:k".
Proof.
  destruct (run_errands errands shop_node (in_namespace "a")) as [n' c'] eqn:E.
  split; [|split].
  - change n' with (n', c').1. rewrite <-E. vm_compute. reflexivity.
  - change n' with (n', c').1. rewrite <-E. vm_compute. reflexivity.
  - refine (namespace_isolation no_date no_json no_text shop_node (in_namespace "a") n' c' "a" "b" "k"
      eq_refl eq_refl eq_refl eq_refl _ _); [discriminate|]. rewrite <-E. apply errands_work.
    repeat apply Forall_cons_2; try apply Forall_nil_2; intros i m; [reflexivity..|].
    cbn [fst gaps busy server with_server store with_store]. rewrite set_ne; [reflexivity|discriminate].
Defined.

(** Where the isolation ends.  ZPOPMIN and LREM are not prefixed: a connection in the namespace [a] that
    names the key [b:z] takes members out of the sorted set of the namespace [b].  And a connection in
    the default namespace, which has no prefix, reads and overwrites the keys of every namespace. *)
Theorem namespace_gaps :
  let zset := (ZAdd 0 "b:z" [SortedSet.mkZ "m" (ParseFloat "1").1] New).2 in
  let after_pop := handle no_date no_json no_text (tick 0) ["ZPOPMIN"; "b:z"] (node (alone zset None) "") (in_namespace "a") in
  let after_set := handle no_date no_json no_text (tick 0) ["SET"; "b:k"; "w"] shop_node (new_conn shop_node) in
  is_some (e_zset (entry zset "b:z")) = true /\
  (exists n c o, after_pop = Some (Ret (n, c, o, true)) /\ e_zset (entry (store (server n)) "b:z") = None) /\
  (exists n c o, after_set = Some (Ret (n, c, o, true)) /\ e_kv (entry (store (server n)) "b:k") = Some "w"%string).
Proof.
  cbn zeta. split; [vm_compute; reflexivity|].
  split; (do 3 eexists; split; [vm_compute; reflexivity|vm_compute; reflexivity]).
Qed.
End Isolation.
